(* ===== verification/_CoqProject ===== *)
-Q . S2P
Prelude.v
Endian.v
Varint.v
ByteArray.v
ByteArraySpec.v
ByteArrayProps.v
ByteCodec.v
ByteCodecProps.v
TimeWheel.v
TimeWheelProps.v
CStr.v
HttpMessage.v
HttpMessageProps.v
HttpServer.v
HttpServerProps.v
HttpSpec.v
HttpSpecProps.v
HttpStartProps.v
HttpEdge.v
HttpEdgeProps.v
Schedule.v
ScheduleProps.v
CoLifetime.v
CoLifetimeProps.v
Epoll.v
EpollProps.v
Reactor.v
ReactorProps.v
ReactorLive.v
Hook.v
HookProps.v
Log.v
LogProps.v
LogFile.v
LogFileProps.v
LexicalCast.v
YamlText.v
LexicalCastProps.v
Config.v
ConfigProps.v
LogConf.v
LogConfProps.v
Mutex.v
MutexProps.v
RWMutexProps.v
LockedObject.v
LockedObjectProps.v
ConcurrentLog.v
ConcurrentLogProps.v
Address.v
AddressProps.v
Socket.v
SocketProps.v
Util.v
ProgramProps.v
