(* ===== verification/Prelude.v ===== *)
(** * Sylar-Framework: a verification library

    Sylar is a C++ server framework: coroutines on shared stacks, an epoll loop
    with a timing wheel, hooked system calls that turn blocking calls into
    coroutine switches, an HTTP server on top, and the libraries they use
    (byte arrays, logging, configuration, addresses, sockets, locks).  This
    development models them as they are in [src/src] and [src/src/include]
    and proves what makes them correct, or what they do instead.

    ** Style

    The embedding is shallow.  A call ends in an [outcome]: a value, an exception
    of the standard library, undefined behaviour ([Undef], with its reason), or
    [NoFuel] for a loop whose bound ran out.  A method on an object is of type
    [M S A], and its state survives an exception, as members assigned before a
    [throw] do.  Integers are [Z] with [wrap] at their width.  Pointers that are
    shared or outlive their object are locations of an explicit heap.  What
    the program does not define (the kernel, the C library, yaml-cpp, the bodies
    of callbacks and coroutines) is a parameter; what is relied on is a named
    hypothesis or the laws of a class, and a concrete instance is given for the
    witnesses.  System calls whose order matters are recorded in a trace.

    ** Files

    A component [X] is modelled in [X.v]; its theorems are in [XProps.v].

    - [Prelude]: outcomes, the monad, machine integers, bytes, hints and tactics.
    - [CStr]: [std::string] and [std::map] (as the sorted list [dict]).
    - [Endian] ([endian.hh]), [Varint] (the integer codecs of [bytearray.cc]).
    - [ByteArray] ([bytearray.hh], [bytearray.cc]): the list of nodes with its
      cursors, in a heap.  [ByteArraySpec] has its representation invariant and
      the abstract byte stream it refines; [ByteArrayProps] the theorems.
      [ByteCodec] and [ByteCodecProps]: the typed reads and writes on it.
    - [TimeWheel] ([timewheel.hh], [timewheel.cc]): slots of timers,
      [ExecuteTimeout], [GetNextTimeout].  The wheel is the base class of the epoll
      object; callbacks act on the whole of it.
    - [Epoll] ([epoll.hh], [epoll.cc], and [Eventloop] of [coroutine.cc]): the
      table of registrations over the timing wheel, the loop, and the counted
      pointer each thread has to its object.  [Reactor] is the loop as its users
      see it, what is watched and a list of deadlines; [ReactorProps] shows that the
      loop implements it, and [ReactorLive] that its deadlines are met and the events
      waited for answered.
    - [Schedule] ([coroutine.hh], [coroutine.cc]): coroutines, [Resume], [Yield],
      shared stacks, against an interface to stack memory.  [CoLifetime]: who
      holds a pointer to a coroutine, and when one is released.
    - [Hook] ([hook.cc]): [do_io], [sleep], [usleep], [close], which tie the
      scheduler, the epoll object and the wheel together.
    - [HttpMessage] ([http_message.hh], [http_message.cc]): the parser of
      requests, the printers, the headers.  [HttpServer] ([http_server.hh],
      [http_server.cc]): routing, the event handlers, the accept loop and the two
      event loops, memory and descriptors of the connections, the server object.
      [HttpSpec] is the server as clients see it, a map of connections and the
      exchanges of a client; [HttpSpecProps] shows that the loops implement it.
      [HttpStartProps]: start-up and how connections are handed to the workers.
      [HttpEdge], [HttpEdgeProps]: which connections an edge-triggered epoll can
      still report, for either loop.
    - [Log] ([log.hh], [log.cc]): levels, events, the pattern parser, loggers,
      the manager, the macros.  [LogFile]: the appender to a file, over a file
      system that several appenders share, each with its own stream.
    - [LexicalCast] ([config.hh]): the conversions, a class with an instance per
      specialisation; [YamlText] is a notation for which the laws assumed of
      yaml-cpp hold.  [Config] ([config.hh], [config.cc]): variables with
      listeners, the registry, loading.  [LogConf] ([config.cc]): the listener
      that rebuilds the loggers, which composes [Config] with [Log];
      [ProgramProps] follows it from a document's text to the loggers.
    - [Mutex] ([mutex.hh], [mutex.cc]): the wrappers of the system's locks,
      [SystemLock] and [SystemRWLock] being what is assumed of them, and the scope
      locks over the class of what they promise; [RWMutexProps]: the
      reader-writer locks.  [LockedObject]: any object whose methods hold a
      scope lock, used by threads; [ConcurrentLog] is the loggers as such an
      object, their methods cut into the steps other threads can see.
    - [Address] ([address.hh], [address.cc]), [Socket] ([socket.hh],
      [socket.cc]), [Util] ([util.cc], [singleton.hh]).

    Definitions have the names of the code; a method's name may be followed by
    [_loop], [_new] and the like for a part of it.

    ** What the theorems show

    - Refinements: the linked byte array implements one byte stream;
      coroutines on shared stacks behave as on private ones; one-shot timers
      implement a list of deadlines in ticks, counted from the last run of the
      wheel; the event loop of the coroutines a table of what is watched and those
      deadlines, whatever its callbacks register, cancel, stop or throw, and for
      the timers for which the loop returns (one-shot, below [2^31] ms, not 999
      modulo 1000); nested routing maps a list searched in order; both
      event loops of the server, with coroutines and without, with their
      objects, pointers and epoll calls, a map of connections; the methods of
      loggers used by threads take effect as if each were one step.
    - Invariants: the scheduler's execution stack; which coroutines are kept and
      which are released; the kernel's interest list
      and the table of registrations; the logger registry and, through the
      configuration, from the documents loaded to the loggers, exactly those
      the variable [logs] describes; what a log file contains; the types of
      configuration variables; the length header; the open descriptors of
      sockets, with the one each [Accept] loses.
    - Safety and liveness: no use after free, no double free and no failing
      [epoll_ctl] over any run of the server; a client's session is answered
      request by request whatever the other clients do, in the plain loop,
      which misses no event of a connection; the loop with coroutines does, and
      leaves connections that it neither waits for nor closes; while the
      event loop runs every event wakes the coroutine that waits for it, unless
      someone registered before, cancels it or replaces its registration, and a
      sleeper is woken once its time is over; scope locks exclude each other, and writers also
      readers, in every interleaving; threads that use a logger can always
      finish, and the file of an appender that no other one writes to has whole
      messages.
    - Functions and errors: the parsers of requests and of log patterns on what
      they mean and on any input, [Read] on every branch, the bound of the response
      buffer, what loading a document does and when it crashes, the division of
      host names.
    - Round trips: typed reads and writes, requests, containers as text, addresses
      as text, and where they fail: varints outside a range, headers of printed
      requests, containers inside maps.
    - Termination: [ExecuteTimeout], the pattern parser, the listing of documents.

    ** Bounds

    Loops over a list or a buffer have its length and one more as fuel, which
    their theorems show is enough: every turn consumes a part of it.  The inner
    loop of [ExecuteTimeout] restarts at the head of a slot; its theorem gives
    the fuel from the timers in the wheel.  [YamlToList] recurs on nodes of
    yaml-cpp; its fuel is their depth, which the theorem assumes and a document
    with a cycle of aliases does not have.  [Eventloop] runs for as many
    turns as it is given inputs; the fuel of its timers is any from some number
    on.

    ** Not modelled, and why

    - The assembly of [swapcontext], the creation and joining of threads and
      [dlsym]: outside of the code.
    - The buffering of log files, and what the components log on an error: output
      only.  [vasprintf] is a parameter.
    - [WriteAny] and [ReadAny] of the byte array: no instantiation of the first
      compiles.  [ReadScopeLockImpl]: its constructor calls a method that its
      locks do not have.
    - The bodies of pthread's locks: the interfaces of [Mutex] state what is
      relied on.  Outside of [ConcurrentLog] an operation under a lock is a single
      step, which is what [LockedObject] shows of such operations; the event
      loops of two workers share no connection, and [HttpSpec] interleaves whole
      turns of them.
    - Memory exhaustion; the tests and example programs. *)

From Stdlib Require Export ZArith Lia Bool Ascii String.
From stdpp Require Export base gmap list strings fin_maps relations.

Set Default Goal Selector "!".

(** ** Outcomes of a C++ computation

    A call returns normally, throws, or leaves the language ([Undef]: null or
    dangling access, out-of-bounds copy, use of an indeterminate value, a failed
    [assert]).
    [NoFuel] marks a loop whose bound ran out. *)

Inductive exn :=
| out_of_range (msg : string)
| invalid_argument (msg : string)
| logic_error (msg : string)
| runtime_error (msg : string)
| length_error (msg : string)
| bad_function_call.

#[global] Instance exn_eq_dec : EqDecision exn.
Proof. solve_decision. Defined.

Inductive outcome (A : Type) :=
| Ok (a : A)
| Throw (e : exn)
| Undef (why : string)
| NoFuel.
Arguments Ok {A} a.
Arguments Throw {A} e.
Arguments Undef {A} why.
Arguments NoFuel {A}.

#[global] Instance outcome_ret : MRet outcome := @Ok.
#[global] Instance outcome_bind : MBind outcome := λ A B f o,
  match o with
  | Ok a => f a
  | Throw e => Throw e
  | Undef w => Undef w
  | NoFuel => NoFuel
  end.

Definition is_undef {A} (o : outcome A) : Prop := ∃ w, o = Undef w.

Lemma outcome_inv {A B} (o : outcome A) (f : A → outcome B) b : o ≫= f = Ok b → ∃ a, o = Ok a ∧ f a = Ok b.
Proof. destruct o as [a| | |]; [|done..]. by exists a. Qed.

(** ** State and outcome: the effects of a method on its object

    The state survives an exception, as members assigned before a [throw]
    keep their new value. *)

Definition M (S A : Type) : Type := S → outcome A * S.

#[global] Instance M_ret {S} : MRet (M S) := λ A a s, (Ok a, s).
#[global] Instance M_bind {S} : MBind (M S) := λ A B f m s,
  match m s with
  | (Ok a, s') => f a s'
  | (Throw e, s') => (Throw e, s')
  | (Undef w, s') => (Undef w, s')
  | (NoFuel, s') => (NoFuel, s')
  end.

Definition raise {S A} (e : exn) : M S A := λ s, (Throw e, s).
Definition undef {S A} (w : string) : M S A := λ s, (Undef w, s).
Definition nofuel {S A} : M S A := λ s, (NoFuel, s).
Definition get {S} : M S S := λ s, (Ok s, s).
Definition modify {S} (f : S → S) : M S unit := λ s, (Ok tt, f s).
Definition lift {S A} (o : outcome A) : M S A := λ s, (o, s).

Section MonadFacts.
Context {S A B : Type}.
Implicit Types (m : M S A) (f : A → M S B) (s : S).

Lemma bind_ok m f s a s' : m s = (Ok a, s') → (m ≫= f) s = f a s'.
Proof. intros H. unfold mbind, M_bind. by rewrite H. Qed.

Lemma bind_throw m f s e s' : m s = (Throw e, s') → (m ≫= f) s = (Throw e, s').
Proof. intros H. unfold mbind, M_bind. by rewrite H. Qed.

Lemma bind_undef m f s w s' : m s = (Undef w, s') → (m ≫= f) s = (Undef w, s').
Proof. intros H. unfold mbind, M_bind. by rewrite H. Qed.

Lemma bind_nofuel m f s s' : m s = (NoFuel, s') → (m ≫= f) s = (NoFuel, s').
Proof. intros H. unfold mbind, M_bind. by rewrite H. Qed.

Lemma bind_inv m f s b s' : (m ≫= f) s = (Ok b, s') → ∃ a s1, m s = (Ok a, s1) ∧ f a s1 = (Ok b, s').
Proof. unfold mbind, M_bind. destruct (m s) as [[a| | |] s1]; [|done..]. by exists a, s1. Qed.

Lemma bind_ret (a : A) f s : ((mret a : M S A) ≫= f) s = f a s.
Proof. done. Qed.

Lemma bind_get (f : S → M S B) s : ((get : M S S) ≫= f) s = f s s.
Proof. done. Qed.

Lemma bind_modify (g : S → S) (f : unit → M S B) s :
  (modify g ≫= f) s = f tt (g s).
Proof. done. Qed.

Lemma bind_lift_ok (a : A) f s : ((lift (Ok a) : M S A) ≫= f) s = f a s.
Proof. done. Qed.

Lemma bind_assoc {C} m f (g : B → M S C) s :
  ((m ≫= f) ≫= g) s = (m ≫= (λ a, f a ≫= g)) s.
Proof. unfold mbind, M_bind. by destruct (m s) as [[] ?]. Qed.
End MonadFacts.

(** [run H] executes the first command of the goal with the equation [H];
    [mgo] takes the administrative steps. *)
Ltac mgo := repeat (first
  [ rewrite bind_get | rewrite bind_modify | rewrite bind_ret
  | rewrite bind_lift_ok ]; cbn beta iota).
Ltac run H := rewrite (bind_ok _ _ _ _ _ H); cbn beta iota.

(** ** Machine integers *)

Record ity := Ity { ibits : Z; isigned : bool }.
Definition i8 := Ity 8 true.
Definition u8 := Ity 8 false.
Definition i16 := Ity 16 true.
Definition u16 := Ity 16 false.
Definition i32 := Ity 32 true.
Definition u32 := Ity 32 false.
Definition i64 := Ity 64 true.
Definition u64 := Ity 64 false.

Definition wrap_u (w z : Z) : Z := (z mod 2 ^ w)%Z.
Definition wrap_s (w z : Z) : Z :=
  ((z + 2 ^ (w - 1)) mod 2 ^ w - 2 ^ (w - 1))%Z.

(** Conversion to the integer type [t] (modulo [2^w], two's complement). *)
Definition wrap (t : ity) (z : Z) : Z :=
  if isigned t then wrap_s (ibits t) z else wrap_u (ibits t) z.

Definition imin (t : ity) : Z := if isigned t then (- 2 ^ (ibits t - 1))%Z else 0%Z.
Definition imax (t : ity) : Z :=
  if isigned t then (2 ^ (ibits t - 1) - 1)%Z else (2 ^ ibits t - 1)%Z.
Definition in_range (t : ity) (z : Z) : Prop := (imin t ≤ z ≤ imax t)%Z.

(** The integer types of the program. *)
Definition std_ity (t : ity) : Prop :=
  t ∈ [i8; u8; i16; u16; i32; u32; i64; u64].

(** Object representation: little-endian digits in base 256. *)
Fixpoint le_bytes (n : nat) (z : Z) : list Z :=
  match n with
  | O => []
  | S n' => (z mod 256)%Z :: le_bytes n' (z / 256)
  end.

Fixpoint le_value (l : list Z) : Z :=
  match l with
  | [] => 0%Z
  | b :: l' => (b + 256 * le_value l')%Z
  end.

(** A byte of memory: [None] is an indeterminate value (fresh [malloc] memory,
    an uninitialised local array). *)
Abbreviation mbyte := (option Z).
Definition is_byte (b : Z) : Prop := (0 ≤ b < 256)%Z.

(** Reading a value out of memory is defined only on initialised bytes. *)
Fixpoint defined_bytes (l : list mbyte) : option (list Z) :=
  match l with
  | [] => Some []
  | Some b :: l' => (λ r, b :: r) <$> defined_bytes l'
  | None :: _ => None
  end.

#[global] Instance ity_eq_dec : EqDecision ity.
Proof. solve_decision. Defined.

(** ** Facts about machine integers *)

Section IntFacts.
Open Scope Z_scope.

Lemma pow2_split w : 0 < w → 2 ^ w = 2 * 2 ^ (w - 1).
Proof. intros. rewrite <- Z.pow_succ_r by lia. f_equal; lia. Qed.

Lemma pow2_pos w : 0 ≤ w → 0 < 2 ^ w.
Proof. intros. by apply Z.pow_pos_nonneg. Qed.

Lemma std_ity_cases (P : ity → Prop) :
  P i8 → P u8 → P i16 → P u16 → P i32 → P u32 → P i64 → P u64 →
  ∀ t, std_ity t → P t.
Proof.
  unfold std_ity. intros ???????? t Ht.
  repeat (apply elem_of_cons in Ht as [->|Ht]; [done|]). set_solver.
Qed.

Lemma std_ity_bits t : std_ity t → 8 ≤ ibits t ≤ 64.
Proof. apply (std_ity_cases (λ t, 8 ≤ ibits t ≤ 64)); cbn; lia. Qed.

Lemma wrap_range t z : 0 < ibits t → in_range t (wrap t z).
Proof.
  intros Hw. unfold in_range, imin, imax, wrap, wrap_s, wrap_u.
  pose proof (pow2_split _ Hw). pose proof (pow2_pos (ibits t) ltac:(lia)).
  pose proof (Z.mod_pos_bound z (2 ^ ibits t)).
  pose proof (Z.mod_pos_bound (z + 2 ^ (ibits t - 1)) (2 ^ ibits t)).
  destruct (isigned t); lia.
Qed.

Lemma wrap_id t z : 0 < ibits t → in_range t z → wrap t z = z.
Proof.
  intros Hw. unfold in_range, imin, imax, wrap, wrap_s, wrap_u.
  pose proof (pow2_split _ Hw). pose proof (pow2_pos (ibits t) ltac:(lia)).
  destruct (isigned t); intros; rewrite Z.mod_small; lia.
Qed.

Lemma wrap_mod t z : wrap t z mod 2 ^ ibits t = z mod 2 ^ ibits t.
Proof.
  unfold wrap, wrap_s, wrap_u. destruct (isigned t).
  - rewrite Zminus_mod_idemp_l. f_equal. lia.
  - apply Zmod_mod.
Qed.

Lemma wrap_cong t a b : a mod 2 ^ ibits t = b mod 2 ^ ibits t → wrap t a = wrap t b.
Proof.
  intros H. unfold wrap, wrap_s, wrap_u. destruct (isigned t); [|done].
  by rewrite <- (Zplus_mod_idemp_l a), H, Zplus_mod_idemp_l.
Qed.

Lemma in_range_inj t a b :
  0 < ibits t → in_range t a → in_range t b →
  a mod 2 ^ ibits t = b mod 2 ^ ibits t → a = b.
Proof.
  intros Hw Ha Hb Hm.
  rewrite <- (wrap_id t a), <- (wrap_id t b) by done. by apply wrap_cong.
Qed.

Lemma wrap_wrap t a : wrap t (wrap t a) = wrap t a.
Proof. apply wrap_cong, wrap_mod. Qed.

(** Bit [i] of a wrapped value is bit [i] of the value below the width. *)
Lemma testbit_wrap t z i :
  0 ≤ i < ibits t → Z.testbit (wrap t z) i = Z.testbit z i.
Proof.
  intros Hi. rewrite <- (Z.mod_pow2_bits_low z (ibits t) i) by lia.
  rewrite <- wrap_mod. by rewrite Z.mod_pow2_bits_low by lia.
Qed.

(** Equality modulo [2^w] is equality of the low [w] bits. *)
Lemma bits_mod_eq w a b :
  0 ≤ w → (∀ i, 0 ≤ i < w → Z.testbit a i = Z.testbit b i) →
  a mod 2 ^ w = b mod 2 ^ w.
Proof.
  intros Hw H. apply Z.bits_inj'. intros i Hi.
  destruct (decide (i < w)).
  - rewrite !Z.mod_pow2_bits_low by lia. apply H; lia.
  - rewrite !Z.mod_pow2_bits_high by lia. done.
Qed.

(** Above the value bits, every bit is the sign. *)
Lemma testbit_sign z w i :
  0 < w → - 2 ^ (w - 1) ≤ z < 2 ^ (w - 1) → w - 1 ≤ i →
  Z.testbit z i = (z <? 0).
Proof.
  intros Hw Hz Hi. pose proof (Z.pow_le_mono_r 2 (w - 1) i ltac:(lia) Hi).
  destruct (Z.ltb_spec z 0).
  - rewrite <- (Z.opp_involutive z), Z.bits_opp by lia.
    replace (Z.pred (- z)) with (- z - 1) by lia.
    rewrite <- (Z.mod_small (- z - 1) (2 ^ i)) by lia.
    by rewrite Z.mod_pow2_bits_high by lia.
  - rewrite <- (Z.mod_small z (2 ^ i)) by lia.
    by rewrite Z.mod_pow2_bits_high by lia.
Qed.

Lemma length_le_bytes n z : length (le_bytes n z) = n.
Proof. revert z. induction n as [|n IH]; intros z; cbn; [done|]. by rewrite IH. Qed.

Lemma le_bytes_is_byte n z : Forall is_byte (le_bytes n z).
Proof.
  revert z. induction n as [|n IH]; intros z; cbn; constructor; [|done].
  apply Z.mod_pos_bound. lia.
Qed.

Lemma le_value_bound l :
  Forall is_byte l → 0 ≤ le_value l < 2 ^ (8 * Z.of_nat (length l)).
Proof.
  unfold is_byte. induction 1 as [|b l Hb Hl IH]; cbn [le_value length]; [lia|].
  replace (8 * Z.of_nat (S (length l))) with (8 + 8 * Z.of_nat (length l)) by lia.
  rewrite Z.pow_add_r by lia. change (2 ^ 8) with 256. lia.
Qed.

Lemma le_value_bytes n z : le_value (le_bytes n z) = z mod 2 ^ (8 * Z.of_nat n).
Proof.
  revert z. induction n as [|n IH]; intros z; cbn [le_value le_bytes].
  - by rewrite Z.mod_1_r.
  - rewrite IH. replace (8 * Z.of_nat (S n)) with (8 + 8 * Z.of_nat n) by lia.
    rewrite Z.pow_add_r by lia. change (2 ^ 8) with 256.
    rewrite Z.rem_mul_r; [done|lia|]. apply pow2_pos; lia.
Qed.

Lemma le_bytes_value l : Forall is_byte l → le_bytes (length l) (le_value l) = l.
Proof.
  unfold is_byte. induction 1 as [|b l Hb Hl IH]; cbn [le_value le_bytes length]; [done|].
  replace ((b + 256 * le_value l) mod 256) with b.
  - replace ((b + 256 * le_value l) / 256) with (le_value l); [by rewrite IH|].
    rewrite Z.mul_comm, Z.div_add, Z.div_small by lia. lia.
  - rewrite Z.mul_comm, Z.mod_add, Z.mod_small by lia. lia.
Qed.

Lemma le_bytes_mod n z : le_bytes n (z mod 2 ^ (8 * Z.of_nat n)) = le_bytes n z.
Proof.
  rewrite <- le_value_bytes.
  rewrite <- (length_le_bytes n z) at 1. apply le_bytes_value, le_bytes_is_byte.
Qed.
End IntFacts.

Lemma defined_bytes_some l : defined_bytes (Some <$> l) = Some l.
Proof. induction l as [|b l IH]; cbn; [done|]. by rewrite IH. Qed.

Create HintDb sylar.
#[export] Hint Resolve wrap_range wrap_id le_bytes_is_byte pow2_pos : sylar.
Create Rewrite HintDb sylar_len.
#[export] Hint Rewrite length_le_bytes @length_app @length_take @length_drop
  @length_fmap @length_insert @length_replicate : sylar_len.

(** Length side conditions. *)
Ltac len := autorewrite with sylar_len in *; cbn in *; lia.

(** Closed range and membership goals of the witnesses. *)
Ltac in_range_closed := vm_compute; split; congruence.
Ltac std_ity_closed := unfold std_ity; set_solver.

(** ** Lists *)

Section ListFacts.
Context {A : Type}.
Implicit Types l k : list A.

Lemma take_drop_split l n m : take (n + m) l = take n l ++ take m (drop n l).
Proof.
  revert l. induction n as [|n IH]; intros [|x l]; cbn; [done|done| |].
  - by rewrite take_nil.
  - by rewrite IH.
Qed.

Lemma drop_app_le l k n : n ≤ length l → drop n (l ++ k) = drop n l ++ k.
Proof. intros. rewrite drop_app. by replace (n - length l) with 0 by lia. Qed.

Lemma take_app_le l k n : n ≤ length l → take n (l ++ k) = take n l.
Proof.
  intros. rewrite take_app. replace (n - length l) with 0 by lia.
  by rewrite take_0, app_nil_r.
Qed.

Lemma length_concat_same (ls : list (list A)) n :
  Forall (λ l, length l = n) ls → length (concat ls) = length ls * n.
Proof. induction 1 as [|l ls Hl Hls IH]; cbn; [done|]. rewrite length_app. lia. Qed.
End ListFacts.
