(* ===== verification/Endian.v ===== *)
(** * Endianness: [src/include/endian.hh]

    The preprocessor's choice of a byte order, the byte swaps built on it and
    the in-memory representation of an integer on the host. *)

From S2P Require Import Prelude.

Module Endian.

Open Scope Z_scope.

(** The macros [BYTE_ORDER] and [BIG_ENDIAN] as the preprocessor sees them at
    the top of [endian.hh]; [None] is an identifier with no definition. *)
Record macros := Macros { BYTE_ORDER : option Z; BIG_ENDIAN : option Z }.

(** In [#if], an identifier that is not a macro stands for 0. *)
Definition pp_value (m : option Z) : Z := default 0 m.

Definition SYLAR_LITTLE_ENDIAN : Z := 1.
Definition SYLAR_BIG_ENDIAN : Z := 2.

Definition SYLAR_BYTE_ORDER (m : macros) : Z :=
  if pp_value (BYTE_ORDER m) =? pp_value (BIG_ENDIAN m)
  then SYLAR_LITTLE_ENDIAN else SYLAR_BIG_ENDIAN.

(** [endian.hh] includes only [byteswap.h] and [stdint.h], which do not define
    the two macros: this is what [bytearray.cc] is compiled with. *)
Definition no_endian_h : macros := Macros None None.
(** What a translation unit that includes glibc's [endian.h] first sees. *)
Definition endian_h_little : macros := Macros (Some 1234) (Some 4321).
Definition endian_h_big : macros := Macros (Some 4321) (Some 4321).

(** glibc's [bswap_16], [bswap_32] and [bswap_64] on [n] bytes. *)
Definition bswap (n : nat) (v : Z) : Z := le_value (rev (le_bytes n v)).

Definition sizeof (t : ity) : nat := Z.to_nat (ibits t / 8).

Definition ByteSwap (t : ity) (val : Z) : Z :=
  if Nat.eqb (sizeof t) 2 then wrap t (bswap 2 val)
  else if Nat.eqb (sizeof t) 4 then wrap t (bswap 4 val)
  else if Nat.eqb (sizeof t) 8 then wrap t (bswap 8 val)
  else 0.

Definition SwapToLittle (m : macros) (t : ity) (val : Z) : Z :=
  if SYLAR_BYTE_ORDER m =? SYLAR_LITTLE_ENDIAN then val else ByteSwap t val.

Definition SwapToBig (m : macros) (t : ity) (val : Z) : Z :=
  if SYLAR_BYTE_ORDER m =? SYLAR_LITTLE_ENDIAN then ByteSwap t val else val.

(** The bytes of [val] in memory, and the value of such bytes, on a host whose
    byte order is [le]. *)
Definition object_bytes (le : bool) (t : ity) (val : Z) : list Z :=
  let b := le_bytes (sizeof t) val in if le then b else rev b.

Definition object_value (le : bool) (t : ity) (b : list Z) : Z :=
  wrap t (le_value (if le then b else rev b)).

(** ** Facts *)

Lemma sizeof_bits t : std_ity t → 8 * Z.of_nat (sizeof t) = ibits t.
Proof. apply (std_ity_cases (λ t, 8 * Z.of_nat (sizeof t) = ibits t)); reflexivity. Qed.

Lemma sizeof_pos t : std_ity t → (0 < sizeof t ≤ 8)%nat.
Proof. apply (std_ity_cases (λ t, (0 < sizeof t ≤ 8)%nat)); split; vm_compute; lia. Qed.

Lemma length_object_bytes le t v : length (object_bytes le t v) = sizeof t.
Proof. unfold object_bytes. destruct le; rewrite ?length_rev; apply length_le_bytes. Qed.

Lemma object_bytes_is_byte le t v : Forall is_byte (object_bytes le t v).
Proof.
  unfold object_bytes. destruct le; [apply le_bytes_is_byte|].
  apply Forall_rev, le_bytes_is_byte.
Qed.

Lemma object_value_bytes le t v :
  std_ity t → in_range t v → object_value le t (object_bytes le t v) = v.
Proof.
  intros Ht Hv. pose proof (std_ity_bits _ Ht). unfold object_value, object_bytes.
  assert (wrap t (le_value (le_bytes (sizeof t) v)) = v) as E.
  { rewrite le_value_bytes, sizeof_bits by done.
    transitivity (wrap t v); [|apply wrap_id; [lia|done]].
    apply wrap_cong, Zmod_mod. }
  destruct le; [done|]. by rewrite rev_involutive.
Qed.

Lemma SYLAR_BYTE_ORDER_undefined : SYLAR_BYTE_ORDER no_endian_h = SYLAR_LITTLE_ENDIAN.
Proof. reflexivity. Qed.

Lemma SwapToLittle_undefined t v : SwapToLittle no_endian_h t v = v.
Proof. reflexivity. Qed.

Lemma SwapToLittle_visible_little t v :
  SwapToLittle endian_h_little t v = ByteSwap t v.
Proof. reflexivity. Qed.

Lemma bswap_mod n v : bswap n v mod 2 ^ (8 * Z.of_nat n) = bswap n v.
Proof.
  unfold bswap. apply Z.mod_small.
  pose proof (le_value_bound (rev (le_bytes n v))) as B.
  rewrite length_rev, length_le_bytes in B. apply B, Forall_rev, le_bytes_is_byte.
Qed.

Lemma le_bytes_bswap n v : le_bytes n (bswap n v) = rev (le_bytes n v).
Proof.
  unfold bswap.
  replace n with (length (rev (le_bytes n v))) at 1 by (by rewrite length_rev, length_le_bytes).
  apply le_bytes_value, Forall_rev, le_bytes_is_byte.
Qed.

(** For the types of two bytes and more, [ByteSwap] reverses the bytes. *)
Lemma ByteSwap_wrap t v :
  std_ity t → ibits t ≠ 8 → ByteSwap t v = wrap t (bswap (sizeof t) v).
Proof.
  apply (std_ity_cases (λ t, ibits t ≠ 8 → ByteSwap t v = wrap t (bswap (sizeof t) v)));
    intros H; done.
Qed.

Lemma ByteSwap_8 t v : ibits t = 8 → ByteSwap t v = 0.
Proof. intros H. unfold ByteSwap, sizeof. by rewrite H. Qed.

Lemma object_bytes_ByteSwap le t v :
  std_ity t → ibits t ≠ 8 →
  object_bytes le t (ByteSwap t v) = object_bytes (negb le) t v.
Proof.
  intros Ht H8. rewrite ByteSwap_wrap by done. unfold object_bytes.
  assert (le_bytes (sizeof t) (wrap t (bswap (sizeof t) v)) = rev (le_bytes (sizeof t) v)) as E.
  { rewrite <- le_bytes_mod, sizeof_bits, wrap_mod, <- sizeof_bits by done.
    rewrite bswap_mod. apply le_bytes_bswap. }
  rewrite E. destruct le; cbn; [done|]. by rewrite rev_involutive.
Qed.

Lemma ByteSwap_range t v : std_ity t → in_range t (ByteSwap t v).
Proof.
  intros Ht. pose proof (std_ity_bits _ Ht). destruct (decide (ibits t = 8)) as [H8|H8].
  - rewrite ByteSwap_8 by done. unfold in_range, imin, imax.
    destruct (isigned t); rewrite H8; cbn; lia.
  - rewrite ByteSwap_wrap by done. apply wrap_range. lia.
Qed.

Lemma ByteSwap_involutive t v :
  std_ity t → ibits t ≠ 8 → in_range t v → ByteSwap t (ByteSwap t v) = v.
Proof.
  intros Ht H8 Hv. pose proof (ByteSwap_range t (ByteSwap t v) Ht) as R.
  rewrite <- (object_value_bytes true t _ Ht R).
  rewrite !object_bytes_ByteSwap, negb_involutive by done.
  by apply object_value_bytes.
Qed.

End Endian.
