(* ===== verification/Varint.v ===== *)
(** * Integer codecs of [src/bytearray.cc]: zigzag and varint

    [EncodeZigZag], [DecodeZigZag], [EncodeVarint] and [DecodeVarint], one
    definition for the overloads or instances of each, indexed by the integer
    type.  Shifts of negative values are two's complement, as the compiler of
    the project does them. *)

From S2P Require Import Prelude Endian.

Module Varint.

Open Scope Z_scope.

(** Integer promotion: narrow types are computed in [int]. *)
Definition promote (t : ity) : ity := if ibits t <? 32 then i32 else t.

(** [(val << 1) ^ (val >> (w - 1))], narrowed to the type of [val]. *)
Definition EncodeZigZag (t : ity) (val : Z) : Z :=
  wrap t (Z.lxor (wrap (promote t) (Z.shiftl val 1)) (Z.shiftr val (ibits t - 1))).

(** [((uintW_t)val >> 1) ^ -(val & 1)]. *)
Definition DecodeZigZag (t : ity) (val : Z) : Z :=
  wrap t (Z.lxor (Z.shiftr (wrap_u (ibits t) val) 1) (- Z.land val 1)).

(** [max_sz], by the size of the type. *)
Definition max_sz (t : ity) : nat :=
  match Endian.sizeof t with
  | 1%nat => 2 | 2%nat => 3 | 4%nat => 5 | 8%nat => 10 | _ => 0
  end.

(** The loop of [EncodeVarint] from index [i], with [n] iterations left.
    [bytes] is both the index written to and the result: the loop never
    advances it. *)
Fixpoint EncodeVarint_loop (n i : nat) (val : Z) (bytes : nat) (buf : list mbyte)
  : nat * list mbyte :=
  match n with
  | O => (bytes, buf)
  | S n' =>
      if Z.land val (Z.lnot 127) =? 0 then
        ((i + 1)%nat, <[bytes := Some (Z.land val 127)]> buf)
      else
        EncodeVarint_loop n' (S i) (Z.shiftr val 7) bytes
          (<[bytes := Some (Z.lor (Z.land val 127) 128)]> buf)
  end.

Definition EncodeVarint (t : ity) (val : Z) (bytes : nat) (buf : list mbyte)
  : nat * list mbyte :=
  EncodeVarint_loop (max_sz t) 0 val bytes buf.

(** [b << offset] on a byte promoted to [int]; undefined when the shift is not
    smaller than the width or the value leaves the 32 bits. *)
Definition shl_int (b offset : Z) : outcome Z :=
  if (offset <? 32) && (b * 2 ^ offset <? 2 ^ 32)
  then Ok (wrap i32 (b * 2 ^ offset)) else Undef "shift".

Fixpoint DecodeVarint_loop (t : ity) (n i : nat) (buf : list mbyte) (offset val : Z)
  : outcome Z :=
  match n with
  | O => Ok val
  | S n' =>
      match buf !! i with
      | Some (Some b) =>
          if negb (Z.land b 128 =? 0) then
            s ← shl_int b offset; Ok (wrap t (Z.lor val s))
          else
            s ← shl_int (Z.land b 127) offset;
            DecodeVarint_loop t n' (S i) buf (offset + 7) (wrap t (Z.lor val s))
      | _ => Undef "indeterminate byte"
      end
  end.

Definition DecodeVarint (t : ity) (buf : list mbyte) (bytes : nat) : outcome Z :=
  DecodeVarint_loop t bytes 0 buf 0 0.

(** ** Zigzag *)

Lemma lxor_shift_high t val :
  std_ity t →
  EncodeZigZag t val mod 2 ^ ibits t
  = Z.lxor (2 * val) (Z.shiftr val (ibits t - 1)) mod 2 ^ ibits t.
Proof.
  intros Ht. pose proof (std_ity_bits _ Ht). unfold EncodeZigZag. rewrite wrap_mod.
  apply bits_mod_eq; [lia|]. intros i Hi. rewrite !Z.lxor_spec. f_equal.
  rewrite testbit_wrap, Z.shiftl_mul_pow2 by
    (unfold promote; destruct (ibits t <? 32) eqn:E; cbn; lia).
  f_equal. lia.
Qed.

Lemma shiftr_sign w val :
  0 < w → - 2 ^ (w - 1) ≤ val < 2 ^ (w - 1) →
  Z.shiftr val (w - 1) = if val <? 0 then -1 else 0.
Proof.
  intros Hw Hv. apply Z.bits_inj'. intros i Hi. rewrite Z.shiftr_spec by lia.
  rewrite (testbit_sign val w) by lia.
  destruct (val <? 0); [by rewrite Z.bits_m1 by lia|by rewrite Z.bits_0].
Qed.

(** The code of a signed value: [2v] or [-2v-1], modulo [2^w]. *)
Lemma EncodeZigZag_signed t val :
  std_ity t → isigned t = true → in_range t val →
  EncodeZigZag t val = wrap t (if val <? 0 then - 2 * val - 1 else 2 * val).
Proof.
  intros Ht Hs Hv. pose proof (std_ity_bits _ Ht).
  rewrite <- (wrap_id t (EncodeZigZag t val)) by
    (first [lia | apply wrap_range; lia]).
  apply wrap_cong. rewrite lxor_shift_high by done. f_equal.
  unfold in_range, imin, imax in Hv. rewrite Hs in Hv.
  rewrite shiftr_sign by lia. destruct (Z.ltb_spec val 0).
  - rewrite Z.lxor_m1_r. unfold Z.lnot. lia.
  - by rewrite Z.lxor_0_r.
Qed.

(** The code of an unsigned value is a rotation: the top bit moves to bit 0. *)
Lemma EncodeZigZag_unsigned t val :
  std_ity t → isigned t = false → in_range t val →
  EncodeZigZag t val =
    if val <? 2 ^ (ibits t - 1) then 2 * val else 2 * val - 2 ^ ibits t + 1.
Proof.
  intros Ht Hs Hv. pose proof (std_ity_bits _ Ht) as Hb.
  unfold in_range, imin, imax in Hv. rewrite Hs in Hv.
  pose proof (pow2_split (ibits t) ltac:(lia)) as Hp.
  pose proof (pow2_pos (ibits t - 1) ltac:(lia)).
  apply (in_range_inj t).
  - lia.
  - unfold EncodeZigZag. apply wrap_range; lia.
  - unfold in_range, imin, imax. rewrite Hs. destruct (Z.ltb_spec val (2 ^ (ibits t - 1))); lia.
  - rewrite lxor_shift_high by done. rewrite Z.shiftr_div_pow2 by lia.
    destruct (Z.ltb_spec val (2 ^ (ibits t - 1))).
    + rewrite Z.div_small by lia. by rewrite Z.lxor_0_r.
    + replace (val / 2 ^ (ibits t - 1)) with 1
        by (apply (Z.div_unique _ _ _ (val - 2 ^ (ibits t - 1))); lia).
      rewrite <- Z.add_nocarry_lxor.
      * replace (2 * val + 1) with (2 * val - 2 ^ ibits t + 1 + 1 * 2 ^ ibits t) by lia.
        by rewrite Z_mod_plus_full.
      * apply Z.bits_inj'. intros i Hi. rewrite Z.land_spec, Z.bits_0.
        destruct (decide (i = 0)) as [->|].
        -- rewrite Z.testbit_even_0. done.
        -- replace 1 with (2 ^ 0) by done. rewrite (Z.pow2_bits_false 0) by lia.
           apply andb_false_r.
Qed.

(** The decoder halves the code and complements it when it is odd. *)
Lemma DecodeZigZag_val t e :
  std_ity t →
  DecodeZigZag t e =
    let u := wrap_u (ibits t) e in
    wrap t (if Z.even u then u / 2 else - (u / 2) - 1).
Proof.
  intros Ht. pose proof (std_ity_bits _ Ht). unfold DecodeZigZag.
  assert (Z.land e 1 = if Z.even (wrap_u (ibits t) e) then 0 else 1) as ->.
  { assert (Z.even (wrap_u (ibits t) e) = Z.even e) as ->.
    { unfold wrap_u. rewrite <- !Z.negb_odd, <- !Z.bit0_odd.
      by rewrite Z.mod_pow2_bits_low by lia. }
    change 1 with (Z.ones 1) at 1. rewrite Z.land_ones by lia. cbn.
    rewrite Zmod_even. done. }
  cbn zeta. rewrite Z.shiftr_div_pow2 by lia. change (2 ^ 1) with 2.
  destruct (Z.even _); cbn [Z.opp].
  - by rewrite Z.lxor_0_r.
  - rewrite Z.lxor_m1_r. unfold Z.lnot. f_equal.
Qed.

Lemma zigzag_roundtrip_signed t v :
  std_ity t → isigned t = true → in_range t v →
  DecodeZigZag t (EncodeZigZag t v) = v.
Proof.
  intros Ht Hs Hv. pose proof (std_ity_bits _ Ht).
  rewrite EncodeZigZag_signed, DecodeZigZag_val by done. cbn zeta.
  assert (wrap_u (ibits t) (wrap t (if v <? 0 then - 2 * v - 1 else 2 * v))
    = if v <? 0 then - 2 * v - 1 else 2 * v) as ->.
  { unfold wrap_u. rewrite wrap_mod. apply Z.mod_small.
    pose proof (pow2_split (ibits t) ltac:(lia)).
    unfold in_range, imin, imax in Hv. rewrite Hs in Hv.
    destruct (Z.ltb_spec v 0); lia. }
  transitivity (wrap t v); [f_equal|apply wrap_id; [lia|done]].
  destruct (Z.ltb_spec v 0).
  - replace (- 2 * v - 1) with (2 * (- v - 1) + 1) by lia.
    rewrite Z.even_add, Z.even_mul. cbn.
    rewrite Z.mul_comm, Z.div_add_l by lia. change (1 / 2) with 0. lia.
  - rewrite Z.even_mul. cbn. rewrite Z.mul_comm, Z.div_mul by lia. done.
Qed.

Lemma zigzag_roundtrip_unsigned t v :
  std_ity t → isigned t = false → in_range t v →
  DecodeZigZag t (EncodeZigZag t v) =
    if v <? 2 ^ (ibits t - 1) then v else 2 ^ ibits t + 2 ^ (ibits t - 1) - 1 - v.
Proof.
  intros Ht Hs Hv. pose proof (std_ity_bits _ Ht).
  pose proof (pow2_split (ibits t) ltac:(lia)) as Hp.
  pose proof (pow2_pos (ibits t - 1) ltac:(lia)).
  rewrite DecodeZigZag_val, EncodeZigZag_unsigned by done. cbn zeta.
  unfold in_range, imin, imax in Hv. rewrite Hs in Hv. unfold wrap, wrap_u. rewrite Hs.
  destruct (Z.ltb_spec v (2 ^ (ibits t - 1))).
  - rewrite (Z.mod_small (2 * v)) by lia. rewrite Z.even_mul. cbn [Z.even orb].
    rewrite Z.mul_comm, Z.div_mul by lia. apply Z.mod_small. lia.
  - rewrite (Z.mod_small (2 * v - _ + 1)) by lia.
    replace (2 * v - 2 ^ ibits t + 1) with (1 + 2 * (v - 2 ^ (ibits t - 1))) by lia.
    rewrite Z.even_add_mul_2. cbn [Z.even].
    rewrite (Z.mul_comm 2), Z.div_add by lia. change (1 / 2) with 0.
    symmetry. apply (Z.mod_unique _ _ (-1)); [left|]; lia.
Qed.

(** ** Varint *)

Lemma max_sz_pos t : std_ity t → (0 < max_sz t)%nat.
Proof. apply (std_ity_cases (λ t, (0 < max_sz t)%nat)); vm_compute; lia. Qed.

(** The loop's exit test is [0 <= val < 128]. *)
Lemma last_group_spec val :
  (Z.land val (Z.lnot 127) =? 0) = (0 <=? val) && (val <? 128).
Proof.
  rewrite <- Z.ldiff_land.
  change 127 with (Z.ones 7). rewrite Z.ldiff_ones_r, Z.shiftl_mul_pow2 by lia.
  rewrite Z.shiftr_div_pow2 by lia. change (2 ^ 7) with 128.
  destruct (Z.eqb_spec (val / 128 * 128) 0), (Z.leb_spec 0 val), (Z.ltb_spec val 128);
    cbn; try done; Z.to_euclidean_division_equations; lia.
Qed.

Lemma land_127 val : Z.land val 127 = val mod 128.
Proof. change 127 with (Z.ones 7). by rewrite Z.land_ones by lia. Qed.

Lemma shiftr_7 val : Z.shiftr val 7 = val / 128.
Proof. by rewrite Z.shiftr_div_pow2 by lia. Qed.

Lemma EncodeVarint_small t e buf :
  std_ity t → 0 ≤ e < 128 → EncodeVarint t e 0 buf = (1%nat, <[0%nat := Some e]> buf).
Proof.
  intros Ht He. unfold EncodeVarint. pose proof (max_sz_pos _ Ht).
  destruct (max_sz t) as [|n]; [lia|]. cbn [EncodeVarint_loop].
  rewrite last_group_spec, land_127, Z.mod_small by lia.
  replace ((0 <=? e) && (e <? 128)) with true by lia. done.
Qed.

Lemma EncodeVarint_loop_neg n i e bytes buf :
  e < 0 → fst (EncodeVarint_loop n i e bytes buf) = bytes.
Proof.
  revert i e buf. induction n as [|n IH]; intros i e buf He; cbn [EncodeVarint_loop]; [done|].
  rewrite last_group_spec. replace (0 <=? e) with false by lia. cbn.
  apply IH. rewrite shiftr_7. Z.to_euclidean_division_equations; lia.
Qed.

(** A negative code never meets the exit test: nothing is encoded. *)
Lemma EncodeVarint_neg t e buf : e < 0 → fst (EncodeVarint t e 0 buf) = 0%nat.
Proof. intros. by apply EncodeVarint_loop_neg. Qed.

(** [k] is the number of 7-bit groups of [e]. *)
Definition groups (e : Z) (k : nat) : Prop :=
  (0 < k)%nat ∧ (k = 1%nat ∨ 2 ^ (7 * (Z.of_nat k - 1)) ≤ e) ∧ 0 ≤ e < 2 ^ (7 * Z.of_nat k).

Lemma groups_step e k : groups e (S (S k)) → 128 ≤ e ∧ groups (e / 128) (S k).
Proof.
  intros (_ & [?|Hl] & Hu); [done|].
  replace (7 * (Z.of_nat (S (S k)) - 1)) with (7 + 7 * Z.of_nat k) in Hl by lia.
  replace (7 * Z.of_nat (S (S k))) with (7 + (7 + 7 * Z.of_nat k)) in Hu by lia.
  rewrite Z.pow_add_r in Hl, Hu by lia. change (2 ^ 7) with 128 in *.
  pose proof (pow2_pos (7 * Z.of_nat k) ltac:(lia)).
  pose proof (pow2_pos (7 + 7 * Z.of_nat k) ltac:(lia)).
  split; [lia|]. unfold groups.
  replace (7 * (Z.of_nat (S k) - 1)) with (7 * Z.of_nat k) by lia.
  replace (7 * Z.of_nat (S k)) with (7 + 7 * Z.of_nat k) by lia.
  split; [lia|]. split.
  - right. apply Z.div_le_lower_bound; lia.
  - split; [apply Z.div_pos; lia|]. apply Z.div_lt_upper_bound; lia.
Qed.

Lemma groups_one e : groups e 1 → 0 ≤ e < 128.
Proof. intros (_ & _ & H). exact H. Qed.

Lemma groups_exists n e :
  (0 < n)%nat → 0 ≤ e < 2 ^ (7 * Z.of_nat n) → ∃ k, groups e k ∧ (k ≤ n)%nat.
Proof.
  induction n as [|n IH]; [lia|]. intros _ He.
  destruct (decide (n = 0%nat)) as [->|Hn].
  { exists 1%nat. split; [|done]. split; [lia|]. split; [by left|]. exact He. }
  destruct (decide (e < 2 ^ (7 * Z.of_nat n))).
  - destruct IH as (k & Hk & Hle); [lia|lia|]. exists k. split; [done|lia].
  - exists (S n). split; [|done]. split; [lia|]. split; [right|exact He].
    by replace (7 * (Z.of_nat (S n) - 1)) with (7 * Z.of_nat n) by lia; apply Z.nlt_ge.
Qed.

(** The most significant group is a non-zero 7-bit number. *)
Lemma groups_top e k :
  groups e k → 128 ≤ e → (2 ≤ k)%nat ∧ 1 ≤ e / 2 ^ (7 * (Z.of_nat k - 1)) < 128.
Proof.
  intros (Hk & Hl & Hu) He. assert (2 ≤ k)%nat as H2.
  { destruct k as [|[|k]]; [lia| |lia]. change (2 ^ (7 * Z.of_nat 1)) with 128 in Hu. lia. }
  split; [done|]. destruct Hl as [->|Hl]; [lia|].
  replace (7 * Z.of_nat k) with (7 * (Z.of_nat k - 1) + 7) in Hu by lia.
  rewrite Z.pow_add_r in Hu by lia. change (2 ^ 7) with 128 in Hu.
  pose proof (pow2_pos (7 * (Z.of_nat k - 1)) ltac:(lia)).
  split; [apply Z.div_le_lower_bound; lia|apply Z.div_lt_upper_bound; lia].
Qed.

(** The iterations allowed are enough for every code of the type. *)
Lemma max_sz_enough t e :
  std_ity t → in_range t e → 0 ≤ e → ∃ k, groups e k ∧ (k ≤ max_sz t)%nat.
Proof.
  intros Ht He H0. apply groups_exists; [by apply max_sz_pos|]. split; [done|].
  assert (e < 2 ^ ibits t) as Hlt.
  { pose proof (std_ity_bits _ Ht). pose proof (pow2_split (ibits t) ltac:(lia)).
    pose proof (pow2_pos (ibits t - 1) ltac:(lia)).
    unfold in_range, imax in He. destruct (isigned t); lia. }
  eapply Z.lt_le_trans; [exact Hlt|]. apply Z.pow_le_mono_r; [lia|].
  revert t Ht He Hlt. refine (std_ity_cases (λ t, _ → _ → ibits t ≤ _) _ _ _ _ _ _ _ _);
    intros _ _; vm_compute; congruence.
Qed.

(** The loop writes every group to the same place, so only the most
    significant one stays; the count is right. *)
Lemma EncodeVarint_loop_groups n i e k buf :
  groups e k → (k ≤ n)%nat →
  EncodeVarint_loop n i e 0 buf =
    ((i + k)%nat, <[0%nat := Some (e / 2 ^ (7 * (Z.of_nat k - 1)))]> buf).
Proof.
  revert i e k buf. induction n as [|n IH]; intros i e k buf Hg Hn.
  - destruct Hg; lia.
  - cbn [EncodeVarint_loop]. rewrite last_group_spec, land_127, shiftr_7.
    destruct k as [|[|k]]; [destruct Hg; lia| |].
    + apply groups_one in Hg. replace ((0 <=? e) && (e <? 128)) with true by lia.
      cbn [Z.of_nat]. rewrite Z.mod_small by lia. change (2 ^ _) with 1. by rewrite Z.div_1_r.
    + apply groups_step in Hg as [He Hg].
      replace ((0 <=? e) && (e <? 128)) with false by lia.
      rewrite (IH _ _ (S k)) by (first [done|lia]). f_equal; [lia|].
      rewrite list_insert_insert_eq. f_equal. f_equal.
      replace (7 * (Z.of_nat (S (S k)) - 1)) with (7 + 7 * (Z.of_nat (S k) - 1)) by lia.
      rewrite Z.pow_add_r by lia. rewrite Z.div_div by (try apply pow2_pos; lia). done.
Qed.

Lemma EncodeVarint_groups t e k buf :
  groups e k → (k ≤ max_sz t)%nat →
  EncodeVarint t e 0 buf = (k, <[0%nat := Some (e / 2 ^ (7 * (Z.of_nat k - 1)))]> buf).
Proof. apply EncodeVarint_loop_groups. Qed.

Lemma shl_int_0 b : 0 ≤ b < 256 → shl_int b 0 = Ok b.
Proof.
  intros. unfold shl_int. replace (_ && _) with true.
  - f_equal. rewrite Z.mul_1_r. apply wrap_id; [done|].
    unfold in_range, imin, imax; cbn; lia.
  - change (2 ^ 0) with 1. rewrite Z.mul_1_r. symmetry. apply andb_true_iff.
    split; [done|]. apply Z.ltb_lt. lia.
Qed.

Lemma land_128_small b : 0 ≤ b < 128 → Z.land b 128 = 0.
Proof.
  intros. apply Z.bits_inj'. intros i Hi. rewrite Z.land_spec, Z.bits_0.
  destruct (decide (i = 7)) as [->|].
  - replace (Z.testbit b 7) with false; [done|].
    symmetry. rewrite <- (Z.mod_small b (2 ^ 7)) by lia. by apply Z.mod_pow2_bits_high.
  - change 128 with (2 ^ 7). rewrite Z.pow2_bits_false by lia. apply andb_false_r.
Qed.

Lemma land_128_large b : 128 ≤ b < 256 → Z.land b 128 ≠ 0.
Proof.
  intros Hb H. assert (Z.testbit (Z.land b 128) 7 = true) as T.
  - rewrite Z.land_spec. change (Z.testbit 128 7) with true. rewrite andb_true_r.
    replace b with ((b - 128) + 1 * 2 ^ 7) by (change (2 ^ 7) with 128; lia).
    rewrite Z.testbit_true by lia. rewrite Z.div_add by lia.
    rewrite Z.div_small by (change (2 ^ 7) with 128; lia). done.
  - by rewrite H in T.
Qed.

Lemma DecodeVarint_1 t b buf :
  0 ≤ b < 128 → DecodeVarint t (Some b :: buf) 1 = Ok (wrap t b).
Proof.
  intros Hb. unfold DecodeVarint. cbn [DecodeVarint_loop lookup list_lookup].
  rewrite land_128_small, land_127, Z.mod_small by lia. cbn.
  rewrite shl_int_0 by lia. cbn. done.
Qed.

Lemma DecodeVarint_cont t n b buf :
  128 ≤ b < 256 → DecodeVarint t (Some b :: buf) (S n) = Ok (wrap t b).
Proof.
  intros Hb. unfold DecodeVarint. cbn [DecodeVarint_loop lookup list_lookup].
  pose proof (land_128_large b Hb) as E. apply Z.eqb_neq in E. rewrite E. cbn.
  rewrite shl_int_0 by lia. done.
Qed.

End Varint.
