(* ===== verification/ByteArray.v ===== *)
(** * The byte array of [src/bytearray.cc]

    A singly linked list of fixed-size nodes, a write cursor and a read cursor.
    The nodes live in a store, so that the three pointers of the object may
    alias and a node that is unlinked stays readable through [read_ptr_]. *)

From S2P Require Import Prelude.

Module ByteArray.

Abbreviation loc := nat.

(** [struct Node]: [base_ptr_] owns [length base_ptr_] bytes of [malloc] memory. *)
Record Node := mkNode {
  base_ptr_ : list mbyte;
  rest_size_ : nat;
  next_ : option loc }.

(** The object.  [heap] holds the nodes that were allocated, [brk] the next
    unused location.  Sizes are [nat]: they count bytes of memory. *)
Record ByteArray := mkByteArray {
  heap : gmap loc Node;
  brk : loc;
  base_size_ : nat;
  read_pos_ : nat;
  capacity_ : nat;
  root_ptr_ : option loc;
  write_ptr_ : option loc;
  read_ptr_ : option loc }.

Definition NODE_SIZE : nat := 128.

(** [(n + m - 1) / m] in [size_t]. *)
Definition RoundUp (n m : nat) : nat :=
  Z.to_nat (wrap u64 (wrap u64 (Z.of_nat n + Z.of_nat m) - 1) / Z.of_nat m).

(** Functional updates of the members. *)
Definition set_node (l : loc) (n : Node) (s : ByteArray) : ByteArray :=
  mkByteArray (<[l := n]> (heap s)) (brk s) (base_size_ s) (read_pos_ s)
    (capacity_ s) (root_ptr_ s) (write_ptr_ s) (read_ptr_ s).
Definition set_capacity (c : nat) (s : ByteArray) : ByteArray :=
  mkByteArray (heap s) (brk s) (base_size_ s) (read_pos_ s) c (root_ptr_ s)
    (write_ptr_ s) (read_ptr_ s).
Definition set_write (p : option loc) (s : ByteArray) : ByteArray :=
  mkByteArray (heap s) (brk s) (base_size_ s) (read_pos_ s) (capacity_ s)
    (root_ptr_ s) p (read_ptr_ s).
Definition set_read (r : nat) (p : option loc) (s : ByteArray) : ByteArray :=
  mkByteArray (heap s) (brk s) (base_size_ s) r (capacity_ s) (root_ptr_ s)
    (write_ptr_ s) p.
Definition set_root (p : option loc) (s : ByteArray) : ByteArray :=
  mkByteArray (heap s) (brk s) (base_size_ s) (read_pos_ s) (capacity_ s) p
    (write_ptr_ s) (read_ptr_ s).

(** [Node::Node(size)]: fresh, indeterminate bytes. *)
Definition fresh_node (size : nat) : Node := mkNode (replicate size None) size None.

(** [new Node(size)]. *)
Definition new_Node (size : nat) : M ByteArray loc := λ s,
  (Ok (brk s),
   mkByteArray (<[brk s := fresh_node size]> (heap s)) (S (brk s)) (base_size_ s)
     (read_pos_ s) (capacity_ s) (root_ptr_ s) (write_ptr_ s) (read_ptr_ s)).

(** [p->...]: a null or dangling pointer is undefined behaviour. *)
Definition deref (p : option loc) : M ByteArray Node := λ s,
  match p ≫= λ l, heap s !! l with
  | Some n => (Ok n, s)
  | None => (Undef "null pointer", s)
  end.

Definition store (p : option loc) (n : Node) : M ByteArray unit :=
  match p with
  | Some l => modify (set_node l n)
  | None => undef "null pointer"
  end.

(** [memcpy] into [dst + start]: out of bounds is undefined behaviour. *)
Definition memcpy_in (dst : list mbyte) (start : nat) (src : list mbyte)
  : outcome (list mbyte) :=
  if decide (start + length src ≤ length dst)
  then Ok (take start dst ++ src ++ drop (start + length src) dst)
  else Undef "heap overflow".

(** [memcpy] of [n] bytes out of [src + start]. *)
Definition memcpy_out (src : list mbyte) (start n : nat) : outcome (list mbyte) :=
  if decide (start + n ≤ length src)
  then Ok (take n (drop start src)) else Undef "heap over-read".

(** [ByteArray::ByteArray(baseSize)]. *)
Definition ByteArray_new (baseSize : nat) : ByteArray :=
  let size := if decide (baseSize < NODE_SIZE) then NODE_SIZE else baseSize in
  mkByteArray {[ 0 := fresh_node size ]} 1 size 0 size (Some 0) (Some 0) (Some 0).

(** The loop of [ExtendCapacity], [cnt] nodes to append after [tmp].  The link
    [tmp->next_] is overwritten whatever it held. *)
Fixpoint ExtendCapacity_loop (cnt : nat) (tmp : option loc) : M ByteArray unit :=
  match cnt with
  | O => mret tt
  | S cnt' =>
      s ← get;
      n_node ← new_Node (base_size_ s);
      t ← deref tmp;
      store tmp (mkNode (base_ptr_ t) (rest_size_ t) (Some n_node));;
      modify (λ s, set_capacity (capacity_ s + base_size_ s) s);;
      ExtendCapacity_loop cnt' (Some n_node)
  end.

Definition ExtendCapacity (delta : nat) : M ByteArray unit :=
  s ← get;
  ExtendCapacity_loop (RoundUp delta (base_size_ s)) (write_ptr_ s).

(** The loop of [Write]: [fuel] iterations, [size] bytes of [buf] from
    [buf_pos] still to copy. *)
Fixpoint Write_loop (fuel : nat) (buf : list mbyte) (buf_pos size : nat)
  : M ByteArray unit :=
  match fuel with
  | O => nofuel
  | S fuel' =>
      if decide (size = 0) then mret tt else
      s ← get;
      match write_ptr_ s with
      | None => Write_loop fuel' buf buf_pos size
      | Some w =>
          n ← deref (Some w);
          let start := base_size_ s - rest_size_ n in
          if decide (size ≤ rest_size_ n) then
            d ← lift (memcpy_in (base_ptr_ n) start (take size (drop buf_pos buf)));
            store (Some w) (mkNode d (rest_size_ n - size) (next_ n));;
            Write_loop fuel' buf (buf_pos + size) 0
          else
            d ← lift (memcpy_in (base_ptr_ n) start
                        (take (rest_size_ n) (drop buf_pos buf)));
            store (Some w) (mkNode d 0 (next_ n));;
            modify (set_write (next_ n));;
            Write_loop fuel' buf (buf_pos + rest_size_ n) (size - rest_size_ n)
      end
  end.

(** [Write(buf, size)]; the caller's buffer holds at least [size] bytes.  The
    loop is bounded by one iteration per node plus the exit test. *)
Definition Write (buf : list mbyte) (size : nat) : M ByteArray unit :=
  s ← get;
  match write_ptr_ s with
  | None => mret tt
  | Some w =>
      if decide (size = 0) then mret tt else
      n ← deref (Some w);
      (if decide (rest_size_ n < size) then ExtendCapacity size else mret tt);;
      Write_loop (size + 3) buf 0 size
  end.

(** The loop of [Read]: appends [size] bytes to [out]. *)
Fixpoint Read_loop (fuel : nat) (size : nat) (out : list mbyte)
  : M ByteArray (list mbyte) :=
  match fuel with
  | O => nofuel
  | S fuel' =>
      if decide (size = 0) then mret out else
      s ← get;
      let start := read_pos_ s mod base_size_ s in
      let read_sz := Nat.min (base_size_ s - start) size in
      n ← deref (read_ptr_ s);
      b ← lift (memcpy_out (base_ptr_ n) start read_sz);
      modify (set_read (read_pos_ s + read_sz)
                (if decide (start + read_sz = base_size_ s)
                 then next_ n else read_ptr_ s));;
      Read_loop fuel' (size - read_sz) (out ++ b)
  end.

Definition Read (size : nat) : M ByteArray (list mbyte) :=
  s ← get;
  if decide (capacity_ s < size)
  then raise (out_of_range "ByteArray out of range")
  else Read_loop (S size) size [].

(** [BitsStream]: [buf] is allocated with [capacity_] bytes; copying past them
    is undefined behaviour. *)
Fixpoint BitsStream_loop (fuel : nat) (tmp : option loc) (out : list mbyte)
  : M ByteArray (list mbyte) :=
  match fuel with
  | O => nofuel
  | S fuel' =>
      match tmp with
      | None => mret out
      | Some l =>
          s ← get;
          n ← deref (Some l);
          let cnt := match next_ n with
                     | Some _ => base_size_ s
                     | None => base_size_ s - rest_size_ n
                     end in
          b ← lift (memcpy_out (base_ptr_ n) 0 cnt);
          (if decide (length out + cnt ≤ capacity_ s) then mret tt
           else undef "heap overflow");;
          BitsStream_loop fuel' (next_ n) (out ++ b)
      end
  end.

(** [next_] never forms a cycle, so one iteration per allocated node is enough. *)
Definition BitsStream : M ByteArray (list mbyte) :=
  s ← get;
  BitsStream_loop (S (brk s)) (root_ptr_ s) [].

(** [GetAllBits]: the [iovec] is the byte string itself. *)
Definition GetAllBits : M ByteArray (list mbyte) := BitsStream.

(** [Clear]: the old nodes are dropped, [capacity_] is not touched. *)
Definition Clear : M ByteArray unit :=
  s ← get;
  l ← new_Node (base_size_ s);
  modify (set_root (Some l));;
  modify (set_read (read_pos_ s) (Some l));;
  modify (set_write (Some l));;
  modify (λ s, set_read 0 (read_ptr_ s) s).

Definition SetAllBits (iov : list mbyte) : M ByteArray unit :=
  s ← get;
  l ← new_Node (base_size_ s);
  modify (set_root (Some l));;
  modify (set_read (read_pos_ s) (Some l));;
  modify (set_write (Some l));;
  modify (λ s, set_read 0 (read_ptr_ s) s);;
  Write iov (length iov).

(** [GetBuffer]: one [(node, iov_len)] pair per node of the list. *)
Fixpoint GetBuffer_loop (fuel : nat) (tmp : option loc) (ivec : list (loc * nat))
  : M ByteArray (list (loc * nat)) :=
  match fuel with
  | O => nofuel
  | S fuel' =>
      match tmp with
      | None => mret ivec
      | Some l =>
          s ← get;
          n ← deref (Some l);
          let iov_len := if decide (rest_size_ n = 0) then base_size_ s
                         else base_size_ s - rest_size_ n in
          GetBuffer_loop fuel' (next_ n) (ivec ++ [(l, iov_len)])
      end
  end.

Definition GetBuffer (ivec : list (loc * nat)) (length : nat)
  : M ByteArray (list (loc * nat)) :=
  s ← get;
  (if decide (capacity_ s < length) then ExtendCapacity length else mret tt);;
  s ← get;
  GetBuffer_loop (S (brk s)) (root_ptr_ s) ivec.

(** [PrintMemory(ptr, numBytes)]: the bytes it prints, or its error line. *)
Definition PrintMemory (ptr : list mbyte) (numBytes : nat) : list mbyte + string :=
  if decide (numBytes ≠ 1 ∧ numBytes ≠ 2 ∧ numBytes ≠ 4 ∧ numBytes ≠ 8)
  then inr "PrintMemory numBytes Invalid"%string
  else inl (take numBytes ptr).

Fixpoint Dump_loop (fuel : nat) (tmp : option loc) (out : list (list mbyte + string))
  : M ByteArray (list (list mbyte + string)) :=
  match fuel with
  | O => nofuel
  | S fuel' =>
      match tmp with
      | None => mret out
      | Some l =>
          s ← get;
          n ← deref (Some l);
          Dump_loop fuel' (next_ n) (out ++ [PrintMemory (base_ptr_ n) (base_size_ s)])
      end
  end.

Definition Dump : M ByteArray (list (list mbyte + string)) :=
  s ← get;
  Dump_loop (S (brk s)) (root_ptr_ s) [].

Definition GetCapacity : M ByteArray nat := s ← get; mret (capacity_ s).

End ByteArray.
