(* ===== verification/ByteArraySpec.v ===== *)
(** * Correctness of the byte array

    The representation invariant of the linked list, and the refinement of an
    abstract byte stream: a list of written bytes and a read position. *)

From S2P Require Import Prelude ByteArray.
Import ByteArray.

Module ByteArraySpec.

(** ** Linked segments *)

(** [ls] lists the locations and nodes from [p] up to (not including) [q]. *)
Fixpoint lseg (h : gmap loc Node) (p : option loc) (ls : list (loc * Node))
  (q : option loc) : Prop :=
  match ls with
  | [] => p = q
  | (l, n) :: ls' => p = Some l ∧ h !! l = Some n ∧ lseg h (next_ n) ls' q
  end.

Definition data (e : loc * Node) : list mbyte := base_ptr_ e.2.
Definition raw (ls : list (loc * Node)) : list mbyte := concat (data <$> ls).

(** The written part of a node of [base] bytes. *)
Definition written (base : nat) (e : loc * Node) : list mbyte :=
  take (base - rest_size_ e.2) (data e).
Definition content (base : nat) (ls : list (loc * Node)) : list mbyte :=
  concat (written base <$> ls).

Definition node_ok (base : nat) (e : loc * Node) : Prop :=
  length (data e) = base ∧ rest_size_ e.2 ≤ base.
Definition full (e : loc * Node) : Prop := rest_size_ e.2 = 0.
Definition empty (base : nat) (e : loc * Node) : Prop := rest_size_ e.2 = base.

(** The invariant: [pre] are full nodes, [(l, n)] is the write node, [post]
    are nodes not written to yet. *)
Record inv (s : ByteArray) (pre : list (loc * Node)) (l : loc) (n : Node)
  (post : list (loc * Node)) : Prop := Inv {
  inv_base : 0 < base_size_ s;
  inv_list : lseg (heap s) (root_ptr_ s) (pre ++ (l, n) :: post) None;
  inv_nodup : NoDup (pre ++ (l, n) :: post).*1;
  inv_brk : Forall (λ l, l < brk s) (pre ++ (l, n) :: post).*1;
  inv_ok : Forall (node_ok (base_size_ s)) (pre ++ (l, n) :: post);
  inv_pre : Forall full pre;
  inv_post : Forall (empty (base_size_ s)) post;
  inv_write : write_ptr_ s = Some l;
  inv_cap : length (pre ++ (l, n) :: post) * base_size_ s ≤ capacity_ s }.

(** [read_ptr_] is the node that holds position [read_pos_]. *)
Definition read_at (s : ByteArray) (ls : list (loc * Node)) : Prop :=
  read_ptr_ s = fst <$> ls !! (read_pos_ s / base_size_ s).

Section Lseg.
Implicit Types (h : gmap loc Node) (p q r : option loc) (ls : list (loc * Node)).

Lemma lseg_app h p a b r :
  lseg h p (a ++ b) r ↔ ∃ q, lseg h p a q ∧ lseg h q b r.
Proof.
  revert p. induction a as [|[l n] a IH]; intros p; cbn.
  - naive_solver.
  - rewrite IH. naive_solver.
Qed.

Lemma lseg_insert h p ls q l n :
  l ∉ ls.*1 → lseg h p ls q → lseg (<[l := n]> h) p ls q.
Proof.
  revert p. induction ls as [|[l' n'] ls IH]; intros p Hl; cbn in *; [done|].
  intros (-> & Hh & Hr). apply not_elem_of_cons in Hl as [Hne Hl].
  rewrite lookup_insert_ne by done. auto.
Qed.

Lemma lseg_lookup h p ls q i l n :
  lseg h p ls q → ls !! i = Some (l, n) → h !! l = Some n.
Proof.
  revert p i. induction ls as [|[l' n'] ls IH]; intros p [|i]; cbn; [done|done| |].
  - naive_solver.
  - intros (_ & _ & Hr). eauto.
Qed.

(** Following [next_] from the node at [i] leads to the node at [i + 1]. *)
Lemma lseg_next h p ls i l n :
  lseg h p ls None → ls !! i = Some (l, n) → next_ n = fst <$> ls !! S i.
Proof.
  revert p i. induction ls as [|[l' n'] ls IH]; intros p [|i]; cbn; [done|done| |].
  - intros (_ & _ & Hr) [= -> ->]. destruct ls as [|[l2 n2] ls]; cbn in *; naive_solver.
  - intros (_ & _ & Hr). eauto.
Qed.

(** Replacing the contents of one node, link kept. *)
Lemma lseg_update h p a l n n' b :
  NoDup (a ++ (l, n) :: b).*1 → next_ n' = next_ n →
  lseg h p (a ++ (l, n) :: b) None → lseg (<[l := n']> h) p (a ++ (l, n') :: b) None.
Proof.
  rewrite fmap_app, fmap_cons. cbn. intros Hnd Hn.
  apply NoDup_app in Hnd as (_ & Hd & [Hb _]%NoDup_cons).
  rewrite !lseg_app. intros (q & Ha & Hlb). exists q. split.
  - apply lseg_insert; [|done]. intros Hin. apply (Hd l Hin). set_solver.
  - cbn in *. destruct Hlb as (-> & Hh & Hb'). rewrite lookup_insert_eq, Hn.
    split_and!; [done|done|]. by apply lseg_insert.
Qed.
End Lseg.

(** ** Contents *)

Section Contents.
Context (base : nat).
Implicit Types (ls : list (loc * Node)).

Lemma content_app a b : content base (a ++ b) = content base a ++ content base b.
Proof. unfold content. by rewrite fmap_app, concat_app. Qed.

Lemma raw_app a b : raw (a ++ b) = raw a ++ raw b.
Proof. unfold raw. by rewrite fmap_app, concat_app. Qed.

Lemma raw_cons e ls : raw (e :: ls) = data e ++ raw ls.
Proof. done. Qed.

Lemma content_cons e ls : content base (e :: ls) = written base e ++ content base ls.
Proof. done. Qed.

Lemma length_raw ls : Forall (node_ok base) ls → length (raw ls) = length ls * base.
Proof.
  intros H. unfold raw. rewrite (length_concat_same _ base), length_fmap; [done|].
  apply Forall_fmap. eapply Forall_impl; [exact H|]. by intros e [? _].
Qed.

Lemma content_full ls :
  Forall (node_ok base) ls → Forall full ls → content base ls = raw ls.
Proof.
  intros Ho Hf. unfold content, raw. f_equal. apply list_fmap_ext.
  intros i e He. unfold written.
  pose proof (Forall_lookup_1 _ _ _ _ Ho He) as [Hl _].
  pose proof (Forall_lookup_1 _ _ _ _ Hf He) as He0. unfold full in He0.
  rewrite He0, Nat.sub_0_r. apply take_ge. lia.
Qed.

Lemma content_empty ls : Forall (empty base) ls → content base ls = [].
Proof.
  induction 1 as [|e ls He Hls IH]; [done|]. unfold content in *. cbn. rewrite IH.
  unfold written. unfold empty in He. by rewrite He, Nat.sub_diag.
Qed.

Lemma written_full e : node_ok base e → full e → written base e = data e.
Proof. intros [Hl _] Hf. unfold written, full in *. rewrite Hf, take_ge; [done|lia]. Qed.

(** Bytes of one node inside the raw storage. *)
Lemma raw_slice ls i e j k :
  Forall (node_ok base) ls → ls !! i = Some e → j + k ≤ base →
  take k (drop (i * base + j) (raw ls)) = take k (drop j (data e)).
Proof.
  intros Ho Hi Hjk.
  pose proof (take_drop_middle _ _ _ Hi) as Hls.
  rewrite <- Hls in Ho |- *. apply Forall_app in Ho as [Hp [Hok _]%Forall_cons].
  rewrite raw_app. rewrite drop_app, length_raw by done.
  rewrite length_take, (Nat.min_l i) by (apply lookup_lt_Some in Hi; lia).
  replace (drop (i * base + j) (raw (take i ls))) with (@nil mbyte).
  2: { symmetry. apply drop_ge. rewrite length_raw by done.
       rewrite length_take, (Nat.min_l i) by (apply lookup_lt_Some in Hi; lia). lia. }
  replace (i * base + j - i * base) with j by lia. rewrite app_nil_l, raw_cons.
  destruct Hok as [Hl _].
  rewrite drop_app_le by lia. by rewrite take_app_le by (rewrite length_drop; lia).
Qed.
End Contents.

(** What has been written is a prefix of the storage of the nodes. *)
Lemma inv_content s pre l n post :
  inv s pre l n post →
  content (base_size_ s) (pre ++ (l, n) :: post)
  = raw pre ++ take (base_size_ s - rest_size_ n) (base_ptr_ n).
Proof.
  intros I. destruct I. apply Forall_app in inv_ok0 as [Hp Ho%Forall_cons].
  rewrite content_app, content_full by done. f_equal.
  rewrite content_cons, content_empty by done. by rewrite app_nil_r.
Qed.

Lemma inv_content_prefix s pre l n post :
  inv s pre l n post →
  content (base_size_ s) (pre ++ (l, n) :: post)
  = take (length pre * base_size_ s + (base_size_ s - rest_size_ n))
      (raw (pre ++ (l, n) :: post)).
Proof.
  intros I. rewrite inv_content by done. destruct I.
  pose proof inv_ok0 as Ho. apply Forall_app in Ho as [Hp [[Hl Hr] Hq]%Forall_cons].
  rewrite raw_app, take_app, (length_raw (base_size_ s) pre) by done.
  rewrite (take_ge (raw pre)) by (rewrite (length_raw (base_size_ s)) by done; lia).
  f_equal. rewrite Nat.add_comm, Nat.add_sub, raw_cons.
  rewrite take_app_le; [done|]. cbn in *. lia.
Qed.

Lemma inv_content_length s pre l n post :
  inv s pre l n post →
  length (content (base_size_ s) (pre ++ (l, n) :: post))
  = length pre * base_size_ s + (base_size_ s - rest_size_ n).
Proof.
  intros I. rewrite inv_content_prefix, length_take by done. destruct I.
  rewrite (length_raw (base_size_ s)) by done. rewrite length_app. cbn. lia.
Qed.

(** Members that the writing operations leave alone. *)
Record frame (s s' : ByteArray) : Prop := Frame {
  fr_base : base_size_ s' = base_size_ s;
  fr_pos : read_pos_ s' = read_pos_ s;
  fr_root : root_ptr_ s' = root_ptr_ s;
  fr_read : read_ptr_ s' = read_ptr_ s }.

#[global] Instance frame_preorder : PreOrder frame.
Proof. split; [done|]. intros ??? [] []. split; congruence. Qed.

(** ** Growing the list *)

Lemma RoundUp_spec n m :
  0 < m → (Z.of_nat n + Z.of_nat m ≤ 2 ^ 64)%Z → RoundUp n m = (n + m - 1) / m.
Proof.
  intros Hm Hb. unfold RoundUp, wrap, wrap_u. cbn [isigned ibits u64].
  replace ((_ - 1) mod 2 ^ 64)%Z with (Z.of_nat (n + m - 1)).
  - rewrite <- Nat2Z.inj_div. apply Nat2Z.id.
  - rewrite Zminus_mod_idemp_l, Z.mod_small by lia. lia.
Qed.

Lemma RoundUp_covers n m :
  0 < m → (Z.of_nat n + Z.of_nat m ≤ 2 ^ 64)%Z → n ≤ RoundUp n m * m.
Proof.
  intros Hm Hb. rewrite RoundUp_spec by done.
  pose proof (Nat.div_mod_eq (n + m - 1) m).
  pose proof (Nat.mod_upper_bound (n + m - 1) m ltac:(lia)). lia.
Qed.

(** The state after one node is appended to the node [t]. *)
Definition appended (s : ByteArray) (t : loc) (nt : Node) : ByteArray :=
  set_capacity (capacity_ s + base_size_ s)
    (mkByteArray (<[t := mkNode (base_ptr_ nt) (rest_size_ nt) (Some (brk s))]>
                    (<[brk s := fresh_node (base_size_ s)]> (heap s)))
      (S (brk s)) (base_size_ s) (read_pos_ s) (capacity_ s) (root_ptr_ s) (write_ptr_ s) (read_ptr_ s)).

Lemma ExtendCapacity_loop_step cnt s t nt : heap s !! t = Some nt → t < brk s →
  ExtendCapacity_loop (S cnt) (Some t) s = ExtendCapacity_loop cnt (Some (brk s)) (appended s t nt).
Proof.
  intros Ht Hlt. cbn [ExtendCapacity_loop]. mgo.
  set (s0 := mkByteArray (<[brk s := fresh_node (base_size_ s)]> (heap s)) (S (brk s)) (base_size_ s) (read_pos_ s)
    (capacity_ s) (root_ptr_ s) (write_ptr_ s) (read_ptr_ s)).
  rewrite (bind_ok (new_Node (base_size_ s)) _ s (brk s) s0) by done. cbn beta iota.
  rewrite (bind_ok (deref (Some t)) _ s0 nt s0).
  2: { unfold deref. cbn. rewrite lookup_insert_ne by lia. by rewrite Ht. }
  cbn beta iota. unfold store. mgo. done.
Qed.

(** The appended node is the last of the list. *)
Lemma appended_list s a t nt :
  lseg (heap s) (root_ptr_ s) (a ++ [(t, nt)]) (next_ nt) →
  NoDup (a ++ [(t, nt)]).*1 → Forall (λ l, l < brk s) (a ++ [(t, nt)]).*1 →
  let l := (a ++ [(t, mkNode (base_ptr_ nt) (rest_size_ nt) (Some (brk s)))]) ++
             [(brk s, fresh_node (base_size_ s))] in
  heap s !! t = Some nt ∧ t < brk s ∧
  lseg (heap (appended s t nt)) (root_ptr_ (appended s t nt)) l None ∧ NoDup l.*1 ∧
  Forall (λ l, l < brk (appended s t nt)) l.*1.
Proof.
  intros Hls Hnd Hbrk. cbv zeta. apply lseg_app in Hls as (q & Ha & Hq & Ht & Hn). subst q. cbn in Hn.
  rewrite fmap_app in Hnd, Hbrk. apply Forall_app in Hbrk as [Hba [Hbt _]%Forall_cons].
  cbn in Hbt. apply NoDup_app in Hnd as (Hnda & Hdis & _).
  assert (t ∉ a.*1) as Hta by (intros ?; eapply Hdis; [done|set_solver]).
  assert (brk s ∉ a.*1) as Hbna.
  { intros Hin. pose proof (proj1 (Forall_forall _ _) Hba _ Hin). cbn in *. lia. }
  split; [done|]. split; [done|]. split; [|rewrite !fmap_app; cbn; split].
  - rewrite <- app_assoc. apply lseg_app. exists (Some t). split.
    + cbn. by apply lseg_insert, lseg_insert.
    + cbn. rewrite lookup_insert_eq, lookup_insert_ne, lookup_insert_eq by lia. done.
  - apply NoDup_app. split_and!; [| |apply NoDup_singleton].
    + apply NoDup_app. split_and!; [done|exact Hdis|apply NoDup_singleton].
    + intros x [Hx|Hx]%elem_of_app; [set_solver|].
      apply list_elem_of_singleton in Hx as ->. apply not_elem_of_cons. split; [lia|set_solver].
  - rewrite !Forall_app. split_and!.
    + eapply Forall_impl; [exact Hba|]. cbn. lia.
    + constructor; [lia|done].
    + constructor; [lia|done].
Qed.

(** The nodes appended by [ExtendCapacity_loop]: the list up to [tmp] is kept,
    what followed [tmp] is cut off, fresh nodes take its place. *)
Lemma ExtendCapacity_loop_spec cnt s a t nt :
  lseg (heap s) (root_ptr_ s) (a ++ [(t, nt)]) (next_ nt) →
  NoDup (a ++ [(t, nt)]).*1 → Forall (λ l, l < brk s) (a ++ [(t, nt)]).*1 →
  ∃ s' nt' new,
    ExtendCapacity_loop cnt (Some t) s = (Ok tt, s') ∧
    lseg (heap s') (root_ptr_ s') (a ++ (t, nt') :: new) (match cnt with O => next_ nt | S _ => None end) ∧
    NoDup (a ++ (t, nt') :: new).*1 ∧ Forall (λ l, l < brk s') (a ++ (t, nt') :: new).*1 ∧
    base_ptr_ nt' = base_ptr_ nt ∧ rest_size_ nt' = rest_size_ nt ∧
    length new = cnt ∧ Forall (λ e, data e = replicate (base_size_ s) None ∧
      empty (base_size_ s) e) new ∧
    capacity_ s' = capacity_ s + cnt * base_size_ s ∧ write_ptr_ s' = write_ptr_ s ∧
    frame s s'.
Proof.
  revert s a t nt. induction cnt as [|cnt IH]; intros s a t nt Hls Hnd Hbrk.
  - exists s, nt, []. cbn. split_and!; try done; lia.
  - destruct (appended_list s a t nt Hls Hnd Hbrk) as (Ht & Hlt & Hl1 & Hnd1 & Hbrk1).
    rewrite (ExtendCapacity_loop_step cnt s t nt Ht Hlt).
    destruct (IH (appended s t nt) _ (brk s) (fresh_node (base_size_ s)) Hl1 Hnd1 Hbrk1) as
      (s' & nb' & new & Hrun & Hl' & Hnd' & Hbrk' & Hd & Hr & Hlen & Hnew & Hcap & Hw & Hf).
    eexists s', _, ((brk s, nb') :: new). split; [exact Hrun|].
    rewrite <- (app_assoc a [(t, _)]) in *. cbn in *. split_and!; try done.
    + by destruct cnt.
    + lia.
    + constructor; [|done]. unfold data, empty. cbn. by rewrite Hd, Hr.
    + lia.
    + destruct Hf. split; done.
Qed.

(** A write node that gets [cnt] fresh successors. *)
Lemma ExtendCapacity_inv s pre l n post delta :
  inv s pre l n post → 0 < RoundUp delta (base_size_ s) →
  ∃ s' n' new,
    ExtendCapacity delta s = (Ok tt, s') ∧ inv s' pre l n' new ∧
    base_ptr_ n' = base_ptr_ n ∧ rest_size_ n' = rest_size_ n ∧
    length new = RoundUp delta (base_size_ s) ∧
    capacity_ s' = capacity_ s + RoundUp delta (base_size_ s) * base_size_ s ∧
    frame s s'.
Proof.
  intros [] Hcnt. unfold ExtendCapacity. mgo.
  set (cnt := RoundUp delta (base_size_ s)) in *. rewrite inv_write0.
  rewrite cons_middle, app_assoc in inv_list0, inv_nodup0, inv_brk0, inv_ok0, inv_cap0.
  apply lseg_app in inv_list0 as (q & Hpl & Hpost).
  rewrite fmap_app in inv_nodup0, inv_brk0.
  apply NoDup_app in inv_nodup0 as (Hnd & _ & _). apply Forall_app in inv_brk0 as [Hbrk _].
  apply Forall_app in inv_ok0 as [Hok _].
  assert (q = next_ n) as ->.
  { apply lseg_app in Hpl as (q' & _ & H). cbn in H. naive_solver. }
  destruct (ExtendCapacity_loop_spec cnt s pre l n Hpl Hnd Hbrk) as
    (s' & n' & new & Hrun & Hl' & Hnd' & Hbrk' & Hd & Hr & Hlen & Hnew & Hcap & Hw & Hf).
  exists s', n', new. split_and!; try done. destruct Hf.
  apply Forall_app in Hok as [Hop [[Hnl Hnr] _]%Forall_cons].
  split; rewrite ?fr_base0; try done.
  - destruct cnt; [lia|done].
  - rewrite !Forall_app. cbn. split; [done|]. constructor.
    + unfold node_ok, data in *. cbn in *. by rewrite Hd, Hr.
    + eapply Forall_impl; [exact Hnew|]. intros e [E1 E2]. unfold node_ok, empty in *.
      rewrite E1, E2, length_replicate. lia.
  - eapply Forall_impl; [exact Hnew|]. by intros e [_ ?].
  - by rewrite Hw.
  - rewrite !length_app in *. cbn in *. rewrite Hcap. subst cnt. nia.
Qed.

(** ** Writing *)

Lemma memcpy_in_ok d start src :
  start + length src ≤ length d →
  memcpy_in d start src = Ok (take start d ++ src ++ drop (start + length src) d).
Proof. intros H. unfold memcpy_in. by rewrite decide_True. Qed.

Lemma length_memcpy_in d start src d' :
  memcpy_in d start src = Ok d' → length d' = length d.
Proof.
  unfold memcpy_in. case_decide; [|done]. intros [= <-]. len.
Qed.

Lemma take_memcpy_in d start src d' :
  memcpy_in d start src = Ok d' → take (start + length src) d' = take start d ++ src.
Proof.
  unfold memcpy_in. case_decide; [|done]. intros [= <-].
  rewrite app_assoc, take_app_le by len. apply take_ge. len.
Qed.

(** The write node gets new bytes. *)
Lemma inv_set_node s pre l n post n' :
  inv s pre l n post → next_ n' = next_ n → node_ok (base_size_ s) (l, n') →
  inv (set_node l n' s) pre l n' post.
Proof.
  intros [] Hn Hok. split; cbn; try done.
  - by eapply lseg_update.
  - by rewrite fmap_app in *.
  - by rewrite fmap_app in *.
  - apply Forall_app in inv_ok0 as [? [_ ?]%Forall_cons]. rewrite Forall_app. auto.
  - by rewrite length_app in *.
Qed.

(** The write node is full: the cursor moves to its successor. *)
Lemma inv_advance s pre l n l2 n2 post :
  inv s pre l n ((l2, n2) :: post) → rest_size_ n = 0 →
  inv (set_write (next_ n) s) (pre ++ [(l, n)]) l2 n2 post ∧ next_ n = Some l2 ∧
  rest_size_ n2 = base_size_ s.
Proof.
  intros [] Hr. assert (next_ n = Some l2) as Hn.
  { erewrite (lseg_next _ _ _ (length pre) l n inv_list0); [|by apply list_lookup_middle].
    rewrite lookup_app_r by lia. by replace (S (length pre) - length pre) with 1 by lia. }
  apply Forall_cons in inv_post0 as [He Hp].
  split_and!; [|done|exact He].
  split; cbn; rewrite <- ?app_assoc; try done.
  apply Forall_app. split; [done|]. by apply Forall_singleton.
Qed.

(** One [memcpy] of [k] bytes into the write node appends them. *)
Lemma write_node s pre l n post src :
  inv s pre l n post → length src ≤ rest_size_ n →
  ∃ d n', memcpy_in (base_ptr_ n) (base_size_ s - rest_size_ n) src = Ok d ∧
    n' = mkNode d (rest_size_ n - length src) (next_ n) ∧
    inv (set_node l n' s) pre l n' post ∧
    content (base_size_ s) (pre ++ (l, n') :: post)
    = content (base_size_ s) (pre ++ (l, n) :: post) ++ src.
Proof.
  intros I Hsrc. pose proof (inv_ok _ _ _ _ _ I) as Hok.
  apply Forall_app in Hok as [_ [[Hl Hr] _]%Forall_cons]. unfold data in Hl. cbn in *.
  destruct (memcpy_in (base_ptr_ n) (base_size_ s - rest_size_ n) src) as [d| | |] eqn:E;
    try (rewrite memcpy_in_ok in E by lia; done).
  pose proof (length_memcpy_in _ _ _ _ E) as Hd.
  set (n' := mkNode d (rest_size_ n - length src) (next_ n)).
  assert (inv (set_node l n' s) pre l n' post) as I'.
  { apply (inv_set_node _ _ _ n); [done|done|]. unfold node_ok, data. cbn. lia. }
  exists d, n'. split_and!; try done.
  rewrite (inv_content _ _ _ _ _ I).
  pose proof (inv_content _ _ _ _ _ I') as C. cbn in C. rewrite C.
  rewrite <- app_assoc. f_equal. rewrite <- (take_memcpy_in _ _ _ _ E). f_equal. lia.
Qed.

Lemma deref_write s pre l n post :
  inv s pre l n post → deref (Some l) s = (Ok n, s).
Proof.
  intros []. unfold deref. cbn.
  by rewrite (lseg_lookup _ _ _ _ (length pre) l n inv_list0) by (by apply list_lookup_middle).
Qed.

Lemma Write_loop_spec fuel buf pos size s pre l n post :
  inv s pre l n post → pos + size ≤ length buf →
  size ≤ rest_size_ n + length post * base_size_ s →
  size + (if decide (rest_size_ n = 0) then 3 else 2) ≤ fuel →
  ∃ s' pre' l' n' post',
    Write_loop fuel buf pos size s = (Ok tt, s') ∧ inv s' pre' l' n' post' ∧
    content (base_size_ s) (pre' ++ (l', n') :: post')
    = content (base_size_ s) (pre ++ (l, n) :: post) ++ take size (drop pos buf) ∧
    (pre' ++ (l', n') :: post').*1 = (pre ++ (l, n) :: post).*1 ∧
    capacity_ s' = capacity_ s ∧ frame s s'.
Proof.
  revert pos size s pre l n post. induction fuel as [|fuel IH];
    intros pos size s pre l n post I Hbuf Hsp Hfuel; [case_decide; lia|].
  cbn [Write_loop]. destruct (decide (size = 0)) as [Hz|Hz].
  { subst size. exists s, pre, l, n, post. rewrite take_0, app_nil_r. split_and!; done. }
  mgo. rewrite (inv_write _ _ _ _ _ I). run (deref_write _ _ _ _ _ I).
  destruct (decide (size ≤ rest_size_ n)) as [Hfit|Hfit].
  - destruct (write_node s pre l n post (take size (drop pos buf)) I) as
      (d & n' & Hcp & -> & I' & Hc); [len|].
    rewrite length_take, length_drop, Nat.min_l in * by lia.
    rewrite Hcp. mgo. unfold store. mgo.
    destruct fuel as [|fuel]; [case_decide; lia|]. cbn [Write_loop].
    rewrite decide_True by done. eexists _, pre, l, _, post.
    split_and!; [done|exact I'|exact Hc| |done|done].
    by rewrite !fmap_app.
  - destruct (write_node s pre l n post (take (rest_size_ n) (drop pos buf)) I) as
      (d & n' & Hcp & Hn' & I' & Hc); [len|].
    rewrite length_take, length_drop, Nat.min_l in Hn' by lia.
    rewrite Nat.sub_diag in Hn'.
    rewrite Hcp. mgo. unfold store. mgo. rewrite <- Hn'.
    destruct post as [|[l2 n2] post]; [cbn in *; lia|].
    assert (next_ n' = next_ n) as Hnn by (by rewrite Hn').
    apply inv_advance in I' as (I2 & Hl2 & Hr2); [|by rewrite Hn'].
    rewrite Hnn in I2, Hl2. cbn in Hr2.
    pose proof (inv_base _ _ _ _ _ I) as Hb.
    destruct (IH (pos + rest_size_ n) (size - rest_size_ n) _ _ _ _ _ I2) as
      (s' & pre' & l' & n3 & post' & Hrun & I3 & Hc3 & Hl3 & Hcap & Hf).
    + lia.
    + cbn in *. lia.
    + rewrite Hr2. rewrite (decide_False (P := base_size_ s = 0)) by lia.
      case_decide; lia.
    + exists s', pre', l', n3, post'. split_and!; [done|done| | |done|].
      * cbn [base_size_ set_write set_node] in Hc3. rewrite Hc3, <- app_assoc. cbn [app].
        rewrite Hc, <- app_assoc. f_equal. rewrite <- drop_drop, <- take_drop_split. f_equal. lia.
      * rewrite Hl3, <- app_assoc. by rewrite !fmap_app.
      * destruct Hf. by split.
Qed.

(** ** The abstract stream

    [repr base s c r]: the object holds the written bytes [c], of which the
    first [r] were read. *)
Definition repr (base : nat) (s : ByteArray) (c : list mbyte) (r : nat) : Prop :=
  base_size_ s = base ∧
  ∃ pre l n post, inv s pre l n post ∧ c = content base (pre ++ (l, n) :: post) ∧
    r = read_pos_ s ∧ read_at s (pre ++ (l, n) :: post).

(** The reader has consumed everything and stands on a node boundary. *)
Definition drained (base : nat) (c : list mbyte) (r : nat) : Prop :=
  r = length c ∧ 0 < r ∧ r mod base = 0.

#[global] Instance drained_dec base c r : Decision (drained base c r).
Proof. unfold drained. apply _. Defined.

(** Sizes for which [RoundUp] does not wrap around. *)
Definition fits (base n : nat) : Prop := (Z.of_nat n + Z.of_nat base ≤ 2 ^ 64)%Z.

#[global] Instance fits_dec base n : Decision (fits base n).
Proof. unfold fits. apply _. Defined.

Lemma repr_base_pos base s c r : repr base s c r → 0 < base.
Proof. intros (<- & pre & l & n & post & I & _). apply (inv_base _ _ _ _ _ I). Qed.

Lemma read_at_locs s ls : read_at s ls ↔ read_ptr_ s = ls.*1 !! (read_pos_ s / base_size_ s).
Proof. unfold read_at. by rewrite list_lookup_fmap. Qed.

Lemma read_at_frame s s' ls ls' :
  frame s s' → ls'.*1 = ls.*1 → read_at s ls → read_at s' ls'.
Proof. rewrite !read_at_locs. intros [-> -> _ ->] ->. done. Qed.

(** The node under the reader survives a cut after the write node. *)
Lemma read_at_cut s s' pre l n n' post new :
  inv s pre l n post → frame s s' →
  read_pos_ s ≤ length (content (base_size_ s) (pre ++ (l, n) :: post)) →
  ¬ drained (base_size_ s) (content (base_size_ s) (pre ++ (l, n) :: post)) (read_pos_ s) →
  read_at s (pre ++ (l, n) :: post) → read_at s' (pre ++ (l, n') :: new).
Proof.
  intros I [Hb Hp _ Hr] Hle Hnd Hra. rewrite read_at_locs in *. rewrite Hb, Hp, Hr, Hra.
  rewrite (inv_content_length _ _ _ _ _ I) in Hle. unfold drained in Hnd.
  rewrite (inv_content_length _ _ _ _ _ I) in Hnd. pose proof (inv_base _ _ _ _ _ I) as H0.
  set (base := base_size_ s) in *. set (r := read_pos_ s) in *.
  assert (r / base ≤ length pre) as Hi.
  { destruct (decide (r / base ≤ length pre)) as [|Hgt]; [done|exfalso].
    pose proof (Nat.div_mod_eq r base). pose proof (Nat.mod_upper_bound r base ltac:(lia)).
    assert (base * (length pre + 1) ≤ base * (r / base)) by (apply Nat.mul_le_mono_l; lia).
    apply Hnd. split_and!; nia. }
  rewrite !fmap_app, !fmap_cons. cbn.
  destruct (decide (r / base < length pre)).
  - rewrite !lookup_app_l by len. done.
  - rewrite !lookup_app_r by len. rewrite length_fmap.
    by replace (r / base - length pre) with 0 by lia.
Qed.

Lemma Write_spec s pre l n post buf size :
  inv s pre l n post → size ≤ length buf → fits (base_size_ s) size →
  ∃ s' pre' l' n' post',
    Write buf size s = (Ok tt, s') ∧ inv s' pre' l' n' post' ∧
    content (base_size_ s) (pre' ++ (l', n') :: post')
    = content (base_size_ s) (pre ++ (l, n) :: post) ++ take size buf ∧ frame s s' ∧
    (if decide (size ≤ rest_size_ n) then
       (pre' ++ (l', n') :: post').*1 = (pre ++ (l, n) :: post).*1
     else ∃ n1 new, (pre' ++ (l', n') :: post').*1 = (pre ++ (l, n1) :: new).*1 ∧
       length new = RoundUp size (base_size_ s)).
Proof.
  intros I Hbuf Hfit. unfold Write. mgo. rewrite (inv_write _ _ _ _ _ I).
  destruct (decide (size = 0)) as [->|Hz].
  { exists s, pre, l, n, post. rewrite take_0, app_nil_r, decide_True by lia. done. }
  run (deref_write _ _ _ _ _ I). pose proof (inv_base _ _ _ _ _ I) as Hb.
  destruct (decide (rest_size_ n < size)) as [Hlt|Hge].
  - pose proof (RoundUp_covers _ _ Hb Hfit) as Hcov.
    destruct (ExtendCapacity_inv s pre l n post size I) as
      (s1 & n1 & new & Hrun & I1 & Hd & Hr & Hlen & Hcap & Hf1); [nia|].
    run Hrun. pose proof (fr_base _ _ Hf1) as Hb1.
    destruct (Write_loop_spec (size + 3) buf 0 size s1 pre l n1 new I1) as
      (s' & pre' & l' & n' & post' & Hw & I' & Hc & Hl & Hcap' & Hf);
      [lia|rewrite Hlen, Hb1; lia|case_decide; lia|].
    exists s', pre', l', n', post'. rewrite decide_False by lia.
    split_and!; [done|done| |by etrans|by eexists _, _].
    rewrite Hb1 in Hc. rewrite Hc, drop_0. f_equal.
    pose proof (inv_content _ _ _ _ _ I1) as C. rewrite Hb1 in C.
    rewrite C, (inv_content _ _ _ _ _ I). by rewrite Hd, Hr.
  - mgo. destruct (Write_loop_spec (size + 3) buf 0 size s pre l n post I) as
      (s' & pre' & l' & n' & post' & Hw & I' & Hc & Hl & Hcap' & Hf);
      [lia|lia|case_decide; lia|].
    exists s', pre', l', n', post'. rewrite decide_True by lia.
    rewrite drop_0 in Hc. done.
Qed.

Lemma Write_repr base s c r buf size :
  repr base s c r → r ≤ length c → ¬ drained base c r →
  size ≤ length buf → fits base size →
  ∃ s', Write buf size s = (Ok tt, s') ∧ repr base s' (c ++ take size buf) r.
Proof.
  intros (<- & pre & l & n & post & I & -> & -> & Hra) Hle Hnd Hbuf Hfit.
  destruct (Write_spec s pre l n post buf size I Hbuf Hfit) as
    (s' & pre' & l' & n' & post' & Hw & I' & Hc & Hf & Hl).
  exists s'. split; [done|]. split; [apply Hf|].
  exists pre', l', n', post'. split_and!; [done|by rewrite Hc|by rewrite (fr_pos _ _ Hf)|].
  destruct (decide (size ≤ rest_size_ n)).
  - by eapply read_at_frame.
  - destruct Hl as (n1 & new & Hl & _).
    apply (read_at_frame s' s' (pre ++ (l, n1) :: new)); [done|done|].
    by eapply read_at_cut.
Qed.

(** ** Reading *)

Lemma memcpy_out_ok src start n :
  start + n ≤ length src → memcpy_out src start n = Ok (take n (drop start src)).
Proof. intros H. unfold memcpy_out. by rewrite decide_True. Qed.

Lemma set_read_set_read a b p q s : set_read b q (set_read a p s) = set_read b q s.
Proof. done. Qed.

(** Position arithmetic of one copy: it stays in the node or ends on its
    boundary. *)
Lemma read_step base r k :
  0 < base → 0 < k →
  let start := r mod base in let sz := Nat.min (base - start) k in
  0 < sz ∧ start + sz ≤ base ∧
  (start + sz = base → (r + sz) / base = S (r / base)) ∧
  (start + sz < base → sz = k ∧ (r + sz) / base = r / base).
Proof.
  intros Hb Hk start sz. subst start sz.
  pose proof (Nat.div_mod_eq r base) as Hr. pose proof (Nat.mod_upper_bound r base ltac:(lia)).
  split_and!; [lia|lia| |]; intros Hs.
  - symmetry. apply (Nat.div_unique _ _ _ 0); nia.
  - split; [lia|]. symmetry. apply (Nat.div_unique _ _ _ (r mod base + k)); nia.
Qed.

Section Reading.
Context (ls : list (loc * Node)) (base : nat).

(** The part of the invariant that reading needs. *)
Definition readable (s : ByteArray) : Prop :=
  base_size_ s = base ∧ 0 < base ∧ lseg (heap s) (root_ptr_ s) ls None ∧
  Forall (node_ok base) ls ∧ read_at s ls.

Lemma readable_step s k i l n :
  readable s → 0 < k → i = read_pos_ s / base → ls !! i = Some (l, n) →
  let start := read_pos_ s mod base in let sz := Nat.min (base - start) k in
  deref (read_ptr_ s) s = (Ok n, s) ∧
  memcpy_out (base_ptr_ n) start sz = Ok (take sz (drop (read_pos_ s) (raw ls))) ∧
  readable (set_read (read_pos_ s + sz)
    (if decide (start + sz = base) then next_ n else read_ptr_ s) s).
Proof.
  intros (Hbs & Hb & Hl & Hok & Hra) Hk -> Hi start sz.
  destruct (read_step base (read_pos_ s) k Hb Hk) as (Hpos & Hle & Heq & Hlt).
  fold start sz in Hpos, Hle, Heq, Hlt.
  pose proof (Forall_lookup_1 _ _ _ _ Hok Hi) as [Hlen _]. unfold data in Hlen. cbn in Hlen.
  pose proof Hra as Hra'. unfold read_at in Hra'. rewrite Hbs, Hi in Hra'. cbn in Hra'.
  split_and!.
  - unfold deref. rewrite Hra'. cbn. by rewrite (lseg_lookup _ _ _ _ _ _ _ Hl Hi).
  - rewrite memcpy_out_ok by lia. f_equal.
    pose proof (raw_slice base _ _ _ _ _ Hok Hi Hle) as E. unfold data in E. cbn in E.
    rewrite <- E. do 2 f_equal. pose proof (Nat.div_mod_eq (read_pos_ s) base).
    subst start. lia.
  - split_and!; cbn; try done. unfold read_at. cbn. rewrite Hbs.
    case_decide as Hd.
    + rewrite (Heq Hd). by apply (lseg_next _ _ _ _ l n Hl).
    + destruct Hlt as [_ ->]; [lia|]. by rewrite Hra', Hi.
Qed.

Lemma Read_loop_spec fuel k out s :
  readable s → read_pos_ s + k ≤ length ls * base → k < fuel →
  ∃ p, Read_loop fuel k out s
    = (Ok (out ++ take k (drop (read_pos_ s) (raw ls))), set_read (read_pos_ s + k) p s) ∧
    readable (set_read (read_pos_ s + k) p s).
Proof.
  revert k out s. induction fuel as [|fuel IH]; intros k out s Hr Hle Hf; [lia|].
  cbn [Read_loop]. destruct (decide (k = 0)) as [->|Hk].
  { exists (read_ptr_ s). rewrite take_0, app_nil_r, Nat.add_0_r.
    by destruct s. }
  mgo. pose proof Hr as (Hbs & Hb & _). rewrite Hbs.
  set (start := read_pos_ s mod base). set (sz := Nat.min (base - start) k).
  destruct (lookup_lt_is_Some_2 ls (read_pos_ s / base)) as [[l n] Hi].
  { apply Nat.Div0.div_lt_upper_bound; lia. }
  destruct (readable_step s k _ l n Hr ltac:(lia) eq_refl Hi) as (Hde & Hcp & Hr').
  fold start sz in Hcp, Hr'.
  destruct (read_step base (read_pos_ s) k Hb ltac:(lia)) as (Hpos & _). fold start sz in Hpos.
  run Hde. rewrite Hcp. mgo.
  destruct (IH (k - sz) (out ++ take sz (drop (read_pos_ s) (raw ls))) _ Hr') as (p & Hrun & Hr2);
    [cbn; subst sz; lia|lia|].
  exists p. cbn [read_pos_ set_read] in Hrun, Hr2.
  rewrite set_read_set_read in Hrun, Hr2. replace (read_pos_ s + sz + (k - sz)) with
    (read_pos_ s + k) in * by (subst sz; lia).
  split; [|done]. rewrite Hrun. f_equal. f_equal.
  rewrite <- app_assoc. f_equal. rewrite <- drop_drop, <- take_drop_split. f_equal. subst sz. lia.
Qed.

(** Reading past the last node dereferences the null pointer. *)
Lemma Read_loop_past_end fuel k out s :
  readable s → read_pos_ s ≤ length ls * base → length ls * base < read_pos_ s + k →
  k < fuel → ∃ w s', Read_loop fuel k out s = (Undef w, s').
Proof.
  revert k out s. induction fuel as [|fuel IH]; intros k out s Hr Hle Hgt Hf; [lia|].
  cbn [Read_loop]. rewrite decide_False by lia. mgo.
  pose proof Hr as (Hbs & Hb & _ & _ & Hra). rewrite Hbs.
  set (start := read_pos_ s mod base). set (sz := Nat.min (base - start) k).
  destruct (ls !! (read_pos_ s / base)) as [[l n]|] eqn:Hi.
  - destruct (readable_step s k _ l n Hr ltac:(lia) eq_refl Hi) as (Hde & Hcp & Hr').
    fold start sz in Hcp, Hr'.
    destruct (read_step base (read_pos_ s) k Hb ltac:(lia)) as (Hpos & Hbd & _).
    fold start sz in Hpos, Hbd.
    run Hde. rewrite Hcp. mgo. apply IH; [done| | |lia]; cbn.
    + apply lookup_lt_Some in Hi. pose proof (Nat.div_mod_eq (read_pos_ s) base).
      fold start in H. nia.
    + subst sz. lia.
  - unfold read_at in Hra. rewrite Hbs, Hi in Hra. cbn in Hra. rewrite Hra.
    eexists _, _. by rewrite (bind_undef _ _ _ "null pointer" s).
Qed.
End Reading.

Lemma inv_readable s pre l n post :
  inv s pre l n post → read_at s (pre ++ (l, n) :: post) →
  readable (pre ++ (l, n) :: post) (base_size_ s) s.
Proof. intros [] ?. by split_and!. Qed.

Lemma Read_repr base s c r k :
  repr base s c r → r + k ≤ length c →
  ∃ s', Read k s = (Ok (take k (drop r c)), s') ∧ repr base s' c (r + k).
Proof.
  intros (<- & pre & l & n & post & I & -> & -> & Hra) Hk.
  pose proof (inv_content_length _ _ _ _ _ I) as Hlen.
  pose proof (inv_cap _ _ _ _ _ I) as Hcap.
  unfold Read. mgo. rewrite length_app in Hcap. cbn in Hcap.
  rewrite decide_False by nia.
  destruct (Read_loop_spec _ _ (S k) k [] s (inv_readable _ _ _ _ _ I Hra)) as (p & Hrun & Hr');
    [rewrite length_app; cbn; lia|lia|].
  rewrite Hrun. eexists. split.
  - f_equal. f_equal. rewrite app_nil_l. rewrite (inv_content_prefix _ _ _ _ _ I).
    rewrite skipn_firstn_comm, take_take. f_equal. lia.
  - split; [done|]. exists pre, l, n, post. split_and!; [|done|done|apply Hr'].
    destruct I. by split.
Qed.

(** What a [Read] meets in the nodes [ls], the written part of which is [c]. *)
Definition reads (base : nat) (s : ByteArray) (c : list mbyte) (r k : nat) (ls : list (loc * Node)) : Prop :=
  (capacity_ s < k → Read k s = (Throw (out_of_range "ByteArray out of range"), s)) ∧
  (k ≤ capacity_ s → r + k ≤ length (raw ls) →
    ∃ p, Read k s = (Ok (take k (drop r (raw ls))), set_read (r + k) p s) ∧
      repr base (set_read (r + k) p s) c (r + k)) ∧
  (k ≤ capacity_ s → length (raw ls) < r + k → is_undef (Read k s).1).

Lemma Read_storage base s c r k : repr base s c r → r ≤ length c →
  ∃ ls, lseg (heap s) (root_ptr_ s) ls None ∧ c `prefix_of` raw ls ∧ length (raw ls) ≤ capacity_ s ∧ reads base s c r k ls.
Proof.
  intros (<- & pre & l & n & post & I & -> & -> & Hra) Hr.
  rewrite (inv_content_length _ _ _ _ _ I) in Hr. pose proof (inv_readable _ _ _ _ _ I Hra) as Hrd.
  pose proof (length_raw (base_size_ s) _ (inv_ok _ _ _ _ _ I)) as Hlen.
  exists (pre ++ (l, n) :: post). split; [apply I|]. split.
  { rewrite (inv_content_prefix _ _ _ _ _ I). apply prefix_take. }
  split; [rewrite Hlen; apply I|]. unfold reads. rewrite Hlen. split_and!.
  - intros Hk. unfold Read. mgo. by rewrite decide_True.
  - intros Hk Hle. unfold Read. mgo. rewrite decide_False by lia.
    destruct (Read_loop_spec _ _ (S k) k [] s Hrd Hle ltac:(lia)) as (p & Hrun & Hr').
    exists p. split; [exact Hrun|]. split; [done|]. exists pre, l, n, post. split_and!; [|done|done|apply Hr'].
    destruct I. by split.
  - intros Hk Hgt. unfold Read. mgo. rewrite decide_False by lia.
    destruct (Read_loop_past_end _ _ (S k) k [] s Hrd) as (w & s' & ->); [|lia|lia|by exists w].
    rewrite length_app. cbn. lia.
Qed.

Lemma Read_past_end base s c r k :
  repr base s c r → r ≤ length c → k ≤ capacity_ s →
  (∀ ls, lseg (heap s) (root_ptr_ s) ls None → length ls * base < r + k) →
  ∃ w s', Read k s = (Undef w, s').
Proof.
  intros (<- & pre & l & n & post & I & -> & -> & Hra) Hr Hk Hgt.
  rewrite (inv_content_length _ _ _ _ _ I) in Hr.
  unfold Read. mgo. rewrite decide_False by lia.
  eapply Read_loop_past_end; [by apply inv_readable| | |lia].
  - rewrite length_app. cbn. lia.
  - apply Hgt. apply (inv_list _ _ _ _ _ I).
Qed.

(** ** Construction and reset *)

Lemma inv_single s base l :
  base_size_ s = base → 0 < base → heap s !! l = Some (fresh_node base) →
  l < brk s → root_ptr_ s = Some l → write_ptr_ s = Some l → base ≤ capacity_ s →
  inv s [] l (fresh_node base) [].
Proof.
  intros Hs Hb Hh Hl Hr Hw Hc. split; cbn; rewrite ?Hs; try done.
  - apply NoDup_singleton.
  - by apply Forall_singleton.
  - apply Forall_singleton. unfold node_ok, data. cbn. rewrite length_replicate. lia.
  - lia.
Qed.

Lemma repr_single s base l :
  inv s [] l (fresh_node base) [] → base_size_ s = base →
  read_pos_ s = 0 → read_ptr_ s = Some l → repr base s [] 0.
Proof.
  intros I Hs Hr Hp. split; [done|]. exists [], l, (fresh_node base), [].
  split_and!; [done| |done|].
  - subst base. rewrite (inv_content _ _ _ _ _ I). cbn. by rewrite Nat.sub_diag.
  - unfold read_at. rewrite Hp, Hr, Nat.Div0.div_0_l. done.
Qed.

Lemma ByteArray_new_inv baseSize :
  inv (ByteArray_new baseSize) [] 0 (fresh_node (Nat.max NODE_SIZE baseSize)) [].
Proof.
  assert (base_size_ (ByteArray_new baseSize) = Nat.max NODE_SIZE baseSize) as Hb.
  { unfold ByteArray_new. cbn. case_decide; lia. }
  apply inv_single; unfold ByteArray_new in *; cbn in *; rewrite ?Hb; try done;
    unfold NODE_SIZE; lia.
Qed.

Lemma ByteArray_new_repr baseSize :
  repr (Nat.max NODE_SIZE baseSize) (ByteArray_new baseSize) [] 0.
Proof.
  apply (repr_single _ _ 0); [apply ByteArray_new_inv| |done|done].
  unfold ByteArray_new. cbn. case_decide; lia.
Qed.

(** The state after [Clear], and in the middle of [SetAllBits]. *)
Definition cleared (s : ByteArray) : ByteArray :=
  mkByteArray (<[brk s := fresh_node (base_size_ s)]> (heap s)) (S (brk s)) (base_size_ s) 0
    (capacity_ s) (Some (brk s)) (Some (brk s)) (Some (brk s)).

Lemma cleared_inv s :
  0 < base_size_ s → base_size_ s ≤ capacity_ s →
  inv (cleared s) [] (brk s) (fresh_node (base_size_ s)) [].
Proof.
  intros. apply inv_single; cbn; try done; [apply lookup_insert_eq|lia].
Qed.

Lemma cleared_repr s :
  0 < base_size_ s → base_size_ s ≤ capacity_ s → repr (base_size_ s) (cleared s) [] 0.
Proof. intros. apply (repr_single _ _ (brk s)); [by apply cleared_inv|done|done|done]. Qed.

Lemma inv_capacity s pre l n post : inv s pre l n post → base_size_ s ≤ capacity_ s.
Proof. intros [? _ _ _ _ _ _ _ Hc]. rewrite length_app in Hc. cbn in Hc. nia. Qed.

Lemma repr_capacity base s c r : repr base s c r → base_size_ s = base ∧ base ≤ capacity_ s.
Proof. intros (<- & pre & l & n & post & I & _). split; [done|]. by eapply inv_capacity. Qed.

Lemma Clear_cleared s : Clear s = (Ok tt, cleared s).
Proof. done. Qed.

(** ** Dumping *)

Lemma lseg_nodes_le_brk h p ls (b : nat) :
  NoDup ls.*1 → Forall (λ l, l < b) ls.*1 → lseg h p ls None → length ls ≤ b.
Proof.
  intros Hnd Hlt _. rewrite <- (length_fmap fst). rewrite <- (length_seq b 0).
  apply submseteq_length, NoDup_submseteq; [done|]. intros x Hx.
  apply elem_of_seq. rewrite Forall_forall in Hlt. specialize (Hlt x Hx). lia.
Qed.

Lemma inv_fuel s pre l n post : inv s pre l n post → length (pre ++ (l, n) :: post) ≤ brk s.
Proof. intros []. by eapply lseg_nodes_le_brk. Qed.

(** What [BitsStream] copies: whole nodes, but for the last one. *)
Definition dump (base : nat) (ls : list (loc * Node)) : list mbyte :=
  match last ls with
  | Some e => raw (removelast ls) ++ written base e
  | None => []
  end.

Lemma dump_cons base e e' ls : dump base (e :: e' :: ls) = data e ++ dump base (e' :: ls).
Proof.
  unfold dump. rewrite last_cons_cons.
  destruct (last (e' :: ls)) eqn:E; [|by apply last_None in E].
  cbn [removelast]. by rewrite raw_cons, <- app_assoc.
Qed.

Lemma length_dump base ls :
  Forall (node_ok base) ls → length (dump base ls) ≤ length ls * base.
Proof.
  induction ls as [|e [|e' ls] IH]; intros Ho; [unfold dump; cbn; lia| |].
  - apply Forall_singleton in Ho as [Hl Hr]. unfold dump, written. cbn. len.
  - rewrite dump_cons, length_app. apply Forall_cons in Ho as [[Hl _] Ho].
    specialize (IH Ho). rewrite Hl. cbn in *. lia.
Qed.

Lemma BitsStream_loop_spec fuel s p ls out :
  lseg (heap s) p ls None → Forall (node_ok (base_size_ s)) ls → length ls < fuel →
  length out + length ls * base_size_ s ≤ capacity_ s →
  BitsStream_loop fuel p out s = (Ok (out ++ dump (base_size_ s) ls), s).
Proof.
  revert p ls out. induction fuel as [|fuel IH]; intros p ls out Hl Ho Hf Hc; [lia|].
  destruct ls as [|[l n] ls]; cbn in Hl.
  { subst p. cbn. by rewrite app_nil_r. }
  destruct Hl as (-> & Hh & Hl). apply Forall_cons in Ho as [[Hlen Hr] Ho].
  unfold data in Hlen. cbn [fst snd] in Hlen, Hr. cbn [BitsStream_loop]. mgo.
  assert (deref (Some l) s = (Ok n, s)) as Hd by (unfold deref; cbn; by rewrite Hh).
  run Hd. cbn [length] in Hf, Hc.
  destruct ls as [|e' ls].
  - cbn in Hl. rewrite Hl. rewrite memcpy_out_ok by lia. mgo.
    rewrite decide_True by lia. mgo.
    rewrite (IH None []) by (try done; rewrite ?length_app, ?length_take; cbn; lia).
    unfold dump, written, data. cbn. by rewrite app_nil_r, drop_0.
  - assert (∃ q, next_ n = Some q) as [q Hq].
    { destruct e' as [l' n']. cbn in Hl. naive_solver. }
    rewrite Hq in *. rewrite memcpy_out_ok by lia. mgo. rewrite decide_True by lia. mgo.
    rewrite (IH _ (e' :: ls)) by (try done; rewrite ?length_app, ?length_take; cbn in *; lia).
    rewrite dump_cons, drop_0, take_ge by lia. by rewrite <- app_assoc.
Qed.

Lemma BitsStream_inv s pre l n post :
  inv s pre l n post →
  BitsStream s = (Ok (dump (base_size_ s) (pre ++ (l, n) :: post)), s).
Proof.
  intros I. unfold BitsStream. mgo. pose proof (inv_fuel _ _ _ _ _ I). destruct I.
  rewrite (BitsStream_loop_spec _ s _ (pre ++ (l, n) :: post)) by (cbn; done || lia). done.
Qed.

Lemma dump_app base a b : b ≠ [] → dump base (a ++ b) = raw a ++ dump base b.
Proof.
  intros Hb. induction a as [|e a IH]; [done|]. rewrite raw_cons, <- app_assoc, <- IH.
  cbn. destruct a as [|e' a]; cbn.
  - destruct b as [|e' b]; [done|]. apply dump_cons.
  - apply dump_cons.
Qed.

Lemma dump_raw_length base ls e :
  Forall (node_ok base) (ls ++ [e]) → empty base e →
  length (dump base (ls ++ [e])) = length ls * base.
Proof.
  intros [Ho _]%Forall_app He. rewrite dump_app by done.
  unfold dump, written, empty in *. cbn. rewrite He, Nat.sub_diag, take_0, app_nil_r.
  by apply length_raw.
Qed.

(** With trailing nodes the write node is dumped in full. *)
Lemma dump_inv s pre l n post :
  inv s pre l n post →
  let base := base_size_ s in
  let c := content base (pre ++ (l, n) :: post) in
  c `prefix_of` dump base (pre ++ (l, n) :: post) ∧
  (post = [] → dump base (pre ++ (l, n) :: post) = c) ∧
  (post ≠ [] → length (dump base (pre ++ (l, n) :: post)) = (length pre + length post) * base).
Proof.
  intros I base c. pose proof (inv_content _ _ _ _ _ I) as Hc. fold base c in Hc.
  pose proof (inv_ok _ _ _ _ _ I) as Ho. fold base in Ho.
  rewrite dump_app by done. split_and!.
  - rewrite Hc. apply prefix_app. destruct post as [|e post].
    + exists []. by rewrite app_nil_r.
    + rewrite dump_cons. apply prefix_app_r. apply prefix_take.
  - intros ->. rewrite Hc. done.
  - intros Hne. destruct (exists_last Hne) as (post' & e & ->).
    apply Forall_app in Ho as [Hp Ho]. rewrite length_app, (length_raw base) by done.
    rewrite app_comm_cons in *. rewrite (dump_raw_length _ _ _ Ho).
    + rewrite length_app. cbn. lia.
    + pose proof (inv_post _ _ _ _ _ I) as He. apply Forall_app in He as [_ He].
      rewrite Forall_singleton in He. exact He.
Qed.

End ByteArraySpec.
