(* ===== verification/ByteArrayProps.v ===== *)
(** * Properties of the byte array

    The main theorems about [ByteArray]: the refinement of a byte stream, the
    error and overflow behaviour of [Read], dumping, resetting and the buffers
    handed out. *)

From S2P Require Import Prelude ByteArray ByteArraySpec.
Import ByteArray ByteArraySpec.

Module ByteArrayProps.

(** ** Traces of writes and reads *)

Inductive stream_op :=
| OpWrite (b : list mbyte)
| OpRead (k : nat).

Definition exec_op (o : stream_op) : M ByteArray (list mbyte) :=
  match o with
  | OpWrite b => Write b (length b);; mret []
  | OpRead k => Read k
  end.

Fixpoint exec_ops (ops : list stream_op) : M ByteArray (list (list mbyte)) :=
  match ops with
  | [] => mret []
  | o :: ops' => x ← exec_op o; xs ← exec_ops ops'; mret (x :: xs)
  end.

(** The abstract stream: written bytes and read position.  Reads stay inside
    the written bytes; no write follows a read that drained a node boundary. *)
Definition stream_step (base : nat) (o : stream_op) (st : list mbyte * nat)
  : option (list mbyte * (list mbyte * nat)) :=
  let '(c, r) := st in
  match o with
  | OpWrite b =>
      if decide (drained base c r) then None
      else if decide (fits base (length b)) then Some ([], (c ++ b, r)) else None
  | OpRead k =>
      if decide (r + k ≤ length c) then Some (take k (drop r c), (c, r + k)) else None
  end.

Fixpoint stream_run (base : nat) (ops : list stream_op) (st : list mbyte * nat)
  : option (list (list mbyte) * (list mbyte * nat)) :=
  match ops with
  | [] => Some ([], st)
  | o :: ops' =>
      '(x, st1) ← stream_step base o st;
      '(xs, st2) ← stream_run base ops' st1;
      Some (x :: xs, st2)
  end.

Lemma exec_op_refines base s c r o x st :
  repr base s c r → r ≤ length c → stream_step base o (c, r) = Some (x, st) →
  ∃ s', exec_op o s = (Ok x, s') ∧ repr base s' st.1 st.2 ∧ st.2 ≤ length st.1.
Proof.
  intros Hr Hle Hst. destruct o as [b|k]; cbn in Hst.
  - destruct (decide (drained base c r)); [done|].
    destruct (decide (fits base (length b))); [|done]. injection Hst as <- <-.
    destruct (Write_repr base s c r b (length b)) as (s' & Hw & Hr'); [done..|].
    exists s'. rewrite take_ge in Hr' by lia. cbn. run Hw. split_and!; [done|done|len].
  - destruct (decide (r + k ≤ length c)); [|done]. injection Hst as <- <-.
    destruct (Read_repr base s c r k) as (s' & Hw & Hr'); [done..|]. by exists s'.
Qed.

Lemma exec_ops_refines base s c r ops outs st :
  repr base s c r → r ≤ length c → stream_run base ops (c, r) = Some (outs, st) →
  ∃ s', exec_ops ops s = (Ok outs, s') ∧ repr base s' st.1 st.2.
Proof.
  revert s c r outs. induction ops as [|o ops IH]; intros s c r outs Hr Hle H;
    cbn [stream_run] in H.
  { injection H as <- <-. by exists s. }
  destruct (stream_step base o (c, r)) as [[x [c1 r1]]|] eqn:E1; [|done].
  cbn in H.
  destruct (stream_run base ops (c1, r1)) as [[xs st2]|] eqn:E2; [|done]. cbn in H.
  injection H as <- <-.
  destruct (exec_op_refines _ _ _ _ _ _ _ Hr Hle E1) as (s1 & H1 & Hr1 & Hle1).
  destruct (IH s1 c1 r1 xs Hr1 Hle1 E2) as (s2 & H2 & Hr2).
  exists s2. split; [|done]. cbn [exec_ops]. run H1. by run H2.
Qed.

(** [C7] From construction on, every sequence of writes and reads in which
    reads stay inside the written bytes (and no write follows a read that
    emptied the array exactly at a node boundary) behaves as a byte stream:
    each [Read] returns the next bytes written, across node boundaries and list
    growth, and no call fails. *)
Theorem byte_stream_refinement baseSize ops outs c r :
  stream_run (Nat.max NODE_SIZE baseSize) ops ([], 0) = Some (outs, (c, r)) →
  ∃ s', exec_ops ops (ByteArray_new baseSize) = (Ok outs, s') ∧
    repr (Nat.max NODE_SIZE baseSize) s' c r.
Proof.
  intros H.
  destruct (exec_ops_refines _ _ _ _ _ _ _ (ByteArray_new_repr baseSize) (Nat.le_refl _) H)
    as (s' & ? & ?).
  by exists s'.
Qed.

Definition sample (n : nat) : list mbyte := (λ i, Some (Z.of_nat i)) <$> seq 0 n.

Lemma byte_stream_refinement_witness :
  ∃ s', exec_ops [OpWrite (sample 3); OpRead 2; OpWrite (sample 200); OpRead 150]
          (ByteArray_new 16)
        = (Ok [[]; sample 2; []; Some 2%Z :: sample 149], s') ∧
    repr (Nat.max NODE_SIZE 16) s' (sample 3 ++ sample 200) 152.
Proof. apply byte_stream_refinement. vm_compute. reflexivity. Defined.

(** [Write] refines appending: whatever the free space of the write node,
    the bytes land after those already written, the read position is kept, the
    loop ends and the invariant of the list is re-established. *)
Theorem Write_appends base s c r buf size :
  repr base s c r → r ≤ length c → ¬ drained base c r →
  size ≤ length buf → fits base size →
  ∃ s', Write buf size s = (Ok tt, s') ∧ repr base s' (c ++ take size buf) r.
Proof. apply Write_repr. Qed.

Lemma Write_appends_witness :
  ∃ s', Write (sample 300) 300 (ByteArray_new 128) = (Ok tt, s') ∧
    repr 128 s' (take 300 (sample 300)) 0.
Proof.
  apply (Write_appends 128 (ByteArray_new 128) [] 0).
  - exact (ByteArray_new_repr 128).
  - cbn. lia.
  - intros (_ & ? & _). lia.
  - vm_compute. lia.
  - unfold fits. lia.
Defined.

(** [C36] [Read] of [k] bytes, on every branch: bytes that have been written and not
    yet read are what comes, and the position moves on; above [capacity_], which is
    all it checks, it throws [out_of_range] and leaves the object untouched; in
    between it hands out whatever the nodes hold past what was written, or, when it
    passes the last node, dereferences the null pointer. *)
Theorem Read_bounds base s c r k :
  repr base s c r → r ≤ length c →
  (r + k ≤ length c → ∃ s', Read k s = (Ok (take k (drop r c)), s') ∧ repr base s' c (r + k)) ∧
  ∃ ls, lseg (heap s) (root_ptr_ s) ls None ∧ c `prefix_of` raw ls ∧ length (raw ls) ≤ capacity_ s ∧
    (capacity_ s < k → Read k s = (Throw (out_of_range "ByteArray out of range"), s)) ∧
    (k ≤ capacity_ s → r + k ≤ length (raw ls) →
      ∃ p, Read k s = (Ok (take k (drop r (raw ls))), set_read (r + k) p s) ∧
        repr base (set_read (r + k) p s) c (r + k)) ∧
    (k ≤ capacity_ s → length (raw ls) < r + k → is_undef (Read k s).1).
Proof. intros Hr Hle. split; [by apply Read_repr|]. by apply Read_storage. Qed.

Lemma read_sample : repr 128 (exec_ops [OpWrite (sample 100); OpRead 100] (ByteArray_new 128)).2 (sample 100) 100.
Proof.
  destruct (exec_ops_refines 128 (ByteArray_new 128) [] 0
    [OpWrite (sample 100); OpRead 100] [[]; sample 100] (sample 100, 100)) as (s' & E & Hr).
  - exact (ByteArray_new_repr 128).
  - cbn; lia.
  - vm_compute. reflexivity.
  - rewrite E. exact Hr.
Qed.

(** 100 of 128 bytes are written and read: 20 more come out of the rest of the node,
    60 more pass it, 129 are refused. *)
Lemma Read_bounds_witness :
  let s := (exec_ops [OpWrite (sample 100); OpRead 100] (ByteArray_new 128)).2 in
  Read 129 s = (Throw (out_of_range "ByteArray out of range"), s) ∧
  (∃ b s', Read 20 s = (Ok b, s') ∧ repr 128 s' (sample 100) 120) ∧
  is_undef (Read 60 s).1.
Proof.
  intros s. assert (∀ ls, lseg (heap s) (root_ptr_ s) ls None → length (raw ls) = 128) as Hl.
  { intros [|[l n] [|[l2 n2] ls]]; cbn -[s]; [by intros E; vm_compute in E| |].
    - intros (E1 & E2 & _). revert E1 E2. vm_compute. by intros [= <-] [= <-].
    - intros (E1 & E2 & E3 & _). exfalso. revert E1 E2 E3. vm_compute. by intros [= <-] [= <-]. }
  destruct (Read_bounds 128 s (sample 100) 100 129 read_sample) as (_ & ls & _ & _ & _ & H1 & _); [vm_compute; lia|].
  destruct (Read_bounds 128 s (sample 100) 100 20 read_sample) as (_ & ls2 & Hs2 & _ & _ & _ & H2 & _); [vm_compute; lia|].
  destruct (Read_bounds 128 s (sample 100) 100 60 read_sample) as (_ & ls3 & Hs3 & _ & _ & _ & _ & H3); [vm_compute; lia|].
  split; [apply H1; vm_compute; lia|]. split.
  - destruct H2 as (p & E & Hr); [vm_compute; lia|rewrite (Hl _ Hs2); lia|]. eexists _, _. split; [exact E|exact Hr].
  - apply H3; [vm_compute; lia|]. rewrite (Hl _ Hs3). lia.
Defined.

(** A reader that has consumed the whole list of nodes is lost: its
    pointer is null, a later [Write] succeeds but leaves it null, and the next
    [Read] of the bytes just written is undefined behaviour. *)
Theorem drained_reader_is_lost base s c r buf size :
  repr base s c r → read_ptr_ s = None → size ≤ length buf → fits base size →
  ∃ s', Write buf size s = (Ok tt, s') ∧
    ∀ k, 0 < k ≤ base → is_undef (Read k s').1.
Proof.
  intros (<- & pre & l & n & post & I & -> & -> & Hra) Hn Hbuf Hfit.
  destruct (Write_spec s pre l n post buf size I Hbuf Hfit) as
    (s' & pre' & l' & n' & post' & Hw & I' & _ & [Hb _ _ Hrd] & _).
  exists s'. split; [done|]. intros k Hk. unfold Read. mgo.
  pose proof (inv_capacity _ _ _ _ _ I') as Hcap. rewrite Hb in Hcap.
  rewrite decide_False by lia. cbn [Read_loop]. rewrite decide_False by lia. mgo.
  rewrite (bind_undef _ _ _ "null pointer" s'); [by eexists|].
  unfold deref. by rewrite Hrd, Hn.
Qed.

Lemma drained_reader_is_lost_witness :
  let s := (exec_ops [OpWrite (sample 128); OpRead 128] (ByteArray_new 128)).2 in
  ∃ s', Write (sample 3) 3 s = (Ok tt, s') ∧ is_undef (Read 1 s').1.
Proof.
  intros s.
  assert (repr 128 s (sample 128) 128) as Hr.
  { destruct (exec_ops_refines 128 (ByteArray_new 128) [] 0
      [OpWrite (sample 128); OpRead 128] [[]; sample 128] (sample 128, 128)) as (s' & E & Hr).
    - exact (ByteArray_new_repr 128).
    - cbn; lia.
    - vm_compute. reflexivity.
    - unfold s. rewrite E. exact Hr. }
  destruct (drained_reader_is_lost 128 s (sample 128) 128 (sample 3) 3 Hr) as (s' & E & H).
  - vm_compute. reflexivity.
  - vm_compute. lia.
  - unfold fits. lia.
  - exists s'. split; [exact E|]. apply H. lia.
Defined.

(** [BitsStream] never overruns the [capacity_] bytes it allocates nor
    reads outside a node, leaves the object alone, and its result starts with
    everything written so far. *)
Theorem BitsStream_safe base s c r :
  repr base s c r →
  ∃ out, BitsStream s = (Ok out, s) ∧ c `prefix_of` out ∧ length out ≤ capacity_ s.
Proof.
  intros (<- & pre & l & n & post & I & -> & -> & _).
  destruct (dump_inv _ _ _ _ _ I) as (Hp & _). eexists.
  rewrite (BitsStream_inv _ _ _ _ _ I). split_and!; [done|exact Hp|].
  etrans; [apply length_dump, (inv_ok _ _ _ _ _ I)|apply (inv_cap _ _ _ _ _ I)].
Qed.

Lemma BitsStream_safe_witness :
  ∃ out, BitsStream (ByteArray_new 128) = (Ok out, ByteArray_new 128) ∧
    [] `prefix_of` out ∧ length out ≤ capacity_ (ByteArray_new 128).
Proof. apply (BitsStream_safe 128 _ [] 0). exact (ByteArray_new_repr 128). Defined.

(** [GetAllBits] after [SetAllBits(iov)] gives the bytes of [iov] back
    exactly when they fit the first node or fill whole nodes; otherwise the
    dump is padded with indeterminate bytes up to a multiple of the node size,
    because [ExtendCapacity] leaves an empty node behind the write cursor. *)
Theorem SetAllBits_GetAllBits base s c r iov :
  repr base s c r → fits base (length iov) →
  ∃ s' out, SetAllBits iov s = (Ok tt, s') ∧ GetAllBits s' = (Ok out, s') ∧
    iov `prefix_of` out ∧
    length out = (if decide (length iov ≤ base) then length iov
                  else RoundUp (length iov) base * base) ∧
    (out = iov ↔ length iov ≤ base ∨ length iov mod base = 0).
Proof.
  intros Hr Hfit. destruct (repr_capacity _ _ _ _ Hr) as [Hb Hcap].
  pose proof (repr_base_pos _ _ _ _ Hr) as Hpos. subst base.
  pose proof (cleared_inv s Hpos Hcap) as I0.
  destruct (Write_spec (cleared s) _ _ _ _ iov (length iov) I0 (Nat.le_refl _) Hfit) as
    (s' & pre & l & n & post & Hw & I & Hc & [Hb _ _ _] & Hl). cbn [cleared base_size_] in *.
  exists s', (dump (base_size_ s) (pre ++ (l, n) :: post)).
  split; [exact Hw|]. unfold GetAllBits. rewrite (BitsStream_inv _ _ _ _ _ I), Hb.
  split; [done|]. rewrite take_ge in Hc by lia.
  assert (content (base_size_ s) ([] ++ [(brk s, fresh_node (base_size_ s))]) = []) as E0.
  { apply content_empty. by apply Forall_singleton. }
  rewrite E0, app_nil_l in Hc.
  pose proof (dump_inv _ _ _ _ _ I) as (Hp & Heq & Hlen). rewrite Hb, Hc in *.
  split; [done|].
  assert (length (dump (base_size_ s) (pre ++ (l, n) :: post)) =
    if decide (length iov ≤ base_size_ s) then length iov
    else RoundUp (length iov) (base_size_ s) * base_size_ s) as Hout.
  { cbn in Hl. destruct (decide (length iov ≤ base_size_ s)).
    - apply (f_equal length) in Hl. rewrite !length_fmap, length_app in Hl. cbn in Hl.
      destruct post; [|cbn in Hl; lia]. by rewrite Heq.
    - destruct Hl as (n1 & new & Hl & Hnew). apply (f_equal length) in Hl.
      cbn in Hl. rewrite !length_fmap, length_app in Hl. cbn in Hl.
      destruct (decide (post = [])) as [->|Hne]; [|rewrite Hlen by done; f_equal; lia].
      rewrite Heq by done. pose proof (inv_content_length _ _ _ _ _ I) as HL.
      rewrite Hb, Hc in HL. pose proof (RoundUp_covers _ _ Hpos Hfit).
      cbn [length] in Hl. replace (length pre) with (RoundUp (length iov) (base_size_ s)) in HL by lia. lia. }
  split; [done|]. split.
  - intros E. rewrite E in Hout. destruct (decide _); [by left|right].
    rewrite Hout. apply Nat.Div0.mod_mul.
  - intros HE. destruct Hp as [k Hk]. rewrite Hk in Hout |- *.
    destruct k as [|b k]; [by rewrite app_nil_r|exfalso].
    rewrite length_app in Hout. cbn in Hout. destruct (decide _) as [|Hgt]; [lia|].
    destruct HE as [?|Hm]; [contradiction|]. rewrite RoundUp_spec in Hout by done.
    apply Nat.Lcm0.mod_divide in Hm as [q Hq]. rewrite Hq in Hout.
    replace (q * base_size_ s + base_size_ s - 1) with (base_size_ s - 1 + q * base_size_ s)
      in Hout by lia.
    rewrite Nat.div_add, Nat.div_small in Hout by lia. lia.
Qed.

Lemma SetAllBits_GetAllBits_witness :
  ∃ s' out, SetAllBits (sample 130) (ByteArray_new 128) = (Ok tt, s') ∧
    GetAllBits s' = (Ok out, s') ∧ length out = 256.
Proof.
  destruct (SetAllBits_GetAllBits 128 (ByteArray_new 128) [] 0 (sample 130)) as
    (s' & out & H1 & H2 & _ & H3 & _).
  - exact (ByteArray_new_repr 128).
  - unfold fits. vm_compute. done.
  - exists s', out. split; [exact H1|]. split; [exact H2|]. rewrite H3. vm_compute. reflexivity.
Defined.

(** [Clear] empties the stream but keeps the old [capacity_]: the guard of
    [Read] then accepts sizes the single remaining node cannot serve. *)
Theorem Clear_keeps_capacity base s c r :
  repr base s c r →
  ∃ s', Clear s = (Ok tt, s') ∧ repr base s' [] 0 ∧ capacity_ s' = capacity_ s ∧
    ∀ k, base < k ≤ capacity_ s → is_undef (Read k s').1.
Proof.
  intros Hr. destruct (repr_capacity _ _ _ _ Hr) as [Hb Hcap].
  pose proof (repr_base_pos _ _ _ _ Hr) as Hpos. subst base.
  pose proof (cleared_repr s Hpos Hcap) as Hc.
  exists (cleared s). split_and!; [done|done|done|]. intros k Hk.
  destruct (Read_past_end _ _ _ _ k Hc) as (w & s' & ->); [cbn; lia|cbn; lia| |by exists w].
  intros [|[l n] ls]; cbn; [lia|]. intros (E & Hh & Hl). injection E as <-.
  rewrite lookup_insert_eq in Hh. injection Hh as <-. cbn in Hl.
  destruct ls as [|[l2 n2] ls]; [cbn; lia|]. by destruct Hl.
Qed.

Lemma Clear_keeps_capacity_witness :
  let s := (Write (sample 200) 200 (ByteArray_new 128)).2 in
  ∃ s', Clear s = (Ok tt, s') ∧ is_undef (Read 200 s').1.
Proof.
  intros s. destruct (Write_repr 128 (ByteArray_new 128) [] 0 (sample 200) 200) as (s1 & E & Hr).
  - exact (ByteArray_new_repr 128).
  - cbn. lia.
  - intros (_ & ? & _). lia.
  - vm_compute. lia.
  - unfold fits. lia.
  - assert (s = s1) as -> by (unfold s; by rewrite E).
    destruct (Clear_keeps_capacity _ _ _ _ Hr) as (s' & E1 & _ & _ & H).
    exists s'. split; [exact E1|]. apply H. injection E as <-. vm_compute. lia.
Defined.

(** ** Buffers handed out *)

Lemma GetBuffer_loop_spec fuel s p ls ivec :
  lseg (heap s) p ls None → length ls < fuel →
  ∃ iv, GetBuffer_loop fuel p ivec s = (Ok (ivec ++ iv), s) ∧
    iv.*2 = (λ e, base_size_ s - rest_size_ e.2) <$> ls.
Proof.
  revert p ls ivec. induction fuel as [|fuel IH]; intros p ls ivec Hl Hf; [lia|].
  destruct ls as [|[l n] ls]; cbn in Hl.
  { subst p. exists []. cbn. by rewrite app_nil_r. }
  destruct Hl as (-> & Hh & Hl). cbn [GetBuffer_loop]. mgo.
  assert (deref (Some l) s = (Ok n, s)) as Hd by (unfold deref; cbn; by rewrite Hh).
  run Hd. cbn in Hf. destruct (IH (next_ n) ls (ivec ++ [(l, base_size_ s - rest_size_ n)]) Hl
    ltac:(lia)) as (iv & Hrun & Hiv).
  exists ((l, base_size_ s - rest_size_ n) :: iv). split; [|cbn; by rewrite Hiv].
  replace (if decide (rest_size_ n = 0) then base_size_ s else base_size_ s - rest_size_ n)
    with (base_size_ s - rest_size_ n) by (case_decide; lia).
  rewrite Hrun. by rewrite <- app_assoc.
Qed.

Lemma sum_written base ls :
  Forall (node_ok base) ls →
  sum_list ((λ e, base - rest_size_ e.2) <$> ls) = length (content base ls).
Proof.
  induction 1 as [|e ls [Hl Hr] Hls IH]; [done|]. rewrite content_cons, length_app.
  cbn. rewrite IH. unfold written. rewrite length_take. lia.
Qed.

(** The buffers of [GetBuffer] cover exactly the bytes already written,
    also when it grows the list: it never hands out room to write into, so the
    request for [length] bytes is not served. *)
Theorem GetBuffer_covers_written base s c r len :
  repr base s c r → fits base len →
  ∃ ivec s', GetBuffer [] len s = (Ok ivec, s') ∧ sum_list ivec.*2 = length c.
Proof.
  intros (<- & pre & l & n & post & I & -> & -> & _) Hfit. unfold GetBuffer. mgo.
  pose proof (inv_base _ _ _ _ _ I) as Hpos.
  assert (∃ s1 n1 post1,
    (if decide (capacity_ s < len) then ExtendCapacity len else mret tt) s = (Ok tt, s1) ∧
    inv s1 pre l n1 post1 ∧ base_size_ s1 = base_size_ s ∧
    content (base_size_ s) (pre ++ (l, n1) :: post1)
    = content (base_size_ s) (pre ++ (l, n) :: post)) as (s1 & n1 & post1 & Hx & I1 & Hb & Hc).
  { destruct (decide (capacity_ s < len)); [|by exists s, n, post].
    destruct (ExtendCapacity_inv s pre l n post len I) as
      (s1 & n1 & new & Hrun & I1 & Hd & Hr & _ & _ & [Hb _ _ _]).
    { pose proof (RoundUp_covers _ _ Hpos Hfit). nia. }
    exists s1, n1, new. split_and!; try done.
    pose proof (inv_content _ _ _ _ _ I1) as C. rewrite Hb in C.
    rewrite C, (inv_content _ _ _ _ _ I). by rewrite Hd, Hr. }
  run Hx. mgo. pose proof (inv_fuel _ _ _ _ _ I1).
  destruct (GetBuffer_loop_spec (S (brk s1)) s1 (root_ptr_ s1) (pre ++ (l, n1) :: post1) [])
    as (iv & Hrun & Hiv); [apply (inv_list _ _ _ _ _ I1)|lia|].
  exists iv, s1. split; [done|]. rewrite Hiv, Hb, <- Hc. apply sum_written.
  rewrite <- Hb. apply (inv_ok _ _ _ _ _ I1).
Qed.

Lemma GetBuffer_covers_written_witness :
  ∃ ivec s', GetBuffer [] 500 (ByteArray_new 128) = (Ok ivec, s') ∧ sum_list ivec.*2 = 0.
Proof.
  apply (GetBuffer_covers_written 128 _ [] 0).
  - exact (ByteArray_new_repr 128).
  - unfold fits. lia.
Defined.

End ByteArrayProps.
