(* ===== verification/ByteCodec.v ===== *)
(** * Typed reads and writes of the byte array

    The [WriteF*]/[ReadF*] (fixed width), [WriteV*]/[ReadV*] (varint), float,
    double and string methods of [src/bytearray.cc], over [ByteArray.Write] and
    [ByteArray.Read]. *)

From S2P Require Import Prelude Endian Varint ByteArray.
Import ByteArray.

Module ByteCodec.

(** The platform: the host's byte order, the macros [endian.hh] was compiled
    with and the [max_size()] of [std::string]. *)
Record platform := Platform {
  host_le : bool;
  pp : Endian.macros;
  str_max : Z }.

(** x86-64 with glibc and libstdc++. *)
Definition x86_64 : platform := Platform true Endian.no_endian_h (2 ^ 63 - 2).

Section Codec.
Context (P : platform).

(** [WriteFint8] and [WriteFuint8] write the byte as it is, the wider
    [WriteF*] call [SwapToLittle] first. *)
Definition WriteF (t : ity) (val : Z) : M ByteArray unit :=
  let v := if (ibits t =? 8)%Z then val else Endian.SwapToLittle (pp P) t val in
  Write (Some <$> Endian.object_bytes (host_le P) t v) (Endian.sizeof t).

(** The macro [XX(type)] of the fixed-width readers: the [ByteSwap] is applied
    to every width.  Returning an indeterminate value is undefined. *)
Definition ReadF (t : ity) : M ByteArray Z :=
  b ← Read (Endian.sizeof t);
  match defined_bytes b with
  | None => undef "indeterminate value"
  | Some b =>
      let val := Endian.object_value (host_le P) t b in
      if (Endian.SYLAR_BYTE_ORDER (pp P) =? Endian.SYLAR_BIG_ENDIAN)%Z
      then mret (Endian.ByteSwap t val) else mret val
  end.

(** [WriteV*]: [buf] is an uninitialised local array of ten bytes. *)
Definition WriteV (t : ity) (val : Z) : M ByteArray unit :=
  let val := Varint.EncodeZigZag t (Endian.SwapToLittle (pp P) t val) in
  let '(bytes, buf) := Varint.EncodeVarint t val 0 (replicate 10 None) in
  Write buf bytes.

(** The loop of the varint readers: up to [n] more bytes, until one without
    the continuation bit. *)
Fixpoint ReadV_loop (n i : nat) (buf : list mbyte) : M ByteArray (nat * list mbyte) :=
  match n with
  | O => mret (0, buf)
  | S n' =>
      v ← ReadF i8;
      let byte := wrap u8 v in
      let buf := <[i := Some byte]> buf in
      if (Z.land byte 128 =? 0)%Z then mret (i + 1, buf)
      else ReadV_loop n' (S i) buf
  end.

Definition ReadV (t : ity) : M ByteArray Z :=
  '(num, buf) ← ReadV_loop 10 0 (replicate 10 None);
  val ← lift (Varint.DecodeVarint t buf num);
  mret (Varint.DecodeZigZag t val).

(** A [float] or [double] is its bit pattern. *)
Definition WriteFloat (val : Z) : M ByteArray unit :=
  Write (Some <$> Endian.object_bytes (host_le P) u32 val) 4.
Definition WriteDouble (val : Z) : M ByteArray unit :=
  Write (Some <$> Endian.object_bytes (host_le P) u64 val) 8.

Definition ReadFloat : M ByteArray Z :=
  b ← Read 4;
  match defined_bytes b with
  | None => undef "indeterminate value"
  | Some b => mret (Endian.object_value (host_le P) u32 b)
  end.
Definition ReadDouble : M ByteArray Z :=
  b ← Read 8;
  match defined_bytes b with
  | None => undef "indeterminate value"
  | Some b => mret (Endian.object_value (host_le P) u64 b)
  end.

Definition WriteStringWithoutLength (val : list Z) : M ByteArray unit :=
  WriteV u64 (Z.of_nat (length val));;
  Write (Some <$> val) (length val).

(** [resize] throws above [max_size()]. *)
Definition ReadStringWithoutLength : M ByteArray (list mbyte) :=
  v ← ReadV i64;
  let size := wrap u64 v in
  if (str_max P <? size)%Z then raise (length_error "basic_string::_M_replace_aux")
  else Read (Z.to_nat size).

End Codec.

End ByteCodec.
