(* ===== verification/ByteCodecProps.v ===== *)
(** * Properties of the typed reads and writes

    Round trips of the fixed-width, varint, float and string codecs, the bytes
    they put on the wire, and where the varint codec loses information. *)

From S2P Require Import Prelude Endian Varint ByteArray ByteArraySpec ByteCodec.
Import ByteArray ByteArraySpec ByteCodec.

Module ByteCodecProps.

Open Scope Z_scope.

Abbreviation bytes := (list Z).
Definition cells (b : bytes) : list mbyte := Some <$> b.

(** Contracts on a writer and on a reader, over the abstract stream. *)
Definition appends (w : M ByteArray unit) (b : list mbyte) : Prop :=
  ∀ base s c r, repr base s c r → (r ≤ length c)%nat → ¬ drained base c r →
    fits base (length b) → ∃ s', w s = (Ok tt, s') ∧ repr base s' (c ++ b) r.

Definition consumes {A} (m : M ByteArray A) (b : list mbyte) (a : A) : Prop :=
  ∀ base s c r, repr base s c r → (r ≤ length c)%nat → b `prefix_of` drop r c →
    ∃ s', m s = (Ok a, s') ∧ repr base s' c (r + length b).

(** The bytes [WriteF] puts on the wire. *)
Definition fixed_bytes (P : platform) (t : ity) (v : Z) : bytes :=
  Endian.object_bytes (host_le P) t
    (if ibits t =? 8 then v else Endian.SwapToLittle (pp P) t v).

Section Contracts.
Context {A B : Type}.

Lemma Write_appends_bytes b n : length b = n → appends (Write b n) b.
Proof.
  intros <- base s c r Hr Hle Hd Hf.
  destruct (Write_repr base s c r b (length b)) as (s' & Hw & Hr'); [done..|].
  exists s'. by rewrite take_ge in Hr' by lia.
Qed.

Lemma appends_seq w1 w2 b1 b2 :
  appends w1 b1 → appends w2 b2 → appends (w1;; w2) (b1 ++ b2).
Proof.
  intros H1 H2 base s c r Hr Hle Hd Hf. unfold fits in *. rewrite length_app in Hf.
  destruct (H1 base s c r) as (s1 & E1 & Hr1); [done..|unfold fits; lia|].
  destruct (H2 base s1 (c ++ b1) r) as (s2 & E2 & Hr2).
  - done.
  - rewrite length_app. lia.
  - intros (Heq & ? & ?). apply Hd. rewrite length_app in Heq.
    assert (length b1 = 0%nat) by lia. split_and!; [lia|done|done].
  - unfold fits. lia.
  - exists s2. rewrite app_assoc. split; [|done]. by run E1.
Qed.

Lemma prefix_drop (b k : list mbyte) r (c : list mbyte) :
  b `prefix_of` drop r c → (r ≤ length c)%nat →
  (r + length b ≤ length c)%nat ∧ take (length b) (drop r c) = b.
Proof.
  intros [x Hx] Hr. pose proof (f_equal length Hx) as Hl.
  rewrite length_drop, length_app in Hl. split; [lia|]. rewrite Hx.
  rewrite take_app_le by lia. apply take_ge. lia.
Qed.

Lemma Read_consumes b n : length b = n → consumes (Read n) b b.
Proof.
  intros <- base s c r Hr Hle Hp. destruct (prefix_drop b [] r c Hp Hle) as [Hl Ht].
  destruct (Read_repr base s c r (length b) Hr Hl) as (s' & Hw & Hr').
  exists s'. by rewrite Ht in Hw.
Qed.

Lemma consumes_bind (m : M ByteArray A) (f : A → M ByteArray B) b1 b2 a x :
  consumes m b1 a → consumes (f a) b2 x → consumes (m ≫= f) (b1 ++ b2) x.
Proof.
  intros H1 H2 base s c r Hr Hle Hp.
  assert (b1 `prefix_of` drop r c) as Hp1 by (etrans; [by apply prefix_app_r|done]).
  destruct (prefix_drop b1 [] r c Hp1 Hle) as [Hl Ht].
  destruct (H1 base s c r Hr Hle Hp1) as (s1 & E1 & Hr1).
  destruct (H2 base s1 c (r + length b1)%nat Hr1 Hl) as (s2 & E2 & Hr2).
  - rewrite <- drop_drop. destruct Hp as [k Hk]. rewrite Hk, <- app_assoc.
    rewrite drop_app_length. by exists k.
  - exists s2. rewrite length_app, Nat.add_assoc. split; [|done]. by run E1.
Qed.

Lemma consumes_ret (a : A) : consumes (mret a) [] a.
Proof. intros base s c r Hr _ _. exists s. by rewrite Nat.add_0_r. Qed.

Lemma consumes_bind_ret (m : M ByteArray A) (f : A → M ByteArray B) b a x :
  consumes m b a → consumes (f a) [] x → consumes (m ≫= f) b x.
Proof. intros H1 H2. rewrite <- (app_nil_r b). by apply (consumes_bind _ _ _ _ a). Qed.
End Contracts.

Section Typed.
Context (P : platform).

Lemma length_cells b : length (cells b) = length b.
Proof. apply length_fmap. Qed.

Lemma length_fixed_bytes t v : length (fixed_bytes P t v) = Endian.sizeof t.
Proof. apply Endian.length_object_bytes. Qed.

Lemma WriteF_appends t v : appends (WriteF P t v) (cells (fixed_bytes P t v)).
Proof. apply Write_appends_bytes. by rewrite length_cells, length_fixed_bytes. Qed.

Lemma order_cases :
  Endian.SYLAR_BYTE_ORDER (pp P) = Endian.SYLAR_LITTLE_ENDIAN ∨
  Endian.SYLAR_BYTE_ORDER (pp P) = Endian.SYLAR_BIG_ENDIAN.
Proof. unfold Endian.SYLAR_BYTE_ORDER. destruct (_ =? _); auto. Qed.

Lemma ReadF_consumes t v :
  std_ity t → in_range t v →
  ibits t ≠ 8 ∨ Endian.SYLAR_BYTE_ORDER (pp P) = Endian.SYLAR_LITTLE_ENDIAN →
  consumes (ReadF P t) (cells (fixed_bytes P t v)) v.
Proof.
  intros Ht Hv Hc. unfold ReadF. eapply consumes_bind_ret.
  { apply Read_consumes. by rewrite length_cells, length_fixed_bytes. }
  unfold cells. rewrite defined_bytes_some. unfold fixed_bytes, Endian.SwapToLittle.
  destruct order_cases as [E|E]; rewrite E.
  - change (Endian.SYLAR_LITTLE_ENDIAN =? Endian.SYLAR_BIG_ENDIAN) with false.
    change (Endian.SYLAR_LITTLE_ENDIAN =? Endian.SYLAR_LITTLE_ENDIAN) with true.
    destruct (ibits t =? 8); rewrite Endian.object_value_bytes by done; apply consumes_ret.
  - change (Endian.SYLAR_BIG_ENDIAN =? Endian.SYLAR_BIG_ENDIAN) with true.
    change (Endian.SYLAR_BIG_ENDIAN =? Endian.SYLAR_LITTLE_ENDIAN) with false.
    destruct Hc as [Hc|Hc]; [|rewrite Hc in E; done].
    replace (ibits t =? 8) with false by lia.
    rewrite Endian.object_value_bytes by (try apply Endian.ByteSwap_range; done).
    rewrite Endian.ByteSwap_involutive by done. apply consumes_ret.
Qed.

Lemma WriteFloat_appends v :
  appends (WriteFloat P v) (cells (Endian.object_bytes (host_le P) u32 v)).
Proof. by apply Write_appends_bytes; rewrite length_cells, Endian.length_object_bytes. Qed.

Lemma WriteDouble_appends v :
  appends (WriteDouble P v) (cells (Endian.object_bytes (host_le P) u64 v)).
Proof. by apply Write_appends_bytes; rewrite length_cells, Endian.length_object_bytes. Qed.

Lemma std_u32 : std_ity u32. Proof. unfold std_ity. set_solver. Qed.
Lemma std_u64 : std_ity u64. Proof. unfold std_ity. set_solver. Qed.
Lemma std_i8 : std_ity i8. Proof. unfold std_ity. set_solver. Qed.
Lemma std_i64 : std_ity i64. Proof. unfold std_ity. set_solver. Qed.
Local Hint Resolve std_u32 std_u64 std_i8 std_i64 : core.

Lemma ReadFloat_consumes v :
  in_range u32 v → consumes (ReadFloat P) (cells (Endian.object_bytes (host_le P) u32 v)) v.
Proof.
  intros Hv. unfold ReadFloat. eapply consumes_bind_ret.
  { apply Read_consumes. by rewrite length_cells, Endian.length_object_bytes. }
  unfold cells. rewrite defined_bytes_some, Endian.object_value_bytes by done.
  apply consumes_ret.
Qed.

Lemma ReadDouble_consumes v :
  in_range u64 v → consumes (ReadDouble P) (cells (Endian.object_bytes (host_le P) u64 v)) v.
Proof.
  intros Hv. unfold ReadDouble. eapply consumes_bind_ret.
  { apply Read_consumes. by rewrite length_cells, Endian.length_object_bytes. }
  unfold cells. rewrite defined_bytes_some, Endian.object_value_bytes by done.
  apply consumes_ret.
Qed.

(** From here on the byte order is the one [bytearray.cc] is compiled with. *)
Context (Hle : Endian.SYLAR_BYTE_ORDER (pp P) = Endian.SYLAR_LITTLE_ENDIAN).

Lemma SwapToLittle_id t v : Endian.SwapToLittle (pp P) t v = v.
Proof. unfold Endian.SwapToLittle. by rewrite Hle. Qed.

(** One byte read as [int8_t] and converted to [uint8_t]. *)
Lemma ReadF_i8_consumes b : is_byte b → consumes (ReadF P i8) [Some b] (wrap i8 b).
Proof.
  intros Hb. replace [Some b] with (cells (fixed_bytes P i8 (wrap i8 b))).
  - apply ReadF_consumes; [done| |by right]. by apply wrap_range.
  - unfold fixed_bytes, Endian.object_bytes. change (ibits i8 =? 8) with true. cbn iota.
    change (Endian.sizeof i8) with 1%nat. cbn [le_bytes].
    pose proof (wrap_mod i8 b) as Hm. change (2 ^ ibits i8) with 256 in Hm. rewrite Hm.
    rewrite Z.mod_small by done. by destruct (host_le P).
Qed.

Lemma wrap_u8_i8 b : is_byte b → wrap u8 (wrap i8 b) = b.
Proof.
  intros Hb. transitivity (wrap u8 b).
  - apply wrap_cong. change (ibits u8) with (ibits i8). apply wrap_mod.
  - apply wrap_id; [done|]. unfold is_byte, in_range, imin, imax in *. cbn. lia.
Qed.

(** A varint of one byte. *)
Lemma ReadV_consumes_1 t e :
  0 ≤ e < 128 → consumes (ReadV P t) [Some e] (Varint.DecodeZigZag t (wrap t e)).
Proof.
  intros He. assert (is_byte e) by (unfold is_byte; lia). unfold ReadV.
  eapply consumes_bind_ret.
  - cbn [ReadV_loop]. eapply consumes_bind_ret; [by apply ReadF_i8_consumes|].
    rewrite wrap_u8_i8, Varint.land_128_small by done. change (0 =? 0) with true.
    cbn iota. apply consumes_ret.
  - cbn [Nat.add replicate insert list_insert]. rewrite Varint.DecodeVarint_1 by done.
    intros base s c r Hr _ _. exists s. mgo. by rewrite Nat.add_0_r.
Qed.

(** The values whose code is one byte. *)
Definition small (t : ity) (v : Z) : Prop := in_range t v ∧ -64 ≤ v < 64.

Lemma small_code t v :
  std_ity t → small t v →
  0 ≤ Varint.EncodeZigZag t v < 128 ∧
  Varint.DecodeZigZag t (Varint.EncodeZigZag t v) = v ∧
  wrap t (Varint.EncodeZigZag t v) = Varint.EncodeZigZag t v.
Proof.
  intros Ht [Hv Hs]. pose proof (std_ity_bits _ Ht) as Hb.
  pose proof (Z.pow_le_mono_r 2 7 (ibits t - 1) ltac:(lia) ltac:(lia)) as Hp.
  change (2 ^ 7) with 128 in Hp. pose proof (pow2_split (ibits t) ltac:(lia)).
  split; [|split; [|apply wrap_id; [lia|]; apply wrap_range; lia]];
    destruct (isigned t) eqn:Hsg.
  - rewrite Varint.EncodeZigZag_signed by done. rewrite wrap_id; [|lia|].
    + destruct (Z.ltb_spec v 0); lia.
    + unfold in_range, imin, imax. rewrite Hsg. destruct (Z.ltb_spec v 0); lia.
  - rewrite Varint.EncodeZigZag_unsigned by done.
    unfold in_range, imin, imax in Hv. rewrite Hsg in Hv.
    destruct (Z.ltb_spec v (2 ^ (ibits t - 1))); lia.
  - by apply Varint.zigzag_roundtrip_signed.
  - rewrite Varint.zigzag_roundtrip_unsigned by done.
    unfold in_range, imin, imax in Hv. rewrite Hsg in Hv.
    destruct (Z.ltb_spec v (2 ^ (ibits t - 1))); lia.
Qed.

Lemma WriteV_small t v :
  std_ity t → 0 ≤ Varint.EncodeZigZag t v < 128 →
  appends (WriteV P t v) [Some (Varint.EncodeZigZag t v)].
Proof.
  intros Ht He. unfold WriteV. rewrite SwapToLittle_id, Varint.EncodeVarint_small by done.
  intros base s c r Hr Hl Hd Hf.
  destruct (Write_repr base s c r (<[0%nat := Some (Varint.EncodeZigZag t v)]> (replicate 10 None)) 1)
    as (s' & E & Hr'); [done..|cbn; lia|done|].
  by exists s'.
Qed.

(** A code of several groups: the most significant one, then bytes of the
    local array that were never set. *)
Lemma WriteV_large t v k :
  std_ity t → Varint.groups (Varint.EncodeZigZag t v) k → (k ≤ Varint.max_sz t)%nat →
  appends (WriteV P t v)
    (Some (Varint.EncodeZigZag t v / 2 ^ (7 * (Z.of_nat k - 1))) :: replicate (k - 1) None).
Proof.
  intros Ht Hg Hk. unfold WriteV. rewrite SwapToLittle_id, (Varint.EncodeVarint_groups _ _ k) by done.
  assert (0 < k ≤ 10)%nat as Hk10.
  { destruct Hg as [? _]. split; [done|]. etrans; [exact Hk|]. revert Ht.
    apply (std_ity_cases (λ t, (Varint.max_sz t ≤ 10)%nat)); vm_compute; lia. }
  intros base s c r Hr Hl Hd Hf.
  match goal with |- ∃ _, Write ?b _ _ = _ ∧ _ =>
    destruct (Write_repr base s c r b k) as (s' & E & Hr') end.
  1-3: done.
  1: cbn; lia.
  1: { cbn [length] in Hf. rewrite length_replicate in Hf. by replace (S (k - 1)) with k in Hf by lia. }
  exists s'. split; [done|]. destruct k as [|k]; [lia|].
  cbn [insert list_insert replicate take] in Hr'. cbn [replicate list_insert insert] in Hr'.
  change (None :: _) with (replicate 9 (@None Z)) in Hr'.
  rewrite take_replicate, Nat.min_l in Hr' by lia. by replace (S k - 1)%nat with k by lia.
Qed.

(** A negative code: nothing is written. *)
Lemma WriteV_negative t v :
  Varint.EncodeZigZag t v < 0 → appends (WriteV P t v) [].
Proof.
  intros He. unfold WriteV. rewrite SwapToLittle_id.
  pose proof (Varint.EncodeVarint_neg t _ (replicate 10 None) He) as Hn.
  destruct (Varint.EncodeVarint _ _ _ _) as [n buf]. cbn in Hn. subst n.
  intros base s c r Hr Hl Hd Hf. exists s. rewrite app_nil_r. split; [|done].
  unfold Write. mgo. by destruct (write_ptr_ s).
Qed.

Lemma ReadV_small t v :
  std_ity t → small t v →
  consumes (ReadV P t) [Some (Varint.EncodeZigZag t v)] v.
Proof.
  intros Ht Hs. destruct (small_code t v Ht Hs) as (He & Hd & Hw).
  pose proof (ReadV_consumes_1 t _ He) as H. by rewrite Hw, Hd in H.
Qed.

Lemma length_code n :
  (n < 2 ^ 63) → 0 ≤ n → Varint.EncodeZigZag u64 n = 2 * n.
Proof.
  intros H1 H2. rewrite Varint.EncodeZigZag_unsigned; [|done|done|].
  - change (2 ^ (ibits u64 - 1)) with (2 ^ 63). by replace (n <? 2 ^ 63) with true by lia.
  - unfold in_range, imin, imax. cbn. lia.
Qed.

Lemma WriteString_small s :
  (length s < 64)%nat →
  appends (WriteStringWithoutLength P s) (Some (2 * Z.of_nat (length s)) :: cells s).
Proof.
  intros Hl. unfold WriteStringWithoutLength.
  change (Some (2 * Z.of_nat (length s)) :: cells s)
    with ([Some (2 * Z.of_nat (length s))] ++ cells s).
  apply appends_seq.
  - rewrite <- length_code by lia. apply WriteV_small; [done|]. rewrite length_code; lia.
  - apply Write_appends_bytes. apply length_cells.
Qed.

Lemma ReadString_small s :
  (length s < 64)%nat → 64 ≤ str_max P →
  consumes (ReadStringWithoutLength P) (Some (2 * Z.of_nat (length s)) :: cells s) (cells s).
Proof.
  intros Hl Hm. unfold ReadStringWithoutLength.
  change (Some (2 * Z.of_nat (length s)) :: cells s)
    with ([Some (2 * Z.of_nat (length s))] ++ cells s).
  apply (consumes_bind _ _ _ _ (Z.of_nat (length s))).
  - pose proof (ReadV_small i64 (Z.of_nat (length s)) std_i64) as H.
    rewrite Varint.EncodeZigZag_signed in H; [|done|done|].
    2: { unfold in_range, imin, imax. cbn. lia. }
    replace (Z.of_nat (length s) <? 0) with false in H by lia.
    rewrite wrap_id in H; [apply H| done|]; unfold small, in_range, imin, imax; cbn; lia.
  - rewrite wrap_id; [|done|unfold in_range, imin, imax; cbn; lia].
    replace (str_max P <? Z.of_nat (length s)) with false by lia. rewrite Nat2Z.id.
    apply Read_consumes, length_cells.
Qed.
End Typed.

(** ** Records of typed values *)

Inductive item :=
| IFixed (t : ity) (v : Z)
| IVarint (t : ity) (v : Z)
| IFloat (v : Z)
| IDouble (v : Z)
| IString (s : bytes).

Definition write_item (P : platform) (i : item) : M ByteArray unit :=
  match i with
  | IFixed t v => WriteF P t v
  | IVarint t v => WriteV P t v
  | IFloat v => WriteFloat P v
  | IDouble v => WriteDouble P v
  | IString s => WriteStringWithoutLength P s
  end.

(** Reads an item of the shape of [i]. *)
Definition read_item (P : platform) (i : item) : M ByteArray item :=
  match i with
  | IFixed t _ => v ← ReadF P t; mret (IFixed t v)
  | IVarint t _ => v ← ReadV P t; mret (IVarint t v)
  | IFloat _ => v ← ReadFloat P; mret (IFloat v)
  | IDouble _ => v ← ReadDouble P; mret (IDouble v)
  | IString _ => b ← ReadStringWithoutLength P;
      match defined_bytes b with
      | Some s => mret (IString s)
      | None => undef "indeterminate value"
      end
  end.

Fixpoint write_items (P : platform) (l : list item) : M ByteArray unit :=
  match l with
  | [] => mret tt
  | i :: l' => write_item P i;; write_items P l'
  end.

Fixpoint read_items (P : platform) (l : list item) : M ByteArray (list item) :=
  match l with
  | [] => mret []
  | i :: l' => x ← read_item P i; xs ← read_items P l'; mret (x :: xs)
  end.

(** Any fixed-width, float or double value, varints in [-64, 64) and strings
    shorter than 64 bytes. *)
Definition item_ok (i : item) : Prop :=
  match i with
  | IFixed t v => std_ity t ∧ in_range t v
  | IVarint t v => std_ity t ∧ small t v
  | IFloat v => in_range u32 v
  | IDouble v => in_range u64 v
  | IString s => (length s < 64)%nat
  end.

Definition item_bytes (P : platform) (i : item) : list mbyte :=
  match i with
  | IFixed t v => cells (fixed_bytes P t v)
  | IVarint t v => [Some (Varint.EncodeZigZag t v)]
  | IFloat v => cells (Endian.object_bytes (host_le P) u32 v)
  | IDouble v => cells (Endian.object_bytes (host_le P) u64 v)
  | IString s => Some (2 * Z.of_nat (length s)) :: cells s
  end.

Section Items.
Context (P : platform).
Context (Hle : Endian.SYLAR_BYTE_ORDER (pp P) = Endian.SYLAR_LITTLE_ENDIAN).
Context (Hmax : 64 ≤ str_max P).

Lemma write_item_appends i : item_ok i → appends (write_item P i) (item_bytes P i).
Proof.
  destruct i as [t v|t v|v|v|s]; cbn.
  - intros _. apply WriteF_appends.
  - intros [Ht Hs]. apply WriteV_small; [done|done|]. by apply small_code.
  - intros _. apply WriteFloat_appends.
  - intros _. apply WriteDouble_appends.
  - by apply WriteString_small.
Qed.

Lemma read_item_consumes i : item_ok i → consumes (read_item P i) (item_bytes P i) i.
Proof.
  destruct i as [t v|t v|v|v|s]; cbn; intros H; eapply consumes_bind_ret.
  - destruct H. apply ReadF_consumes; [done|done|by right].
  - apply consumes_ret.
  - destruct H. by apply ReadV_small.
  - apply consumes_ret.
  - by apply ReadFloat_consumes.
  - apply consumes_ret.
  - by apply ReadDouble_consumes.
  - apply consumes_ret.
  - by apply ReadString_small.
  - unfold cells. rewrite defined_bytes_some. apply consumes_ret.
Qed.

Lemma item_bytes_length i : item_ok i → (length (item_bytes P i) ≤ 64)%nat.
Proof.
  destruct i as [t v|t v|v|v|s]; cbn -[Endian.object_bytes]; intros H;
    rewrite ?length_cells, ?length_fixed_bytes, ?Endian.length_object_bytes.
  - destruct H as [Ht _]. pose proof (Endian.sizeof_pos _ Ht). lia.
  - lia.
  - vm_compute. lia.
  - vm_compute. lia.
  - lia.
Qed.

Lemma write_items_appends l : Forall item_ok l → ∀ base s c,
  repr base s c 0 → fits base 64 →
  ∃ s', write_items P l s = (Ok tt, s') ∧ repr base s' (c ++ concat (item_bytes P <$> l)) 0.
Proof.
  induction 1 as [|i l Hi Hl IH]; intros base s c Hr Hf.
  { exists s. cbn. by rewrite app_nil_r. }
  destruct (write_item_appends i Hi base s c 0%nat Hr) as (s1 & E1 & Hr1).
  - lia.
  - intros (_ & ? & _). lia.
  - pose proof (item_bytes_length i Hi). unfold fits in *. lia.
  - destruct (IH base s1 _ Hr1 Hf) as (s2 & E2 & Hr2). exists s2.
    cbn. rewrite app_assoc. split; [|done]. by run E1.
Qed.

Lemma read_items_consumes l :
  Forall item_ok l → consumes (read_items P l) (concat (item_bytes P <$> l)) l.
Proof.
  induction 1 as [|i l Hi Hl IH]; [apply consumes_ret|]. cbn.
  eapply consumes_bind; [by apply read_item_consumes|].
  eapply consumes_bind_ret; [exact IH|]. apply consumes_ret.
Qed.
End Items.

(** [C10] Round trip of the codec: any record of fixed-width integers of the
    eight types, floats, doubles, varints in [-64, 64) and strings under 64
    bytes that is written to a fresh array is read back unchanged, however it
    falls across the nodes; for both host byte orders, provided [endian.hh]
    selected [SYLAR_LITTLE_ENDIAN]. *)
Theorem codec_roundtrip P baseSize l :
  Endian.SYLAR_BYTE_ORDER (pp P) = Endian.SYLAR_LITTLE_ENDIAN → 64 ≤ str_max P →
  Forall item_ok l → fits (Nat.max NODE_SIZE baseSize) 64 →
  ∃ s', (write_items P l;; read_items P l) (ByteArray_new baseSize) = (Ok l, s').
Proof.
  intros Hle Hmax Hl Hf.
  destruct (write_items_appends P Hle l Hl _ _ _ (ByteArray_new_repr baseSize) Hf)
    as (s1 & E1 & Hr1).
  destruct (read_items_consumes P Hle Hmax l Hl _ s1 _ 0%nat Hr1) as (s2 & E2 & _).
  - lia.
  - by rewrite drop_0.
  - exists s2. by run E1.
Qed.

Lemma codec_roundtrip_witness :
  ∃ s', (write_items x86_64 [IFixed i32 (-7); IVarint i64 (-64); IString [104; 105]; IFixed u64 300];;
         read_items x86_64 [IFixed i32 (-7); IVarint i64 (-64); IString [104; 105]; IFixed u64 300])
        (ByteArray_new 32)
      = (Ok [IFixed i32 (-7); IVarint i64 (-64); IString [104; 105]; IFixed u64 300], s').
Proof.
  apply codec_roundtrip.
  - reflexivity.
  - vm_compute. done.
  - repeat constructor; try (vm_compute; congruence); unfold std_ity; set_solver.
  - vm_compute. congruence.
Defined.

(** The wire order of [WriteF] for the types wider than a byte: it is the
    little-endian order the header promises exactly when the host's order and
    the order [endian.hh] selected agree. *)
Theorem wire_order P t v :
  std_ity t → ibits t ≠ 8 → in_range t v →
  appends (WriteF P t v)
    (cells (if Bool.eqb (host_le P)
                 (Endian.SYLAR_BYTE_ORDER (pp P) =? Endian.SYLAR_LITTLE_ENDIAN)
            then le_bytes (Endian.sizeof t) v else rev (le_bytes (Endian.sizeof t) v))).
Proof.
  intros Ht H8 Hv. replace (if Bool.eqb _ _ then _ else _) with (fixed_bytes P t v).
  { apply WriteF_appends. }
  unfold fixed_bytes, Endian.SwapToLittle. replace (ibits t =? 8) with false by lia.
  destruct (Endian.SYLAR_BYTE_ORDER (pp P) =? Endian.SYLAR_LITTLE_ENDIAN).
  - unfold Endian.object_bytes. by destruct (host_le P).
  - rewrite Endian.object_bytes_ByteSwap by done. unfold Endian.object_bytes.
    by destruct (host_le P).
Qed.

Lemma wire_order_witness :
  appends (WriteF (Platform true Endian.endian_h_little 1000) u16 258) (cells [1; 2]).
Proof.
  apply (wire_order (Platform true Endian.endian_h_little 1000) u16 258).
  - std_ity_closed.
  - done.
  - in_range_closed.
Defined.

(** The test of [endian.hh] is the wrong way round: when glibc's
    [endian.h] is visible on a little-endian host it selects
    [SYLAR_BIG_ENDIAN], and a byte that was written is read back as 0. *)
Theorem visible_macros_lose_bytes P t v :
  pp P = Endian.endian_h_little → std_ity t → ibits t = 8 → in_range t v →
  appends (WriteF P t v) (cells (fixed_bytes P t v)) ∧
  consumes (ReadF P t) (cells (fixed_bytes P t v)) 0.
Proof.
  intros HP Ht H8 Hv. split; [apply WriteF_appends|]. unfold ReadF.
  eapply consumes_bind_ret.
  { apply Read_consumes. by rewrite length_cells, length_fixed_bytes. }
  unfold cells. rewrite defined_bytes_some, HP.
  change (Endian.SYLAR_BYTE_ORDER _ =? _) with true. cbn iota.
  rewrite Endian.ByteSwap_8 by done. apply consumes_ret.
Qed.

Lemma visible_macros_lose_bytes_witness :
  consumes (ReadF (Platform true Endian.endian_h_little 1000) u8)
    (cells (fixed_bytes (Platform true Endian.endian_h_little 1000) u8 200)) 0.
Proof.
  apply (visible_macros_lose_bytes (Platform true Endian.endian_h_little 1000) u8 200).
  - reflexivity.
  - std_ity_closed.
  - reflexivity.
  - in_range_closed.
Defined.

(** Zigzag on the types themselves: every signed value is recovered; an
    unsigned value is recovered exactly below half of its range. *)
Theorem zigzag_roundtrip t v :
  std_ity t → in_range t v →
  (Varint.DecodeZigZag t (Varint.EncodeZigZag t v) = v ↔
   isigned t = true ∨ v < 2 ^ (ibits t - 1)).
Proof.
  intros Ht Hv. pose proof (std_ity_bits _ Ht) as Hb. destruct (isigned t) eqn:Hs.
  - split; [by left|]. intros _. by apply Varint.zigzag_roundtrip_signed.
  - rewrite Varint.zigzag_roundtrip_unsigned by done.
    pose proof (pow2_split (ibits t) ltac:(lia)).
    replace (2 ^ (ibits t - 1)) with (2 * 2 ^ (ibits t - 2)).
    2: { rewrite <- Z.pow_succ_r by lia. f_equal. lia. }
    destruct (Z.ltb_spec v (2 * 2 ^ (ibits t - 2))).
    + split; [intros; right; lia|done].
    + split; [intros; exfalso; lia|]. intros [?|?]; [done|lia].
Qed.

Lemma zigzag_roundtrip_witness :
  Varint.DecodeZigZag u8 (Varint.EncodeZigZag u8 200) = 200 ↔ false = true ∨ 200 < 2 ^ (8 - 1).
Proof.
  apply (zigzag_roundtrip u8 200).
  - std_ity_closed.
  - in_range_closed.
Defined.

(** What [WriteV*] really writes, by the zigzag code [e] of the value: one
    byte when [0 <= e < 128]; nothing at all when [e] is negative; otherwise,
    because the buffer index never moves, only the most significant 7-bit group
    followed by indeterminate bytes of the local array. *)
Theorem WriteV_behaviour P t v :
  Endian.SYLAR_BYTE_ORDER (pp P) = Endian.SYLAR_LITTLE_ENDIAN → std_ity t →
  let e := Varint.EncodeZigZag t v in
  (0 ≤ e < 128 → appends (WriteV P t v) [Some e]) ∧
  (e < 0 → appends (WriteV P t v) []) ∧
  (∀ k, Varint.groups e k → (k ≤ Varint.max_sz t)%nat →
    appends (WriteV P t v)
      (Some (e / 2 ^ (7 * (Z.of_nat k - 1))) :: replicate (k - 1) None)).
Proof.
  intros Hle Ht e. split_and!.
  - by apply WriteV_small.
  - by apply WriteV_negative.
  - intros k. by apply WriteV_large.
Qed.

Lemma WriteV_behaviour_witness :
  appends (WriteV x86_64 i16 150) [Some 2; None].
Proof.
  apply (proj2 (proj2 (WriteV_behaviour x86_64 i16 150 eq_refl
    ltac:(unfold std_ity; set_solver))) 2%nat).
  - vm_compute. split; [lia|]. split; [by right|]. split; congruence.
  - vm_compute. lia.
Defined.

(** ** Where the varint codec loses information *)

Lemma WriteV_negative_state P t v base s c r :
  Endian.SYLAR_BYTE_ORDER (pp P) = Endian.SYLAR_LITTLE_ENDIAN →
  Varint.EncodeZigZag t v < 0 → repr base s c r → WriteV P t v s = (Ok tt, s).
Proof.
  intros Hle He _. unfold WriteV. rewrite SwapToLittle_id by done.
  pose proof (Varint.EncodeVarint_neg t _ (replicate 10 None) He) as Hn.
  destruct (Varint.EncodeVarint _ _ _ _) as [n buf]. cbn in Hn. subst n.
  unfold Write. mgo. by destruct (write_ptr_ s).
Qed.

(** Reading an empty array yields indeterminate bytes. *)
Lemma ReadV_fresh P t b :
  is_undef (ReadV P t (ByteArray_new b)).1.
Proof.
  pose proof (ByteArray_new_inv b) as I.
  assert (0 < Nat.max NODE_SIZE b)%nat as Hpos by (unfold NODE_SIZE; lia).
  set (s := ByteArray_new b) in *.
  assert (base_size_ s = Nat.max NODE_SIZE b) as Hb.
  { subst s. unfold ByteArray_new. cbn. case_decide; lia. }
  assert (read_at s ([] ++ [(0%nat, fresh_node (Nat.max NODE_SIZE b))])) as Hra.
  { subst s. unfold read_at, ByteArray_new. cbn. by rewrite Nat.Div0.div_0_l. }
  destruct (Read_loop_spec _ _ 2 1 [] s (inv_readable _ _ _ _ _ I Hra)) as (p & E & _).
  { subst s. cbn [read_pos_ ByteArray_new length app]. rewrite Hb. lia. }
  { lia. }
  assert (∃ s', Read 1 s = (Ok [None], s')) as [s' E1].
  { unfold Read. mgo. rewrite decide_False.
    - rewrite E. eexists. f_equal. f_equal. subst s. cbn [read_pos_ ByteArray_new app].
      rewrite drop_0. unfold raw, data. cbn.
      destruct (Nat.max NODE_SIZE b) as [|n]; [lia|done].
    - pose proof (inv_capacity _ _ _ _ _ I). lia. }
  exists "indeterminate value"%string. unfold ReadV. cbn [ReadV_loop].
  assert (ReadF P i8 s = (Undef "indeterminate value", s')) as E2.
  { unfold ReadF. change (Endian.sizeof i8) with 1%nat. by run E1. }
  rewrite (bind_undef _ _ _ "indeterminate value" s'); [done|].
  by rewrite (bind_undef _ _ _ "indeterminate value" s').
Qed.

(** What a reader decodes from the top group of a large code is never the
    value that was written. *)
Lemma top_group_wrong t v top :
  std_ity t → in_range t v → (isigned t = false → v < 2 ^ (ibits t - 1)) →
  128 ≤ Varint.EncodeZigZag t v → 1 ≤ top < 128 → Varint.DecodeZigZag t top ≠ v.
Proof.
  intros Ht Hv Hu He Htop. pose proof (std_ity_bits _ Ht) as Hb.
  pose proof (pow2_split (ibits t) ltac:(lia)) as Hp.
  pose proof (Z.pow_le_mono_r 2 7 (ibits t - 1) ltac:(lia) ltac:(lia)) as Hp7.
  change (2 ^ 7) with 128 in Hp7.
  rewrite Varint.DecodeZigZag_val by done. cbn zeta.
  assert (wrap_u (ibits t) top = top) as -> by (apply Z.mod_small; lia).
  assert (0 ≤ top / 2 < 64) by (Z.to_euclidean_division_equations; lia).
  unfold in_range, imin, imax in Hv.
  assert (64 ≤ v ∨ v < -64) as Hbig.
  { destruct (isigned t) eqn:Hs.
    - rewrite Varint.EncodeZigZag_signed in He; [|done|done|].
      2: { unfold in_range, imin, imax. by rewrite Hs. }
      destruct (decide (64 ≤ v ∨ v < -64)) as [|Hn]; [done|].
      rewrite wrap_id in He; [|lia|].
      + destruct (Z.ltb_spec v 0); lia.
      + unfold in_range, imin, imax. rewrite Hs. destruct (Z.ltb_spec v 0); lia.
    - rewrite Varint.EncodeZigZag_unsigned in He; [|done|done|].
      2: { unfold in_range, imin, imax. by rewrite Hs. }
      specialize (Hu eq_refl). destruct (Z.ltb_spec v (2 ^ (ibits t - 1))); lia. }
  unfold wrap, wrap_s, wrap_u. destruct (isigned t) eqn:Hs.
  - rewrite Z.mod_small by (destruct (Z.even top); lia). destruct (Z.even top); lia.
  - specialize (Hu eq_refl). destruct (Z.even top).
    + rewrite Z.mod_small; lia.
    + replace ((- (top / 2) - 1) mod 2 ^ ibits t) with (2 ^ ibits t - top / 2 - 1); [lia|].
      apply (Z.mod_unique _ _ (-1)); [left|]; lia.
Qed.

(** A value whose code fits one group is small. *)
Lemma small_code_inv t v :
  std_ity t → in_range t v → (isigned t = false → v < 2 ^ (ibits t - 1)) →
  0 ≤ Varint.EncodeZigZag t v < 128 → -64 ≤ v < 64.
Proof.
  intros Ht Hv Hu He. set (e := Varint.EncodeZigZag t v) in *.
  pose proof (std_ity_bits _ Ht) as Hb. pose proof (pow2_split (ibits t) ltac:(lia)) as Hp.
  pose proof (Z.pow_le_mono_r 2 7 (ibits t - 1) ltac:(lia) ltac:(lia)) as Hp7.
  change (2 ^ 7) with 128 in Hp7.
  assert (Varint.DecodeZigZag t e = v) as Hd.
  { unfold e. destruct (isigned t) eqn:Hs; [by apply Varint.zigzag_roundtrip_signed|].
    rewrite Varint.zigzag_roundtrip_unsigned by done. specialize (Hu eq_refl).
    by replace (v <? 2 ^ (ibits t - 1)) with true by lia. }
  rewrite Varint.DecodeZigZag_val in Hd by done. cbn zeta in Hd.
  assert (wrap_u (ibits t) e = e) as Ew by (apply Z.mod_small; lia). rewrite Ew in Hd.
  assert (0 ≤ e / 2 < 64) by (Z.to_euclidean_division_equations; lia).
  destruct (Z.even e).
  - rewrite wrap_id in Hd; [lia|lia|]. unfold in_range, imin, imax.
    destruct (isigned t); lia.
  - unfold wrap, wrap_s, wrap_u in Hd. destruct (isigned t).
    + rewrite Z.mod_small in Hd by lia. lia.
    + specialize (Hu eq_refl).
      rewrite <- (Z.mod_unique (- (e / 2) - 1) (2 ^ ibits t) (-1) (2 ^ ibits t - e / 2 - 1))
        in Hd by (try left; lia). lia.
Qed.

Section FreshVarint.
Context (P : platform) (Hle : Endian.SYLAR_BYTE_ORDER (pp P) = Endian.SYLAR_LITTLE_ENDIAN).
Context (t : ity) (Ht : std_ity t) (b : nat) (Hf : fits (Nat.max NODE_SIZE b) 10).

Lemma WriteV_fresh v w :
  appends (WriteV P t v) w → (length w ≤ 10)%nat →
  ∃ s', WriteV P t v (ByteArray_new b) = (Ok tt, s') ∧ repr (Nat.max NODE_SIZE b) s' w 0.
Proof.
  intros Ha Hlen.
  destruct (Ha _ _ [] 0%nat (ByteArray_new_repr b)) as (s' & E & Hr); [cbn; lia| | |by exists s'].
  - intros (_ & ? & _). lia.
  - unfold fits in *. lia.
Qed.

(** What a fresh array returns for a code of one byte. *)
Lemma fresh_small v :
  0 ≤ Varint.EncodeZigZag t v < 128 →
  ∃ s', (WriteV P t v;; ReadV P t) (ByteArray_new b)
    = (Ok (Varint.DecodeZigZag t (wrap t (Varint.EncodeZigZag t v))), s').
Proof.
  intros He. destruct (WriteV_fresh v [Some (Varint.EncodeZigZag t v)]) as (s1 & E1 & Hr1).
  { by apply WriteV_small. }
  { cbn. lia. }
  destruct (ReadV_consumes_1 P Hle t _ He _ _ _ _ Hr1) as (s2 & E2 & _); [lia|done|].
  exists s2. by run E1.
Qed.

(** A negative code: the reader meets an indeterminate byte. *)
Lemma fresh_negative v :
  Varint.EncodeZigZag t v < 0 →
  is_undef ((WriteV P t v;; ReadV P t) (ByteArray_new b)).1.
Proof.
  intros Hneg. rewrite (bind_ok _ _ _ tt (ByteArray_new b)).
  - apply ReadV_fresh.
  - eapply WriteV_negative_state; [done..|apply (ByteArray_new_repr b)].
Qed.

(** A large code: the reader takes the top group for the whole code. *)
Lemma fresh_large v :
  in_range t v → 128 ≤ Varint.EncodeZigZag t v →
  ∃ top s', 1 ≤ top < 128 ∧
    (WriteV P t v;; ReadV P t) (ByteArray_new b) = (Ok (Varint.DecodeZigZag t top), s').
Proof.
  intros Hv Hge. pose proof (std_ity_bits _ Ht) as Hb. set (e := Varint.EncodeZigZag t v) in *.
  assert (in_range t e) as Her by (apply wrap_range; lia).
  destruct (Varint.max_sz_enough t e Ht Her ltac:(lia)) as (k & Hg & Hk).
  destruct (Varint.groups_top e k Hg ltac:(lia)) as [Hk2 Htop].
  set (top := e / 2 ^ (7 * (Z.of_nat k - 1))) in *.
  destruct (WriteV_fresh v (Some top :: replicate (k - 1) None)) as (s1 & E1 & Hr1).
  { by apply WriteV_large. }
  { cbn. rewrite length_replicate. assert (Varint.max_sz t ≤ 10)%nat; [|lia].
    clear -Ht. revert Ht.
    apply (std_ity_cases (λ t, (Varint.max_sz t ≤ 10)%nat)); vm_compute; lia. }
  destruct (ReadV_consumes_1 P Hle t top ltac:(lia) _ _ _ _ Hr1) as (s2 & E2 & _);
    [lia|rewrite drop_0; by exists (replicate (k - 1) None)|].
  assert (wrap t top = top) as Hwt.
  { apply wrap_id; [lia|]. unfold in_range, imin, imax in Her |- *.
    pose proof (pow2_pos (7 * (Z.of_nat k - 1)) ltac:(lia)).
    assert (top ≤ e) by (apply Z.div_le_upper_bound; nia).
    destruct (isigned t); lia. }
  rewrite Hwt in E2. exists top, s2. split; [done|]. by run E1.
Qed.
End FreshVarint.

(** The varint round trip, on every value of the signed types and on the
    lower half of the unsigned ones: writing to a fresh array and reading back
    returns the value exactly when it lies in [-64, 64). *)
Theorem varint_roundtrip_iff P t v b :
  Endian.SYLAR_BYTE_ORDER (pp P) = Endian.SYLAR_LITTLE_ENDIAN →
  std_ity t → in_range t v → (isigned t = false → v < 2 ^ (ibits t - 1)) →
  fits (Nat.max NODE_SIZE b) 10 →
  (∃ s', (WriteV P t v;; ReadV P t) (ByteArray_new b) = (Ok v, s')) ↔ -64 ≤ v < 64.
Proof.
  intros Hle Ht Hv Hu Hf. split.
  - intros [s' E]. destruct (decide (Varint.EncodeZigZag t v < 0)) as [Hneg|Hpos].
    { destruct (fresh_negative P Hle t b v Hneg) as [w Hw]. by rewrite E in Hw. }
    destruct (decide (Varint.EncodeZigZag t v < 128)) as [Hlt|Hge].
    { apply (small_code_inv t); try done. lia. }
    destruct (fresh_large P Hle t Ht b Hf v Hv ltac:(lia)) as (top & s2 & Htop & E2).
    rewrite E in E2. injection E2 as E2 _. symmetry in E2.
    exfalso. revert E2. apply top_group_wrong; first [done|lia].
  - intros Hs. destruct (small_code t v Ht (conj Hv Hs)) as (He & Hd & Hw).
    destruct (fresh_small P Hle t Ht b Hf v He) as [s2 E2]. rewrite Hw, Hd in E2. by exists s2.
Qed.

Lemma varint_roundtrip_iff_witness :
  (∃ s', (WriteV x86_64 i32 300;; ReadV x86_64 i32) (ByteArray_new 32) = (Ok 300, s'))
  ↔ -64 ≤ 300 < 64.
Proof.
  apply varint_roundtrip_iff.
  - reflexivity.
  - std_ity_closed.
  - in_range_closed.
  - discriminate.
  - vm_compute. congruence.
Defined.

(** ** The varint reader on any input *)

Section AnyVarint.
Context (P : platform) (Hle : Endian.SYLAR_BYTE_ORDER (pp P) = Endian.SYLAR_LITTLE_ENDIAN).

Lemma ReadV_loop_last n i buf b :
  is_byte b → b < 128 →
  consumes (ReadV_loop P (S n) i buf) [Some b] ((i + 1)%nat, <[i := Some b]> buf).
Proof.
  intros Hb Hlt. cbn [ReadV_loop].
  eapply consumes_bind_ret; [by apply ReadF_i8_consumes|].
  rewrite wrap_u8_i8, Varint.land_128_small by (try done; unfold is_byte in *; lia).
  apply consumes_ret.
Qed.

Lemma ReadV_loop_more n i buf b l x :
  is_byte b → 128 ≤ b → consumes (ReadV_loop P n (S i) (<[i := Some b]> buf)) l x →
  consumes (ReadV_loop P (S n) i buf) (Some b :: l) x.
Proof.
  intros Hb Hge Hc. cbn [ReadV_loop]. change (Some b :: l) with ([Some b] ++ l).
  eapply consumes_bind; [by apply ReadF_i8_consumes|].
  rewrite wrap_u8_i8 by done.
  pose proof (Varint.land_128_large b ltac:(unfold is_byte in *; lia)) as E.
  apply Z.eqb_neq in E. by rewrite E.
Qed.

(** The loop keeps the bytes below its index. *)
Lemma ReadV_loop_wire n i buf l b :
  Forall is_byte (l ++ [b]) → Forall (λ x, 128 ≤ x) l → b < 128 →
  (length l < n)%nat → ∃ buf',
  consumes (ReadV_loop P n i buf) (cells (l ++ [b])) ((i + length l + 1)%nat, buf') ∧
  (∀ j, (j < i)%nat → buf' !! j = buf !! j).
Proof.
  revert n i buf. induction l as [|x l IH]; intros n i buf Hb Hl Hlt Hn; destruct n as [|n];
    try (cbn in Hn; lia).
  - exists (<[i := Some b]> buf). rewrite Nat.add_0_r. split.
    + apply ReadV_loop_last; [|done]. by inversion Hb.
    + intros j Hj. apply list_lookup_insert_ne. lia.
  - inversion Hl as [|? ? Hx Hl']; subst. inversion Hb as [|? ? Hx' Hb']; subst.
    destruct (IH n (S i) (<[i := Some x]> buf)) as (buf' & Hc & Hj); [done..|cbn in Hn; lia|].
    exists buf'. split.
    + apply ReadV_loop_more; [done..|].
      by replace (i + length (x :: l) + 1)%nat with (S i + length l + 1)%nat by (cbn; lia).
    + intros j Hlt'. rewrite Hj by lia. apply list_lookup_insert_ne. lia.
Qed.

(** Only the first byte of a varint of several bytes is decoded. *)
Lemma ReadV_first t x l b :
  Forall is_byte (x :: l ++ [b]) → Forall (λ y, 128 ≤ y) (x :: l) → b < 128 →
  (length l < 9)%nat →
  consumes (ReadV P t) (cells (x :: l ++ [b])) (Varint.DecodeZigZag t (wrap t x)).
Proof.
  intros Hb Hl Hlt Hn. inversion Hb as [|? ? Hx Hb']; subst.
  inversion Hl as [|? ? Hx' Hl']; subst.
  destruct (ReadV_loop_wire 9 1 (<[0%nat := Some x]> (replicate 10 None)) l b)
    as (buf' & Hc & Hj); [done..|].
  unfold ReadV. eapply consumes_bind_ret.
  { apply (ReadV_loop_more 9 0); done. }
  specialize (Hj 0%nat ltac:(lia)). destruct buf' as [|c buf']; [done|].
  cbn in Hj. injection Hj as ->. cbn beta iota. rewrite Nat.add_1_r.
  rewrite Varint.DecodeVarint_cont by (unfold is_byte in *; lia).
  intros base s c r Hr _ _. exists s. mgo. by rewrite Nat.add_0_r.
Qed.
End AnyVarint.

(** What the varint readers make of a well-formed varint of up to ten
    bytes on the wire: they consume all of it, yet the value they return is the
    zigzag decoding of its first byte alone, continuation bit included. *)
Theorem ReadV_behaviour P t x l b :
  Endian.SYLAR_BYTE_ORDER (pp P) = Endian.SYLAR_LITTLE_ENDIAN →
  Forall is_byte (l ++ [b]) → Forall (λ y, 128 ≤ y) l → b < 128 → (length l < 10)%nat →
  head (l ++ [b]) = Some x →
  consumes (ReadV P t) (cells (l ++ [b])) (Varint.DecodeZigZag t (wrap t x)).
Proof.
  intros Hle Hb Hl Hlt Hn Hx. destruct l as [|y l].
  - injection Hx as ->. inversion Hb; subst. apply ReadV_consumes_1; [done|].
    unfold is_byte in *. lia.
  - injection Hx as ->. apply ReadV_first; try done. cbn in Hn. lia.
Qed.

Lemma ReadV_behaviour_witness :
  consumes (ReadV x86_64 u32) (cells [200; 129; 3]) 100.
Proof.
  apply (ReadV_behaviour x86_64 u32 200 [200; 129] 3).
  - reflexivity.
  - repeat constructor; unfold is_byte; lia.
  - repeat constructor; lia.
  - lia.
  - cbn. lia.
  - reflexivity.
Defined.

(** ** Strings *)

Lemma WriteString_64 P s :
  Endian.SYLAR_BYTE_ORDER (pp P) = Endian.SYLAR_LITTLE_ENDIAN →
  (64 ≤ length s < 128)%nat →
  appends (WriteStringWithoutLength P s) ([Some 1; None] ++ cells s).
Proof.
  intros Hle Hl. unfold WriteStringWithoutLength. apply appends_seq.
  - pose proof (WriteV_large P Hle u64 (Z.of_nat (length s)) 2 std_u64) as H.
    rewrite length_code in H by lia.
    replace (2 * Z.of_nat (length s) / 2 ^ (7 * (Z.of_nat 2 - 1))) with 1 in H.
    + apply H; [|vm_compute; lia]. split; [lia|]. split; [right|]; cbn; lia.
    + change (2 ^ (7 * (Z.of_nat 2 - 1))) with 128. apply (Z.div_unique _ _ _ (2 * Z.of_nat (length s) - 128)); lia.
  - apply Write_appends_bytes, length_cells.
Qed.

(** Strings of 64 to 127 bytes cannot be read back: the write succeeds,
    and the read, which takes the length for a signed varint, gets length
    [2^64 - 1] and throws [std::length_error]. *)
Theorem string_too_long P s b :
  Endian.SYLAR_BYTE_ORDER (pp P) = Endian.SYLAR_LITTLE_ENDIAN → str_max P < 2 ^ 64 - 1 →
  (64 ≤ length s < 128)%nat → fits (Nat.max NODE_SIZE b) (2 + length s) →
  (∃ s1, WriteStringWithoutLength P s (ByteArray_new b) = (Ok tt, s1)) ∧
  (∃ s2, (WriteStringWithoutLength P s;; ReadStringWithoutLength P) (ByteArray_new b)
     = (Throw (length_error "basic_string::_M_replace_aux"), s2)).
Proof.
  intros Hle Hmax Hl Hf.
  destruct (WriteString_64 P s Hle Hl _ _ [] 0%nat (ByteArray_new_repr b)) as (s1 & E1 & Hr1).
  { cbn. lia. }
  { intros (_ & ? & _). lia. }
  { cbn. by rewrite length_cells. }
  split; [by exists s1|].
  destruct (ReadV_consumes_1 P Hle i64 1 ltac:(lia) _ _ _ _ Hr1) as (s2 & E2 & _).
  { lia. }
  { cbn. by exists (None :: cells s). }
  exists s2. run E1. unfold ReadStringWithoutLength. run E2.
  change (wrap u64 _) with (2 ^ 64 - 1).
  by replace (str_max P <? 2 ^ 64 - 1) with true by lia.
Qed.

Lemma string_too_long_witness :
  ∃ s2, (WriteStringWithoutLength x86_64 (replicate 64 97);; ReadStringWithoutLength x86_64)
      (ByteArray_new 32)
    = (Throw (length_error "basic_string::_M_replace_aux"), s2).
Proof.
  apply (string_too_long x86_64 (replicate 64 97) 32).
  - reflexivity.
  - vm_compute. reflexivity.
  - cbn. lia.
  - vm_compute. congruence.
Defined.

End ByteCodecProps.
