(* ===== verification/TimeWheel.v ===== *)
(** * The timing wheel

    [TimeoutItem] and [TimeWheel] of [src/include/timewheel.hh] and
    [src/timewheel.cc].  A callback is a number; what it does to the object is the
    parameter [call] of [ExecuteTimeout], a computation of its own. *)

From stdpp Require Import pretty.
From S2P Require Import Prelude.

Module TimeWheel.

Open Scope Z_scope.

(** A callback is a [std::function] or a coroutine to resume. *)
Inductive payload := Func (f : nat) | Resume (c : nat).

#[global] Instance payload_eq_dec : EqDecision payload.
Proof. solve_decision. Defined.

Record TimeoutItem := mkItem {
  remaining_ticks_ : Z;    (* int *)
  repeat_interval_ : Z;    (* int *)
  register_time_ : Z;      (* uint64_t *)
  repeat_count_ : Z;       (* int *)
  func_ : option nat;      (* [None]: an empty std::function *)
  perform_co_ : option nat }.

(** [env] is the rest of an object of a derived class, which callbacks can reach
    as well.  A wheel on its own has in its place the log of the callbacks made,
    [performed]. *)
Record TimeWheelOf (E : Type) := mkWheel {
  wheel_ : list (list TimeoutItem);
  slots_ : Z;
  granularity_ : Z;
  last_trigger_ : Z;
  current_slot : Z;
  env : E }.
Arguments mkWheel {E} wheel_ slots_ granularity_ last_trigger_ current_slot env.
Arguments wheel_ {E} t.
Arguments slots_ {E} t.
Arguments granularity_ {E} t.
Arguments last_trigger_ {E} t.
Arguments current_slot {E} t.
Arguments env {E} t.

Abbreviation TimeWheel := (TimeWheelOf (list payload)).
Abbreviation performed := (env (E := list payload)).

Definition set_remaining (r : Z) (i : TimeoutItem) : TimeoutItem :=
  mkItem r (repeat_interval_ i) (register_time_ i) (repeat_count_ i) (func_ i) (perform_co_ i).
Definition set_repeat (c : Z) (i : TimeoutItem) : TimeoutItem :=
  mkItem (remaining_ticks_ i) (repeat_interval_ i) (register_time_ i) c (func_ i) (perform_co_ i).

Section Operations.
Context {E : Type}.
Implicit Types (w : TimeWheelOf E).

Definition set_wheel (l : list (list TimeoutItem)) w : TimeWheelOf E :=
  mkWheel l (slots_ w) (granularity_ w) (last_trigger_ w) (current_slot w) (env w).
Definition set_current (c : Z) w : TimeWheelOf E :=
  mkWheel (wheel_ w) (slots_ w) (granularity_ w) (last_trigger_ w) c (env w).
Definition set_trigger (t : Z) w : TimeWheelOf E :=
  mkWheel (wheel_ w) (slots_ w) (granularity_ w) t (current_slot w) (env w).
Definition set_granularity (g : Z) w : TimeWheelOf E :=
  mkWheel (wheel_ w) (slots_ w) g (last_trigger_ w) (current_slot w) (env w).

(** The slot [s] of the wheel as a list. *)
Definition slot w (s : Z) : list TimeoutItem :=
  default [] (wheel_ w !! Z.to_nat s).
Definition set_slot (s : Z) (l : list TimeoutItem) w : TimeWheelOf E :=
  set_wheel (<[Z.to_nat s := l]> (wheel_ w)) w.


(** Unsigned division and remainder: by zero they are undefined. *)
Definition udiv (a b : Z) : outcome Z :=
  if decide (b = 0) then Undef "division by zero" else Ok (a / b).
Definition umod (a b : Z) : outcome Z :=
  if decide (b = 0) then Undef "division by zero" else Ok (a mod b).

(** [clock] is what [GetElapseFromRebootMS()] returns during the call. *)
Definition AddTimer (clock timeout : Z) (func co : option nat) (times : Z) : M (TimeWheelOf E) unit :=
  w ← get;
  ticks ← lift (udiv timeout (granularity_ w));
  rotations ← lift (udiv ticks (slots_ w));
  let item := mkItem (wrap i32 rotations) (wrap i32 timeout) clock times func co in
  s ← lift (umod (wrap u64 (current_slot w + ticks)) (slots_ w));
  modify (λ w, set_slot s (slot w s ++ [item]) w).

Definition SetGranularity (g : Z) : M (TimeWheelOf E) unit := modify (set_granularity g).
Definition GetGranularity : M (TimeWheelOf E) Z := w ← get; mret (granularity_ w).

(** The calls on the wheel. *)
Inductive timer_op :=
| OpAddTimer (clock timeout : Z) (func co : option nat) (times : Z)
| OpSetGranularity (g : Z).

Definition exec_timer_op (o : timer_op) : M (TimeWheelOf E) unit :=
  match o with
  | OpAddTimer clock timeout func co times => AddTimer clock timeout func co times
  | OpSetGranularity g => SetGranularity g
  end.

Fixpoint exec_timer_ops (l : list timer_op) : M (TimeWheelOf E) unit :=
  match l with
  | [] => mret tt
  | o :: l => exec_timer_op o;; exec_timer_ops l
  end.

Section Execute.
Context (call : payload → M (TimeWheelOf E) unit).

(** [if (!item->perform_co_) item->func_(); else item->perform_co_->Resume();] *)
Definition trigger (i : TimeoutItem) : M (TimeWheelOf E) unit :=
  match perform_co_ i with
  | Some c => call (Resume c)
  | None => match func_ i with
            | Some f => call (Func f)
            | None => raise bad_function_call
            end
  end.

(** Item [k] of slot [s], and its replacement. *)
Definition item_at w (s : Z) (k : nat) : option TimeoutItem := slot w s !! k.
Definition set_item (s : Z) (k : nat) (i : TimeoutItem) : M (TimeWheelOf E) unit :=
  modify (λ w, set_slot s (<[k := i]> (slot w s)) w).

(** [it = list.erase(it)]. *)
Definition erase (s : Z) (k : nat) : M (TimeWheelOf E) unit :=
  modify (λ w, set_slot s (delete k (slot w s)) w).

(** [wheel_[t].splice(wheel_[t].end(), list, it)]: the node moves to the end of
    slot [t], which may be the slot it is in. *)
Definition splice (s : Z) (k : nat) (t : Z) (i : TimeoutItem) : M (TimeWheelOf E) unit :=
  erase s k;; modify (λ w, set_slot t (slot w t ++ [i]) w).

(** The body of [ExecuteTimeout]'s inner loop on item [k] of slot [s]; returns
    the next position of the iterator. *)
Definition visit (s : Z) (k : nat) (i : TimeoutItem) : M (TimeWheelOf E) nat :=
  if decide (remaining_ticks_ i = imin i32) then undef "signed overflow" else
  let i := set_remaining (remaining_ticks_ i - 1) i in
  set_item s k i;;
  if decide (remaining_ticks_ i < 0) then
    trigger i;;
    let i := if decide (0 < repeat_count_ i) then set_repeat (repeat_count_ i - 1) i else i in
    set_item s k i;;
    if decide (repeat_count_ i = 0) then erase s k;; mret k
    else
      w ← get;
      ticks ← lift (udiv (wrap u64 (repeat_interval_ i)) (granularity_ w));
      rotations ← lift (udiv ticks (slots_ w));
      let i := set_remaining (wrap i32 rotations) i in
      set_item s k i;;
      new_slot ← lift (umod (wrap u64 (current_slot w + wrap u64 (remaining_ticks_ i)))
                         (slots_ w));
      if decide (new_slot ≠ current_slot w) then splice s k new_slot i;; mret 0%nat
      else mret (k + 1)%nat
  else mret (k + 1)%nat.

(** The inner loop over slot [s] from position [k]. *)
Fixpoint slot_loop (fuel : nat) (s : Z) (k : nat) : M (TimeWheelOf E) unit :=
  match fuel with
  | O => nofuel
  | S fuel' =>
      w ← get;
      match item_at w s k with
      | None => mret tt
      | Some i => k' ← visit s k i; slot_loop fuel' s k'
      end
  end.

(** One iteration of the outer loop. *)
Definition tick (fuel : nat) : M (TimeWheelOf E) unit :=
  w ← get;
  let s := current_slot w in
  next ← lift (umod (wrap u64 (current_slot w + 1)) (slots_ w));
  modify (set_current next);;
  slot_loop fuel s 0.

Fixpoint tick_loop (fuel : nat) (dis : nat) : M (TimeWheelOf E) unit :=
  match dis with
  | O => mret tt
  | S dis' => tick fuel;; tick_loop fuel dis'
  end.

(** [fuel] bounds the inner loop only. *)
Definition ExecuteTimeout (fuel : nat) (now : Z) : M (TimeWheelOf E) unit :=
  w ← get;
  if decide (now ≤ last_trigger_ w) then mret tt
  else
    dis ← lift (udiv (now - last_trigger_ w) (granularity_ w));
    tick_loop fuel (Z.to_nat dis);;
    modify (set_trigger now).

End Execute.

Definition INT64_MAX : Z := 2 ^ 63 - 1.

(** The minimum over the slots from the current one, of the first item of each;
    the arithmetic is in [uint64_t]. *)
Fixpoint GetNextTimeout_loop (n : nat) (i : Z) (now dis : Z) w : Z :=
  match n with
  | O => dis
  | S n' =>
      let sidx := wrap u64 (current_slot w + i) mod slots_ w in
      let dis := match slot w sidx with
                 | [] => dis
                 | it :: _ =>
                     let trigger := wrap u64 (wrap u64 (repeat_interval_ it)
                                              - wrap u64 (now - register_time_ it)) in
                     Z.min dis trigger
                 end in
      GetNextTimeout_loop n' (i + 1) now dis w
  end.

Definition GetNextTimeout (now : Z) : M (TimeWheelOf E) Z :=
  w ← get;
  if decide (now < last_trigger_ w) then mret 0
  else
    let dis := GetNextTimeout_loop (length (wheel_ w)) 0 now INT64_MAX w in
    mret (if decide (dis = INT64_MAX) then 0 else dis).

End Operations.

(** ** A wheel on its own *)

Definition log (p : payload) (w : TimeWheel) : TimeWheel :=
  mkWheel (wheel_ w) (slots_ w) (granularity_ w) (last_trigger_ w) (current_slot w)
    (performed w ++ [p]).

Definition TimeWheel_new (slots granularity clock : Z) : TimeWheel :=
  mkWheel (replicate (Z.to_nat slots) []) slots granularity clock 0 [].

(** A callback that makes the calls of its script, and may then throw. *)
Definition perform (script : payload → list timer_op * option exn) (p : payload) : M TimeWheel unit :=
  modify (log p);;
  exec_timer_ops (fst (script p));;
  match snd (script p) with Some e => raise e | None => mret tt end.

(** [Dump]: per slot, its index and the two counters of each item. *)
Definition Dump {E} (w : TimeWheelOf E) : string :=
  String.concat "" (imap (λ i l,
    "[" +:+ pretty (Z.of_nat i) +:+ "]:" +:+ String "010" "" +:+
    String.concat "" ((λ it, "[remaining]: " +:+ pretty (remaining_ticks_ it) +:+
      ", [repeat]: " +:+ pretty (repeat_count_ it) +:+ String "010" "") <$> l)) (wheel_ w))%string.

End TimeWheel.
