(* ===== verification/TimeWheelProps.v ===== *)
(** * Properties of the timing wheel

    The wheel of one-shot timers refines a list of deadlines counted in ticks;
    the loops terminate; what repeating timers, coarse ticks and
    [GetNextTimeout] do. *)

From S2P Require Import Prelude TimeWheel.
Import TimeWheel.

Module TimeWheelProps.

Open Scope Z_scope.

(** ** Invariant and frame lemmas *)

Record well_formed {E} (w : TimeWheelOf E) : Prop := {
  wf_length : length (wheel_ w) = Z.to_nat (slots_ w);
  wf_slots : 0 < slots_ w ≤ 2 ^ 31;
  wf_granularity : 0 < granularity_ w;
  wf_current : 0 ≤ current_slot w < slots_ w }.

Create Rewrite HintDb wheel.

Section Frame.
Context {Env : Type}.
Implicit Types (w : TimeWheelOf Env) (l : list TimeoutItem) (s t : Z).

Lemma slot_set_slot w s l :
  (Z.to_nat s < length (wheel_ w))%nat → slot (set_slot s l w) s = l.
Proof. intros H. unfold slot, set_slot. cbn. by rewrite list_lookup_insert_eq. Qed.

Lemma slot_set_slot_ne w s t l :
  0 ≤ s → 0 ≤ t → s ≠ t → slot (set_slot s l w) t = slot w t.
Proof. intros. unfold slot, set_slot. cbn. rewrite list_lookup_insert_ne by lia. done. Qed.

Lemma set_slot_set_slot w s l1 l2 : set_slot s l1 (set_slot s l2 w) = set_slot s l1 w.
Proof. unfold set_slot, set_wheel. cbn. by rewrite list_insert_insert_eq. Qed.

Lemma set_slot_log (w : TimeWheel) s l p : log p (set_slot s l w) = set_slot s l (log p w).
Proof. done. Qed.

Lemma slot_log (w : TimeWheel) s p : slot (log p w) s = slot w s.
Proof. done. Qed.

Lemma set_slot_id w s : set_slot s (slot w s) w = w.
Proof.
  unfold set_slot, set_wheel, slot. destruct w as [wl ? ? ? ? ?]. cbn.
  destruct (wl !! Z.to_nat s) as [l|] eqn:E; cbn.
  - by rewrite list_insert_id.
  - rewrite list_insert_ge; [done|]. by apply lookup_ge_None.
Qed.

Lemma length_wheel_set_slot w s l : length (wheel_ (set_slot s l w)) = length (wheel_ w).
Proof. apply length_insert. Qed.

Lemma wheel_log p (w : TimeWheel) : wheel_ (log p w) = wheel_ w.
Proof. done. Qed.

Lemma udiv_ok a b : 0 < b → udiv a b = Ok (a / b).
Proof. intros. unfold udiv. by rewrite decide_False by lia. Qed.

Lemma umod_ok a b : 0 < b → umod a b = Ok (a mod b).
Proof. intros. unfold umod. by rewrite decide_False by lia. Qed.

Lemma wf_set_slot w s l : well_formed w → well_formed (set_slot s l w).
Proof. intros []. split; cbn; [by rewrite length_insert|done..]. Qed.

Lemma wf_log (w : TimeWheel) p : well_formed w → well_formed (log p w).
Proof. by intros []. Qed.

Lemma wf_set_current w c : well_formed w → 0 ≤ c < slots_ w → well_formed (set_current c w).
Proof. by intros []. Qed.

Lemma wf_slot_lt w s : well_formed w → 0 ≤ s < slots_ w → (Z.to_nat s < length (wheel_ w))%nat.
Proof. intros [-> _ _ _] ?. lia. Qed.
End Frame.
#[export] Hint Rewrite @set_slot_set_slot set_slot_log slot_log @length_wheel_set_slot wheel_log : wheel.
#[export] Hint Resolve wf_set_slot wf_log wf_set_current wf_slot_lt : sylar.

(** ** One slot of one-shot timers *)

Lemma set_item_spec {E} s k i (w : TimeWheelOf E) :
  set_item s k i w = (Ok tt, set_slot s (<[k := i]> (slot w s)) w).
Proof. done. Qed.

Lemma erase_spec {E} s k (w : TimeWheelOf E) : erase s k w = (Ok tt, set_slot s (delete k (slot w s)) w).
Proof. done. Qed.

(** What is called for an item, if anything can be. *)
Definition callee (i : TimeoutItem) : option payload :=
  match perform_co_ i with Some c => Some (Resume c) | None => Func <$> func_ i end.

(** A callback that leaves the wheel alone and does not throw. *)
Definition passive (script : payload → list timer_op * option exn) : Prop :=
  ∀ p, script p = ([], None).

Definition one_shot (i : TimeoutItem) : Prop :=
  repeat_count_ i = 1 ∧ is_Some (callee i) ∧ 0 ≤ remaining_ticks_ i.

Definition fired (l : list TimeoutItem) : list payload :=
  omap (λ i, if decide (remaining_ticks_ i = 0) then callee i else None) l.
Definition survivors (l : list TimeoutItem) : list TimeoutItem :=
  omap (λ i, if decide (remaining_ticks_ i = 0) then None
             else Some (set_remaining (remaining_ticks_ i - 1) i)) l.

Lemma fired_due i l p : remaining_ticks_ i = 0 → callee i = Some p → fired (i :: l) = p :: fired l.
Proof. intros H Hp. cbn. rewrite decide_True by done. by rewrite Hp. Qed.

Lemma fired_wait i l : remaining_ticks_ i ≠ 0 → fired (i :: l) = fired l.
Proof. intros H. cbn. by rewrite decide_False by done. Qed.

Lemma survivors_due i l : remaining_ticks_ i = 0 → survivors (i :: l) = survivors l.
Proof. intros H. cbn. by rewrite decide_True by done. Qed.

Lemma survivors_wait i l : remaining_ticks_ i ≠ 0 →
  survivors (i :: l) = set_remaining (remaining_ticks_ i - 1) i :: survivors l.
Proof. intros H. cbn. by rewrite decide_False by done. Qed.

Definition logs (ps : list payload) (w : TimeWheel) : TimeWheel := foldl (λ w p, log p w) w ps.

Lemma set_slot_logs s l1 l2 ps w :
  set_slot s l1 (logs ps (set_slot s l2 w)) = set_slot s l1 (logs ps w).
Proof.
  revert w. induction ps as [|q ps IH]; intros w; cbn; [apply set_slot_set_slot|].
  rewrite set_slot_log. apply IH.
Qed.

(** *** One step of the inner loop, for any callbacks *)

Section Visit.
Context {Env : Type} (call : payload → M (TimeWheelOf Env) unit).
Implicit Types (w : TimeWheelOf Env).

Lemma trigger_callee i p w : callee i = Some p → trigger call i w = call p w.
Proof.
  unfold callee, trigger. destruct (perform_co_ i); [|destruct (func_ i)]; cbn; intros [= <-]; done.
Qed.

(** Visiting an item that is not due. *)
Lemma visit_wait s pre i l w :
  (Z.to_nat s < length (wheel_ w))%nat → slot w s = pre ++ i :: l → 0 < remaining_ticks_ i →
  visit call s (length pre) i w = (Ok (length pre + 1)%nat,
    set_slot s (pre ++ set_remaining (remaining_ticks_ i - 1) i :: l) w).
Proof.
  intros Hlen Hsl Hr. unfold visit.
  rewrite decide_False by (change (imin i32) with (-2147483648); lia). cbn zeta.
  rewrite (bind_ok _ _ _ _ _ (set_item_spec _ _ _ _)), decide_False by (cbn; lia).
  rewrite Hsl, insert_app_r_alt, Nat.sub_diag by done. done.
Qed.

(** Visiting a one-shot item that is due: it is called, then erased. *)
Lemma visit_due s k i w p :
  repeat_count_ i = 1 → callee i = Some p → remaining_ticks_ i = 0 →
  visit call s k i w =
    (set_item s k (set_remaining (-1) i);; call p;;
     set_item s k (set_repeat 0 (set_remaining (-1) i));; erase s k;; mret k) w.
Proof.
  intros H1 Hp Hr. unfold visit. rewrite decide_False by by rewrite Hr. cbn zeta. rewrite Hr.
  run (set_item_spec s k (set_remaining (0 - 1) i) w).
  rewrite decide_True by (cbn; lia). symmetry. run (set_item_spec s k (set_remaining (-1) i) w). symmetry.
  unfold mbind at 1, M_bind at 1. rewrite (trigger_callee _ p) by done.
  cbn [repeat_count_ set_remaining]. rewrite H1. change (0 - 1) with (-1). change (1 - 1) with 0.
  rewrite !(decide_True (P := 0 < 1)) by lia. cbn [repeat_count_ set_repeat].
  rewrite (decide_True (P := 0 = 0)) by done. done.
Qed.
End Visit.

Section Passive.
Context (script : payload → list timer_op * option exn) (Hs : passive script).

Lemma perform_passive p w : perform script p w = (Ok tt, log p w).
Proof. unfold perform. rewrite Hs. cbn. done. Qed.

Lemma trigger_passive i p w : callee i = Some p → trigger (perform script) i w = (Ok tt, log p w).
Proof. intros Hp. rewrite (trigger_callee _ _ p) by done. apply perform_passive. Qed.

(** Visiting a one-shot item that is due. *)
Lemma visit_fire s pre i l w p :
  (Z.to_nat s < length (wheel_ w))%nat → slot w s = pre ++ i :: l →
  repeat_count_ i = 1 → callee i = Some p → remaining_ticks_ i = 0 →
  visit (perform script) s (length pre) i w = (Ok (length pre), set_slot s (pre ++ l) (log p w)).
Proof.
  intros Hlen Hsl H1 Hp Hr. rewrite (visit_due _ _ _ _ _ p) by done.
  rewrite (bind_ok _ _ _ _ _ (set_item_spec _ _ _ _)), (bind_ok _ _ _ _ _ (perform_passive p _)).
  rewrite (bind_ok _ _ _ _ _ (set_item_spec _ _ _ _)), (bind_ok _ _ _ _ _ (erase_spec _ _ _)).
  rewrite !set_slot_log, !slot_set_slot by (autorewrite with wheel; done).
  rewrite !set_slot_set_slot, Hsl, !insert_app_r_alt, Nat.sub_diag by done. cbn.
  rewrite delete_middle. done.
Qed.

Lemma slot_loop_one_shot l : ∀ fuel s pre w,
  (Z.to_nat s < length (wheel_ w))%nat → slot w s = pre ++ l → Forall one_shot l →
  (length l < fuel)%nat →
  slot_loop (perform script) fuel s (length pre) w =
    (Ok tt, set_slot s (pre ++ survivors l) (logs (fired l) w)).
Proof.
  induction l as [|i l IH]; intros fuel s pre w Hlen Hsl Hl Hf; destruct fuel as [|fuel]; try lia;
    cbn [slot_loop]; mgo; unfold item_at; rewrite Hsl.
  - rewrite lookup_ge_None_2 by (rewrite app_nil_r; done). cbn. rewrite <- Hsl, set_slot_id. done.
  - rewrite list_lookup_middle by done. inversion Hl as [|? ? (H1 & [p Hp] & Hr) Hl']; subst.
    destruct (decide (remaining_ticks_ i = 0)) as [E|E].
    + run (visit_fire s pre i l w p Hlen Hsl H1 Hp E).
      rewrite IH; [|by autorewrite with wheel|by rewrite slot_set_slot|done|cbn in Hf; lia].
      cbn. rewrite decide_True by done. rewrite Hp. cbn. rewrite decide_True by done. cbn.
      by rewrite set_slot_logs.
    + run (visit_wait (perform script) s pre i l w Hlen Hsl ltac:(lia)).
      replace (length pre + 1)%nat
        with (length (pre ++ [set_remaining (remaining_ticks_ i - 1) i]))
        by (rewrite length_app; done).
      rewrite IH; [|by autorewrite with wheel| |done|cbn in Hf; lia].
      * cbn. rewrite !decide_False by done. cbn. rewrite <- app_assoc. cbn.
        by rewrite set_slot_logs.
      * rewrite slot_set_slot by done. by rewrite <- app_assoc.
Qed.
End Passive.

(** ** The specification: deadlines counted in ticks *)

(** [(d, i)]: item [i] is called by the [d+1]-st tick from now. In order of
    registration. *)
Definition pending := list (Z * TimeoutItem).

Definition due_at (k : Z) (p : pending) : list payload :=
  omap (λ e, if decide (e.1 = k) then callee e.2 else None) p.
Definition after (n : Z) (p : pending) : pending :=
  omap (λ e, if decide (e.1 < n) then None else Some (e.1 - n, e.2)) p.
Definition due_before (n : nat) (p : pending) : list payload :=
  concat ((λ k, due_at k p) <$> seqZ 0 (Z.of_nat n)).

(** The items [k] slots away from the current one, as the wheel stores them. *)
Definition in_slot (n k : Z) (p : pending) : list TimeoutItem :=
  omap (λ e, if decide (e.1 mod n = k) then Some (set_remaining (e.1 / n) e.2) else None) p.

Definition entry_ok (e : Z * TimeoutItem) : Prop :=
  0 ≤ e.1 ∧ repeat_count_ e.2 = 1 ∧ is_Some (callee e.2).

(** The wheel represents the deadlines. *)
Record represents (w : TimeWheel) (p : pending) : Prop := {
  rep_wf : well_formed w;
  rep_ok : Forall entry_ok p;
  rep_slots : ∀ s, 0 ≤ s < slots_ w →
    slot w s = in_slot (slots_ w) ((s - current_slot w) mod slots_ w) p }.

Section Arithmetic.
Context (n : Z) (Hn : 0 < n).

Lemma mod_pred d : 0 < d → d mod n = 0 → (d - 1) mod n = n - 1 ∧ (d - 1) / n = d / n - 1.
Proof.
  intros Hd H. pose proof (Z.div_mod d n ltac:(lia)) as E.
  assert (d - 1 = n * (d / n - 1) + (n - 1)) as E' by lia.
  split; symmetry; [eapply Z.mod_unique|eapply Z.div_unique]; [left|exact E'|left|exact E']; lia.
Qed.

Lemma mod_pred_nz d : d mod n ≠ 0 → (d - 1) mod n = d mod n - 1 ∧ (d - 1) / n = d / n.
Proof.
  intros H. pose proof (Z.div_mod d n ltac:(lia)) as E. pose proof (Z.mod_pos_bound d n Hn).
  assert (d - 1 = n * (d / n) + (d mod n - 1)) as E' by lia.
  split; symmetry; [eapply Z.mod_unique|eapply Z.div_unique]; [left|exact E'|left|exact E']; lia.
Qed.

Lemma fired_in_slot p : Forall entry_ok p → fired (in_slot n 0 p) = due_at 0 p.
Proof.
  induction 1 as [|[d i] p (Hd & _ & _) Hp IH]; [done|]. cbn in Hd |- *.
  destruct (decide (d = 0)) as [->|Hnz].
  - rewrite Z.mod_0_l by lia. rewrite decide_True by done. cbn.
    rewrite Z.div_0_l by lia. rewrite decide_True by done.
    change (callee (set_remaining 0 i)) with (callee i).
    destruct (callee i); [f_equal|]; exact IH.
  - destruct (decide (d mod n = 0)) as [E|E]; [|exact IH]. cbn.
    rewrite decide_False; [exact IH|]. pose proof (Z.div_mod d n ltac:(lia)). nia.
Qed.

Lemma survivors_in_slot p :
  Forall entry_ok p → survivors (in_slot n 0 p) = in_slot n (n - 1) (after 1 p).
Proof.
  induction 1 as [|[d i] p (Hd & _ & _) Hp IH]; [done|]. cbn in Hd |- *.
  destruct (decide (d < 1)).
  - assert (d = 0) as -> by lia. rewrite Z.mod_0_l by lia. rewrite decide_True by done. cbn.
    rewrite Z.div_0_l by lia. rewrite decide_True by done. exact IH.
  - cbn. destruct (decide (d mod n = 0)) as [E|E].
    + destruct (mod_pred d ltac:(lia) E) as [Em Ed]. rewrite (decide_True _ _ Em). cbn.
      rewrite decide_False by (pose proof (Z.div_mod d n ltac:(lia)); nia).
      rewrite Ed. f_equal. exact IH.
    + destruct (mod_pred_nz d E) as [Em _]. pose proof (Z.mod_pos_bound d n Hn).
      rewrite decide_False by lia. exact IH.
Qed.

Lemma in_slot_step k p :
  Forall entry_ok p → 0 < k < n → in_slot n k p = in_slot n (k - 1) (after 1 p).
Proof.
  intros Hp Hk. induction Hp as [|[d i] p (Hd & _ & _) Hp IH]; [done|]. cbn in Hd |- *.
  destruct (decide (d < 1)).
  - assert (d = 0) as -> by lia. rewrite Z.mod_0_l by lia. rewrite decide_False by lia. exact IH.
  - cbn. destruct (decide (d mod n = 0)) as [E|E].
    + destruct (mod_pred d ltac:(lia) E) as [Em _]. rewrite !decide_False by lia. exact IH.
    + destruct (mod_pred_nz d E) as [Em Ed]. rewrite Em, Ed.
      destruct (decide (d mod n = k)) as [Ek|Ek].
      * rewrite decide_True by lia. f_equal. exact IH.
      * rewrite decide_False by lia. exact IH.
Qed.

Lemma length_in_slot k p : (length (in_slot n k p) ≤ length p)%nat.
Proof.
  induction p as [|[d i] p IH]; cbn; [done|].
  destruct (decide _); cbn; unfold in_slot in IH; cbn in IH; lia.
Qed.

Lemma in_slot_one_shot k p : Forall entry_ok p → Forall one_shot (in_slot n k p).
Proof.
  induction 1 as [|[d i] p (Hd & H1 & Hc) Hp IH]; [constructor|]. cbn in *.
  destruct (decide _); cbn; [|exact IH]. constructor; [|exact IH].
  split; [done|]. split; [done|]. cbn. by apply Z.div_pos.
Qed.
End Arithmetic.

Lemma after_ok n p : 0 ≤ n → Forall entry_ok p → Forall entry_ok (after n p).
Proof.
  intros Hn. induction 1 as [|[d i] p (Hd & H1 & Hc) Hp IH]; [constructor|]. cbn in *.
  destruct (decide (d < n)); cbn; [exact IH|]. constructor; [|exact IH].
  split_and!; cbn; [lia|done|done].
Qed.

Lemma after_after n p : 0 ≤ n → after n (after 1 p) = after (n + 1) p.
Proof.
  intros Hn. induction p as [|[d i] p IH]; [done|]. cbn.
  destruct (decide (d < 1)); cbn.
  - rewrite decide_True by lia. exact IH.
  - destruct (decide (d - 1 < n)).
    + rewrite decide_True by lia. exact IH.
    + rewrite decide_False by lia. cbn. f_equal; [f_equal; lia|exact IH].
Qed.

Lemma after_0 p : Forall entry_ok p → after 0 p = p.
Proof.
  induction 1 as [|[d i] p (Hd & _ & _) Hp IH]; [done|]. cbn in *.
  rewrite decide_False by lia. rewrite Z.sub_0_r. f_equal. exact IH.
Qed.

Lemma due_at_after k p : 0 ≤ k → due_at k (after 1 p) = due_at (k + 1) p.
Proof.
  intros Hk. induction p as [|[d i] p IH]; [done|]. cbn.
  destruct (decide (d < 1)); cbn.
  - rewrite decide_False by lia. exact IH.
  - destruct (decide (d - 1 = k)).
    + rewrite decide_True by lia. destruct (callee i); [f_equal|]; exact IH.
    + rewrite decide_False by lia. exact IH.
Qed.

Lemma due_before_S n p : due_before (S n) p = due_at 0 p ++ due_before n (after 1 p).
Proof.
  unfold due_before. rewrite seqZ_cons by lia. cbn [fmap list_fmap concat]. f_equal. f_equal.
  rewrite Nat2Z.inj_succ, Z.pred_succ.
  change (Z.succ 0) with (1 + 0). rewrite <- (fmap_add_seqZ 1 0), <- list_fmap_compose.
  apply list_fmap_ext. intros j x Hj. apply lookup_seqZ in Hj as [-> ?]. cbn -[Z.add].
  rewrite due_at_after by lia. f_equal. lia.
Qed.

Lemma length_after n p : (length (after n p) ≤ length p)%nat.
Proof.
  induction p as [|[d i] p IH]; cbn; [done|].
  destruct (decide _); cbn; unfold after in IH; cbn in IH; lia.
Qed.

Lemma logs_fields ps w :
  wheel_ (logs ps w) = wheel_ w ∧ slots_ (logs ps w) = slots_ w ∧
  granularity_ (logs ps w) = granularity_ w ∧ last_trigger_ (logs ps w) = last_trigger_ w ∧
  current_slot (logs ps w) = current_slot w ∧ performed (logs ps w) = performed w ++ ps.
Proof.
  revert w. induction ps as [|q ps IH]; intros w.
  - cbn. by rewrite app_nil_r.
  - change (logs (q :: ps) w) with (logs ps (log q w)).
    destruct (IH (log q w)) as (-> & -> & -> & -> & -> & ->). cbn. by rewrite <- app_assoc.
Qed.

(** One turn around the wheel. *)
Lemma slot_distance n c s :
  0 ≤ c < n → 0 ≤ s < n →
  (s - (c + 1) mod n) mod n = if decide (s = c) then n - 1 else (s - c) mod n - 1.
Proof.
  intros Hc Hs. rewrite Zminus_mod_idemp_r. destruct (decide (s = c)) as [->|Hne].
  - replace (c - (c + 1)) with (-1) by lia. symmetry. apply (Z.mod_unique _ _ (-1)); lia.
  - destruct (decide (s < c)).
    + rewrite <- (Z.mod_unique (s - c) n (-1) (s - c + n)) by lia.
      symmetry. apply (Z.mod_unique _ _ (-1)); lia.
    + rewrite (Z.mod_small (s - c)) by lia. rewrite Z.mod_small by lia. lia.
Qed.

Section Refinement.
Context (script : payload → list timer_op * option exn) (Hs : passive script).

Lemma tick_refines fuel w p :
  represents w p → (length p < fuel)%nat →
  ∃ w', tick (perform script) fuel w = (Ok tt, w') ∧ represents w' (after 1 p) ∧
    performed w' = performed w ++ due_at 0 p ∧
    granularity_ w' = granularity_ w ∧ last_trigger_ w' = last_trigger_ w ∧
    slots_ w' = slots_ w.
Proof.
  intros [Hwf Hok Hsl] Hf. destruct Hwf as [Hlen Hslots Hg Hc] eqn:Ewf. clear Ewf.
  unfold tick. mgo. cbn [snd].
  rewrite (wrap_id u64) by (try done; unfold in_range, imin, imax; cbn; lia).
  rewrite umod_ok by lia. mgo.
  set (c := current_slot w) in *. set (n := slots_ w) in *.
  set (w1 := set_current ((c + 1) mod n) w).
  pose proof (Hsl c Hc) as Hcur. rewrite Z.sub_diag, Z.mod_0_l in Hcur by lia.
  pose proof (slot_loop_one_shot script Hs (in_slot n 0 p) fuel c [] w1) as HL.
  cbn [length app] in HL. rewrite HL; clear HL.
  2: { apply wf_slot_lt; [|done]. by apply wf_set_current; [|apply Z.mod_pos_bound; lia]. }
  2: { exact Hcur. }
  2: { apply in_slot_one_shot; [lia|done]. }
  2: { pose proof (length_in_slot n 0 p). lia. }
  rewrite fired_in_slot, survivors_in_slot by (done || lia).
  destruct (logs_fields (due_at 0 p) w1) as (Ew & Es & Eg & El & Ec & Ep).
  eexists. split; [done|]. split; [|by cbn; rewrite Ep, Eg, El, Es].
  assert (well_formed (logs (due_at 0 p) w1)) as Hwf1.
  { split; rewrite ?Ew, ?Es, ?Eg, ?Ec; try done. apply Z.mod_pos_bound. apply Hslots. }
  split.
  - by apply wf_set_slot.
  - by apply after_ok; [lia|].
  - cbn. rewrite Es, Ec. change (slots_ w1) with n.
    change (current_slot w1) with ((c + 1) mod n). intros s Hsr.
    rewrite slot_distance by done. destruct (decide (s = c)) as [->|Hne].
    + apply slot_set_slot. rewrite Ew. by apply (wf_slot_lt w).
    + rewrite slot_set_slot_ne by lia.
      transitivity (slot w s); [unfold slot; by rewrite Ew|]. rewrite Hsl by done.
      apply in_slot_step; [lia|done|]. pose proof (Z.mod_pos_bound (s - c) n ltac:(lia)).
      destruct (decide ((s - c) mod n = 0)) as [E|E]; [|lia]. exfalso. apply Hne.
      pose proof (Z.div_mod (s - c) n ltac:(lia)).
      assert (-1 < (s - c) / n < 1); [|nia].
      split; nia.
Qed.

Lemma tick_loop_refines fuel k w p :
  represents w p → (length p < fuel)%nat →
  ∃ w', tick_loop (perform script) fuel k w = (Ok tt, w') ∧ represents w' (after (Z.of_nat k) p) ∧
    performed w' = performed w ++ due_before k p ∧
    granularity_ w' = granularity_ w ∧ slots_ w' = slots_ w.
Proof.
  revert w p. induction k as [|k IH]; intros w p Hr Hf; cbn [tick_loop].
  - exists w. split; [done|]. rewrite after_0 by apply Hr. by rewrite app_nil_r.
  - destruct (tick_refines fuel w p Hr Hf) as (w1 & E1 & Hr1 & Ep1 & Eg1 & El1 & Es1).
    destruct (IH w1 (after 1 p) Hr1) as (w2 & E2 & Hr2 & Ep2 & Eg2 & Es2).
    { pose proof (length_after 1 p). lia. }
    exists w2. run E1. split; [done|]. rewrite after_after in Hr2 by lia.
    replace (Z.of_nat k + 1) with (Z.of_nat (S k)) in Hr2 by lia. split; [done|].
    rewrite Ep2, Ep1, due_before_S, <- app_assoc, Eg2, Es2. done.
Qed.

Lemma AddTimer_refines clock t func co w p :
  represents w p → 0 ≤ t < 2 ^ 31 →
  is_Some (callee (mkItem 0 t clock 1 func co)) →
  ∃ w', AddTimer clock t func co 1 w = (Ok tt, w') ∧
    represents w' (p ++ [(t / granularity_ w, mkItem 0 t clock 1 func co)]) ∧
    performed w' = performed w ∧ granularity_ w' = granularity_ w ∧
    last_trigger_ w' = last_trigger_ w ∧ slots_ w' = slots_ w.
Proof.
  intros [Hwf Hok Hsl] Ht Hcall. pose proof Hwf as [Hlen Hslots Hg Hc].
  unfold AddTimer. mgo. rewrite udiv_ok by done. mgo. rewrite udiv_ok by lia. mgo.
  set (d := t / granularity_ w). set (n := slots_ w) in *. set (c := current_slot w) in *.
  assert (0 ≤ d ≤ t) as Hd.
  { split; [apply Z.div_pos; lia|apply Z.div_le_upper_bound; nia]. }
  assert (0 ≤ d / n ≤ d) as Hr.
  { split; [apply Z.div_pos; lia|apply Z.div_le_upper_bound; nia]. }
  rewrite (wrap_id u64), (wrap_id i32), (wrap_id i32)
    by (try done; unfold in_range, imin, imax; cbn; lia).
  rewrite umod_ok by lia. mgo. eexists. split; [done|].
  split; [|done]. split.
  - by apply wf_set_slot.
  - apply Forall_app. split; [done|]. repeat constructor; cbn; [lia|exact Hcall].
  - cbn. fold n c. intros s Hsr. unfold in_slot. rewrite omap_app. cbn. fold (in_slot n ((s - c) mod n) p).
    destruct (decide (s = (c + d) mod n)) as [->|Hne].
    + rewrite slot_set_slot by (apply wf_slot_lt; done). rewrite Hsl by done. f_equal.
      rewrite decide_True; [done|]. rewrite Zminus_mod_idemp_l. f_equal. lia.
    + pose proof (Z.mod_pos_bound (c + d) n ltac:(lia)).
      rewrite slot_set_slot_ne by lia. rewrite Hsl by done.
      rewrite decide_False; [by rewrite app_nil_r|]. intros E. apply Hne.
      rewrite <- Zplus_mod_idemp_r, E, Zplus_mod_idemp_r.
      replace (c + (s - c)) with s by lia. by rewrite Z.mod_small.
Qed.

Lemma ExecuteTimeout_refines fuel now w p :
  represents w p → (length p < fuel)%nat →
  let k := if decide (now ≤ last_trigger_ w) then 0%nat
           else Z.to_nat ((now - last_trigger_ w) / granularity_ w) in
  ∃ w', ExecuteTimeout (perform script) fuel now w = (Ok tt, w') ∧
    represents w' (after (Z.of_nat k) p) ∧
    performed w' = performed w ++ due_before k p ∧ granularity_ w' = granularity_ w ∧
    last_trigger_ w' = Z.max (last_trigger_ w) now.
Proof.
  intros Hr Hf k. pose proof (wf_granularity _ (rep_wf _ _ Hr)). unfold ExecuteTimeout. mgo.
  destruct (decide (now ≤ last_trigger_ w)).
  - exists w. split; [done|]. cbn. rewrite after_0 by apply Hr. rewrite app_nil_r.
    split; [done|]. split; [done|]. split; [done|lia].
  - rewrite udiv_ok by done. mgo.
    destruct (tick_loop_refines fuel k w p Hr Hf) as (w1 & E1 & [Hw Ho Hsl] & Ep & Eg & Es).
    unfold k in E1. run E1. eexists. split; [done|]. split; [|cbn; split_and!; [done..|lia]].
    split; [by destruct Hw|done|exact Hsl].
Qed.
End Refinement.

(** *** Sequences of calls *)

Inductive wheel_op :=
| Add (clock timeout : Z) (func co : option nat)
| Exec (now : Z).

Definition exec_wheel_op script (fuel : nat) (o : wheel_op) : M TimeWheel unit :=
  match o with
  | Add clock timeout func co => AddTimer clock timeout func co 1
  | Exec now => ExecuteTimeout (perform script) fuel now
  end.

Fixpoint exec_wheel_ops script (fuel : nat) (l : list wheel_op) : M TimeWheel unit :=
  match l with
  | [] => mret tt
  | o :: l => exec_wheel_op script fuel o;; exec_wheel_ops script fuel l
  end.

(** The specification: the pending deadlines, the last trigger, the log. *)
Definition spec_state : Type := pending * Z * list payload.

Definition spec_op (g : Z) (o : wheel_op) (st : spec_state) : spec_state :=
  let '(p, last, log) := st in
  match o with
  | Add clock timeout func co =>
      (p ++ [(timeout / g, mkItem 0 timeout clock 1 func co)], last, log)
  | Exec now =>
      if decide (now ≤ last) then st
      else let k := (now - last) / g in
           (after k p, now, log ++ due_before (Z.to_nat k) p)
  end.

Definition op_ok (o : wheel_op) : Prop :=
  match o with
  | Add clock timeout func co =>
      0 ≤ timeout < 2 ^ 31 ∧ is_Some (callee (mkItem 0 timeout clock 1 func co))
  | Exec now => True
  end.

Definition spec_matches (g : Z) (w : TimeWheel) (st : spec_state) : Prop :=
  represents w st.1.1 ∧ granularity_ w = g ∧ last_trigger_ w = st.1.2 ∧ performed w = st.2.

Lemma exec_wheel_op_refines script fuel g o w st :
  passive script → op_ok o → spec_matches g w st → (length st.1.1 < fuel)%nat →
  ∃ w', exec_wheel_op script fuel o w = (Ok tt, w') ∧ spec_matches g w' (spec_op g o st) ∧
    (length (spec_op g o st).1.1 ≤ length st.1.1 + 1)%nat.
Proof.
  intros Hs Ho (Hr & Hg & Hl & Hp) Hf. destruct st as [[p last] log]. cbn in *. subst last log.
  destruct o as [clock t f c|now]; cbn in *.
  - destruct Ho as [Ht Hc].
    destruct (AddTimer_refines clock t f c w p Hr Ht Hc) as (w' & E & Hr' & Hp' & Hg' & Hl' & _).
    exists w'. split; [done|]. split.
    + split_and!; cbn; [by rewrite <- Hg|congruence|done|done].
    + by rewrite length_app.
  - destruct (ExecuteTimeout_refines script Hs fuel now w p Hr Hf) as (w' & E & Hr' & Hp' & Hg' & Hl').
    exists w'. split; [done|]. destruct (decide (now ≤ last_trigger_ w)).
    + cbn in *. rewrite after_0 in Hr' by apply Hr. rewrite app_nil_r in Hp'.
      split; [|lia]. split_and!; cbn; [done|congruence|lia|done].
    + pose proof (wf_granularity _ (rep_wf _ _ Hr)).
      rewrite Z2Nat.id in Hr' by (apply Z.div_pos; lia). rewrite Hg in *.
      split; [split_and!; cbn; [done|done|lia|done]|].
      pose proof (length_after ((now - last_trigger_ w) / g) p). cbn. lia.
Qed.

Lemma exec_wheel_ops_refines script fuel g l : passive script → Forall op_ok l → ∀ w st,
  spec_matches g w st → (length st.1.1 + length l < fuel)%nat →
  ∃ w', exec_wheel_ops script fuel l w = (Ok tt, w') ∧
    spec_matches g w' (foldl (λ st o, spec_op g o st) st l).
Proof.
  intros Hs. induction 1 as [|o l Ho Hl IH]; intros w st Hm Hf.
  - by exists w.
  - cbn in Hf. destruct (exec_wheel_op_refines script fuel g o w st) as (w1 & E1 & Hm1 & Hlen);
      [done..|lia|].
    destruct (IH w1 _ Hm1) as (w2 & E2 & Hm2); [lia|].
    exists w2. cbn. by run E1.
Qed.

Lemma slot_new slots g clock s : slot (TimeWheel_new slots g clock) s = [].
Proof.
  unfold slot. cbn. destruct (replicate _ [] !! _) as [l|] eqn:E; [|done].
  by apply lookup_replicate in E as [-> _].
Qed.

Lemma TimeWheel_new_represents slots g clock :
  0 < slots ≤ 2 ^ 31 → 0 < g → spec_matches g (TimeWheel_new slots g clock) ([], clock, []).
Proof.
  intros Hs Hg. split; [|done]. split.
  - split; cbn; [by rewrite length_replicate|done|done|lia].
  - constructor.
  - intros s Hsr. apply slot_new.
Qed.

(** [C2] Refinement: over any interleaving of [AddTimer] (one-shot timers, each
    with a callback that does not touch the wheel) and [ExecuteTimeout] at any
    clock values, a wheel of any size and granularity behaves as a list of
    deadlines counted in ticks.  The ticks are those by which [ExecuteTimeout]
    moves on: a timer with timeout [t] is called exactly once, by the
    [t / granularity + 1]st tick after it was added and no other, in the order of
    deadlines and, among equal deadlines, of registration; nothing is lost, and
    every loop ends.  The clock at which a timer is added plays no part: as the
    next run of [ExecuteTimeout] makes up all the time since the previous one (or
    since the wheel was made), the time that has passed between that run and
    [AddTimer] counts towards the timeout, and in milliseconds a timer may be
    called early by as much ([timer_counts_from_last_run]). *)
Theorem timers_refinement script slots g clock l fuel :
  passive script → 0 < slots ≤ 2 ^ 31 → 0 < g → Forall op_ok l → (length l < fuel)%nat →
  ∃ w, exec_wheel_ops script fuel l (TimeWheel_new slots g clock) = (Ok tt, w) ∧
    spec_matches g w (foldl (λ st o, spec_op g o st) ([], clock, []) l).
Proof.
  intros. by apply exec_wheel_ops_refines; [| |apply TimeWheel_new_represents|].
Qed.

(** A timer of 500 ms that is added at 900, 900 ms after the wheel was made, is
    called at 1000. *)
Lemma timer_counts_from_last_run :
  let m := exec_wheel_ops (λ _, ([], None)) 9 [Add 900 500 (Some 1%nat) None; Exec 1000] (TimeWheel_new 1000 1 0) in
  m.1 = Ok tt ∧ performed m.2 = [Func 1].
Proof. vm_compute. split; reflexivity. Qed.

Lemma timers_refinement_witness :
  ∃ w, exec_wheel_ops (λ _, ([], None)) 9
      [Add 0 5 (Some 1%nat) None; Add 0 2 (Some 2%nat) None; Exec 3; Add 3 0 None (Some 7%nat);
       Exec 4; Exec 9]
      (TimeWheel_new 4 1 0) = (Ok tt, w) ∧
    spec_matches 1 w ([], 9, [Func 2; Resume 7; Func 1]).
Proof.
  apply (timers_refinement (λ _, ([], None)) 4 1 0
    [Add 0 5 (Some 1%nat) None; Add 0 2 (Some 2%nat) None; Exec 3; Add 3 0 None (Some 7%nat);
     Exec 4; Exec 9] 9).
  - done.
  - lia.
  - lia.
  - repeat constructor; cbn; (lia || by eexists).
  - cbn. lia.
Defined.

(** ** Termination *)

(** Items whose counters the arithmetic keeps in range. *)
Definition sound_item (i : TimeoutItem) : Prop :=
  is_Some (callee i) ∧ 0 ≤ remaining_ticks_ i ∧ 0 ≤ repeat_interval_ i < 2 ^ 31.
Definition sound (w : TimeWheel) : Prop := Forall (Forall sound_item) (wheel_ w).
Definition total (w : TimeWheel) : nat := length (concat (wheel_ w)).

Lemma sound_slot w s : sound w → Forall sound_item (slot w s).
Proof.
  intros H. unfold slot. destruct (wheel_ w !! Z.to_nat s) as [l|] eqn:E; cbn; [|constructor].
  by eapply Forall_lookup_1.
Qed.

Lemma sound_set_slot w s l : sound w → Forall sound_item l → sound (set_slot s l w).
Proof. intros H Hl. by apply Forall_insert. Qed.

Lemma total_set_slot w s l :
  (Z.to_nat s < length (wheel_ w))%nat →
  (total (set_slot s l w) + length (slot w s) = total w + length l)%nat.
Proof.
  intros H. apply lookup_lt_is_Some in H as [l0 E].
  unfold total, set_slot, slot. cbn. rewrite E. cbn.
  rewrite insert_take_drop by by apply lookup_lt_Some in E.
  pose proof (f_equal (λ x, length (concat x)) (take_drop_middle _ _ _ E)) as Ht. cbn in Ht.
  rewrite concat_app, length_app in Ht |- *. cbn in Ht |- *. rewrite !length_app in *. lia.
Qed.

Lemma length_slot_total w s : (length (slot w s) ≤ total w)%nat.
Proof.
  unfold slot, total. destruct (wheel_ w !! Z.to_nat s) as [l|] eqn:E; cbn; [|lia].
  rewrite <- (take_drop_middle _ _ _ E), concat_app. cbn. rewrite !length_app. lia.
Qed.

(** What a step of the inner loop preserves: only the slots and the log move. *)
Record frame (w w' : TimeWheel) : Prop := {
  fr_length : length (wheel_ w') = length (wheel_ w);
  fr_slots : slots_ w' = slots_ w;
  fr_granularity : granularity_ w' = granularity_ w;
  fr_current : current_slot w' = current_slot w;
  fr_sound : sound w → sound w';
  fr_total : (total w' ≤ total w)%nat }.

Lemma frame_trans w1 w2 w3 : frame w1 w2 → frame w2 w3 → frame w1 w3.
Proof. intros [] []. split; [congruence..|auto|lia]. Qed.

Lemma frame_wf w w' : frame w w' → well_formed w → well_formed w'.
Proof. intros [] []. split; congruence. Qed.

Lemma frame_refl w : frame w w.
Proof. done. Qed.

Lemma frame_set_slot w s l p :
  (Z.to_nat s < length (wheel_ w))%nat → Forall sound_item l →
  (length l ≤ length (slot w s))%nat → frame w (set_slot s l (logs p w)).
Proof.
  intros Hs Hl Hlen. destruct (logs_fields p w) as (Ew & Es & Eg & El & Ec & Ep).
  split; try (cbn; congruence).
  - autorewrite with wheel. by rewrite Ew.
  - intros H. apply sound_set_slot; [|done]. unfold sound. by rewrite Ew.
  - pose proof (total_set_slot (logs p w) s l) as Ht. rewrite Ew in Ht. specialize (Ht Hs).
    assert (slot (logs p w) s = slot w s) as E by (unfold slot; by rewrite Ew).
    rewrite E in Ht. unfold total in Ht at 2. rewrite Ew in Ht. fold (total w) in Ht. lia.
Qed.

Section Termination.
Context (script : payload → list timer_op * option exn) (Hs : passive script).

(** Items from [u] on that the iterator has not passed are not due. *)
Definition quiet (s : Z) (u k : nat) (w : TimeWheel) : Prop :=
  ∀ j i, slot w s !! j = Some i → (u ≤ j)%nat → (k ≤ j)%nat → 1 ≤ remaining_ticks_ i.

(** The item an elapsed timer becomes. *)
Definition count_down (i : TimeoutItem) : TimeoutItem :=
  let i := set_remaining (remaining_ticks_ i - 1) i in
  if decide (0 < repeat_count_ i) then set_repeat (repeat_count_ i - 1) i else i.
Definition rotations (w : TimeWheel) (i : TimeoutItem) : Z :=
  repeat_interval_ i / granularity_ w / slots_ w.
Definition rearmed (w : TimeWheel) (i : TimeoutItem) : TimeoutItem :=
  set_remaining (rotations w i) (count_down i).

Lemma rearmed_sound w i :
  well_formed w → sound_item i → sound_item (rearmed w i) ∧ 0 ≤ rotations w i < 2 ^ 31.
Proof.
  intros Hwf (Hc & Hr & Hi). unfold sound_item, rearmed, rotations, count_down.
  pose proof (wf_slots _ Hwf). pose proof (wf_granularity _ Hwf).
  assert (0 ≤ repeat_interval_ i / granularity_ w ≤ repeat_interval_ i) as H1.
  { split; [apply Z.div_pos; lia|apply Z.div_le_upper_bound; nia]. }
  assert (0 ≤ repeat_interval_ i / granularity_ w / slots_ w ≤ repeat_interval_ i).
  { split; [apply Z.div_pos; lia|apply Z.div_le_upper_bound; nia]. }
  destruct (decide _); cbn; (split; [split_and!; first [exact Hc|lia]|lia]).
Qed.

(** An elapsed timer is erased, kept in place, or moved to another slot, which
    takes at least one rotation. *)
Lemma visit_elapsed s pre i l w p :
  well_formed w → 0 ≤ s < slots_ w → slot w s = pre ++ i :: l → sound_item i →
  callee i = Some p → remaining_ticks_ i = 0 →
  let w1 := log p w in let i' := rearmed w i in
  visit (perform script) s (length pre) i w = (Ok (length pre), set_slot s (pre ++ l) w1) ∨
  visit (perform script) s (length pre) i w = (Ok (length pre + 1)%nat, set_slot s (pre ++ i' :: l) w1) ∨
  (∃ t, 0 ≤ t < slots_ w ∧ 1 ≤ rotations w i ∧
    visit (perform script) s (length pre) i w
      = (Ok 0%nat, set_slot t (slot (set_slot s (pre ++ l) w1) t ++ [i']) (set_slot s (pre ++ l) w1))).
Proof.
  intros Hwf Hsr Hsl Hi Hp Hr w1 i'.
  assert (Z.to_nat s < length (wheel_ w))%nat as Hlen by by apply wf_slot_lt.
  pose proof (rearmed_sound w i Hwf Hi) as [_ Hrot]. destruct Hi as (_ & _ & Hint).
  pose proof (wf_slots _ Hwf). pose proof (wf_granularity _ Hwf). pose proof (wf_current _ Hwf).
  unfold visit. rewrite decide_False by (rewrite Hr; done). cbn zeta.
  rewrite (bind_ok _ _ _ _ _ (set_item_spec _ _ _ _)), decide_True by (cbn; lia).
  rewrite (bind_ok _ _ _ _ _ (trigger_passive _ Hs _ p _ Hp)). fold (count_down i).
  rewrite (bind_ok _ _ _ _ _ (set_item_spec _ _ _ _)).
  rewrite !set_slot_log, !slot_set_slot by (autorewrite with wheel; done).
  rewrite !set_slot_set_slot, Hsl, !insert_app_r_alt, Nat.sub_diag by done. fold w1.
  cbn [insert list_insert].
  assert (Z.to_nat s < length (wheel_ w1))%nat as Hlen1 by done.
  destruct (decide (repeat_count_ (count_down i) = 0)).
  { left. rewrite (bind_ok _ _ _ _ _ (erase_spec _ _ _)).
    by rewrite slot_set_slot, set_slot_set_slot, delete_middle by done. }
  right. mgo. cbn [granularity_ slots_ set_slot set_wheel w1 log current_slot].
  assert (repeat_interval_ (count_down i) = repeat_interval_ i) as Eint.
  { unfold count_down. by destruct (decide _). }
  rewrite Eint, (wrap_id u64) by (try done; unfold in_range, imin, imax; cbn; lia).
  rewrite udiv_ok by done. mgo. rewrite udiv_ok by lia. mgo.
  rewrite (wrap_id i32) by (try done; unfold in_range, imin, imax; fold (rotations w i); cbn; lia).
  fold (rotations w i) (rearmed w i). fold i'.
  rewrite (bind_ok _ _ _ _ _ (set_item_spec _ _ _ _)).
  rewrite slot_set_slot, set_slot_set_slot, insert_app_r_alt, Nat.sub_diag by done.
  cbn [insert list_insert]. change (remaining_ticks_ i') with (rotations w i).
  rewrite (wrap_id u64 (rotations w i)), (wrap_id u64) by (try done; unfold in_range, imin, imax; cbn; lia).
  rewrite umod_ok by lia. mgo.
  destruct (decide _) as [Hne|_]; [right|by left].
  eexists. split; [apply Z.mod_pos_bound; lia|]. split.
  - destruct (decide (rotations w i = 0)) as [E|]; [|lia]. exfalso. apply Hne.
    rewrite E, Z.add_0_r. apply Z.mod_small. done.
  - unfold splice. rewrite bind_assoc. rewrite (bind_ok _ _ _ _ _ (erase_spec _ _ _)). mgo.
    by rewrite slot_set_slot, set_slot_set_slot, delete_middle by done.
Qed.

Lemma quiet_advance s u pre i i' l w w' :
  slot w s = pre ++ i :: l → quiet s u (length pre) w → slot w' s = pre ++ i' :: l →
  quiet s u (length pre + 1) w'.
Proof.
  intros Hk Hq Hk' j x Hj Huj Hkj. rewrite Hk', lookup_app_r in Hj by lia.
  apply (Hq j); [|lia..]. rewrite Hk, lookup_app_r by lia.
  replace (j - length pre)%nat with (S (j - length pre - 1)) in * by lia. exact Hj.
Qed.

Lemma quiet_remove s u k pre i l suf w w' :
  slot w s = pre ++ i :: l → quiet s u (length pre) w → (length pre < u)%nat →
  slot w' s = (pre ++ l) ++ suf → Forall (λ x, 1 ≤ remaining_ticks_ x) suf →
  quiet s (u - 1) k w'.
Proof.
  intros Hk Hq Hu Hk' Hsuf j x Hj Huj _. rewrite Hk' in Hj.
  apply lookup_app_Some in Hj as [Hj|[_ Hj]].
  - rewrite lookup_app_r in Hj by lia. apply (Hq (S j)); [|lia..].
    rewrite Hk, lookup_app_r by lia.
    by replace (S j - length pre)%nat with (S (j - length pre)) by lia.
  - by eapply (Forall_lookup_1 (λ x, 1 ≤ remaining_ticks_ x)).
Qed.

Lemma frame_append w w1 t i :
  frame w w1 → (Z.to_nat t < length (wheel_ w1))%nat → sound_item i →
  (total w1 < total w)%nat → frame w (set_slot t (slot w1 t ++ [i]) w1).
Proof.
  intros [] Ht Hi Htot. split; try done.
  - by rewrite length_wheel_set_slot.
  - intros H. apply sound_set_slot; [by apply fr_sound0|]. apply Forall_app.
    split; [by apply sound_slot, fr_sound0|by apply Forall_singleton].
  - pose proof (total_set_slot w1 t (slot w1 t ++ [i]) Ht) as H1.
    rewrite length_app in H1. cbn [length] in H1. lia.
Qed.

(** A step makes progress: it moves the iterator on, or restarts it after
    taking one of the [u] items that could still elapse. *)
Definition progress (s : Z) (u k : nat) (w : TimeWheel) (u' k' : nat) (w' : TimeWheel) : Prop :=
  frame w w' ∧ quiet s u' k' w' ∧ (u' ≤ length (slot w' s))%nat ∧
  ((u' ≤ u ∧ length (slot w' s) - k' < length (slot w s) - k)%nat ∨ (u' < u)%nat).

Lemma progress_wait s u pre i l w :
  (Z.to_nat s < length (wheel_ w))%nat → slot w s = pre ++ i :: l →
  Forall sound_item (pre ++ i :: l) → 1 ≤ remaining_ticks_ i → quiet s u (length pre) w →
  (u ≤ length (slot w s))%nat →
  progress s u (length pre) w u (length pre + 1)
    (set_slot s (pre ++ set_remaining (remaining_ticks_ i - 1) i :: l) w).
Proof.
  intros Hlt Hk Hss Hr Hq Hu. apply Forall_app in Hss as [Hpre Hil].
  inversion Hil as [|? ? (? & ? & ?) Hl]; subst. rewrite Hk in Hu. unfold progress.
  rewrite slot_set_slot, Hk by done. rewrite !length_app in *. cbn in *.
  split; [|split; [|split; [done|lia]]].
  - apply (frame_set_slot w s _ []); [done| |rewrite Hk, !length_app; done].
    apply Forall_app. split; [done|]. constructor; [|done].
    split_and!; cbn; [done|lia|lia|lia].
  - eapply quiet_advance; [done..|]. by rewrite slot_set_slot.
Qed.

Lemma visit_progress_elapsed s u pre i l w :
  well_formed w → 0 ≤ s < slots_ w → slot w s = pre ++ i :: l →
  Forall sound_item (pre ++ i :: l) → remaining_ticks_ i = 0 → quiet s u (length pre) w →
  (u ≤ length (slot w s))%nat →
  ∃ k' u' w', visit (perform script) s (length pre) i w = (Ok k', w') ∧
    progress s u (length pre) w u' k' w'.
Proof.
  intros Hwf Hsr Hk Hss E Hq Hu. pose proof (wf_slot_lt w s Hwf Hsr) as Hlt.
  apply Forall_app in Hss as [Hpre Hil]. inversion Hil as [|? ? Hi Hl]; subst.
  pose proof Hi as ([p Hp] & _). pose proof (rearmed_sound w i Hwf Hi) as [Hri _].
  assert (length pre < u)%nat as Hku.
  { destruct (decide (length pre < u)%nat) as [|Hn]; [done|].
    specialize (Hq (length pre) i). rewrite Hk, list_lookup_middle in Hq by done.
    specialize (Hq eq_refl ltac:(lia) ltac:(lia)). lia. }
  rewrite Hk, length_app in Hu. cbn in Hu.
  destruct (visit_elapsed s pre i l w p Hwf Hsr Hk Hi Hp E) as [Hv|[Hv|(t & Ht & Hrot & Hv)]];
    rewrite Hv.
  - exists (length pre), (u - 1)%nat. eexists. split; [done|]. unfold progress.
    rewrite slot_set_slot by done. split; [|split; [|rewrite length_app; lia]].
    + apply (frame_set_slot w s _ [p]); [done|by apply Forall_app|]. rewrite Hk, !length_app. cbn. lia.
    + eapply (quiet_remove _ _ _ _ _ _ []); [done..| |done]. by rewrite slot_set_slot, app_nil_r.
  - exists (length pre + 1)%nat, u. eexists. split; [done|]. unfold progress.
    rewrite slot_set_slot, Hk, !length_app by done. cbn. split; [|split; [|lia]].
    + apply (frame_set_slot w s _ [p]); [done| |by rewrite Hk, !length_app].
      apply Forall_app. split; [done|]. by constructor.
    + eapply quiet_advance; [done..|]. by rewrite slot_set_slot.
  - set (w1 := set_slot s (pre ++ l) (log p w)) in *.
    assert (length (wheel_ w1) = length (wheel_ w)) as Ew1 by (unfold w1; by autorewrite with wheel).
    assert (slot w1 s = pre ++ l) as Es1 by by apply slot_set_slot.
    assert (∃ suf, slot (set_slot t (slot w1 t ++ [rearmed w i]) w1) s = (pre ++ l) ++ suf ∧
      Forall (λ x, 1 ≤ remaining_ticks_ x) suf) as (suf & Esuf & Hsuf).
    { destruct (decide (t = s)) as [->|Hne].
      - exists [rearmed w i]. rewrite slot_set_slot, Es1 by by rewrite Ew1.
        split; [done|]. by apply Forall_singleton.
      - exists []. by rewrite slot_set_slot_ne, Es1, app_nil_r by lia. }
    exists 0%nat, (u - 1)%nat. eexists. split; [done|].
    split; [|split; [by eapply quiet_remove|rewrite Esuf, !length_app; lia]].
    apply frame_append; [|rewrite Ew1; by apply wf_slot_lt|done|].
    + apply (frame_set_slot w s _ [p]); [done|by apply Forall_app|]. rewrite Hk, !length_app. cbn. lia.
    + pose proof (total_set_slot (log p w) s (pre ++ l) Hlt) as H2. fold w1 in H2.
      rewrite slot_log, Hk, !length_app in H2. cbn [length] in H2. change (total (log p w)) with (total w) in H2. lia.
Qed.

Lemma visit_progress s u k i w :
  well_formed w → sound w → 0 ≤ s < slots_ w → slot w s !! k = Some i → quiet s u k w →
  (u ≤ length (slot w s))%nat →
  ∃ k' u' w', visit (perform script) s k i w = (Ok k', w') ∧ progress s u k w u' k' w'.
Proof.
  intros Hwf Hso Hsr Hk Hq Hu. pose proof (sound_slot w s Hso) as Hss.
  pose proof (lookup_lt_Some _ _ _ Hk) as Hlt. apply take_drop_middle in Hk. symmetry in Hk.
  assert (k = length (take k (slot w s))) as Ek by (rewrite length_take; lia).
  revert Hk Ek. generalize (take k (slot w s)), (drop (S k) (slot w s)). intros pre l Hk ->.
  rewrite Hk in Hss. destruct (decide (remaining_ticks_ i = 0)) as [E|E].
  - by apply (visit_progress_elapsed s u pre i l).
  - assert (0 ≤ remaining_ticks_ i).
    { apply Forall_app in Hss as [_ Hil]. by inversion Hil as [|? ? (_ & ? & _)]. }
    exists (length pre + 1)%nat, u. eexists. split; [|apply progress_wait; try done; try lia].
    + apply (visit_wait (perform script) s pre i l w); [by apply wf_slot_lt|done|lia].
    + by apply wf_slot_lt.
Qed.

Lemma slot_loop_terminates fuel : ∀ s u k w N,
  well_formed w → sound w → 0 ≤ s < slots_ w → quiet s u k w →
  (u ≤ length (slot w s))%nat → (total w ≤ N)%nat →
  (u * (N + 1) + (length (slot w s) - k) < fuel)%nat →
  ∃ w', slot_loop (perform script) fuel s k w = (Ok tt, w') ∧ frame w w'.
Proof.
  induction fuel as [|fuel IH]; intros s u k w N Hwf Hso Hsr Hq Hu HN Hf; [lia|].
  cbn [slot_loop]. mgo. unfold item_at. destruct (slot w s !! k) as [i|] eqn:Hk.
  - destruct (visit_progress s u k i w) as (k' & u' & w1 & E & Hfr & Hq' & Hu' & Hm); [done..|].
    run E. pose proof (frame_wf _ _ Hfr Hwf) as Hwf'. pose proof Hfr as [? ? ? ? ? ?].
    pose proof (length_slot_total w1 s) as Htot. apply lookup_lt_Some in Hk.
    destruct (IH s u' k' w1 N) as (w2 & E2 & Hfr2); [done|by auto|congruence|done|done|lia|nia|].
    exists w2. split; [done|]. by eapply frame_trans.
  - by exists w.
Qed.

Definition enough_fuel (n : nat) : nat := (n + 1) * (n + 1).

Lemma tick_terminates fuel w :
  well_formed w → sound w → (enough_fuel (total w) ≤ fuel)%nat →
  ∃ w', tick (perform script) fuel w = (Ok tt, w') ∧ well_formed w' ∧ sound w' ∧ (total w' ≤ total w)%nat ∧
    granularity_ w' = granularity_ w.
Proof.
  intros Hwf Hso Hf. pose proof Hwf as [Hlen Hslots Hg Hc].
  unfold tick. mgo. rewrite (wrap_id u64) by (try done; unfold in_range, imin, imax; cbn; lia).
  rewrite umod_ok by lia. mgo.
  set (w1 := set_current ((current_slot w + 1) mod slots_ w) w).
  assert (well_formed w1) as Hwf1 by (apply wf_set_current; [done|apply Z.mod_pos_bound; lia]).
  destruct (slot_loop_terminates fuel (current_slot w) (length (slot w1 (current_slot w))) 0 w1 (total w))
    as (w2 & E & Hfr); try done.
  - intros j i Hj Hle _. apply lookup_lt_Some in Hj. lia.
  - pose proof (length_slot_total w1 (current_slot w)) as Hle. unfold enough_fuel in Hf.
    change (total w1) with (total w) in Hle. nia.
  - exists w2. split; [exact E|]. split; [by eapply frame_wf|]. destruct Hfr. auto.
Qed.

Lemma tick_loop_terminates fuel n w :
  well_formed w → sound w → (enough_fuel (total w) ≤ fuel)%nat →
  ∃ w', tick_loop (perform script) fuel n w = (Ok tt, w') ∧ well_formed w' ∧ sound w' ∧
    (total w' ≤ total w)%nat.
Proof.
  revert w. induction n as [|n IH]; intros w Hwf Hso Hf; cbn [tick_loop]; [by exists w|].
  destruct (tick_terminates fuel w) as (w1 & E & Hwf1 & Hso1 & Ht & _); [done..|]. run E.
  destruct (IH w1) as (w2 & E2 & ? & ? & ?); [done|done| |].
  - unfold enough_fuel in *. nia.
  - exists w2. split_and!; [done..|lia].
Qed.
End Termination.

(** [C11] Termination: on a well-formed wheel (as many lists as slots, the current
    slot among them, a positive granularity) whose timers can be called and have
    counts in range, with callbacks that do not touch the wheel
    (one that does can make it loop, [self_rearming_callback_diverges]), whatever the
    repeat counts (endless timers included) and although the inner loop starts
    over each time a timer changes slot, [ExecuteTimeout] returns; [(n+1)^2]
    steps per slot are enough for [n] timers, and the wheel stays well
    formed, with no timer invented. *)
Theorem ExecuteTimeout_terminates script fuel now w :
  passive script → well_formed w → sound w → (enough_fuel (total w) ≤ fuel)%nat →
  ∃ w', ExecuteTimeout (perform script) fuel now w = (Ok tt, w') ∧ well_formed w' ∧ sound w' ∧
    (total w' ≤ total w)%nat.
Proof.
  intros Hs Hwf Hso Hf. unfold ExecuteTimeout. mgo.
  destruct (decide (now ≤ last_trigger_ w)); [by exists w|].
  rewrite udiv_ok by apply Hwf. mgo.
  destruct (tick_loop_terminates script Hs fuel (Z.to_nat ((now - last_trigger_ w) / granularity_ w)) w)
    as (w1 & E & Hwf1 & Hso1 & Ht); [done..|].
  run E. eexists. split; [done|]. by destruct Hwf1.
Qed.

Definition busy_wheel : TimeWheel :=
  mkWheel [[mkItem 0 3 0 (-1) (Some 1%nat) None; mkItem 1 2 0 5 (Some 2%nat) None]; []] 2 1 0 0 [].

Lemma ExecuteTimeout_terminates_witness :
  ∃ w', ExecuteTimeout (perform (λ _, ([], None))) 9 20 busy_wheel = (Ok tt, w') ∧ well_formed w' ∧
    sound w' ∧ (total w' ≤ 2)%nat.
Proof.
  apply (ExecuteTimeout_terminates (λ _, ([], None)) 9 20 busy_wheel).
  - done.
  - split; cbn; (done || lia).
  - repeat constructor; cbn; (lia || by eexists).
  - vm_compute. lia.
Defined.

(** ** A callback that registers itself again *)

(** The callback [f] adds itself one turn of the wheel, less one slot, later. *)
Definition rearming (f : nat) (clock d : Z) (p : payload) : list timer_op * option exn :=
  if decide (p = Func f) then ([OpAddTimer clock d (Some f) None 1], None) else ([], None).

Section Rearming.
Context (f : nat) (clock : Z) (w : TimeWheel) (Hwf : well_formed w).
Let d := (slots_ w - 1) * granularity_ w.
Context (Hd : d < 2 ^ 31).

Lemma visit_rearming w' i s :
  well_formed w' → slots_ w' = slots_ w → granularity_ w' = granularity_ w →
  0 ≤ s < slots_ w → current_slot w' = (s + 1) mod slots_ w → slot w' s = [i] →
  remaining_ticks_ i = 0 → func_ i = Some f → perform_co_ i = None → repeat_count_ i = 1 →
  visit (perform (rearming f clock d)) s 0 i w' =
    (Ok 0%nat, set_slot s [mkItem 0 d clock 1 (Some f) None] (log (Func f) w')).
Proof.
  intros Hwf' Es Eg Hsr Ec Esl Hr Hf Hco H1. pose proof (wf_slots _ Hwf). pose proof (wf_granularity _ Hwf).
  assert (0 ≤ d) by (unfold d; nia).
  assert (d / granularity_ w = slots_ w - 1) as Ed by (apply Z.div_mul; lia).
  assert (Z.to_nat s < length (wheel_ w'))%nat as Hlt by (apply wf_slot_lt; [done|lia]).
  unfold visit. rewrite Hr, decide_False by done. cbn zeta.
  rewrite (bind_ok _ _ _ _ _ (set_item_spec _ _ _ _)), decide_True by (cbn; lia).
  rewrite Esl. change (<[0%nat := ?x]> [i]) with [x]. cbn [repeat_count_ set_remaining].
  rewrite H1, (decide_True (P := 0 < 1)) by lia.
  set (i1 := set_remaining (0 - 1) i). set (w1 := set_slot s [i1] w').
  assert (trigger (perform (rearming f clock d)) i1 w1 =
    (Ok tt, set_slot s [i1; mkItem 0 d clock 1 (Some f) None] (log (Func f) w'))) as Et.
  { unfold trigger, i1. cbn [perform_co_ func_ set_remaining]. rewrite Hco, Hf.
    unfold perform, rearming. rewrite decide_True by done. mgo. cbn [exec_timer_ops exec_timer_op fst snd].
    unfold AddTimer. rewrite !bind_assoc. mgo. cbn [granularity_ slots_ current_slot log w1 set_slot set_wheel].
    rewrite Eg, Es, Ec, udiv_ok by done. rewrite !bind_assoc. mgo. rewrite Ed, udiv_ok by lia.
    rewrite !bind_assoc. mgo. rewrite (Z.div_small (slots_ w - 1)) by lia.
    pose proof (Z.mod_pos_bound (s + 1) (slots_ w) ltac:(lia)).
    rewrite (wrap_id u64), !(wrap_id i32) by (try done; unfold in_range, imin, imax; cbn; lia).
    rewrite umod_ok by lia. rewrite Zplus_mod_idemp_l.
    replace (s + 1 + (slots_ w - 1)) with (s + 1 * slots_ w) by lia.
    rewrite Z.mod_add, Z.mod_small by lia. rewrite !bind_assoc. mgo.
    unfold w1. rewrite set_slot_log, slot_set_slot, set_slot_set_slot by done. done. }
  rewrite (bind_ok _ _ _ _ _ Et).
  rewrite (bind_ok _ _ _ _ _ (set_item_spec _ _ _ _)), decide_True by done.
  rewrite (bind_ok _ _ _ _ _ (erase_spec _ _ _)).
  by rewrite !slot_set_slot, !set_slot_set_slot by (autorewrite with wheel; done).
Qed.

Lemma slot_loop_rearming fuel : ∀ w' i s,
  well_formed w' → slots_ w' = slots_ w → granularity_ w' = granularity_ w →
  0 ≤ s < slots_ w → current_slot w' = (s + 1) mod slots_ w → slot w' s = [i] →
  remaining_ticks_ i = 0 → func_ i = Some f → perform_co_ i = None → repeat_count_ i = 1 →
  (slot_loop (perform (rearming f clock d)) fuel s 0 w').1 = NoFuel ∧
  performed (slot_loop (perform (rearming f clock d)) fuel s 0 w').2
    = performed w' ++ replicate fuel (Func f).
Proof.
  induction fuel as [|fuel IH]; intros w' i s Hwf' Es Eg Hsr Ec Esl Hr Hf Hco H1.
  - cbn. by rewrite app_nil_r.
  - cbn [slot_loop]. mgo. unfold item_at. rewrite Esl. change ([i] !! 0%nat) with (Some i). cbn iota.
    run (visit_rearming w' i s Hwf' Es Eg Hsr Ec Esl Hr Hf Hco H1).
    assert (Z.to_nat s < length (wheel_ w'))%nat as Hlt by (apply wf_slot_lt; [done|lia]).
    edestruct (IH (set_slot s [mkItem 0 d clock 1 (Some f) None] (log (Func f) w')))
      as [HL HR]; [by apply wf_set_slot, wf_log|done..|by apply slot_set_slot|done|done|done|done|].
    split; [exact HL|]. rewrite HR. cbn. by rewrite <- app_assoc.
Qed.
End Rearming.

(** A callback that registers itself again [slots - 1] ticks later is
    appended to the very list that is being walked, and is due there: however
    many steps the loop is given it is called once per step, and
    [ExecuteTimeout] never returns. *)
Theorem self_rearming_callback_diverges f clock w i fuel now :
  well_formed w → (slots_ w - 1) * granularity_ w < 2 ^ 31 →
  slot w (current_slot w) = [i] → remaining_ticks_ i = 0 → func_ i = Some f →
  perform_co_ i = None → repeat_count_ i = 1 → last_trigger_ w + granularity_ w ≤ now →
  let r := ExecuteTimeout (perform (rearming f clock ((slots_ w - 1) * granularity_ w))) fuel now w in
  r.1 = NoFuel ∧ performed r.2 = performed w ++ replicate fuel (Func f).
Proof.
  intros Hwf Hd Hsl Hr Hf Hco H1 Hnow r. pose proof Hwf as [Hlen Hs Hg Hc]. unfold r, ExecuteTimeout.
  mgo. rewrite decide_False by lia. rewrite udiv_ok by done. mgo.
  assert (1 ≤ (now - last_trigger_ w) / granularity_ w) by (apply Z.div_le_lower_bound; lia).
  destruct (Z.to_nat ((now - last_trigger_ w) / granularity_ w)) as [|n] eqn:En; [lia|].
  set (w1 := set_current ((current_slot w + 1) mod slots_ w) w).
  destruct (slot_loop_rearming f clock w Hwf Hd fuel w1 i (current_slot w)) as [E1 E2]; try done.
  { apply wf_set_current; [done|]. apply Z.mod_pos_bound; lia. }
  destruct (slot_loop _ fuel (current_slot w) 0 w1) as [o w2] eqn:E. cbn in E1, E2. subst o.
  assert (∀ sc, tick sc fuel w = slot_loop sc fuel (current_slot w) 0 w1) as Et.
  { intros sc. unfold tick. mgo.
    rewrite (wrap_id u64) by (try done; unfold in_range, imin, imax; cbn; lia).
    rewrite umod_ok by lia. by mgo. }
  rewrite (bind_nofuel _ _ _ w2); [done|]. cbn [tick_loop].
  apply bind_nofuel. by rewrite Et.
Qed.

Lemma self_rearming_callback_diverges_witness :
  (ExecuteTimeout (perform (rearming 7 0 3)) 1000 1
     (mkWheel [[mkItem 0 0 0 1 (Some 7%nat) None]; []; []; []] 4 1 0 0 [])).1 = NoFuel.
Proof.
  apply (self_rearming_callback_diverges 7 0
    (mkWheel [[mkItem 0 0 0 1 (Some 7%nat) None]; []; []; []] 4 1 0 0 [])
    (mkItem 0 0 0 1 (Some 7%nat) None) 1000 1); done.
Defined.

(** ** Repeating timers *)

(** The wheel holds one endless timer of less than a turn, [k] slots ahead. *)
Record endless (f : nat) (k : Z) (w : TimeWheel) (i : TimeoutItem) : Prop := {
  en_wf : well_formed w;
  en_dist : 0 ≤ k < slots_ w;
  en_item : remaining_ticks_ i = 0 ∧ repeat_count_ i = -1 ∧ func_ i = Some f ∧
            perform_co_ i = None ∧ 0 ≤ repeat_interval_ i < 2 ^ 31 ∧
            repeat_interval_ i / granularity_ w < slots_ w;
  en_slot : ∀ s, 0 ≤ s < slots_ w →
    slot w s = if decide ((s - current_slot w) mod slots_ w = k) then [i] else [] }.

Section Endless.
Context (script : payload → list timer_op * option exn) (Hs : passive script).

(** The calls made in [n] ticks. *)
Definition endless_calls (slots k n : Z) : Z := (n + slots - 1 - k) / slots.

Lemma endless_calls_step slots k n :
  0 ≤ k < slots → 0 ≤ n →
  endless_calls slots k (n + 1) =
    if decide (k = 0) then 1 + endless_calls slots (slots - 1) n else endless_calls slots (k - 1) n.
Proof.
  intros Hk Hn. unfold endless_calls. destruct (decide (k = 0)) as [->|].
  - replace (n + 1 + slots - 1 - 0) with (n + slots - 1 - (slots - 1) + 1 * slots) by lia.
    rewrite Z.div_add by lia. lia.
  - f_equal. lia.
Qed.

Lemma visit_endless f k w i s :
  endless f k w i → 0 ≤ s < slots_ w → slot w s = [i] →
  visit (perform script) s 0 i w = (Ok 1%nat, log (Func f) w).
Proof.
  intros [Hwf Hk (Hr & Hc & Hf & Hco & Hi & Hlt) Hsl] Hsr Es.
  pose proof (wf_slots _ Hwf). pose proof (wf_granularity _ Hwf). pose proof (wf_current _ Hwf).
  assert (callee i = Some (Func f)) as Hcall by (unfold callee; by rewrite Hco, Hf).
  assert (Z.to_nat s < length (wheel_ w))%nat as Hlen by by apply wf_slot_lt.
  unfold visit. rewrite Hr, decide_False by done. cbn zeta.
  rewrite (bind_ok _ _ _ _ _ (set_item_spec _ _ _ _)), decide_True by (cbn; lia).
  rewrite (bind_ok _ _ _ _ _ (trigger_passive script Hs _ (Func f) _ Hcall)).
  cbn [repeat_count_ set_remaining]. rewrite Hc, (decide_False (P := 0 < -1)) by lia.
  rewrite (bind_ok _ _ _ _ _ (set_item_spec _ _ _ _)).
  rewrite !set_slot_log, !slot_set_slot, !set_slot_set_slot, Es by (autorewrite with wheel; done).
  cbn [repeat_count_ set_remaining insert list_insert]. rewrite Hc, decide_False by done.
  mgo. cbn [granularity_ slots_ current_slot log set_slot set_wheel repeat_interval_ set_remaining].
  rewrite (wrap_id u64) by (try done; unfold in_range, imin, imax; cbn; lia).
  rewrite udiv_ok by done. mgo. rewrite udiv_ok by lia. mgo.
  rewrite (Z.div_small (_ / _)) by (split; [apply Z.div_pos; lia|done]).
  change (wrap i32 0) with 0.
  rewrite (bind_ok _ _ _ _ _ (set_item_spec _ _ _ _)). cbn [remaining_ticks_ set_remaining].
  change (wrap u64 0) with 0. rewrite Z.add_0_r, (wrap_id u64)
    by (try done; unfold in_range, imin, imax; cbn; lia).
  rewrite umod_ok, Z.mod_small by lia. mgo. rewrite decide_False by (intros Hn; by apply Hn).
  rewrite set_slot_set_slot, slot_set_slot by done. cbn [insert list_insert].
  replace (set_remaining 0 (set_remaining (0 - 1) i)) with i by (destruct i; cbn in *; by subst).
  rewrite <- set_slot_log. rewrite <- Es. by rewrite set_slot_id.
Qed.

Lemma endless_advance f k w i p :
  endless f k w i →
  endless f (if decide (k = 0) then slots_ w - 1 else k - 1)
    (logs p (set_current ((current_slot w + 1) mod slots_ w) w)) i.
Proof.
  intros [Hwf Hk Hi Hsl]. pose proof (wf_slots _ Hwf). pose proof (wf_current _ Hwf) as Hc.
  set (w1 := set_current _ w).
  destruct (logs_fields p w1) as (Ew & Es & Eg & El & Ec & Ep).
  split; rewrite ?Es, ?Eg, ?Ec.
  - pose proof (wf_set_current w ((current_slot w + 1) mod slots_ w) Hwf) as [].
    { apply Z.mod_pos_bound; lia. }
    split; rewrite ?Ew, ?Es, ?Eg, ?Ec; done.
  - change (slots_ w1) with (slots_ w). destruct (decide _); lia.
  - exact Hi.
  - intros s Hsr. change (slots_ w1) with (slots_ w) in *.
    change (current_slot w1) with ((current_slot w + 1) mod slots_ w).
    transitivity (slot w s); [unfold slot; by rewrite Ew|]. rewrite Hsl by done.
    rewrite slot_distance by done. pose proof (Z.mod_pos_bound (s - current_slot w) (slots_ w) ltac:(lia)).
    destruct (decide (s = current_slot w)) as [->|Hne].
    + rewrite Z.sub_diag, Z.mod_0_l by lia.
      destruct (decide (k = 0)) as [->|]; [by rewrite !decide_True by lia|by rewrite !decide_False by lia].
    + assert ((s - current_slot w) mod slots_ w ≠ 0) as Hd.
      { intros E. apply Hne. pose proof (Z.div_mod (s - current_slot w) (slots_ w) ltac:(lia)).
        assert (-1 < (s - current_slot w) / slots_ w < 1); [|nia]. split; nia. }
      destruct (decide (k = 0)) as [->|].
      * by rewrite !decide_False by lia.
      * destruct (decide (_ = k)); [by rewrite decide_True by lia|by rewrite decide_False by lia].
Qed.

Lemma tick_endless f k w i fuel :
  endless f k w i → (2 ≤ fuel)%nat →
  tick (perform script) fuel w = (Ok tt,
    logs (if decide (k = 0) then [Func f] else []) (set_current ((current_slot w + 1) mod slots_ w) w)).
Proof.
  intros He Hf. pose proof (endless_advance f k w i [] He) as He1.
  destruct He as [Hwf Hk Hi Hsl]. pose proof Hwf as [Hlen Hn Hg Hc].
  unfold tick. mgo. rewrite (wrap_id u64) by (try done; unfold in_range, imin, imax; cbn; lia).
  rewrite umod_ok by lia. mgo. cbn [logs foldl] in He1. set (w1 := set_current _ w) in *.
  pose proof (Hsl _ Hc) as Ec. rewrite Z.sub_diag, Z.mod_0_l in Ec by lia.
  destruct fuel as [|[|fuel]]; try lia. cbn [slot_loop]. mgo. unfold item_at.
  change (slot w1 ?s) with (slot w s). rewrite Ec.
  destruct (decide (k = 0)) as [->|Hne].
  - rewrite decide_True by done. change ([i] !! 0%nat) with (Some i). cbn iota.
    run (visit_endless f _ w1 i (current_slot w) He1 Hc
           ltac:(change (slot w (current_slot w) = [i]); rewrite Ec, decide_True by done; done)).
    mgo. change (slot (log (Func f) w1) ?s) with (slot w s).
    by rewrite Ec, decide_True by done.
  - by rewrite decide_False by done.
Qed.

Lemma tick_loop_endless f i fuel n : ∀ k w,
  endless f k w i → (2 ≤ fuel)%nat → ∃ w',
  tick_loop (perform script) fuel n w = (Ok tt, w') ∧
  performed w' = performed w ++ replicate (Z.to_nat (endless_calls (slots_ w) k (Z.of_nat n))) (Func f).
Proof.
  induction n as [|n IH]; intros k w He Hf; cbn [tick_loop].
  - exists w. split; [done|]. unfold endless_calls. pose proof (en_dist _ _ _ _ He).
    rewrite Z.div_small by lia. by rewrite app_nil_r.
  - run (tick_endless f k w i fuel He Hf). pose proof (en_dist _ _ _ _ He) as Hk.
    set (ps := if decide (k = 0) then [Func f] else []). pose proof (endless_advance f k w i ps He) as He1.
    set (w1 := set_current _ w) in *. destruct (logs_fields ps w1) as (_ & Es & _ & _ & _ & Ep).
    destruct (IH _ _ He1 Hf) as (w' & E & Hp). exists w'. split; [exact E|].
    rewrite Hp, Es, Ep, <- app_assoc. change (performed w1) with (performed w). f_equal.
    change (slots_ w1) with (slots_ w).
    rewrite Nat2Z.inj_succ, <- Z.add_1_r, endless_calls_step by lia. unfold ps.
    destruct (decide (k = 0)); [|done].
    assert (0 ≤ endless_calls (slots_ w) (slots_ w - 1) (Z.of_nat n)) by (apply Z.div_pos; lia).
    rewrite Z2Nat.inj_add by lia. done.
Qed.
End Endless.

(** An endless timer whose interval is shorter than a turn of the wheel is
    not called every interval but once per turn: it is never moved to its next
    slot. In [n] ticks it is called [(n + slots - 1 - k) / slots] times, where
    [k = interval / granularity]; for [n] a multiple of [slots], [n / slots]
    times, whatever the interval. *)
Theorem repeating_timer_period script f clock t slots g now fuel :
  passive script → 0 < slots ≤ 2 ^ 31 → 0 < g → 0 ≤ t < 2 ^ 31 → t / g < slots →
  clock < now → (2 ≤ fuel)%nat →
  ∃ w, (AddTimer clock t (Some f) None (-1);; ExecuteTimeout (perform script) fuel now)
         (TimeWheel_new slots g clock) = (Ok tt, w) ∧
    performed w = replicate
      (Z.to_nat (endless_calls slots (t / g) ((now - clock) / g))) (Func f).
Proof.
  intros Hs Hsl Hg Ht Hk Hnow Hf. set (w0 := TimeWheel_new slots g clock).
  set (i := mkItem 0 t clock (-1) (Some f) None).
  assert (0 ≤ t / g) by (apply Z.div_pos; lia).
  assert (AddTimer clock t (Some f) None (-1) w0 = (Ok tt, set_slot (t / g) [i] w0)) as E.
  { unfold AddTimer. mgo. cbn [granularity_ slots_ current_slot w0 TimeWheel_new].
    rewrite udiv_ok by done. mgo. rewrite udiv_ok by lia. mgo. rewrite (Z.div_small (t / g)) by lia.
    rewrite (wrap_id u64), !(wrap_id i32) by (try done; unfold in_range, imin, imax; cbn; lia).
    rewrite umod_ok by lia. rewrite Z.add_0_l, Z.mod_small by lia. mgo.
    unfold modify, w0. by rewrite slot_new. }
  assert (endless f (t / g) (set_slot (t / g) [i] w0) i) as He.
  { split; [apply wf_set_slot; split; cbn; [by rewrite length_replicate|done|done|lia]|cbn; lia|done|].
    cbn. intros s Hsr. rewrite Z.sub_0_r, Z.mod_small by lia.
    destruct (decide (s = t / g)) as [->|].
    - apply slot_set_slot. cbn. rewrite length_replicate. lia.
    - rewrite slot_set_slot_ne by lia. apply slot_new. }
  run E. unfold ExecuteTimeout. mgo. cbn [last_trigger_ set_slot set_wheel w0 TimeWheel_new granularity_].
  rewrite decide_False by lia. rewrite udiv_ok by done. mgo.
  destruct (tick_loop_endless script Hs f i fuel (Z.to_nat ((now - clock) / g)) _ _ He Hf) as (w' & El & Hp).
  run El. eexists. split; [done|]. cbn. rewrite Hp. cbn.
  rewrite Z2Nat.id by (apply Z.div_pos; lia). done.
Qed.

Lemma repeating_timer_period_witness :
  ∃ w, (AddTimer 0 10 (Some 4%nat) None (-1);; ExecuteTimeout (perform (λ _, ([], None))) 2 2000)
         (TimeWheel_new 1000 1 0) = (Ok tt, w) ∧ performed w = [Func 4; Func 4].
Proof.
  apply (repeating_timer_period (λ _, ([], None)) 4 0 10 1000 1 2000 2);
    first [done|lia|vm_compute; congruence].
Defined.

(** [ExecuteTimeout] forgets the part of the elapsed time that is not a
    whole tick: called more often than once per [granularity], it never calls
    anything, however long that goes on. *)
Theorem frequent_calls_never_fire script fuel nows w :
  0 < granularity_ w →
  (∀ a b, (a, b) ∈ zip (last_trigger_ w :: nows) nows → a < b < a + granularity_ w) →
  exec_wheel_ops script fuel (Exec <$> nows) w
    = (Ok tt, set_trigger (List.last nows (last_trigger_ w)) w).
Proof.
  revert w. induction nows as [|now nows IH]; intros w Hg Hd.
  - by destruct w.
  - cbn [fmap list_fmap exec_wheel_ops exec_wheel_op zip zip_with] in *.
    assert (ExecuteTimeout (perform script) fuel now w = (Ok tt, set_trigger now w)) as E.
    { destruct (Hd (last_trigger_ w) now) as [H1 H2]; [by left|].
      unfold ExecuteTimeout. mgo. rewrite decide_False by lia. rewrite udiv_ok by done. mgo.
      rewrite Z.div_small by lia. done. }
    run E. rewrite IH; [|done|].
    + f_equal. destruct nows as [|n' nows]; [done|].
      unfold set_trigger. cbn [granularity_ wheel_ slots_ current_slot performed last_trigger_]. f_equal.
      assert (∀ (d d' x : Z) l, List.last (x :: l) d = List.last (x :: l) d') as Hlast.
      { intros d d' x l. revert x. induction l as [|y l IHl]; intros x; [done|]. apply (IHl y). }
      apply (Hlast _ _ n' nows).
    + intros a b Hab. apply Hd. right. exact Hab.
Qed.

Lemma frequent_calls_never_fire_witness :
  exec_wheel_ops (λ _, ([], None)) 5 (Exec <$> [9; 18; 27])
      (mkWheel [[mkItem 0 0 0 1 (Some 7%nat) None]] 1 10 0 0 [])
    = (Ok tt, mkWheel [[mkItem 0 0 0 1 (Some 7%nat) None]] 1 10 27 0 []).
Proof.
  apply (frequent_calls_never_fire (λ _, ([], None)) 5 [9; 18; 27]
    (mkWheel [[mkItem 0 0 0 1 (Some 7%nat) None]] 1 10 0 0 [])).
  - cbn. lia.
  - cbn. intros a b Hab. repeat (apply elem_of_cons in Hab as [[= -> ->]|Hab]; [lia|]).
    by apply elem_of_nil in Hab.
Defined.

(** ** The time to the next timer *)

Definition due_time (i : TimeoutItem) : Z := register_time_ i + repeat_interval_ i.

(** Milliseconds to the first timer of a slot, unless it is overdue. *)
Definition candidate (now : Z) (w : TimeWheel) (s : Z) : option Z :=
  match slot w s with
  | [] => None
  | i :: _ => if decide (due_time i < now) then None else Some (due_time i - now)
  end.

Definition clock_ok (now : Z) (i : TimeoutItem) : Prop :=
  0 ≤ register_time_ i ≤ now ∧ now < 2 ^ 62 ∧ 0 ≤ repeat_interval_ i < 2 ^ 31.

(** The value the loop compares for the first timer of a slot. *)
Lemma trigger_value now i :
  clock_ok now i →
  let v := wrap u64 (wrap u64 (repeat_interval_ i) - wrap u64 (now - register_time_ i)) in
  if decide (due_time i < now) then INT64_MAX < v else v = due_time i - now.
Proof.
  intros (Hr & Hn & Hi). cbn zeta. unfold due_time.
  rewrite (wrap_id u64 (repeat_interval_ i)), (wrap_id u64 (now - register_time_ i)) by (try done; unfold in_range, imin, imax; cbn; lia).
  unfold wrap, wrap_u, INT64_MAX. change (isigned u64) with false. cbn iota. change (ibits u64) with 64.
  destruct (decide _).
  - rewrite <- (Z.mod_unique _ (2 ^ 64) (-1) (repeat_interval_ i - (now - register_time_ i) + 2 ^ 64))
      by (try left; lia). lia.
  - rewrite Z.mod_small by lia. lia.
Qed.

Lemma GetNextTimeout_loop_spec n i now w : ∀ dis,
  well_formed w → (∀ s x l, slot w s = x :: l → clock_ok now x) → 0 ≤ i →
  i + Z.of_nat n ≤ slots_ w → dis ≤ INT64_MAX →
  GetNextTimeout_loop n i now dis w = foldl Z.min dis
    (omap (λ j, candidate now w ((current_slot w + j) mod slots_ w)) (seqZ i (Z.of_nat n))).
Proof.
  revert i. induction n as [|n IH]; intros i dis Hwf Hck Hi Hn Hd; [done|].
  pose proof (wf_slots _ Hwf). pose proof (wf_current _ Hwf).
  cbn [GetNextTimeout_loop]. rewrite seqZ_cons by lia. cbn [omap list_omap].
  rewrite Nat2Z.inj_succ, Z.pred_succ, <- Z.add_1_r.
  rewrite (wrap_id u64) by (try done; unfold in_range, imin, imax; cbn; lia).
  unfold candidate at 1. set (s := (current_slot w + i) mod slots_ w).
  destruct (slot w s) as [|x l] eqn:E; [by apply IH; (done || lia)|].
  pose proof (trigger_value now x (Hck _ _ _ E)) as Hv. cbn zeta in Hv |- *.
  destruct (decide (due_time x < now)) as [Hlt|Hge].
  - rewrite Z.min_l by lia. by apply IH; (done || lia).
  - rewrite Hv. cbn [foldl]. by apply IH; (done || lia).
Qed.

Lemma foldl_min_spec d l :
  foldl Z.min d l ≤ d ∧ (∀ v, v ∈ l → foldl Z.min d l ≤ v) ∧ (foldl Z.min d l = d ∨ foldl Z.min d l ∈ l).
Proof.
  revert d. induction l as [|x l IH]; intros d; cbn.
  - split; [done|]. split; [|by left]. intros v Hv. by apply elem_of_nil in Hv.
  - destruct (IH (Z.min d x)) as (H1 & H2 & H3). split; [lia|]. split.
    + intros v Hv. apply elem_of_cons in Hv as [->|Hv]; [lia|by apply H2].
    + destruct H3 as [H3|H3]; [|right; by right].
      rewrite H3. destruct (Z.min_dec d x) as [E|E]; rewrite E; [by left|right; by left].
Qed.

(** [GetNextTimeout] looks at the first timer of every slot, in order of
    registration, and ignores the overdue ones, whose remaining time wraps
    around: it returns the least time to a first timer that is not overdue, and
    0 both when there is none and when that time is 0. *)
Theorem GetNextTimeout_spec now w :
  well_formed w → last_trigger_ w ≤ now → (∀ s x l, slot w s = x :: l → clock_ok now x) →
  ∃ r, GetNextTimeout now w = (Ok r, w) ∧
    ((∀ s, 0 ≤ s < slots_ w → candidate now w s = None) → r = 0) ∧
    (∀ s v, 0 ≤ s < slots_ w → candidate now w s = Some v →
      r ≤ v ∧ ∃ s', 0 ≤ s' < slots_ w ∧ candidate now w s' = Some r).
Proof.
  intros Hwf Hnow Hck. pose proof (wf_slots _ Hwf). unfold GetNextTimeout. mgo.
  rewrite decide_False by lia. eexists. split; [done|].
  rewrite GetNextTimeout_loop_spec; [|done|done|lia|rewrite (wf_length _ Hwf); lia|done].
  rewrite (wf_length _ Hwf), Z2Nat.id by lia.
  set (l := omap _ _). destruct (foldl_min_spec INT64_MAX l) as (H1 & H2 & H3).
  assert (∀ v, v ∈ l → ∃ s, 0 ≤ s < slots_ w ∧ candidate now w s = Some v) as Hin.
  { intros v (j & _ & Hj)%list_elem_of_omap. eexists. split; [|exact Hj]. apply Z.mod_pos_bound. lia. }
  assert (∀ v, v ∈ l → v < INT64_MAX) as Hlt.
  { intros v (s & _ & Hc)%Hin. unfold candidate in Hc. destruct (slot w s) as [|x k] eqn:E; [done|].
    destruct (Hck _ _ _ E) as (? & ? & ?). destruct (decide _); [done|]. injection Hc as <-.
    unfold due_time, INT64_MAX. lia. }
  split.
  - intros Hnone. destruct (decide _) as [|Hne]; [done|]. destruct H3 as [|H3]; [done|].
    destruct (Hin _ H3) as (s & Hs & Hc). by rewrite Hnone in Hc.
  - intros s v Hs Hc. assert (v ∈ l) as Hv.
    { apply list_elem_of_omap. exists ((s - current_slot w) mod slots_ w). split.
      - apply elem_of_seqZ. pose proof (Z.mod_pos_bound (s - current_slot w) (slots_ w)). lia.
      - rewrite Zplus_mod_idemp_r. replace (current_slot w + (s - current_slot w)) with s by lia.
        by rewrite Z.mod_small. }
    pose proof (H2 v Hv). pose proof (Hlt v Hv).
    rewrite decide_False by lia. split; [done|].
    destruct H3 as [H3|H3]; [lia|]. by apply Hin.
Qed.

Lemma GetNextTimeout_spec_witness :
  ∃ r, GetNextTimeout 5 busy_wheel = (Ok r, busy_wheel) ∧
    ((∀ s, 0 ≤ s < 2 → candidate 5 busy_wheel s = None) → r = 0) ∧
    (∀ s v, 0 ≤ s < 2 → candidate 5 busy_wheel s = Some v →
      r ≤ v ∧ ∃ s', 0 ≤ s' < 2 ∧ candidate 5 busy_wheel s' = Some r).
Proof.
  apply (GetNextTimeout_spec 5 busy_wheel).
  - split; cbn; (done || lia).
  - cbn. lia.
  - intros s x l Hx. assert (x = mkItem 0 3 0 (-1) (Some 1%nat) None) as ->.
    { unfold slot in Hx. cbn in Hx. destruct (Z.to_nat s) as [|[|n]]; cbn in Hx; by simplify_eq. }
    unfold clock_ok. cbn. lia.
Defined.

End TimeWheelProps.
