(* ===== verification/CStr.v ===== *)
(** * Strings and ordered maps of the C++ standard library

    [std::string] as a list of characters with the members the program uses
    ([find], [substr], [getline], [>>], [isspace], [toupper] in the C locale)
    and [std::map] as an association list sorted by its key order. *)

From stdpp Require Import pretty.
From S2P Require Import Prelude.

Module CStr.

Abbreviation str := (list ascii).

(** A literal. *)
Definition lit (s : string) : str := list_ascii_of_string s.
#[global] Arguments lit : simpl never.

Definition code (c : ascii) : N := N_of_ascii c.
Definition cr : ascii := "013"%char.
Definition lf : ascii := "010"%char.
Definition crlf : str := [cr; lf].

(** [std::to_string] of an integer. *)
Definition to_string (z : Z) : str := lit (pretty z).

(** The C locale. Characters above 127 are neither spaces nor letters. *)
Definition is_space (c : ascii) : bool :=
  ((9 <=? code c) && (code c <=? 13) || (code c =? 32))%N.
Definition toupper (c : ascii) : ascii :=
  if ((97 <=? code c) && (code c <=? 122))%N then ascii_of_N (code c - 32) else c.
Definition tolower (c : ascii) : ascii :=
  if ((65 <=? code c) && (code c <=? 90))%N then ascii_of_N (code c + 32) else c.
Definition is_alnum (c : ascii) : bool :=
  ((48 <=? code c) && (code c <=? 57) || (65 <=? code c) && (code c <=? 90)
   || (97 <=? code c) && (code c <=? 122))%N.

(** [s.find(p, pos)]; [None] is [npos]. *)
Fixpoint find_here (p s : str) : option nat :=
  if decide (p `prefix_of` s) then Some 0
  else match s with [] => None | _ :: s' => S <$> find_here p s' end.
Definition find (p s : str) (pos : nat) : option nat :=
  if decide (pos ≤ length s) then Nat.add pos <$> find_here p (drop pos s) else None.

(** [s.substr(pos, n)]; [None] for [n] is [npos]. *)
Definition substr (s : str) (pos : nat) (n : option nat) : outcome str :=
  if decide (length s < pos) then Throw (out_of_range "basic_string::substr")
  else Ok match n with Some n => take n (drop pos s) | None => drop pos s end.

(** [erase(remove_if(.., isspace))]. *)
Fixpoint remove_spaces (s : str) : str :=
  match s with
  | [] => []
  | c :: s => if is_space c then remove_spaces s else c :: remove_spaces s
  end.

Fixpoint skip_spaces (s : str) : str :=
  match s with
  | [] => []
  | c :: s' => if is_space c then skip_spaces s' else s
  end.
Fixpoint token (s : str) : str :=
  match s with
  | [] => []
  | c :: s' => if is_space c then [] else c :: token s'
  end.

(** [ss >> x] on what is left of the stream: the token and the rest; [None] when
    no character is left, which leaves [x] as it was. *)
Definition extract (s : str) : option (str * str) :=
  match skip_spaces s with
  | [] => None
  | s' => Some (token s', drop (length (token s')) s')
  end.

(** The lines [std::getline] delivers. *)
Fixpoint lines_from (acc s : str) : list str :=
  match s with
  | [] => match acc with [] => [] | _ => [acc] end
  | c :: s' => if decide (c = lf) then acc :: lines_from [] s' else lines_from (acc ++ [c]) s'
  end.
Definition lines (s : str) : list str := lines_from [] s.

(** Closed decidable goals of the witnesses. *)
Ltac by_decide := apply (bool_decide_unpack _); vm_compute; exact I.

(** ** Facts *)

Lemma substr_ok s pos n : pos ≤ length s →
  substr s pos n = Ok match n with Some n => take n (drop pos s) | None => drop pos s end.
Proof. intros. unfold substr. by rewrite decide_False by lia. Qed.

Lemma find_0 p s : find p s 0 = find_here p s.
Proof.
  unfold find. rewrite decide_True by lia. rewrite drop_0. by destruct (find_here p s).
Qed.

Lemma prefix_app_iff (p s t : str) :
  length p ≤ length s → (p `prefix_of` s ++ t ↔ p `prefix_of` s).
Proof.
  intros Hl. split.
  - intros [k Hk]. exists (drop (length p) s).
    assert (take (length p) (s ++ t) = p) as E by (rewrite Hk; apply take_app_length).
    rewrite take_app_le in E by done. rewrite <- E at 1. symmetry. apply take_drop.
  - intros [k ->]. exists (k ++ t). by rewrite app_assoc.
Qed.

(** The first occurrence of a separator of two characters after text that does
    not contain its first one. *)
Lemma find_here_skip c p s t :
  c ∉ s → find_here (c :: p) (s ++ c :: p ++ t) = Some (length s).
Proof.
  induction s as [|x s IH]; cbn [find_here app length]; intros Hc.
  - destruct (decide _) as [|Hn]; [done|]. exfalso. apply Hn. by exists t.
  - destruct (decide _) as [Hp|_].
    + exfalso. apply Hc. apply prefix_cons_inv_1 in Hp as ->. by left.
    + rewrite IH; [done|]. intros ?. apply Hc. by right.
Qed.

Lemma find_here_None p s :
  p ≠ [] → (∀ a b, s ≠ a ++ p ++ b) → find_here p s = None.
Proof.
  intros Hp. induction s as [|x s IH]; cbn; intros Hs.
  - destruct (decide _) as [[k Hk]|]; [|done]. symmetry in Hk. by apply app_nil in Hk as [-> _].
  - destruct (decide _) as [[k Hk]|_].
    + exfalso. by apply (Hs [] k).
    + rewrite IH; [done|]. intros a b ->. by apply (Hs (x :: a) b).
Qed.

Lemma find_here_Some p s n :
  find_here p s = Some n → s = take n s ++ p ++ drop (n + length p) s.
Proof.
  revert n. induction s as [|x s IH]; cbn; intros n.
  - destruct (decide _) as [[k Hk]|]; [|done]. intros [= <-].
    symmetry in Hk. apply app_nil in Hk as [-> ->]. done.
  - destruct (decide _) as [[k Hk]|_].
    + intros [= <-]. cbn. rewrite Hk at 1. f_equal. rewrite Hk. by rewrite drop_app_length.
    + destruct (find_here p s) as [m|]; cbn; [|done]. intros [= <-]. cbn.
      f_equal. by apply IH.
Qed.

Definition spaceless (s : str) : Prop := Forall (λ c, is_space c = false) s.

#[global] Instance spaceless_dec s : Decision (spaceless s).
Proof. unfold spaceless. apply _. Defined.

Lemma remove_spaces_id s : spaceless s → remove_spaces s = s.
Proof. induction 1 as [|c s Hc Hs IH]; cbn; [done|]. by rewrite Hc, IH. Qed.

Lemma remove_spaces_app a b : remove_spaces (a ++ b) = remove_spaces a ++ remove_spaces b.
Proof. induction a as [|c a IH]; cbn; [done|]. destruct (is_space c); [done|]. by rewrite IH. Qed.

Lemma remove_spaces_spaceless s : spaceless (remove_spaces s).
Proof.
  induction s as [|c s IH]; cbn; [constructor|]. destruct (is_space c) eqn:E; [done|].
  by constructor.
Qed.

Lemma skip_spaces_id s : spaceless s → skip_spaces s = s.
Proof. destruct 1 as [|c s Hc Hs]; cbn; [done|]. by rewrite Hc. Qed.

Lemma token_app a c b : spaceless a → is_space c = true → token (a ++ c :: b) = a.
Proof.
  induction 1 as [|x a Hx Ha IH]; cbn; intros Hc; [by rewrite Hc|].
  rewrite Hx. by rewrite IH.
Qed.

Lemma token_id a : spaceless a → token a = a.
Proof. induction 1 as [|x a Hx Ha IH]; cbn; [done|]. by rewrite Hx, IH. Qed.

Lemma extract_cons a b :
  a ≠ [] → spaceless a → extract (a ++ " "%char :: b) = Some (a, " "%char :: b).
Proof.
  intros Hne Ha. unfold extract.
  assert (skip_spaces (a ++ " "%char :: b) = a ++ " "%char :: b) as E.
  { destruct Ha as [|x a Hx Ha]; [done|]. cbn. by rewrite Hx. }
  rewrite E. destruct (a ++ " "%char :: b) eqn:Eab; [by destruct a|]. rewrite <- Eab.
  rewrite token_app by done. by rewrite drop_app_length.
Qed.

Lemma extract_space b : extract (" "%char :: b) = extract b.
Proof. done. Qed.

Lemma extract_last a : a ≠ [] → spaceless a → extract a = Some (a, []).
Proof.
  intros Hne Ha. unfold extract. rewrite skip_spaces_id by done.
  destruct a as [|x a]; [done|]. rewrite token_id by done. by rewrite drop_all.
Qed.

Lemma lines_from_cons acc l s :
  lf ∉ l → lines_from acc (l ++ lf :: s) = (acc ++ l) :: lines_from [] s.
Proof.
  revert acc. induction l as [|c l IH]; intros acc Hl; cbn.
  - by rewrite app_nil_r.
  - rewrite decide_False by (intros ->; apply Hl; by left).
    rewrite IH by (intros ?; apply Hl; by right). by rewrite <- app_assoc.
Qed.

Lemma lines_from_last acc l :
  lf ∉ l → acc ++ l ≠ [] → lines_from acc l = [acc ++ l].
Proof.
  revert acc. induction l as [|c l IH]; intros acc Hl Hne; cbn.
  - rewrite app_nil_r in *. by destruct acc.
  - rewrite decide_False by (intros ->; apply Hl; by left).
    rewrite IH; [by rewrite <- app_assoc|intros ?; apply Hl; by right|].
    by rewrite <- app_assoc.
Qed.

(** ** [std::map] *)

Class OrdKey (K : Type) `{EqDecision K} := {
  klt : K → K → bool;
  klt_irrefl : ∀ a, klt a a = false;
  klt_trans : ∀ a b c, klt a b = true → klt b c = true → klt a c = true;
  klt_total : ∀ a b, klt a b = false → klt b a = false → a = b }.

(** The iteration order of the map is the order of the list. *)
Definition dict (K V : Type) : Type := list (K * V).

Section Dict.
Context {K : Type} `{OK : OrdKey K} {V : Type}.
Implicit Types (m : dict K V) (k : K) (v : V).

Fixpoint dget (k : K) (m : dict K V) : option V :=
  match m with
  | [] => None
  | (k', v) :: m => if decide (k = k') then Some v else dget k m
  end.

(** [m[k] = v]. *)
Fixpoint dset (k : K) (v : V) (m : dict K V) : dict K V :=
  match m with
  | [] => [(k, v)]
  | (k', v') :: m' =>
      if klt k k' then (k, v) :: m
      else if decide (k = k') then (k, v) :: m'
      else (k', v') :: dset k v m'
  end.

(** [m.insert({k, v})] does nothing when the key is there. *)
Definition dinsert (k : K) (v : V) (m : dict K V) : dict K V :=
  match dget k m with Some _ => m | None => dset k v m end.

(** [m.erase(k)]. *)
Fixpoint derase (k : K) (m : dict K V) : dict K V :=
  match m with
  | [] => []
  | (k', v) :: m => if decide (k = k') then m else (k', v) :: derase k m
  end.

Lemma dget_dset k v m : dget k (dset k v m) = Some v.
Proof.
  induction m as [|[k' v'] m IH]; cbn; [by rewrite decide_True|].
  destruct (klt k k') eqn:E; cbn; [by rewrite decide_True|].
  destruct (decide (k = k')) as [->|]; cbn; [by rewrite decide_True|].
  by rewrite decide_False.
Qed.

Lemma dget_dset_ne k k1 v m : k1 ≠ k → dget k1 (dset k v m) = dget k1 m.
Proof.
  intros Hne. induction m as [|[k' v'] m IH]; cbn; [by rewrite decide_False|].
  destruct (klt k k') eqn:E; cbn; [by rewrite decide_False|].
  destruct (decide (k = k')) as [<-|]; cbn; [by rewrite !decide_False|].
  destruct (decide (k1 = k')); [done|exact IH].
Qed.

Lemma dget_dinsert k k1 v m :
  dget k1 (dinsert k v m) =
    if decide (k1 = k) then Some (default v (dget k m)) else dget k1 m.
Proof.
  unfold dinsert. destruct (decide (k1 = k)) as [->|]; destruct (dget k m) eqn:E; cbn; try done.
  - apply dget_dset.
  - by apply dget_dset_ne.
Qed.

(** Sorted by key, hence without duplicates. *)
Fixpoint sorted (m : dict K V) : Prop :=
  match m with
  | [] => True
  | (k, _) :: m' => Forall (λ e, klt k e.1 = true) m' ∧ sorted m'
  end.

Lemma dset_Forall k v m (P : K → Prop) :
  P k → Forall (λ e, P e.1) m → Forall (λ e, P e.1) (dset k v m).
Proof.
  intros Hk. induction 1 as [|[k' v'] m He Hm IH]; cbn; [by constructor|].
  destruct (klt k k'); [by repeat constructor|].
  destruct (decide (k = k')); by constructor.
Qed.

Lemma dset_sorted k v m : sorted m → sorted (dset k v m).
Proof.
  induction m as [|[k' v'] m IH]; cbn; [done|]. intros [Hk Hm].
  destruct (klt k k') eqn:E; cbn.
  - split; [|done]. constructor; [done|]. eapply Forall_impl; [exact Hk|].
    intros e He. by eapply klt_trans.
  - destruct (decide (k = k')) as [->|Hne]; cbn; [done|]. split; [|by apply IH].
    apply (dset_Forall k v m (λ x, klt k' x = true)); [|done].
    destruct (klt k' k) eqn:E'; [done|]. exfalso. apply Hne. by apply klt_total.
Qed.

Lemma dget_below k m : Forall (λ e, klt k e.1 = true) m → dget k m = None.
Proof.
  induction 1 as [|[k' v] m He Hm IH]; cbn; [done|]. cbn in He.
  rewrite decide_False; [done|]. intros ->. by rewrite klt_irrefl in He.
Qed.

Lemma dget_derase k k1 m :
  sorted m → dget k1 (derase k m) = if decide (k1 = k) then None else dget k1 m.
Proof.
  induction m as [|[k' v] m IH]; cbn; [by destruct (decide _)|]. intros [Hk Hm].
  destruct (decide (k = k')) as [->|Hne].
  - destruct (decide (k1 = k')) as [->|]; [|done]. by apply dget_below.
  - cbn. rewrite IH by done. destruct (decide (k1 = k')) as [->|]; [|done].
    by rewrite decide_False.
Qed.

Lemma derase_Forall k m (P : K → Prop) :
  Forall (λ e, P e.1) m → Forall (λ e, P e.1) (derase k m).
Proof.
  induction 1 as [|[k' v'] m He Hm IH]; cbn; [done|].
  destruct (decide (k = k')); [done|by constructor].
Qed.

Lemma derase_sorted k m : sorted m → sorted (derase k m).
Proof.
  induction m as [|[k' v'] m IH]; cbn; [done|]. intros [Hk Hm].
  destruct (decide (k = k')); [done|]. split; [|by apply IH].
  by apply (derase_Forall k m (λ x, klt k' x = true)).
Qed.

(** Two sorted maps with the same entries are the same list. *)
Lemma sorted_ext m1 m2 :
  sorted m1 → sorted m2 → (∀ k, dget k m1 = dget k m2) → m1 = m2.
Proof.
  revert m2. induction m1 as [|[k1 v1] m1 IH]; intros [|[k2 v2] m2]; cbn; intros H1 H2 H.
  - done.
  - specialize (H k2). by rewrite decide_True in H.
  - specialize (H k1). by rewrite decide_True in H.
  - destruct H1 as [H1 S1], H2 as [H2 S2].
    assert (k1 = k2) as <-.
    { destruct (decide (k1 = k2)) as [|Hne]; [done|].
      apply klt_total.
      - destruct (klt k1 k2) eqn:E; [|done]. specialize (H k1).
        rewrite decide_True, decide_False in H by done. rewrite dget_below in H; [done|].
        eapply Forall_impl; [exact H2|]. intros e He. by eapply klt_trans.
      - destruct (klt k2 k1) eqn:E; [|done]. specialize (H k2).
        rewrite decide_False, decide_True in H by done. rewrite dget_below in H; [done|].
        eapply Forall_impl; [exact H1|]. intros e He. by eapply klt_trans. }
    pose proof (H k1) as Hk. rewrite !decide_True in Hk by done. injection Hk as <-. f_equal.
    apply IH; [done..|]. intros k. destruct (decide (k = k1)) as [->|Hne].
    + by rewrite !dget_below.
    + specialize (H k). by rewrite !decide_False in H.
Qed.
End Dict.

(** Lexicographic order on bytes, as [std::char_traits<char>] compares. *)
Fixpoint str_lt (a b : str) : bool :=
  match a, b with
  | _, [] => false
  | [], _ :: _ => true
  | x :: a, y :: b =>
      if (code x <? code y)%N then true
      else if decide (x = y) then str_lt a b else false
  end.

Lemma code_inj a b : code a = code b → a = b.
Proof.
  intros H. apply (f_equal ascii_of_N) in H. unfold code in H. by rewrite !ascii_N_embedding in H.
Qed.

#[global] Program Instance str_key : OrdKey str := {| klt := str_lt |}.
Next Obligation.
  induction a as [|x a IH]; cbn; [done|]. rewrite N.ltb_irrefl. by rewrite decide_True.
Qed.
Next Obligation.
  induction a as [|x a IH]; intros [|y b] [|z c]; cbn; try done.
  destruct (N.ltb_spec (code x) (code y)); destruct (N.ltb_spec (code y) (code z));
    destruct (N.ltb_spec (code x) (code z)); try done; try lia;
    repeat destruct (decide _); subst; try done; try lia; by apply IH.
Qed.
Next Obligation.
  induction a as [|x a IH]; intros [|y b]; cbn; try done.
  destruct (N.ltb_spec (code x) (code y)); [done|].
  destruct (N.ltb_spec (code y) (code x)); [done|].
  assert (x = y) as -> by (apply code_inj; lia). rewrite !decide_True by done.
  intros. f_equal. by apply IH.
Qed.

End CStr.
