(* ===== verification/HttpMessage.v ===== *)
(** * HTTP messages

    [src/include/http_message.hh] and [src/http_message.cc]: the three
    enumerations and their tables, the message with its headers, the request
    with its parser and printer, the response with its printer. *)

From stdpp Require Import pretty.
From S2P Require Import Prelude CStr.
Import CStr.

(** The enumerations, each in a module of its own as [enum class] is a scope. *)
Module HttpMethod.
Inductive HttpMethod := GET | HEAD | POST | PUT | DELETE | CONNECT | OPTIONS | TRACE | PATCH.
#[global] Instance HttpMethod_eq_dec : EqDecision HttpMethod.
Proof. solve_decision. Defined.
End HttpMethod.

Module HttpVersion.
Inductive HttpVersion := HTTP_0_9 | HTTP_1_0 | HTTP_1_1 | HTTP_2_0.
#[global] Instance HttpVersion_eq_dec : EqDecision HttpVersion.
Proof. solve_decision. Defined.
End HttpVersion.

Module HttpStatusCode.
Inductive HttpStatusCode :=
| Continue | SwitchingProtocols | EarlyHints
| Ok | Created | Accepted | NonAuthoritativeInformation | NoContent | ResetContent
| ParticalContent
| MultipleChoices | MovedPermanently | Found | NotModified
| BadRequest | UnAuthorized | Forbidden | NotFound | MethodNotAllowed | RequestTimeout
| ImATeapot
| InternalServerError | NotImplemented | BadGateway | ServiceUnavailable | GatewayTimeout
| HttpVersionNotSupported.
#[global] Instance HttpStatusCode_eq_dec : EqDecision HttpStatusCode.
Proof. solve_decision. Defined.

(** [static_cast<int>]. *)
Definition value (s : HttpStatusCode) : Z :=
  match s with
  | Continue => 100 | SwitchingProtocols => 101 | EarlyHints => 103
  | Ok => 200 | Created => 201 | Accepted => 202 | NonAuthoritativeInformation => 203
  | NoContent => 204 | ResetContent => 205 | ParticalContent => 206
  | MultipleChoices => 300 | MovedPermanently => 301 | Found => 302 | NotModified => 304
  | BadRequest => 400 | UnAuthorized => 401 | Forbidden => 403 | NotFound => 404
  | MethodNotAllowed => 405 | RequestTimeout => 408 | ImATeapot => 418
  | InternalServerError => 500 | NotImplemented => 501 | BadGateway => 502
  | ServiceUnavailable => 503 | GatewayTimeout => 504 | HttpVersionNotSupported => 505
  end.
End HttpStatusCode.

Module HttpMessage.
Export HttpMethod(HttpMethod).
Export HttpVersion(HttpVersion).
Export HttpStatusCode(HttpStatusCode).

Definition all_methods : list HttpMethod :=
  [HttpMethod.GET; HttpMethod.HEAD; HttpMethod.POST; HttpMethod.PUT; HttpMethod.DELETE;
   HttpMethod.CONNECT; HttpMethod.OPTIONS; HttpMethod.TRACE; HttpMethod.PATCH].

Definition MethodToString (m : HttpMethod) : str :=
  match m with
  | HttpMethod.GET => lit "GET"
  | HttpMethod.HEAD => lit "HEAD"
  | HttpMethod.POST => lit "POST"
  | HttpMethod.PUT => lit "PUT"
  | HttpMethod.DELETE => lit "DELETE"
  | HttpMethod.CONNECT => lit "CONNECT"
  | HttpMethod.OPTIONS => lit "OPTIONS"
  | HttpMethod.TRACE => lit "TRACE"
  | HttpMethod.PATCH => lit "PATCH"
  end.

Definition VersionToString (v : HttpVersion) : str :=
  match v with
  | HttpVersion.HTTP_0_9 => lit "HTTP/0.9"
  | HttpVersion.HTTP_1_0 => lit "HTTP/1.0"
  | HttpVersion.HTTP_1_1 => lit "HTTP/1.1"
  | HttpVersion.HTTP_2_0 => lit "HTTP/2.0"
  end.

Definition StatusCodeToString (s : HttpStatusCode) : str :=
  match s with
  | HttpStatusCode.Continue => lit "Continue"
  | HttpStatusCode.Ok => lit "OK"
  | HttpStatusCode.Accepted => lit "Accepted"
  | HttpStatusCode.MovedPermanently => lit "Moved Permanently"
  | HttpStatusCode.Found => lit "Found"
  | HttpStatusCode.BadRequest => lit "Bad Request"
  | HttpStatusCode.Forbidden => lit "Forbidden"
  | HttpStatusCode.NotFound => lit "Not Found"
  | HttpStatusCode.MethodNotAllowed => lit "Method Not Allowed"
  | HttpStatusCode.ImATeapot => lit "I'm a Teapot"
  | HttpStatusCode.InternalServerError => lit "Internal Server Error"
  | HttpStatusCode.NotImplemented => lit "Not Implemented"
  | HttpStatusCode.BadGateway => lit "Bad Gateway"
  | _ => []
  end.

(** The [if]/[else if] chain over the upper-cased argument. *)
Definition MethodFromString (method : str) : outcome HttpMethod :=
  let upper_case := toupper <$> method in
  if decide (upper_case = lit "GET") then Ok HttpMethod.GET
  else if decide (upper_case = lit "HEAD") then Ok HttpMethod.HEAD
  else if decide (upper_case = lit "POST") then Ok HttpMethod.POST
  else if decide (upper_case = lit "PUT") then Ok HttpMethod.PUT
  else if decide (upper_case = lit "DELETE") then Ok HttpMethod.DELETE
  else if decide (upper_case = lit "CONNECT") then Ok HttpMethod.CONNECT
  else if decide (upper_case = lit "OPTIONS") then Ok HttpMethod.OPTIONS
  else if decide (upper_case = lit "TRACE") then Ok HttpMethod.TRACE
  else if decide (upper_case = lit "PATCH") then Ok HttpMethod.PATCH
  else Throw (invalid_argument "[MethodFromString] invalid method").

Definition VersionFromString (version : str) : outcome HttpVersion :=
  let upper := toupper <$> version in
  if decide (upper = lit "HTTP/0.9") then Ok HttpVersion.HTTP_0_9
  else if decide (upper = lit "HTTP/1.0") then Ok HttpVersion.HTTP_1_0
  else if decide (upper = lit "HTTP/1.1") then Ok HttpVersion.HTTP_1_1
  else if decide (upper = lit "HTTP/2.0") then Ok HttpVersion.HTTP_2_0
  else Throw (invalid_argument "[VersionFromString] invalid version").

(** ** The message *)

Record HttpMessageInterface := mkMessage {
  version_ : HttpVersion;
  headers_ : dict str str;
  content_ : str }.

Definition HttpMessageInterface_new : HttpMessageInterface := mkMessage HttpVersion.HTTP_1_0 [] [].

Definition SetContentLength (m : HttpMessageInterface) : HttpMessageInterface :=
  mkMessage (version_ m)
    (dset (lit "Content-Length") (to_string (Z.of_nat (length (content_ m)))) (headers_ m))
    (content_ m).
Definition SetVersion (v : HttpVersion) (m : HttpMessageInterface) : HttpMessageInterface :=
  mkMessage v (headers_ m) (content_ m).
Definition SetContent (content : str) (m : HttpMessageInterface) : HttpMessageInterface :=
  SetContentLength (mkMessage (version_ m) (headers_ m) content).
Definition SetHeaders (key val : str) (m : HttpMessageInterface) : HttpMessageInterface :=
  SetContentLength (mkMessage (version_ m) (dset key val (headers_ m)) (content_ m)).
Definition RemoveHeader (key : str) (m : HttpMessageInterface) : HttpMessageInterface :=
  mkMessage (version_ m) (derase key (headers_ m)) (content_ m).
Definition GetHeader (key : str) (m : HttpMessageInterface) : str :=
  default [] (dget key (headers_ m)).

(** ** The request *)

Record HttpRequest := mkRequest {
  req_base : HttpMessageInterface;
  method_ : HttpMethod;
  path_ : str }.

Definition HttpRequest_new : HttpRequest :=
  mkRequest HttpMessageInterface_new HttpMethod.GET [].

Definition on_base (f : HttpMessageInterface → HttpMessageInterface) (r : HttpRequest) : HttpRequest :=
  mkRequest (f (req_base r)) (method_ r) (path_ r).
Definition SetMethod (m : HttpMethod) (r : HttpRequest) : HttpRequest :=
  mkRequest (req_base r) m (path_ r).
Definition SetPath (p : str) (r : HttpRequest) : HttpRequest :=
  mkRequest (req_base r) (method_ r) p.

(** [PathToLower]. *)
Definition PathToLower (r : HttpRequest) : HttpRequest := SetPath (tolower <$> path_ r) r.

(** [HttpRequest::ToString]: a space, not a colon, between key and value. *)
Definition HttpRequest_ToString (r : HttpRequest) : str :=
  MethodToString (method_ r) ++ lit " " ++ path_ r ++ lit " " ++
  VersionToString (version_ (req_base r)) ++ crlf ++
  concat ((λ h, h.1 ++ lit " " ++ h.2 ++ crlf) <$> headers_ (req_base r)) ++
  crlf ++ content_ (req_base r).

(** One header line: key and value are cut at the first colon and stripped of
    all white space.  Without a colon [pos] is [npos], so the key is the whole
    line, and [npos + 1] wraps to 0, so the value is the whole line too. *)
Definition header_line (line : str) : outcome (str * str) :=
  let pos := find (lit ":") line 0 in
  key ← substr line 0 pos;
  val ← substr line (match pos with Some p => p + 1 | None => 0 end) None;
  mret (remove_spaces key, remove_spaces val).

Fixpoint header_lines (l : list str) : M HttpRequest unit :=
  match l with
  | [] => mret tt
  | line :: l =>
      '(key, val) ← lift (header_line line);
      modify (on_base (SetHeaders key val));;
      header_lines l
  end.

(** Cutting the request into start line, header lines and body. *)
Definition split_request (request : str) : outcome (str * str * str) :=
  match find crlf request 0 with
  | None => Throw (invalid_argument
      "[HttpRequest::FromString] cannot find start line in request message")
  | Some curr_pos =>
      start_line ← substr request 0 (Some curr_pos);
      let prev_pos := curr_pos + 2 in
      match find (crlf ++ crlf) request prev_pos with
      | None => mret (start_line, [], [])
      | Some curr_pos =>
          headers ← substr request prev_pos (Some (curr_pos - prev_pos));
          let prev_pos := curr_pos + 4 in
          if decide (prev_pos < length request) then
            body ← substr request prev_pos None;
            mret (start_line, headers, body)
          else mret (start_line, headers, [])
      end
  end.

(** [ss >> method >> path_ >> version]: an extraction that fails leaves its
    variable as it was, and the ones after it fail too. *)
Definition start_line_fields (path0 start_line : str) : str * str * str :=
  match extract start_line with
  | None => ([], path0, [])
  | Some (method, rest) =>
      match extract rest with
      | None => (method, path0, [])
      | Some (path, rest) =>
          match extract rest with
          | None => (method, path, [])
          | Some (version, _) => (method, path, version)
          end
      end
  end.

Definition supported (v : HttpVersion) : bool :=
  match v with
  | HttpVersion.HTTP_0_9 | HttpVersion.HTTP_1_0 | HttpVersion.HTTP_1_1 => true
  | _ => false
  end.

Definition FromString (request : str) : M HttpRequest unit :=
  '(start_line, headers, body) ← lift (split_request request);
  r ← get;
  let '(method, path, version) := start_line_fields (path_ r) start_line in
  modify (SetPath path);;
  m ← lift (MethodFromString method);
  modify (SetMethod m);;
  v ← lift (VersionFromString version);
  modify (on_base (SetVersion v));;
  if negb (supported v)
  then raise (logic_error "[HttpRequest::FromString] http version not support")
  else
    header_lines (lines headers);;
    modify (on_base (SetContent body)).

(** ** The response *)

Record HttpResponse := mkResponse {
  res_base : HttpMessageInterface;
  status_code_ : HttpStatusCode }.

Definition HttpResponse_new (code : HttpStatusCode) : HttpResponse :=
  mkResponse HttpMessageInterface_new code.
Definition on_res (f : HttpMessageInterface → HttpMessageInterface) (r : HttpResponse) : HttpResponse :=
  mkResponse (f (res_base r)) (status_code_ r).
Definition SetStatusCode (c : HttpStatusCode) (r : HttpResponse) : HttpResponse :=
  mkResponse (res_base r) c.

Definition HttpResponse_ToString (r : HttpResponse) (send_content : bool) : str :=
  VersionToString (version_ (res_base r)) ++ lit " " ++
  to_string (HttpStatusCode.value (status_code_ r)) ++ lit " " ++
  StatusCodeToString (status_code_ r) ++ crlf ++
  concat ((λ h, h.1 ++ lit ": " ++ h.2 ++ crlf) <$> headers_ (res_base r)) ++
  crlf ++
  (if send_content then content_ (res_base r) ++ crlf else []).

Definition nl : str := [lf].
Definition page_404 : str :=
  lit "<html>" ++ nl ++
  lit "<head><title>404 Not Found</title></head>" ++ nl ++
  lit "<body>" ++ nl ++
  lit "<h1>Not Found</h1>" ++ nl ++
  lit "<p>The requested URL was not found on this server.</p>" ++ nl ++
  lit "<hr>" ++ nl ++
  lit "<address>CustomServer/1.0 Server</address>" ++ nl ++
  lit "</body>" ++ nl ++
  lit "</html>".

(** [now] is what [GetCurrentTime()] returns. *)
Definition Create404Response (now : str) : HttpResponse :=
  let res := HttpResponse_new HttpStatusCode.Ok in
  let res := on_res (SetHeaders (lit "Data") now) res in
  let res := on_res (SetHeaders (lit "Server") (lit "CustomServer/1.0")) res in
  let res := on_res (SetHeaders (lit "Content-Type") (lit "text/html; charset=UTF-8")) res in
  let res := on_res (SetHeaders (lit "Connection") (lit "close")) res in
  on_res (SetContent page_404) res.

End HttpMessage.
