(* ===== verification/HttpMessageProps.v ===== *)
(** * Properties of the HTTP messages

    The parser on well-formed requests, on requests without headers and on any
    input; printing and parsing back; the length headers. *)

From stdpp Require Import pretty.
From S2P Require Import Prelude CStr HttpMessage.
Import CStr HttpMessage.

Module HttpMessageProps.

(** ** The tables *)

(** The method and version tables: parsing is case-insensitive and inverts
    printing; every other string is refused with [std::invalid_argument]. *)
Theorem MethodFromString_spec s :
  (∀ m, MethodFromString s = Ok m ↔ toupper <$> s = MethodToString m) ∧
  (∀ v, VersionFromString s = Ok v ↔ toupper <$> s = VersionToString v) ∧
  ((∀ m, toupper <$> s ≠ MethodToString m) →
    MethodFromString s = Throw (invalid_argument "[MethodFromString] invalid method")) ∧
  ((∀ v, toupper <$> s ≠ VersionToString v) →
    VersionFromString s = Throw (invalid_argument "[VersionFromString] invalid version")).
Proof.
  unfold MethodFromString, VersionFromString. generalize (toupper <$> s). clear s. intros u.
  split_and!.
  - intros m. repeat (destruct (decide _) as [->|?]; [destruct m; split; intros; done|]).
    split; [done|]. by destruct m.
  - intros v. repeat (destruct (decide _) as [->|?]; [destruct v; split; intros; done|]).
    split; [done|]. by destruct v.
  - intros Hn. pose proof (Hn HttpMethod.GET). pose proof (Hn HttpMethod.HEAD).
    pose proof (Hn HttpMethod.POST). pose proof (Hn HttpMethod.PUT).
    pose proof (Hn HttpMethod.DELETE). pose proof (Hn HttpMethod.CONNECT).
    pose proof (Hn HttpMethod.OPTIONS). pose proof (Hn HttpMethod.TRACE).
    pose proof (Hn HttpMethod.PATCH). by rewrite !decide_False.
  - intros Hn. pose proof (Hn HttpVersion.HTTP_0_9). pose proof (Hn HttpVersion.HTTP_1_0).
    pose proof (Hn HttpVersion.HTTP_1_1). pose proof (Hn HttpVersion.HTTP_2_0).
    by rewrite !decide_False.
Qed.

Lemma MethodFromString_spec_witness :
  MethodFromString (lit "fetch") = Throw (invalid_argument "[MethodFromString] invalid method").
Proof.
  apply (proj1 (proj2 (proj2 (MethodFromString_spec (lit "fetch"))))).
  intros []; vm_compute; congruence.
Defined.

Lemma MethodFromString_ToString m : MethodFromString (MethodToString m) = Ok m.
Proof. by destruct m. Qed.

Lemma VersionFromString_ToString v : VersionFromString (VersionToString v) = Ok v.
Proof. by destruct v. Qed.

Lemma MethodToString_spaceless m : MethodToString m ≠ [] ∧ spaceless (MethodToString m).
Proof. destruct m; (split; [done|]); repeat constructor. Qed.

Lemma VersionToString_spaceless v : VersionToString v ≠ [] ∧ spaceless (VersionToString v).
Proof. destruct v; (split; [done|]); repeat constructor. Qed.

(** ** Cutting a request *)

Lemma spaceless_no_cr s : spaceless s → cr ∉ s.
Proof.
  intros Hs Hin. unfold spaceless in Hs. rewrite Forall_forall in Hs. by specialize (Hs _ Hin).
Qed.

(** Text without the first character of the pattern is skipped. *)
Lemma find_here_advance c p l s :
  c ∉ l → find_here (c :: p) (l ++ s) = Nat.add (length l) <$> find_here (c :: p) s.
Proof.
  induction l as [|x l IH]; cbn [app length]; intros Hc.
  - rewrite <- (option_fmap_id (find_here (c :: p) s)) at 1. by apply option_fmap_ext.
  - cbn [find_here]. destruct (decide _) as [Hp|_].
    + exfalso. apply Hc. apply prefix_cons_inv_1 in Hp as ->. by left.
    + rewrite IH by (intros ?; apply Hc; by right). by destruct (find_here (c :: p) s).
Qed.

Lemma find_here_first p s : find_here p (p ++ s) = Some 0.
Proof.
  destruct (p ++ s) eqn:E; cbn; rewrite decide_True; try done; rewrite <- E; by eexists.
Qed.

(** The lines of a header block: no carriage return, none empty. *)
Definition header_ok (l : str) : Prop := l ≠ [] ∧ (cr ∉ l) ∧ (lf ∉ l).

(** Lines separated by [\r\n]. *)
Fixpoint join (ls : list str) : str :=
  match ls with
  | [] => []
  | [l] => l
  | l :: ls => l ++ crlf ++ join ls
  end.

Lemma join_cons l l' ls : join (l :: l' :: ls) = l ++ crlf ++ join (l' :: ls).
Proof. done. Qed.

(** The blank line is the first empty one. *)
Lemma find_blank ls body :
  ls ≠ [] → Forall header_ok ls →
  find_here (crlf ++ crlf) (join ls ++ crlf ++ crlf ++ body) = Some (length (join ls)).
Proof.
  intros Hne. induction 1 as [|l ls (Hl & Hcr & Hlf) Hls IH]; [done|].
  destruct ls as [|l' ls].
  - cbn [join]. change (crlf ++ crlf) with (cr :: lf :: crlf) at 1.
    rewrite find_here_advance by done.
    change (cr :: lf :: crlf) with (crlf ++ crlf). rewrite (app_assoc crlf crlf body), find_here_first.
    cbn. by rewrite Nat.add_0_r.
  - specialize (IH ltac:(done)). rewrite join_cons, <- !app_assoc.
    change (crlf ++ crlf) with (cr :: lf :: crlf) at 1. rewrite find_here_advance by done.
    change (crlf ++ join (l' :: ls) ++ crlf ++ crlf ++ body)
      with (cr :: [lf] ++ join (l' :: ls) ++ crlf ++ crlf ++ body).
    cbn [find_here]. destruct (decide _) as [[k Hk]|_].
    { exfalso. inversion Hls as [|? ? (Hl' & Hcr' & _) _]; subst. destruct l' as [|c l']; [done|].
      destruct ls; cbn in Hk; injection Hk as Hc _; apply Hcr'; rewrite Hc; by left. }
    rewrite find_here_advance by (rewrite list_elem_of_singleton; done).
    change (cr :: lf :: crlf) with (crlf ++ crlf). rewrite IH. cbn. f_equal.
    rewrite !length_app. cbn. lia.
Qed.

(** The lines [getline] finds in a header block: all but the last keep their
    carriage return. *)
Fixpoint with_cr (ls : list str) : list str :=
  match ls with
  | [] => []
  | [l] => [l]
  | l :: ls => (l ++ [cr]) :: with_cr ls
  end.

Lemma lines_join ls : Forall header_ok ls → lines (join ls) = with_cr ls.
Proof.
  induction 1 as [|l ls (Hl & Hcr & Hlf) Hls IH]; [done|]. destruct ls as [|l' ls].
  - by apply (lines_from_last []).
  - rewrite join_cons. change (l ++ crlf ++ join (l' :: ls)) with (l ++ [cr] ++ lf :: join (l' :: ls)).
    rewrite app_assoc. unfold lines. rewrite lines_from_cons.
    + cbn [app with_cr]. f_equal. exact IH.
    + intros [?|?%list_elem_of_singleton]%elem_of_app; done.
Qed.

Lemma split_request_lines start ls body :
  cr ∉ start → ls ≠ [] → Forall header_ok ls →
  split_request (start ++ crlf ++ join ls ++ crlf ++ crlf ++ body) = Ok (start, join ls, body).
Proof.
  intros Hs Hne Hls. set (req := start ++ _). unfold split_request.
  assert (find crlf req 0 = Some (length start)) as ->.
  { rewrite find_0. unfold req. change crlf with [cr; lf] at 1. rewrite find_here_advance by done.
    change [cr; lf] with crlf. rewrite find_here_first. cbn. by rewrite Nat.add_0_r. }
  assert (length req = length start + 2 + length (join ls) + 4 + length body) as Hlen.
  { unfold req. rewrite !length_app. change (length crlf) with 2. lia. }
  assert (drop (length start + 2) req = join ls ++ crlf ++ crlf ++ body) as Hd.
  { unfold req. by rewrite <- drop_drop, drop_app_length. }
  rewrite substr_ok by lia. cbn [mbind outcome_bind].
  rewrite drop_0. replace (take (length start) req) with start by (unfold req; by rewrite take_app_length).
  unfold find. rewrite decide_True by lia. rewrite Hd, find_blank by done.
  cbn [fmap option_fmap option_map].
  rewrite (substr_ok req (length start + 2)) by lia. cbn [mbind outcome_bind].
  replace (length start + 2 + length (join ls) - (length start + 2)) with (length (join ls)) by lia.
  rewrite Hd, take_app_length.
  destruct (decide _) as [|Hb].
  - rewrite substr_ok by lia. cbn [mbind outcome_bind].
    rewrite <- (Nat.add_assoc (length start + 2)), <- drop_drop, Hd, <- drop_drop, drop_app_length. done.
  - destruct body; [done|]. cbn in Hlen, Hb. lia.
Qed.

Lemma start_line_fields_ok p0 m path v :
  path ≠ [] → spaceless path →
  start_line_fields p0 (MethodToString m ++ lit " " ++ path ++ lit " " ++ VersionToString v)
    = (MethodToString m, path, VersionToString v).
Proof.
  intros Hne Hp. destruct (MethodToString_spaceless m) as [Hm1 Hm2].
  destruct (VersionToString_spaceless v) as [Hv1 Hv2]. unfold start_line_fields.
  change (lit " ") with [" "%char]. cbn [app]. rewrite extract_cons by done.
  rewrite extract_space, extract_cons by done. by rewrite extract_space, extract_last.
Qed.

Definition start_line (m : HttpMethod) (path : str) (v : HttpVersion) : str :=
  MethodToString m ++ lit " " ++ path ++ lit " " ++ VersionToString v.

Lemma start_line_no_cr m path v : spaceless path → cr ∉ start_line m path v.
Proof.
  intros Hp. unfold start_line. rewrite !elem_of_app.
  pose proof (spaceless_no_cr _ (proj2 (MethodToString_spaceless m))).
  pose proof (spaceless_no_cr _ (proj2 (VersionToString_spaceless v))).
  pose proof (spaceless_no_cr _ Hp).
  assert (cr ∉ lit " ") by (intros Hc; by apply list_elem_of_singleton in Hc). tauto.
Qed.

(** ** Header lines *)

(** What a run of header lines does to the request. *)
Definition parse_line (line : str) : str * str :=
  match header_line line with Ok kv => kv | _ => ([], []) end.

Lemma header_line_total line : header_line line = Ok (parse_line line).
Proof.
  unfold parse_line, header_line. rewrite find_0, (substr_ok line 0) by lia. cbn [mbind outcome_bind].
  destruct (find_here _ _) as [p|] eqn:Eq; [|by rewrite substr_ok by lia]. unfold substr.
  - apply find_here_Some in Eq. pose proof (f_equal length Eq) as Hl.
    rewrite !length_app, length_take in Hl. change (length (lit ":")) with 1 in Hl. rewrite decide_False; [done|]. lia.
Qed.

Definition set_header (r : HttpRequest) (kv : str * str) : HttpRequest :=
  on_base (SetHeaders kv.1 kv.2) r.

Lemma header_lines_total ls r :
  header_lines ls r = (Ok tt, foldl set_header r (parse_line <$> ls)).
Proof.
  revert r. induction ls as [|l ls IH]; intros r; cbn [header_lines]; [done|].
  rewrite header_line_total. mgo. destruct (parse_line l) as [k v] eqn:E. mgo.
  rewrite IH. cbn. by rewrite E.
Qed.

Lemma parse_line_colon a b :
  ":"%char ∉ a → parse_line (a ++ ":"%char :: b) = (remove_spaces a, remove_spaces b).
Proof.
  intros Ha. unfold parse_line, header_line. rewrite find_0. change (lit ":") with [":"%char].
  rewrite find_here_advance by done.
  rewrite (find_here_first [":"%char] b : find_here [":"%char] (":"%char :: b) = Some 0). cbn [fmap option_fmap option_map].
  rewrite !substr_ok by (rewrite length_app; cbn; lia). cbn [mbind outcome_bind].
  rewrite drop_0, Nat.add_0_r, take_app_length, <- drop_drop, drop_app_length. done.
Qed.

Lemma parse_line_plain l :
  ":"%char ∉ l → parse_line l = (remove_spaces l, remove_spaces l).
Proof.
  intros Hl. unfold parse_line, header_line. rewrite find_0, find_here_None.
  - by rewrite !substr_ok by lia.
  - done.
  - intros a b ->. apply Hl. rewrite !elem_of_app. right; left. by left.
Qed.

Lemma remove_spaces_cr l : remove_spaces (l ++ [cr]) = remove_spaces l.
Proof. rewrite remove_spaces_app. cbn. apply app_nil_r. Qed.

Lemma parse_line_cr l : parse_line (l ++ [cr]) = parse_line l.
Proof.
  destruct (decide (":"%char ∈ l)) as [Hin|Hin].
  - apply list_elem_of_split_l in Hin as (a & b & -> & Ha).
    rewrite <- app_assoc. cbn [app]. rewrite !parse_line_colon by done. by rewrite remove_spaces_cr.
  - rewrite !parse_line_plain, remove_spaces_cr; [done..|].
    intros [|Hc%list_elem_of_singleton]%elem_of_app; done.
Qed.

Lemma parse_with_cr ls : parse_line <$> with_cr ls = parse_line <$> ls.
Proof.
  induction ls as [|l ls IH]; [done|]. destruct ls as [|l' ls]; [done|].
  cbn [with_cr fmap list_fmap] in *. rewrite parse_line_cr. f_equal. exact IH.
Qed.

(** ** Parsing well-formed requests *)

Definition CL : str := lit "Content-Length".

Lemma FromString_lines m path v ls body r :
  path ≠ [] → spaceless path → supported v = true → ls ≠ [] → Forall header_ok ls →
  FromString (start_line m path v ++ crlf ++ join ls ++ crlf ++ crlf ++ body) r
    = (Ok tt, on_base (SetContent body)
        (foldl set_header (mkRequest (SetVersion v (req_base r)) m path) (parse_line <$> ls))).
Proof.
  intros Hp1 Hp2 Hv Hne Hls. unfold FromString.
  rewrite split_request_lines by (done || by apply start_line_no_cr). mgo.
  unfold start_line. rewrite start_line_fields_ok by done. mgo.
  rewrite MethodFromString_ToString. mgo. rewrite VersionFromString_ToString. mgo.
  rewrite Hv. cbn [negb]. rewrite lines_join by done.
  rewrite (bind_ok _ _ _ _ _ (header_lines_total _ _)), parse_with_cr. done.
Qed.

(** The value a sequence of assignments leaves under a key. *)
Definition last_value (k : str) (kvs : list (str * str)) (old : option str) : option str :=
  foldl (λ acc kv, if decide (k = kv.1) then Some kv.2 else acc) old kvs.

Lemma set_headers_spec kvs r :
  let r' := foldl set_header r kvs in
  method_ r' = method_ r ∧ path_ r' = path_ r ∧ version_ (req_base r') = version_ (req_base r) ∧
  content_ (req_base r') = content_ (req_base r) ∧
  ∀ k, k ≠ CL → dget k (headers_ (req_base r')) = last_value k kvs (dget k (headers_ (req_base r))).
Proof.
  revert r. induction kvs as [|[k0 v0] kvs IH]; intros r; [done|]. cbn [foldl].
  destruct (IH (set_header r (k0, v0))) as (-> & -> & -> & -> & Hd). cbn.
  split_and!; [done..|]. intros k Hk. rewrite Hd by done. unfold last_value. f_equal. cbn.
  rewrite dget_dset_ne by done. destruct (decide (k = k0)) as [->|].
  - by rewrite dget_dset.
  - by rewrite dget_dset_ne.
Qed.

Lemma SetContent_spec body r k :
  let r' := on_base (SetContent body) r in
  method_ r' = method_ r ∧ path_ r' = path_ r ∧ version_ (req_base r') = version_ (req_base r) ∧
  content_ (req_base r') = body ∧
  dget k (headers_ (req_base r')) =
    if decide (k = CL) then Some (to_string (Z.of_nat (length body)))
    else dget k (headers_ (req_base r)).
Proof.
  intros r'. split_and!; [done..|]. destruct (decide (k = CL)) as [->|].
  - apply dget_dset.
  - by apply dget_dset_ne.
Qed.

(** A request as RFC 9112 writes it. *)
Definition render (m : HttpMethod) (path : str) (v : HttpVersion) (hs : list (str * str)) (body : str) : str :=
  start_line m path v ++ crlf ++
  concat ((λ h, h.1 ++ lit ": " ++ h.2 ++ crlf) <$> hs) ++ crlf ++ body.

Lemma concat_lines (f : str * str → str) hs :
  hs ≠ [] → concat ((λ h, f h ++ crlf) <$> hs) = join (f <$> hs) ++ crlf.
Proof.
  induction hs as [|h hs IH]; [done|]. intros _. destruct hs as [|h' hs].
  - cbn. by rewrite app_nil_r.
  - cbn [fmap list_fmap concat] in *. rewrite IH by done. rewrite join_cons, <- !app_assoc. done.
Qed.

(** A key is a run of visible characters without a colon; a value is a line. *)
Definition field_ok (h : str * str) : Prop :=
  spaceless h.1 ∧ (":"%char ∉ h.1) ∧ (cr ∉ h.2) ∧ (lf ∉ h.2).

#[global] Instance field_ok_dec h : Decision (field_ok h).
Proof. unfold field_ok. apply _. Defined.

Lemma spaceless_no_lf s : spaceless s → lf ∉ s.
Proof.
  intros Hs Hin. unfold spaceless in Hs. rewrite Forall_forall in Hs. by specialize (Hs _ Hin).
Qed.

Lemma field_header_ok h : field_ok h → header_ok (h.1 ++ lit ": " ++ h.2).
Proof.
  intros (Hs & _ & Hcr & Hlf). split; [by destruct h as [[] []]|].
  pose proof (spaceless_no_cr _ Hs). pose proof (spaceless_no_lf _ Hs).
  assert (∀ c, c = cr ∨ c = lf → c ∉ lit ": ") as Hsep.
  { intros c Hc Hin. change (lit ": ") with [":"%char; " "%char] in Hin.
    apply elem_of_cons in Hin as [->|Hin%list_elem_of_singleton]; [by destruct Hc|].
    subst. by destruct Hc. }
  pose proof (Hsep cr). pose proof (Hsep lf). rewrite !elem_of_app. tauto.
Qed.

Lemma parse_field h : field_ok h → parse_line (h.1 ++ lit ": " ++ h.2) = (h.1, remove_spaces h.2).
Proof.
  intros (Hs & Hc & _). change (lit ": " ++ h.2) with (":"%char :: " "%char :: h.2).
  rewrite parse_line_colon by done. by rewrite remove_spaces_id.
Qed.

(** The request that is built, over an object [r]. *)
Definition fields (hs : list (str * str)) : list (str * str) := (λ h, (h.1, remove_spaces h.2)) <$> hs.
Definition request_over (r : HttpRequest) m path v hs (body : str) : HttpRequest :=
  on_base (SetContent body) (foldl set_header (mkRequest (SetVersion v (req_base r)) m path) (fields hs)).

Lemma FromString_request m path v hs body r :
  path ≠ [] → spaceless path → supported v = true → hs ≠ [] → Forall field_ok hs →
  FromString (render m path v hs body) r = (Ok tt, request_over r m path v hs body).
Proof.
  intros Hp1 Hp2 Hv Hne Hhs. set (ls := (λ h, h.1 ++ lit ": " ++ h.2) <$> hs).
  assert (render m path v hs body
    = start_line m path v ++ crlf ++ join ls ++ crlf ++ crlf ++ body) as ->.
  { unfold render. rewrite (app_assoc (join ls)). unfold ls. rewrite <- concat_lines by done.
    f_equal. f_equal. f_equal. f_equal. apply list_fmap_ext. intros i h _. by rewrite <- !app_assoc. }
  rewrite FromString_lines; try done.
  - unfold request_over. do 3 f_equal. unfold ls. rewrite <- list_fmap_compose.
    apply list_fmap_ext. intros i h Hh. cbn. apply parse_field. by eapply Forall_lookup_1.
  - unfold ls. by destruct hs.
  - unfold ls. apply Forall_fmap. eapply Forall_impl; [exact Hhs|]. apply field_header_ok.
Qed.

Lemma request_over_spec r m path v hs body :
  let r' := request_over r m path v hs body in
  method_ r' = m ∧ path_ r' = path ∧ version_ (req_base r') = v ∧ content_ (req_base r') = body ∧
  ∀ k, dget k (headers_ (req_base r')) =
    if decide (k = CL) then Some (to_string (Z.of_nat (length body)))
    else last_value k (fields hs) (dget k (headers_ (req_base r))).
Proof.
  unfold request_over. destruct (set_headers_spec (fields hs) (mkRequest (SetVersion v (req_base r)) m path))
    as (E1 & E2 & E3 & _ & E4). set (r1 := foldl _ _ _) in *.
  pose proof (λ k, SetContent_spec body r1 k) as Hc. cbn zeta in Hc.
  split; [by rewrite (proj1 (Hc CL))|]. split; [by rewrite (proj1 (proj2 (Hc CL)))|].
  split; [by rewrite (proj1 (proj2 (proj2 (Hc CL))))|]. split; [done|]. intros k.
  rewrite (proj2 (proj2 (proj2 (proj2 (Hc k))))). destruct (decide (k = CL)); [done|]. by rewrite E4.
Qed.

(** [C8] Parsing: a well-formed request with at least one header line is parsed
    into its method, path, version and body; every header has the value of its
    last occurrence, without white space, and [Content-Length] is always the
    length of the body, whatever the client sent. *)
Theorem FromString_render m path v hs body r :
  path ≠ [] → spaceless path → supported v = true → hs ≠ [] → Forall field_ok hs →
  ∃ r', FromString (render m path v hs body) r = (Ok tt, r') ∧
    method_ r' = m ∧ path_ r' = path ∧ version_ (req_base r') = v ∧
    content_ (req_base r') = body ∧
    ∀ k, dget k (headers_ (req_base r')) =
      if decide (k = CL) then Some (to_string (Z.of_nat (length body)))
      else last_value k ((λ h, (h.1, remove_spaces h.2)) <$> hs) (dget k (headers_ (req_base r))).
Proof.
  intros Hp1 Hp2 Hv Hne Hhs. exists (request_over r m path v hs body).
  split; [by apply FromString_request|]. apply request_over_spec.
Qed.

Lemma FromString_render_witness :
  ∃ r', FromString (render HttpMethod.POST (lit "/a?x=1") HttpVersion.HTTP_1_1
      [(lit "Host", lit "a b"); (lit "Host", lit "c")] (lit "body")) HttpRequest_new = (Ok tt, r') ∧
    method_ r' = HttpMethod.POST ∧ path_ r' = lit "/a?x=1" ∧
    version_ (req_base r') = HttpVersion.HTTP_1_1 ∧ content_ (req_base r') = lit "body" ∧
    ∀ k, dget k (headers_ (req_base r')) =
      if decide (k = CL) then Some (lit "4")
      else if decide (k = lit "Host") then Some (lit "c") else
      last_value k ((λ h, (h.1, remove_spaces h.2)) <$> [(lit "Host", lit "a b")]) None.
Proof.
  refine (FromString_render HttpMethod.POST (lit "/a?x=1") HttpVersion.HTTP_1_1
    [(lit "Host", lit "a b"); (lit "Host", lit "c")] (lit "body") HttpRequest_new _ _ _ _ _).
  - done.
  - by_decide.
  - done.
  - done.
  - by_decide.
Defined.

(** A request without header lines loses its body: the blank line is only
    looked for after the end of the start line, whose own [\r\n] is then not
    counted. *)
Theorem request_without_headers_loses_body m path v body r :
  path ≠ [] → spaceless path → supported v = true →
  (∀ a b, crlf ++ body ≠ a ++ crlf ++ crlf ++ b) →
  ∃ r', FromString (render m path v [] body) r = (Ok tt, r') ∧
    method_ r' = m ∧ path_ r' = path ∧ version_ (req_base r') = v ∧
    content_ (req_base r') = [] ∧ dget CL (headers_ (req_base r')) = Some (lit "0").
Proof.
  intros Hp1 Hp2 Hv Hb. unfold FromString.
  assert (split_request (render m path v [] body) = Ok (start_line m path v, [], [])) as ->.
  { set (start := start_line m path v). unfold render. fold start. cbn [fmap list_fmap concat app].
    set (req := start ++ _). unfold split_request.
    assert (find crlf req 0 = Some (length start)) as ->.
    { rewrite find_0. unfold req. change crlf with [cr; lf] at 1.
      rewrite find_here_advance by by apply start_line_no_cr. change [cr; lf] with crlf.
      rewrite find_here_first. cbn. by rewrite Nat.add_0_r. }
    rewrite substr_ok by lia. cbn [mbind outcome_bind].
    rewrite drop_0. replace (take (length start) req) with start by (unfold req; by rewrite take_app_length).
    assert (length start + 2 ≤ length req) by (unfold req; rewrite !length_app; cbn; lia).
    unfold find. rewrite decide_True by done.
    replace (drop (length start + 2) req) with (crlf ++ body)
      by (unfold req; by rewrite <- drop_drop, drop_app_length).
    rewrite find_here_None; [done|done|]. intros a b. rewrite <- app_assoc. apply Hb. }
  mgo. unfold start_line. rewrite start_line_fields_ok by done. mgo.
  rewrite MethodFromString_ToString. mgo. rewrite VersionFromString_ToString. mgo.
  rewrite Hv. cbn [negb]. change (lines []) with (@nil str). cbn [header_lines]. mgo.
  eexists. split; [done|]. cbn. split_and!; try done. apply dget_dset.
Qed.

Lemma request_without_headers_loses_body_witness :
  ∃ r', FromString (render HttpMethod.POST (lit "/x") HttpVersion.HTTP_1_0 [] (lit "hi")) HttpRequest_new
      = (Ok tt, r') ∧
    method_ r' = HttpMethod.POST ∧ path_ r' = lit "/x" ∧ version_ (req_base r') = HttpVersion.HTTP_1_0 ∧
    content_ (req_base r') = [] ∧ dget CL (headers_ (req_base r')) = Some (lit "0").
Proof.
  apply request_without_headers_loses_body.
  - done.
  - by_decide.
  - done.
  - intros a b H. pose proof (f_equal length H) as Hl. rewrite !length_app in Hl.
    change (length crlf) with 2 in Hl. change (length (lit "hi")) with 2 in Hl.
    destruct a; [done|]. cbn [length] in Hl. lia.
Defined.

(** ** Any input *)

Definition parse_error (e : exn) : Prop :=
  e = invalid_argument "[HttpRequest::FromString] cannot find start line in request message" ∨
  e = invalid_argument "[MethodFromString] invalid method" ∨
  e = invalid_argument "[VersionFromString] invalid version" ∨
  e = logic_error "[HttpRequest::FromString] http version not support".

Lemma split_request_total request :
  split_request request = Throw (invalid_argument
    "[HttpRequest::FromString] cannot find start line in request message") ∨
  ∃ a b c, split_request request = Ok (a, b, c).
Proof.
  unfold split_request. destruct (find crlf request 0) as [p|] eqn:E; [right|by left].
  rewrite find_0 in E. pose proof (f_equal length (find_here_Some _ _ _ E)) as Hp.
  rewrite !length_app, length_take, length_drop in Hp. change (length crlf) with 2 in Hp.
  rewrite substr_ok by lia. cbn [mbind outcome_bind].
  destruct (find (crlf ++ crlf) request (p + 2)); [|by eexists _, _, _].
  rewrite (substr_ok request (p + 2)) by lia. cbn [mbind outcome_bind].
  destruct (decide _); [|by eexists _, _, _].
  rewrite substr_ok by lia. by eexists _, _, _.
Qed.

Lemma MethodFromString_total s :
  (∃ m, MethodFromString s = Ok m) ∨
  MethodFromString s = Throw (invalid_argument "[MethodFromString] invalid method").
Proof. unfold MethodFromString. repeat (destruct (decide _); [by left; eexists|]). by right. Qed.

Lemma VersionFromString_total s :
  (∃ v, VersionFromString s = Ok v) ∨
  VersionFromString s = Throw (invalid_argument "[VersionFromString] invalid version").
Proof. unfold VersionFromString. repeat (destruct (decide _); [by left; eexists|]). by right. Qed.

Lemma FromString_cases request r :
  match FromString request r with
  | (Ok _, r') => supported (version_ (req_base r')) = true ∧
      dget CL (headers_ (req_base r')) =
        Some (to_string (Z.of_nat (length (content_ (req_base r')))))
  | (Throw e, r') => parse_error e ∧ headers_ (req_base r') = headers_ (req_base r) ∧
      content_ (req_base r') = content_ (req_base r)
  | _ => False
  end.
Proof.
  unfold FromString. destruct (split_request_total request) as [->|(a & b & c & ->)].
  { split; [by left|done]. }
  mgo. destruct (start_line_fields _ _) as [[ms path] vs]. mgo.
  destruct (MethodFromString_total ms) as [[m ->]| ->].
  2: { split; [by right; left|done]. }
  mgo. destruct (VersionFromString_total vs) as [[v ->]| ->].
  2: { split; [by right; right; left|done]. }
  mgo. destruct (supported v) eqn:Hv; cbn [negb].
  2: { split; [by right; right; right|done]. }
  rewrite (bind_ok _ _ _ _ _ (header_lines_total _ _)). unfold modify.
  match goal with |- context [foldl set_header ?r ?l] =>
    pose proof (set_headers_spec l r) as (_ & _ & E & _); set (r1 := foldl set_header r l) in * end.
  pose proof (SetContent_spec c r1 CL) as (_ & _ & E3 & E4 & E5).
  rewrite E3, E, E4, E5. by rewrite decide_True.
Qed.

(** [C34] The parser on any bytes at all: it either returns, with a supported
    version and [Content-Length] equal to the length of the body it stored, or
    throws one of four exceptions with headers and body as they were; it never
    runs out of the string and throws nothing else. *)
Theorem FromString_total request r :
  match FromString request r with
  | (Ok _, r') => supported (version_ (req_base r')) = true ∧
      dget CL (headers_ (req_base r')) =
        Some (to_string (Z.of_nat (length (content_ (req_base r')))))
  | (Throw e, r') => parse_error e ∧ headers_ (req_base r') = headers_ (req_base r) ∧
      content_ (req_base r') = content_ (req_base r)
  | _ => False
  end.
Proof. apply FromString_cases. Qed.

(** ** Printing and parsing back *)

(** [ToString] does not write what [FromString] reads: between key and
    value it puts a space where the parser looks for a colon.  A request is
    parsed back with its method, path, version and body, but each of its
    headers becomes the pair of the whole line with itself. *)
Theorem request_headers_do_not_survive r r0 :
  path_ r ≠ [] → spaceless (path_ r) → supported (version_ (req_base r)) = true →
  headers_ (req_base r) ≠ [] →
  Forall (λ h, field_ok h ∧ (":"%char ∉ h.2)) (headers_ (req_base r)) →
  ∃ r', FromString (HttpRequest_ToString r) r0 = (Ok tt, r') ∧
    method_ r' = method_ r ∧ path_ r' = path_ r ∧
    version_ (req_base r') = version_ (req_base r) ∧ content_ (req_base r') = content_ (req_base r) ∧
    ∀ k, k ≠ CL → dget k (headers_ (req_base r')) =
      last_value k ((λ h, let l := h.1 ++ remove_spaces h.2 in (l, l)) <$> headers_ (req_base r))
        (dget k (headers_ (req_base r0))).
Proof.
  intros Hp1 Hp2 Hv Hne Hhs. set (ls := (λ h, h.1 ++ lit " " ++ h.2) <$> headers_ (req_base r)).
  assert (HttpRequest_ToString r = start_line (method_ r) (path_ r) (version_ (req_base r)) ++
    crlf ++ join ls ++ crlf ++ crlf ++ content_ (req_base r)) as ->.
  { unfold HttpRequest_ToString, start_line. rewrite <- !app_assoc. do 6 f_equal.
    rewrite (app_assoc (join ls)). unfold ls. rewrite <- concat_lines by done.
    f_equal. f_equal. apply list_fmap_ext. intros i h _. by rewrite <- !app_assoc. }
  assert (∀ c, c ∈ lit " " → c = " "%char) as Hsp by (intros c Hc; by apply list_elem_of_singleton in Hc).
  eexists. split.
  { apply FromString_lines; try done.
    - unfold ls. by destruct (headers_ (req_base r)).
    - unfold ls. apply Forall_fmap. eapply Forall_impl; [exact Hhs|].
      intros h [(Hs & _ & Hcr & Hlf) _]. split; [by destruct h as [[] []]|].
      pose proof (spaceless_no_cr _ Hs). pose proof (spaceless_no_lf _ Hs). rewrite !elem_of_app.
      pose proof (Hsp cr). pose proof (Hsp lf). split; intros [|[Hc|]]; try done; (discriminate (Hsp _ Hc)). }
  set (r1 := foldl _ _ _).
  destruct (set_headers_spec (parse_line <$> ls) (mkRequest (SetVersion (version_ (req_base r)) (req_base r0)) (method_ r) (path_ r)))
    as (E1 & E2 & E3 & _ & E4). fold r1 in E1, E2, E3, E4.
  pose proof (λ k, SetContent_spec (content_ (req_base r)) r1 k) as Hc. cbn zeta in Hc.
  split; [by rewrite (proj1 (Hc CL))|]. split; [by rewrite (proj1 (proj2 (Hc CL)))|].
  split; [by rewrite (proj1 (proj2 (proj2 (Hc CL))))|]. split; [done|]. intros k Hk.
  rewrite (proj2 (proj2 (proj2 (proj2 (Hc k))))), decide_False, E4 by done. cbn. f_equal. unfold ls.
  rewrite <- list_fmap_compose. apply list_fmap_ext. intros i h Hh. cbn.
  apply (Forall_lookup_1 _ _ _ _ Hhs) in Hh as [(Hs & Hcol & _) Hcol2].
  rewrite parse_line_plain.
  - rewrite !remove_spaces_app, (remove_spaces_id h.1) by done. done.
  - rewrite !elem_of_app. intros [|[Hin|]]; try done; (discriminate (Hsp _ Hin)).
Qed.

Definition sample_request : HttpRequest :=
  on_base (SetHeaders (lit "Connection") (lit "keep-alive"))
    (SetPath (lit "/a") HttpRequest_new).

Lemma request_headers_do_not_survive_witness :
  ∃ r', FromString (HttpRequest_ToString sample_request) HttpRequest_new = (Ok tt, r') ∧
    method_ r' = HttpMethod.GET ∧ path_ r' = lit "/a" ∧
    version_ (req_base r') = HttpVersion.HTTP_1_0 ∧ content_ (req_base r') = [] ∧
    ∀ k, k ≠ CL → dget k (headers_ (req_base r')) =
      last_value k [(lit "Connectionkeep-alive", lit "Connectionkeep-alive");
                    (lit "Content-Length0", lit "Content-Length0")] None.
Proof.
  apply (request_headers_do_not_survive sample_request HttpRequest_new).
  - done.
  - by_decide.
  - done.
  - done.
  - by_decide.
Defined.

(** ** Content-Length *)

Inductive setter :=
| OpSetVersion (v : HttpVersion)
| OpSetContent (c : str)
| OpSetHeaders (k v : str)
| OpRemoveHeader (k : str).

Definition run_setter (m : HttpMessageInterface) (o : setter) : HttpMessageInterface :=
  match o with
  | OpSetVersion v => SetVersion v m
  | OpSetContent c => SetContent c m
  | OpSetHeaders k v => SetHeaders k v m
  | OpRemoveHeader k => RemoveHeader k m
  end.

(** Keys in order, [Content-Length] right if it is there. *)
Definition message_ok (m : HttpMessageInterface) : Prop :=
  sorted (headers_ m) ∧
  ∀ x, dget CL (headers_ m) = Some x → x = to_string (Z.of_nat (length (content_ m))).

Lemma SetContentLength_ok m : sorted (headers_ m) → message_ok (SetContentLength m).
Proof.
  intros Hs. split; [by apply dset_sorted|]. cbn. intros x. rewrite dget_dset. by intros [= <-].
Qed.

(** Invariant of the message: whatever setters run, in whatever order, the
    headers stay sorted without duplicates and a [Content-Length] is the length
    of the content, even one set by hand; the printed response, however, has
    two more bytes after the blank line than it announces. *)
Theorem Content_Length_invariant ops r :
  message_ok (res_base r) →
  let m := foldl run_setter (res_base r) ops in
  message_ok m ∧
  HttpResponse_ToString (mkResponse m (status_code_ r)) true =
    HttpResponse_ToString (mkResponse m (status_code_ r)) false ++ content_ m ++ crlf.
Proof.
  intros Hr m. split.
  - unfold m. revert Hr. generalize (res_base r). induction ops as [|o ops IH]; intros b Hb; [done|].
    cbn. apply IH. destruct Hb as [Hs Hc], o; cbn.
    + done.
    + by apply SetContentLength_ok.
    + by apply SetContentLength_ok, dset_sorted.
    + split; cbn; [by apply derase_sorted|].
      intros x. rewrite dget_derase by done. destruct (decide _); [done|]. apply Hc.
  - unfold HttpResponse_ToString. cbn [res_base status_code_]. rewrite <- !app_assoc. done.
Qed.

Lemma Content_Length_invariant_witness :
  message_ok (foldl run_setter HttpMessageInterface_new
    [OpSetContent (lit "abc"); OpSetHeaders CL (lit "77"); OpRemoveHeader (lit "x")]).
Proof.
  apply (Content_Length_invariant
    [OpSetContent (lit "abc"); OpSetHeaders CL (lit "77"); OpRemoveHeader (lit "x")]
    (HttpResponse_new HttpStatusCode.Ok)).
  by split.
Defined.

End HttpMessageProps.
