(* ===== verification/HttpServer.v ===== *)
(** * The HTTP server

    [src/include/http_server.hh] and [src/http_server.cc]: the routing table, the
    translation of a request buffer into a response buffer, the event handlers
    of the plain and of the coroutine loop, start-up and the accept loop.

    The results of system calls are arguments of the operations; the calls
    themselves are recorded in a trace.  [epoll_ctl] is a parameter. *)

From S2P Require Import Prelude CStr HttpMessage.
Import CStr HttpMessage.

Module HttpServer.

(** ** Routing *)

(** Order of the enumerators, the key order of [std::map<HttpMethod, ..>]. *)
Definition method_index (m : HttpMethod) : nat :=
  match m with
  | HttpMethod.GET => 0 | HttpMethod.HEAD => 1 | HttpMethod.POST => 2 | HttpMethod.PUT => 3
  | HttpMethod.DELETE => 4 | HttpMethod.CONNECT => 5 | HttpMethod.OPTIONS => 6
  | HttpMethod.TRACE => 7 | HttpMethod.PATCH => 8
  end.

Lemma method_index_inj a b : method_index a = method_index b → a = b.
Proof. by destruct a, b. Qed.

#[global] Program Instance method_key : OrdKey HttpMethod :=
  {| klt a b := Nat.ltb (method_index a) (method_index b) |}.
Next Obligation. intros. apply Nat.ltb_irrefl. Qed.
Next Obligation. intros a b c. rewrite !Nat.ltb_lt. lia. Qed.
Next Obligation. intros a b. rewrite !Nat.ltb_ge. intros. apply method_index_inj. lia. Qed.

(** A callback returns a response or throws. *)
Definition HttpRequestHandler : Type := HttpRequest → outcome HttpResponse.
Definition handlers : Type := dict str (dict HttpMethod HttpRequestHandler).

(** [request_handlers_[path].insert(..)]. *)
Definition RegisterHttpRequestHandler (path : str) (method : HttpMethod)
    (handler : HttpRequestHandler) (request_handlers_ : handlers) : handlers :=
  dset path (dinsert method handler (default [] (dget path request_handlers_))) request_handlers_.

Definition HandleRequestMessage (request_handlers_ : handlers) (request : HttpRequest)
    : outcome HttpResponse :=
  let path := path_ request in
  path ← match find (lit "?") path 0 with
         | None => Ok path
         | Some p => substr path 0 (Some p)
         end;
  match dget path request_handlers_ with
  | None => Ok (HttpResponse_new HttpStatusCode.NotFound)
  | Some it =>
      match dget (method_ request) it with
      | None => Ok (HttpResponse_new HttpStatusCode.MethodNotAllowed)
      | Some callback => callback request
      end
  end.

(** ** Request data to response data *)

Definition kMaxBufferSize : nat := 4096.

Record EventData := mkEventData {
  fd_ : Z;
  length_ : nat;
  cursor_ : nat;
  buf_ : str;
  keep_alive_ : bool }.

Definition EventData_new : EventData :=
  mkEventData (-1) 0 0 (replicate kMaxBufferSize "000"%char) true.
Definition set_fd (fd : Z) (d : EventData) : EventData :=
  mkEventData fd (length_ d) (cursor_ d) (buf_ d) (keep_alive_ d).

(** [e.what()]. *)
Definition what (e : exn) : str :=
  match e with
  | out_of_range m | invalid_argument m | logic_error m | runtime_error m | length_error m => lit m
  | bad_function_call => lit "bad_function_call"
  end.

(** The [catch] clauses, in their order; [out_of_range] and [length_error] are
    [logic_error]s. *)
Definition catch_status (e : exn) : HttpStatusCode :=
  match e with
  | invalid_argument _ => HttpStatusCode.BadRequest
  | logic_error _ | out_of_range _ | length_error _ => HttpStatusCode.HttpVersionNotSupported
  | runtime_error _ | bad_function_call => HttpStatusCode.InternalServerError
  end.
Definition catch_response (e : exn) : HttpResponse :=
  on_res (SetContent (what e)) (SetStatusCode (catch_status e) (HttpResponse_new HttpStatusCode.Ok)).

(** Writing [s] at the start of a buffer; past its end is undefined. *)
Definition memcpy_buf (buf s : str) : outcome str :=
  if decide (length s ≤ length buf) then Ok (s ++ drop (length s) buf)
  else Undef "memcpy out of bounds".

Definition HandleRequestData (hs : handlers) (request response : EventData) : outcome EventData :=
  let request_str := take (length_ request) (buf_ request) in
  let '(parsed, req) := FromString request_str HttpRequest_new in
  res ← match parsed ≫= (λ _, HandleRequestMessage hs req) with
        | Throw e => Ok (catch_response e)
        | o => o
        end;
  let response_str := HttpResponse_ToString res (bool_decide (method_ req ≠ HttpMethod.HEAD)) in
  buf ← memcpy_buf (buf_ response) response_str;
  let connection := GetHeader (lit "Connection") (req_base req) in
  Ok (mkEventData (fd_ response) (length response_str) (cursor_ response) buf
        (bool_decide (connection = lit "keep-alive"))).

(** ** The world of the event handlers *)

Abbreviation ptr := nat.

Inductive ctl_op := CTL_ADD | CTL_MOD | CTL_DEL.
Record interest := Interest { i_in : bool; i_out : bool }.
Definition IN : interest := Interest true false.
Definition OUT : interest := Interest false true.

(** The system calls that matter, in the order they are made. *)
Inductive action :=
| Ctl (epfd : Z) (op : ctl_op) (fd : Z) (events : interest) (data : option ptr)
| Close (fd : Z)
| Send (fd : Z) (bytes : str).

Record world := mkWorld {
  heap : gmap ptr EventData;    (* the live EventData objects *)
  brk : ptr;
  trace : list action }.

Definition act (a : action) : M world unit :=
  modify (λ w, mkWorld (heap w) (brk w) (trace w ++ [a])).

(** [new EventData()] with [fd_] set, [delete], access through a pointer. *)
Definition new_EventData (fd : Z) : M world ptr := λ w,
  (Ok (brk w), mkWorld (<[brk w := set_fd fd EventData_new]> (heap w)) (S (brk w)) (trace w)).
Definition delete_EventData (p : ptr) : M world unit := λ w,
  match heap w !! p with
  | Some _ => (Ok tt, mkWorld (delete p (heap w)) (brk w) (trace w))
  | None => (Undef "double delete", w)
  end.
Definition deref (p : ptr) : M world EventData := λ w,
  match heap w !! p with
  | Some d => (Ok d, w)
  | None => (Undef "use after free", w)
  end.
Definition store (p : ptr) (d : EventData) : M world unit := λ w,
  match heap w !! p with
  | Some _ => (Ok tt, mkWorld (<[p := d]> (heap w)) (brk w) (trace w))
  | None => (Undef "use after free", w)
  end.

(** What [recv] and [send] report: a positive count, 0, [EAGAIN], another
    error.  [recv] also delivers the bytes. *)
Inductive recv_result := Received (bytes : str) | RecvClosed | RecvAgain | RecvError.
Inductive send_result := Sent (n : nat) | SentNothing | SendAgain | SendError.

Section Handlers.
Context (hs : handlers).

(** [epoll_ctl], given the calls made before: whether it succeeds. *)
Context (epoll_ctl : list action → Z → ctl_op → Z → bool).

Definition ControlEpollEvent (epfd : Z) (op : ctl_op) (fd : Z) (events : interest)
    (data : option ptr) : M world unit :=
  w ← get;
  if epoll_ctl (trace w) epfd op fd then act (Ctl epfd op fd events data)
  else raise (runtime_error "[HttpServer::ControlEpollEvent] epoll_ctl failed").

Definition no_events : interest := Interest false false.

(** Deregister, close and free. *)
Definition hang_up (epfd : Z) (fd : Z) (data : ptr) : M world unit :=
  ControlEpollEvent epfd CTL_DEL fd no_events None;;
  act (Close fd);;
  delete_EventData data.

(** [recv] into the buffer of an object. *)
Definition recv_into (p : ptr) (bytes : str) : M world unit :=
  d ← deref p;
  buf ← lift (memcpy_buf (buf_ d) bytes);
  store p (mkEventData (fd_ d) (length_ d) (cursor_ d) buf (keep_alive_ d)).

Definition set_length (p : ptr) (n : nat) : M world unit :=
  d ← deref p;
  store p (mkEventData (fd_ d) n (cursor_ d) (buf_ d) (keep_alive_ d)).

(** A request has arrived: build the response and wait to write it. *)
Definition serve (epfd : Z) (client_fd : Z) (request : ptr) (bytes : str) : M world unit :=
  recv_into request bytes;;
  set_length request (length bytes);;
  response ← new_EventData client_fd;
  req ← deref request;
  res ← deref response;
  res' ← lift (HandleRequestData hs req res);
  store response res';;
  ControlEpollEvent epfd CTL_MOD client_fd OUT (Some response).

(** [n] bytes of the response have been sent. *)
Definition advance (response : ptr) (n : nat) : M world unit :=
  d ← deref response;
  act (Send (fd_ d) (take n (drop (cursor_ d) (buf_ d))));;
  store response (mkEventData (fd_ d) (length_ d - n) (cursor_ d + n) (buf_ d) (keep_alive_ d)).

(** The whole response has been sent. *)
Definition finish (epfd : Z) (client_fd : Z) (response : ptr) : M world unit :=
  d ← deref response;
  delete_EventData response;;
  if keep_alive_ d then
    request ← new_EventData client_fd;
    ControlEpollEvent epfd CTL_MOD client_fd IN (Some request)
  else
    ControlEpollEvent epfd CTL_DEL client_fd no_events None;;
    act (Close client_fd).

(** The two halves of [HandleEpollEvent]. *)
Definition HandleEpollEvent_in (epfd : Z) (data : ptr) (bytes : recv_result) : M world unit :=
  d ← deref data;
  let client_fd := fd_ d in
  match bytes with
  | Received b => serve epfd client_fd data b
  | RecvClosed => hang_up epfd client_fd data
  | RecvAgain => ControlEpollEvent epfd CTL_MOD client_fd IN (Some data)
  | RecvError => hang_up epfd client_fd data
  end.

Definition HandleEpollEvent_out (epfd : Z) (data : ptr) (bytes : send_result) : M world unit :=
  d ← deref data;
  let client_fd := fd_ d in
  match bytes with
  | Sent n => advance data n;; ControlEpollEvent epfd CTL_MOD client_fd OUT (Some data)
  | SentNothing => finish epfd client_fd data
  | SendAgain => ControlEpollEvent epfd CTL_MOD client_fd OUT (Some data)
  | SendError => hang_up epfd client_fd data
  end.

(** The events [epoll_wait] reports for a descriptor. *)
Record ready := mkReady { ev_hup : bool; ev_err : bool; ev_in : bool; ev_out : bool }.

Definition HandleEpollEvent (epfd : Z) (event : ready) (data : ptr)
    (r : recv_result) (s : send_result) : M world unit :=
  if ev_in event then HandleEpollEvent_in epfd data r else HandleEpollEvent_out epfd data s.

(** One event of [EventLoop]. *)
Definition EventLoop_event (epfd : Z) (event : ready) (data : ptr)
    (r : recv_result) (s : send_result) : M world unit :=
  if ev_hup event || ev_err event then d ← deref data; hang_up epfd (fd_ d) data
  else if ev_in event || ev_out event then HandleEpollEvent epfd event data r s
  else d ← deref data; hang_up epfd (fd_ d) data.

(** What [epoll_wait] reports: events with the pointers that were registered, and
    the results the calls on each descriptor will have. *)
Definition reported : Type := ready * ptr * recv_result * send_result.

(** The coroutines of the other loop.  Each event starts a new one, which runs
    to its first [Yield]: once through the body of its loop. *)
Definition HandleReadEvent (epfd : Z) (data : ptr) (bytes : recv_result) : M world unit :=
  d ← deref data;
  let client_fd := fd_ d in
  match bytes with
  | Received b => serve epfd client_fd data b
  | RecvClosed => hang_up epfd client_fd data
  | RecvAgain => mret tt
  | RecvError => hang_up epfd client_fd data
  end.

Definition HandleWriteEvent (epfd : Z) (data : ptr) (bytes : send_result) : M world unit :=
  d ← deref data;
  let client_fd := fd_ d in
  match bytes with
  | Sent n => advance data n
  | SentNothing => finish epfd client_fd data
  | SendAgain => mret tt
  | SendError => hang_up epfd client_fd data
  end.

Definition EventLoopWithCo_event (epfd : Z) (event : ready) (data : ptr)
    (r : recv_result) (s : send_result) : M world unit :=
  if ev_hup event || ev_err event then d ← deref data; hang_up epfd (fd_ d) data
  else if ev_in event then HandleReadEvent epfd data r
  else if ev_out event then HandleWriteEvent epfd data s
  else d ← deref data; hang_up epfd (fd_ d) data.

(** ** The loops of the workers *)

(** The two loops go through the answers of [epoll_wait] in the same way and differ
    in how they handle an event. *)
Section Loop.
Context (handle : Z → ready → ptr → recv_result → send_result → M world unit).

(** The [for] of a loop, over one answer of [epoll_wait]. *)
Fixpoint loop_turn (epfd : Z) (evs : list reported) : M world unit :=
  match evs with
  | [] => mret tt
  | (event, data, r, s) :: evs => handle epfd event data r s;; loop_turn epfd evs
  end.

(** The [while]: the answers of [epoll_wait], by the state in which it is called,
    for as long as [running_] holds.  A turn without events only makes the next
    one of [EventLoop] sleep first. *)
Fixpoint loop_while (epfd : Z) (epoll_wait : list (world → list reported)) : M world unit :=
  match epoll_wait with
  | [] => mret tt
  | wait :: epoll_wait => w ← get; loop_turn epfd (wait w);; loop_while epfd epoll_wait
  end.
End Loop.

Definition EventLoop : Z → list (world → list reported) → M world unit := loop_while EventLoop_event.
Definition EventLoopWithCo : Z → list (world → list reported) → M world unit := loop_while EventLoopWithCo_event.

(** What [Start] gives a worker to run, and how it handles an event. *)
Definition worker_event (use_co : bool) := if use_co then EventLoopWithCo_event else EventLoop_event.
Definition worker_loop (use_co : bool) := if use_co then EventLoopWithCo else EventLoop.

Lemma worker_loop_while use_co : worker_loop use_co = loop_while (worker_event use_co).
Proof. by destruct use_co. Qed.

(** ** The accept loop *)

Definition kThreadPoolSize : nat := 5.

(** One turn of [ListenClient]: [accepted] is what [accept4] returned; the
    result is the next worker. *)
Definition ListenClient_step (worker_epoll_fd_ : list Z) (worker_idx : nat) (accepted : Z)
    : M world nat :=
  if decide (accepted < 0)%Z then mret worker_idx
  else
    client_data ← new_EventData accepted;
    match worker_epoll_fd_ !! worker_idx with
    | None => undef "vector index"
    | Some epfd =>
        ControlEpollEvent epfd CTL_ADD accepted IN (Some client_data);;
        mret ((worker_idx + 1) mod kThreadPoolSize)
    end.

(** [ListenClient] from a value of [worker_idx], over what [accept4] returns for as
    long as [running_] holds; the first value is 0. *)
Fixpoint ListenClient_from (worker_epoll_fd_ : list Z) (worker_idx : nat) (accept4 : list Z) : M world unit :=
  match accept4 with
  | [] => mret tt
  | accepted :: accept4 =>
      worker_idx ← ListenClient_step worker_epoll_fd_ worker_idx accepted;
      ListenClient_from worker_epoll_fd_ worker_idx accept4
  end.
Definition ListenClient (worker_epoll_fd_ : list Z) (accept4 : list Z) : M world unit :=
  ListenClient_from worker_epoll_fd_ 0 accept4.

End Handlers.

(** ** The server object *)

(** A thread by the method it runs. *)
Inductive server_thread := Listener | Worker (thread : nat) | CoWorker (thread : nat).

(** [running_] has no value before [Start]. *)
Record server := mkServer {
  sock_fd_ : Z;
  running_ : option bool;
  use_co_ : bool;
  worker_epoll_fd_ : list Z;
  threads : list server_thread }.

(** The constructor, by the result of [socket]. *)
Definition HttpServer_new (use_co : bool) (sock_fd : Z) : outcome server :=
  if decide (sock_fd < 0)%Z
  then Throw (runtime_error "[HttpServer::HttpServer] failed to create socket")
  else Ok (mkServer sock_fd None use_co (replicate kThreadPoolSize 0%Z) []).

(** [worker_epoll_fd_[i] = epfd]. *)
Definition set_epoll (i : nat) (epfd : Z) (s : server) : outcome unit * server :=
  if decide (i < length (worker_epoll_fd_ s))
  then (Ok tt, mkServer (sock_fd_ s) (running_ s) (use_co_ s) (<[i := epfd]> (worker_epoll_fd_ s)) (threads s))
  else (Undef "vector index", s).

(** The loop over [epoll_create1]. *)
Fixpoint create_epolls (n : nat) (epoll_create1 : nat → Z) (i : nat) : M server unit :=
  match n with
  | O => mret tt
  | S n =>
      set_epoll i (epoll_create1 i);;
      if decide (epoll_create1 i < 0)%Z
      then raise (runtime_error "[HttpServer::HttpServer] epoll create failed")
      else create_epolls n epoll_create1 (S i)
  end.

(** The threads. *)
Definition start_threads : M server unit := modify (λ s,
  mkServer (sock_fd_ s) (Some true) (use_co_ s) (worker_epoll_fd_ s)
    (Listener :: ((λ i, if use_co_ s then CoWorker i else Worker i) <$> seq 0 kThreadPoolSize))).

(** [Start], by the results of the system calls. *)
Definition Start (setsockopt bind listen : Z) (epoll_create1 : nat → Z) : M server unit :=
  if decide (setsockopt < 0)%Z
  then raise (runtime_error "[HttpServer::HttpServer] set socketopt failed")
  else if decide (bind < 0)%Z
  then raise (runtime_error "[HttpServer::HttpServer] socket bind failed")
  else if decide (listen < 0)%Z
  then raise (runtime_error "[HttpServer::HttpServer] socket listen failed")
  else create_epolls kThreadPoolSize epoll_create1 0;; start_threads.

(** [Stop]: the descriptors closed after the threads have been joined. *)
Definition Stop (s : server) : M world unit :=
  foldr (λ fd k, act (Close fd);; k) (act (Close (sock_fd_ s))) (worker_epoll_fd_ s).

End HttpServer.
