(* ===== verification/HttpServerProps.v ===== *)
(** * Properties of the HTTP server

    The routing table, the answer to any request, memory safety of the event
    handlers over any run, and the delivery of a response. *)

From S2P Require Import Prelude CStr HttpMessage HttpMessageProps HttpServer.
Import CStr HttpMessage HttpMessageProps HttpServer.

Module HttpServerProps.

(** ** Routing *)

Definition registration : Type := str * HttpMethod * HttpRequestHandler.

Definition register (t : handlers) (r : registration) : handlers :=
  RegisterHttpRequestHandler r.1.1 r.1.2 r.2 t.
Definition table (regs : list registration) : handlers := foldl register [] regs.

(** The first registration for a path and a method. *)
Fixpoint first_handler (p : str) (m : HttpMethod) (regs : list registration)
    : option HttpRequestHandler :=
  match regs with
  | [] => None
  | r :: regs => if decide (p = r.1.1 ∧ m = r.1.2) then Some r.2 else first_handler p m regs
  end.
Definition known_path (p : str) (regs : list registration) : bool :=
  existsb (λ r, bool_decide (p = r.1.1)) regs.

(** The path without its query. *)
Fixpoint before_query (s : str) : str :=
  match s with
  | [] => []
  | c :: s => if decide (c = "?"%char) then [] else c :: before_query s
  end.

Lemma find_query s :
  match find (lit "?") s 0 with None => Ok s | Some p => substr s 0 (Some p) end
    = Ok (before_query s).
Proof.
  rewrite find_0. change (lit "?") with ["?"%char].
  assert (match find_here ["?"%char] s with None => s | Some p => take p s end = before_query s) as <-.
  { induction s as [|c s IH]; [done|]. cbn [find_here before_query].
    destruct (decide (c = "?"%char)) as [->|Hne].
    - rewrite decide_True by (exists s; done). done.
    - rewrite decide_False by (intros Hp; by apply prefix_cons_inv_1 in Hp).
      rewrite <- IH. by destruct (find_here ["?"%char] s). }
  destruct (find_here _ _); [|done]. by rewrite substr_ok by lia.
Qed.

Definition route (t : handlers) (p : str) (m : HttpMethod) : option HttpRequestHandler :=
  dget p t ≫= dget m.

Lemma route_register t r p m :
  route (register t r) p m =
    if decide (p = r.1.1 ∧ m = r.1.2) then Some (default r.2 (route t p m)) else route t p m.
Proof.
  destruct r as [[p0 m0] h]. unfold route, register, RegisterHttpRequestHandler. cbn.
  destruct (decide (p = p0)) as [->|Hne].
  - rewrite dget_dset. cbn. rewrite dget_dinsert. destruct (decide (m = m0)) as [->|Hm].
    + rewrite decide_True by done. by destruct (dget p0 t).
    + rewrite decide_False by (by intros []). by destruct (dget p0 t).
  - rewrite dget_dset_ne by done. by rewrite decide_False by (by intros []).
Qed.

Lemma known_register t r p :
  is_Some (dget p (register t r)) ↔ p = r.1.1 ∨ is_Some (dget p t).
Proof.
  destruct r as [[p0 m0] h]. unfold register, RegisterHttpRequestHandler. cbn.
  destruct (decide (p = p0)) as [->|Hne].
  - rewrite dget_dset. split; [by left|by eexists].
  - rewrite dget_dset_ne by done. split; [by right|by intros [|]].
Qed.

Lemma route_table regs t p m :
  route (foldl register t regs) p m =
    match route t p m with Some h => Some h | None => first_handler p m regs end.
Proof.
  revert t. induction regs as [|r regs IH]; intros t; cbn [foldl first_handler]; [by destruct (route t p m)|].
  rewrite IH, route_register. destruct (decide _); [by destruct (route t p m)|done].
Qed.

Lemma known_table regs t p :
  is_Some (dget p (foldl register t regs)) ↔ known_path p regs = true ∨ is_Some (dget p t).
Proof.
  revert t. induction regs as [|r regs IH]; intros t; cbn.
  - split; [by right|by intros [|]].
  - rewrite IH, known_register. destruct (bool_decide_reflect (p = r.1.1)); cbn; tauto.
Qed.

(** The handler the registrations choose. *)
Definition chosen (regs : list registration) (req : HttpRequest) : outcome HttpResponse :=
  let p := before_query (path_ req) in
  if known_path p regs then
    match first_handler p (method_ req) regs with
    | Some h => h req
    | None => Ok (HttpResponse_new HttpStatusCode.MethodNotAllowed)
    end
  else Ok (HttpResponse_new HttpStatusCode.NotFound).

Lemma HandleRequestMessage_table regs req : HandleRequestMessage (table regs) req = chosen regs req.
Proof.
  unfold HandleRequestMessage, chosen. rewrite find_query. cbn [mbind outcome_bind]. cbn zeta.
  set (p := before_query _). pose proof (route_table regs [] p (method_ req)) as Hr.
  pose proof (known_table regs [] p) as Hk. fold (table regs) in Hr, Hk. unfold route in Hr.
  destruct (dget p (table regs)) as [it|]; cbn in Hr.
  - destruct (known_path p regs).
    + rewrite Hr. done.
    + destruct Hk as [[|[? [=]]] _]; [by eexists|done].
  - destruct (known_path p regs); [|done].
    destruct Hk as [_ [? [=]]]. by left.
Qed.

(** [C33] Routing refines its specification, the list of registrations: the query
    part of the path is ignored; an unknown path gets 404, a known path without
    the method 405; otherwise the callback registered first for the path and
    the method answers, later registrations notwithstanding. *)
Theorem routing_refinement regs req :
  HandleRequestMessage (table regs) req =
    let p := before_query (path_ req) in
    if known_path p regs then
      match first_handler p (method_ req) regs with
      | Some h => h req
      | None => Ok (HttpResponse_new HttpStatusCode.MethodNotAllowed)
      end
    else Ok (HttpResponse_new HttpStatusCode.NotFound).
Proof. apply HandleRequestMessage_table. Qed.

(** ** Answers *)

Definition response_of (hs : handlers) (request : str) : outcome HttpResponse * HttpRequest :=
  let '(o, req) := FromString request HttpRequest_new in
  (match o ≫= (λ _, HandleRequestMessage hs req) with
   | Throw e => Ok (catch_response e)
   | o => o
   end, req).

Lemma HandleRequestData_spec hs rq rs :
  HandleRequestData hs rq rs =
    let '(o, req) := response_of hs (take (length_ rq) (buf_ rq)) in
    res ← o;
    let s := HttpResponse_ToString res (bool_decide (method_ req ≠ HttpMethod.HEAD)) in
    buf ← memcpy_buf (buf_ rs) s;
    Ok (mkEventData (fd_ rs) (length s) (cursor_ rs) buf
          (bool_decide (GetHeader (lit "Connection") (req_base req) = lit "keep-alive"))).
Proof. unfold HandleRequestData, response_of. by destruct (FromString _ _). Qed.

Lemma memcpy_buf_ok buf s : length s ≤ length buf → memcpy_buf buf s = Ok (s ++ drop (length s) buf).
Proof. intros. unfold memcpy_buf. by rewrite decide_True. Qed.

Lemma error_response_fits e b :
  parse_error e → length (HttpResponse_ToString (catch_response e) b) ≤ kMaxBufferSize.
Proof.
  intros [-> |[-> |[-> | ->]]]; destruct b; apply Nat.leb_le; vm_compute; done.
Qed.

(** A request the parser refuses is always answered, within the buffer:
    status 505 for an unsupported version, 400 for anything else, the message
    of the exception as content; the connection is not kept alive. *)
Theorem malformed_request_answered hs rq rs e req :
  FromString (take (length_ rq) (buf_ rq)) HttpRequest_new = (Throw e, req) →
  length (buf_ rs) = kMaxBufferSize →
  let s := HttpResponse_ToString (catch_response e) (bool_decide (method_ req ≠ HttpMethod.HEAD)) in
  parse_error e ∧
  status_code_ (catch_response e) =
    (if decide (e = logic_error "[HttpRequest::FromString] http version not support")
     then HttpStatusCode.HttpVersionNotSupported else HttpStatusCode.BadRequest) ∧
  ∃ buf, HandleRequestData hs rq rs
      = Ok (mkEventData (fd_ rs) (length s) (cursor_ rs) buf false) ∧
    take (length s) buf = s.
Proof.
  intros Hp Hb s. pose proof (FromString_cases (take (length_ rq) (buf_ rq)) HttpRequest_new) as Ht.
  rewrite Hp in Ht. destruct Ht as (He & Hh & _). split; [done|]. split.
  { destruct He as [-> |[-> |[-> | ->]]]; done. }
  rewrite HandleRequestData_spec. unfold response_of. rewrite Hp. cbn [mbind outcome_bind].
  fold s. rewrite memcpy_buf_ok by (rewrite Hb; by apply error_response_fits).
  eexists. split.
  - cbn. unfold GetHeader. rewrite Hh. done.
  - apply take_app_length.
Qed.

Definition buffer (s : str) : EventData :=
  mkEventData 5 (length s) 0 (s ++ replicate (kMaxBufferSize - length s) "000"%char) true.

Lemma malformed_request_answered_witness :
  let s := HttpResponse_ToString
    (catch_response (invalid_argument "[MethodFromString] invalid method")) true in
  ∃ buf, HandleRequestData [] (buffer (lit "FETCH / HTTP/1.1" ++ crlf ++ crlf)) EventData_new
      = Ok (mkEventData (-1) (length s) 0 buf false) ∧ take (length s) buf = s.
Proof.
  apply (malformed_request_answered [] (buffer (lit "FETCH / HTTP/1.1" ++ crlf ++ crlf)) EventData_new
    (invalid_argument "[MethodFromString] invalid method") (SetPath (lit "/") HttpRequest_new)).
  - vm_compute. reflexivity.
  - vm_compute. reflexivity.
Defined.

(** [C35] The answer to an accepted request, and its bound: the printed response
    of the callback (or of the exception it threw) when it fits the 4096 bytes
    of the buffer; when it does not, [memcpy] writes past the object. *)
Theorem response_must_fit hs rq rs req :
  FromString (take (length_ rq) (buf_ rq)) HttpRequest_new = (Ok tt, req) →
  length (buf_ rs) = kMaxBufferSize →
  ∀ res, (HandleRequestMessage hs req = Ok res ∨
          ∃ e, HandleRequestMessage hs req = Throw e ∧ res = catch_response e) →
  let s := HttpResponse_ToString res (bool_decide (method_ req ≠ HttpMethod.HEAD)) in
  if decide (length s ≤ kMaxBufferSize) then
    ∃ buf, HandleRequestData hs rq rs = Ok (mkEventData (fd_ rs) (length s) (cursor_ rs) buf
        (bool_decide (GetHeader (lit "Connection") (req_base req) = lit "keep-alive"))) ∧
      take (length s) buf = s
  else is_undef (HandleRequestData hs rq rs).
Proof.
  intros Hp Hb res Hres s. rewrite HandleRequestData_spec. unfold response_of. rewrite Hp.
  assert (match (Ok tt : outcome unit) ≫= (λ _, HandleRequestMessage hs req) with
    | Throw e => Ok (catch_response e) | o => o end = Ok res) as ->.
  { cbn. by destruct Hres as [-> |(e & -> & ->)]. }
  cbn [mbind outcome_bind]. fold s. unfold memcpy_buf. rewrite Hb.
  destruct (decide _); [|by eexists]. eexists. split; [done|]. apply take_app_length.
Qed.

Definition big_response : HttpResponse :=
  on_res (SetContent (replicate kMaxBufferSize "x"%char)) (HttpResponse_new HttpStatusCode.Ok).

Definition big_routes : handlers := table [(lit "/", HttpMethod.GET, λ _, Ok big_response)].

Lemma response_must_fit_witness :
  is_undef (HandleRequestData big_routes (buffer (lit "GET / HTTP/1.1" ++ crlf ++ crlf)) EventData_new).
Proof.
  apply (response_must_fit big_routes (buffer (lit "GET / HTTP/1.1" ++ crlf ++ crlf)) EventData_new
    (snd (FromString (lit "GET / HTTP/1.1" ++ crlf ++ crlf) HttpRequest_new))) with (res := big_response).
  - vm_compute. reflexivity.
  - vm_compute. reflexivity.
  - left. vm_compute. reflexivity.
Defined.

(** ** Memory safety of the event handlers *)

(** The interest list the kernel keeps, from the calls made to [epoll_ctl]. *)
Abbreviation reg_map := (gmap (Z * Z) (interest * option ptr)).
Definition reg_step (m : reg_map) (a : action) : reg_map :=
  match a with
  | Ctl epfd CTL_DEL fd _ _ => delete (epfd, fd) m
  | Ctl epfd _ fd ev data => <[(epfd, fd) := (ev, data)]> m
  | _ => m
  end.
Definition registered (tr : list action) : reg_map := foldl reg_step ∅ tr.

(** [epoll_ctl] succeeds on a new descriptor for ADD, on a registered one for
    MOD and DEL. *)
Definition ctl_spec (epoll_ctl : list action → Z → ctl_op → Z → bool) : Prop :=
  ∀ tr epfd op fd,
    match op with
    | CTL_ADD => registered tr !! (epfd, fd) = None
    | _ => is_Some (registered tr !! (epfd, fd))
    end → epoll_ctl tr epfd op fd = true.

(** Every callback returns or throws, and what is sent for it fits. *)
Definition responses_fit (hs : handlers) : Prop :=
  ∀ rq rs, length (buf_ rs) = kMaxBufferSize →
    ∃ d, HandleRequestData hs rq rs = Ok d.

Definition data_ok (d : EventData) : Prop := length (buf_ d) = kMaxBufferSize.
Definition pending_ok (d : EventData) : Prop := cursor_ d + length_ d ≤ kMaxBufferSize.

(** A registered descriptor owns the live object its pointer refers to. *)
Definition owned (h : gmap ptr EventData) (k : Z * Z) (v : interest * option ptr) : Prop :=
  (v.1 = IN ∨ v.1 = OUT) ∧ ∃ p d, v.2 = Some p ∧ h !! p = Some d ∧ fd_ d = k.2 ∧ data_ok d ∧
    (v.1 = OUT → pending_ok d).

Record consistent (reg : reg_map) (h : gmap ptr EventData) (b : ptr) : Prop := {
  co_owned : map_Forall (owned h) reg;
  co_unique : ∀ k1 k2 i1 i2 p, reg !! k1 = Some (i1, Some p) → reg !! k2 = Some (i2, Some p) → k1 = k2;
  co_brk : ∀ p, is_Some (h !! p) → p < b }.

Definition safe (w : world) : Prop := consistent (registered (trace w)) (heap w) (brk w).

(** The pointers of the other descriptors. *)
Definition foreign (reg : reg_map) (k : Z * Z) (p : ptr) : Prop :=
  ∃ k' i, k' ≠ k ∧ reg !! k' = Some (i, Some p).

Section Consistent.
Context (reg : reg_map) (h : gmap ptr EventData) (b : ptr) (HC : consistent reg h b).

Lemma foreign_live k p : foreign reg k p → is_Some (h !! p) ∧ p < b.
Proof.
  intros (k' & i & _ & Hk'). destruct HC as [Ho _ Hb].
  destruct (Ho _ _ Hk') as (_ & q & d & [= <-] & Hp & _). split; [by eexists|]. apply Hb. by eexists.
Qed.

Lemma foreign_not_own k i p : reg !! k = Some (i, Some p) → ¬ foreign reg k p.
Proof.
  intros Hk (k' & i' & Hne & Hk'). apply Hne. destruct HC as [_ Hu _]. by eapply Hu.
Qed.

(** Registering [k] for a live object that no other descriptor owns. *)
Lemma consistent_insert k i p d h' b' :
  (i = IN ∨ i = OUT) → h' !! p = Some d → fd_ d = k.2 → data_ok d → (i = OUT → pending_ok d) →
  ¬ foreign reg k p → (∀ q, foreign reg k q → h' !! q = h !! q) →
  (∀ q, is_Some (h' !! q) → q < b') →
  consistent (<[k := (i, Some p)]> reg) h' b'.
Proof.
  intros Hi Hp Hfd Hd Hpe Hnf Hsame Hb. destruct HC as [Ho Hu _]. split; [| |done].
  - intros k' v Hk'. apply lookup_insert_Some in Hk' as [[<- <-]|[Hne Hk']].
    + split; [done|]. by exists p, d.
    + destruct (Ho _ _ Hk') as (Hv & q & dq & Hvq & Hq & Hrest). split; [done|].
      exists q, dq. split; [done|]. rewrite Hsame; [done|].
      exists k', v.1. split; [done|]. rewrite Hk'. by destruct v as [? ?]; cbn in *; subst.
  - intros k1 k2 i1 i2 q H1 H2.
    apply lookup_insert_Some in H1 as [[<- [= <- <-]]|[Hne1 H1]];
      apply lookup_insert_Some in H2 as [[<- Heq2]|[Hne2 H2]]; try done.
    + exfalso. apply Hnf. by exists k2, i2.
    + injection Heq2 as <- <-. exfalso. apply Hnf. by exists k1, i1.
    + by eapply Hu.
Qed.

Lemma consistent_delete k h' b' :
  (∀ q, foreign reg k q → h' !! q = h !! q) → (∀ q, is_Some (h' !! q) → q < b') →
  consistent (delete k reg) h' b'.
Proof.
  intros Hsame Hb. destruct HC as [Ho Hu _]. split; [| |done].
  - intros k' v Hk'. apply lookup_delete_Some in Hk' as [Hne Hk'].
    destruct (Ho _ _ Hk') as (Hv & q & dq & Hvq & Hq & Hrest). split; [done|].
    exists q, dq. split; [done|]. rewrite Hsame; [done|].
    exists k', v.1. split; [done|]. rewrite Hk'. by destruct v as [? ?]; cbn in *; subst.
  - intros k1 k2 i1 i2 q [_ H1]%lookup_delete_Some [_ H2]%lookup_delete_Some. by eapply Hu.
Qed.
End Consistent.

Lemma registered_snoc tr a : registered (tr ++ [a]) = reg_step (registered tr) a.
Proof. unfold registered. by rewrite foldl_app. Qed.

(** The bytes sent on a descriptor. *)
Definition sent_to (fd : Z) (tr : list action) : str :=
  concat ((λ a, match a with Send fd' b => if decide (fd' = fd) then b else [] | _ => [] end) <$> tr).

Lemma sent_to_app fd t1 t2 : sent_to fd (t1 ++ t2) = sent_to fd t1 ++ sent_to fd t2.
Proof. unfold sent_to. by rewrite fmap_app, concat_app. Qed.
Lemma sent_to_ctl fd' tr epfd op fd ev po : sent_to fd' (tr ++ [Ctl epfd op fd ev po]) = sent_to fd' tr.
Proof. rewrite sent_to_app. apply app_nil_r. Qed.

(** States that differ in the calls that register a descriptor as it was. *)
Definition same_state (w1 w2 : world) : Prop :=
  heap w1 = heap w2 ∧ brk w1 = brk w2 ∧ registered (trace w1) = registered (trace w2) ∧
  ∀ fd, sent_to fd (trace w1) = sent_to fd (trace w2).

Lemma same_state_safe w1 w2 : same_state w1 w2 → safe w2 → safe w1.
Proof. unfold safe. by intros (-> & -> & -> & _). Qed.

Section Safety.
Context (hs : handlers) (epoll_ctl : list action → Z → ctl_op → Z → bool).
Context (Hctl : ctl_spec epoll_ctl) (Hfit : responses_fit hs).

(** Whether the loops are those with coroutines. *)
Context (use_co : bool).

(** Events that can happen: a connection with a descriptor not in use, or
    readiness the descriptor asked for, with results [recv] and [send] can
    give. *)
Inductive sys_event :=
| Accept (worker : nat) (fd : Z)
| Ready (epfd fd : Z) (event : ready) (r : recv_result) (s : send_result).

Definition run_event (workers : list Z) (e : sys_event) : M world unit :=
  match e with
  | Accept worker fd => ListenClient_step epoll_ctl workers worker fd;; mret tt
  | Ready epfd fd event r s =>
      w ← get;
      match registered (trace w) !! (epfd, fd) with
      | Some (_, Some data) => worker_event hs epoll_ctl use_co epfd event data r s
      | _ => mret tt
      end
  end.

Definition valid (workers : list Z) (e : sys_event) (w : world) : Prop :=
  match e with
  | Accept worker fd => (0 ≤ fd)%Z ∧ is_Some (workers !! worker) ∧
      ∀ epfd, registered (trace w) !! (epfd, fd) = None
  | Ready epfd fd event r s => ∃ i p d,
      registered (trace w) !! (epfd, fd) = Some (i, Some p) ∧ heap w !! p = Some d ∧
      (ev_in event = true → i = IN) ∧ (ev_out event = true → i = OUT) ∧
      (∀ bytes, r = Received bytes → 0 < length bytes ≤ kMaxBufferSize) ∧
      (∀ n, s = Sent n → 0 < n ≤ length_ d)
  end.

(** Requests that were read and answered by an event. *)
Definition served (e : sys_event) : nat :=
  match e with
  | Ready _ _ event (Received _) _ =>
      if ev_hup event || ev_err event then 0 else if ev_in event then 1 else 0
  | _ => 0
  end.

(** The number of live objects a step adds, against the descriptors it adds. *)
Definition accounts (n : nat) (w w' : world) : Prop :=
  size (heap w') + size (registered (trace w)) = size (heap w) + size (registered (trace w')) + n.

Definition advanced (d : EventData) (n : nat) : EventData :=
  mkEventData (fd_ d) (length_ d - n) (cursor_ d + n) (buf_ d) (keep_alive_ d).

Section Owner.
Context (w : world) (epfd fd : Z) (i : interest) (p : ptr) (d : EventData).
Context (HS : safe w) (Hreg : registered (trace w) !! (epfd, fd) = Some (i, Some p)).
Context (Hp : heap w !! p = Some d).

Lemma owner_facts : fd_ d = fd ∧ data_ok d ∧ (i = OUT → pending_ok d) ∧ p < brk w ∧
  ¬ foreign (registered (trace w)) (epfd, fd) p.
Proof.
  pose proof (co_owned _ _ _ HS _ _ Hreg) as (_ & q & d' & [= <-] & Hq & Hfd & Hd & Hpe).
  rewrite Hp in Hq. injection Hq as <-. cbn in *. split_and!; [done..| |].
  - apply (co_brk _ _ _ HS). by eexists.
  - by eapply foreign_not_own.
Qed.

Lemma deref_ok : deref p w = (Ok d, w).
Proof. unfold deref. by rewrite Hp. Qed.

Lemma ctl_ok (op : ctl_op) ev data w1 :
  registered (trace w1) = registered (trace w) → op ≠ CTL_ADD →
  ControlEpollEvent epoll_ctl epfd op fd ev data w1
    = (Ok tt, mkWorld (heap w1) (brk w1) (trace w1 ++ [Ctl epfd op fd ev data])).
Proof.
  intros Ht Hop. unfold ControlEpollEvent. mgo. rewrite Hctl; [done|].
  rewrite Ht. destruct op; [done|by rewrite Hreg..].
Qed.

(** Registering the descriptor again, for an object nobody else owns. *)
Lemma mod_safe w1 ev q dq :
  registered (trace w1) = registered (trace w) → (ev = IN ∨ ev = OUT) →
  heap w1 !! q = Some dq → fd_ dq = fd → data_ok dq → (ev = OUT → pending_ok dq) →
  ¬ foreign (registered (trace w)) (epfd, fd) q →
  (∀ x, foreign (registered (trace w)) (epfd, fd) x → heap w1 !! x = heap w !! x) →
  (∀ x, is_Some (heap w1 !! x) → x < brk w1) →
  ∃ w', ControlEpollEvent epoll_ctl epfd CTL_MOD fd ev (Some q) w1 = (Ok tt, w') ∧ safe w' ∧
    heap w' = heap w1 ∧ size (registered (trace w')) = size (registered (trace w)).
Proof.
  intros Ht Hev Hq Hfd Hd Hpe Hnf Hsame Hb. rewrite ctl_ok by done.
  eexists. split; [done|]. unfold safe. cbn. rewrite registered_snoc, Ht. cbn.
  split; [by eapply (consistent_insert _ _ _ HS)|]. split; [done|].
  by rewrite map_size_insert, Hreg.
Qed.

(** What each handler does, exactly. *)
Lemma hang_up_run : hang_up epoll_ctl epfd fd p w = (Ok tt,
  mkWorld (delete p (heap w)) (brk w) ((trace w ++ [Ctl epfd CTL_DEL fd no_events None]) ++ [Close fd])).
Proof.
  unfold hang_up. run (ctl_ok CTL_DEL no_events None w eq_refl ltac:(done)).
  unfold act. mgo. unfold delete_EventData. cbn [heap brk trace]. by rewrite Hp.
Qed.

Lemma advance_only n : advance p n w = (Ok tt,
  mkWorld (<[p := advanced d n]> (heap w)) (brk w) (trace w ++ [Send (fd_ d) (take n (drop (cursor_ d) (buf_ d)))])).
Proof. unfold advance. run deref_ok. unfold act. mgo. unfold store. cbn [heap brk trace]. by rewrite Hp. Qed.

Lemma advance_run n :
  (advance p n;; ControlEpollEvent epoll_ctl epfd CTL_MOD fd OUT (Some p)) w = (Ok tt,
    mkWorld (<[p := advanced d n]> (heap w)) (brk w)
      ((trace w ++ [Send (fd_ d) (take n (drop (cursor_ d) (buf_ d)))]) ++ [Ctl epfd CTL_MOD fd OUT (Some p)])).
Proof.
  run (advance_only n). rewrite ctl_ok; [done|cbn; by rewrite registered_snoc|done].
Qed.

Lemma finish_run : finish epoll_ctl epfd fd p w = (Ok tt,
  if keep_alive_ d then
    mkWorld (<[brk w := set_fd fd EventData_new]> (delete p (heap w))) (S (brk w))
      (trace w ++ [Ctl epfd CTL_MOD fd IN (Some (brk w))])
  else mkWorld (delete p (heap w)) (brk w) ((trace w ++ [Ctl epfd CTL_DEL fd no_events None]) ++ [Close fd])).
Proof.
  unfold finish. run deref_ok.
  assert (delete_EventData p w = (Ok tt, mkWorld (delete p (heap w)) (brk w) (trace w))) as E
    by (unfold delete_EventData; by rewrite Hp).
  run E. set (w1 := mkWorld (delete p (heap w)) _ _). destruct (keep_alive_ d).
  - assert (new_EventData fd w1 = (Ok (brk w),
      mkWorld (<[brk w := set_fd fd EventData_new]> (delete p (heap w))) (S (brk w)) (trace w))) as E2 by done.
    run E2. by rewrite ctl_ok.
  - by run (ctl_ok CTL_DEL no_events None w1 eq_refl ltac:(done)).
Qed.

(** Registering the descriptor as it was. *)
Lemma rearmed_same w1 : registered (trace w1) !! (epfd, fd) = Some (i, Some p) →
  same_state w1 (mkWorld (heap w1) (brk w1) (trace w1 ++ [Ctl epfd CTL_MOD fd i (Some p)])).
Proof.
  intros H1. split; [done|]. split; [done|]. split; [|intros fd'; symmetry; apply sent_to_ctl].
  cbn [trace]. rewrite registered_snoc. cbn. by rewrite insert_id.
Qed.

Lemma hang_up_safe :
  ∃ w', hang_up epoll_ctl epfd fd p w = (Ok tt, w') ∧ safe w' ∧ accounts 0 w w'.
Proof.
  rewrite hang_up_run. eexists. split; [done|]. unfold safe, accounts. cbn. rewrite !registered_snoc. cbn.
  destruct owner_facts as (_ & _ & _ & _ & Hnf). split.
  - apply (consistent_delete _ _ _ HS).
    + intros q Hq. rewrite lookup_delete_ne; [done|]. by intros <-.
    + intros q [x [_ Hx]%lookup_delete_Some]. apply (co_brk _ _ _ HS). by eexists.
  - rewrite !map_size_delete, Hreg, Hp. assert (size (registered (trace w)) ≠ 0) by (intros E; by rewrite (map_size_empty_inv _ E) in Hreg).
    assert (size (heap w) ≠ 0) by (intros E; by rewrite (map_size_empty_inv _ E) in Hp). lia.
Qed.

Lemma rearm_safe ev :
  (ev = IN ∨ ev = OUT ∧ i = OUT) →
  ∃ w', ControlEpollEvent epoll_ctl epfd CTL_MOD fd ev (Some p) w = (Ok tt, w') ∧ safe w' ∧
    accounts 0 w w'.
Proof.
  intros Hev. destruct owner_facts as (Hfd & Hd & Hpe & Hlt & Hnf).
  destruct (mod_safe w ev p d) as (w' & E & HS' & Eh & Es); try done.
  - by destruct Hev as [|[-> _]]; [left|right].
  - intros ->. by destruct Hev as [|[_ ?]]; auto.
  - apply (co_brk _ _ _ HS).
  - exists w'. split; [done|]. split; [done|]. unfold accounts. rewrite Eh, Es. lia.
Qed.

Lemma advance_safe n :
  i = OUT → 0 < n ≤ length_ d →
  ∃ w', (advance p n;; ControlEpollEvent epoll_ctl epfd CTL_MOD fd OUT (Some p)) w = (Ok tt, w') ∧
    safe w' ∧ accounts 0 w w'.
Proof.
  intros Hi Hn. destruct owner_facts as (Hfd & Hd & Hpe & Hlt & Hnf). rewrite advance_run.
  eexists. split; [done|]. unfold safe, accounts. cbn. rewrite !registered_snoc. cbn. split.
  - eapply (consistent_insert _ _ _ HS _ _ _ (advanced d n)); try done.
    + by right.
    + apply lookup_insert_eq.
    + intros _. specialize (Hpe Hi). unfold pending_ok in *. cbn. lia.
    + intros x Hx. rewrite lookup_insert_ne; [done|]. by intros <-.
    + intros x Hx. destruct (decide (x = p)) as [->|]; [done|].
      rewrite lookup_insert_ne in Hx by done. by apply (co_brk _ _ _ HS).
  - rewrite map_size_insert_Some by by eexists. rewrite map_size_insert_Some by by eexists. lia.
Qed.

Lemma fresh_not_foreign : ¬ foreign (registered (trace w)) (epfd, fd) (brk w).
Proof. intros Hf. destruct (foreign_live _ _ _ HS _ _ Hf) as [_ ?]. lia. Qed.

Lemma brk_fresh : heap w !! brk w = None.
Proof.
  destruct (heap w !! brk w) eqn:E; [|done]. pose proof (co_brk _ _ _ HS (brk w)). rewrite E in H.
  specialize (H ltac:(by eexists)). lia.
Qed.

Lemma EventData_new_ok : data_ok (set_fd fd EventData_new) ∧ pending_ok (set_fd fd EventData_new).
Proof. unfold data_ok, pending_ok, set_fd, EventData_new. cbn [buf_ cursor_ length_]. rewrite length_replicate. lia. Qed.

Lemma finish_safe :
  ∃ w', finish epoll_ctl epfd fd p w = (Ok tt, w') ∧ safe w' ∧ accounts 0 w w'.
Proof.
  destruct owner_facts as (Hfd & Hd & Hpe & Hlt & Hnf). rewrite finish_run.
  assert (size (heap w) ≠ 0) by (intros E'; by rewrite (map_size_empty_inv _ E') in Hp).
  assert (size (registered (trace w)) ≠ 0) by (intros E'; by rewrite (map_size_empty_inv _ E') in Hreg).
  assert (∀ x, foreign (registered (trace w)) (epfd, fd) x → x ≠ p) as Hxp by (intros x Hx ->; done).
  eexists. split; [done|]. unfold safe, accounts. destruct (keep_alive_ d); cbn; rewrite !registered_snoc; cbn; split.
  - destruct EventData_new_ok as [Hn1 Hn2].
    apply (consistent_insert _ _ _ HS _ _ _ (set_fd fd EventData_new)); try done.
    + by left.
    + apply lookup_insert_eq.
    + apply fresh_not_foreign.
    + intros x Hx. rewrite lookup_insert_ne by (intros <-; by apply fresh_not_foreign).
      rewrite lookup_delete_ne; [done|]. by intros <-.
    + intros x Hx. destruct (decide (x = brk w)) as [->|]; [lia|].
      rewrite lookup_insert_ne in Hx by done. destruct Hx as [y [_ Hy]%lookup_delete_Some].
      pose proof (co_brk _ _ _ HS x ltac:(by eexists)). lia.
  - rewrite map_size_insert_None, map_size_delete, Hp; [|rewrite lookup_delete_ne by lia; apply brk_fresh].
    rewrite map_size_insert_Some by by eexists. lia.
  - apply (consistent_delete _ _ _ HS).
    + intros q Hq. rewrite lookup_delete_ne; [done|]. by intros <-.
    + intros q [x [_ Hx]%lookup_delete_Some]. apply (co_brk _ _ _ HS). by eexists.
  - rewrite !map_size_delete, Hreg, Hp. lia.
Qed.

Lemma store_ok q x w1 : is_Some (heap w1 !! q) →
  store q x w1 = (Ok tt, mkWorld (<[q := x]> (heap w1)) (brk w1) (trace w1)).
Proof. intros [y Hy]. unfold store. by rewrite Hy. Qed.

Lemma deref_some q x w1 : heap w1 !! q = Some x → deref q w1 = (Ok x, w1).
Proof. intros H. unfold deref. by rewrite H. Qed.

(** The request object after [recv]. *)
Definition request_of (bytes : str) : EventData :=
  mkEventData (fd_ d) (length bytes) (cursor_ d) (bytes ++ drop (length bytes) (buf_ d)) (keep_alive_ d).

Lemma receive_ok bytes :
  data_ok d → length bytes ≤ kMaxBufferSize →
  ∃ w1, recv_into p bytes w = (Ok tt, w1) ∧
    set_length p (length bytes) w1 =
      (Ok tt, mkWorld (<[p := request_of bytes]> (heap w)) (brk w) (trace w)).
Proof.
  intros Hd Hb. unfold recv_into. run deref_ok. rewrite memcpy_buf_ok by by rewrite Hd. mgo.
  rewrite store_ok by by eexists. eexists. split; [done|]. unfold set_length.
  rewrite (bind_ok _ _ _ _ _ (deref_some p _ _ (lookup_insert_eq _ _ _))).
  rewrite store_ok by (cbn; rewrite lookup_insert_eq; by eexists). cbn. by rewrite insert_insert_eq.
Qed.

(** The response object, before it is filled. *)
Definition response_new : EventData := set_fd fd EventData_new.

Lemma serve_run bytes res :
  length bytes ≤ kMaxBufferSize → HandleRequestData hs (request_of bytes) response_new = Ok res →
  serve hs epoll_ctl epfd fd p bytes w = (Ok tt,
    mkWorld (<[brk w := res]> (<[p := request_of bytes]> (heap w))) (S (brk w))
      (trace w ++ [Ctl epfd CTL_MOD fd OUT (Some (brk w))])).
Proof.
  intros Hb Hres. destruct owner_facts as (Hfd & Hd & Hpe & Hlt & Hnf). unfold serve.
  destruct (receive_ok bytes Hd Hb) as (w0 & E0 & E1). run E0. run E1.
  set (d1 := request_of bytes) in *. set (w1 := mkWorld (<[p := d1]> (heap w)) _ _).
  assert (new_EventData fd w1 = (Ok (brk w),
    mkWorld (<[brk w := response_new]> (<[p := d1]> (heap w))) (S (brk w)) (trace w))) as E2 by done.
  run E2. set (h2 := <[brk w := _]> _).
  assert (h2 !! p = Some d1) as H2.
  { unfold h2. rewrite lookup_insert_ne by lia. apply lookup_insert_eq. }
  rewrite (bind_ok _ _ _ _ _ (deref_some p d1 (mkWorld h2 _ _) H2)).
  rewrite (bind_ok _ _ _ _ _ (deref_some (brk w) _ (mkWorld h2 _ _) (lookup_insert_eq _ _ _))).
  rewrite Hres. mgo.
  assert (is_Some (h2 !! brk w)) as H3 by (unfold h2; rewrite lookup_insert_eq; by eexists).
  rewrite (bind_ok _ _ _ _ _ (store_ok (brk w) res (mkWorld h2 _ _) H3)).
  cbn [heap brk trace]. rewrite ctl_ok by done. cbn [heap brk trace]. unfold h2. by rewrite insert_insert_eq.
Qed.

(** A response that was built is a prefix of its buffer. *)
Lemma response_facts rq res : HandleRequestData hs rq response_new = Ok res →
  fd_ res = fd ∧ data_ok res ∧ pending_ok res.
Proof.
  intros Hres. destruct EventData_new_ok as [Hn1 _].
  assert (fd_ response_new = fd ∧ cursor_ response_new = 0 ∧ length (buf_ response_new) = kMaxBufferSize) as (H1 & H2 & H3) by done.
  generalize dependent response_new. clear Hn1. intros rn Hres H1 H2 H3. rewrite HandleRequestData_spec in Hres. destruct (response_of _ _) as [[r| | |] q]; try done.
  cbn [mbind outcome_bind] in Hres. unfold memcpy_buf in Hres.
  rewrite H3 in Hres. destruct (decide _) as [Hle|]; [|done]. cbn [mbind outcome_bind] in Hres.
  injection Hres as <-. unfold data_ok, pending_ok. cbn [buf_ cursor_ length_ fd_].
  rewrite length_app, length_drop, H2, H3. split; [done|]. lia.
Qed.

Lemma serve_safe bytes :
  length bytes ≤ kMaxBufferSize →
  ∃ w', serve hs epoll_ctl epfd fd p bytes w = (Ok tt, w') ∧ safe w' ∧ accounts 1 w w'.
Proof.
  intros Hb. destruct owner_facts as (Hfd & Hd & Hpe & Hlt & Hnf).
  destruct (Hfit (request_of bytes) response_new) as [res Hres]; [apply EventData_new_ok|].
  rewrite (serve_run bytes res Hb Hres). destruct (response_facts _ _ Hres) as (Hr1 & Hr2 & Hr3).
  eexists. split; [done|]. unfold safe, accounts. cbn. rewrite !registered_snoc. cbn. split.
  - apply (consistent_insert _ _ _ HS _ _ _ res); try done.
    + by right.
    + apply lookup_insert_eq.
    + apply fresh_not_foreign.
    + intros x Hx. rewrite !lookup_insert_ne; [done| |]; [by intros <-|].
      intros <-. by apply fresh_not_foreign.
    + intros x Hx. destruct (decide (x = brk w)) as [->|]; [lia|].
      rewrite lookup_insert_ne in Hx by done. destruct (decide (x = p)) as [->|]; [lia|].
      rewrite lookup_insert_ne in Hx by done. pose proof (co_brk _ _ _ HS x Hx). lia.
  - rewrite map_size_insert_None, !map_size_insert_Some; [lia|by eexists|by eexists|].
    rewrite lookup_insert_ne by lia. apply brk_fresh.
Qed.
End Owner.

Lemma accept_safe workers worker epfd fd w :
  safe w → (0 ≤ fd)%Z → workers !! worker = Some epfd → registered (trace w) !! (epfd, fd) = None →
  ∃ n w', ListenClient_step epoll_ctl workers worker fd w = (Ok n, w') ∧ safe w' ∧ accounts 0 w w'.
Proof.
  intros HS Hfd Hw Hn. unfold ListenClient_step. rewrite decide_False by lia.
  set (h2 := <[brk w := set_fd fd EventData_new]> (heap w)).
  assert (new_EventData fd w = (Ok (brk w), mkWorld h2 (S (brk w)) (trace w))) as E by done.
  run E. rewrite Hw.
  assert (ControlEpollEvent epoll_ctl epfd CTL_ADD fd IN (Some (brk w)) (mkWorld h2 (S (brk w)) (trace w))
    = (Ok tt, mkWorld h2 (S (brk w)) (trace w ++ [Ctl epfd CTL_ADD fd IN (Some (brk w))]))) as E2.
  { unfold ControlEpollEvent. mgo. by rewrite Hctl. }
  run E2. eexists _, _. split; [done|]. unfold safe, accounts. cbn. rewrite registered_snoc. cbn.
  destruct (EventData_new_ok fd) as [Hn1 Hn2].
  assert (heap w !! brk w = None) as Hfresh by by apply brk_fresh.
  split.
  - apply (consistent_insert _ _ _ HS _ _ _ (set_fd fd EventData_new)); try done.
    + by left.
    + unfold h2. apply lookup_insert_eq.
    + intros Hf. destruct (foreign_live _ _ _ HS _ _ Hf) as [_ ?]. lia.
    + intros q Hq. unfold h2. rewrite lookup_insert_ne; [done|]. intros <-.
      destruct (foreign_live _ _ _ HS _ _ Hq) as [_ ?]. lia.
    + intros q Hq. destruct (decide (q = brk w)) as [->|]; [lia|]. unfold h2 in Hq.
      rewrite lookup_insert_ne in Hq by done. pose proof (co_brk _ _ _ HS q Hq). lia.
  - unfold h2. rewrite !map_size_insert_None by done. lia.
Qed.

Section ReadyEvent.
Context (w : world) (epfd fd : Z) (i : interest) (p : ptr) (d : EventData).
Context (HS : safe w) (Hreg : registered (trace w) !! (epfd, fd) = Some (i, Some p)) (Hp : heap w !! p = Some d).
Context (event : ready) (r : recv_result) (s : send_result).
Context (Hin : ev_in event = true → i = IN) (Hout : ev_out event = true → i = OUT).

Lemma plain_event_safe :
  (∀ bytes, r = Received bytes → 0 < length bytes ≤ kMaxBufferSize) → (∀ n, s = Sent n → 0 < n ≤ length_ d) →
  ∃ w', EventLoop_event hs epoll_ctl epfd event p r s w = (Ok tt, w') ∧ safe w' ∧
    accounts (served (Ready epfd fd event r s)) w w'.
Proof.
  intros Hr Hs. cbn [served]. destruct (owner_facts w epfd fd i p d HS Hreg Hp) as (Hfd & _).
  pose proof (hang_up_safe w epfd fd i p d HS Hreg Hp) as Hhang. unfold EventLoop_event.
  assert (∃ w', (d0 ← deref p; hang_up epoll_ctl epfd (fd_ d0) p) w = (Ok tt, w') ∧ safe w' ∧
    accounts 0 w w') as Hhang'.
  { rewrite (bind_ok _ _ _ _ _ (deref_ok w p d Hp)), Hfd. exact Hhang. }
  destruct (ev_hup event || ev_err event); [destruct r; exact Hhang'|].
  destruct (ev_in event) eqn:Ein; cbn [orb].
  + specialize (Hin eq_refl). subst i. unfold HandleEpollEvent. rewrite Ein.
    unfold HandleEpollEvent_in. rewrite (bind_ok _ _ _ _ _ (deref_ok w p d Hp)), Hfd.
    destruct r as [bytes| | |]; [|exact Hhang| |exact Hhang].
    * eapply serve_safe; [done..|]. by apply Hr.
    * eapply rearm_safe; [done..|]. by left.
  + assert (∃ w', (if ev_out event then HandleEpollEvent hs epoll_ctl epfd event p r s
      else d ← deref p; hang_up epoll_ctl epfd (fd_ d) p) w = (Ok tt, w') ∧ safe w' ∧
      accounts 0 w w') as Hgoal; [|by destruct r].
    destruct (ev_out event); [|exact Hhang'].
    specialize (Hout eq_refl). subst i. unfold HandleEpollEvent. rewrite Ein.
    unfold HandleEpollEvent_out. rewrite (bind_ok _ _ _ _ _ (deref_ok w p d Hp)), Hfd.
    destruct s as [n| | |]; [| | |exact Hhang].
    * eapply advance_safe; [done..|]. by apply Hs.
    * by eapply finish_safe.
    * eapply rearm_safe; [done..|]. by right.
Qed.

(** The handlers of the coroutines leave the same state. *)
Lemma co_event_same w' : EventLoop_event hs epoll_ctl epfd event p r s w = (Ok tt, w') →
  ∃ w1, EventLoopWithCo_event hs epoll_ctl epfd event p r s w = (Ok tt, w1) ∧ same_state w1 w'.
Proof.
  unfold EventLoop_event, EventLoopWithCo_event. destruct (owner_facts w epfd fd i p d HS Hreg Hp) as (Hfd & _).
  destruct (ev_hup event || ev_err event); [by exists w'|].
  destruct (ev_in event) eqn:Ein; cbn [orb]; [|destruct (ev_out event); [|by exists w']];
    unfold HandleEpollEvent; rewrite Ein.
  - specialize (Hin eq_refl). subst i. unfold HandleEpollEvent_in, HandleReadEvent.
    rewrite !(bind_ok _ _ _ _ _ (deref_ok w p d Hp)), Hfd. destruct r; [by exists w'|by exists w'| |by exists w'].
    rewrite (ctl_ok w epfd fd IN p Hreg) by done. intros [= <-]. exists w. split; [done|]. by apply rearmed_same.
  - specialize (Hout eq_refl). subst i. unfold HandleEpollEvent_out, HandleWriteEvent.
    rewrite !(bind_ok _ _ _ _ _ (deref_ok w p d Hp)), Hfd. destruct s; [|by exists w'| |by exists w'].
    + rewrite (advance_run w epfd fd OUT p d Hreg Hp), (advance_only w p d Hp). intros [= <-]. eexists. split; [done|].
      apply (rearmed_same epfd fd OUT p (mkWorld _ _ _)). cbn [trace]. by rewrite registered_snoc.
    + rewrite (ctl_ok w epfd fd OUT p Hreg) by done. intros [= <-]. exists w. split; [done|]. by apply rearmed_same.
Qed.

Lemma worker_event_same w' : EventLoop_event hs epoll_ctl epfd event p r s w = (Ok tt, w') →
  ∃ w1, worker_event hs epoll_ctl use_co epfd event p r s w = (Ok tt, w1) ∧ same_state w1 w'.
Proof. intros E. unfold worker_event. destruct use_co; [by apply co_event_same|by exists w']. Qed.
End ReadyEvent.

Lemma run_event_safe workers e w :
  safe w → valid workers e w →
  ∃ w', run_event workers e w = (Ok tt, w') ∧ safe w' ∧ accounts (served e) w w'.
Proof.
  intros HS Hv. destruct e as [worker fd|epfd fd event r s].
  - cbn [run_event served]. destruct Hv as (Hfd & [epfd Hw] & Hn).
    destruct (accept_safe workers worker epfd fd w HS Hfd Hw (Hn epfd)) as (n & w' & E & HS' & Ha).
    exists w'. by run E.
  - destruct Hv as (i & p & d & Hreg & Hp & Hin & Hout & Hr & Hs). cbn [run_event]. mgo. rewrite Hreg.
    destruct (plain_event_safe w epfd fd i p d HS Hreg Hp event r s Hin Hout Hr Hs) as (w' & E & HS' & Ha).
    destruct (worker_event_same w epfd fd i p d HS Hreg Hp event r s Hin Hout w' E) as (w1 & E1 & H1).
    exists w1. split; [done|]. split; [by eapply same_state_safe|]. unfold accounts in *. destruct H1 as (-> & _ & -> & _). done.
Qed.

Fixpoint run_events (workers : list Z) (es : list sys_event) : M world unit :=
  match es with
  | [] => mret tt
  | e :: es => run_event workers e;; run_events workers es
  end.

(** Each event is possible when it happens. *)
Fixpoint valid_run (workers : list Z) (es : list sys_event) (w : world) : Prop :=
  match es with
  | [] => True
  | e :: es => valid workers e w ∧ valid_run workers es (run_event workers e w).2
  end.

Lemma run_events_safe workers es w :
  safe w → valid_run workers es w →
  ∃ w', run_events workers es w = (Ok tt, w') ∧ safe w' ∧
    accounts (sum_list (served <$> es)) w w'.
Proof.
  revert w. induction es as [|e es IH]; intros w HS Hv; cbn [run_events].
  - exists w. split; [done|]. split; [done|]. unfold accounts. cbn. lia.
  - destruct Hv as [Hv Hvs]. destruct (run_event_safe workers e w HS Hv) as (w1 & E & HS1 & Ha1).
    rewrite E in Hvs. destruct (IH w1 HS1 Hvs) as (w2 & E2 & HS2 & Ha2).
    exists w2. run E. split; [done|]. split; [done|]. unfold accounts in *. cbn. lia.
Qed.
End Safety.

Definition empty_world : world := mkWorld ∅ 0 [].

Lemma safe_start : safe empty_world.
Proof.
  split.
  - intros k v Hk. change (registered (trace empty_world)) with (∅ : reg_map) in Hk.
    by apply lookup_empty_Some in Hk.
  - intros k1 k2 i1 i2 p Hk. change (registered (trace empty_world)) with (∅ : reg_map) in Hk.
    by apply lookup_empty_Some in Hk.
  - intros p [x Hx]. change (heap empty_world) with (∅ : gmap ptr EventData) in Hx.
    by apply lookup_empty_Some in Hx.
Qed.

(** [C6] Memory safety and leak of the event loops, the plain one and the one with
    coroutines.  From start-up, over
    any run of connections, readiness events and results of [recv] and [send]
    (partial writes, errors, hang-ups included) in which the responses fit
    their buffer: no object is used after it is freed, freed twice or shared by
    two connections, no [epoll_ctl] fails, every registered descriptor owns a
    live object of its own; and each request served leaks its object, so the
    live objects are the open connections plus the requests served so far. *)
Theorem server_memory_safe hs epoll_ctl use_co workers es :
  ctl_spec epoll_ctl → responses_fit hs → valid_run hs epoll_ctl use_co workers es empty_world →
  ∃ w, run_events hs epoll_ctl use_co workers es empty_world = (Ok tt, w) ∧ safe w ∧
    size (heap w) = size (registered (trace w)) + sum_list (served <$> es).
Proof.
  intros Hctl Hfit Hv.
  destruct (run_events_safe hs epoll_ctl Hctl Hfit use_co workers es empty_world) as (w & E & HS & Ha); [apply safe_start|done|].
  exists w. split; [done|]. split; [done|]. unfold accounts in Ha.
    unfold registered in Ha at 1. cbn in Ha. rewrite !map_size_empty in Ha. lia.
Qed.

Definition kernel (tr : list action) (epfd : Z) (op : ctl_op) (fd : Z) : bool :=
  match op, registered tr !! (epfd, fd) with
  | CTL_ADD, None => true
  | CTL_ADD, Some _ => false
  | _, Some _ => true
  | _, None => false
  end.

Lemma kernel_spec : ctl_spec kernel.
Proof.
  intros tr epfd op fd H. unfold kernel. destruct op; [by rewrite H|..]; by destruct H as [v ->].
Qed.

Lemma no_routes_fit : responses_fit [].
Proof.
  intros rq rs Hb. pose proof (FromString_cases (take (length_ rq) (buf_ rq)) HttpRequest_new) as Ht.
  destruct (FromString _ HttpRequest_new) as [[[]|e| |] req] eqn:E; try done.
  - rewrite HandleRequestData_spec. unfold response_of. rewrite E. cbn [mbind outcome_bind].
    unfold HandleRequestMessage. rewrite find_query. cbn [mbind outcome_bind dget].
    rewrite memcpy_buf_ok; [by eexists|]. rewrite Hb.
    destruct (bool_decide _); apply Nat.leb_le; vm_compute; done.
  - rewrite HandleRequestData_spec. unfold response_of. rewrite E. cbn [mbind outcome_bind].
    rewrite memcpy_buf_ok; [by eexists|]. rewrite Hb. apply error_response_fits, Ht.
Qed.

Definition get_root : str := lit "GET / HTTP/1.0" ++ crlf ++ crlf.
Definition readable : ready := mkReady false false true false.
Definition writable : ready := mkReady false false false true.

Lemma server_memory_safe_witness :
  ∃ w, run_events [] kernel true [100%Z]
      [Accept 0 7; Ready 100 7 readable (Received get_root) SentNothing;
       Ready 100 7 writable RecvAgain (Sent 10)] empty_world = (Ok tt, w) ∧ safe w ∧
    size (heap w) = size (registered (trace w)) + 1.
Proof.
  apply (server_memory_safe [] kernel true [100%Z]
    [Accept 0 7; Ready 100 7 readable (Received get_root) SentNothing;
     Ready 100 7 writable RecvAgain (Sent 10)]).
  - apply kernel_spec.
  - apply no_routes_fit.
  - split; [|split; [|split; [|done]]].
    + split; [lia|]. split; [by eexists|]. intros epfd. apply lookup_empty.
    + exists IN, 0%nat. eexists. split; [vm_compute; reflexivity|]. split; [vm_compute; reflexivity|].
      split; [done|]. split; [done|]. split; [|done]. intros b [= <-]. vm_compute. lia.
    + exists OUT, 1%nat. eexists. split; [vm_compute; reflexivity|]. split; [vm_compute; reflexivity|].
      split; [done|]. split; [done|]. split; [done|]. intros n [= <-]. cbn. lia.
Defined.

(** ** Delivery of a response *)

Section Delivery.
Context (hs : handlers) (epoll_ctl : list action → Z → ctl_op → Z → bool).
Context (Hctl : ctl_spec epoll_ctl) (workers : list Z) (epfd fd : Z).

Definition write_event (s : send_result) : sys_event := Ready epfd fd writable RecvAgain s.

Lemma write_event_step w i p d s :
  registered (trace w) !! (epfd, fd) = Some (i, Some p) → heap w !! p = Some d → fd_ d = fd →
  run_event hs epoll_ctl false workers (write_event s) w =
    match s with
    | Sent n => (advance p n;; ControlEpollEvent epoll_ctl epfd CTL_MOD fd OUT (Some p)) w
    | SentNothing => finish epoll_ctl epfd fd p w
    | SendAgain => ControlEpollEvent epoll_ctl epfd CTL_MOD fd OUT (Some p) w
    | SendError => hang_up epoll_ctl epfd fd p w
    end.
Proof.
  intros Hreg Hp Hfd. unfold run_event, write_event, worker_event. mgo. rewrite Hreg.
  change (EventLoop_event hs epoll_ctl epfd writable p RecvAgain s)
    with (HandleEpollEvent_out epoll_ctl epfd p s).
  unfold HandleEpollEvent_out. rewrite (bind_ok _ _ _ _ _ (deref_ok w p d Hp)), Hfd.
  by destruct s.
Qed.

Lemma send_step w p d n :
  registered (trace w) !! (epfd, fd) = Some (OUT, Some p) → heap w !! p = Some d → fd_ d = fd →
  run_event hs epoll_ctl false workers (write_event (Sent n)) w = (Ok tt,
    mkWorld (<[p := advanced d n]> (heap w)) (brk w)
      (trace w ++ [Send fd (take n (drop (cursor_ d) (buf_ d)));
                   Ctl epfd CTL_MOD fd OUT (Some p)])).
Proof.
  intros Hreg Hp Hfd. rewrite (write_event_step w OUT p d) by done.
  by rewrite (advance_run epoll_ctl Hctl w epfd fd OUT p d Hreg Hp), Hfd, <- app_assoc.
Qed.

(** After the last byte: freed, then waiting for the next request or closed. *)
Lemma finish_step w i p d :
  registered (trace w) !! (epfd, fd) = Some (i, Some p) → heap w !! p = Some d → fd_ d = fd →
  ∃ w', run_event hs epoll_ctl false workers (write_event SentNothing) w = (Ok tt, w') ∧
    sent_to fd (trace w') = sent_to fd (trace w) ∧
    (if keep_alive_ d then registered (trace w') !! (epfd, fd) = Some (IN, Some (brk w))
     else registered (trace w') !! (epfd, fd) = None ∧ last (trace w') = Some (Close fd)).
Proof.
  intros Hreg Hp Hfd. rewrite (write_event_step w i p d) by done.
  rewrite (finish_run epoll_ctl Hctl w epfd fd i p d Hreg Hp). eexists. split; [done|].
  destruct (keep_alive_ d); cbn [trace]; rewrite !sent_to_app, !registered_snoc.
  - split; [apply app_nil_r|]. apply lookup_insert_eq.
  - split; [rewrite <- app_assoc; apply app_nil_r|]. split; [apply lookup_delete_eq|]. by rewrite last_snoc.
Qed.

Lemma sends_step ns : ∀ w p d,
  registered (trace w) !! (epfd, fd) = Some (OUT, Some p) → heap w !! p = Some d → fd_ d = fd →
  sum_list ns ≤ length_ d →
  ∃ w', run_events hs epoll_ctl false workers ((λ n, write_event (Sent n)) <$> ns) w = (Ok tt, w') ∧
    registered (trace w') !! (epfd, fd) = Some (OUT, Some p) ∧
    heap w' !! p = Some (advanced d (sum_list ns)) ∧ brk w' = brk w ∧
    sent_to fd (trace w') = sent_to fd (trace w) ++ take (sum_list ns) (drop (cursor_ d) (buf_ d)).
Proof.
  induction ns as [|n ns IH]; intros w p d Hreg Hp Hfd Hsum.
  - exists w. cbn. rewrite take_0, app_nil_r. unfold advanced. rewrite Nat.sub_0_r, Nat.add_0_r.
    by destruct d.
  - cbn [fmap list_fmap run_events sum_list sum_list_with] in *. change (sum_list_with id ns) with (sum_list ns) in *.
    run (send_step w p d n Hreg Hp Hfd). set (w1 := mkWorld _ _ _).
    destruct (IH w1 p (advanced d n)) as (w2 & E & Hreg2 & Hp2 & Hb2 & Hs2).
    + cbn. change [?a; ?b] with ([a] ++ [b]). rewrite app_assoc, !registered_snoc. cbn.
      apply lookup_insert_eq.
    + apply lookup_insert_eq.
    + done.
    + cbn. unfold id in *. lia.
    + exists w2. split; [exact E|]. split; [done|]. split; [|split; [done|]].
      * rewrite Hp2. unfold advanced, id. cbn. f_equal. f_equal; lia.
      * rewrite Hs2. cbn [trace w1 advanced cursor_ buf_]. rewrite sent_to_app. cbn.
        rewrite decide_True by done. rewrite app_nil_r, <- app_assoc. f_equal. unfold id.
        by rewrite take_drop_split, drop_drop.
Qed.
End Delivery.

(** A response is delivered whole and in order, however the kernel splits
    the writes: if the counts [send] returns add up to its length, the bytes
    sent on the connection are exactly the response buffer from the cursor on;
    the event after the last byte frees it and either waits for the next
    request (keep-alive) or deregisters and closes the connection. *)
Theorem response_delivered hs epoll_ctl workers epfd fd w p d ns :
  ctl_spec epoll_ctl → registered (trace w) !! (epfd, fd) = Some (OUT, Some p) →
  heap w !! p = Some d → fd_ d = fd → sum_list ns = length_ d →
  ∃ w', run_events hs epoll_ctl false workers
      (((λ n, write_event epfd fd (Sent n)) <$> ns) ++ [write_event epfd fd SentNothing]) w = (Ok tt, w') ∧
    sent_to fd (trace w') = sent_to fd (trace w) ++ take (length_ d) (drop (cursor_ d) (buf_ d)) ∧
    (if keep_alive_ d then registered (trace w') !! (epfd, fd) = Some (IN, Some (brk w))
     else registered (trace w') !! (epfd, fd) = None ∧ last (trace w') = Some (Close fd)).
Proof.
  intros Hctl Hreg Hp Hfd Hsum.
  destruct (sends_step hs epoll_ctl Hctl workers epfd fd ns w p d) as (w1 & E1 & Hreg1 & Hp1 & Hb1 & Hs1);
    [done..|lia|].
  destruct (finish_step hs epoll_ctl Hctl workers epfd fd w1 OUT p _ Hreg1 Hp1 Hfd) as (w2 & E2 & Hs2 & Hk).
  assert (∀ l1 l2 w, run_events hs epoll_ctl false workers (l1 ++ l2) w
    = (run_events hs epoll_ctl false workers l1;; run_events hs epoll_ctl false workers l2) w) as Happ.
  { induction l1 as [|e l1 IH]; intros l2 w0; [done|]. cbn [app run_events]. rewrite bind_assoc.
    unfold mbind, M_bind. destruct (run_event _ _ _ _ _ w0) as [[] ?]; done. }
  exists w2. rewrite Happ. run E1. cbn [run_events]. run E2. split; [done|].
  rewrite Hs2, Hs1, Hsum. split; [done|]. by rewrite Hb1 in Hk.
Qed.

Lemma response_delivered_witness :
  let w := mkWorld {[ 3%nat := mkEventData 7 5 0 (lit "hello!") true ]} 4
    [Ctl 100 CTL_ADD 7 IN (Some 1%nat); Ctl 100 CTL_MOD 7 OUT (Some 3%nat)] in
  ∃ w', run_events [] kernel false [] [write_event 100 7 (Sent 2); write_event 100 7 (Sent 3);
      write_event 100 7 SentNothing] w = (Ok tt, w') ∧
    sent_to 7 (trace w') = lit "hello" ∧
    registered (trace w') !! (100%Z, 7%Z) = Some (IN, Some 4%nat).
Proof.
  apply (response_delivered [] kernel [] 100 7
    (mkWorld {[ 3%nat := mkEventData 7 5 0 (lit "hello!") true ]} 4
      [Ctl 100 CTL_ADD 7 IN (Some 1%nat); Ctl 100 CTL_MOD 7 OUT (Some 3%nat)]) 3
    (mkEventData 7 5 0 (lit "hello!") true) [2; 3]).
  - apply kernel_spec.
  - vm_compute. reflexivity.
  - vm_compute. reflexivity.
  - reflexivity.
  - reflexivity.
Defined.

(** [C40] The coroutine loop against the plain one: on every event the two leave
    the same state, except that where the plain handlers register the
    descriptor again ([EAGAIN], and after a partial or complete [send]) the
    coroutine handlers only suspend.  In particular after a [send] the
    coroutine neither re-arms the edge-triggered descriptor nor finishes the
    response. *)
Theorem coroutine_loop_agrees hs epoll_ctl epfd event data r s w d :
  heap w !! data = Some d →
  EventLoop_event hs epoll_ctl epfd event data r s w =
    (EventLoopWithCo_event hs epoll_ctl epfd event data r s;;
     if ev_hup event || ev_err event then mret tt
     else if ev_in event then
       match r with
       | RecvAgain => ControlEpollEvent epoll_ctl epfd CTL_MOD (fd_ d) IN (Some data)
       | _ => mret tt
       end
     else if ev_out event then
       match s with
       | Sent _ | SendAgain => ControlEpollEvent epoll_ctl epfd CTL_MOD (fd_ d) OUT (Some data)
       | _ => mret tt
       end
     else mret tt) w.
Proof.
  intros Hd. assert (∀ m : M world unit, m w = (m;; mret tt) w) as Hret.
  { intros m. unfold mbind, M_bind. by destruct (m w) as [[[]| | |] ?]. }
  assert (∀ (f : EventData → M world unit), (deref data ≫= f) w = f d w) as Hdr.
  { intros f. by rewrite (bind_ok _ _ _ _ _ (deref_ok w data d Hd)). }
  unfold EventLoop_event, EventLoopWithCo_event.
  destruct (ev_hup event || ev_err event); [apply Hret|].
  destruct (ev_in event) eqn:Ein; cbn [orb].
  - unfold HandleEpollEvent. rewrite Ein. unfold HandleEpollEvent_in, HandleReadEvent.
    rewrite bind_assoc, !Hdr. destruct r; [apply Hret|apply Hret|done|apply Hret].
  - destruct (ev_out event); [|apply Hret]. unfold HandleEpollEvent. rewrite Ein.
    unfold HandleEpollEvent_out, HandleWriteEvent. rewrite bind_assoc, !Hdr.
    destruct s; [done|apply Hret|done|apply Hret].
Qed.

Lemma coroutine_loop_agrees_witness :
  let w := mkWorld {[ 3%nat := mkEventData 7 2 0 (lit "ok") false ]} 4
    [Ctl 100 CTL_ADD 7 OUT (Some 3%nat)] in
  EventLoop_event [] kernel 100 writable 3 RecvAgain (Sent 2) w =
    (EventLoopWithCo_event [] kernel 100 writable 3 RecvAgain (Sent 2);;
     ControlEpollEvent kernel 100 CTL_MOD 7 OUT (Some 3%nat)) w.
Proof.
  apply (coroutine_loop_agrees [] kernel 100 writable 3 RecvAgain (Sent 2)
    (mkWorld {[ 3%nat := mkEventData 7 2 0 (lit "ok") false ]} 4 [Ctl 100 CTL_ADD 7 OUT (Some 3%nat)])
    (mkEventData 7 2 0 (lit "ok") false)).
  vm_compute. reflexivity.
Defined.

End HttpServerProps.
