(* ===== verification/HttpSpec.v ===== *)
(** * What the HTTP server promises

    The server as its clients see it: a map of connections, each of which waits
    for a request or has a response to send; no objects, pointers or epoll
    calls.  [HttpSpecProps.v] shows that the accept loop and the event loops of
    [HttpServer.v], with coroutines or without, implement it.  A run of them is a list of rounds: a connection,
    or a turn of a worker's loop, in which the pointers are those [epoll_wait]
    reported at its start. *)

From S2P Require Import Prelude CStr HttpMessage HttpMessageProps HttpServer HttpServerProps.
Import CStr HttpMessage HttpMessageProps HttpServer HttpServerProps.

Module HttpSpec.

(** ** Connections *)

(** What is left of the response, and whether the connection is kept. *)
Inductive conn := Waiting | Answering (rest : str) (keep : bool).

#[global] Instance conn_eq_dec : EqDecision conn.
Proof. solve_decision. Defined.

(** The response to the bytes of a request. *)
Definition answer (hs : handlers) (bytes : str) : outcome (str * bool) :=
  let '(o, req) := response_of hs bytes in
  res ← o;
  Ok (HttpResponse_ToString res (bool_decide (method_ req ≠ HttpMethod.HEAD)),
      bool_decide (GetHeader (lit "Connection") (req_base req) = lit "keep-alive")).

(** One event of a connection: what becomes of it, and the bytes it is sent. *)
Definition conn_event (hs : handlers) (c : conn) (event : ready) (r : recv_result) (s : send_result)
    : option conn * str :=
  if ev_hup event || ev_err event then (None, [])
  else
    match c with
    | Waiting =>
        if ev_in event then
          match r with
          | Received bytes =>
              match answer hs bytes with Ok (text, keep) => (Some (Answering text keep), []) | _ => (None, []) end
          | RecvAgain => (Some Waiting, [])
          | RecvClosed | RecvError => (None, [])
          end
        else (None, [])
    | Answering rest keep =>
        if ev_out event then
          match s with
          | Sent n => (Some (Answering (drop n rest) keep), take n rest)
          | SentNothing => (if keep then Some Waiting else None, [])
          | SendAgain => (Some c, [])
          | SendError => (None, [])
          end
        else (None, [])
    end.

(** ** The server *)

Abbreviation conns := (gmap (Z * Z) conn).

(** The connections after an event, and the bytes that are sent, with their
    descriptor. *)
Definition spec_event (hs : handlers) (workers : list Z) (e : sys_event) (cs : conns) : conns * (Z * str) :=
  match e with
  | Accept worker fd =>
      match workers !! worker with
      | Some epfd => (<[(epfd, fd) := Waiting]> cs, (fd, []))
      | None => (cs, (fd, []))
      end
  | Ready epfd fd event r s =>
      match cs !! (epfd, fd) with
      | Some c => let '(c', out) := conn_event hs c event r s in (partial_alter (λ _, c') (epfd, fd) cs, (fd, out))
      | None => (cs, (fd, []))
      end
  end.

(** What can happen: a connection with a descriptor not in use, or readiness a
    connection asked for, with results [recv] and [send] can give. *)
Definition possible (workers : list Z) (e : sys_event) (cs : conns) : Prop :=
  match e with
  | Accept worker fd => (0 ≤ fd)%Z ∧ is_Some (workers !! worker) ∧ ∀ epfd, cs !! (epfd, fd) = None
  | Ready epfd fd event r s => ∃ c, cs !! (epfd, fd) = Some c ∧
      (ev_in event = true → c = Waiting) ∧
      (ev_out event = true → ∃ rest keep, c = Answering rest keep) ∧
      (∀ bytes, r = Received bytes → 0 < length bytes ≤ kMaxBufferSize) ∧
      (∀ n, s = Sent n → ∃ rest keep, c = Answering rest keep ∧ 0 < n ≤ length rest)
  end.

Fixpoint possible_run (hs : handlers) (workers : list Z) (es : list sys_event) (cs : conns) : Prop :=
  match es with
  | [] => True
  | e :: es => possible workers e cs ∧ possible_run hs workers es (spec_event hs workers e cs).1
  end.

(** The bytes of an output that are for a descriptor. *)
Definition out_for (fd : Z) (o : Z * str) : str := if decide (o.1 = fd) then o.2 else [].

(** A run: the connections at its end, and what each descriptor is sent. *)
Fixpoint spec_run (hs : handlers) (workers : list Z) (es : list sys_event) (cs : conns) : conns :=
  match es with
  | [] => cs
  | e :: es => spec_run hs workers es (spec_event hs workers e cs).1
  end.
Fixpoint spec_sent (hs : handlers) (workers : list Z) (fd : Z) (es : list sys_event) (cs : conns) : str :=
  match es with
  | [] => []
  | e :: es => out_for fd (spec_event hs workers e cs).2 ++ spec_sent hs workers fd es (spec_event hs workers e cs).1
  end.

(** ** Rounds *)

(** A turn of the accept loop, or of the event loop of a worker: the descriptors
    [epoll_wait] reports, each once. *)
Definition ready_fd : Type := Z * ready * recv_result * send_result.
Inductive round := Connect (worker : nat) (fd : Z) | Turn (epfd : Z) (evs : list ready_fd).

Definition ready_event (epfd : Z) (x : ready_fd) : sys_event := let '(fd, event, r, s) := x in Ready epfd fd event r s.
Definition round_events (x : round) : list sys_event :=
  match x with Connect worker fd => [Accept worker fd] | Turn epfd evs => ready_event epfd <$> evs end.
Definition events (l : list round) : list sys_event := concat (round_events <$> l).

Definition fd_of (x : ready_fd) : Z := x.1.1.1.
Definition round_ok (x : round) : Prop := match x with Connect _ _ => True | Turn _ evs => NoDup (fd_of <$> evs) end.

#[global] Instance round_ok_dec x : Decision (round_ok x).
Proof. destruct x; unfold round_ok; apply _. Defined.

(** What [epoll_wait] reports in a state: the pointers are those registered then. *)
Definition reported_in (w : world) (epfd : Z) (evs : list ready_fd) : list reported :=
  omap (λ x, let '(fd, event, r, s) := x in
    v ← registered (trace w) !! (epfd, fd); p ← v.2; Some (event, p, r, s)) evs.

Section Rounds.
Context (hs : handlers) (epoll_ctl : list action → Z → ctl_op → Z → bool) (use_co : bool) (workers : list Z).

Definition run_round (x : round) : M world unit :=
  match x with
  | Connect worker fd => ListenClient_step epoll_ctl workers worker fd;; mret tt
  | Turn epfd evs => worker_loop hs epoll_ctl use_co epfd [λ w, reported_in w epfd evs]
  end.
Fixpoint run_rounds (l : list round) : M world unit :=
  match l with [] => mret tt | x :: l => run_round x;; run_rounds l end.
End Rounds.

(** The rounds of the accept loop: the workers take turns. *)
Fixpoint connects (worker_idx : nat) (accept4 : list Z) : list round :=
  match accept4 with
  | [] => []
  | accepted :: accept4 =>
      if decide (accepted < 0)%Z then connects worker_idx accept4
      else Connect worker_idx accepted :: connects ((worker_idx + 1) mod kThreadPoolSize) accept4
  end.

(** The connections among the results of [accept4]. *)
Definition accepted_fds (accept4 : list Z) : list Z := filter (λ fd, 0 ≤ fd)%Z accept4.

(** ** Clients *)

(** A request as its sender means it, and as RFC 9112 writes it. *)
Record client_request := mkClientRequest {
  rq_method : HttpMethod;
  rq_path : str;
  rq_version : HttpVersion;
  rq_headers : list (str * str);
  rq_body : str }.

Definition request_text (q : client_request) : str :=
  render (rq_method q) (rq_path q) (rq_version q) (rq_headers q) (rq_body q).

Definition well_formed (q : client_request) : Prop :=
  rq_path q ≠ [] ∧ spaceless (rq_path q) ∧ supported (rq_version q) = true ∧
  rq_headers q ≠ [] ∧ Forall field_ok (rq_headers q) ∧ length (request_text q) ≤ kMaxBufferSize.

(** The request the callback is given. *)
Definition built_request (q : client_request) : HttpRequest :=
  request_over HttpRequest_new (rq_method q) (rq_path q) (rq_version q) (rq_headers q) (rq_body q).

(** The callback registered first for the path and the method answers; an exception
    is answered by its status and message. *)
Definition handled (regs : list registration) (q : client_request) : outcome HttpResponse :=
  match chosen regs (built_request q) with Throw e => Ok (catch_response e) | o => o end.

Definition response_text (q : client_request) (res : HttpResponse) : str :=
  HttpResponse_ToString res (bool_decide (rq_method q ≠ HttpMethod.HEAD)).

Definition keeps_alive (q : client_request) : bool :=
  bool_decide (last_value (lit "Connection") (fields (rq_headers q)) None = Some (lit "keep-alive")).

(** An exchange: the request comes in one piece, the response goes out in pieces of
    any sizes. *)
Definition exchange_events (epfd fd : Z) (q : client_request) (ns : list nat) : list sys_event :=
  Ready epfd fd readable (Received (request_text q)) SentNothing ::
  ((λ n, write_event epfd fd (Sent n)) <$> ns) ++ [write_event epfd fd SentNothing].

(** The events of one descriptor. *)
Definition concerns (fd : Z) (e : sys_event) : Prop :=
  match e with Accept _ fd' => fd' = fd | Ready _ fd' _ _ _ => fd' = fd end.
#[global] Instance concerns_dec fd e : Decision (concerns fd e).
Proof. destruct e; unfold concerns; apply _. Defined.
Definition events_of (fd : Z) (es : list sys_event) : list sys_event := filter (concerns fd) es.

(** A client's exchanges: requests, the responses of their callbacks, and the sizes
    of the pieces. *)
Definition exchange : Type := client_request * HttpResponse * list nat.
Definition session_events (epfd fd : Z) (l : list exchange) : list sys_event :=
  concat ((λ x, exchange_events epfd fd x.1.1 x.2) <$> l).

Definition exchange_ok (regs : list registration) (x : exchange) : Prop :=
  well_formed x.1.1 ∧ handled regs x.1.1 = Ok x.1.2 ∧ sum_list x.2 = length (response_text x.1.1 x.1.2).

(** Every request but the last asks to keep the connection. *)
Fixpoint kept (l : list exchange) : Prop :=
  match l with
  | [] => True
  | x :: l => (l ≠ [] → keeps_alive x.1.1 = true) ∧ kept l
  end.

Definition session_end (l : list exchange) : option conn :=
  match last l with
  | Some x => if keeps_alive x.1.1 then Some Waiting else None
  | None => Some Waiting
  end.

End HttpSpec.
