(* ===== verification/HttpSpecProps.v ===== *)
(** * The event loop implements its specification

    Every run of the accept loop and the event loops over any connections is a run
    of the map of connections of [HttpSpec.v]; from it, what a client that sends
    requests over a kept connection receives, whatever the other clients do. *)

From S2P Require Import Prelude CStr HttpMessage HttpMessageProps HttpServer HttpServerProps HttpSpec.
Import CStr HttpMessage HttpMessageProps HttpServer HttpServerProps HttpSpec.

Module HttpSpecProps.

(** ** The connection behind a descriptor *)

Definition rest_of (d : EventData) : str := take (length_ d) (drop (cursor_ d) (buf_ d)).

Definition conn_of (i : interest) (d : EventData) : conn :=
  if i_in i then Waiting else Answering (rest_of d) (keep_alive_ d).

Definition view (w : world) (k : Z * Z) : option conn :=
  v ← registered (trace w) !! k; p ← v.2; d ← heap w !! p; Some (conn_of v.1 d).

Lemma view_some w k i p d : registered (trace w) !! k = Some (i, Some p) → heap w !! p = Some d →
  view w k = Some (conn_of i d).
Proof. intros Hk Hp. unfold view. rewrite Hk. cbn. by rewrite Hp. Qed.
Lemma view_none w k : registered (trace w) !! k = None → view w k = None.
Proof. intros Hk. unfold view. by rewrite Hk. Qed.

(** A connection has its object. *)
Lemma view_inv w k c : safe w → view w k = Some c →
  ∃ i p d, registered (trace w) !! k = Some (i, Some p) ∧ heap w !! p = Some d ∧ c = conn_of i d ∧ (i = IN ∨ i = OUT).
Proof.
  intros HS Hv. unfold view in Hv. destruct (registered (trace w) !! k) as [[i po]|] eqn:Hk; [|done].
  destruct (co_owned _ _ _ HS _ _ Hk) as (Hi & p & d & E & Hp & _). cbn in *. subst po. cbn in Hv. rewrite Hp in Hv.
  injection Hv as <-. by exists i, p, d.
Qed.
Lemma view_none_inv w k : safe w → view w k = None → registered (trace w) !! k = None.
Proof.
  intros HS Hv. destruct (registered (trace w) !! k) as [[i po]|] eqn:Hk; [|done].
  destruct (co_owned _ _ _ HS _ _ Hk) as (Hi & p & d & E & Hp & _). cbn in *. subst po.
  by rewrite (view_some _ _ _ _ _ Hk Hp) in Hv.
Qed.

(** ** One event *)

Definition implements (w : world) (cs : conns) : Prop := safe w ∧ ∀ k, view w k = cs !! k.

(** A step that leaves the other connections and their objects alone. *)
Lemma implements_step w w' cs k c' : implements w cs → safe w' →
  (∀ k', k' ≠ k → registered (trace w') !! k' = registered (trace w) !! k') →
  (∀ q, foreign (registered (trace w)) k q → heap w' !! q = heap w !! q) →
  view w' k = c' → implements w' (partial_alter (λ _, c') k cs).
Proof.
  intros [HS Hv] HS' Hreg Hheap <-. split; [done|]. intros k'. destruct (decide (k' = k)) as [->|Hne].
  - by rewrite lookup_partial_alter_eq.
  - rewrite lookup_partial_alter_ne, <- Hv by done. unfold view. rewrite (Hreg k') by done.
    destruct (registered (trace w) !! k') as [[i [p|]]|] eqn:Hk; [|done..]. cbn. rewrite Hheap; [done|].
    by exists k', i.
Qed.

Lemma rest_advanced d n : rest_of (advanced d n) = drop n (rest_of d).
Proof. unfold rest_of. cbn. by rewrite skipn_firstn_comm, drop_drop. Qed.

Lemma rest_length d : data_ok d → pending_ok d → length (rest_of d) = length_ d.
Proof. unfold data_ok, pending_ok, rest_of. intros Hd Hp. rewrite length_take, length_drop. lia. Qed.

(** Runs in pieces. *)
Lemma spec_run_app hs workers es1 es2 : ∀ cs,
  spec_run hs workers (es1 ++ es2) cs = spec_run hs workers es2 (spec_run hs workers es1 cs).
Proof. induction es1 as [|e es1 IH]; intros cs; [done|]. apply IH. Qed.
Lemma spec_sent_app hs workers fd es1 es2 : ∀ cs,
  spec_sent hs workers fd (es1 ++ es2) cs =
  spec_sent hs workers fd es1 cs ++ spec_sent hs workers fd es2 (spec_run hs workers es1 cs).
Proof. induction es1 as [|e es1 IH]; intros cs; [done|]. cbn. by rewrite IH, app_assoc. Qed.
Lemma possible_run_app hs workers es1 es2 : ∀ cs,
  possible_run hs workers (es1 ++ es2) cs ↔
  possible_run hs workers es1 cs ∧ possible_run hs workers es2 (spec_run hs workers es1 cs).
Proof. induction es1 as [|e es1 IH]; intros cs; cbn; [tauto|]. rewrite IH. tauto. Qed.

Section Event.
Context (hs : handlers) (epoll_ctl : list action → Z → ctl_op → Z → bool).
Context (Hctl : ctl_spec epoll_ctl) (Hfit : responses_fit hs) (use_co : bool) (workers : list Z).

(** The object of a response that was built. *)
Lemma answer_spec d fd bytes : data_ok d → length bytes ≤ kMaxBufferSize →
  ∃ text keep res, answer hs bytes = Ok (text, keep) ∧
    HandleRequestData hs (request_of d bytes) (response_new fd) = Ok res ∧
    conn_of OUT res = Answering text keep.
Proof.
  intros Hd Hb. destruct (Hfit (request_of d bytes) (response_new fd)) as [res Hres]; [done|].
  assert (take (length_ (request_of d bytes)) (buf_ (request_of d bytes)) = bytes) as E by apply take_app_length.
  pose proof Hres as Hres'. rewrite HandleRequestData_spec, E in Hres'. unfold answer.
  destruct (response_of hs bytes) as [[r| | |] q]; try done. cbn [mbind outcome_bind] in *.
  destruct (memcpy_buf _ _) as [buf| | |] eqn:Eb; [|done..]. cbn [mbind outcome_bind] in Hres'. injection Hres' as <-.
  eexists _, _, _. split; [done|]. split; [done|].
  unfold memcpy_buf in Eb. destruct (decide _); [|done]. injection Eb as <-.
  unfold conn_of, rest_of. cbn [i_in OUT length_ buf_ cursor_ keep_alive_]. f_equal.
  change (cursor_ (response_new fd)) with 0. by rewrite drop_0, take_app_length.
Qed.

(** What is possible for the connections is possible for the loop. *)
Lemma possible_valid w cs e : implements w cs → possible workers e cs → valid workers e w.
Proof.
  intros [HS Hv]. destruct e as [worker fd|epfd fd event r s]; cbn.
  - intros (Hfd & Hw & Hn). split; [done|]. split; [done|]. intros epfd. apply view_none_inv; [done|]. by rewrite Hv.
  - intros (c & Hc & Hin & Hout & Hr & Hs). rewrite <- Hv in Hc.
    destruct (view_inv _ _ _ HS Hc) as (i & p & d & Hreg & Hp & -> & Hi). exists i, p, d.
    split; [done|]. split; [done|]. split; [|split; [|split; [done|]]].
    + intros Ein. specialize (Hin Ein). unfold conn_of in Hin. by destruct Hi as [->| ->].
    + intros Eout. destruct (Hout Eout) as (rest & keep & E). unfold conn_of in E. by destruct Hi as [->| ->].
    + intros n En. destruct (Hs n En) as (rest & keep & E & Hn). unfold conn_of in E. destruct Hi as [->| ->]; [done|].
      cbn in E. injection E as <- <-. destruct (owner_facts w epfd fd OUT p d HS Hreg Hp) as (_ & Hd & Hpe & _).
      by rewrite rest_length in Hn by auto.
Qed.

Lemma accept_implements w cs worker fd epfd : implements w cs → possible workers (Accept worker fd) cs →
  workers !! worker = Some epfd →
  ∃ w', run_event hs epoll_ctl false workers (Accept worker fd) w = (Ok tt, w') ∧
    implements w' (<[(epfd, fd) := Waiting]> cs) ∧ trace w' = trace w ++ [Ctl epfd CTL_ADD fd IN (Some (brk w))].
Proof.
  intros Him Hp Hw. pose proof (possible_valid _ _ _ Him Hp) as Hval. pose proof Him as [HS Hv].
  destruct (run_event_safe hs epoll_ctl Hctl Hfit false workers _ w HS Hval) as (w' & E & HS' & _).
  exists w'. split; [done|]. destruct Hval as (Hfd & _ & Hn).
  assert (w' = mkWorld (<[brk w := set_fd fd EventData_new]> (heap w)) (S (brk w))
    (trace w ++ [Ctl epfd CTL_ADD fd IN (Some (brk w))])) as ->.
  { cbn [run_event] in E. unfold ListenClient_step in E. rewrite decide_False in E by lia.
    set (w1 := mkWorld (<[brk w := set_fd fd EventData_new]> (heap w)) (S (brk w)) (trace w)) in *.
    assert (new_EventData fd w = (Ok (brk w), w1)) as E1 by done.
    rewrite bind_assoc, (bind_ok _ _ _ _ _ E1), Hw in E.
    assert (ControlEpollEvent epoll_ctl epfd CTL_ADD fd IN (Some (brk w)) w1 =
      (Ok tt, mkWorld (heap w1) (brk w1) (trace w1 ++ [Ctl epfd CTL_ADD fd IN (Some (brk w))]))) as E2.
    { unfold ControlEpollEvent. mgo. by rewrite (Hctl (trace w1) epfd CTL_ADD fd (Hn epfd)). }
    rewrite bind_assoc, (bind_ok _ _ _ _ _ E2) in E. by injection E. }
  split; [|done]. change (<[(epfd, fd) := Waiting]> cs) with (partial_alter (λ _, Some Waiting) (epfd, fd) cs). eapply (implements_step w); [done..| | |].
  - intros k' Hk'. cbn. rewrite registered_snoc. cbn. by rewrite lookup_insert_ne.
  - intros q Hq. cbn. rewrite lookup_insert_ne; [done|]. intros <-. by apply (fresh_not_foreign w epfd fd HS) in Hq.
  - eapply (view_some _ _ IN (brk w)); cbn; [rewrite registered_snoc; apply lookup_insert_eq|apply lookup_insert_eq].
Qed.

(** An event of a descriptor that does what the specification says, and leaves the
    registrations of the others alone. *)
Definition done_as (w : world) (cs : conns) (epfd fd : Z) (event : ready) (r : recv_result) (s : send_result) : Prop :=
  let e := Ready epfd fd event r s in
  ∃ w', run_event hs epoll_ctl false workers e w = (Ok tt, w') ∧ implements w' (spec_event hs workers e cs).1 ∧
    (∀ fd', sent_to fd' (trace w') = sent_to fd' (trace w) ++ out_for fd' (spec_event hs workers e cs).2) ∧
    ∀ k, k ≠ (epfd, fd) → registered (trace w') !! k = registered (trace w) !! k.

(** The end of each case of an event. *)
Lemma ready_done w w1 cs epfd fd event r s i p d c' out :
  implements w cs → possible workers (Ready epfd fd event r s) cs →
  registered (trace w) !! (epfd, fd) = Some (i, Some p) → heap w !! p = Some d →
  run_event hs epoll_ctl false workers (Ready epfd fd event r s) w = (Ok tt, w1) →
  conn_event hs (conn_of i d) event r s = (c', out) →
  (∀ k', k' ≠ (epfd, fd) → registered (trace w1) !! k' = registered (trace w) !! k') →
  (∀ q, foreign (registered (trace w)) (epfd, fd) q → heap w1 !! q = heap w !! q) →
  view w1 (epfd, fd) = c' →
  (∀ fd', sent_to fd' (trace w1) = sent_to fd' (trace w) ++ out_for fd' (fd, out)) →
  done_as w cs epfd fd event r s.
Proof.
  intros Him Hpo Hreg Hp Hrun Hc Hfr Hfh Hv1 Hs1. exists w1. split; [done|]. pose proof Him as [HS Hv].
  destruct (run_event_safe hs epoll_ctl Hctl Hfit false workers _ w HS (possible_valid _ _ _ Him Hpo)) as (w2 & E & HS' & _).
  assert (w2 = w1) as -> by congruence. cbn [spec_event].
  rewrite <- Hv, (view_some _ _ _ _ _ Hreg Hp), Hc. split; [|done]. by eapply (implements_step w).
Qed.

(** Traces that only tell epoll about one descriptor. *)
Lemma ctl_frame tr epfd op fd ev po k' : k' ≠ (epfd, fd) →
  registered (tr ++ [Ctl epfd op fd ev po]) !! k' = registered tr !! k'.
Proof. intros Hne. rewrite registered_snoc. by destruct op; cbn; rewrite ?lookup_insert_ne, ?lookup_delete_ne. Qed.
Lemma sent_to_close fd' tr fd : sent_to fd' (tr ++ [Close fd]) = sent_to fd' tr.
Proof. rewrite sent_to_app. apply app_nil_r. Qed.
Lemma out_for_nil fd' fd : out_for fd' (fd, []) = [].
Proof. unfold out_for. by destruct (decide _). Qed.

Section Owned.
Context (w : world) (epfd fd : Z) (i : interest) (p : ptr) (d : EventData).
Context (HS : safe w) (Hreg : registered (trace w) !! (epfd, fd) = Some (i, Some p)) (Hp : heap w !! p = Some d).

Lemma run_event_ready event r s : run_event hs epoll_ctl false workers (Ready epfd fd event r s) w =
  EventLoop_event hs epoll_ctl epfd event p r s w.
Proof. unfold run_event. mgo. by rewrite Hreg. Qed.

Lemma frame_delete q : foreign (registered (trace w)) (epfd, fd) q → delete p (heap w) !! q = heap w !! q.
Proof.
  intros Hq. rewrite lookup_delete_ne; [done|]. intros <-. by apply (foreign_not_own _ _ _ HS _ _ _ Hreg) in Hq.
Qed.
Lemma frame_insert (h : gmap ptr EventData) x q : foreign (registered (trace w)) (epfd, fd) q → <[p := x]> h !! q = h !! q.
Proof.
  intros Hq. rewrite lookup_insert_ne; [done|]. intros <-. by apply (foreign_not_own _ _ _ HS _ _ _ Hreg) in Hq.
Qed.
Lemma frame_new (h : gmap ptr EventData) x q : foreign (registered (trace w)) (epfd, fd) q → <[brk w := x]> h !! q = h !! q.
Proof. intros Hq. rewrite lookup_insert_ne; [done|]. intros <-. by apply (fresh_not_foreign w epfd fd HS) in Hq. Qed.
End Owned.

(** The connection is given up. *)
Lemma hang_up_done w cs epfd fd event r s i p d :
  implements w cs → possible workers (Ready epfd fd event r s) cs →
  registered (trace w) !! (epfd, fd) = Some (i, Some p) → heap w !! p = Some d →
  EventLoop_event hs epoll_ctl epfd event p r s w = hang_up epoll_ctl epfd fd p w →
  conn_event hs (conn_of i d) event r s = (None, []) →
  done_as w cs epfd fd event r s.
Proof.
  intros Him Hpo Hreg Hp Hrun Hc. pose proof Him as [HS _]. eapply (ready_done w); [done..| |done| | | |].
  - rewrite (run_event_ready w epfd fd i p Hreg), Hrun. by apply (hang_up_run epoll_ctl Hctl w epfd fd i p d).
  - intros k' Hk'. cbn. rewrite registered_snoc. by apply ctl_frame.
  - intros q Hq. cbn. by apply (frame_delete w epfd fd i p HS Hreg).
  - apply view_none. cbn. rewrite !registered_snoc. apply lookup_delete_eq.
  - intros fd'. cbn [trace]. by rewrite sent_to_close, sent_to_ctl, out_for_nil, app_nil_r.
Qed.

(** The connection waits as before. *)
Lemma rearm_done w cs epfd fd event r s i p d :
  implements w cs → possible workers (Ready epfd fd event r s) cs →
  registered (trace w) !! (epfd, fd) = Some (i, Some p) → heap w !! p = Some d →
  EventLoop_event hs epoll_ctl epfd event p r s w = ControlEpollEvent epoll_ctl epfd CTL_MOD fd i (Some p) w →
  conn_event hs (conn_of i d) event r s = (Some (conn_of i d), []) →
  done_as w cs epfd fd event r s.
Proof.
  intros Him Hpo Hreg Hp Hrun Hc. eapply (ready_done w); [done..| |done| | | |].
  - rewrite (run_event_ready w epfd fd i p Hreg), Hrun. by apply (ctl_ok epoll_ctl Hctl w epfd fd i p).
  - intros k' Hk'. cbn. by apply ctl_frame.
  - done.
  - apply (view_some _ _ i p); [|done]. cbn. rewrite registered_snoc. apply lookup_insert_eq.
  - intros fd'. cbn [trace]. by rewrite sent_to_ctl, out_for_nil, app_nil_r.
Qed.

(** A request is read, and its response is ready. *)
Lemma serve_done w cs epfd fd event bytes s p d :
  implements w cs → possible workers (Ready epfd fd event (Received bytes) s) cs →
  registered (trace w) !! (epfd, fd) = Some (IN, Some p) → heap w !! p = Some d →
  ev_hup event || ev_err event = false → ev_in event = true →
  done_as w cs epfd fd event (Received bytes) s.
Proof.
  intros Him Hpo Hreg Hp Hhup Hin. pose proof Him as [HS _].
  destruct (owner_facts w epfd fd IN p d HS Hreg Hp) as (Hfd & Hd & _ & Hlt & _).
  assert (length bytes ≤ kMaxBufferSize) as Hb.
  { destruct Hpo as (c & _ & _ & _ & Hr & _). specialize (Hr _ eq_refl). lia. }
  destruct (answer_spec d fd bytes Hd Hb) as (text & keep & res & Ha & Hres & Hconn).
  eapply (ready_done w); [done..| | | | | |].
  - rewrite (run_event_ready w epfd fd IN p Hreg). unfold EventLoop_event. rewrite Hhup, Hin. cbn [orb].
    unfold HandleEpollEvent. rewrite Hin. unfold HandleEpollEvent_in.
    rewrite (bind_ok _ _ _ _ _ (deref_ok w p d Hp)), Hfd.
    by apply (serve_run hs epoll_ctl Hctl w epfd fd IN p d HS Hreg Hp).
  - unfold conn_event. rewrite Hhup, Hin. cbn [conn_of IN i_in]. by rewrite Ha.
  - intros k' Hk'. cbn. by apply ctl_frame.
  - intros q Hq. cbn. by rewrite (frame_new w epfd fd HS), (frame_insert w epfd fd IN p HS Hreg).
  - rewrite <- Hconn. apply (view_some _ _ OUT (brk w)); cbn; [rewrite registered_snoc|]; apply lookup_insert_eq.
  - intros fd'. cbn [trace]. by rewrite sent_to_ctl, out_for_nil, app_nil_r.
Qed.

(** Part of a response is sent. *)
Lemma advance_done w cs epfd fd event r n p d :
  implements w cs → possible workers (Ready epfd fd event r (Sent n)) cs →
  registered (trace w) !! (epfd, fd) = Some (OUT, Some p) → heap w !! p = Some d →
  ev_hup event || ev_err event = false → ev_in event = false → ev_out event = true →
  done_as w cs epfd fd event r (Sent n).
Proof.
  intros Him Hpo Hreg Hp Hhup Hin Hout. pose proof Him as [HS Hv].
  destruct (owner_facts w epfd fd OUT p d HS Hreg Hp) as (Hfd & Hd & Hpe & Hlt & _).
  assert (n ≤ length_ d) as Hn.
  { destruct Hpo as (c & Hc & _ & _ & _ & Hs). destruct (Hs n eq_refl) as (rest & keep & -> & Hn).
    rewrite <- Hv, (view_some _ _ _ _ _ Hreg Hp) in Hc. injection Hc as <- <-. by rewrite rest_length in Hn by auto; lia. }
  eapply (ready_done w); [done..| | | | | |].
  - rewrite (run_event_ready w epfd fd OUT p Hreg). unfold EventLoop_event. rewrite Hhup, Hin, Hout. cbn [orb].
    unfold HandleEpollEvent. rewrite Hin. unfold HandleEpollEvent_out.
    rewrite (bind_ok _ _ _ _ _ (deref_ok w p d Hp)), Hfd.
    by apply (advance_run epoll_ctl Hctl w epfd fd OUT p d).
  - unfold conn_event. by rewrite Hhup, Hout.
  - intros k' Hk'. cbn. rewrite ctl_frame by done. by rewrite registered_snoc.
  - intros q Hq. cbn. by rewrite (frame_insert w epfd fd OUT p HS Hreg).
  - rewrite <- rest_advanced. change (keep_alive_ d) with (keep_alive_ (advanced d n)).
    apply (view_some _ _ OUT p); cbn; [rewrite registered_snoc|]; apply lookup_insert_eq.
  - intros fd'. cbn [trace]. rewrite sent_to_ctl, sent_to_app. f_equal. unfold sent_to, out_for. cbn.
    rewrite app_nil_r, Hfd. destruct (decide (fd = fd')); [|done]. unfold rest_of. rewrite take_take. f_equal. lia.
Qed.

(** The response has been sent. *)
Lemma finish_done w cs epfd fd event r p d :
  implements w cs → possible workers (Ready epfd fd event r SentNothing) cs →
  registered (trace w) !! (epfd, fd) = Some (OUT, Some p) → heap w !! p = Some d →
  ev_hup event || ev_err event = false → ev_in event = false → ev_out event = true →
  done_as w cs epfd fd event r SentNothing.
Proof.
  intros Him Hpo Hreg Hp Hhup Hin Hout. pose proof Him as [HS _].
  destruct (owner_facts w epfd fd OUT p d HS Hreg Hp) as (Hfd & Hd & Hpe & Hlt & _).
  eapply (ready_done w); [done..| | | | | |].
  - rewrite (run_event_ready w epfd fd OUT p Hreg). unfold EventLoop_event. rewrite Hhup, Hin, Hout. cbn [orb].
    unfold HandleEpollEvent. rewrite Hin. unfold HandleEpollEvent_out.
    rewrite (bind_ok _ _ _ _ _ (deref_ok w p d Hp)), Hfd. by apply (finish_run epoll_ctl Hctl w epfd fd OUT p d).
  - unfold conn_event. by rewrite Hhup, Hout.
  - intros k' Hk'. destruct (keep_alive_ d); cbn; [by apply ctl_frame|]. rewrite registered_snoc. by apply ctl_frame.
  - intros q Hq. destruct (keep_alive_ d); cbn; rewrite ?(frame_new w epfd fd HS) by done;
      by apply (frame_delete w epfd fd OUT p HS Hreg).
  - destruct (keep_alive_ d).
    + change Waiting with (conn_of IN (set_fd fd EventData_new)).
      apply (view_some _ _ IN (brk w)); cbn; [rewrite registered_snoc|]; apply lookup_insert_eq.
    + apply view_none. cbn. rewrite !registered_snoc. apply lookup_delete_eq.
  - intros fd'. destruct (keep_alive_ d); cbn [trace]; by rewrite ?sent_to_close, sent_to_ctl, out_for_nil, app_nil_r.
Qed.

Lemma plain_implements w cs epfd fd event r s :
  implements w cs → possible workers (Ready epfd fd event r s) cs →
  done_as w cs epfd fd event r s.
Proof.
  intros Him Hpo. pose proof Him as [HS Hv]. pose proof Hpo as (c & Hc & Hin & Hout & _ & _).
  rewrite <- Hv in Hc. destruct (view_inv _ _ _ HS Hc) as (i & p & d & Hreg & Hp & -> & Hi).
  destruct (owner_facts w epfd fd i p d HS Hreg Hp) as (Hfd & _).
  assert (∀ f : EventData → M world unit, (deref p ≫= f) w = f d w) as Hdr
    by (intros f; by rewrite (bind_ok _ _ _ _ _ (deref_ok w p d Hp))).
  destruct (ev_hup event || ev_err event) eqn:Hhup.
  { eapply hang_up_done; try done; unfold EventLoop_event, conn_event; rewrite Hhup; [by rewrite Hdr, Hfd|done]. }
  destruct Hi as [->| ->].
  - destruct (ev_out event) eqn:Eout; [by destruct (Hout eq_refl) as (? & ? & ?)|].
    destruct (ev_in event) eqn:Ein.
    + destruct r as [bytes| | |]; [by eapply serve_done|..];
        [eapply hang_up_done|eapply rearm_done|eapply hang_up_done]; try done; unfold EventLoop_event, conn_event, HandleEpollEvent;
        rewrite Hhup, Ein; try done; unfold HandleEpollEvent_in; cbn [orb]; by rewrite Hdr, Hfd.
    + eapply hang_up_done; try done; unfold EventLoop_event, conn_event; rewrite Hhup, Ein; [|done].
      rewrite Eout. cbn [orb]. by rewrite Hdr, Hfd.
  - destruct (ev_in event) eqn:Ein; [by specialize (Hin eq_refl)|].
    destruct (ev_out event) eqn:Eout.
    + destruct s as [n| | |]; [by eapply advance_done|by eapply finish_done|..];
        [eapply rearm_done|eapply hang_up_done]; try done; unfold EventLoop_event, conn_event, HandleEpollEvent;
        rewrite Hhup, ?Ein, Eout; try done; unfold HandleEpollEvent_out; cbn [orb]; by rewrite Hdr, Hfd.
    + eapply hang_up_done; try done; unfold EventLoop_event, conn_event; rewrite Hhup, ?Ein, Eout; [|done].
      cbn [orb]. by rewrite Hdr, Hfd.
Qed.

Lemma same_state_implements w1 w2 cs : same_state w1 w2 → implements w2 cs → implements w1 cs.
Proof.
  intros H [HS Hv]. split; [by eapply same_state_safe|]. intros k. rewrite <- Hv. unfold view.
  by destruct H as (-> & _ & -> & _).
Qed.

(** An event in either loop. *)
Lemma ready_implements w cs epfd fd event r s i p :
  implements w cs → possible workers (Ready epfd fd event r s) cs →
  registered (trace w) !! (epfd, fd) = Some (i, Some p) →
  let e := Ready epfd fd event r s in
  ∃ w', worker_event hs epoll_ctl use_co epfd event p r s w = (Ok tt, w') ∧
    implements w' (spec_event hs workers e cs).1 ∧
    (∀ fd', sent_to fd' (trace w') = sent_to fd' (trace w) ++ out_for fd' (spec_event hs workers e cs).2) ∧
    ∀ k, k ≠ (epfd, fd) → registered (trace w') !! k = registered (trace w) !! k.
Proof.
  intros Him Hpo Hreg. destruct (plain_implements w cs epfd fd event r s Him Hpo) as (w' & E & Him' & Hs & Hfr).
  rewrite (run_event_ready w epfd fd i p Hreg) in E. pose proof Him as [HS Hv].
  destruct (possible_valid _ _ _ Him Hpo) as (i' & p' & d & Hreg' & Hp & Hin & Hout & _).
  rewrite Hreg in Hreg'. injection Hreg' as <- <-.
  destruct (worker_event_same hs epoll_ctl Hctl use_co w epfd fd i p d HS Hreg Hp event r s Hin Hout w' E) as (w1 & E1 & H1).
  exists w1. split; [done|]. split; [by eapply same_state_implements|]. destruct H1 as (_ & _ & -> & Hsent). split; [|done].
  intros fd'. by rewrite Hsent.
Qed.

Lemma event_implements w cs e : implements w cs → possible workers e cs →
  ∃ w', run_event hs epoll_ctl use_co workers e w = (Ok tt, w') ∧ implements w' (spec_event hs workers e cs).1.
Proof.
  intros Him Hpo. destruct e as [worker fd|epfd fd event r s].
  - pose proof Hpo as (_ & [epfd Hw] & _). destruct (accept_implements w cs worker fd epfd Him Hpo Hw) as (w' & E & Him' & _).
    exists w'. split; [exact E|]. cbn [spec_event]. by rewrite Hw.
  - pose proof Hpo as (c & Hc & _). destruct Him as [HS Hv]. rewrite <- Hv in Hc.
    destruct (view_inv _ _ _ HS Hc) as (i & p & d & Hreg & _).
    destruct (ready_implements w cs epfd fd event r s i p (conj HS Hv) Hpo Hreg) as (w' & E & Him' & _).
    exists w'. split; [|done]. cbn [run_event]. mgo. by rewrite Hreg.
Qed.

(** A step of the loops that does what a list of events says. *)
Definition does (m : M world unit) (es : list sys_event) (w : world) (cs : conns) : Prop :=
  ∃ w', m w = (Ok tt, w') ∧ implements w' (spec_run hs workers es cs) ∧
    ∀ fd, sent_to fd (trace w') = sent_to fd (trace w) ++ spec_sent hs workers fd es cs.

(** The pointers [epoll_wait] reported stay those of their connections during the
    turn, because it reports each descriptor once. *)
Lemma turn_implements epfd w0 evs : ∀ w cs, implements w cs → NoDup (fd_of <$> evs) →
  possible_run hs workers (ready_event epfd <$> evs) cs →
  (∀ x, x ∈ evs → registered (trace w) !! (epfd, fd_of x) = registered (trace w0) !! (epfd, fd_of x)) →
  does (loop_turn (worker_event hs epoll_ctl use_co) epfd (reported_in w0 epfd evs)) (ready_event epfd <$> evs) w cs.
Proof.
  induction evs as [|[[[fd event] r] s] evs IH]; intros w cs Him Hnd Hpo Hsame.
  { exists w. split; [done|]. split; [done|]. intros fd. by rewrite app_nil_r. }
  apply NoDup_cons in Hnd as [Hnot Hnd]. destruct Hpo as [Hp Hpo].
  pose proof Him as [HS Hv]. pose proof Hp as (c & Hc & _). rewrite <- Hv in Hc.
  destruct (view_inv _ _ _ HS Hc) as (i & p & d & Hreg & _).
  destruct (ready_implements w cs epfd fd event r s i p Him Hp Hreg) as (w1 & E1 & Him1 & Hs1 & Hfr).
  destruct (IH w1 _ Him1 Hnd Hpo) as (w2 & E2 & Him2 & Hs2).
  { intros x Hx. rewrite Hfr; [apply Hsame, list_elem_of_further, Hx|].
    intros E. injection E as E. apply Hnot, list_elem_of_fmap. by exists x. }
  exists w2. split; [|split; [done|]].
  - pose proof (Hsame _ (list_elem_of_here _ _)) as H0. change (fd_of (fd, event, r, s)) with fd in H0. rewrite Hreg in H0.
    unfold reported_in. cbn [omap list_omap]. rewrite <- H0. cbn. run E1. exact E2.
  - intros fd'. rewrite Hs2, Hs1, <- app_assoc. done.
Qed.

Lemma round_implements w cs x : implements w cs → round_ok x → possible_run hs workers (round_events x) cs →
  does (run_round hs epoll_ctl use_co workers x) (round_events x) w cs.
Proof.
  intros Him Hok Hpo. destruct x as [worker fd|epfd evs].
  - destruct Hpo as [Hpo _]. pose proof Hpo as (_ & [epfd Hw] & _).
    destruct (accept_implements w cs worker fd epfd Him Hpo Hw) as (w' & E & Him' & Et).
    exists w'. split; [exact E|]. cbn [round_events spec_run spec_sent spec_event]. rewrite Hw. split; [done|].
    intros fd'. rewrite Et, sent_to_ctl. cbn [snd]. by rewrite out_for_nil, !app_nil_r.
  - destruct (turn_implements epfd w evs w cs Him Hok Hpo) as (w' & E & Him' & Hs); [done|]. exists w'.
    split; [|done]. unfold run_round. rewrite worker_loop_while. cbn [loop_while]. mgo. by run E.
Qed.

Lemma rounds_implement l : ∀ w cs, implements w cs → Forall round_ok l → possible_run hs workers (events l) cs →
  does (run_rounds hs epoll_ctl use_co workers l) (events l) w cs.
Proof.
  induction l as [|x l IH]; intros w cs Him Hok Hpo.
  { exists w. split; [done|]. split; [done|]. intros fd. by rewrite app_nil_r. }
  apply Forall_cons in Hok as [Hx Hok]. change (events (x :: l)) with (round_events x ++ events l) in *.
  apply possible_run_app in Hpo as [Hp Hpo].
  destruct (round_implements w cs x Him Hx Hp) as (w1 & E1 & Him1 & Hs1).
  destruct (IH w1 _ Him1 Hok Hpo) as (w2 & E2 & Him2 & Hs2).
  exists w2. cbn [run_rounds]. run E1. split; [done|]. rewrite spec_run_app. split; [done|].
  intros fd. by rewrite Hs2, Hs1, spec_sent_app, <- app_assoc.
Qed.
End Event.

Lemma implements_start : implements empty_world ∅.
Proof. split; [apply safe_start|]. intros k. apply view_none. apply lookup_empty. Qed.

(** [C5] The event loops implement the map of connections: over any rounds of
    connections and of turns of the workers' loops, the plain ones or those with
    coroutines, with any results of [recv] and
    [send], in which [epoll_wait] reports a descriptor at most once per turn and
    the responses fit their buffer, the loops end without an error, every
    descriptor is in the state the specification gives its connection, and has
    been sent exactly the bytes the specification sends. *)
Theorem server_refinement hs epoll_ctl use_co workers l :
  ctl_spec epoll_ctl → responses_fit hs → Forall round_ok l → possible_run hs workers (events l) ∅ →
  ∃ w, run_rounds hs epoll_ctl use_co workers l empty_world = (Ok tt, w) ∧
    (∀ k, view w k = spec_run hs workers (events l) ∅ !! k) ∧
    ∀ fd, sent_to fd (trace w) = spec_sent hs workers fd (events l) ∅.
Proof.
  intros Hctl Hfit Hok Hpo.
  destruct (rounds_implement hs epoll_ctl Hctl Hfit use_co workers l empty_world ∅ implements_start Hok Hpo)
    as (w & E & [_ Hv] & Hs).
  by exists w.
Qed.

(** [possible] as a computation. *)
Definition possible_b (workers : list Z) (e : sys_event) (cs : conns) : bool :=
  match e with
  | Accept worker fd =>
      (0 <=? fd)%Z && bool_decide (is_Some (workers !! worker)) && bool_decide (map_Forall (λ k _, k.2 ≠ fd) cs)
  | Ready epfd fd event r s =>
      match cs !! (epfd, fd) with
      | None => false
      | Some c =>
          (negb (ev_in event) || bool_decide (c = Waiting)) &&
          (negb (ev_out event) || bool_decide (c ≠ Waiting)) &&
          match r with Received b => (0 <? length b) && (length b <=? kMaxBufferSize) | _ => true end &&
          match s, c with
          | Sent n, Answering rest _ => (0 <? n) && (n <=? length rest)
          | Sent _, Waiting => false
          | _, _ => true
          end
      end
  end.
Fixpoint possible_run_b (hs : handlers) (workers : list Z) (es : list sys_event) (cs : conns) : bool :=
  match es with
  | [] => true
  | e :: es => possible_b workers e cs && possible_run_b hs workers es (spec_event hs workers e cs).1
  end.

Lemma possible_b_ok workers e cs : possible_b workers e cs = true → possible workers e cs.
Proof.
  destruct e as [worker fd|epfd fd event r s]; cbn [possible_b possible].
  - rewrite !andb_true_iff, !bool_decide_eq_true. intros [[Hfd Hw] Hn]. split; [lia|]. split; [done|].
    intros epfd. destruct (cs !! (epfd, fd)) as [c|] eqn:E; [|done]. by destruct (Hn _ _ E).
  - destruct (cs !! (epfd, fd)) as [c|]; [|done]. rewrite !andb_true_iff. intros [[[Hin Hout] Hr] Hs]. exists c.
    split; [done|]. split; [|split; [|split]].
    + intros E. rewrite E in Hin. by apply bool_decide_eq_true in Hin.
    + intros E. rewrite E in Hout. apply bool_decide_eq_true in Hout. destruct c; [done|by eexists _, _].
    + intros b ->. apply andb_true_iff in Hr as [H1 H2]. apply Nat.ltb_lt in H1. apply Nat.leb_le in H2. lia.
    + intros n ->. destruct c as [|rest keep]; [done|]. apply andb_true_iff in Hs as [H1 H2].
      apply Nat.ltb_lt in H1. apply Nat.leb_le in H2. by exists rest, keep.
Qed.
Lemma possible_run_b_ok hs workers es : ∀ cs, possible_run_b hs workers es cs = true → possible_run hs workers es cs.
Proof.
  induction es as [|e es IH]; intros cs; [done|]. cbn. rewrite andb_true_iff. intros [H1 H2].
  split; [by apply possible_b_ok|by apply IH].
Qed.

(** Two clients without routes: one is answered by 404 while the other hangs up. *)
Definition two_clients : list round :=
  [Connect 0 7; Connect 0 8;
   Turn 100 [(7%Z, readable, Received get_root, SentNothing);
             (8%Z, mkReady true false false false, RecvAgain, SentNothing)];
   Turn 100 [(7%Z, writable, RecvAgain, Sent 10)]].

Lemma server_refinement_witness :
  ∃ w, run_rounds [] kernel true [100%Z] two_clients empty_world = (Ok tt, w) ∧
    view w (100%Z, 8%Z) = None ∧ sent_to 7 (trace w) = lit "HTTP/1.0 4".
Proof.
  destruct (server_refinement [] kernel true [100%Z] two_clients kernel_spec no_routes_fit) as (w & E & Hv & Hs).
  - by_decide.
  - apply possible_run_b_ok. vm_compute. reflexivity.
  - exists w. split; [exact E|]. rewrite Hv, Hs. split; vm_compute; reflexivity.
Defined.

(** ** A client among others *)

Section Isolation.
Context (hs : handlers) (workers : list Z) (fd : Z).

(** What a descriptor is sent depends on its own events only. *)
Lemma spec_isolated es : ∀ cs cs', (∀ epfd, cs !! (epfd, fd) = cs' !! (epfd, fd)) →
  spec_sent hs workers fd es cs = spec_sent hs workers fd (events_of fd es) cs' ∧
  ∀ epfd, spec_run hs workers es cs !! (epfd, fd) = spec_run hs workers (events_of fd es) cs' !! (epfd, fd).
Proof.
  induction es as [|e es IH]; intros cs cs' Heq; [done|]. unfold events_of. rewrite filter_cons.
  fold (events_of fd es). destruct (decide (concerns fd e)) as [Hc|Hc]; cbn [spec_sent spec_run].
  - assert (∀ epfd, (spec_event hs workers e cs).1 !! (epfd, fd) = (spec_event hs workers e cs').1 !! (epfd, fd) ∧
      (spec_event hs workers e cs).2 = (spec_event hs workers e cs').2) as He.
    { intros epfd. destruct e as [worker fd'|epfd' fd' event r s]; cbn in Hc; subst fd'; cbn [spec_event].
      - destruct (workers !! worker) as [epfd'|]; [|done]. cbn. destruct (decide (epfd = epfd')) as [->|Hne].
        + by rewrite !lookup_insert_eq.
        + by rewrite !lookup_insert_ne by congruence.
      - rewrite Heq. destruct (cs' !! (epfd', fd)) as [c|]; [|done]. destruct (conn_event hs c event r s) as [c' out]. cbn.
        destruct (decide (epfd = epfd')) as [->|Hne].
        + by rewrite !lookup_partial_alter_eq.
        + by rewrite !lookup_partial_alter_ne by congruence. }
    destruct (IH _ _ (λ epfd, proj1 (He epfd))) as [-> Hr]. split; [|exact Hr]. f_equal. by rewrite (proj2 (He 0%Z)).
  - assert (∀ epfd, (spec_event hs workers e cs).1 !! (epfd, fd) = cs' !! (epfd, fd) ∧
      out_for fd (spec_event hs workers e cs).2 = []) as He.
    { intros epfd. rewrite <- Heq. destruct e as [worker fd'|epfd' fd' event r s]; cbn in Hc; cbn [spec_event].
      - destruct (workers !! worker) as [epfd'|]; cbn; rewrite out_for_nil; [|done].
        by rewrite lookup_insert_ne by congruence.
      - destruct (cs !! (epfd', fd')) as [c|]; [|cbn; by rewrite out_for_nil].
        destruct (conn_event hs c event r s) as [c' out]. cbn.
        rewrite lookup_partial_alter_ne by congruence. unfold out_for. cbn. by rewrite decide_False. }
    destruct (IH _ cs' (λ epfd, proj1 (He epfd))) as [-> Hr]. split; [|exact Hr]. by rewrite (proj2 (He 0%Z)).
Qed.
End Isolation.

(** The response goes out in pieces. *)
Lemma writes_sent hs workers epfd fd keep ns : ∀ rest cs, cs !! (epfd, fd) = Some (Answering rest keep) →
  spec_sent hs workers fd ((λ n, write_event epfd fd (Sent n)) <$> ns) cs = take (sum_list ns) rest ∧
  spec_run hs workers ((λ n, write_event epfd fd (Sent n)) <$> ns) cs !! (epfd, fd) =
    Some (Answering (drop (sum_list ns) rest) keep).
Proof.
  induction ns as [|n ns IH]; intros rest cs Hc; [done|]. cbn [fmap list_fmap spec_sent spec_run].
  unfold spec_event, write_event at 1 3 5. rewrite Hc. cbn [conn_event ev_hup ev_err ev_out writable orb fst snd].
  destruct (IH (drop n rest) (partial_alter (λ _, Some (Answering (drop n rest) keep)) (epfd, fd) cs)) as [E1 E2].
  { apply lookup_partial_alter_eq. }
  rewrite E1, E2. cbn. unfold id. change (sum_list_with (λ x, x) ns) with (sum_list ns). split.
  - unfold out_for. cbn. rewrite decide_True by done. by rewrite take_drop_split.
  - by rewrite drop_drop.
Qed.

(** The answer to a well-formed request. *)
Lemma answer_request regs q res : well_formed q → handled regs q = Ok res →
  answer (table regs) (request_text q) = Ok (response_text q res, keeps_alive q).
Proof.
  intros (Hp1 & Hp2 & Hv & Hne & Hhs & _) Hh. unfold answer, response_of, request_text.
  rewrite FromString_request by done. cbn [mbind outcome_bind]. rewrite HandleRequestMessage_table.
  unfold handled, built_request in Hh. rewrite Hh.
  destruct (request_over_spec HttpRequest_new (rq_method q) (rq_path q) (rq_version q) (rq_headers q) (rq_body q))
    as (Hm & _ & _ & _ & Hd). unfold response_text, keeps_alive, GetHeader. rewrite Hm, Hd. cbn [mbind outcome_bind].
  f_equal. f_equal. rewrite decide_False by (by vm_compute). cbn [dget HttpRequest_new HttpMessageInterface_new headers_ req_base].
  apply bool_decide_ext. destruct (last_value _ _ _) as [v|]; cbn; [naive_solver|]. split; [intros E; by vm_compute in E|done].
Qed.

Lemma exchange_sent regs workers epfd fd x cs : cs !! (epfd, fd) = Some Waiting → exchange_ok regs x →
  spec_sent (table regs) workers fd (exchange_events epfd fd x.1.1 x.2) cs = response_text x.1.1 x.1.2 ∧
  spec_run (table regs) workers (exchange_events epfd fd x.1.1 x.2) cs !! (epfd, fd) =
    (if keeps_alive x.1.1 then Some Waiting else None).
Proof.
  destruct x as [[q res] ns]. cbn [fst snd]. intros Hc (Hq & Hh & Hsum). cbn [fst snd] in *. unfold exchange_events.
  cbn [spec_sent spec_run]. unfold spec_event at 1 2 3. rewrite Hc.
  cbn [conn_event ev_hup ev_err ev_in readable orb]. rewrite (answer_request _ _ _ Hq Hh). cbn [fst snd].
  set (cs1 := partial_alter _ _ _). rewrite out_for_nil, spec_sent_app, spec_run_app. cbn [app].
  destruct (writes_sent (table regs) workers epfd fd (keeps_alive q) ns (response_text q res) cs1) as [E1 E2];
    [apply lookup_partial_alter_eq|]. set (cs2 := spec_run _ _ _ cs1) in *.
  rewrite E1, Hsum. clear E1. clearbody cs2. unfold write_event. cbn [spec_sent spec_run spec_event]. rewrite E2.
  cbn [conn_event ev_hup ev_err ev_out writable orb fst snd]. rewrite out_for_nil. split.
  - by rewrite !app_nil_r, take_ge.
  - by rewrite lookup_partial_alter_eq.
Qed.

Lemma session_sent regs workers epfd fd l : ∀ cs, cs !! (epfd, fd) = Some Waiting →
  Forall (exchange_ok regs) l → kept l →
  spec_sent (table regs) workers fd (session_events epfd fd l) cs = concat ((λ x, response_text x.1.1 x.1.2) <$> l) ∧
  spec_run (table regs) workers (session_events epfd fd l) cs !! (epfd, fd) = session_end l.
Proof.
  induction l as [|x l IH]; intros cs Hc Hok Hk; [done|]. apply Forall_cons in Hok as [Hx Hok]. destruct Hk as [Hkx Hk].
  change (session_events epfd fd (x :: l)) with (exchange_events epfd fd x.1.1 x.2 ++ session_events epfd fd l).
  rewrite spec_sent_app, spec_run_app.
  destruct (exchange_sent regs workers epfd fd x cs Hc Hx) as [-> E2]. destruct l as [|y l].
  - cbn [session_events fmap list_fmap concat spec_sent spec_run]. by rewrite E2, !app_nil_r.
  - rewrite (Hkx ltac:(done)) in E2. destruct (IH _ E2 Hok Hk) as [-> ->]. done.
Qed.

(** [C1] A client's session with the plain loop (the one without coroutines; with
    them a kept connection is not reached again, [coroutine_loop_stalls]), whatever
    the other clients do, where every response the server's callbacks can build,
    this client's and the others', fits the buffer of 4096 bytes: a client that
    connects and sends well-formed requests one after the other, each whole in one
    [recv], each after the response to the one before, and each but the last asking
    to keep the connection, receives exactly the printed responses of the callbacks
    the registrations choose, in the order of its requests, however [send] splits
    them, whatever turns [epoll_wait] reports its events in and whatever events of
    other connections lie between them; at the end the connection waits for the
    next request or is closed, as the last request asked. *)
Theorem session_answered regs epoll_ctl workers worker epfd fd l (x : list exchange) :
  ctl_spec epoll_ctl → responses_fit (table regs) → Forall round_ok l →
  possible_run (table regs) workers (events l) ∅ →
  workers !! worker = Some epfd → events_of fd (events l) = Accept worker fd :: session_events epfd fd x →
  Forall (exchange_ok regs) x → kept x →
  ∃ w, run_rounds (table regs) epoll_ctl false workers l empty_world = (Ok tt, w) ∧
    sent_to fd (trace w) = concat ((λ e, response_text e.1.1 e.1.2) <$> x) ∧
    view w (epfd, fd) = session_end x.
Proof.
  intros Hctl Hfit Hround Hpo Hw Hes Hok Hk.
  destruct (rounds_implement (table regs) epoll_ctl Hctl Hfit false workers l empty_world ∅ implements_start Hround Hpo)
    as (w & E & [_ Hv] & Hs).
  exists w. split; [done|]. rewrite Hs, Hv.
  destruct (spec_isolated (table regs) workers fd (events l) ∅ ∅ (λ _, eq_refl)) as [-> ->]. rewrite Hes.
  cbn [spec_sent spec_run spec_event]. rewrite Hw. cbn [fst snd].
  destruct (session_sent regs workers epfd fd x (<[(epfd, fd) := Waiting]> ∅)) as [-> ->];
    [apply lookup_insert_eq|done..|]. by rewrite out_for_nil.
Qed.

Definition first_request : client_request :=
  mkClientRequest HttpMethod.GET (lit "/") HttpVersion.HTTP_1_1 [(lit "Connection", lit "keep-alive")] [].
Definition second_request : client_request :=
  mkClientRequest HttpMethod.HEAD (lit "/b?x=1") HttpVersion.HTTP_1_0 [(lit "Host", lit "a")] [].
Definition not_found : HttpResponse := HttpResponse_new HttpStatusCode.NotFound.
Definition session : list exchange := [(first_request, not_found, [10; 18]); (second_request, not_found, [26])].

(** Another client comes and goes between the events of the session; it hangs up in
    the turn in which the last response is finished. *)
Definition busy_run : list round :=
  [Connect 0 7; Turn 100 [(7%Z, readable, Received (request_text first_request), SentNothing)];
   Connect 0 8; Turn 100 [(7%Z, writable, RecvAgain, Sent 10)]; Turn 100 [(7%Z, writable, RecvAgain, Sent 18)];
   Turn 100 [(7%Z, writable, RecvAgain, SentNothing)];
   Turn 100 [(7%Z, readable, Received (request_text second_request), SentNothing)];
   Turn 100 [(7%Z, writable, RecvAgain, Sent 26)];
   Turn 100 [(8%Z, readable, RecvClosed, SentNothing); (7%Z, writable, RecvAgain, SentNothing)]].

Lemma session_answered_witness :
  ∃ w, run_rounds [] kernel false [100%Z] busy_run empty_world = (Ok tt, w) ∧
    sent_to 7 (trace w) = response_text first_request not_found ++ response_text second_request not_found ∧
    view w (100%Z, 7%Z) = None.
Proof.
  destruct (session_answered [] kernel [100%Z] 0 100 7 busy_run session kernel_spec no_routes_fit) as (w & E & Hs & Hv).
  - by_decide.
  - apply possible_run_b_ok. vm_compute. reflexivity.
  - reflexivity.
  - vm_compute. reflexivity.
  - apply Forall_cons; split; [|apply Forall_singleton];
      (split; [|split; vm_compute; reflexivity]); cbn [fst snd session];
      (split; [discriminate|]); (split; [by_decide|]); (split; [reflexivity|]); (split; [discriminate|]);
      (split; [by_decide|]); apply Nat.leb_le; vm_compute; reflexivity.
  - split; [intros _; vm_compute; reflexivity|]. by split.
  - exists w. split; [exact E|]. rewrite Hs, Hv. split; vm_compute; reflexivity.
Defined.

End HttpSpecProps.
