(* ===== verification/HttpStartProps.v ===== *)
(** * Start-up and the accept loop of the HTTP server

    What the constructor and [Start] leave in the server object on every branch,
    and that over the object they leave the accept loop of [HttpServer.v] hands
    its connections to the workers in turn. *)

From S2P Require Import Prelude CStr HttpMessage HttpMessageProps HttpServer HttpServerProps HttpSpec HttpSpecProps.
Import CStr HttpMessage HttpMessageProps HttpServer HttpServerProps HttpSpec HttpSpecProps.

Module HttpStartProps.

(** ** Start-up *)

(** The vector after the first [i] epoll objects. *)
Definition epolls_done (l : list Z) (epoll_create1 : nat → Z) (i : nat) : list Z :=
  (epoll_create1 <$> seq 0 i) ++ drop i l.

Lemma epolls_done_length l f i : i ≤ length l → length (epolls_done l f i) = length l.
Proof. intros Hi. unfold epolls_done. rewrite length_app, length_fmap, length_seq, length_drop. lia. Qed.
Lemma epolls_done_snoc l f i : i < length l → <[i := f i]> (epolls_done l f i) = epolls_done l f (S i).
Proof.
  intros Hi. unfold epolls_done. rewrite insert_app_r_alt by (rewrite length_fmap, length_seq; lia).
  rewrite length_fmap, length_seq, Nat.sub_diag. destruct (drop i l) as [|x r] eqn:E.
  { apply (f_equal length) in E. rewrite length_drop in E. cbn in E. lia. }
  rewrite seq_S, fmap_app, <- app_assoc. do 2 f_equal. cbn. f_equal.
  replace (S i) with (i + 1) by lia. by rewrite <- drop_drop, E.
Qed.

(** The object with the first [i] epoll objects. *)
Definition with_epolls (f : nat → Z) (i : nat) (s : server) : server :=
  mkServer (sock_fd_ s) (running_ s) (use_co_ s) (epolls_done (worker_epoll_fd_ s) f i) (threads s).

Lemma create_epolls_spec f s n : ∀ i, i + n = length (worker_epoll_fd_ s) → Forall (λ j, 0 ≤ f j)%Z (seq 0 i) →
  ∃ j, create_epolls n f i (with_epolls f i s) =
    (if decide (Forall (λ j, 0 ≤ f j)%Z (seq 0 (i + n))) then Ok tt
     else Throw (runtime_error "[HttpServer::HttpServer] epoll create failed"), with_epolls f j s) ∧
    (Forall (λ j, 0 ≤ f j)%Z (seq 0 (i + n)) → j = i + n).
Proof.
  induction n as [|n IH]; intros i Hi Hok.
  { exists i. rewrite Nat.add_0_r. by rewrite decide_True. }
  assert (set_epoll i (f i) (with_epolls f i s) = (Ok tt, with_epolls f (S i) s)) as E.
  { unfold set_epoll. cbn [with_epolls worker_epoll_fd_ sock_fd_ running_ use_co_ threads].
    rewrite decide_True by (rewrite epolls_done_length; lia). by rewrite epolls_done_snoc by lia. }
  cbn [create_epolls]. rewrite (bind_ok _ _ _ _ _ E). replace (i + S n) with (S i + n) by lia.
  destruct (decide (f i < 0)%Z) as [Hneg|Hpos].
  - assert (¬ Forall (λ j, 0 ≤ f j)%Z (seq 0 (S i + n))) as Hno.
    { intros H. rewrite Forall_forall in H. specialize (H i ltac:(apply elem_of_seq; lia)). cbn in H. lia. }
    exists (S i). rewrite decide_False by done. by split.
  - apply IH; [lia|]. rewrite seq_S, Forall_app, Forall_singleton. split; [done|]. cbn. lia.
Qed.

(** [Start] on every branch: it throws before a thread is started, or every worker
    has its epoll object and there is a thread for each and one for the listener. *)
Lemma Start_spec setsockopt bind listen f s : length (worker_epoll_fd_ s) = kThreadPoolSize →
  match Start setsockopt bind listen f s with
  | (Ok _, s') =>
      (0 ≤ setsockopt)%Z ∧ (0 ≤ bind)%Z ∧ (0 ≤ listen)%Z ∧ (∀ i, i < kThreadPoolSize → (0 ≤ f i)%Z) ∧
      s' = mkServer (sock_fd_ s) (Some true) (use_co_ s) (f <$> seq 0 kThreadPoolSize)
        (Listener :: ((λ i, if use_co_ s then CoWorker i else Worker i) <$> seq 0 kThreadPoolSize))
  | (Throw _, s') =>
      ((setsockopt < 0)%Z ∨ (bind < 0)%Z ∨ (listen < 0)%Z ∨ ∃ i, i < kThreadPoolSize ∧ (f i < 0)%Z) ∧
      running_ s' = running_ s ∧ threads s' = threads s
  | _ => False
  end.
Proof.
  intros Hlen. unfold Start. destruct (decide (setsockopt < 0)%Z); [by repeat split; left|].
  destruct (decide (bind < 0)%Z); [by repeat split; right; left|].
  destruct (decide (listen < 0)%Z); [by repeat split; right; right; left|].
  destruct (create_epolls_spec f s kThreadPoolSize 0) as (j & E & Hj); [done|constructor|].
  assert (with_epolls f 0 s = s) as E0 by by destruct s. rewrite E0 in E. rewrite Nat.add_0_l in *.
  destruct (decide _) as [Hok|Hno].
  - rewrite (bind_ok _ _ _ _ _ E). rewrite (Hj Hok). cbn [start_threads modify with_epolls sock_fd_ use_co_ worker_epoll_fd_].
    unfold epolls_done. rewrite drop_ge, app_nil_r by lia. do 3 (split; [lia|]). split; [|done].
    intros i Hi. rewrite Forall_forall in Hok. apply Hok, elem_of_seq. lia.
  - unfold mbind, M_bind. rewrite E. split; [|done]. do 3 right.
    apply not_Forall_Exists in Hno; [|apply _]. apply Exists_exists in Hno as (i & Hi & Hf).
    exists i. apply elem_of_seq in Hi. split; [lia|]. cbn in Hf. lia.
Qed.

(** ** The accept loop *)

Section Listen.
Context (hs : handlers) (epoll_ctl : list action → Z → ctl_op → Z → bool) (workers : list Z).

Lemma ListenClient_step_next worker fd w n w' : (0 ≤ fd)%Z →
  ListenClient_step epoll_ctl workers worker fd w = (Ok n, w') → n = (worker + 1) mod kThreadPoolSize.
Proof.
  intros Hfd. unfold ListenClient_step. rewrite decide_False by lia. destruct (workers !! worker) as [epfd|].
  - unfold mbind, M_bind. destruct (new_EventData fd w) as [[] ?]; try done.
    destruct (ControlEpollEvent _ _ _ _ _ _ _) as [[] ?]; try done. by intros [= <- _].
  - unfold mbind, M_bind. by destruct (new_EventData fd w) as [[] ?].
Qed.

(** The loop is a list of rounds. *)
Lemma ListenClient_rounds accept4 : ∀ worker w,
  ListenClient_from epoll_ctl workers worker accept4 w =
    run_rounds hs epoll_ctl false workers (connects worker accept4) w.
Proof.
  induction accept4 as [|fd l IH]; intros worker w; [done|]. cbn [ListenClient_from connects].
  destruct (decide (fd < 0)%Z) as [Hfd|Hfd].
  - rewrite (bind_ok _ _ w worker w); [apply IH|]. unfold ListenClient_step. by rewrite decide_True.
  - cbn [run_rounds run_round]. rewrite bind_assoc. unfold mbind, M_bind.
    destruct (ListenClient_step epoll_ctl workers worker fd w) as [[n| | |] w'] eqn:E; [|done..].
    apply ListenClient_step_next in E as ->; [|lia]. apply IH.
Qed.
End Listen.

Section Turns.
Context (hs : handlers) (workers : list Z) (Hlen : length workers = kThreadPoolSize).

Lemma accepted_cons fd l : accepted_fds (fd :: l) = if decide (fd < 0)%Z then accepted_fds l else fd :: accepted_fds l.
Proof.
  unfold accepted_fds. rewrite filter_cons. destruct (decide (0 ≤ fd)%Z), (decide (fd < 0)%Z); try done; lia.
Qed.

Lemma worker_there worker : worker < kThreadPoolSize → is_Some (workers !! worker).
Proof. intros H. apply lookup_lt_is_Some. by rewrite Hlen. Qed.
Lemma next_worker worker : (worker + 1) mod kThreadPoolSize < kThreadPoolSize.
Proof. apply Nat.mod_upper_bound. done. Qed.

(** The other descriptors. *)
Lemma connects_frame fd epfd l : ∀ worker cs, fd ∉ accepted_fds l →
  spec_run hs workers (events (connects worker l)) cs !! (epfd, fd) = cs !! (epfd, fd).
Proof.
  induction l as [|fd' l IH]; intros worker cs Hnot; [done|]. rewrite accepted_cons in Hnot. cbn [connects].
  destruct (decide (fd' < 0)%Z); [by apply IH|]. apply not_elem_of_cons in Hnot as [Hne Hnot].
  change (events (_ :: ?l)) with (Accept worker fd' :: events l). cbn [spec_run spec_event]. rewrite IH by done.
  destruct (workers !! worker); [|done]. cbn. by rewrite lookup_insert_ne by congruence.
Qed.

Lemma connects_possible l : ∀ worker cs, worker < kThreadPoolSize → NoDup (accepted_fds l) →
  (∀ fd epfd, fd ∈ accepted_fds l → cs !! (epfd, fd) = None) →
  possible_run hs workers (events (connects worker l)) cs.
Proof.
  induction l as [|fd l IH]; intros worker cs Hw Hnd Hfree; [done|]. rewrite accepted_cons in Hnd, Hfree. cbn [connects].
  destruct (decide (fd < 0)%Z) as [Hneg|Hpos]; [by apply IH|]. apply NoDup_cons in Hnd as [Hnot Hnd].
  change (events (_ :: ?l)) with (Accept worker fd :: events l). destruct (worker_there _ Hw) as [epfd Hepfd].
  split; [|apply IH; [apply next_worker|done|]].
  - split; [lia|]. split; [by apply worker_there|]. intros epfd'. apply Hfree. by left.
  - intros fd' epfd' Hfd'. cbn [spec_event]. rewrite Hepfd. cbn.
    rewrite lookup_insert_ne by (intros [= _ ->]; done). apply Hfree. by right.
Qed.

Lemma connects_ok worker l : Forall round_ok (connects worker l).
Proof.
  revert worker. induction l as [|fd l IH]; intros worker; [by constructor|]. cbn [connects].
  destruct (decide _); [apply IH|]. by constructor.
Qed.

(** Every connection is at its worker. *)
Lemma connects_waiting l : ∀ worker cs i fd, worker < kThreadPoolSize → NoDup (accepted_fds l) →
  accepted_fds l !! i = Some fd →
  ∃ epfd, workers !! ((worker + i) mod kThreadPoolSize) = Some epfd ∧
    spec_run hs workers (events (connects worker l)) cs !! (epfd, fd) = Some Waiting.
Proof.
  induction l as [|fd' l IH]; intros worker cs i fd Hw Hnd Hi; [done|]. rewrite accepted_cons in Hnd, Hi. cbn [connects].
  destruct (decide (fd' < 0)%Z) as [Hneg|Hpos]; [by apply IH|]. apply NoDup_cons in Hnd as [Hnot Hnd].
  change (events (_ :: ?l)) with (Accept worker fd' :: events l). cbn [spec_run].
  destruct i as [|i]; cbn [lookup list_lookup] in Hi.
  - injection Hi as <-. rewrite Nat.add_0_r, Nat.mod_small by done. destruct (worker_there _ Hw) as [epfd Hepfd].
    exists epfd. split; [done|]. rewrite connects_frame by done. cbn [spec_event]. rewrite Hepfd. apply lookup_insert_eq.
  - destruct (IH _ (spec_event hs workers (Accept worker fd') cs).1 i fd (next_worker worker) Hnd Hi) as (epfd & H1 & H2).
    exists epfd. split; [|done]. rewrite <- H1. f_equal. rewrite Nat.Div0.add_mod_idemp_l. f_equal. lia.
Qed.
End Turns.

(** [C39] A server that was constructed and started accepts its connections: it has
    an open epoll object and a thread for each worker and one for the listener,
    and the accept loop, over any results of [accept4], fails nowhere and leaves
    the i-th connection at worker i modulo the number of workers, waiting for its
    first request. *)
Theorem started_server_accepts hs epoll_ctl use_co sock_fd setsockopt bind listen f s s' accept4 :
  ctl_spec epoll_ctl → responses_fit hs →
  HttpServer_new use_co sock_fd = Ok s → Start setsockopt bind listen f s = (Ok tt, s') →
  NoDup (accepted_fds accept4) →
  running_ s' = Some true ∧ length (threads s') = S kThreadPoolSize ∧
  (∀ i, i < kThreadPoolSize → worker_epoll_fd_ s' !! i = Some (f i) ∧ (0 ≤ f i)%Z) ∧
  ∃ w, ListenClient epoll_ctl (worker_epoll_fd_ s') accept4 empty_world = (Ok tt, w) ∧
    ∀ i fd, accepted_fds accept4 !! i = Some fd → view w (f (i mod kThreadPoolSize), fd) = Some Waiting.
Proof.
  intros Hctl Hfit Hnew Hstart Hnd.
  assert (length (worker_epoll_fd_ s) = kThreadPoolSize) as Hl.
  { unfold HttpServer_new in Hnew. destruct (decide _); [done|]. by injection Hnew as <-. }
  pose proof (Start_spec setsockopt bind listen f s Hl) as HS.
  rewrite Hstart in HS. destruct HS as (_ & _ & _ & Hf & ->). cbn [running_ threads worker_epoll_fd_].
  split; [done|]. split; [by rewrite length_cons, length_fmap, length_seq|].
  assert (∀ i, i < kThreadPoolSize → (f <$> seq 0 kThreadPoolSize) !! i = Some (f i)) as Hworkers.
  { intros i Hi. by rewrite list_lookup_fmap, lookup_seq_lt by done. }
  split; [by auto|]. set (workers := f <$> seq 0 kThreadPoolSize) in *.
  assert (length workers = kThreadPoolSize) as Hlen by done.
  destruct (rounds_implement hs epoll_ctl Hctl Hfit false workers (connects 0 accept4) empty_world ∅ implements_start)
    as (w & E & [_ Hv] & _).
  - apply connects_ok.
  - apply connects_possible; [done|unfold kThreadPoolSize; lia|done|]. intros. apply lookup_empty.
  - exists w. unfold ListenClient. rewrite (ListenClient_rounds hs). split; [done|]. intros i fd Hi. rewrite Hv.
    destruct (connects_waiting hs workers Hlen accept4 0 ∅ i fd) as (epfd & H1 & H2); [unfold kThreadPoolSize; lia|done|done|].
    rewrite Nat.add_0_l, Hworkers in H1 by (by apply Nat.mod_upper_bound). assert (f (i mod kThreadPoolSize) = epfd) as -> by congruence. done.
Qed.

(** Seven connections, and a call of [accept4] that finds none. *)
Lemma started_server_accepts_witness :
  ∃ w, ListenClient kernel [100; 101; 102; 103; 104]%Z [7; 8; -1; 9; 10; 11; 12; 13]%Z empty_world = (Ok tt, w) ∧
    view w (101%Z, 13%Z) = Some Waiting.
Proof.
  destruct (started_server_accepts [] kernel false 3 0 0 0 (λ i, 100 + Z.of_nat i)%Z
    (mkServer 3 None false (replicate kThreadPoolSize 0%Z) [])
    (mkServer 3 (Some true) false [100; 101; 102; 103; 104]%Z
      [Listener; Worker 0; Worker 1; Worker 2; Worker 3; Worker 4])
    [7; 8; -1; 9; 10; 11; 12; 13]%Z kernel_spec no_routes_fit) as (_ & _ & _ & w & E & Hv).
  - reflexivity.
  - reflexivity.
  - by_decide.
  - exists w. split; [exact E|]. apply (Hv 6 13%Z). reflexivity.
Defined.

End HttpStartProps.
