(* ===== verification/HttpEdge.v ===== *)
(** * The HTTP server under edge-triggered epoll

    The server registers its descriptors with [EPOLLET]: after an event a descriptor
    is reported again when it is registered again, when new data arrives, when
    the peer hangs up, and when room appears for a [send] that had found too
    little of it.  Here runs of the loops of [HttpServer.v] carry the set of the
    descriptors of which an event is still due. *)

From S2P Require Import Prelude CStr HttpMessage HttpMessageProps HttpServer HttpServerProps HttpSpec HttpSpecProps.
Import CStr HttpMessage HttpMessageProps HttpServer HttpServerProps HttpSpec HttpSpecProps.

Module HttpEdge.

(** The pairs of epoll object and descriptor. *)
Abbreviation edges := (gset (Z * Z)).

(** What [epoll_ctl] changes. *)
Definition arm (A : edges) (a : action) : edges :=
  match a with
  | Ctl epfd CTL_DEL fd _ _ => A ∖ {[ (epfd, fd) ]}
  | Ctl epfd _ fd _ _ => {[ (epfd, fd) ]} ∪ A
  | _ => A
  end.

(** A [send] of all that is left that did not find the room. *)
Definition no_room (w : world) (e : sys_event) : bool :=
  match e with
  | Ready epfd fd event _ s =>
      ev_out event &&
      match view w (epfd, fd), s with
      | Some (Answering rest _), Sent n => n <? length rest
      | Some (Answering _ _), SendAgain => true
      | _, _ => false
      end
  | Accept _ _ => false
  end.

(** The event is taken from the set; its handling may put the descriptor back. *)
Definition edge_step (w w' : world) (e : sys_event) (A : edges) : edges :=
  let A := match e with Ready epfd fd _ _ _ => A ∖ {[ (epfd, fd) ]} | Accept _ _ => A end in
  let A := match e with Ready epfd fd _ _ _ => if no_room w e then {[ (epfd, fd) ]} ∪ A else A | Accept _ _ => A end in
  foldl arm A (drop (length (trace w)) (trace w')).

Section Runs.
Context (hs : handlers) (epoll_ctl : list action → Z → ctl_op → Z → bool) (use_co : bool) (workers : list Z).

(** A run, with the descriptors that are due. *)
Fixpoint edge_run (es : list sys_event) (x : world * edges) : world * edges :=
  match es with
  | [] => x
  | e :: es =>
      let w' := (run_event hs epoll_ctl use_co workers e x.1).2 in
      edge_run es (w', edge_step x.1 w' e x.2)
  end.

(** What can be reported: what is due, new data, the end of the peer. *)
Definition reportable (e : sys_event) (A : edges) : Prop :=
  match e with
  | Accept _ _ => True
  | Ready epfd fd event _ _ => (epfd, fd) ∈ A ∨ ev_in event = true ∨ ev_hup event = true ∨ ev_err event = true
  end.
Fixpoint reportable_run (es : list sys_event) (x : world * edges) : Prop :=
  match es with
  | [] => True
  | e :: es =>
      let w' := (run_event hs epoll_ctl use_co workers e x.1).2 in
      reportable e x.2 ∧ reportable_run es (w', edge_step x.1 w' e x.2)
  end.
End Runs.

(** The peer of a connection neither hangs up nor fails. *)
Definition stays (k : Z * Z) (e : sys_event) : Prop :=
  match e with
  | Accept _ _ => True
  | Ready epfd fd event _ _ => (epfd, fd) = k → ev_hup event = false ∧ ev_err event = false
  end.

End HttpEdge.
