(* ===== verification/HttpEdgeProps.v ===== *)
(** * Which descriptors are due

    The plain loop registers every connection again when it has handled an event of
    it, so that an edge-triggered epoll goes on reporting it.  The loop with
    coroutines does not: once a response has been sent in one piece, nothing but
    the end of its peer ever reaches the connection again. *)

From S2P Require Import Prelude CStr HttpMessage HttpMessageProps HttpServer HttpServerProps HttpSpec HttpSpecProps HttpEdge.
Import CStr HttpMessage HttpMessageProps HttpServer HttpServerProps HttpSpec HttpSpecProps HttpEdge.

Module HttpEdgeProps.

(** ** The calls an operation makes *)

Definition is_ctl (k : Z * Z) (a : action) : Prop :=
  match a with Ctl epfd _ fd _ _ => (epfd, fd) = k | _ => False end.
Definition on (k : Z * Z) (a : action) : Prop :=
  match a with Ctl epfd _ fd _ _ => (epfd, fd) = k | _ => True end.

(** The operation tells epoll about no other descriptor, and, if so marked, about
    this one. *)
Definition calls {A} (k : Z * Z) (told : bool) (m : M world A) : Prop :=
  ∀ w a w', m w = (Ok a, w') → ∃ l, trace w' = trace w ++ l ∧ Forall (on k) l ∧ (told = true → Exists (is_ctl k) l).

Lemma calls_bind {A B} k b1 b2 (m : M world A) (f : A → M world B) :
  calls k b1 m → (∀ a, calls k b2 (f a)) → calls k (b1 || b2) (m ≫= f).
Proof.
  intros Hm Hf w b w' (a & w1 & E1 & E2)%bind_inv. destruct (Hm _ _ _ E1) as (l1 & H1 & Ho1 & Ht1).
  destruct (Hf _ _ _ _ E2) as (l2 & H2 & Ho2 & Ht2). exists (l1 ++ l2). split; [by rewrite H2, H1, app_assoc|].
  rewrite Forall_app, Exists_app. split; [done|]. intros [E|E]%orb_true_iff; auto.
Qed.

(** Operations that make no call. *)
Definition silent {A} (m : M world A) : Prop := ∀ w a w', m w = (Ok a, w') → trace w' = trace w.
Lemma silent_calls {A} k (m : M world A) : silent m → calls k false m.
Proof. intros H w a w' E. exists []. rewrite (H _ _ _ E), app_nil_r. by split. Qed.

Lemma silent_ret {A} (a : A) : silent (mret a).
Proof. by intros w b w' [= _ <-]. Qed.
Lemma silent_deref p : silent (deref p).
Proof. intros w a w'. unfold deref. destruct (heap w !! p); [|done]. by intros [= _ <-]. Qed.
Lemma silent_store p d : silent (store p d).
Proof. intros w a w'. unfold store. destruct (heap w !! p); [|done]. by intros [= _ <-]. Qed.
Lemma silent_delete p : silent (delete_EventData p).
Proof. intros w a w'. unfold delete_EventData. destruct (heap w !! p); [|done]. by intros [= _ <-]. Qed.
Lemma silent_new fd : silent (new_EventData fd).
Proof. by intros w a w' [= _ <-]. Qed.
Lemma silent_lift {A} (o : outcome A) : silent (lift o).
Proof. by intros w a w' [= _ <-]. Qed.

Lemma calls_act k a : on k a → calls k false (act a).
Proof. intros Ha w u w' [= _ <-]. exists [a]. split; [done|]. by rewrite Forall_singleton. Qed.

Create HintDb calls.
#[local] Hint Resolve silent_calls silent_ret silent_deref silent_store silent_delete silent_new silent_lift : calls.

Section Calls.
Context (hs : handlers) (epoll_ctl : list action → Z → ctl_op → Z → bool).

Lemma calls_ctl epfd op fd ev po : calls (epfd, fd) true (ControlEpollEvent epoll_ctl epfd op fd ev po).
Proof.
  intros w u w'. unfold ControlEpollEvent. mgo. destruct (epoll_ctl _ _ _ _); [|done]. intros [= _ <-].
  eexists. split; [done|]. rewrite Forall_singleton. split; [done|]. intros _. by left.
Qed.
#[local] Hint Resolve calls_ctl : calls.

Lemma calls_told {A} k b b' (m : M world A) : calls k b m → b = b' → calls k b' m.
Proof. by intros H <-. Qed.

(** Through the binds of an operation. *)
Ltac calls := eapply calls_told;
  [repeat lazymatch goal with |- calls _ _ (_ ≫= _) => eapply calls_bind; [|intros ?] end; try (apply calls_act; done); eauto 2 with calls|reflexivity].

Lemma calls_hang_up epfd fd p : calls (epfd, fd) true (hang_up epoll_ctl epfd fd p).
Proof. unfold hang_up. calls. Qed.
Lemma calls_advance k p n : calls k false (advance p n).
Proof. unfold advance. calls. Qed.
Lemma calls_finish epfd fd p : calls (epfd, fd) true (finish epoll_ctl epfd fd p).
Proof.
  unfold finish. apply (calls_bind _ false true); [eauto with calls|intros d].
  apply (calls_bind _ false true); [eauto with calls|intros _]. destruct (keep_alive_ d); calls.
Qed.
Lemma calls_serve epfd fd p bytes : calls (epfd, fd) true (serve hs epoll_ctl epfd fd p bytes).
Proof. unfold serve, recv_into, set_length. calls. Qed.
#[local] Hint Resolve calls_hang_up calls_advance calls_finish calls_serve : calls.

(** The plain loop always tells epoll about the descriptor of its event; neither loop
    tells it about another. *)
Lemma worker_event_calls use_co w epfd fd p d event r s w' :
  heap w !! p = Some d → fd_ d = fd → worker_event hs epoll_ctl use_co epfd event p r s w = (Ok tt, w') →
  ∃ l, trace w' = trace w ++ l ∧ Forall (on (epfd, fd)) l ∧ (use_co = false → Exists (is_ctl (epfd, fd)) l).
Proof.
  intros Hp Hfd E. assert (∀ f : EventData → M world unit, (deref p ≫= f) w = f d w) as Hdr
    by (intros f; by rewrite (bind_ok _ _ _ _ _ (deref_ok w p d Hp))).
  assert (∀ m : M world unit, (∃ b, calls (epfd, fd) b m ∧ (use_co = false → b = true)) → m w = (Ok tt, w') →
    ∃ l, trace w' = trace w ++ l ∧ Forall (on (epfd, fd)) l ∧ (use_co = false → Exists (is_ctl (epfd, fd)) l)) as Hm.
  { intros m (b & Hc & Hb) Em. destruct (Hc _ _ _ Em) as (l & ? & ? & ?). exists l. auto. }
  unfold worker_event, EventLoop_event, EventLoopWithCo_event, HandleEpollEvent, HandleEpollEvent_in, HandleEpollEvent_out,
    HandleReadEvent, HandleWriteEvent in E.
  destruct use_co, (ev_hup event || ev_err event), (ev_in event), (ev_out event); cbn [orb] in E;
    rewrite Hdr, Hfd in E;
    first [solve [eapply Hm; [|exact E]; eexists; split; [calls|done]]
          |solve [destruct r; (eapply Hm; [|exact E]; eexists; split; [calls|done])]
          |destruct s; (eapply Hm; [|exact E]; eexists; split; [calls|done])].
Qed.
End Calls.

(** ** What is due *)

#[local] Instance is_ctl_dec k a : Decision (is_ctl k a).
Proof. destruct a; unfold is_ctl; apply _. Defined.

Lemma arm_other k A a : ¬ is_ctl k a → k ∈ arm A a ↔ k ∈ A.
Proof. intros Ha. destruct a as [epfd [] fd ev po| |]; cbn in *; set_solver. Qed.
Lemma reg_other k m a : ¬ is_ctl k a → reg_step m a !! k = m !! k.
Proof.
  intros Ha. destruct a as [epfd [] fd ev po| |]; cbn in *; [by rewrite lookup_insert_ne|by rewrite lookup_insert_ne|
    by rewrite lookup_delete_ne|done..].
Qed.
Lemma arm_this k A m a : is_ctl k a → k ∈ arm A a ↔ is_Some (reg_step m a !! k).
Proof.
  intros Ha. destruct a as [epfd [] fd ev po| |]; cbn in *; [..|done|done]; subst k.
  - rewrite lookup_insert_eq. split; [by eexists|set_solver].
  - rewrite lookup_insert_eq. split; [by eexists|set_solver].
  - rewrite lookup_delete_eq. split; [set_solver|by intros []].
Qed.

(** A descriptor epoll was told about is due exactly if it is registered. *)
Lemma arm_told k l A tr : Exists (is_ctl k) l → k ∈ foldl arm A l ↔ is_Some (registered (tr ++ l) !! k).
Proof.
  induction l as [|a l IH] using rev_ind; [by intros ?%Exists_nil|]. intros He.
  rewrite foldl_app, app_assoc, registered_snoc. cbn [foldl]. destruct (decide (is_ctl k a)) as [Ha|Ha]; [by apply arm_this|].
  rewrite arm_other, reg_other by done. apply IH. apply Exists_app in He as [?|He]; [done|].
  by apply Exists_cons in He as [?|?%Exists_nil].
Qed.
Lemma arm_untold k l A tr : ¬ Exists (is_ctl k) l →
  (k ∈ foldl arm A l ↔ k ∈ A) ∧ registered (tr ++ l) !! k = registered tr !! k.
Proof.
  induction l as [|a l IH] using rev_ind; [by rewrite app_nil_r|]. intros He. rewrite Exists_app, Exists_cons in He.
  rewrite foldl_app, app_assoc, registered_snoc. cbn [foldl]. rewrite arm_other, reg_other by tauto. apply IH. tauto.
Qed.

Lemma edge_step_calls w w' e A l : trace w' = trace w ++ l → edge_step w w' e A = foldl arm
  (match e with Ready epfd fd _ _ _ => if no_room w e then {[ (epfd, fd) ]} ∪ A ∖ {[ (epfd, fd) ]} else A ∖ {[ (epfd, fd) ]}
   | Accept _ _ => A end) l.
Proof. intros Ht. unfold edge_step. rewrite Ht, drop_app_length. by destruct e. Qed.

Section Edges.
Context (hs : handlers) (epoll_ctl : list action → Z → ctl_op → Z → bool).
Context (Hctl : ctl_spec epoll_ctl) (Hfit : responses_fit hs) (use_co : bool) (workers : list Z).

(** An event, with the calls it makes. *)
Lemma ready_calls w cs epfd fd event r s : implements w cs → possible workers (Ready epfd fd event r s) cs →
  ∃ w' l, run_event hs epoll_ctl use_co workers (Ready epfd fd event r s) w = (Ok tt, w') ∧
    implements w' (spec_event hs workers (Ready epfd fd event r s) cs).1 ∧
    trace w' = trace w ++ l ∧ Forall (on (epfd, fd)) l ∧ (use_co = false → Exists (is_ctl (epfd, fd)) l).
Proof.
  intros Him Hpo. pose proof Hpo as (c & Hc & _). pose proof Him as [HS Hv]. rewrite <- Hv in Hc.
  destruct (view_inv _ _ _ HS Hc) as (i & p & d & Hreg & Hp & _).
  destruct (owner_facts w epfd fd i p d HS Hreg Hp) as (Hfd & _).
  destruct (ready_implements hs epoll_ctl Hctl Hfit use_co workers w cs epfd fd event r s i p Him Hpo Hreg) as (w' & E & Him' & _).
  destruct (worker_event_calls hs epoll_ctl use_co w epfd fd p d event r s w' Hp Hfd E) as (l & Ht & Ho & He).
  exists w', l. split; [|done]. cbn [run_event]. mgo. by rewrite Hreg.
Qed.

Lemma edge_run_implements es : ∀ x cs, implements x.1 cs → possible_run hs workers es cs →
  implements (edge_run hs epoll_ctl use_co workers es x).1 (spec_run hs workers es cs).
Proof.
  induction es as [|e es IH]; intros x cs Him Hpo; [done|]. destruct Hpo as [Hp Hpo].
  destruct (event_implements hs epoll_ctl Hctl Hfit use_co workers x.1 cs e Him Hp) as (w' & E & Him').
  cbn [edge_run spec_run]. rewrite E. by apply IH.
Qed.

Lemma edge_run_app es1 es2 : ∀ x, edge_run hs epoll_ctl use_co workers (es1 ++ es2) x =
  edge_run hs epoll_ctl use_co workers es2 (edge_run hs epoll_ctl use_co workers es1 x).
Proof. induction es1 as [|e es1 IH]; intros x; [done|]. apply IH. Qed.
End Edges.

(** ** The plain loop *)

Definition all_due (w : world) (A : edges) : Prop := ∀ k, is_Some (registered (trace w) !! k) → k ∈ A.

Lemma plain_all_due hs epoll_ctl workers : ctl_spec epoll_ctl → responses_fit hs → ∀ es x cs,
  implements x.1 cs → possible_run hs workers es cs → all_due x.1 x.2 →
  let y := edge_run hs epoll_ctl false workers es x in all_due y.1 y.2.
Proof.
  intros Hctl Hfit. induction es as [|e es IH]; intros x cs Him Hpo Hd; [done|]. destruct Hpo as [Hp Hpo].
  cbn [edge_run]. destruct e as [worker fd|epfd fd event r s].
  - pose proof Hp as (_ & [epfd Hw] & _).
    destruct (accept_implements hs epoll_ctl Hctl Hfit workers x.1 cs worker fd epfd Him Hp Hw) as (w' & E & Him' & Ht).
    rewrite E. cbn [snd]. eapply IH; [exact Him'|by cbn [spec_event] in Hpo; rewrite Hw in Hpo|].
    cbn [fst snd]. rewrite (edge_step_calls _ _ _ _ _ Ht). intros k. rewrite Ht.
    set (l := [Ctl epfd CTL_ADD fd IN (Some (brk x.1))]). destruct (decide (Exists (is_ctl k) l)) as [He|He].
    + by apply arm_told.
    + destruct (arm_untold k l x.2 (trace x.1) He) as [-> ->]. apply Hd.
  - destruct (ready_calls hs epoll_ctl Hctl Hfit false workers x.1 cs epfd fd event r s Him Hp) as (w' & l & E & Him' & Ht & Ho & He).
    rewrite E. cbn [snd]. eapply IH; [exact Him'|exact Hpo|]. cbn [fst snd]. rewrite (edge_step_calls _ _ _ _ _ Ht).
    intros k. rewrite Ht. destruct (decide (Exists (is_ctl k) l)) as [Hk|Hk]; [by apply arm_told|].
    match goal with |- context [foldl arm ?B l] => destruct (arm_untold k l B (trace x.1) Hk) as [-> ->] end.
    intros Hr. assert (k ≠ (epfd, fd)) as Hne by (intros ->; by apply Hk, He). specialize (Hd k Hr).
    destruct (no_room _ _); set_solver.
Qed.

(** [C25] The plain loop under edge-triggered epoll: after any run every connection is
    due, as every event of it that was handled ended in registering it again; so
    no event that its state allows is ever missed. *)
Theorem plain_loop_keeps_due hs epoll_ctl workers es :
  ctl_spec epoll_ctl → responses_fit hs → possible_run hs workers es ∅ →
  let '(w, A) := edge_run hs epoll_ctl false workers es (empty_world, ∅) in ∀ k, is_Some (view w k) → k ∈ A.
Proof.
  intros Hctl Hfit Hpo. assert (all_due (empty_world, ∅ : edges).1 (empty_world, ∅ : edges).2) as H0.
  { intros k [v Hv]. cbn [fst] in Hv. change (registered (trace empty_world)) with (∅ : reg_map) in Hv.
    by apply lookup_empty_Some in Hv. }
  pose proof (plain_all_due hs epoll_ctl workers Hctl Hfit es (empty_world, ∅) ∅ implements_start Hpo H0) as Hd.
  destruct (edge_run _ _ _ _ _ _) as [w A]. cbn [fst snd] in Hd. intros k [c Hk]. apply Hd. unfold view in Hk.
  destruct (registered (trace w) !! k); [by eexists|done].
Qed.

Lemma plain_loop_keeps_due_witness :
  (100%Z, 7%Z) ∈ (edge_run [] kernel false [100%Z]
    [Accept 0 7; Ready 100 7 readable (Received get_root) SentNothing; Ready 100 7 writable RecvAgain (Sent 28)]
    (empty_world, ∅)).2.
Proof.
  pose proof (plain_loop_keeps_due [] kernel [100%Z]
    [Accept 0 7; Ready 100 7 readable (Received get_root) SentNothing; Ready 100 7 writable RecvAgain (Sent 28)]
    kernel_spec no_routes_fit) as H.
  assert (∀ x : world * edges, (let '(w, A) := x in ∀ k, is_Some (view w k) → k ∈ A) →
    is_Some (view x.1 (100%Z, 7%Z)) → (100%Z, 7%Z) ∈ x.2) as Hx by (intros [w A] Hk; apply Hk).
  apply Hx.
  - apply H. apply possible_run_b_ok. vm_compute. reflexivity.
  - vm_compute. by eexists.
Defined.

(** ** The loop with coroutines *)

Section Stall.
Context (hs : handlers) (epoll_ctl : list action → Z → ctl_op → Z → bool).
Context (Hctl : ctl_spec epoll_ctl) (Hfit : responses_fit hs) (workers : list Z) (epfd fd : Z) (keep : bool).

(** The last piece of a response is sent. *)
Lemma last_piece x cs rest : implements x.1 cs → cs !! (epfd, fd) = Some (Answering rest keep) → rest ≠ [] →
  let y := edge_run hs epoll_ctl true workers [write_event epfd fd (Sent (length rest))] x in
  (epfd, fd) ∉ y.2.
Proof.
  intros Him Hc Hne. pose proof Him as [HS Hv]. pose proof Hc as Hc'. rewrite <- Hv in Hc'.
  destruct (view_inv _ _ _ HS Hc') as (i & p & d & Hreg & Hp & Hcd & Hi).
  assert (i = OUT) as -> by (destruct Hi as [->| ->]; [done|done]).
  assert (run_event hs epoll_ctl true workers (write_event epfd fd (Sent (length rest))) x.1 = (Ok tt,
    mkWorld (<[p := advanced d (length rest)]> (heap x.1)) (brk x.1)
      (trace x.1 ++ [Send (fd_ d) (take (length rest) (drop (cursor_ d) (buf_ d)))]))) as E.
  { unfold write_event, run_event, worker_event. mgo. rewrite Hreg. unfold EventLoopWithCo_event, writable.
    cbn [ev_hup ev_err ev_in ev_out orb]. unfold HandleWriteEvent. rewrite (bind_ok _ _ _ _ _ (deref_ok x.1 p d Hp)).
    apply (advance_only x.1 p d Hp). }
  cbn [edge_run]. rewrite E. cbn [snd]. erewrite edge_step_calls by done. cbn [foldl arm].
  unfold write_event, no_room. rewrite Hc'. cbn [ev_out writable andb]. rewrite Nat.ltb_irrefl. set_solver.
Qed.

(** From then on the connection is not reached. *)
Lemma not_reached es : ∀ x cs, implements x.1 cs → possible_run hs workers es cs →
  cs !! (epfd, fd) = Some (Answering [] keep) → (epfd, fd) ∉ x.2 →
  reportable_run hs epoll_ctl true workers es x → Forall (stays (epfd, fd)) es →
  spec_run hs workers es cs !! (epfd, fd) = Some (Answering [] keep).
Proof.
  induction es as [|e es IH]; intros x cs Him Hpo Hc Hnot Hr Hst; [done|]. destruct Hpo as [Hp Hpo].
  apply Forall_cons in Hst as [Hse Hst]. cbn [reportable_run] in Hr. destruct Hr as [Hre Hr]. cbn [spec_run].
  destruct e as [worker fd'|epfd' fd' event r s].
  - pose proof Hp as (_ & [epfd' Hw] & Hfree).
    destruct (accept_implements hs epoll_ctl Hctl Hfit workers x.1 cs worker fd' epfd' Him Hp Hw) as (w' & E & Him' & Ht).
    assert ((epfd, fd) ≠ (epfd', fd')) as Hne. { intros [= <- <-]. by rewrite Hfree in Hc. }
    change (run_event hs epoll_ctl true workers (Accept worker fd') x.1) with
      (run_event hs epoll_ctl false workers (Accept worker fd') x.1) in Hr. rewrite E in Hr. cbn [snd] in Hr.
    cbn [spec_event] in Hpo |- *. rewrite Hw in Hpo |- *. cbn [fst] in Hpo |- *. apply (IH (w', edge_step x.1 w' (Accept worker fd') x.2) _ Him' Hpo); [| |exact Hr|exact Hst].
    + by rewrite lookup_insert_ne.
    + cbn [snd]. rewrite (edge_step_calls _ _ _ _ _ Ht). cbn [foldl arm]. set_solver.
  - destruct (ready_calls hs epoll_ctl Hctl Hfit true workers x.1 cs epfd' fd' event r s Him Hp) as (w' & l & E & Him' & Ht & Ho & _).
    assert ((epfd', fd') ≠ (epfd, fd)) as Hne.
    { intros [= -> ->]. destruct Hp as (c & Hc' & Hin & _). rewrite Hc in Hc'. injection Hc' as <-.
      destruct (Hse eq_refl) as [E1 E2]. destruct Hre as [?|[H|[H|H]]]; [done| |congruence..]. by specialize (Hin H). }
    rewrite E in Hr. cbn [snd] in Hr. apply (IH (w', edge_step x.1 w' (Ready epfd' fd' event r s) x.2) _ Him' Hpo); [| |exact Hr|exact Hst].
    + cbn [spec_event]. destruct (cs !! (epfd', fd')) as [c|]; [|done]. destruct (conn_event hs c event r s) as [c' out].
      cbn. by rewrite lookup_partial_alter_ne.
    + cbn [snd]. rewrite (edge_step_calls _ _ _ _ _ Ht).
      assert (¬ Exists (is_ctl (epfd, fd)) l) as Hk.
      { intros (a & Ha & Hk)%Exists_exists. rewrite Forall_forall in Ho. specialize (Ho a Ha). destruct a; [|done..].
        cbn in *. congruence. }
      match goal with |- context [foldl arm ?B l] => destruct (arm_untold (epfd, fd) l B [] Hk) as [-> _] end.
      destruct (no_room _ _); set_solver.
Qed.
End Stall.

(** [C29] The loop with coroutines under edge-triggered epoll: once [send] has taken all
    that was left of a response, the connection is stuck.  Over any further run of
    events such an epoll reports, in which the peer of the connection neither
    hangs up nor fails, it still has its finished response: it is neither closed
    nor does it wait for a request. *)
Theorem coroutine_loop_stalls hs epoll_ctl workers es epfd fd rest keep es' :
  let e := write_event epfd fd (Sent (length rest)) in
  let x := edge_run hs epoll_ctl true workers (es ++ [e]) (empty_world, ∅) in
  ctl_spec epoll_ctl → responses_fit hs → possible_run hs workers ((es ++ [e]) ++ es') ∅ →
  spec_run hs workers es ∅ !! (epfd, fd) = Some (Answering rest keep) → rest ≠ [] →
  reportable_run hs epoll_ctl true workers es' x → Forall (stays (epfd, fd)) es' →
  view (edge_run hs epoll_ctl true workers es' x).1 (epfd, fd) = Some (Answering [] keep).
Proof.
  intros e x Hctl Hfit Hpo Hc Hne Hr Hst. apply possible_run_app in Hpo as [Hpo Hpo'].
  pose proof Hpo as Hpo0. apply possible_run_app in Hpo0 as [Hpo0 _].
  pose proof (edge_run_implements hs epoll_ctl Hctl Hfit true workers es (empty_world, ∅) ∅ implements_start Hpo0) as Him0.
  pose proof (edge_run_implements hs epoll_ctl Hctl Hfit true workers (es ++ [e]) (empty_world, ∅) ∅ implements_start Hpo) as Him.
  fold x in Him. destruct (edge_run_implements hs epoll_ctl Hctl Hfit true workers es' x _ Him Hpo') as [_ ->].
  eapply not_reached; [done..| | | |done].
  - unfold e. rewrite spec_run_app. cbn [spec_run spec_event write_event]. rewrite Hc.
    cbn [conn_event ev_hup ev_err ev_out writable orb]. rewrite drop_all. apply lookup_partial_alter_eq.
  - unfold x. rewrite edge_run_app. by eapply last_piece.
  - done.
Qed.

(** The response of 404, sent whole, and another client that comes and goes. *)
Definition before_last : list sys_event := [Accept 0 7; Ready 100 7 readable (Received get_root) SentNothing].
Definition after_last : list sys_event := [Accept 0 8; Ready 100 8 readable RecvClosed SentNothing].
Definition not_found_text : str := HttpResponse_ToString (HttpResponse_new HttpStatusCode.NotFound) true.

Lemma coroutine_loop_stalls_witness :
  view (edge_run [] kernel true [100%Z] after_last
    (edge_run [] kernel true [100%Z] (before_last ++ [write_event 100 7 (Sent (length not_found_text))])
      (empty_world, ∅))).1 (100%Z, 7%Z) = Some (Answering [] false).
Proof.
  apply (coroutine_loop_stalls [] kernel [100%Z] before_last 100 7 not_found_text false after_last kernel_spec no_routes_fit).
  - apply possible_run_b_ok. vm_compute. reflexivity.
  - vm_compute. reflexivity.
  - vm_compute. discriminate.
  - split; [done|]. split; [|done]. right. by left.
  - apply Forall_cons; split; [done|]. apply Forall_singleton. by intros [=].
Defined.

End HttpEdgeProps.
