(* ===== verification/Schedule.v ===== *)
(** * Coroutines

    [Schedule] and [Coroutine] of [src/include/coroutine.hh] and
    [src/coroutine.cc]: creation, [Resume], [Yield], the end of a coroutine, and
    the copying of shared stacks.  What a coroutine executes is a list of
    instructions; [swapcontext] makes the target continue with its own. *)

From S2P Require Import Prelude.

Module Schedule.

(** ** Stack memory *)

Open Scope Z_scope.

(** [CreateCoroutine] rounds the size up to a multiple of 4096, in [size_t]. *)
Definition round_stack (stack_size : Z) : Z :=
  if decide (Z.land stack_size 4095 ≠ 0)
  then wrap u64 (Z.ldiff stack_size 4095 + 4096) else stack_size.

Close Scope Z_scope.

(** The buffer is listed from its high end, the way the stack grows. *)
Record StackMem := mkStackMem {
  occupy_co_ : option nat;
  size_ : nat;
  stack_buffer_ : list Z }.

Definition AllocStack (size : nat) : StackMem := mkStackMem None size (replicate size 0%Z).

(** The part of [Coroutine] that concerns its stack. [dummy_] is the address of
    a local, as a distance from the high end; [sp_] the stack pointer in the
    saved context, in the same measure.  The main coroutine has no stack. *)
Record CoStack := mkCoStack {
  use_shared_stk_ : bool;
  stack_mem_ : option nat;
  saved_stack_ : list Z;
  saved_size_ : nat;
  dummy_ : option nat;
  sp_ : nat }.

(** [SharedMem]: the stacks of the pool, by number. *)
Record SharedMem := mkSharedMem {
  count_ : nat;
  pool_size_ : nat;
  stack_array_ : list nat;
  idx_ : nat }.

Record Stacks := mkStacks {
  mems : gmap nat StackMem;
  cos : gmap nat CoStack }.

Definition set_mem (m : nat) (x : StackMem) (s : Stacks) : Stacks :=
  mkStacks (<[m := x]> (mems s)) (cos s).
Definition set_co (c : nat) (x : CoStack) (s : Stacks) : Stacks :=
  mkStacks (mems s) (<[c := x]> (cos s)).
Definition lookup_mem (m : option nat) (s : Stacks) : outcome (nat * StackMem) :=
  match m with
  | None => Undef "null stack_mem_"
  | Some m => match mems s !! m with Some x => Ok (m, x) | None => Undef "dangling stack_mem_" end
  end.
Definition lookup_co (c : nat) (s : Stacks) : outcome CoStack :=
  match cos s !! c with Some x => Ok x | None => Undef "dangling coroutine" end.

(** [AllocSharedMem]: [count] fresh stacks numbered from [base]. *)
Definition AllocSharedMem (count size base : nat) (s : Stacks) : SharedMem * Stacks :=
  (mkSharedMem count size (seq base count) 0,
   mkStacks (foldr (λ i, <[i := AllocStack size]>) (mems s) (seq base count)) (cos s)).

(** [GetStackMem]: the stacks in turn. *)
Definition GetStackMem (p : SharedMem) : outcome (nat * SharedMem) :=
  if decide (count_ p = 0) then Undef "division by zero"
  else match stack_array_ p !! (idx_ p mod count_ p) with
       | Some m => Ok (m, mkSharedMem (count_ p) (pool_size_ p) (stack_array_ p) (S (idx_ p)))
       | None => Undef "vector index"
       end.

(** [SaveStack]: from [dummy_] to the high end. With a null [dummy_] the size to
    save is not one that can be allocated. *)
Definition SaveStack (c : nat) (s : Stacks) : outcome Stacks :=
  x ← lookup_co c s;
  '(m, mem) ← lookup_mem (stack_mem_ x) s;
  match dummy_ x with
  | None => Undef "allocation of the whole address space"
  | Some d =>
      Ok (set_co c (mkCoStack (use_shared_stk_ x) (stack_mem_ x)
                      (take d (stack_buffer_ mem)) d (dummy_ x) (sp_ x)) s)
  end.

(** [ResumeStack]: [memcpy(dummy_, saved_stack_, saved_size_)], upwards. *)
Definition ResumeStack (c : nat) (s : Stacks) : outcome Stacks :=
  x ← lookup_co c s;
  if decide (saved_size_ x = 0) then Ok s
  else
    '(m, mem) ← lookup_mem (stack_mem_ x) s;
    match dummy_ x with
    | None => Undef "memcpy to null"
    | Some d =>
        if decide (saved_size_ x ≤ d) then
          let lo := d - saved_size_ x in
          Ok (set_mem m (mkStackMem (occupy_co_ mem) (size_ mem)
                (take lo (stack_buffer_ mem) ++ take (saved_size_ x) (saved_stack_ x)
                 ++ drop d (stack_buffer_ mem))) s)
        else Undef "memcpy past the stack"
    end.

(** [SwapContext] up to [swapcontext].  Copying a saved stack over the stack
    that is being run on is undefined. *)
Definition SwapContext (prev next : nat) (s : Stacks) : outcome Stacks :=
  p ← lookup_co prev s;
  let s := set_co prev (mkCoStack (use_shared_stk_ p) (stack_mem_ p) (saved_stack_ p)
                          (saved_size_ p) (Some (sp_ p)) (sp_ p)) s in
  n ← lookup_co next s;
  if use_shared_stk_ n then
    '(m, mem) ← lookup_mem (stack_mem_ n) s;
    let occupy_co := occupy_co_ mem in
    let s := set_mem m (mkStackMem (Some next) (size_ mem) (stack_buffer_ mem)) s in
    match occupy_co with
    | Some o =>
        if decide (o ≠ next) then
          s ← SaveStack o s;
          if decide (stack_mem_ p = stack_mem_ n ∧ saved_size_ n ≠ 0)
          then Undef "the running stack is overwritten"
          else ResumeStack next s
        else Ok s
    | None => Ok s
    end
  else Ok s.

(** What running code does to its own stack. *)
Definition push_stack (c : nat) (l : list Z) (s : Stacks) : outcome Stacks :=
  x ← lookup_co c s;
  match stack_mem_ x with
  | None => Ok s
  | Some _ =>
      '(m, mem) ← lookup_mem (stack_mem_ x) s;
      if decide (sp_ x + length l ≤ size_ mem) then
        Ok (set_co c (mkCoStack (use_shared_stk_ x) (stack_mem_ x) (saved_stack_ x)
                        (saved_size_ x) (dummy_ x) (sp_ x + length l))
           (set_mem m (mkStackMem (occupy_co_ mem) (size_ mem)
              (take (sp_ x) (stack_buffer_ mem) ++ l ++ drop (sp_ x + length l) (stack_buffer_ mem))) s))
      else Undef "stack overflow"
  end.

Definition pop_stack (c : nat) (n : nat) (s : Stacks) : outcome Stacks :=
  x ← lookup_co c s;
  match stack_mem_ x with
  | None => Ok s
  | Some _ =>
      if decide (n ≤ sp_ x) then
        Ok (set_co c (mkCoStack (use_shared_stk_ x) (stack_mem_ x) (saved_stack_ x)
                        (saved_size_ x) (dummy_ x) (sp_ x - n)) s)
      else Undef "stack underflow"
  end.

Definition read_stack (c : nat) (s : Stacks) : outcome (list Z) :=
  x ← lookup_co c s;
  match stack_mem_ x with
  | None => Ok []
  | Some _ => '(_, mem) ← lookup_mem (stack_mem_ x) s; Ok (take (sp_ x) (stack_buffer_ mem))
  end.

(** ** The scheduler, over an interface to stack memory *)

Class StackMemory (Mem : Type) := {
  swap_stacks : nat → nat → Mem → outcome Mem;
  push_bytes : nat → list Z → Mem → outcome Mem;
  pop_bytes : nat → nat → Mem → outcome Mem;
  live_bytes : nat → Mem → outcome (list Z) }.

#[global] Instance shared_stacks : StackMemory Stacks := {
  swap_stacks := SwapContext;
  push_bytes := push_stack;
  pop_bytes := pop_stack;
  live_bytes := read_stack }.

Inductive CoState := CO_READY | CO_RUNNING | CO_TERMINAL.

#[global] Instance CoState_eq_dec : EqDecision CoState.
Proof. solve_decision. Defined.

(** The code of a coroutine: calls of the library, and the use it makes of its
    stack. *)
Inductive instr :=
| IResume (c : nat)
| IYield
| IPush (l : list Z)
| IPop (n : nat)
| IRead.

Record Coroutine := mkCoroutine {
  func_ : list instr;        (* what is left to execute *)
  co_state_ : CoState;
  is_main_co_ : bool }.

Record Schedule (Mem : Type) := mkSchedule {
  co_stack_ : list nat;      (* bottom first *)
  stack_top_ : nat;
  running_co_ : nat;
  coroutines : gmap nat Coroutine;
  memory : Mem;
  output : list (nat * list Z) }.
Arguments mkSchedule {Mem}.
Arguments co_stack_ {Mem}.
Arguments stack_top_ {Mem}.
Arguments running_co_ {Mem}.
Arguments coroutines {Mem}.
Arguments memory {Mem}.
Arguments output {Mem}.

Section Machine.
Context {Mem : Type} `{SM : StackMemory Mem}.
Implicit Types (s : Schedule Mem).

Definition get_co (c : nat) : M (Schedule Mem) Coroutine := λ s,
  match coroutines s !! c with Some x => (Ok x, s) | None => (Undef "null coroutine", s) end.
Definition set_state (c : nat) (st : CoState) : M (Schedule Mem) unit := λ s,
  match coroutines s !! c with
  | Some x => (Ok tt, mkSchedule (co_stack_ s) (stack_top_ s) (running_co_ s)
      (<[c := mkCoroutine (func_ x) st (is_main_co_ x)]> (coroutines s)) (memory s) (output s))
  | None => (Undef "null coroutine", s)
  end.
Definition set_func (c : nat) (f : list instr) : M (Schedule Mem) unit := λ s,
  match coroutines s !! c with
  | Some x => (Ok tt, mkSchedule (co_stack_ s) (stack_top_ s) (running_co_ s)
      (<[c := mkCoroutine f (co_state_ x) (is_main_co_ x)]> (coroutines s)) (memory s) (output s))
  | None => (Undef "null coroutine", s)
  end.
Definition set_stack (l : list nat) (top running : nat) : M (Schedule Mem) unit := λ s,
  (Ok tt, mkSchedule l top running (coroutines s) (memory s) (output s)).
Definition on_memory (f : Mem → outcome Mem) : M (Schedule Mem) unit := λ s,
  match f (memory s) with
  | Ok m => (Ok tt, mkSchedule (co_stack_ s) (stack_top_ s) (running_co_ s) (coroutines s) m (output s))
  | Throw e => (Throw e, s)
  | Undef w => (Undef w, s)
  | NoFuel => (NoFuel, s)
  end.
Definition emit (c : nat) (l : list Z) : M (Schedule Mem) unit := λ s,
  (Ok tt, mkSchedule (co_stack_ s) (stack_top_ s) (running_co_ s) (coroutines s) (memory s)
            (output s ++ [(c, l)])).

(** [SYLAR_ASSERT]. *)
Definition SYLAR_ASSERT (b : bool) : M (Schedule Mem) unit :=
  if b then mret tt else undef "assertion failed".

(** [co_stack_[i]]. *)
Definition stack_at (s : Schedule Mem) (i : nat) : M (Schedule Mem) nat :=
  match co_stack_ s !! i with Some c => mret c | None => undef "vector index" end.

Definition Resume (this : nat) : M (Schedule Mem) unit :=
  x ← get_co this;
  if decide (co_state_ x = CO_TERMINAL) then mret tt
  else
    SYLAR_ASSERT (bool_decide (co_state_ x = CO_READY));;
    s ← get;
    let prev := running_co_ s in
    r ← get_co prev;
    SYLAR_ASSERT (bool_decide (co_state_ r = CO_RUNNING));;
    (if decide (1 < length (co_stack_ s)) then set_state prev CO_READY else mret tt);;
    set_state this CO_RUNNING;;
    set_stack (co_stack_ s ++ [this]) (stack_top_ s + 1) this;;
    on_memory (swap_stacks prev this).

(** The top of the stack gives way to the coroutine below it. *)
Definition Yield : M (Schedule Mem) unit :=
  s ← get;
  if decide (length (co_stack_ s) < 2)
  then raise (runtime_error "only main coroutine running, cannot yield")
  else
    running_co ← stack_at s (stack_top_ s - 1);
    pending_co ← stack_at s (stack_top_ s - 2);
    set_stack (removelast (co_stack_ s)) (stack_top_ s - 1) pending_co;;
    set_state running_co CO_READY;;
    set_state pending_co CO_RUNNING;;
    on_memory (swap_stacks running_co pending_co).

(** [CoMainFunc] after [func_()] has returned. *)
Definition CoMainFunc_end (co : nat) : M (Schedule Mem) unit :=
  set_state co CO_TERMINAL;;
  s ← get;
  running_co ← stack_at s (stack_top_ s - 1);
  pending_co ← stack_at s (stack_top_ s - 2);
  set_stack (removelast (co_stack_ s)) (stack_top_ s - 1) pending_co;;
  on_memory (swap_stacks running_co pending_co).

(** One instruction of the running coroutine. The main coroutine stops at the
    end of its code; any other one returns into [CoMainFunc]. *)
Definition step : M (Schedule Mem) unit :=
  s ← get;
  let c := running_co_ s in
  x ← get_co c;
  match func_ x with
  | [] => if is_main_co_ x then mret tt else CoMainFunc_end c
  | i :: rest =>
      set_func c rest;;
      match i with
      | IResume c' => Resume c'
      | IYield => Yield
      | IPush l => on_memory (push_bytes c l)
      | IPop n => on_memory (pop_bytes c n)
      | IRead => s ← get; l ← lift (live_bytes c (memory s)); emit c l
      end
  end.

Fixpoint run (n : nat) : M (Schedule Mem) unit :=
  match n with O => mret tt | S n' => step;; run n' end.

(** [InitThreadSchedule]: only the main coroutine, running. *)
Definition InitThreadSchedule (main : nat) (code : list instr) (mem : Mem) : Schedule Mem :=
  mkSchedule [main] 1 main {[ main := mkCoroutine code CO_RUNNING true ]} mem [].

(** [GetInvokeDeepth], and [GetCurrentCo]: [co_stack_.back()]. *)
Definition GetInvokeDeepth (s : Schedule Mem) : nat := length (co_stack_ s).
Definition GetCurrentCo (s : Schedule Mem) : outcome nat :=
  match last (co_stack_ s) with Some c => Ok c | None => Undef "back() of an empty vector" end.

End Machine.

(** [CreateCoroutine] with attributes: number [c], a stack of its own or one of
    the pool; [mem] numbers the new stack. *)
Definition CreateCoroutine (c : nat) (stack_size : Z) (shared : option SharedMem) (mem : nat)
    (code : list instr) (s : Schedule Stacks) : outcome (option SharedMem * Schedule Stacks) :=
  let size := Z.to_nat (round_stack stack_size) in
  let new_co st := mkSchedule (co_stack_ s) (stack_top_ s) (running_co_ s)
    (<[c := mkCoroutine code CO_READY false]> (coroutines s)) st (output s) in
  match shared with
  | Some p =>
      '(m, p) ← GetStackMem p;
      Ok (Some p, new_co (set_co c (mkCoStack true (Some m) [] 0 None 0) (memory s)))
  | None =>
      Ok (None, new_co (set_co c (mkCoStack false (Some mem) [] 0 None 0)
                          (set_mem mem (AllocStack size) (memory s))))
  end.

End Schedule.
