(* ===== verification/ScheduleProps.v ===== *)
(** * Properties of the coroutine scheduler

    The invariant of the execution stack, the state a nested coroutine leaves
    behind, and the refinement of private stacks by shared ones. *)

From S2P Require Import Prelude Schedule.
Import Schedule.

Module ScheduleProps.

(** ** Stack sizes *)

(** [CreateCoroutine] gives at least the stack that was asked for, in whole
    pages of 4096 bytes and with less than a page to spare, up to the last page
    of the address space; there the size wraps around to 0. *)
Theorem round_stack_spec z :
  (0 ≤ z < 2 ^ 64)%Z →
  (round_stack z mod 4096 = 0)%Z ∧
  if decide (z ≤ 2 ^ 64 - 4096)%Z then (z ≤ round_stack z < z + 4096)%Z else round_stack z = 0%Z.
Proof.
  intros Hz. unfold round_stack. change 4095%Z with (Z.ones 12).
  rewrite Z.land_ones, Z.ldiff_ones_r by lia. rewrite Z.shiftl_mul_pow2, Z.shiftr_div_pow2 by lia.
  change (2 ^ 12)%Z with 4096%Z. pose proof (Z.div_mod z 4096 ltac:(lia)) as Hd.
  pose proof (Z.mod_pos_bound z 4096 ltac:(lia)) as Hm.
  destruct (decide (z mod 4096 ≠ 0)%Z) as [Hnz|Hz0].
  - assert (z / 4096 < 2 ^ 52)%Z by (apply Z.div_lt_upper_bound; lia).
    unfold wrap, wrap_u. cbn [isigned u64 ibits].
    destruct (decide (z ≤ 2 ^ 64 - 4096)%Z).
    + assert (z / 4096 + 1 < 2 ^ 52)%Z by (Z.to_euclidean_division_equations; lia).
      rewrite (Z.mod_small _ (2 ^ 64)) by lia. split; [|lia].
      replace (z / 4096 * 4096 + 4096)%Z with ((z / 4096 + 1) * 4096)%Z by lia.
      by rewrite Z.mod_mul.
    + assert (z / 4096 = 2 ^ 52 - 1)%Z as -> by (Z.to_euclidean_division_equations; lia).
      done.
  - assert (z mod 4096 = 0)%Z as E by lia. split; [done|].
    destruct (decide _); [lia|]. Z.to_euclidean_division_equations; lia.
Qed.

Lemma round_stack_spec_witness : (round_stack 5000 mod 4096 = 0)%Z ∧ (5000 ≤ round_stack 5000 < 9096)%Z.
Proof. apply (round_stack_spec 5000). lia. Defined.

(** ** The execution stack *)

Section Invariant.
Context {Mem : Type} `{SM : StackMemory Mem} (main : nat).

(** The main coroutine is at the bottom and nowhere else, and always marked
    running; the top of the stack is the running coroutine. *)
Record sched_ok (s : Schedule Mem) : Prop := {
  ok_stack : ∃ l, co_stack_ s = main :: l ∧ main ∉ l;
  ok_top : stack_top_ s = length (co_stack_ s);
  ok_running : last (co_stack_ s) = Some (running_co_ s);
  ok_main : ∃ x, coroutines s !! main = Some x ∧ co_state_ x = CO_RUNNING ∧ is_main_co_ x = true;
  ok_others : ∀ c x, c ≠ main → coroutines s !! c = Some x → is_main_co_ x = false }.

Lemma bind_assert {B} (f : () → M (Schedule Mem) B) s :
  (SYLAR_ASSERT true ≫= f) s = f tt s.
Proof. done. Qed.

Lemma get_co_ok c x (s : Schedule Mem) : coroutines s !! c = Some x → get_co c s = (Ok x, s).
Proof. intros H. unfold get_co. by rewrite H. Qed.

Lemma set_func_ok c x f (s : Schedule Mem) : coroutines s !! c = Some x →
  set_func c f s = (Ok tt, mkSchedule (co_stack_ s) (stack_top_ s) (running_co_ s)
    (<[c := mkCoroutine f (co_state_ x) (is_main_co_ x)]> (coroutines s)) (memory s) (output s)).
Proof. intros H. unfold set_func. by rewrite H. Qed.

(** Commands that keep the invariant when they return. *)
Definition keeps {A} (m : M (Schedule Mem) A) : Prop :=
  ∀ s a s', sched_ok s → m s = (Ok a, s') → sched_ok s'.

Lemma keeps_bind {A B} (m : M (Schedule Mem) A) (f : A → M (Schedule Mem) B) :
  keeps m → (∀ a, keeps (f a)) → keeps (m ≫= f).
Proof.
  intros Hm Hf s b s' Hs E. unfold mbind, M_bind in E.
  destruct (m s) as [[a| | |] s1] eqn:E1; try done. eapply Hf; [|exact E]. by eapply Hm.
Qed.

Lemma keeps_on_memory f : keeps (on_memory f).
Proof.
  intros s a s' Hs E. unfold on_memory in E. destruct (f (memory s)); simplify_eq. by destruct Hs.
Qed.

Lemma keeps_emit c l : keeps (emit c l).
Proof. intros s a s' Hs E. unfold emit in E. simplify_eq. by destruct Hs. Qed.

Lemma keeps_set_func c f : keeps (set_func c f).
Proof.
  intros s a s' [Hst Htop Hrun (x & Hx & Hxs & Hxm) Ho] E. unfold set_func in E.
  destruct (coroutines s !! c) as [y|] eqn:Ey; simplify_eq. split; try done; cbn.
  - destruct (decide (c = main)) as [->|Hne].
    + rewrite lookup_insert_eq. rewrite Hx in Ey. simplify_eq. by eexists.
    + rewrite lookup_insert_ne by done. by eexists.
  - intros c' x' Hc' Hl. apply lookup_insert_Some in Hl as [[<- <-]|[_ Hl]]; cbn; by eapply Ho.
Qed.

Lemma keeps_set_state c st : (c ≠ main ∨ st = CO_RUNNING) → keeps (set_state c st).
Proof.
  intros Hc s a s' [Hst Htop Hrun (x & Hx & Hxs & Hxm) Ho] E. unfold set_state in E.
  destruct (coroutines s !! c) as [y|] eqn:Ey; simplify_eq. split; try done; cbn.
  - destruct (decide (c = main)) as [->|Hne].
    + rewrite lookup_insert_eq. rewrite Hx in Ey. simplify_eq. eexists. split; [done|].
      by destruct Hc.
    + rewrite lookup_insert_ne by done. by eexists.
  - intros c' x' Hc' Hl. apply lookup_insert_Some in Hl as [[<- <-]|[_ Hl]]; cbn; by eapply Ho.
Qed.

Lemma keeps_ret {A} (a : A) : keeps (mret a).
Proof. intros s b s' Hs E. unfold mret, M_ret in E. by simplify_eq. Qed.

(** [push_back] and [pop_back] with the registers. *)
Lemma sched_ok_push s c :
  sched_ok s → c ≠ main →
  sched_ok (mkSchedule (co_stack_ s ++ [c]) (stack_top_ s + 1) c (coroutines s) (memory s) (output s)).
Proof.
  intros [(l & El & Hl) Htop Hrun Hm Ho] Hc. split; try done; cbn.
  - exists (l ++ [c]). rewrite El. split; [done|].
    intros [?|Hin%list_elem_of_singleton]%elem_of_app; [done|congruence].
  - rewrite length_app, Htop. done.
  - by rewrite last_snoc.
Qed.

Lemma stack_split s :
  sched_ok s → 2 ≤ length (co_stack_ s) →
  ∃ l p, co_stack_ s = l ++ [p; running_co_ s] ∧ running_co_ s ≠ main ∧
    co_stack_ s !! (stack_top_ s - 1) = Some (running_co_ s) ∧
    co_stack_ s !! (stack_top_ s - 2) = Some p ∧ removelast (co_stack_ s) = l ++ [p].
Proof.
  intros [(l & El & Hl) Htop Hrun Hm Ho] Hlen.
  destruct l as [|x l _] using rev_ind; [rewrite El in Hlen; cbn in Hlen; lia|].
  rewrite El in Hrun. change (main :: l ++ [x]) with ((main :: l) ++ [x]) in Hrun.
  rewrite last_snoc in Hrun. injection Hrun as Hx.
  assert (∃ l' p, main :: l = l' ++ [p]) as (l' & p & El').
  { destruct l as [|y l _] using rev_ind; [by exists [], main|]. by exists (main :: l), y. }
  exists l', p. rewrite Htop, El. change (main :: l ++ [x]) with ((main :: l) ++ [x]).
  rewrite El', <- !app_assoc. cbn [app]. subst x. split; [done|]. split.
  { intros E. apply Hl. rewrite E. apply elem_of_app. right. by left. }
  rewrite !length_app. cbn [length].
  split; [rewrite lookup_app_r by lia; by replace (length l' + 2 - 1 - length l') with 1 by lia|].
  split; [rewrite lookup_app_r by lia; by replace (length l' + 2 - 2 - length l') with 0 by lia|].
  change [p; running_co_ s] with ([p] ++ [running_co_ s]). rewrite app_assoc. by rewrite removelast_last.
Qed.

Lemma sched_ok_pop s l p :
  sched_ok s → co_stack_ s = l ++ [p; running_co_ s] →
  sched_ok (mkSchedule (l ++ [p]) (stack_top_ s - 1) p (coroutines s) (memory s) (output s)).
Proof.
  intros [(k & Ek & Hk) Htop Hrun Hm Ho] El. split; try done; cbn.
  - rewrite El in Ek. destruct l as [|x l]; cbn in Ek; simplify_eq.
    + exists []. split; [done|]. by intros ?%elem_of_nil.
    + exists (l ++ [p]). split; [done|]. intros Hin. apply Hk.
      change [p; running_co_ s] with ([p] ++ [running_co_ s]). rewrite app_assoc. apply elem_of_app. by left.
  - rewrite Htop, El, !length_app. cbn. lia.
  - by rewrite last_snoc.
Qed.

Lemma keeps_Resume c : keeps (Resume c).
Proof.
  intros s a s' Hs E. unfold Resume, get_co in E. unfold mbind at 1, M_bind at 1 in E.
  destruct (coroutines s !! c) as [x|] eqn:Ex; [|done]. cbn in E.
  destruct (decide (co_state_ x = CO_TERMINAL)); [by eapply (keeps_ret tt)|].
  destruct (bool_decide_reflect (co_state_ x = CO_READY)) as [Hx|]; [|done].
  assert (c ≠ main) as Hc.
  { intros ->. destruct (ok_main _ Hs) as (y & Hy & Hys & _). rewrite Ex in Hy. simplify_eq. congruence. }
  rewrite bind_assert, bind_get in E. cbn beta in E.
  unfold mbind at 1, M_bind at 1 in E.
  destruct (coroutines s !! running_co_ s) as [r|] eqn:Er; [|done].
  destruct (bool_decide _); [|done]. rewrite bind_assert in E.
  assert (running_co_ s ≠ main ∨ length (co_stack_ s) ≤ 1) as Hrun.
  { destruct (decide (2 ≤ length (co_stack_ s))) as [Hl|]; [left|right; lia].
    by destruct (stack_split s Hs Hl) as (l & p & _ & ? & _). }
  set (m1 := if decide (1 < length (co_stack_ s)) then set_state (running_co_ s) CO_READY else mret tt) in E.
  assert (keeps m1) as Hm1.
  { unfold m1. destruct (decide _); [|apply keeps_ret]. apply keeps_set_state. left. by destruct Hrun; [|lia]. }
  assert (∀ t t' x, m1 t = (Ok x, t') → co_stack_ t' = co_stack_ t ∧ stack_top_ t' = stack_top_ t) as Hf1.
  { intros t t' y. unfold m1, set_state. destruct (decide _); [|intros [= _ <-]; done].
    destruct (coroutines t !! _); [|done]. by intros [= _ <-]. }
  unfold mbind at 1, M_bind at 1 in E. destruct (m1 s) as [[u| | |] s1] eqn:E1; try done.
  destruct (Hf1 _ _ _ E1) as [Est Etop]. pose proof (Hm1 _ _ _ Hs E1) as Hs1.
  unfold mbind at 1, M_bind at 1 in E. destruct (set_state c CO_RUNNING s1) as [[u2| | |] s2] eqn:E2; try done.
  pose proof (keeps_set_state c CO_RUNNING (or_intror eq_refl) _ _ _ Hs1 E2) as Hs2.
  assert (co_stack_ s2 = co_stack_ s ∧ stack_top_ s2 = stack_top_ s) as [Est2 Etop2].
  { unfold set_state in E2. destruct (coroutines s1 !! c); [|done]. injection E2 as _ <-. done. }
  unfold set_stack, mbind, M_bind in E. eapply keeps_on_memory; [|exact E].
  rewrite <- Est2, <- Etop2. by apply sched_ok_push.
Qed.

Lemma keeps_Yield : keeps Yield.
Proof.
  intros s a s' Hs E. unfold Yield in E. rewrite bind_get in E. cbn beta in E.
  destruct (decide _) as [|Hlen]; [done|].
  destruct (stack_split s Hs ltac:(lia)) as (l & p & El & Hr & E1 & E2 & E3).
  unfold stack_at in E. rewrite E1, E2, E3, !bind_ret in E.
  unfold set_stack in E. unfold mbind at 1, M_bind at 1 in E.
  revert E. apply keeps_bind.
  - apply keeps_set_state. by left.
  - intros _. apply keeps_bind; [|intros _; apply keeps_on_memory]. apply keeps_set_state. by right.
  - by apply sched_ok_pop.
Qed.

Lemma keeps_CoMainFunc_end s a s' :
  sched_ok s → running_co_ s ≠ main → CoMainFunc_end (running_co_ s) s = (Ok a, s') → sched_ok s'.
Proof.
  intros Hs Hne E. unfold CoMainFunc_end in E. unfold mbind at 1, M_bind at 1 in E.
  destruct (set_state (running_co_ s) CO_TERMINAL s) as [[u| | |] s1] eqn:E1; try done.
  pose proof (keeps_set_state (running_co_ s) CO_TERMINAL (or_introl Hne) _ _ _ Hs E1) as Hs1.
  rewrite bind_get in E. cbn beta in E.
  assert (2 ≤ length (co_stack_ s1)) as Hlen.
  { assert (running_co_ s1 = running_co_ s) as Er.
    { unfold set_state in E1. destruct (coroutines s !! _); [|done]. by injection E1 as _ <-. }
    destruct (ok_stack _ Hs1) as (l & El & Hl). pose proof (ok_running _ Hs1) as Hrun.
    rewrite El in Hrun |- *. destruct l; [|cbn; lia]. cbn in Hrun. congruence. }
  destruct (stack_split s1 Hs1 Hlen) as (l & p & El & Hr & E2 & E3 & E4).
  unfold stack_at in E. rewrite E2, E3, E4, !bind_ret in E.
  unfold set_stack, mbind, M_bind in E. eapply keeps_on_memory; [|exact E]. by apply sched_ok_pop.
Qed.

Lemma keeps_step : keeps step.
Proof.
  intros s a s' Hs E. unfold step in E. rewrite bind_get in E. cbn beta in E.
  unfold get_co in E. unfold mbind at 1, M_bind at 1 in E.
  destruct (coroutines s !! running_co_ s) as [x|] eqn:Ex; [|done].
  destruct (func_ x) as [|i rest].
  - destruct (is_main_co_ x) eqn:Em; [by eapply (keeps_ret tt)|]. eapply keeps_CoMainFunc_end; [done| |exact E].
    intros Hr. destruct (ok_main _ Hs) as (y & Hy & _ & Hym). rewrite Hr in Ex. simplify_eq. congruence.
  - revert E. apply keeps_bind; [apply keeps_set_func| |done]. intros _. destruct i.
    + apply keeps_Resume.
    + apply keeps_Yield.
    + apply keeps_on_memory.
    + apply keeps_on_memory.
    + intros t b t' Ht. rewrite bind_get. unfold lift, mbind, M_bind.
      destruct (live_bytes _ _); try done. by apply keeps_emit.
Qed.

Lemma keeps_run n : keeps (run n).
Proof.
  induction n as [|n IH]; cbn [run]; [apply keeps_ret|]. apply keeps_bind; [apply keeps_step|done].
Qed.
End Invariant.

(** [C12] Invariant of the scheduler, for any code of the coroutines, nested
    resumes included, and any memory behind the stacks: as long as it runs
    without error, [stack_top_] is the size of [co_stack_], its top is
    [running_co_], and the main coroutine sits at the bottom, only there, and
    is marked running. *)
Theorem scheduler_invariant {Mem} `{SM : StackMemory Mem} main n (s s' : Schedule Mem) :
  sched_ok main s → run n s = (Ok tt, s') → sched_ok main s'.
Proof. intros Hs E. by eapply keeps_run. Qed.

Definition no_stacks : Stacks := mkStacks ∅ ∅.

(** A main coroutine and coroutines 1 and 2, with stacks of their own. *)
Definition nested (main c1 c2 : list instr) : Schedule Stacks :=
  mkSchedule [0] 1 0
    {[ 0 := mkCoroutine main CO_RUNNING true; 1 := mkCoroutine c1 CO_READY false;
       2 := mkCoroutine c2 CO_READY false ]}
    (mkStacks {[ 1 := AllocStack 8; 2 := AllocStack 8 ]}
       {[ 0 := mkCoStack false None [] 0 None 0; 1 := mkCoStack false (Some 1) [] 0 None 0;
          2 := mkCoStack false (Some 2) [] 0 None 0 ]}) [].

Lemma nested_ok main c1 c2 : sched_ok 0 (nested main c1 c2).
Proof.
  split; cbn.
  - exists []. split; [done|]. by intros ?%elem_of_nil.
  - done.
  - done.
  - by eexists.
  - intros c x Hc Hl. repeat (apply lookup_insert_Some in Hl as [[<- <-]|[_ Hl]]; [done|]).
    by apply lookup_singleton_Some in Hl as [<- <-].
Qed.

Lemma scheduler_invariant_witness :
  sched_ok 0 (run 3 (nested [IResume 1] [IResume 2; IYield] [IYield])).2.
Proof.
  apply (scheduler_invariant 0 3 (nested [IResume 1] [IResume 2; IYield] [IYield])).
  - apply nested_ok.
  - vm_compute. reflexivity.
Defined.

(** A coroutine that resumes another one which then runs to its end goes on
    without being marked running again: [Yield] restores the mark, the end of a
    coroutine does not.  Its next [Resume] of a ready coroutine fails the
    assertion of [Resume]. *)
Theorem nested_end_blocks_resume {Mem} `{SM : StackMemory Mem} main (s : Schedule Mem) l p x r d y rest m :
  sched_ok main s → co_stack_ s = l ++ [p; running_co_ s] →
  coroutines s !! running_co_ s = Some x → func_ x = [] → running_co_ s ≠ p →
  coroutines s !! p = Some r → co_state_ r = CO_READY → func_ r = IResume d :: rest →
  d ≠ p → d ≠ running_co_ s → coroutines s !! d = Some y → co_state_ y = CO_READY →
  swap_stacks (running_co_ s) p (memory s) = Ok m →
  ∃ s1, run 1 s = (Ok tt, s1) ∧ running_co_ s1 = p ∧ coroutines s1 !! p = Some r ∧
    (run 2 s).1 = Undef "assertion failed".
Proof.
  intros Hs El Hx Hfx Hne Hr Hrs Hrf Hdp Hdr Hy Hys Hsw.
  assert (running_co_ s ≠ main) as Hm.
  { destruct (ok_stack _ _ Hs) as (k & Ek & Hk). intros E. apply Hk. rewrite El in Ek.
    destruct l as [|z l]; injection Ek as _ Ek; rewrite <- Ek, E.
    - by left.
    - apply elem_of_app. right. right. by left. }
  assert (2 ≤ length (co_stack_ s)) as Hlen by (rewrite El, length_app; cbn; lia).
  destruct (stack_split main s Hs Hlen) as (l' & p' & El' & _ & E1 & E2 & E3).
  rewrite El in El'. apply app_inj_2 in El' as [<- [= <-]]; [|done].
  set (s1 := mkSchedule (l ++ [p]) (stack_top_ s - 1) p
    (<[running_co_ s := mkCoroutine (func_ x) CO_TERMINAL (is_main_co_ x)]> (coroutines s)) m (output s)).
  assert (coroutines s1 !! p = Some r) as Hp1 by (cbn; by rewrite lookup_insert_ne).
  assert (step s = (Ok tt, s1)) as Est.
  { unfold step. rewrite bind_get. cbn beta. unfold get_co. unfold mbind at 1, M_bind at 1.
    rewrite Hx, Hfx, (ok_others _ _ Hs _ _ Hm Hx). unfold CoMainFunc_end.
    unfold set_state, mbind at 1, M_bind at 1. rewrite Hx, bind_get. cbn beta.
    unfold stack_at. cbn [co_stack_ stack_top_]. rewrite E1, E2, E3, !bind_ret.
    unfold set_stack, mbind, M_bind, on_memory. cbn [memory]. by rewrite Hsw. }
  exists s1. split; [cbn [run]; by rewrite (bind_ok _ _ _ _ _ Est)|]. split; [done|]. split; [done|].
  cbn [run]. rewrite (bind_ok _ _ _ _ _ Est).
  rewrite (bind_undef _ _ _ "assertion failed" (snd (step s1))); [done|].
  assert ((step s1).1 = Undef "assertion failed") as E; [|by destruct (step s1); cbn in E; subst].
  unfold step. rewrite bind_get. cbn beta. change (running_co_ s1) with p.
  rewrite (bind_ok _ _ _ _ _ (get_co_ok p r s1 Hp1)), Hrf.
  rewrite (bind_ok _ _ _ _ _ (set_func_ok p r rest s1 Hp1)). set (s2 := mkSchedule _ _ _ _ _ _).
  assert (coroutines s2 !! d = Some y) as Hd2 by (cbn; by rewrite !lookup_insert_ne).
  assert (coroutines s2 !! p = Some (mkCoroutine rest (co_state_ r) (is_main_co_ r))) as Hp2
    by (cbn; apply lookup_insert_eq).
  unfold Resume. rewrite (bind_ok _ _ _ _ _ (get_co_ok d y s2 Hd2)).
  rewrite decide_False by (rewrite Hys; done). rewrite Hys, bool_decide_true by done.
  rewrite bind_assert, bind_get. cbn beta. change (running_co_ s2) with p.
  rewrite (bind_ok _ _ _ _ _ (get_co_ok p _ s2 Hp2)). cbn [co_state_]. by rewrite Hrs.
Qed.

Lemma nested_end_blocks_resume_witness :
  (run 2 (mkSchedule [0; 1; 2] 3 2
    {[ 0 := mkCoroutine [] CO_RUNNING true; 1 := mkCoroutine [IResume 3] CO_READY false;
       2 := mkCoroutine [] CO_RUNNING false; 3 := mkCoroutine [] CO_READY false ]}
    (memory (nested [] [] [])) [])).1 = Undef "assertion failed".
Proof.
  edestruct (nested_end_blocks_resume 0 (mkSchedule [0; 1; 2] 3 2
    {[ 0 := mkCoroutine [] CO_RUNNING true; 1 := mkCoroutine [IResume 3] CO_READY false;
       2 := mkCoroutine [] CO_RUNNING false; 3 := mkCoroutine [] CO_READY false ]}
    (memory (nested [] [] [])) [])) with (l := [0]) (p := 1) (d := 3) as (s1 & _ & _ & _ & E);
    [|reflexivity|reflexivity|reflexivity|done|reflexivity|reflexivity|reflexivity|done|done
     |reflexivity|reflexivity|vm_compute; reflexivity|exact E].
  split; cbn.
  - exists [1; 2]. split; [done|]. set_solver.
  - done.
  - done.
  - by eexists.
  - intros c x Hc Hl. repeat (apply lookup_insert_Some in Hl as [[<- <-]|[_ Hl]]; [done|]).
    by apply lookup_singleton_Some in Hl as [<- <-].
Defined.

(** ** Shared stacks refine private ones *)

(** The specification: each coroutine has a stack of its own, a list; switching
    does nothing to it. [None] is the main coroutine, whose stack is not
    managed. *)
Abbreviation Private := (gmap nat (option nat * list Z)).

Definition private_at {A} (c : nat) (a : Private) (f : option nat * list Z → outcome A) : outcome A :=
  match a !! c with Some e => f e | None => Undef "dangling coroutine" end.

#[global] Instance private_stacks : StackMemory Private := {
  swap_stacks prev next a := private_at prev a (λ _, private_at next a (λ _, Ok a));
  push_bytes c l a := private_at c a (λ e,
    match e.1 with
    | None => Ok a
    | Some sz => if decide (length e.2 + length l ≤ sz) then Ok (<[c := (Some sz, e.2 ++ l)]> a)
                 else Undef "stack overflow"
    end);
  pop_bytes c n a := private_at c a (λ e,
    match e.1 with
    | None => Ok a
    | Some sz => if decide (n ≤ length e.2) then Ok (<[c := (Some sz, take (length e.2 - n) e.2)]> a)
                 else Undef "stack underflow"
    end);
  live_bytes c a := private_at c a (λ e, Ok e.2) }.

(** Where the bytes of a coroutine are: in its stack, if that is its own or if
    it occupies it; in its saved copy otherwise. *)
Definition co_rel (run : option nat) (s : Stacks) (k : nat) (x : CoStack) (sz : option nat) (l : list Z) : Prop :=
  length l = sp_ x ∧
  match stack_mem_ x with
  | None => sz = None ∧ use_shared_stk_ x = false ∧ l = []
  | Some m => ∃ mem, mems s !! m = Some mem ∧ sz = Some (size_ mem) ∧
      length (stack_buffer_ mem) = size_ mem ∧ sp_ x ≤ size_ mem ∧
      if use_shared_stk_ x then
        if decide (occupy_co_ mem = Some k)
        then take (sp_ x) (stack_buffer_ mem) = l ∧ (Some k ≠ run → dummy_ x = Some (sp_ x))
        else Some k ≠ run ∧ saved_size_ x = sp_ x ∧ saved_stack_ x = l ∧
             (sp_ x ≠ 0 → dummy_ x = Some (sp_ x))
      else take (sp_ x) (stack_buffer_ mem) = l
  end.

Record stack_rel (run : option nat) (s : Stacks) (a : Private) : Prop := {
  sr_dom : ∀ k, is_Some (cos s !! k) ↔ is_Some (a !! k);
  sr_co : ∀ k x sz l, cos s !! k = Some x → a !! k = Some (sz, l) → co_rel run s k x sz l;
  sr_occ : ∀ m mem o, mems s !! m = Some mem → occupy_co_ mem = Some o →
    ∃ x, cos s !! o = Some x ∧ use_shared_stk_ x = true ∧ stack_mem_ x = Some m;
  sr_none : ∀ m mem k x, mems s !! m = Some mem → occupy_co_ mem = None → cos s !! k = Some x →
    stack_mem_ x = Some m → use_shared_stk_ x = true → sp_ x = 0;
  sr_excl : ∀ k k' x x' m, cos s !! k = Some x → cos s !! k' = Some x' →
    stack_mem_ x = Some m → stack_mem_ x' = Some m →
    k = k' ∨ (use_shared_stk_ x = true ∧ use_shared_stk_ x' = true) }.

(** The result of an operation on the two sides. *)
Definition same_outcome (run : option nat) (o : outcome Stacks) (p : outcome Private) : Prop :=
  match o, p with
  | Ok s, Ok a => stack_rel run s a
  | Undef w, Undef w' => w = w'
  | _, _ => False
  end.

Lemma stack_rel_lookup run s a k x :
  stack_rel run s a → cos s !! k = Some x → ∃ sz l, a !! k = Some (sz, l).
Proof.
  intros HR Hx. destruct (proj1 (sr_dom _ _ _ HR k)) as [[sz l] Ha]; [by eexists|]. by exists sz, l.
Qed.

Section StackRel.
Context (c : nat) (s : Stacks) (a : Private) (HR : stack_rel (Some c) s a).

(** The running coroutine works on the stack it occupies. *)
Lemma stack_rel_running x sz l m :
  cos s !! c = Some x → a !! c = Some (sz, l) → stack_mem_ x = Some m →
  ∃ mem, mems s !! m = Some mem ∧ sz = Some (size_ mem) ∧ length (stack_buffer_ mem) = size_ mem ∧
    length l = sp_ x ∧ sp_ x ≤ size_ mem ∧ take (sp_ x) (stack_buffer_ mem) = l ∧
    (use_shared_stk_ x = true → occupy_co_ mem = Some c).
Proof.
  intros Hx Ha Hm. destruct (sr_co _ _ _ HR _ _ _ _ Hx Ha) as [Hl H]. rewrite Hm in H.
  destruct H as (mem & Hmem & Hsz & Hlen & Hsp & H). exists mem.
  destruct (use_shared_stk_ x); [|by split_and!].
  destruct (decide (occupy_co_ mem = Some c)) as [Ho|Ho]; [|by destruct H].
  destruct H. by split_and!.
Qed.

(** A change of the running coroutine's own bytes. *)
Lemma stack_rel_update x sz l m mem buf sp' :
  cos s !! c = Some x → a !! c = Some (sz, l) → stack_mem_ x = Some m → mems s !! m = Some mem →
  length buf = size_ mem → sp' ≤ size_ mem →
  stack_rel (Some c)
    (set_co c (mkCoStack (use_shared_stk_ x) (stack_mem_ x) (saved_stack_ x) (saved_size_ x) (dummy_ x) sp')
       (set_mem m (mkStackMem (occupy_co_ mem) (size_ mem) buf) s))
    (<[c := (sz, take sp' buf)]> a).
Proof.
  intros Hx Ha Hm Hmem Hbuf Hsp.
  destruct (stack_rel_running x sz l m Hx Ha Hm) as (mem' & Hmem' & Hsz & _ & _ & _ & _ & Hocc).
  rewrite Hmem in Hmem'. injection Hmem' as <-. split; cbn.
  - intros k. rewrite !lookup_insert_is_Some. pose proof (sr_dom _ _ _ HR k). tauto.
  - intros k y sz' l' Hy Hl'. destruct (decide (k = c)) as [->|Hne].
    + rewrite lookup_insert_eq in Hy. rewrite lookup_insert_eq in Hl'. injection Hy as <-. injection Hl' as <- <-.
      split; [cbn; rewrite length_take; lia|]. cbn. rewrite Hm. eexists. split; [apply lookup_insert_eq|].
      cbn. split; [done|]. split; [done|]. split; [done|].
      destruct (use_shared_stk_ x); [|done]. by rewrite decide_True by by apply Hocc.
    + rewrite lookup_insert_ne in Hy by done. rewrite lookup_insert_ne in Hl' by done.
      destruct (sr_co _ _ _ HR _ _ _ _ Hy Hl') as [Hl2 H]. split; [done|].
      destruct (stack_mem_ y) as [m'|] eqn:Em; [|done]. destruct H as (mem2 & Hmem2 & H). cbn.
      destruct (decide (m' = m)) as [->|Hnm].
      * rewrite Hmem in Hmem2. injection Hmem2 as <-. rewrite lookup_insert_eq. eexists. split; [done|].
        destruct H as (? & ? & ? & H). cbn. split_and!; try done.
        destruct (sr_excl _ _ _ HR _ _ _ _ _ Hy Hx Em Hm) as [?|[Hy1 Hx1]]; [done|].
        rewrite Hy1 in H |- *. rewrite (Hocc Hx1) in H |- *.
        rewrite decide_False in H by congruence. by rewrite decide_False by congruence.
      * rewrite lookup_insert_ne by done. by exists mem2.
  - intros m' mem2 o Hm2 Ho. destruct (decide (m' = m)) as [->|Hnm].
    + rewrite lookup_insert_eq in Hm2. injection Hm2 as <-.
      destruct (sr_occ _ _ _ HR _ _ _ Hmem Ho) as (y & Hy & Hy1 & Hy2).
      destruct (decide (o = c)) as [->|Hoc].
      * rewrite lookup_insert_eq. rewrite Hx in Hy. injection Hy as <-. by eexists.
      * rewrite lookup_insert_ne by done. by exists y.
    + rewrite lookup_insert_ne in Hm2 by done.
      destruct (sr_occ _ _ _ HR _ _ _ Hm2 Ho) as (y & Hy & Hy1 & Hy2).
      destruct (decide (o = c)) as [->|Hoc].
      * rewrite lookup_insert_eq. rewrite Hx in Hy. injection Hy as <-. by eexists.
      * rewrite lookup_insert_ne by done. by exists y.
  - intros m' mem2 k y Hm2 Ho Hy Hym Hys. destruct (decide (k = c)) as [->|Hne].
    + rewrite lookup_insert_eq in Hy. injection Hy as <-. cbn in Hym, Hys. rewrite Hm in Hym.
      injection Hym as <-. rewrite lookup_insert_eq in Hm2. injection Hm2 as <-. cbn in Ho.
      rewrite (Hocc Hys) in Ho. done.
    + rewrite lookup_insert_ne in Hy by done. destruct (decide (m' = m)) as [->|Hnm].
      * rewrite lookup_insert_eq in Hm2. injection Hm2 as <-. by eapply (sr_none _ _ _ HR).
      * rewrite lookup_insert_ne in Hm2 by done. by eapply (sr_none _ _ _ HR).
  - intros k k' y y' m' Hy Hy' Hym Hym'.
    apply lookup_insert_Some in Hy as [[<- <-]|[? Hy]]; apply lookup_insert_Some in Hy' as [[<- <-]|[? Hy']];
      cbn in *; [by left|..]; by eapply (sr_excl _ _ _ HR).
Qed.

Lemma stack_rel_dangling k : cos s !! k = None → a !! k = None.
Proof.
  intros Hx. destruct (a !! k) as [e|] eqn:E; [|done].
  destruct (proj2 (sr_dom _ _ _ HR k)) as [x Hx']; [by eexists|]. congruence.
Qed.

Lemma push_related l : same_outcome (Some c) (push_stack c l s) (push_bytes c l a).
Proof.
  unfold push_stack, lookup_co. cbn. unfold private_at.
  destruct (cos s !! c) as [x|] eqn:Hx; [|by rewrite (stack_rel_dangling _ Hx)].
  destruct (stack_rel_lookup _ _ _ _ _ HR Hx) as (sz & k & Ha). rewrite Ha. cbn.
  destruct (stack_mem_ x) as [m|] eqn:Hm.
  - destruct (stack_rel_running _ _ _ _ Hx Ha Hm) as (mem & Hmem & -> & Hlen & Hk & Hsp & Htake & Hocc).
    cbn. rewrite Hmem. cbn. rewrite Hk. destruct (decide _) as [Hle|]; [|done].
    set (buf := take (sp_ x) (stack_buffer_ mem) ++ l ++ drop (sp_ x + length l) (stack_buffer_ mem)).
    assert (k ++ l = take (sp_ x + length l) buf) as ->.
    { unfold buf. rewrite app_assoc, take_app_le, take_ge.
      - by rewrite Htake.
      - rewrite length_app, length_take. lia.
      - rewrite length_app, length_take. lia. }
    rewrite <- Hm. apply (stack_rel_update x (Some (size_ mem)) k); try done.
    unfold buf. rewrite !length_app, length_take, length_drop. lia.
  - destruct (sr_co _ _ _ HR _ _ _ _ Hx Ha) as [_ H]. rewrite Hm in H. destruct H as (-> & _ & _). done.
Qed.

Lemma pop_related n : same_outcome (Some c) (pop_stack c n s) (pop_bytes c n a).
Proof.
  unfold pop_stack, lookup_co. cbn. unfold private_at.
  destruct (cos s !! c) as [x|] eqn:Hx; [|by rewrite (stack_rel_dangling _ Hx)].
  destruct (stack_rel_lookup _ _ _ _ _ HR Hx) as (sz & k & Ha). rewrite Ha. cbn.
  destruct (stack_mem_ x) as [m|] eqn:Hm.
  - destruct (stack_rel_running _ _ _ _ Hx Ha Hm) as (mem & Hmem & -> & Hlen & Hk & Hsp & Htake & Hocc).
    cbn. rewrite Hk. destruct (decide _) as [Hle|]; [|done].
    replace (take (sp_ x - n) k) with (take (sp_ x - n) (stack_buffer_ mem))
      by (rewrite <- Htake, take_take; f_equal; lia).
    assert (s = set_mem m (mkStackMem (occupy_co_ mem) (size_ mem) (stack_buffer_ mem)) s) as Es.
    { destruct s as [ms cs]. unfold set_mem. cbn in *. rewrite insert_id; [done|]. by destruct mem. }
    rewrite Es at 1. rewrite <- Hm. apply (stack_rel_update x (Some (size_ mem)) k); try done. lia.
  - destruct (sr_co _ _ _ HR _ _ _ _ Hx Ha) as [_ H]. rewrite Hm in H. destruct H as (-> & _ & _). done.
Qed.

Lemma read_related : read_stack c s = live_bytes c a.
Proof.
  unfold read_stack, lookup_co. cbn. unfold private_at.
  destruct (cos s !! c) as [x|] eqn:Hx; [|by rewrite (stack_rel_dangling _ Hx)].
  destruct (stack_rel_lookup _ _ _ _ _ HR Hx) as (sz & k & Ha). rewrite Ha. cbn.
  destruct (stack_mem_ x) as [m|] eqn:Hm.
  - destruct (stack_rel_running _ _ _ _ Hx Ha Hm) as (mem & Hmem & -> & Hlen & Hk & Hsp & Htake & Hocc).
    cbn. rewrite Hmem. cbn. by rewrite Htake.
  - destruct (sr_co _ _ _ HR _ _ _ _ Hx Ha) as [_ H]. rewrite Hm in H. by destruct H as (-> & _ & ->).
Qed.
End StackRel.

(** *** Switching *)

(** A change of the bookkeeping of one coroutine. *)
Lemma stack_rel_set_co run0 run s a k x x' sz l :
  stack_rel run0 s a →
  (∀ k' y sz' l', k' ≠ k → co_rel run0 s k' y sz' l' → co_rel run s k' y sz' l') → cos s !! k = Some x → a !! k = Some (sz, l) →
  use_shared_stk_ x' = use_shared_stk_ x → stack_mem_ x' = stack_mem_ x → sp_ x' = sp_ x →
  co_rel run s k x' sz l → stack_rel run (set_co k x' s) a.
Proof.
  intros HR Hrun Hx Ha Hsh Hm Hsp Hrel. split; cbn.
  - intros k'. rewrite lookup_insert_is_Some, <- (sr_dom _ _ _ HR k').
    destruct (decide (k = k')) as [<-|]; [|tauto]. split; [|tauto]. intros _. by eexists.
  - intros k' y sz' l' Hy Hl'. destruct (decide (k' = k)) as [->|Hne].
    + rewrite lookup_insert_eq in Hy. injection Hy as <-. rewrite Ha in Hl'. by injection Hl' as <- <-.
    + rewrite lookup_insert_ne in Hy by done. apply (Hrun k' y sz' l' Hne).
      exact (sr_co _ _ _ HR _ _ _ _ Hy Hl').
  - intros m mem o Hmem Ho. destruct (sr_occ _ _ _ HR _ _ _ Hmem Ho) as (y & Hy & Hy1 & Hy2).
    destruct (decide (o = k)) as [->|].
    + rewrite lookup_insert_eq. rewrite Hx in Hy. injection Hy as <-. exists x'. split_and!; congruence.
    + rewrite lookup_insert_ne by done. by exists y.
  - intros m mem k' y Hmem Ho Hy Hym Hys. destruct (decide (k' = k)) as [->|].
    + rewrite lookup_insert_eq in Hy. injection Hy as <-. rewrite Hsp.
      eapply (sr_none _ _ _ HR); try done; congruence.
    + rewrite lookup_insert_ne in Hy by done. by eapply (sr_none _ _ _ HR).
  - intros k1 k2 y1 y2 m Hy1 Hy2 Hm1 Hm2.
    apply lookup_insert_Some in Hy1 as [[<- <-]|[? Hy1]]; apply lookup_insert_Some in Hy2 as [[<- <-]|[? Hy2]];
      [by left|..]; rewrite ?Hsh; rewrite ?Hm in *; by eapply (sr_excl _ _ _ HR).
Qed.

(** The saved copy of a coroutine is complete. *)
Definition saved_ok (x : CoStack) (l : list Z) : Prop :=
  saved_size_ x = sp_ x ∧ saved_stack_ x = l ∧ (sp_ x ≠ 0 → dummy_ x = Some (sp_ x)).

(** Taking over a shared stack, everybody else on it being saved. *)
Lemma stack_rel_takeover s a n x sz l m mem buf :
  stack_rel None s a → cos s !! n = Some x → a !! n = Some (sz, l) →
  use_shared_stk_ x = true → stack_mem_ x = Some m → mems s !! m = Some mem →
  length buf = size_ mem → take (sp_ x) buf = l →
  (∀ k y sz' l', k ≠ n → cos s !! k = Some y → a !! k = Some (sz', l') → stack_mem_ y = Some m →
    saved_ok y l') →
  stack_rel (Some n) (set_mem m (mkStackMem (Some n) (size_ mem) buf) s) a.
Proof.
  intros HR Hx Ha Hsh Hm Hmem Hbuf Htake Hothers. split; cbn.
  - apply (sr_dom _ _ _ HR).
  - intros k y sz' l' Hy Hl'. destruct (sr_co _ _ _ HR _ _ _ _ Hy Hl') as [Hlen H]. split; [done|].
    destruct (stack_mem_ y) as [m'|] eqn:Em; [|done]. destruct H as (mem2 & Hmem2 & Hsz & Hb & Hsp & H).
    cbn. destruct (decide (m' = m)) as [->|Hnm].
    + rewrite Hmem in Hmem2. injection Hmem2 as <-. rewrite lookup_insert_eq. eexists. split; [done|].
      cbn. split_and!; try done. destruct (decide (k = n)) as [->|Hkn].
      * rewrite Hx in Hy. injection Hy as <-. rewrite Ha in Hl'. injection Hl' as <- <-.
        rewrite Hsh. rewrite decide_True by done. split; [done|]. by intros [].
      * destruct (sr_excl _ _ _ HR _ _ _ _ _ Hy Hx Em Hm) as [?|[Hy1 _]]; [done|].
        rewrite Hy1. rewrite decide_False by congruence. split; [congruence|]. by eapply Hothers.
    + rewrite lookup_insert_ne by done. exists mem2. split_and!; try done.
      destruct (use_shared_stk_ y); [|done].
      assert (k ≠ n) as Hkn by (intros ->; congruence).
      destruct (decide _); [destruct H as [H1 H2]|destruct H as (_ & H)]; (split; [try done; congruence|]).
      * intros _. by apply H2.
      * done.
  - intros m' mem2 o Hm2 Ho. apply lookup_insert_Some in Hm2 as [[<- <-]|[_ Hm2]].
    + injection Ho as <-. by exists x.
    + by eapply (sr_occ _ _ _ HR).
  - intros m' mem2 k y Hm2 Ho Hy Hym Hys. apply lookup_insert_Some in Hm2 as [[<- <-]|[_ Hm2]]; [done|].
    by eapply (sr_none _ _ _ HR).
  - apply (sr_excl _ _ _ HR).
Qed.

(** On its own stack a coroutine may run at once. *)
Lemma stack_rel_enter s a n x :
  stack_rel None s a → cos s !! n = Some x →
  (use_shared_stk_ x = true → ∃ m mem, stack_mem_ x = Some m ∧ mems s !! m = Some mem ∧
    occupy_co_ mem = Some n) →
  stack_rel (Some n) s a.
Proof.
  intros HR Hx Hocc. destruct HR as [H1 H2 H3 H4 H5]. split; try done.
  intros k y sz l Hy Hl. destruct (H2 _ _ _ _ Hy Hl) as [Hlen H]. split; [done|].
  destruct (stack_mem_ y) as [m|] eqn:Em; [|done]. destruct H as (mem & Hmem & Hsz & Hb & Hsp & H).
  exists mem. split_and!; try done. destruct (use_shared_stk_ y) eqn:Ey; [|done].
  destruct (decide (occupy_co_ mem = Some k)).
  - destruct H as [? Hd]. split; [done|]. intros _. by apply Hd.
  - destruct H as (_ & H). split; [|done]. intros [= ->]. rewrite Hx in Hy. injection Hy as ->.
    destruct (Hocc Ey) as (m' & mem' & Hm' & Hmem' & Ho). congruence.
Qed.

(** Leaving: the address of a local is recorded. *)
Lemma stack_rel_leave c s a x :
  stack_rel (Some c) s a → cos s !! c = Some x →
  stack_rel None (set_co c (mkCoStack (use_shared_stk_ x) (stack_mem_ x) (saved_stack_ x)
                              (saved_size_ x) (Some (sp_ x)) (sp_ x)) s) a.
Proof.
  intros HR Hx. destruct (stack_rel_lookup _ _ _ _ _ HR Hx) as (sz & l & Ha).
  set (x' := mkCoStack _ _ _ _ _ _).
  assert (co_rel None s c x' sz l) as Hrel.
  { destruct (sr_co _ _ _ HR _ _ _ _ Hx Ha) as [Hl H]. split; [done|]. cbn.
    destruct (stack_mem_ x) as [m|]; [|done]. destruct H as (mem & Hmem & ? & ? & ? & H).
    exists mem. split_and!; try done. destruct (use_shared_stk_ x); [|done].
    destruct (decide _); [|by destruct H]. destruct H. by split. }
  apply (stack_rel_set_co (Some c) None s a c x x' sz l); try done.
  intros k y sz' l' Hne [Hl H]. split; [done|]. destruct (stack_mem_ y) as [m|]; [|done].
  destruct H as (mem & Hmem & ? & ? & ? & H). exists mem. split_and!; try done.
  destruct (use_shared_stk_ y); [|done]. destruct (decide _).
  - destruct H as [? Hd]. split; [done|]. intros _. apply Hd. congruence.
  - destruct H as [_ H]. by split.
Qed.

(** The occupant is saved by [SaveStack]. *)
Definition saved (y : CoStack) (d : nat) (buf : list Z) : CoStack :=
  mkCoStack (use_shared_stk_ y) (stack_mem_ y) (take d buf) d (dummy_ y) (sp_ y).

Lemma SaveStack_ok s o y m mem d :
  cos s !! o = Some y → stack_mem_ y = Some m → mems s !! m = Some mem → dummy_ y = Some d →
  SaveStack o s = Ok (set_co o (saved y d (stack_buffer_ mem)) s).
Proof.
  intros Hy Hm Hmem Hd. unfold SaveStack, lookup_co. rewrite Hy. cbn. rewrite Hm. cbn.
  rewrite Hmem. cbn. rewrite Hd. unfold saved. by rewrite Hm, Hd.
Qed.

Lemma saved_related s a o y m mem sz l :
  stack_rel None s a → cos s !! o = Some y → a !! o = Some (sz, l) → use_shared_stk_ y = true →
  stack_mem_ y = Some m → mems s !! m = Some mem → occupy_co_ mem = Some o →
  dummy_ y = Some (sp_ y) ∧ saved_ok (saved y (sp_ y) (stack_buffer_ mem)) l ∧
  stack_rel None (set_co o (saved y (sp_ y) (stack_buffer_ mem)) s) a.
Proof.
  intros HR Hy Ha Hsh Hm Hmem Ho. destruct (sr_co _ _ _ HR _ _ _ _ Hy Ha) as [Hlen H].
  rewrite Hm, Hsh in H. destruct H as (mem' & Hmem' & Hsz & Hb & Hsp & H). rewrite Hmem in Hmem'.
  injection Hmem' as <-. rewrite decide_True in H by done. destruct H as [Htake Hd].
  specialize (Hd ltac:(done)). split; [done|]. split; [by split|].
  apply (stack_rel_set_co None None s a o y _ sz l); try done.
  split; [done|]. unfold saved. cbn. rewrite Hm, Hsh. exists mem. split_and!; try done.
  rewrite decide_True by done. by split.
Qed.

(** Restoring the saved copy of a coroutine that lost the stack. *)
Lemma ResumeStack_related s n x l m mem o :
  cos s !! n = Some x → stack_mem_ x = Some m →
  mems s !! m = Some (mkStackMem o (size_ mem) (stack_buffer_ mem)) →
  length (stack_buffer_ mem) = size_ mem → sp_ x ≤ size_ mem → length l = sp_ x → saved_ok x l →
  ∃ buf, ResumeStack n s = Ok (set_mem m (mkStackMem o (size_ mem) buf) s) ∧
    length buf = size_ mem ∧ take (sp_ x) buf = l.
Proof.
  intros Hx Hm Hmem Hb Hsp Hl (H1 & H2 & H3). unfold ResumeStack, lookup_co. rewrite Hx. cbn.
  rewrite H1. destruct (decide (sp_ x = 0)) as [E|E].
  - exists (stack_buffer_ mem). rewrite E, take_0. destruct l; [|rewrite E in Hl; done]. split; [|done].
    f_equal. destruct s as [ms cs]. unfold set_mem. cbn in *. by rewrite insert_id.
  - rewrite Hm. cbn. rewrite Hmem. cbn. rewrite (H3 E). rewrite decide_True by lia.
    rewrite Nat.sub_diag, take_0, H2. cbn [app]. eexists. split; [done|].
    rewrite (take_ge l) by lia. rewrite length_app, length_drop. split; [lia|].
    rewrite take_app_le by lia. apply take_ge. lia.
Qed.

Lemma others_saved s a k z sz l m mem :
  stack_rel None s a → cos s !! k = Some z → a !! k = Some (sz, l) → stack_mem_ z = Some m →
  mems s !! m = Some mem → occupy_co_ mem ≠ Some k → use_shared_stk_ z = true → saved_ok z l.
Proof.
  intros HR Hz Ha Hm Hmem Ho Hsh. destruct (sr_co _ _ _ HR _ _ _ _ Hz Ha) as [_ H].
  rewrite Hm, Hsh in H. destruct H as (mem' & Hmem' & _ & _ & _ & H). rewrite Hmem in Hmem'.
  injection Hmem' as <-. rewrite decide_False in H by done. by destruct H as [_ ?].
Qed.

(** Who shares a stack with the coroutine to run has its bytes saved. *)
Lemma neighbour_saved s a n x k z sz l m mem :
  stack_rel None s a → cos s !! n = Some x → stack_mem_ x = Some m → k ≠ n → cos s !! k = Some z →
  a !! k = Some (sz, l) → stack_mem_ z = Some m → mems s !! m = Some mem → occupy_co_ mem ≠ Some k → saved_ok z l.
Proof.
  intros HL Hx Hm Hkn Hz Hl Hzm Hmem Ho. apply (others_saved s a k z sz l m mem HL); try done.
  by destruct (sr_excl _ _ _ HL _ _ _ _ _ Hz Hx Hzm Hm) as [?|[? _]].
Qed.

(** The coroutine on the shared stack is saved, and the next one restored. *)
Lemma evict_related s a n x o y m mem sz l prev :
  stack_rel None s a → cos s !! n = Some x → a !! n = Some (sz, l) → use_shared_stk_ x = true →
  stack_mem_ x = Some m → mems s !! m = Some mem → occupy_co_ mem = Some o → o ≠ n →
  length l = sp_ x → length (stack_buffer_ mem) = size_ mem → sp_ x ≤ size_ mem → saved_ok x l →
  prev ≠ Some m → cos s !! o = Some y → use_shared_stk_ y = true → stack_mem_ y = Some m →
  same_outcome (Some n)
    (s ← SaveStack o (set_mem m (mkStackMem (Some n) (size_ mem) (stack_buffer_ mem)) s);
     if decide (prev = Some m ∧ saved_size_ x ≠ 0) then Undef "the running stack is overwritten"
     else ResumeStack n s) (Ok a).
Proof.
  intros HL Hx Ha Hsh Hm Hmem Ho Hon Hlen Hb Hsp Hsn Hprev Hy Hysh Hym.
  destruct (stack_rel_lookup _ _ _ _ _ HL Hy) as (szo & lo & Hao).
  destruct (saved_related s a o y m mem szo lo HL Hy Hao Hysh Hym Hmem Ho) as (Hyd & Hsaved & HL2).
  rewrite (SaveStack_ok _ o y m (mkStackMem (Some n) (size_ mem) (stack_buffer_ mem)) (sp_ y))
    by (done || cbn; by rewrite lookup_insert_eq).
  cbn [mbind outcome_bind stack_buffer_]. rewrite decide_False by (intros [? _]; congruence).
  set (s2 := set_co o (saved y (sp_ y) (stack_buffer_ mem)) s) in *.
  change (set_co o _ (set_mem m ?z s)) with (set_mem m z s2).
  assert (cos s2 !! n = Some x) as Hx2 by (cbn; rewrite lookup_insert_ne by done; exact Hx).
  destruct (ResumeStack_related (set_mem m (mkStackMem (Some n) (size_ mem) (stack_buffer_ mem)) s2)
    n x l m mem (Some n)) as (buf & -> & Hbuf & Htake); try done.
  { cbn. apply lookup_insert_eq. }
  assert (∀ z z', set_mem m z (set_mem m z' s2) = set_mem m z s2) as ->.
  { intros z z'. unfold set_mem. cbn. by rewrite insert_insert_eq. }
  apply (stack_rel_takeover s2 a n x sz l m mem buf); try done.
  intros k z sz' l' Hkn Hz Hl' Hzm. destruct (decide (k = o)) as [->|Hko].
  - cbn in Hz. rewrite lookup_insert_eq in Hz. injection Hz as <-. rewrite Hao in Hl'. by injection Hl' as <- <-.
  - cbn in Hz. rewrite lookup_insert_ne in Hz by done. apply (neighbour_saved s a n x k z sz' l' m mem); try done. congruence.
Qed.

(** A switch in which one side does not run on a managed stack. *)
Lemma swap_related c n s a p x :
  stack_rel (Some c) s a → c ≠ n → cos s !! c = Some p → cos s !! n = Some x →
  (stack_mem_ p = None ∨ stack_mem_ x = None) →
  same_outcome (Some n) (SwapContext c n s) (swap_stacks c n a).
Proof.
  intros HR Hne Hp Hx Hflat. destruct (stack_rel_lookup _ _ _ _ _ HR Hp) as (szp & lp & Hap).
  destruct (stack_rel_lookup _ _ _ _ _ HR Hx) as (sz & l & Ha).
  cbn [swap_stacks private_stacks]. unfold private_at. rewrite Hap, Ha.
  unfold SwapContext, lookup_co. rewrite Hp. cbn [mbind outcome_bind].
  pose proof (stack_rel_leave c s a p HR Hp) as HL. set (p' := mkCoStack _ _ _ _ _ _) in *.
  set (s1 := set_co c p' s) in *.
  assert (cos s1 !! n = Some x) as Hx1 by (cbn; by rewrite lookup_insert_ne). rewrite Hx1.
  cbn [mbind outcome_bind]. destruct (use_shared_stk_ x) eqn:Hsh.
  2: { apply (stack_rel_enter s1 a n x HL Hx1). congruence. }
  destruct (sr_co _ _ _ HL _ _ _ _ Hx1 Ha) as [Hlen H].
  destruct (stack_mem_ x) as [m|] eqn:Hm; [|destruct H as (_ & ? & _); congruence].
  destruct Hflat as [Hpm|]; [|done]. rewrite Hsh in H. destruct H as (mem & Hmem & Hsz & Hb & Hsp & H).
  cbn [lookup_mem]. rewrite Hmem. cbn [mbind outcome_bind].
  destruct (occupy_co_ mem) as [o|] eqn:Ho.
  - destruct (decide (o ≠ n)) as [Hon|Hon].
    + destruct (sr_occ _ _ _ HL _ _ _ Hmem Ho) as (y & Hy & Hysh & Hym).
      rewrite decide_False in H by congruence. destruct H as [_ Hsn].
      apply (evict_related s1 a n x o y m mem sz l); try done. congruence.
    + apply dec_stable in Hon as ->. rewrite decide_True in H by done. destruct H as [Htake _].
      apply (stack_rel_takeover s1 a n x sz l m mem (stack_buffer_ mem)); try done.
      intros k z sz' l' Hkn Hz Hl' Hzm. apply (neighbour_saved s1 a n x k z sz' l' m mem); try done. congruence.
  - pose proof (sr_none _ _ _ HL _ _ _ _ Hmem Ho Hx1 Hm Hsh) as Hsp0.
    apply (stack_rel_takeover s1 a n x sz l m mem (stack_buffer_ mem)); try done.
    + rewrite Hsp0 in Hlen |- *. rewrite take_0. by destruct l.
    + intros k z sz' l' Hkn Hz Hl' Hzm. apply (neighbour_saved s1 a n x k z sz' l' m mem); try done. congruence.
Qed.

(** *** The machine in lockstep *)

Definition no_resume (code : list instr) : Prop :=
  Forall (λ i, match i with IResume _ => False | _ => True end) code.

(** The two machines agree on everything but the memory, whose two versions are
    related while [r] runs. *)
Definition sim_at (r : nat) (s : Schedule Stacks) (a : Schedule Private) : Prop :=
  co_stack_ a = co_stack_ s ∧ stack_top_ a = stack_top_ s ∧ running_co_ a = running_co_ s ∧
  coroutines a = coroutines s ∧ output a = output s ∧ stack_rel (Some r) (memory s) (memory a).

(** Only the main coroutine resumes others, and it alone has no managed stack of
    its own. *)
Record flat_code (main : nat) (s : Schedule Stacks) (ma : Private) : Prop := {
  fc_code : ∀ c x, c ≠ main → coroutines s !! c = Some x → no_resume (func_ x);
  fc_dom : ∀ c, is_Some (coroutines s !! c) → is_Some (ma !! c);
  fc_main : ∃ l, ma !! main = Some (None, l) }.

Record flat (main : nat) (s : Schedule Stacks) (a : Schedule Private) : Prop := {
  fl_sched : sched_ok main s;
  fl_depth : length (co_stack_ s) ≤ 2;
  fl_code : flat_code main s (memory a);
  fl_sim : sim_at (running_co_ s) s a }.

(** The same result and output on both sides, in states related by [P]. *)
Definition agree (P : Schedule Stacks → Schedule Private → Prop)
    (x : outcome unit * Schedule Stacks) (y : outcome unit * Schedule Private) : Prop :=
  match x, y with
  | (Ok _, s), (Ok _, a) => P s a
  | (o, s), (o', a) => o = o' ∧ output s = output a
  end.

Definition with_memory {Mem Mem'} (s : Schedule Mem) (m : Mem') : Schedule Mem' :=
  mkSchedule (co_stack_ s) (stack_top_ s) (running_co_ s) (coroutines s) m (output s).

Lemma sim_at_eq r s a : sim_at r s a → a = with_memory s (memory a).
Proof. intros (H1 & H2 & H3 & H4 & H5 & _). destruct a; cbn in *; subst. done. Qed.

Lemma sim_at_with_memory r (s : Schedule Stacks) m (m' : Private) : stack_rel (Some r) m m' → sim_at r (with_memory s m) (with_memory s m').
Proof. by intros. Qed.

Lemma on_memory_agree (P : Schedule Stacks → Schedule Private → Prop) r f g s ma :
  same_outcome (Some r) (f (memory s)) (g ma) →
  (∀ m m', f (memory s) = Ok m → g ma = Ok m' → stack_rel (Some r) m m' →
    P (with_memory s m) (with_memory s m')) →
  agree P (on_memory f s) (on_memory g (with_memory s ma)).
Proof.
  intros Ho HP. unfold on_memory. cbn [memory with_memory].
  destruct (f (memory s)) as [m|e|w|] eqn:Ef; destruct (g ma) as [m'|e'|w'|] eqn:Eg; cbn in Ho; try done.
  - by apply HP.
  - by subst.
Qed.

Lemma no_stack_related r s a k x l :
  stack_rel r s a → cos s !! k = Some x → a !! k = Some (None, l) → stack_mem_ x = None.
Proof.
  intros HR Hx Ha. destruct (sr_co _ _ _ HR _ _ _ _ Hx Ha) as [_ H].
  destruct (stack_mem_ x); [|done]. by destruct H as (mem & _ & ? & _).
Qed.

(** Switching between the main coroutine and another. *)
Lemma switch_agree main c n s ma :
  stack_rel (Some c) (memory s) ma → c ≠ n → (c = main ∨ n = main) →
  is_Some (coroutines s !! c) → is_Some (coroutines s !! n) →
  sched_ok main s → length (co_stack_ s) ≤ 2 → running_co_ s = n → flat_code main s ma →
  agree (flat main) (on_memory (swap_stacks c n) s) (on_memory (swap_stacks c n) (with_memory s ma)).
Proof.
  intros HR Hne Hmain Hc Hn Hs Hd Hrun Hf. destruct (fc_main _ _ _ Hf) as [l Hl].
  apply (fc_dom _ _ _ Hf) in Hc, Hn.
  pose proof (proj2 (sr_dom _ _ _ HR c) Hc) as [xc Hxc].
  pose proof (proj2 (sr_dom _ _ _ HR n) Hn) as [xn Hxn].
  apply (on_memory_agree _ n).
  - apply (swap_related c n (memory s) ma xc xn); try done.
    destruct Hmain as [-> | ->]; [left|right]; by eapply no_stack_related.
  - intros m m' _ Eg Hrel. cbn in Eg. unfold private_at in Eg.
    destruct Hc as [ec Hec], Hn as [en Hen]. rewrite Hec, Hen in Eg. injection Eg as <-.
    split; try done.
    + by destruct Hs.
    + by destruct Hf.
    + cbn. rewrite Hrun. by apply sim_at_with_memory.
Qed.

Lemma stack_shape main (s : Schedule Stacks) :
  sched_ok main s → length (co_stack_ s) ≤ 2 →
  (co_stack_ s = [main] ∧ running_co_ s = main ∧ stack_top_ s = 1) ∨
  (co_stack_ s = [main; running_co_ s] ∧ running_co_ s ≠ main ∧ stack_top_ s = 2).
Proof.
  intros [(l & El & Hl) Htop Hrun _ _] Hd. rewrite El in *. destruct l as [|c [|]]; cbn in *; [left|right|lia].
  - by injection Hrun as <-.
  - injection Hrun as <-. split; [done|]. split; [|done]. intros ->. apply Hl. by left.
Qed.

(** Commands that do not look at the memory. *)
Definition indep {A} (m : M (Schedule Stacks) A) (m' : M (Schedule Private) A) : Prop :=
  ∀ s ma, m' (with_memory s ma) = ((m s).1, with_memory (m s).2 ma) ∧ memory (m s).2 = memory s.

Lemma agree_indep_bind {A} P (m : M (Schedule Stacks) A) m' f f' s ma :
  indep m m' →
  (∀ x s1, m s = (Ok x, s1) → memory s1 = memory s → agree P (f x s1) (f' x (with_memory s1 ma))) →
  agree P ((m ≫= f) s) ((m' ≫= f') (with_memory s ma)).
Proof.
  intros Hi Hk. destruct (Hi s ma) as [E Em]. unfold mbind, M_bind. rewrite E.
  destruct (m s) as [[x| | |] s1]; cbn; try done. by apply Hk.
Qed.

Lemma indep_get_co c : indep (get_co c) (get_co c).
Proof. intros s ma. unfold get_co. cbn. by destruct (coroutines s !! c). Qed.
Lemma indep_set_state c st : indep (set_state c st) (set_state c st).
Proof. intros s ma. unfold set_state. cbn. by destruct (coroutines s !! c). Qed.
Lemma indep_set_func c f : indep (set_func c f) (set_func c f).
Proof. intros s ma. unfold set_func. cbn. by destruct (coroutines s !! c). Qed.
Lemma indep_set_stack l t r : indep (set_stack l t r) (set_stack l t r).
Proof. done. Qed.
Lemma indep_assert b : indep (SYLAR_ASSERT b) (SYLAR_ASSERT b).
Proof. by destruct b. Qed.

Lemma get_co_inv {Mem} c x (s s1 : Schedule Mem) :
  get_co c s = (Ok x, s1) → s1 = s ∧ coroutines s !! c = Some x.
Proof. unfold get_co. destruct (coroutines s !! c); [|done]. by intros [= <- <-]. Qed.

Lemma set_state_inv {Mem} c st (s s1 : Schedule Mem) u :
  set_state c st s = (Ok u, s1) → ∃ x, coroutines s !! c = Some x ∧
    s1 = mkSchedule (co_stack_ s) (stack_top_ s) (running_co_ s)
           (<[c := mkCoroutine (func_ x) st (is_main_co_ x)]> (coroutines s)) (memory s) (output s).
Proof.
  unfold set_state. destruct (coroutines s !! c) as [x|]; [|done]. intros [= _ <-]. by exists x.
Qed.

Lemma flat_code_update main (s s' : Schedule Stacks) ma c x y :
  flat_code main s ma → coroutines s !! c = Some x → (c = main ∨ no_resume (func_ y)) →
  coroutines s' = <[c := y]> (coroutines s) → flat_code main s' ma.
Proof.
  intros [H1 H2 H3] Hx Hy Es. split; [..|done].
  - intros d z Hd. rewrite Es. intros [[<- <-]|[_ Hl]]%lookup_insert_Some; [by destruct Hy|by eapply H1].
  - intros d. rewrite Es. intros [z Hl]. apply H2.
    apply lookup_insert_Some in Hl as [[<- _]|[_ Hl]]; by eexists.
Qed.

Lemma flat_code_state main (s s' : Schedule Stacks) ma c st u :
  flat_code main s ma → set_state c st s = (Ok u, s') → flat_code main s' ma.
Proof.
  intros Hf E. apply set_state_inv in E as (x & Hx & ->).
  eapply (flat_code_update main s _ ma c x); [done|done| |reflexivity].
  destruct (decide (c = main)); [by left|right]. cbn. by eapply (fc_code _ _ _ Hf).
Qed.

Lemma flat_intro main s ma :
  sched_ok main s → length (co_stack_ s) ≤ 2 → flat_code main s ma →
  stack_rel (Some (running_co_ s)) (memory s) ma → flat main s (with_memory s ma).
Proof. intros ? ? ? ?. by split. Qed.

Lemma co_stack_set_state {Mem} c st (s s1 : Schedule Mem) u :
  set_state c st s = (Ok u, s1) →
  co_stack_ s1 = co_stack_ s ∧ stack_top_ s1 = stack_top_ s ∧ running_co_ s1 = running_co_ s ∧
  memory s1 = memory s ∧ (∀ d, is_Some (coroutines s1 !! d) ↔ is_Some (coroutines s !! d)).
Proof.
  intros (x & Hx & ->)%set_state_inv. split_and!; try done. intros d. cbn.
  rewrite lookup_insert_is_Some. destruct (decide (c = d)) as [->|]; [|naive_solver]. rewrite Hx. naive_solver.
Qed.

(** [Resume], called by the main coroutine. *)
Lemma Resume_agree main c s ma :
  flat main s (with_memory s ma) → running_co_ s = main →
  agree (flat main) (Resume c s) (Resume c (with_memory s ma)).
Proof.
  intros [Hs Hd Hf (_ & _ & _ & _ & _ & HR)] Hr. cbn [memory with_memory] in Hf, HR.
  destruct (stack_shape main s Hs Hd) as [(El & _ & Et)|(_ & ? & _)]; [|done].
  unfold Resume. apply agree_indep_bind; [apply indep_get_co|].
  intros x ? [-> Hx]%get_co_inv _. destruct (decide (co_state_ x = CO_TERMINAL)).
  { by apply flat_intro. }
  apply agree_indep_bind; [apply indep_assert|]. intros ? s1 E1 _.
  destruct (bool_decide_reflect (co_state_ x = CO_READY)) as [Hxs|]; [|done]. injection E1 as _ <-.
  assert (c ≠ main) as Hc.
  { intros ->. destruct (ok_main _ _ Hs) as (y & Hy & Hys & _). rewrite Hx in Hy. injection Hy as ->. congruence. }
  rewrite !bind_get. cbn beta. apply agree_indep_bind; [apply indep_get_co|].
  intros r ? [-> Hr0]%get_co_inv _.
  apply agree_indep_bind; [apply indep_assert|]. intros ? s1 E1 _.
  destruct (bool_decide _); [|done]. injection E1 as _ <-.
  cbn [co_stack_ running_co_ stack_top_ with_memory]. rewrite El. cbn [length].
  rewrite !decide_False by lia. rewrite !bind_ret.
  apply agree_indep_bind; [apply indep_set_state|]. intros u s1 E1 Em.
  pose proof (flat_code_state _ _ _ _ _ _ _ Hf E1) as Hf1.
  pose proof (keeps_set_state main c CO_RUNNING (or_intror eq_refl) _ _ _ Hs E1) as Hs1.
  destruct (co_stack_set_state _ _ _ _ _ E1) as (El1 & Et1 & _ & _ & Hdom).
  apply agree_indep_bind; [apply indep_set_stack|]. intros ? s2 [= _ <-] _.
  rewrite Hr. apply switch_agree; cbn; try done.
  - by rewrite Em, <- Hr.
  - by left.
  - apply Hdom. rewrite <- Hr. by eexists.
  - apply Hdom. by eexists.
  - pose proof (sched_ok_push main s1 c Hs1 Hc) as Hp. by rewrite El1, Et1, El in Hp.
  - by destruct Hf1.
Qed.

(** The top of the stack gives way. *)
Lemma stack_at_top {Mem} (s : Schedule Mem) main :
  co_stack_ s = [main; running_co_ s] → stack_top_ s = 2 →
  stack_at s (stack_top_ s - 1) = mret (running_co_ s) ∧ stack_at s (stack_top_ s - 2) = mret main ∧
  removelast (co_stack_ s) = [main].
Proof. intros El Et. unfold stack_at. by rewrite El, Et. Qed.

Lemma pop_agree main r s ma :
  sched_ok main s → flat_code main s ma → co_stack_ s = [main; r] → running_co_ s = r →
  stack_rel (Some r) (memory s) ma → is_Some (coroutines s !! r) →
  agree (flat main)
    (on_memory (swap_stacks r main) (mkSchedule [main] (stack_top_ s - 1) main (coroutines s) (memory s) (output s)))
    (on_memory (swap_stacks r main) (with_memory
       (mkSchedule [main] (stack_top_ s - 1) main (coroutines s) (memory s) (output s)) ma)).
Proof.
  intros Hs Hf El Hr HR Hc. apply switch_agree; try done.
  - intros ->. destruct (ok_stack _ _ Hs) as (l & El' & Hl). rewrite El in El'. injection El' as <-.
    apply Hl. by left.
  - by right.
  - cbn. destruct (ok_main _ _ Hs) as (y & Hy & _). by eexists.
  - rewrite <- Hr in El. exact (sched_ok_pop main s [] main Hs El).
  - cbn. lia.
  - by destruct Hf.
Qed.

Lemma Yield_agree main s ma :
  flat main s (with_memory s ma) → agree (flat main) (Yield s) (Yield (with_memory s ma)).
Proof.
  intros [Hs Hd Hf (_ & _ & _ & _ & _ & HR)]. cbn [memory with_memory] in Hf, HR.
  unfold Yield. rewrite !bind_get. cbn beta. cbn [co_stack_ with_memory].
  destruct (stack_shape main s Hs Hd) as [(El & _ & Et)|(El & Hne & Et)].
  - rewrite El. cbn [length]. by rewrite !decide_True by lia.
  - assert (length (co_stack_ s) = 2) as -> by by rewrite El. rewrite !decide_False by lia.
    destruct (stack_at_top s main El Et) as (E1 & E2 & E3).
    destruct (stack_at_top (with_memory s ma) main El Et) as (E1' & E2' & _).
    rewrite E1, E2, E1', E2', E3, !bind_ret. cbn [running_co_ stack_top_ with_memory].
    set (s0 := mkSchedule [main] (stack_top_ s - 1) main (coroutines s) (memory s) (output s)).
    assert (sched_ok main s0) as Hs0 by exact (sched_ok_pop main s [] main Hs El).
    assert (flat_code main s0 ma) as Hf0 by by destruct Hf.
    apply agree_indep_bind; [apply indep_set_stack|]. intros ? s2 [= _ <-] _. fold s0.
    apply agree_indep_bind; [apply indep_set_state|]. intros u1 s1 E Em1.
    pose proof (flat_code_state _ _ _ _ _ _ _ Hf0 E) as Hf1.
    pose proof (keeps_set_state main _ CO_READY (or_introl Hne) _ _ _ Hs0 E) as Hs1.
    destruct (co_stack_set_state _ _ _ _ _ E) as (El1 & Et1 & Er1 & _ & Hdom1).
    apply agree_indep_bind; [apply indep_set_state|]. intros u2 s2 E' Em2.
    pose proof (flat_code_state _ _ _ _ _ _ _ Hf1 E') as Hf2.
    pose proof (keeps_set_state main _ CO_RUNNING (or_intror eq_refl) _ _ _ Hs1 E') as Hs2.
    destruct (co_stack_set_state _ _ _ _ _ E') as (El2 & Et2 & Er2 & _ & Hdom2).
    apply switch_agree; try done.
    + by rewrite Em2, Em1.
    + by right.
    + apply Hdom2, Hdom1. apply set_state_inv in E as (y & Hy & _). by eexists.
    + apply Hdom2, Hdom1. destruct (ok_main _ _ Hs0) as (y & Hy & _). by eexists.
    + rewrite El2, El1. cbn. lia.
    + by rewrite Er2, Er1.
Qed.

Lemma CoMainFunc_end_agree main s ma :
  flat main s (with_memory s ma) → running_co_ s ≠ main →
  agree (flat main) (CoMainFunc_end (running_co_ s) s) (CoMainFunc_end (running_co_ s) (with_memory s ma)).
Proof.
  intros [Hs Hd Hf (_ & _ & _ & _ & _ & HR)] Hne. cbn [memory with_memory] in Hf, HR.
  destruct (stack_shape main s Hs Hd) as [(_ & ? & _)|(El & _ & Et)]; [done|].
  unfold CoMainFunc_end. apply agree_indep_bind; [apply indep_set_state|]. intros u s1 E Em.
  pose proof (flat_code_state _ _ _ _ _ _ _ Hf E) as Hf1.
  pose proof (keeps_set_state main _ CO_TERMINAL (or_introl Hne) _ _ _ Hs E) as Hs1.
  destruct (co_stack_set_state _ _ _ _ _ E) as (El1 & Et1 & Er1 & _ & Hdom).
  rewrite <- El1, <- Er1 in El. rewrite <- Et1 in Et.
  destruct (stack_at_top s1 main El Et) as (E1 & E2 & E3).
  destruct (stack_at_top (with_memory s1 ma) main El Et) as (E1' & E2' & _).
  rewrite !bind_get. cbn beta. rewrite E1, E2, E1', E2', !bind_ret.
  cbn [running_co_ stack_top_ co_stack_ with_memory]. rewrite E3.
  apply agree_indep_bind; [apply indep_set_stack|]. intros ? s2 [= _ <-] _.
  apply pop_agree; try done.
  - by rewrite Em, Er1.
  - apply Hdom. rewrite Er1. apply set_state_inv in E as (y & Hy & _). by eexists.
Qed.

(** An instruction that works on the stack of the running coroutine. *)
Lemma work_agree main s ma f (g : Private → outcome Private) :
  flat main s (with_memory s ma) →
  same_outcome (Some (running_co_ s)) (f (memory s)) (g ma) →
  (∀ m', g ma = Ok m' → (∀ k, is_Some (ma !! k) → is_Some (m' !! k)) ∧
     (∀ k l, ma !! k = Some (None, l) → m' !! k = Some (None, l))) →
  agree (flat main) (on_memory f s) (on_memory g (with_memory s ma)).
Proof.
  intros [Hs Hd [H1 H2 [l H3]] _] Ho Hg. cbn [memory with_memory] in *.
  apply (on_memory_agree _ (running_co_ s)); [done|]. intros m m' _ Eg HR.
  destruct (Hg _ Eg) as [Hg1 Hg2]. apply (flat_intro main (with_memory s m)); try done.
  - by destruct Hs.
  - split; [done| |exists l; by apply Hg2]. intros c Hc. by apply Hg1, H2.
Qed.

Lemma private_update (c : nat) (ma : Private) sz l l' :
  ma !! c = Some (Some sz, l) →
  (∀ k, is_Some (ma !! k) → is_Some ((<[c := (Some sz, l')]> ma : Private) !! k)) ∧
  (∀ k m, ma !! k = Some (None, m) → (<[c := (Some sz, l')]> ma : Private) !! k = Some (None, m)).
Proof.
  intros Hc. split.
  - intros k Hk. rewrite lookup_insert_is_Some'. by right.
  - intros k m Hk. rewrite lookup_insert_ne; [done|]. intros ->. congruence.
Qed.

Lemma step_agree main s ma :
  flat main s (with_memory s ma) → agree (flat main) (step s) (step (with_memory s ma)).
Proof.
  intros HF. pose proof HF as [Hs Hd Hf (_ & _ & _ & _ & _ & HR)]. cbn [memory with_memory] in Hf, HR.
  unfold step. rewrite !bind_get. cbn beta. cbn [running_co_ with_memory].
  apply agree_indep_bind; [apply indep_get_co|]. intros x ? [-> Hx]%get_co_inv _.
  assert (running_co_ s = main ↔ is_main_co_ x = true) as Hmain.
  { split.
    - intros E. destruct (ok_main _ _ Hs) as (y & Hy & _ & Hm). rewrite E, Hy in Hx. by injection Hx as <-.
    - intros E. destruct (decide (running_co_ s = main)) as [|Hne]; [done|].
      rewrite (ok_others _ _ Hs _ _ Hne Hx) in E. done. }
  destruct (func_ x) as [|i rest] eqn:Ex.
  { destruct (is_main_co_ x); [by apply flat_intro|]. apply CoMainFunc_end_agree; [done|].
    by intros ?%Hmain. }
  apply agree_indep_bind; [apply indep_set_func|]. intros u s1 E Em.
  pose proof (keeps_set_func main _ _ _ _ _ Hs E) as Hs1.
  rewrite (set_func_ok _ x rest s Hx) in E. injection E as _ Es.
  assert (running_co_ s = main ∨ no_resume (i :: rest)) as Hi.
  { destruct (decide (running_co_ s = main)); [by left|right]. rewrite <- Ex. by eapply (fc_code _ _ _ Hf). }
  assert (flat main s1 (with_memory s1 ma)) as HF1.
  { apply flat_intro; [done|by rewrite <- Es| |by rewrite Em, <- Es].
    eapply (flat_code_update main s s1 ma (running_co_ s) x (mkCoroutine rest (co_state_ x) (is_main_co_ x)));
      [done|done| |by rewrite <- Es].
    destruct Hi as [|Hi]; [by left|right]. by apply Forall_cons in Hi as [_ ?]. }
  assert (running_co_ s1 = running_co_ s) as Er by by rewrite <- Es.
  destruct (fc_dom _ _ _ Hf (running_co_ s)) as [e He]; [by eexists|].
  clear Es. rewrite <- Er, <- Em in HR. rewrite <- Er in He. destruct i.
  - apply Resume_agree; [done|]. destruct Hi as [|Hi]; [by rewrite Er|]. by apply Forall_cons in Hi as [[] _].
  - by apply Yield_agree.
  - rewrite <- Er. apply work_agree; [done|by apply push_related|]. intros m'. cbn. unfold private_at. rewrite He.
    destruct e as [[sz|] k]; cbn; [|by intros [= <-]]. destruct (decide _); [|done]. intros [= <-].
    by apply private_update with k.
  - rewrite <- Er. apply work_agree; [done|by apply pop_related|]. intros m'. cbn. unfold private_at. rewrite He.
    destruct e as [[sz|] k]; cbn; [|by intros [= <-]]. destruct (decide _); [|done]. intros [= <-].
    by apply private_update with k.
  - rewrite <- Er, !bind_get. cbn beta. cbn [memory with_memory].
    assert (live_bytes (running_co_ s1) (memory s1) = live_bytes (running_co_ s1) ma) as ->
      by (by apply read_related).
    destruct (live_bytes (running_co_ s1) ma) as [l| | |]; cbn; try done.
    destruct HF1 as [H1 H2 H3 H4]. split; try done.
    + by destruct H1.
    + by destruct H3.
Qed.

Lemma run_agree main n s a : flat main s a → agree (flat main) (run n s) (run n a).
Proof.
  revert s a. induction n as [|n IH]; cbn [run]; intros s a HF; [done|].
  rewrite (sim_at_eq _ _ _ (fl_sim _ _ _ HF)) in HF |- *.
  pose proof (step_agree main s (memory a) HF) as Hstep. unfold mbind, M_bind.
  destruct (step s) as [[u| | |] s1], (step (with_memory s (memory a))) as [[u'| | |] a1];
    cbn in Hstep; try (by destruct Hstep). by apply IH.
Qed.

(** *** Before the first switch *)

(** A thread whose coroutines have been created and not run: stacks unused and
    unoccupied, a private stack to each coroutine that does not share. *)
Record fresh (main : nat) (s : Schedule Stacks) (a : Schedule Private) : Prop := {
  fr_main : ∃ code, coroutines s !! main = Some (mkCoroutine code CO_RUNNING true);
  fr_others : ∀ c x, c ≠ main → coroutines s !! c = Some x → is_main_co_ x = false ∧ no_resume (func_ x);
  fr_dom : ∀ c, is_Some (coroutines s !! c) ↔ is_Some (cos (memory s) !! c);
  fr_adom : ∀ c, is_Some (cos (memory s) !! c) ↔ is_Some (memory a !! c);
  fr_co : ∀ c x, c ≠ main → cos (memory s) !! c = Some x →
    ∃ sh m size, x = mkCoStack sh (Some m) [] 0 None 0 ∧
      mems (memory s) !! m = Some (AllocStack size) ∧ memory a !! c = Some (Some size, []);
  fr_maincos : cos (memory s) !! main = Some (mkCoStack false None [] 0 None 0);
  fr_amain : memory a !! main = Some (None, []);
  fr_free : ∀ m mem, mems (memory s) !! m = Some mem → occupy_co_ mem = None;
  fr_excl : ∀ k k' x x' m, cos (memory s) !! k = Some x → cos (memory s) !! k' = Some x' →
    stack_mem_ x = Some m → stack_mem_ x' = Some m →
    k = k' ∨ (use_shared_stk_ x = true ∧ use_shared_stk_ x' = true);
  fr_regs : s = mkSchedule [main] 1 main (coroutines s) (memory s) [] ∧ a = with_memory s (memory a) }.

Lemma fresh_stack_rel main s a : fresh main s a → stack_rel (Some main) (memory s) (memory a).
Proof.
  intros HF. split.
  - apply (fr_adom _ _ _ HF).
  - intros k x sz l Hx Ha. destruct (decide (k = main)) as [->|Hk].
    + rewrite (fr_maincos _ _ _ HF) in Hx. rewrite (fr_amain _ _ _ HF) in Ha.
      injection Hx as <-. injection Ha as <- <-. done.
    + destruct (fr_co _ _ _ HF _ _ Hk Hx) as (sh & m & size & -> & Hm & Ha').
      rewrite Ha' in Ha. injection Ha as <- <-. split; [done|]. cbn. eexists. split; [done|]. cbn.
      rewrite length_replicate. split_and!; [done|done|lia|]. destruct sh; [|by rewrite take_0].
      split; [congruence|]. done.
  - intros m mem o Hm Ho. rewrite (fr_free _ _ _ HF _ _ Hm) in Ho. done.
  - intros m mem k x Hm _ Hx Hxm Hsh. destruct (decide (k = main)) as [->|Hk].
    + rewrite (fr_maincos _ _ _ HF) in Hx. by injection Hx as <-.
    + by destruct (fr_co _ _ _ HF _ _ Hk Hx) as (sh & m' & size & -> & _).
  - apply (fr_excl _ _ _ HF).
Qed.

Lemma fresh_flat main s a : fresh main s a → flat main s a.
Proof.
  intros HF. destruct (fr_regs _ _ _ HF) as [Es Ea].
  destruct (fr_main _ _ _ HF) as (code & Hmain). rewrite Ea. apply flat_intro.
  - rewrite Es. split; cbn; [exists []; split; [done|by intros ?%elem_of_nil]|done|done|by eexists|].
    intros c x Hc Hx. by destruct (fr_others _ _ _ HF c x Hc Hx).
  - rewrite Es. cbn. lia.
  - split.
    + intros c x Hc Hx. by destruct (fr_others _ _ _ HF c x Hc Hx).
    + intros c Hc. by apply (fr_adom _ _ _ HF), (fr_dom _ _ _ HF).
    + eexists. apply (fr_amain _ _ _ HF).
  - assert (running_co_ s = main) as -> by by rewrite Es. by apply fresh_stack_rel.
Qed.

(** [InitThreadSchedule], then [CreateCoroutine] on either kind of stack. *)
Definition main_stack (main : nat) (ms : gmap nat StackMem) : Stacks :=
  mkStacks ms {[ main := mkCoStack false None [] 0 None 0 ]}.

Lemma fresh_init main code ms :
  (∀ m mem, ms !! m = Some mem → occupy_co_ mem = None) →
  fresh main (InitThreadSchedule main code (main_stack main ms))
             (InitThreadSchedule main code ({[ main := (None, []) ]} : Private)).
Proof.
  intros Hms. split; cbn.
  - eexists. apply lookup_singleton_eq.
  - intros c x Hc Hl. apply lookup_singleton_Some in Hl as [? _]. congruence.
  - intros c. rewrite !lookup_singleton_is_Some. done.
  - intros c. rewrite !lookup_singleton_is_Some. done.
  - intros c x Hc Hl. apply lookup_singleton_Some in Hl as [? _]. congruence.
  - apply lookup_singleton_eq.
  - apply lookup_singleton_eq.
  - done.
  - intros k k' x x' m Hk Hk' _ _. apply lookup_singleton_Some in Hk as [-> _], Hk' as [-> _]. by left.
  - done.
Qed.

Definition add_private (c : nat) (code : list instr) (size : nat) (a : Schedule Private) : Schedule Private :=
  mkSchedule (co_stack_ a) (stack_top_ a) (running_co_ a)
    (<[c := mkCoroutine code CO_READY false]> (coroutines a))
    (<[c := (Some size, [])]> (memory a)) (output a).

Lemma fresh_add main c code sh m size ms s a :
  fresh main s a → no_resume code → coroutines s !! c = None →
  mems (memory s) ⊆ ms → ms !! m = Some (AllocStack size) →
  (∀ k mem, ms !! k = Some mem → occupy_co_ mem = None) →
  (∀ k x, cos (memory s) !! k = Some x → stack_mem_ x = Some m → sh = true ∧ use_shared_stk_ x = true) →
  fresh main
    (mkSchedule (co_stack_ s) (stack_top_ s) (running_co_ s)
       (<[c := mkCoroutine code CO_READY false]> (coroutines s))
       (mkStacks ms (<[c := mkCoStack sh (Some m) [] 0 None 0]> (cos (memory s)))) (output s))
    (add_private c code size a).
Proof.
  intros HF Hcode Hc Hms Hm Hfree Hex. destruct (fr_regs _ _ _ HF) as [Es Ea].
  assert (c ≠ main) as Hcm.
  { intros ->. destruct (fr_main _ _ _ HF) as [? E]. congruence. }
  split; cbn.
  - rewrite lookup_insert_ne by done. apply (fr_main _ _ _ HF).
  - intros d x Hd [[<- <-]|[_ Hl]]%lookup_insert_Some; [done|]. by eapply (fr_others _ _ _ HF).
  - intros d. rewrite !lookup_insert_is_Some. pose proof (fr_dom _ _ _ HF d). tauto.
  - intros d. rewrite !lookup_insert_is_Some. pose proof (fr_adom _ _ _ HF d). tauto.
  - intros d x Hd [[<- <-]|[Hne Hl]]%lookup_insert_Some.
    + exists sh, m, size. rewrite lookup_insert_eq. done.
    + destruct (fr_co _ _ _ HF _ _ Hd Hl) as (sh' & m' & size' & -> & Hm' & Ha').
      exists sh', m', size'. rewrite lookup_insert_ne by done. split_and!; [done| |done].
      by eapply lookup_weaken.
  - rewrite lookup_insert_ne by done. apply (fr_maincos _ _ _ HF).
  - rewrite lookup_insert_ne by done. apply (fr_amain _ _ _ HF).
  - done.
  - intros k k' x x' m0 [[<- <-]|[? Hk]]%lookup_insert_Some [[<- <-]|[? Hk']]%lookup_insert_Some E E'; cbn in *.
    + by left.
    + injection E as <-. destruct (Hex _ _ Hk' E'). by right.
    + injection E' as <-. destruct (Hex _ _ Hk E). by right.
    + by eapply (fr_excl _ _ _ HF).
  - rewrite Ea. rewrite Es. by split.
Qed.

Lemma fresh_create_own main c code size m s a :
  fresh main s a → no_resume code → coroutines s !! c = None → mems (memory s) !! m = None →
  ∃ s', CreateCoroutine c size None m code s = Ok (None, s') ∧
    fresh main s' (add_private c code (Z.to_nat (round_stack size)) a).
Proof.
  intros HF Hcode Hc Hm. eexists. split; [done|].
  apply (fresh_add main c code false m _ (<[m := AllocStack _]> (mems (memory s)))); try done.
  - by apply insert_subseteq.
  - apply lookup_insert_eq.
  - intros k mem [[_ <-]|[_ Hk]]%lookup_insert_Some; [done|]. by eapply (fr_free _ _ _ HF).
  - intros k x Hx Hxm. destruct (decide (k = main)) as [->|Hk].
    + rewrite (fr_maincos _ _ _ HF) in Hx. by injection Hx as <-.
    + destruct (fr_co _ _ _ HF _ _ Hk Hx) as (sh & m' & ? & -> & Hm' & _). cbn in Hxm. congruence.
Qed.

Lemma fresh_create_shared main c code size mem pool m pool' msize s a :
  fresh main s a → no_resume code → coroutines s !! c = None →
  GetStackMem pool = Ok (m, pool') → mems (memory s) !! m = Some (AllocStack msize) →
  (∀ k x, cos (memory s) !! k = Some x → stack_mem_ x = Some m → use_shared_stk_ x = true) →
  ∃ s', CreateCoroutine c size (Some pool) mem code s = Ok (Some pool', s') ∧
    fresh main s' (add_private c code msize a).
Proof.
  intros HF Hcode Hc Hp Hm Hex. eexists. unfold CreateCoroutine. rewrite Hp. split; [done|].
  apply (fresh_add main c code true m _ (mems (memory s))); try done.
  - apply (fr_free _ _ _ HF).
  - intros k x Hk Hx. split; [done|by eapply Hex].
Qed.

(** [C4] Shared stacks refine private ones.  For coroutines that are created on
    stacks of their own or of a pool, in any mixture, and that only the main
    coroutine resumes: however many of them share one stack, and whatever the
    order in which they are resumed, use their stacks, yield and end, the run
    has the same result and every coroutine reads the same bytes as if each
    had a stack to itself.  Copying the occupant out and the next one in loses
    and mixes nothing. *)
Theorem shared_stacks_isolate main n s a :
  fresh main s a →
  (run n s).1 = (run n a).1 ∧ output (run n s).2 = output (run n a).2.
Proof.
  intros HF%fresh_flat. apply (run_agree main n) in HF. unfold agree in HF.
  destruct (run n s) as [[[]| | |] s'], (run n a) as [[[]| | |] a']; cbn in *; try (by destruct HF).
  by destruct (fl_sim _ _ _ HF) as (_ & _ & _ & _ & ? & _).
Qed.

(** Two coroutines on the one stack of a pool, each resumed twice. *)
Definition sharing_code : list instr := [IResume 1; IResume 2; IResume 1; IResume 2].
Definition sharing_co (b : Z) : list instr := [IPush [b; b]; IYield; IRead; IPop 1; IRead; IYield].
Definition sharing : outcome (Schedule Stacks) :=
  '(p, s) ← CreateCoroutine 1 0 (Some (mkSharedMem 1 8 [7] 0)) 0 (sharing_co 1)
     (InitThreadSchedule 0 sharing_code (main_stack 0 {[ 7 := AllocStack 8 ]}));
  '(_, s) ← CreateCoroutine 2 0 p 0 (sharing_co 2) s; Ok s.

Lemma sharing_fresh : ∃ s, sharing = Ok s ∧
  fresh 0 s (add_private 2 (sharing_co 2) 8 (add_private 1 (sharing_co 1) 8
    (InitThreadSchedule 0 sharing_code ({[ 0 := (None, []) ]} : Private)))).
Proof.
  assert (∀ m mem, ({[ 7 := AllocStack 8 ]} : gmap nat StackMem) !! m = Some mem → occupy_co_ mem = None)
    as Hfree by by intros ? ? [_ <-]%lookup_singleton_Some.
  destruct (fresh_create_shared 0 1 (sharing_co 1) 0 0 (mkSharedMem 1 8 [7] 0) 7 (mkSharedMem 1 8 [7] 1) 8
    (InitThreadSchedule 0 sharing_code (main_stack 0 {[ 7 := AllocStack 8 ]})) _
    (fresh_init 0 _ _ Hfree))
    as (s1 & E1 & HF1); [by repeat constructor|by vm_compute|done|by vm_compute| |].
  { intros k x. cbn. by intros [_ <-]%lookup_singleton_Some. }
  destruct (fresh_create_shared 0 2 (sharing_co 2) 0 0 (mkSharedMem 1 8 [7] 1) 7 (mkSharedMem 1 8 [7] 2) 8 s1 _
    HF1) as (s2 & E2 & HF2); [by repeat constructor| |done| | |].
  1,2: injection E1 as <-; by vm_compute.
  { injection E1 as <-. intros k x. cbn.
    intros [[_ <-]|[_ [_ <-]%lookup_singleton_Some]]%lookup_insert_Some; cbn; by intros. }
  exists s2. split; [|done]. unfold sharing. rewrite E1. cbn [mbind outcome_bind]. by rewrite E2.
Qed.

Lemma shared_stacks_isolate_witness :
  ∃ s, sharing = Ok s ∧ (run 30 s).1 = Ok tt ∧
    output (run 30 s).2 = [(1, [1; 1]%Z); (1, [1]%Z); (2, [2; 2]%Z); (2, [2]%Z)].
Proof.
  destruct sharing_fresh as (s & E & HF). exists s. split; [done|].
  destruct (shared_stacks_isolate 0 30 s _ HF) as [E1 E2].
  split; [rewrite E1|rewrite E2]; vm_compute; reflexivity.
Defined.

End ScheduleProps.
