(* ===== verification/CoLifetime.v ===== *)
(** * The lifetime of coroutines

    Who holds a [shared_ptr] to a coroutine of [Schedule.v]: the scheduler, the
    stacks of the pool, the users, and the calls that are suspended on a
    coroutine's own stack.  [Resume], [Yield] and [CoMainFunc] of
    [src/coroutine.cc] keep two in locals, their call of [SwapContext] two more in
    its parameters; they are dropped when the coroutine is switched to again. *)

From S2P Require Import Prelude Schedule.
Import Schedule.

Module CoLifetime.

(** [frames] has an entry for each coroutine that has ever run, with what the calls
    suspended on its stack hold; [handles] counts what the users hold. *)
Record Life := mkLife {
  sched : Schedule Stacks;
  frames : gmap nat (list nat);
  handles : gmap nat nat }.

(** ** Counting *)

Definition occurrences (c : nat) (l : list nat) : nat := length (filter (λ x, x = c) l).

(** [occupy_co_] of the stacks, and the suspended calls. *)
Definition occupants (st : Stacks) : list nat := omap (λ m, occupy_co_ m.2) (map_to_list (mems st)).
Definition suspended (fs : gmap nat (list nat)) : list nat := concat (snd <$> map_to_list fs).

(** The references the library holds: [co_stack_], [running_co_] and these. *)
Definition library_refs (l : Life) : list nat :=
  co_stack_ (sched l) ++ [running_co_ (sched l)] ++ suspended (frames l) ++ occupants (memory (sched l)).

Definition handles_of (l : Life) (c : nat) : nat := default 0 (handles l !! c).

(** [use_count()]. *)
Definition use_count (l : Life) (c : nat) : nat := occurrences c (library_refs l) + handles_of l c.

(** A coroutine is released with the last reference to it.  The [Deletor] frees the
    object without destroying its members: its stack is not released with it. *)
Definition release_unheld (l : Life) : Life :=
  let s := sched l in
  mkLife (mkSchedule (co_stack_ s) (stack_top_ s) (running_co_ s)
            (filter (λ x, use_count l x.1 ≠ 0) (coroutines s)) (memory s) (output s))
    (frames l) (handles l).

(** ** What happens *)

(** After an instruction: if it switched, the coroutine it left holds itself and the
    one it switched to, twice each, and the calls of the latter have returned. *)
Definition frames_after (s s' : Schedule Stacks) (fs : gmap nat (list nat)) : gmap nat (list nat) :=
  if decide (length (co_stack_ s') = length (co_stack_ s)) then fs
  else
    let prev := running_co_ s in let next := running_co_ s' in
    <[prev := [prev; next; prev; next]]> (<[next := []]> fs).

(** An instruction of the running coroutine; a user creates a coroutine, numbered
    [c] with [mem] for its stack, copies a pointer or drops one. *)
Inductive life_op :=
| LStep
| LCreate (c : nat) (stack_size : Z) (shared : option SharedMem) (mem : nat) (code : list instr)
| LCopy (c : nat)
| LDrop (c : nat).

Definition life_step (op : life_op) (l : Life) : outcome Life :=
  match op with
  | LStep =>
      match step (sched l) with
      | (Ok _, s') => Ok (release_unheld (mkLife s' (frames_after (sched l) s' (frames l)) (handles l)))
      | (Throw e, _) => Throw e
      | (Undef w, _) => Undef w
      | (NoFuel, _) => NoFuel
      end
  | LCreate c stack_size shared mem code =>
      if decide (coroutines (sched l) !! c = None ∧ use_count l c = 0 ∧ frames l !! c = None ∧
                 mems (memory (sched l)) !! mem = None)
      then
        '(_, s') ← CreateCoroutine c stack_size shared mem code (sched l);
        Ok (mkLife s' (frames l) (<[c := 1]> (handles l)))
      else Undef "number in use"
  | LCopy c =>
      if decide (use_count l c = 0) then Undef "no pointer to copy"
      else Ok (mkLife (sched l) (frames l) (<[c := S (handles_of l c)]> (handles l)))
  | LDrop c =>
      match handles_of l c with
      | O => Undef "no pointer to drop"
      | S n => Ok (release_unheld (mkLife (sched l) (frames l) (<[c := n]> (handles l))))
      end
  end.

Fixpoint life_run (ops : list life_op) (l : Life) : outcome Life :=
  match ops with [] => Ok l | op :: ops => l ← life_step op l; life_run ops l end.

(** After [InitThreadSchedule]: the main coroutine runs, and has no stack. *)
Definition life_start (main : nat) (code : list instr) : Life :=
  mkLife (InitThreadSchedule main code (mkStacks ∅ {[ main := mkCoStack false None [] 0 None 0 ]}))
    {[ main := [] ]} ∅.

End CoLifetime.
