(* ===== verification/CoLifetimeProps.v ===== *)
(** * What becomes of coroutines

    The references the library itself holds keep every coroutine that has run
    once, for ever; one that has not run is released with its last pointer, but
    no stack is released at all. *)

From S2P Require Import Prelude Schedule ScheduleProps CoLifetime.
Import Schedule ScheduleProps CoLifetime.

Module CoLifetimeProps.

(** ** Counting *)

Lemma occurrences_pos c l : occurrences c l ≠ 0 ↔ c ∈ l.
Proof.
  unfold occurrences. split.
  - intros H. destruct (filter _ l) as [|x k] eqn:E; [done|].
    assert (x ∈ filter (λ x, x = c) l) as Hx by (rewrite E; left). by apply list_elem_of_filter in Hx as [-> ?].
  - intros Hc H. apply nil_length_inv in H.
    assert (c ∈ filter (λ x, x = c) l) as Hx by by apply list_elem_of_filter. rewrite H in Hx. by apply elem_of_nil in Hx.
Qed.

Lemma elem_of_suspended c fs : c ∈ suspended fs ↔ ∃ k fr, fs !! k = Some fr ∧ c ∈ fr.
Proof.
  unfold suspended. rewrite list_elem_of_In, in_concat. split.
  - intros (fr & Hfr & Hc). apply list_elem_of_In, list_elem_of_fmap in Hfr as ([k fr'] & -> & Hk).
    exists k, fr'. split; [by apply elem_of_map_to_list|by apply list_elem_of_In].
  - intros (k & fr & Hk & Hc). exists fr. split; [|by apply list_elem_of_In].
    apply list_elem_of_In, list_elem_of_fmap. exists (k, fr). split; [done|]. by apply elem_of_map_to_list.
Qed.

Lemma elem_of_occupants c st : c ∈ occupants st ↔ ∃ m mem, mems st !! m = Some mem ∧ occupy_co_ mem = Some c.
Proof.
  unfold occupants. rewrite list_elem_of_omap. split.
  - intros ([m mem] & Hm & Hc). exists m, mem. split; [by apply elem_of_map_to_list|done].
  - intros (m & mem & Hm & Hc). exists (m, mem). split; [by apply elem_of_map_to_list|done].
Qed.

(** ** Stack memory *)

(** Operations that add no stack and no occupant but [n]. *)
Definition only_occupant (n : option nat) (st st' : Stacks) : Prop :=
  dom (mems st') = dom (mems st) ∧ ∀ o, o ∈ occupants st' → n = Some o ∨ o ∈ occupants st.

Lemma only_refl n st : only_occupant n st st.
Proof. split; [done|]. by right. Qed.
Lemma only_trans n st1 st2 st3 : only_occupant n st1 st2 → only_occupant n st2 st3 → only_occupant n st1 st3.
Proof. intros [H1 H2] [H3 H4]. split; [congruence|]. intros o Ho. destruct (H4 o Ho); [by left|by apply H2]. Qed.
Lemma only_set_co n st c x : only_occupant n st (set_co c x st).
Proof. split; [done|]. by right. Qed.
Lemma only_set_mem n st m mem mem' : mems st !! m = Some mem → (occupy_co_ mem' = n ∨ occupy_co_ mem' = occupy_co_ mem) →
  only_occupant n st (set_mem m mem' st).
Proof.
  intros Hm Ho. split; [cbn; rewrite dom_insert_L; apply elem_of_dom_2 in Hm; set_solver|].
  intros o. rewrite !elem_of_occupants. intros (k & y & Hk & Hy). cbn in Hk.
  apply lookup_insert_Some in Hk as [[<- <-]|[_ Hk]]; [|right; by exists k, y].
  destruct Ho as [Ho|Ho]; [left; congruence|]. right. exists m, mem. split; [done|congruence].
Qed.

Lemma lookup_mem_inv o st m mem : lookup_mem o st = Ok (m, mem) → mems st !! m = Some mem.
Proof. unfold lookup_mem. destruct o as [k|]; [|done]. destruct (mems st !! k) eqn:E; [|done]. by intros [= <- <-]. Qed.

Lemma only_SaveStack n c st st' : SaveStack c st = Ok st' → only_occupant n st st'.
Proof.
  unfold SaveStack. intros (x & _ & ([m mem] & _ & H)%outcome_inv)%outcome_inv.
  destruct (dummy_ x); [|done]. injection H as <-. apply only_set_co.
Qed.
Lemma only_ResumeStack n c st st' : ResumeStack c st = Ok st' → only_occupant n st st'.
Proof.
  unfold ResumeStack. intros (x & _ & H)%outcome_inv. destruct (decide _); [injection H as <-; apply only_refl|].
  apply outcome_inv in H as ([m mem] & Hm & H). destruct (dummy_ x); [|done]. destruct (decide _); [|done].
  injection H as <-. eapply only_set_mem; [by eapply lookup_mem_inv|]. by right.
Qed.
Lemma only_SwapContext p n st st' : SwapContext p n st = Ok st' → only_occupant (Some n) st st'.
Proof.
  unfold SwapContext. intros (x & _ & (y & _ & H)%outcome_inv)%outcome_inv. set (st1 := set_co p _ st) in *.
  assert (only_occupant (Some n) st st1) as H1 by apply only_set_co.
  destruct (use_shared_stk_ y); [|by injection H as <-]. apply outcome_inv in H as ([m mem] & Hm & H).
  set (st2 := set_mem m _ st1) in *.
  assert (only_occupant (Some n) st st2) as H2.
  { eapply only_trans; [exact H1|]. eapply only_set_mem; [by eapply lookup_mem_inv|]. by left. }
  destruct (occupy_co_ mem) as [o|]; [|by injection H as <-]. destruct (decide _); [|by injection H as <-].
  apply outcome_inv in H as (st3 & H3 & H). destruct (decide _); [done|].
  eapply only_trans; [exact H2|]. eapply only_trans; [by eapply only_SaveStack|by eapply only_ResumeStack].
Qed.
Lemma only_push n c l st st' : push_stack c l st = Ok st' → only_occupant n st st'.
Proof.
  unfold push_stack. intros (x & _ & H)%outcome_inv. destruct (stack_mem_ x); [|injection H as <-; apply only_refl].
  apply outcome_inv in H as ([m mem] & Hm & H). destruct (decide _); [|done]. injection H as <-.
  eapply only_trans; [|apply only_set_co]. eapply only_set_mem; [by eapply lookup_mem_inv|]. by right.
Qed.
Lemma only_pop n c k st st' : pop_stack c k st = Ok st' → only_occupant n st st'.
Proof.
  unfold pop_stack. intros (x & _ & H)%outcome_inv. destruct (stack_mem_ x); [|injection H as <-; apply only_refl].
  destruct (decide _); [|done]. injection H as <-. apply only_set_co.
Qed.

(** ** One instruction *)

(** Commands of the scheduler that leave the stack and the tables as they are. *)
Definition quiet (s s' : Schedule Stacks) : Prop :=
  co_stack_ s' = co_stack_ s ∧ running_co_ s' = running_co_ s ∧ stack_top_ s' = stack_top_ s ∧
  dom (coroutines s') = dom (coroutines s) ∧ memory s' = memory s.

Lemma quiet_refl s : quiet s s.
Proof. done. Qed.
Lemma quiet_trans s1 s2 s3 : quiet s1 s2 → quiet s2 s3 → quiet s1 s3.
Proof. intros (? & ? & ? & ? & ?) (? & ? & ? & ? & ?). repeat split; congruence. Qed.
Lemma quiet_set_state c x s u s' : set_state c x s = (Ok u, s') → quiet s s'.
Proof.
  unfold set_state. destruct (coroutines s !! c) as [y|] eqn:E; [|done]. injection 1 as _ <-. repeat split; cbn.
  apply elem_of_dom_2 in E. rewrite dom_insert_L. set_solver.
Qed.
Lemma quiet_set_func c f s u s' : set_func c f s = (Ok u, s') → quiet s s'.
Proof.
  unfold set_func. destruct (coroutines s !! c) as [y|] eqn:E; [|done]. injection 1 as _ <-. repeat split; cbn.
  apply elem_of_dom_2 in E. rewrite dom_insert_L. set_solver.
Qed.

Lemma on_memory_inv f (s : Schedule Stacks) u s' : on_memory f s = (Ok u, s') →
  ∃ m, f (memory s) = Ok m ∧ s' = mkSchedule (co_stack_ s) (stack_top_ s) (running_co_ s) (coroutines s) m (output s).
Proof. unfold on_memory. destruct (f (memory s)) as [m| | |]; [|done..]. injection 1 as _ <-. by exists m. Qed.

(** What an instruction does to the execution stack, and to who occupies a stack. *)
Definition effect (s s' : Schedule Stacks) : Prop :=
  dom (coroutines s') = dom (coroutines s) ∧ only_occupant (Some (running_co_ s')) (memory s) (memory s') ∧
  ((co_stack_ s' = co_stack_ s ∧ running_co_ s' = running_co_ s) ∨
   (co_stack_ s' = co_stack_ s ++ [running_co_ s'] ∧ running_co_ s' ∈ dom (coroutines s)) ∨
   co_stack_ s = co_stack_ s' ++ [running_co_ s]).

Lemma effect_quiet s1 s2 s3 : quiet s1 s2 → effect s2 s3 → effect s1 s3.
Proof. intros (H1 & H2 & _ & H3 & H4) (H5 & H6 & H7). unfold effect. by rewrite <- H1, <- H2, <- H3, <- H4. Qed.
Lemma quiet_effect s s' : quiet s s' → effect s s'.
Proof. intros (H1 & H2 & _ & H3 & H4). split; [done|]. split; [rewrite H4; apply only_refl|by left]. Qed.

Section Instructions.
Context (main : nat).

Lemma effect_Resume c s u s' : sched_ok main s → Resume c s = (Ok u, s') → effect s s'.
Proof.
  intros Hs. unfold Resume. intros (x & s0 & Hx & H)%bind_inv. unfold get_co in Hx.
  destruct (coroutines s !! c) as [x'|] eqn:Ec; [|done]. injection Hx as -> <-. apply elem_of_dom_2 in Ec.
  destruct (decide _); [injection H as _ <-; by apply quiet_effect|].
  apply bind_inv in H as (u0 & s0 & Ha & H). unfold SYLAR_ASSERT in Ha. destruct (bool_decide _); [|done].
  injection Ha as _ <-. rewrite bind_get in H. cbn beta zeta in H.
  apply bind_inv in H as (r & s0 & Hr & H). unfold get_co in Hr.
  destruct (coroutines s !! running_co_ s) as [r'|]; [|done]. injection Hr as -> <-.
  apply bind_inv in H as (u1 & s0 & Ha & H). destruct (bool_decide _); [|done]. injection Ha as _ <-.
  apply bind_inv in H as (u2 & s1 & H1 & H). apply bind_inv in H as (u3 & s2 & H2 & H).
  assert (quiet s s2) as Hq.
  { eapply quiet_trans; [|by eapply quiet_set_state]. destruct (decide _); [by eapply quiet_set_state|by injection H1 as _ <-]. }
  apply bind_inv in H as (u4 & s3 & H3 & H). injection H3 as _ <-.
  apply on_memory_inv in H as (m & Hm & ->). destruct Hq as (_ & _ & _ & Hd & Hmem).
  cbn in Hm. rewrite Hmem in Hm. split; [done|]. cbn. split; [by eapply only_SwapContext|]. right. by left.
Qed.

(** The end of [Yield] and of [CoMainFunc]. *)
Lemma effect_pop s l p s' : sched_ok main s → co_stack_ s = l ++ [p; running_co_ s] →
  quiet (mkSchedule (l ++ [p]) (stack_top_ s - 1) p (coroutines s) (memory s) (output s)) s' →
  ∀ u s'', on_memory (swap_stacks (running_co_ s) p) s' = (Ok u, s'') → effect s s''.
Proof.
  intros Hs El (H1 & H2 & _ & H3 & H4) u s'' (m & Hm & ->)%on_memory_inv. cbn in H1, H2, H3, H4.
  rewrite H4 in Hm. split; [done|]. cbn. rewrite H1, H2. split; [by eapply only_SwapContext|]. do 2 right.
  by rewrite El, <- app_assoc.
Qed.

Lemma effect_Yield s u s' : sched_ok main s → Yield s = (Ok u, s') → effect s s'.
Proof.
  intros Hs. unfold Yield. rewrite bind_get. cbn beta. destruct (decide _) as [|Hlen]; [done|].
  destruct (stack_split main s Hs ltac:(lia)) as (l & p & El & _ & E1 & E2 & E3).
  unfold stack_at. rewrite E1, E2, E3, !bind_ret. intros (u1 & s1 & H1 & H)%bind_inv. injection H1 as _ <-.
  apply bind_inv in H as (u2 & s2 & H2 & H). apply bind_inv in H as (u3 & s3 & H3 & H).
  eapply (effect_pop s l p s3 Hs El); [|exact H]. eapply quiet_trans; by eapply quiet_set_state.
Qed.

Lemma effect_end s u s' : sched_ok main s → running_co_ s ≠ main → CoMainFunc_end (running_co_ s) s = (Ok u, s') → effect s s'.
Proof.
  intros Hs Hne. unfold CoMainFunc_end. intros (u1 & s1 & H1 & H)%bind_inv. rewrite bind_get in H. cbn beta in H.
  pose proof (quiet_set_state _ _ _ _ _ H1) as Hq. pose proof (keeps_set_state main _ CO_TERMINAL (or_introl Hne) _ _ _ Hs H1) as Hs1.
  pose proof Hq as (Hst & Hr & _). eapply effect_quiet; [exact Hq|].
  assert (2 ≤ length (co_stack_ s1)) as Hlen.
  { destruct (ok_stack _ _ Hs1) as (l & El & Hl). pose proof (ok_running _ _ Hs1) as Hrun.
    rewrite El in Hrun |- *. destruct l; [|cbn; lia]. cbn in Hrun. congruence. }
  destruct (stack_split main s1 Hs1 Hlen) as (l & p & El & _ & E1 & E2 & E3).
  unfold stack_at in H. rewrite E1, E2, E3, !bind_ret in H. apply bind_inv in H as (u2 & s2 & H2 & H). injection H2 as _ <-.
  eapply (effect_pop s1 l p _ Hs1 El); [apply quiet_refl|exact H].
Qed.

Lemma effect_step s u s' : sched_ok main s → step s = (Ok u, s') → effect s s'.
Proof.
  intros Hs. unfold step. rewrite bind_get. cbn beta zeta. intros (x & s0 & Hx & H)%bind_inv. unfold get_co in Hx.
  destruct (coroutines s !! running_co_ s) as [x'|] eqn:Ex; [|done]. injection Hx as -> <-.
  destruct (func_ x) as [|i rest].
  - destruct (is_main_co_ x) eqn:Em; [injection H as _ <-; by apply quiet_effect|]. eapply effect_end; [done| |exact H].
    intros Hr. destruct (ok_main _ _ Hs) as (y & Hy & _ & Hym). rewrite Hr in Ex. simplify_eq. congruence.
  - apply bind_inv in H as (u1 & s1 & H1 & H). pose proof (quiet_set_func _ _ _ _ _ H1) as Hq.
    pose proof (keeps_set_func main _ rest _ _ _ Hs H1) as Hs1. eapply effect_quiet; [exact Hq|].
    assert (∀ f, (∀ m m', f m = Ok m' → only_occupant (Some (running_co_ s1)) m m') → on_memory f s1 = (Ok u, s') → effect s1 s') as Hmem.
    { intros f Hf (m & Hm & ->)%on_memory_inv. split; [done|]. split; [by apply Hf|by left]. }
    destruct i; [by eapply effect_Resume|by eapply effect_Yield|..].
    + eapply Hmem; [|exact H]. intros m m'. apply only_push.
    + eapply Hmem; [|exact H]. intros m m'. apply only_pop.
    + rewrite bind_get in H. apply bind_inv in H as (b & s2 & Hb & H). unfold lift in Hb. injection Hb as _ <-.
      injection H as _ <-. by apply quiet_effect.
Qed.
End Instructions.

(** ** The invariant *)

(** Who has run is on the execution stack or held by its own suspended call; the
    library holds nobody who has not run; who is held is alive, and nobody else. *)
Record life_ok (main : nat) (l : Life) : Prop := {
  lo_sched : sched_ok main (sched l);
  lo_kept : ∀ c fr, frames l !! c = Some fr → c ∈ co_stack_ (sched l) ∨ c ∈ fr;
  lo_run : ∀ c, c ∈ library_refs l → is_Some (frames l !! c);
  lo_alive : ∀ c, c ∈ dom (coroutines (sched l)) ↔ use_count l c ≠ 0 }.

Lemma held_iff l c : use_count l c ≠ 0 ↔ c ∈ library_refs l ∨ handles_of l c ≠ 0.
Proof. unfold use_count. rewrite <- occurrences_pos. lia. Qed.

Lemma elem_of_refs l c : c ∈ library_refs l ↔
  c ∈ co_stack_ (sched l) ∨ c = running_co_ (sched l) ∨ c ∈ suspended (frames l) ∨ c ∈ occupants (memory (sched l)).
Proof. unfold library_refs. rewrite !elem_of_app, list_elem_of_singleton. done. Qed.

Lemma running_on_stack main (s : Schedule Stacks) : sched_ok main s → running_co_ s ∈ co_stack_ s.
Proof. intros Hs. apply last_Some_elem_of, (ok_running _ _ Hs). Qed.

(** Releasing what is not held. *)
Lemma release_unheld_ok main l : sched_ok main (sched l) →
  (∀ c fr, frames l !! c = Some fr → c ∈ co_stack_ (sched l) ∨ c ∈ fr) →
  (∀ c, c ∈ library_refs l → is_Some (frames l !! c)) →
  (∀ c, use_count l c ≠ 0 → c ∈ dom (coroutines (sched l))) → life_ok main (release_unheld l).
Proof.
  intros [Hst Htop Hr (x & Hx & Hxs & Hxm) Ho] Hk Hrun Ha. split; [|done|done|].
  - split; try done; cbn.
    + exists x. split; [|done]. apply map_lookup_filter_Some. split; [done|]. cbn. apply held_iff. left.
      apply elem_of_refs. left. destruct Hst as (k & -> & _). left.
    + intros c y Hc Hy. apply map_lookup_filter_Some in Hy as [Hy _]. by eapply Ho.
  - intros c. change (use_count (release_unheld l) c) with (use_count l c). split.
    + intros [y Hy]%elem_of_dom. cbn in Hy. by apply map_lookup_filter_Some in Hy as [_ ?].
    + intros Hc. destruct (proj1 (elem_of_dom _ _) (Ha c Hc)) as [y Hy]. apply elem_of_dom. exists y.
      by apply map_lookup_filter_Some.
Qed.

(** ** An instruction *)

Section Switch.
Context (main : nat) (l : Life) (Hl : life_ok main l).

(** The suspended calls after a switch. *)
Lemma suspended_after prev next c : c ∈ suspended (<[prev := [prev; next; prev; next]]> (<[next := []]> (frames l))) →
  c = prev ∨ c = next ∨ c ∈ suspended (frames l).
Proof.
  rewrite !elem_of_suspended. intros (k & fr & Hk & Hc). apply lookup_insert_Some in Hk as [[<- <-]|[_ Hk]]; [set_solver|].
  apply lookup_insert_Some in Hk as [[<- <-]|[_ Hk]]; [by apply elem_of_nil in Hc|]. right. right. by exists k, fr.
Qed.

Lemma step_life u s' : step (sched l) = (Ok u, s') →
  life_ok main (release_unheld (mkLife s' (frames_after (sched l) s' (frames l)) (handles l))).
Proof.
  intros E. pose proof Hl as [Hs Hk Hrun Ha]. pose proof (keeps_step main _ _ _ Hs E) as Hs'.
  destruct (effect_step main _ _ _ Hs E) as (Hd & (_ & Hocc) & Hcase).
  set (prev := running_co_ (sched l)) in *. set (next := running_co_ s') in *.
  pose proof (running_on_stack main _ Hs) as Hprev. pose proof (running_on_stack main _ Hs') as Hnext.
  assert (∀ c, c ∈ co_stack_ s' → c = next ∨ c ∈ co_stack_ (sched l)) as Hst.
  { intros c Hc. destruct Hcase as [[H _]|[[H _]|H]]; rewrite H in *; set_solver. }
  set (l' := mkLife s' (frames_after (sched l) s' (frames l)) (handles l)) in *.
  assert (∀ c, c ∈ library_refs l' → c = next ∨ c ∈ library_refs l) as Href.
  { intros c. rewrite !elem_of_refs. cbn [sched frames l']. fold prev next.
    assert (c ∈ suspended (frames_after (sched l) s' (frames l)) → c = prev ∨ c = next ∨ c ∈ suspended (frames l)) as Hsu.
    { unfold frames_after. destruct (decide _); [by auto|]. apply suspended_after. }
    intros [H|[H|[H|H]]].
    - destruct (Hst c H); auto.
    - auto.
    - destruct (Hsu H) as [ -> |[?|?]]; auto.
    - destruct (Hocc c H) as [[= <-]|?]; auto. }
  apply release_unheld_ok; [done| | |].
  - cbn [frames sched l']. unfold frames_after. intros c fr Hc. destruct Hcase as [[H _]|Hcase].
    { rewrite H, decide_True in * by done. by apply Hk. }
    rewrite decide_False in Hc by (destruct Hcase as [[ -> _]| ->]; rewrite length_app; cbn; lia). fold prev next in Hc.
    apply lookup_insert_Some in Hc as [[<- <-]|[Hne Hc]]; [right; left|].
    apply lookup_insert_Some in Hc as [[<- <-]|[Hne' Hc]]; [by left|].
    destruct (Hk c fr Hc) as [Hin|?]; [left|by right]. destruct Hcase as [[H _]|H]; rewrite H in *; set_solver.
  - intros c Hc. cbn [frames l']. unfold frames_after. fold prev next.
    assert (is_Some (frames l !! c) ∨ c = next) as [Hf|Hn] by (destruct (Href c Hc); auto).
    + destruct (decide _); [done|]. rewrite !lookup_insert_is_Some'. by auto.
    + subst c. destruct (decide _) as [He|]; [|rewrite !lookup_insert_is_Some'; by auto].
      destruct Hcase as [[_ H]|[[H _]|H]]; [|rewrite H, length_app in He; cbn in He; lia..].
      fold next in H. rewrite H. apply Hrun, elem_of_refs. by right; left.
  - intros c [Hc|Hc]%held_iff; cbn [sched l']; rewrite Hd; [|apply Ha, held_iff; by right].
    destruct (Href c Hc) as [ -> |?]; [|by apply Ha, held_iff; left].
    destruct Hcase as [[_ H]|[[_ H]|H]]; [|done|]; apply Ha, held_iff; left; apply elem_of_refs.
    + fold next in H. rewrite H. by right; left.
    + left. rewrite H. apply elem_of_app. by left.
Qed.
End Switch.

(** ** The users *)

(** The library's references depend on these parts only. *)
Lemma refs_same l l' : co_stack_ (sched l') = co_stack_ (sched l) → running_co_ (sched l') = running_co_ (sched l) →
  frames l' = frames l → (∀ c, c ∈ occupants (memory (sched l')) ↔ c ∈ occupants (memory (sched l))) →
  ∀ c, c ∈ library_refs l' ↔ c ∈ library_refs l.
Proof. intros H1 H2 H3 H4 c. rewrite !elem_of_refs, H1, H2, H3, H4. done. Qed.

Lemma handles_insert s fs h c n c' : handles_of (mkLife s fs (<[c := n]> h)) c' = if decide (c' = c) then n else default 0 (h !! c').
Proof.
  unfold handles_of. cbn. destruct (decide (c' = c)) as [->|]; [by rewrite lookup_insert_eq|by rewrite lookup_insert_ne].
Qed.

(** [CreateCoroutine]: a new coroutine, and a stack of its own or one of the pool. *)
Lemma create_spec c stack_size shared mem code s p s' :
  CreateCoroutine c stack_size shared mem code s = Ok (p, s') → mems (memory s) !! mem = None →
  co_stack_ s' = co_stack_ s ∧ running_co_ s' = running_co_ s ∧ stack_top_ s' = stack_top_ s ∧
  coroutines s' = <[c := mkCoroutine code CO_READY false]> (coroutines s) ∧
  (∀ o, o ∈ occupants (memory s') ↔ o ∈ occupants (memory s)) ∧
  size (mems (memory s')) = size (mems (memory s)) + match shared with None => 1 | Some _ => 0 end.
Proof.
  unfold CreateCoroutine. intros E Hmem. destruct shared as [q|].
  - apply outcome_inv in E as ([m q'] & _ & E). injection E as _ <-. repeat split; (done || cbn; lia).
  - injection E as _ <-. do 4 (split; [done|]). split.
    + intros o. rewrite !elem_of_occupants. cbn. split.
      * intros (m & y & [[<- <-]|[_ Hm]]%lookup_insert_Some & Hy); [done|by exists m, y].
      * intros (m & y & Hm & Hy). exists m, y. split; [|done]. rewrite lookup_insert_ne; [done|congruence].
    + cbn. rewrite map_size_insert_None by done. lia.
Qed.

Lemma create_life main l c stack_size shared mem code p s' : life_ok main l →
  coroutines (sched l) !! c = None → use_count l c = 0 → mems (memory (sched l)) !! mem = None →
  CreateCoroutine c stack_size shared mem code (sched l) = Ok (p, s') →
  life_ok main (mkLife s' (frames l) (<[c := 1]> (handles l))).
Proof.
  intros [Hs Hk Hrun Ha] Hc Hu Hm E. destruct (create_spec _ _ _ _ _ _ _ _ E Hm) as (E1 & E2 & E3 & E4 & E5 & _).
  assert (c ≠ main) as Hne. { intros ->. destruct (ok_main _ _ Hs) as (x & Hx & _). congruence. }
  set (l' := mkLife s' (frames l) (<[c := 1]> (handles l))).
  assert (∀ o, o ∈ library_refs l' ↔ o ∈ library_refs l) as Href by by apply refs_same.
  split.
  - destruct Hs as [Hst Htop Hr (x & Hx & Hx') Ho]. split; cbn [sched l']; rewrite ?E1, ?E2, ?E3, ?E4; try done.
    + exists x. by rewrite lookup_insert_ne.
    + intros k y Hky [[<- <-]|[_ Hy]]%lookup_insert_Some; [done|by eapply Ho].
  - cbn [frames sched l']. by rewrite E1.
  - intros k Hk'. by apply Hrun, Href.
  - intros k. cbn [sched l']. rewrite E4, dom_insert_L, elem_of_union, elem_of_singleton, Ha, !held_iff, Href.
    unfold l'. rewrite handles_insert. fold (handles_of l k). destruct (decide (k = c)) as [->|]; [|naive_solver].
    split; [auto|by left].
Qed.

Lemma life_step_ok main op l l' : life_ok main l → life_step op l = Ok l' → life_ok main l'.
Proof.
  intros Hl E. pose proof Hl as [Hs Hk Hrun Ha]. destruct op as [|c stack_size shared mem code|c|c]; cbn [life_step] in E.
  - destruct (step (sched l)) as [[u| | |] s'] eqn:Es; [|done..]. injection E as <-. by eapply step_life.
  - destruct (decide _) as [(Hc & Hu & _ & Hm)|]; [|done]. apply outcome_inv in E as ([p s'] & E & [= <-]).
    by eapply create_life.
  - destruct (decide (use_count l c = 0)) as [|Hu]; [done|]. injection E as <-. split; try done.
    intros k. cbn [sched]. rewrite Ha. destruct (decide (k = c)) as [->|Hne].
    + split; [|done]. intros _. apply held_iff. right. rewrite handles_insert, decide_True by done. lia.
    + rewrite !held_iff, handles_insert, decide_False by done. done.
  - destruct (handles_of l c) as [|n] eqn:Eh; [done|]. injection E as <-. apply release_unheld_ok; try done.
    intros k [Hk'|Hk']%held_iff; cbn [sched]; apply Ha, held_iff; [by left|].
    rewrite handles_insert in Hk'. destruct (decide (k = c)) as [->|]; right; [lia|done].
Qed.

Lemma life_run_ok main ops : ∀ l l', life_ok main l → life_run ops l = Ok l' → life_ok main l'.
Proof.
  induction ops as [|op ops IH]; intros l l' Hl E; [by injection E as <-|].
  cbn [life_run] in E. apply outcome_inv in E as (l1 & E1 & E). eapply IH; [|exact E]. by eapply life_step_ok.
Qed.

(** The stacks that were made for coroutines of their own. *)
Definition own_stack (op : life_op) : bool := match op with LCreate _ _ None _ _ => true | _ => false end.

Lemma life_step_stacks main op l l' : life_ok main l → life_step op l = Ok l' →
  size (mems (memory (sched l'))) = size (mems (memory (sched l))) + (if own_stack op then 1 else 0).
Proof.
  intros Hl E. destruct op as [|c stack_size shared mem code|c|c]; cbn [life_step own_stack] in *.
  - destruct (step (sched l)) as [[u| | |] s'] eqn:Es; [|done..]. injection E as <-.
    destruct (effect_step main _ _ _ (lo_sched _ _ Hl) Es) as (_ & (Hd & _) & _). cbn.
    rewrite <- !size_dom, Hd. lia.
  - destruct (decide _) as [(_ & _ & _ & Hm)|]; [|done]. apply outcome_inv in E as ([p s'] & E & [= <-]).
    destruct (create_spec _ _ _ _ _ _ _ _ E Hm) as (_ & _ & _ & _ & _ & Hsz). cbn [sched]. rewrite Hsz. by destruct shared.
  - destruct (decide _); [done|]. injection E as <-. cbn. lia.
  - destruct (handles_of l c); [done|]. injection E as <-. cbn. lia.
Qed.

Lemma life_start_ok main code : life_ok main (life_start main code).
Proof.
  assert (∀ c, c ∈ library_refs (life_start main code) ↔ c = main) as Href.
  { intros c. rewrite elem_of_refs, elem_of_suspended, elem_of_occupants. cbn. rewrite list_elem_of_singleton. split; [|auto].
    intros [?|[?|[(k & fr & [<- <-]%lookup_singleton_Some & Hc)|(m & mem & Hm & _)]]]; try done. by apply elem_of_nil in Hc. }
  split.
  - split; cbn; try done.
    + exists []. split; [done|]. by intros ?%elem_of_nil.
    + eexists. split; [apply lookup_singleton_eq|done].
    + intros c x Hc [<- _]%lookup_singleton_Some. done.
  - intros c fr Hc. cbn in Hc. apply lookup_singleton_Some in Hc as [<- <-]. left. left.
  - intros c ->%Href. by eexists; apply lookup_singleton_eq.
  - intros c. rewrite held_iff, Href. cbn. rewrite dom_singleton_L, elem_of_singleton. unfold handles_of. cbn. naive_solver.
Qed.

(** [C13] Coroutines that have run are never released.  Over any use of the library,
    from its start-up: a coroutine that was resumed at least once is alive, and
    referenced besides its users' pointers, also after it has ended and its users
    have dropped theirs; one that was not is referenced by its users only and
    alive exactly while they do; and the stacks allocated are as many as
    coroutines with their own stack were ever created. *)
Theorem coroutines_are_kept main code ops l :
  life_run ops (life_start main code) = Ok l →
  (∀ c, match frames l !! c with
        | Some _ => c ∈ dom (coroutines (sched l)) ∧ handles_of l c < use_count l c
        | None => use_count l c = handles_of l c ∧ (c ∈ dom (coroutines (sched l)) ↔ 0 < handles_of l c)
        end) ∧
  size (mems (memory (sched l))) = length (filter (λ op, own_stack op = true) ops).
Proof.
  intros E. split.
  - pose proof (life_run_ok main ops _ _ (life_start_ok main code) E) as [Hs Hk Hrun Ha]. intros c.
    destruct (frames l !! c) as [fr|] eqn:Ef.
    + assert (c ∈ library_refs l) as Hc.
      { apply elem_of_refs. destruct (Hk c fr Ef) as [?|Hfr]; [by left|]. right; right; left. apply elem_of_suspended. by exists c, fr. }
      split; [by apply Ha, held_iff; left|]. unfold use_count. apply occurrences_pos in Hc. lia.
    + assert (c ∉ library_refs l) as Hc by (intros Hc; destruct (Hrun c Hc); congruence).
      rewrite <- occurrences_pos in Hc. unfold use_count in *. rewrite Ha. unfold use_count. lia.
  - assert (∀ ops l0, life_ok main l0 → life_run ops l0 = Ok l →
      size (mems (memory (sched l))) = size (mems (memory (sched l0))) + length (filter (λ op, own_stack op = true) ops)) as H.
    { clear ops E. induction ops as [|op ops IH]; intros l0 Hl0 E; [injection E as <-; cbn; lia|].
      cbn [life_run] in E. apply outcome_inv in E as (l1 & E1 & E). rewrite (IH l1 (life_step_ok _ _ _ _ Hl0 E1) E).
      rewrite (life_step_stacks main op l0 l1 Hl0 E1), filter_cons. destruct (own_stack op) eqn:Eo.
      - rewrite decide_True by done. cbn. lia.
      - rewrite decide_False by done. lia. }
    apply (H ops _ (life_start_ok main code) E).
Qed.

(** A coroutine that ends and one that waits for ever, both dropped by their users,
    and one that is dropped before it runs. *)
Definition three_coroutines : list life_op :=
  [LCreate 1 4096 None 1 []; LCreate 2 4096 None 2 [IYield]; LCreate 3 4096 None 3 [];
   LStep; LStep; LStep; LStep; LDrop 1; LDrop 2; LDrop 3].

Lemma coroutines_are_kept_witness :
  match life_run three_coroutines (life_start 0 [IResume 1; IResume 2]) with
  | Ok l => 1 ∈ dom (coroutines (sched l)) ∧ 0 < use_count l 1 ∧ 2 ∈ dom (coroutines (sched l)) ∧
      (3 ∉ dom (coroutines (sched l))) ∧ size (mems (memory (sched l))) = 3
  | _ => False
  end.
Proof.
  assert (match life_run three_coroutines (life_start 0 [IResume 1; IResume 2]) with
    | Ok l => ((frames l !! 1, frames l !! 2, frames l !! 3, handles_of l 3) =
        (Some [1; 0; 1; 0], Some [2; 0; 2; 0], None, 0))
    | _ => False end) as H by (vm_compute; reflexivity).
  destruct (life_run _ _) as [l| | |] eqn:E; [|done..]. injection H as H1 H2 H3 H4.
  destruct (coroutines_are_kept 0 _ _ _ E) as [Hc Hsz].
  pose proof (Hc 1) as Hc1. pose proof (Hc 2) as Hc2. pose proof (Hc 3) as Hc3. rewrite H1 in Hc1. rewrite H2 in Hc2. rewrite H3, H4 in Hc3.
  split; [apply Hc1|]. split; [lia|]. split; [apply Hc2|]. split; [|exact Hsz]. rewrite (proj2 Hc3). lia.
Defined.

End CoLifetimeProps.
