(* ===== verification/Epoll.v ===== *)
(** * Epoll events and the event loop

    [Epoll] of [src/include/epoll.hh] and [src/epoll.cc], which is a [TimeWheel]
    with a table of registered descriptors, and [Schedule::Eventloop] of
    [src/coroutine.cc].  Event contexts live in a heap, as the table and its
    users share them; the system calls made are recorded in a trace. *)

From S2P Require Import Prelude TimeWheel.
Import TimeWheel.

Module Epoll.

Open Scope Z_scope.

(** ** Data *)

Abbreviation ptr := positive.

(** [EventType], tested by bits; the arguments are [int]. *)
Definition NONE : Z := 0.
Definition READ : Z := 1.
Definition WRITE : Z := 4.
Definition has (type bit : Z) : bool := negb (Z.land type bit =? 0).

(** A callback is a number; [None] is an empty function or a null pointer. *)
Record EventCtx := mkCtx {
  type_ : Z;
  r_callback_ : option nat;
  w_callback_ : option nat;
  r_co_ : option nat;
  w_co_ : option nat }.

Definition set_type (t : Z) (c : EventCtx) : EventCtx :=
  mkCtx t (r_callback_ c) (w_callback_ c) (r_co_ c) (w_co_ c).

(** [epoll_event]: the requested events, and the union [epoll_data]. *)
Record interest := Interest { e_in : bool; e_out : bool; e_et : bool }.
Inductive epoll_data := data_fd (fd : Z) | data_ptr (p : option ptr).
Inductive ctl_op := CTL_ADD | CTL_MOD | CTL_DEL.

(** System calls, and the coroutine switches of the hooks. *)
Inductive action :=
| SetFl (fd flags : Z)
| Ctl (op : ctl_op) (fd : Z) (events : interest) (data : epoll_data)
| Suspend
| CloseFd (fd : Z)
| Wait (timeout : Z).

Record Epoll := mkEpoll {
  wheel : TimeWheel;                     (* the base class *)
  reg_event_ : gmap Z (option ptr);
  ctxs : gmap ptr EventCtx;              (* the heap of contexts *)
  loop_ : bool;
  trace : list action }.

Definition set_wheel (w : TimeWheel) (e : Epoll) : Epoll :=
  mkEpoll w (reg_event_ e) (ctxs e) (loop_ e) (trace e).
Definition set_reg (r : gmap Z (option ptr)) (e : Epoll) : Epoll :=
  mkEpoll (wheel e) r (ctxs e) (loop_ e) (trace e).
Definition set_ctx (p : ptr) (c : EventCtx) (e : Epoll) : Epoll :=
  mkEpoll (wheel e) (reg_event_ e) (<[p := c]> (ctxs e)) (loop_ e) (trace e).
Definition act (a : action) : M Epoll unit :=
  modify (λ e, mkEpoll (wheel e) (reg_event_ e) (ctxs e) (loop_ e) (trace e ++ [a])).

(** Through a shared pointer. *)
Definition ctx_at (p : option ptr) : M Epoll (ptr * EventCtx) := λ e,
  match p with
  | None => (Undef "null EventCtx", e)
  | Some q => match ctxs e !! q with
              | Some c => (Ok (q, c), e)
              | None => (Undef "dangling EventCtx", e)
              end
  end.

(** [new EventCtx], filled in. *)
Definition new_EventCtx (c : EventCtx) : M Epoll ptr := λ e,
  let p := fresh (dom (ctxs e)) in (Ok p, set_ctx p c e).

(** A call of the base class. *)
Definition on_wheel {A} (m : M TimeWheel A) : M Epoll A := λ e,
  let '(r, w) := m (wheel e) in (r, set_wheel w e).

(** The object seen as one of its base class, and back: the call of a timer
    reaches the whole of it. *)
Definition as_base (e : Epoll) : TimeWheelOf Epoll :=
  let w := wheel e in
  mkWheel (wheel_ w) (slots_ w) (granularity_ w) (last_trigger_ w) (current_slot w) e.
Definition of_base (b : TimeWheelOf Epoll) : Epoll :=
  let e := env b in
  set_wheel (mkWheel (wheel_ b) (slots_ b) (granularity_ b) (last_trigger_ b) (current_slot b)
    (performed (wheel e))) e.

Definition on_base {A} (m : M (TimeWheelOf Epoll) A) : M Epoll A := λ e,
  let '(r, b) := m (as_base e) in (r, of_base b).
Definition from_base {A} (m : M Epoll A) : M (TimeWheelOf Epoll) A := λ b,
  let '(r, e) := m (of_base b) in (r, as_base e).

Definition StopEventLoop (val : bool) : M Epoll unit :=
  modify (λ e, mkEpoll (wheel e) (reg_event_ e) (ctxs e) val (trace e)).
Definition Stoped : M Epoll bool := e ← get; mret (loop_ e).

Definition O_NONBLOCK : Z := 2048.

Section Calls.

(** [fcntl(fd, F_GETFL)], given the calls made before, and the address of a
    context. *)
Context (getfl : list action → Z → Z) (address : ptr → Z).

(** The [fcntl] prologue of both [RegisterEvent]s. *)
Definition set_nonblock (fd : Z) : M Epoll unit :=
  e ← get;
  let state := getfl (trace e) fd in
  if decide (Z.land state O_NONBLOCK = 0) then act (SetFl fd (Z.lor state O_NONBLOCK)) else mret tt.

(** [ev.events] built from [type]. *)
Definition events_of (type : Z) : interest :=
  Interest (has type READ) (has type WRITE) (has type READ || has type WRITE).

Definition RegisterEvent (type fd : Z) (r_func w_func r_co w_co : option nat) : M Epoll unit :=
  set_nonblock fd;;
  e ← get;
  match reg_event_ e !! fd with
  | None =>
      p ← new_EventCtx (mkCtx type r_func w_func r_co w_co);
      modify (λ e, set_reg (<[fd := Some p]> (reg_event_ e)) e);;
      act (Ctl CTL_ADD fd (events_of type) (data_fd fd))
  | Some it =>
      '(p, c) ← ctx_at it;
      if has (type_ c) type then mret tt
      else
        modify (set_ctx p (mkCtx type r_func w_func r_co w_co));;
        act (Ctl CTL_MOD fd (events_of type) (data_fd fd))
  end.

(** The overload that takes a context of the caller. *)
Definition RegisterEvent_ptr (type fd : Z) (p : option ptr) : M Epoll unit :=
  set_nonblock fd;;
  e ← get;
  let op := match reg_event_ e !! fd with Some _ => CTL_MOD | None => CTL_ADD end in
  modify (λ e, set_reg (<[fd := p]> (reg_event_ e)) e);;
  act (Ctl op fd (events_of type) (data_ptr p)).

Definition CancelEvent (type fd : Z) : M Epoll unit :=
  e ← get;
  match reg_event_ e !! fd with
  | None => mret tt
  | Some it =>
      '(p, c) ← ctx_at it;
      if negb (has (type_ c) type) then mret tt
      else
        let c := if has type READ then set_type (Z.ldiff (type_ c) READ) c else c in
        let c := if has type WRITE then set_type (Z.ldiff (type_ c) WRITE) c else c in
        let events := Interest (negb (has type READ)) (negb (has type WRITE)) true in
        modify (set_ctx p c);;
        if decide (type_ c = NONE) then
          modify (λ e, set_reg (delete fd (reg_event_ e)) e);;
          act (Ctl CTL_DEL fd events (data_ptr it))
        else act (Ctl CTL_MOD fd events (data_ptr it))
  end.

(** *** The event loop *)

(** What a callback, or a coroutine until it gives the thread back, asks of the
    epoll object. *)
Inductive epoll_op :=
| OpRegister (type fd : Z) (r_func w_func r_co w_co : option nat)
| OpCancel (type fd : Z)
| OpTimer (o : timer_op)
| OpStop (val : bool).

Definition exec_op (o : epoll_op) : M Epoll unit :=
  match o with
  | OpRegister type fd rf wf rc wc => RegisterEvent type fd rf wf rc wc
  | OpCancel type fd => CancelEvent type fd
  | OpTimer o => on_wheel (exec_timer_op o)
  | OpStop val => StopEventLoop val
  end.

Fixpoint exec_ops (l : list epoll_op) : M Epoll unit :=
  match l with [] => mret tt | o :: l => exec_op o;; exec_ops l end.

Context (script : payload → list epoll_op * option exn).

(** The call is logged with those of the wheel. *)
Definition perform_event (p : payload) : M Epoll unit :=
  on_wheel (modify (log p));;
  exec_ops (fst (script p));;
  match snd (script p) with Some e => raise e | None => mret tt end.

(** [if (callback) callback(); else if (co) co->Resume();] *)
Definition dispatch (callback co : option nat) : M Epoll unit :=
  match callback, co with
  | Some f, _ => perform_event (Func f)
  | None, Some c => perform_event (Resume c)
  | None, None => mret tt
  end.

(** [ev.data.fd]: the low half of the union. *)
Definition read_fd (d : epoll_data) : Z :=
  match d with
  | data_fd fd => fd
  | data_ptr (Some p) => wrap i32 (address p)
  | data_ptr None => 0
  end.

(** One event reported by [epoll_wait]; [reg_event_[..]] inserts a null pointer
    for a descriptor that is not there. *)
Definition handle_event (d : epoll_data) (ev_in ev_out : bool) : M Epoll unit :=
  e ← get;
  let fd := read_fd d in
  let p := default None (reg_event_ e !! fd) in
  modify (λ e, set_reg (<[fd := p]> (reg_event_ e)) e);;
  (if ev_in then '(_, c) ← ctx_at p; dispatch (r_callback_ c) (r_co_ c) else mret tt);;
  (if ev_out then '(_, c) ← ctx_at p; dispatch (w_callback_ c) (w_co_ c) else mret tt).

Fixpoint handle_events (evs : list (epoll_data * bool * bool)) : M Epoll unit :=
  match evs with
  | [] => mret tt
  | (d, i, o) :: evs => handle_event d i o;; handle_events evs
  end.

Definition MAX_TIMEOUT : Z := 1000.

(** The timeout passed to [epoll_wait]. *)
Definition wait_timeout (now : Z) : M Epoll Z :=
  interval ← on_wheel (GetNextTimeout now);
  mret (if decide (interval = 0) then MAX_TIMEOUT else Z.min (wrap u64 (interval + 1)) MAX_TIMEOUT).

(** What one turn of [Eventloop] gets from outside: two readings of the clock,
    and between them what [epoll_wait] reports. *)
Record loop_input := LoopInput {
  now_before : Z;
  reported : list (epoll_data * bool * bool);
  now_after : Z }.

(** [fuel] is for the timers due at one tick. *)
Definition Eventloop_turn (fuel : nat) (t : loop_input) : M Epoll unit :=
  timeout ← wait_timeout (now_before t);
  act (Wait timeout);;
  handle_events (reported t);;
  on_base (ExecuteTimeout (λ p, from_base (perform_event p)) fuel (now_after t)).

(** [while (!epoll->Stoped())], for as many turns as there are inputs. *)
Fixpoint Eventloop (fuel : nat) (turns : list loop_input) : M Epoll unit :=
  match turns with
  | [] => nofuel
  | t :: turns =>
      stop ← Stoped;
      if (stop : bool) then mret tt else Eventloop_turn fuel t;; Eventloop fuel turns
  end.

End Calls.

(** [Epoll()] over [TimeWheel()]: 1000 slots of 1 ms. *)
Definition Epoll_new (clock : Z) : Epoll := mkEpoll (TimeWheel_new 1000 1 clock) ∅ ∅ false [].

(** ** The object of a thread *)

(** The [thread_local] pointer and counter, and [epfd_] of the instance.  The
    instance itself is an [Epoll] above; no descriptor is in it, as all its calls
    go to its own. *)
Record ThreadEpoll := mkThreadEpoll { t_epoll_ : bool; reference_cnt_ : Z; epfd_ : Z }.

Definition ThreadEpoll_start : ThreadEpoll := mkThreadEpoll false 0 0.

(** The argument is the result of [epoll_create1]. *)
Definition InitThreadEpoll (epfd : Z) (t : ThreadEpoll) : ThreadEpoll := mkThreadEpoll true (reference_cnt_ t) epfd.

Definition GetThreadEpoll (epfd : Z) (t : ThreadEpoll) : ThreadEpoll :=
  let t := if t_epoll_ t then t else InitThreadEpoll epfd t in
  mkThreadEpoll (t_epoll_ t) (reference_cnt_ t + 1) (epfd_ t).

(** [~Epoll], once, when the thread ends: the descriptor that is closed. *)
Definition Epoll_destroy (t : ThreadEpoll) : option Z * ThreadEpoll :=
  let cnt := reference_cnt_ t - 1 in
  (if cnt =? 0 then Some (epfd_ t) else None, mkThreadEpoll (t_epoll_ t) cnt (epfd_ t)).

End Epoll.
