(* ===== verification/EpollProps.v ===== *)
(** * Properties of the epoll object and of the event loop

    The kernel's interest list against the table of registrations, the
    dispatch of events, and what a cancelled direction does to the other. *)

From S2P Require Import Prelude TimeWheel Epoll.
Import Epoll.

Module EpollProps.

Open Scope Z_scope.

(** ** The kernel's interest list *)

(** Documented behaviour of [epoll_ctl] on the calls made: ADD fails on a
    registered descriptor, MOD and DEL on one that is not; closing a descriptor
    takes it off the list. *)
Abbreviation kernel_list := (gmap Z (interest * epoll_data)).
Definition kernel_step (m : kernel_list) (a : action) : kernel_list :=
  match a with
  | Ctl CTL_ADD fd ev d => match m !! fd with None => <[fd := (ev, d)]> m | Some _ => m end
  | Ctl CTL_MOD fd ev d => match m !! fd with None => m | Some _ => <[fd := (ev, d)]> m end
  | Ctl CTL_DEL fd _ _ => delete fd m
  | CloseFd fd => delete fd m
  | SetFl _ _ | Suspend | Wait _ => m
  end.
Definition kernel (e : Epoll) : kernel_list := foldl kernel_step ∅ (trace e).
#[global] Arguments kernel : simpl never.

Definition valid_type (t : Z) : Prop := t = READ ∨ t = WRITE ∨ t = Z.lor READ WRITE.

(** Descriptor, context and interest go together, one context per descriptor. *)
Record in_sync (e : Epoll) : Prop := {
  sy_out : ∀ fd, reg_event_ e !! fd = None → kernel e !! fd = None;
  sy_in : ∀ fd it, reg_event_ e !! fd = Some it → ∃ p c d, it = Some p ∧ ctxs e !! p = Some c ∧
    valid_type (type_ c) ∧ kernel e !! fd = Some (events_of (type_ c), d);
  sy_own : ∀ fd fd' p, reg_event_ e !! fd = Some (Some p) → reg_event_ e !! fd' = Some (Some p) → fd = fd' }.

Lemma kernel_traced w r c l t a :
  kernel (mkEpoll w r c l (t ++ [a])) = kernel_step (foldl kernel_step ∅ t) a.
Proof. unfold kernel. cbn [trace]. by rewrite foldl_app. Qed.

Lemma kernel_act a e e' : act a e = (Ok tt, e') →
  e' = mkEpoll (wheel e) (reg_event_ e) (ctxs e) (loop_ e) (trace e ++ [a]) ∧
  kernel e' = kernel_step (kernel e) a.
Proof. intros [= <-]. split; [done|]. apply kernel_traced. Qed.

(** What leaves the three tables alone. *)
Definition same_tables (e e' : Epoll) : Prop :=
  reg_event_ e' = reg_event_ e ∧ ctxs e' = ctxs e ∧ kernel e' = kernel e.

Lemma same_tables_in_sync e e' : same_tables e e' → in_sync e → in_sync e'.
Proof.
  intros (H1 & H2 & H3) [Ho Hi Hw]. split; intros *; rewrite ?H1, ?H2, ?H3; [apply Ho|apply Hi|apply Hw].
Qed.

Lemma same_tables_trans e1 e2 e3 : same_tables e1 e2 → same_tables e2 e3 → same_tables e1 e3.
Proof. unfold same_tables. intuition congruence. Qed.

Lemma act_setfl_tables fd fl e : ∃ e', act (SetFl fd fl) e = (Ok tt, e') ∧ same_tables e e' ∧
  wheel e' = wheel e ∧ loop_ e' = loop_ e.
Proof.
  eexists. split; [done|]. split; [|done]. split; [done|]. split; [done|]. apply kernel_traced.
Qed.

Lemma set_nonblock_tables getfl fd e :
  ∃ e', set_nonblock getfl fd e = (Ok tt, e') ∧ same_tables e e' ∧ wheel e' = wheel e ∧ loop_ e' = loop_ e.
Proof.
  unfold set_nonblock. rewrite bind_get. destruct (decide _); [apply act_setfl_tables|by exists e].
Qed.

Lemma has_valid t t' : valid_type t → valid_type t' →
  has t t' = (has t READ && has t' READ) || (has t WRITE && has t' WRITE).
Proof. by intros [-> | [-> | ->]] [-> | [-> | ->]]. Qed.

(** *** Registration *)

Lemma in_sync_set e e' fd p c d :
  in_sync e → valid_type (type_ c) →
  (∀ fd', reg_event_ e !! fd' = Some (Some p) → fd' = fd) →
  reg_event_ e' = <[fd := Some p]> (reg_event_ e) → ctxs e' = <[p := c]> (ctxs e) →
  kernel e' = <[fd := (events_of (type_ c), d)]> (kernel e) → in_sync e'.
Proof.
  intros [Ho Hi Hw] Hc Hp Er Ec Ek. split; intros *; rewrite Er, ?Ec, ?Ek.
  - intros [? Hne]%lookup_insert_None. rewrite lookup_insert_ne by done. by apply Ho.
  - intros [[<- <-]|[Hne Hl]]%lookup_insert_Some.
    + exists p, c, d. by rewrite !lookup_insert_eq.
    + destruct (Hi _ _ Hl) as (q & c' & d' & -> & Hq & Ht & Hk). exists q, c', d'.
      rewrite lookup_insert_ne by (intros <-; by apply Hne; symmetry; apply Hp). by rewrite lookup_insert_ne.
  - intros [[<- E]|[Hne Hl]]%lookup_insert_Some [[<- E']|[Hne' Hl']]%lookup_insert_Some; try done.
    + injection E as <-. by apply Hp in Hl'.
    + injection E' as <-. by apply Hp in Hl.
    + by eapply Hw.
Qed.

Definition overlapping (e : Epoll) (type fd : Z) : option EventCtx :=
  match reg_event_ e !! fd with
  | Some (Some p) => match ctxs e !! p with
                     | Some c => if has (type_ c) type then Some c else None
                     | None => None
                     end
  | _ => None
  end.

Definition ctx_of (e : Epoll) (fd : Z) : option EventCtx :=
  match reg_event_ e !! fd with Some (Some p) => ctxs e !! p | _ => None end.

(** The tables after a context is written and registered for a descriptor. *)
Lemma ctx_written e e' fd p c :
  reg_event_ e' = <[fd := Some p]> (reg_event_ e) → ctxs e' = <[p := c]> (ctxs e) →
  (∀ fd', reg_event_ e !! fd' = Some (Some p) → fd' = fd) →
  ctx_of e' fd = Some c ∧ ∀ fd', fd' ≠ fd → ctx_of e' fd' = ctx_of e fd'.
Proof.
  intros Hr Hc Hp. unfold ctx_of. rewrite Hr, Hc, lookup_insert_eq, lookup_insert_eq. split; [done|].
  intros fd' Hne. rewrite lookup_insert_ne by done. destruct (reg_event_ e !! fd') as [[q|]|] eqn:Eq; try done.
  rewrite lookup_insert_ne; [done|]. intros <-. by apply Hne, Hp.
Qed.

(** The two branches of [RegisterEvent]. *)
Lemma RegisterEvent_spec getfl type fd rf wf rc wc e :
  in_sync e → valid_type type →
  ∃ e', RegisterEvent getfl type fd rf wf rc wc e = (Ok tt, e') ∧ in_sync e' ∧
    wheel e' = wheel e ∧ loop_ e' = loop_ e ∧
    (∀ fd', fd' ≠ fd → ctx_of e' fd' = ctx_of e fd' ∧ kernel e' !! fd' = kernel e !! fd') ∧
    match overlapping e type fd with
    | Some c => same_tables e e'
    | None => ctx_of e' fd = Some (mkCtx type rf wf rc wc) ∧
        kernel e' !! fd = Some (events_of type, data_fd fd)
    end.
Proof.
  intros Hs Ht. unfold RegisterEvent.
  destruct (set_nonblock_tables getfl fd e) as (e1 & E1 & (Hr1 & Hc1 & Hk1) & Hw1 & Hl1).
  rewrite (bind_ok _ _ _ _ _ E1), bind_get. cbn beta. unfold overlapping.
  pose proof (same_tables_in_sync e e1 (conj Hr1 (conj Hc1 Hk1)) Hs) as Hs1. rewrite Hr1.
  assert (∀ fd', fd' ≠ fd → ctx_of e1 fd' = ctx_of e fd' ∧ kernel e1 !! fd' = kernel e !! fd') as Hoth1.
  { intros fd' _. unfold ctx_of. by rewrite Hr1, Hc1, Hk1. }
  destruct (reg_event_ e !! fd) as [it|] eqn:Er.
  - destruct (sy_in _ Hs _ _ Er) as (p & c & d & -> & Hp & Hct & Hk).
    unfold ctx_at, mbind at 1, M_bind at 1. rewrite Hc1, Hp.
    destruct (has (type_ c) type) eqn:Eh.
    { exists e1. split_and!; try done. }
    unfold mbind, M_bind, modify. destruct (act _ _) as [o e2] eqn:E2.
    assert (o = Ok tt) as -> by by injection E2. apply kernel_act in E2 as [E2 Ek2].
    cbn [kernel_step] in Ek2. change (kernel (set_ctx _ _ e1)) with (kernel e1) in Ek2.
    rewrite Hk1, Hk in Ek2. rewrite E2 in *. cbn in *. set (c' := mkCtx type rf wf rc wc) in *.
    assert (∀ fd', reg_event_ e1 !! fd' = Some (Some p) → fd' = fd) as Hp'.
    { rewrite Hr1. intros fd' Hf. by eapply (sy_own _ Hs). }
    assert (reg_event_ e1 = <[fd := Some p]> (reg_event_ e1)) as Hreg by by rewrite insert_id by by rewrite Hr1.
    destruct (ctx_written e1 e2 fd p c') as [Hfd Hoth]; [by rewrite E2..|done|]. rewrite E2 in Hfd, Hoth.
    eexists. split; [done|]. split_and!; try done.
    + eapply (in_sync_set e1 _ fd p c' (data_fd fd)); try done; cbn. by rewrite Hk1.
    + intros fd' Hne. rewrite Ek2, lookup_insert_ne, Hoth by done. split; [by apply Hoth1|done].
    + rewrite Ek2. by rewrite lookup_insert_eq.
  - unfold new_EventCtx. set (c' := mkCtx type rf wf rc wc). unfold mbind, M_bind, modify.
    set (p := fresh (dom (ctxs e1))).
    assert (ctxs e !! p = None) as Hp by (apply not_elem_of_dom; rewrite <- Hc1; apply is_fresh).
    destruct (act _ _) as [o e2] eqn:E2. assert (o = Ok tt) as -> by by injection E2.
    apply kernel_act in E2 as [E2 Ek2]. cbn [kernel_step] in Ek2.
    change (kernel (set_reg _ _)) with (kernel e1) in Ek2.
    rewrite Hk1, (sy_out _ Hs _ Er) in Ek2. rewrite E2 in *. cbn in *.
    assert (∀ fd', reg_event_ e1 !! fd' = Some (Some p) → fd' = fd) as Hp'.
    { rewrite Hr1. intros fd' Hf. destruct (sy_in _ Hs _ _ Hf) as (q & c & d & [= <-] & Hq & _). congruence. }
    destruct (ctx_written e1 e2 fd p c') as [Hfd Hoth]; [by rewrite E2..|done|]. rewrite E2 in Hfd, Hoth.
    eexists. split; [done|]. split_and!; try done.
    + eapply (in_sync_set e1 _ fd p c' (data_fd fd)); try done; cbn. by rewrite Hk1.
    + intros fd' Hne. rewrite Ek2, lookup_insert_ne, Hoth by done. split; [by apply Hoth1|done].
    + rewrite Ek2. by rewrite lookup_insert_eq.
Qed.

(** *** Cancellation *)

Definition without (t type : Z) : Z :=
  let t := if has type READ then Z.ldiff t READ else t in
  if has type WRITE then Z.ldiff t WRITE else t.

Lemma without_valid t type : valid_type t → valid_type type → has t type = true →
  without t type = NONE ∨
  (valid_type (without t type) ∧
   events_of (without t type) = Interest (negb (has type READ)) (negb (has type WRITE)) true).
Proof.
  unfold valid_type. intros [-> | [-> | ->]] [-> | [-> | ->]] Hh; try discriminate;
    (by left) || (right; split; [|done]; cbn; auto).
Qed.

Lemma in_sync_remove e e' fd p c :
  in_sync e → reg_event_ e !! fd = Some (Some p) → reg_event_ e' = delete fd (reg_event_ e) →
  ctxs e' = <[p := c]> (ctxs e) → kernel e' = delete fd (kernel e) → in_sync e'.
Proof.
  intros [Ho Hi Hw] Hp Er Ec Ek. split; intros *; rewrite Er, ?Ec, ?Ek.
  - destruct (decide (fd0 = fd)) as [->|Hne]; [by rewrite !lookup_delete_eq|].
    rewrite !lookup_delete_ne by done. by apply Ho.
  - intros [Hne Hl]%lookup_delete_Some. destruct (Hi _ _ Hl) as (q & c' & d' & -> & Hq & Ht & Hk).
    exists q, c', d'. rewrite lookup_delete_ne by done.
    rewrite lookup_insert_ne by (intros <-; by apply Hne, (Hw _ _ _ Hp)). done.
  - intros [_ Hl]%lookup_delete_Some [_ Hl']%lookup_delete_Some. by eapply Hw.
Qed.

(** Without an overlapping registration nothing happens; otherwise the direction
    goes, and the descriptor with the last one. *)
Lemma CancelEvent_spec type fd e :
  in_sync e → valid_type type →
  ∃ e', CancelEvent type fd e = (Ok tt, e') ∧ in_sync e' ∧ wheel e' = wheel e ∧ loop_ e' = loop_ e ∧
    match overlapping e type fd with
    | None => e' = e
    | Some c => ∃ it, reg_event_ e !! fd = Some it ∧
        (if decide (without (type_ c) type = NONE)
         then reg_event_ e' = delete fd (reg_event_ e)
         else reg_event_ e' = reg_event_ e ∧
              ctx_of e' fd = Some (set_type (without (type_ c) type) c) ∧
              kernel e' !! fd = Some (events_of (without (type_ c) type), data_ptr it))
    end.
Proof.
  intros Hs Ht. unfold CancelEvent. rewrite bind_get. cbn beta. unfold overlapping.
  destruct (reg_event_ e !! fd) as [it|] eqn:Er; [|by exists e].
  destruct (sy_in _ Hs _ _ Er) as (p & c & d & -> & Hp & Hct & Hk).
  unfold ctx_at, mbind at 1, M_bind at 1. rewrite Hp.
  destruct (has (type_ c) type) eqn:Eh; [|by exists e]. cbn [negb].
  set (c' := if has type WRITE then _ else _).
  assert (type_ c' = without (type_ c) type) as Ec' by (unfold c', without; by destruct (has type READ), (has type WRITE)).
  assert (c' = set_type (without (type_ c) type) c) as Ec2.
  { unfold c', without, set_type. by destruct (has type READ), (has type WRITE), c. }
  rewrite Ec', Ec2. clear c' Ec' Ec2. set (c' := set_type _ c).
  unfold mbind, M_bind, modify.
  destruct (without_valid (type_ c) type Hct Ht Eh) as [Ew|[Hv Hev]].
  - rewrite decide_True by done. destruct (act _ _) as [o e2] eqn:E2.
    assert (o = Ok tt) as -> by by injection E2. apply kernel_act in E2 as [E2 Ek2].
    cbn [kernel_step] in Ek2. change (kernel (set_reg _ _)) with (kernel e) in Ek2.
    rewrite E2 in *. cbn in *. eexists. split; [done|]. split_and!; try done.
    + by eapply (in_sync_remove e _ fd p c').
    + exists (Some p). split; [done|]. rewrite ?decide_True by done. done.
  - assert (without (type_ c) type ≠ NONE) as Hn by (by destruct Hv as [-> | [-> | ->]]).
    rewrite decide_False by done. destruct (act _ _) as [o e2] eqn:E2.
    assert (o = Ok tt) as -> by by injection E2. apply kernel_act in E2 as [E2 Ek2].
    cbn [kernel_step] in Ek2. change (kernel (set_ctx _ _ e)) with (kernel e) in Ek2.
    rewrite Hk, <- Hev in Ek2. rewrite E2 in *. cbn in *. eexists. split; [done|]. split_and!; try done.
    + eapply (in_sync_set e _ fd p c'); try done; cbn.
      * intros fd' Hf. by eapply (sy_own _ Hs).
      * by rewrite insert_id.
    + exists (Some p). split; [done|]. rewrite ?decide_False by done. split; [done|]. split.
      * unfold ctx_of. cbn. by rewrite Er, lookup_insert_eq.
      * rewrite Ek2. by rewrite lookup_insert_eq.
Qed.

(** Afterwards the direction is gone and none has been added. *)
Lemma CancelEvent_types type fd e e' c' :
  in_sync e → valid_type type → CancelEvent type fd e = (Ok tt, e') → ctx_of e' fd = Some c' →
  has (type_ c') type = false ∧
  ∃ c, ctx_of e fd = Some c ∧ (has (type_ c) READ = false → has (type_ c') READ = false).
Proof.
  intros Hs Ht E Hc'. destruct (CancelEvent_spec type fd e Hs Ht) as (e1 & E1 & _ & _ & _ & H).
  rewrite E in E1. injection E1 as <-. unfold overlapping, ctx_of in *.
  destruct (reg_event_ e !! fd) as [it|] eqn:Er.
  - destruct (sy_in _ Hs _ _ Er) as (p & c & d & -> & Hp & Hct & _). rewrite Hp in H |- *.
    destruct (has (type_ c) type) eqn:Eh.
    + destruct H as (it & Hit & H). injection Hit as <-.
      destruct (without_valid _ _ Hct Ht Eh) as [Ew|[Hv _]].
      * rewrite decide_True in H by done. by rewrite H, lookup_delete_eq in Hc'.
      * rewrite decide_False in H by (by destruct Hv as [-> | [-> | ->]]).
        destruct H as (_ & Hc & _). rewrite Hc' in Hc. injection Hc as ->. cbn [type_ set_type].
        split; [|exists c; split; [done|]];
          destruct Hct as [-> | [-> | ->]], Ht as [-> | [-> | ->]]; done.
    + subst e'. rewrite Er, Hp in Hc'. injection Hc' as <-. split; [done|]. by exists c.
  - subst e'. by rewrite Er in Hc'.
Qed.

Definition op_ok (o : epoll_op) : Prop :=
  match o with
  | OpRegister type _ _ _ _ _ | OpCancel type _ => valid_type type
  | OpStop _ => True
  | OpTimer _ => False
  end.

Ltac by_ops := repeat apply Forall_cons_2; try apply Forall_nil_2; unfold op_ok, valid_type; auto.

Lemma exec_ops_in_sync getfl l e :
  in_sync e → Forall op_ok l → ∃ e', exec_ops getfl l e = (Ok tt, e') ∧ in_sync e'.
Proof.
  intros Hs Hl. revert e Hs. induction Hl as [|o l Ho _ IH]; intros e Hs; [by exists e|]. cbn [exec_ops].
  assert (∃ e', exec_op getfl o e = (Ok tt, e') ∧ in_sync e') as (e' & E & Hs').
  { destruct o as [type fd rf wf rc wc|type fd|o|v]; cbn [op_ok exec_op] in *; [| |done|].
    - destruct (RegisterEvent_spec getfl type fd rf wf rc wc e Hs Ho) as (e' & E & Hs' & _). by exists e'.
    - destruct (CancelEvent_spec type fd e Hs Ho) as (e' & E & Hs' & _). by exists e'.
    - eexists. split; [done|]. by destruct Hs. }
  rewrite (bind_ok _ _ _ _ _ E). by apply IH.
Qed.

Lemma Epoll_new_in_sync clock : in_sync (Epoll_new clock).
Proof. split; cbn; intros *; rewrite ?lookup_empty; done. Qed.

(** [C14] Invariant: from start-up, over any sequence of registrations and
    cancellations, in any order and on any descriptors, no call of [epoll_ctl]
    is refused for want of agreement and the kernel's interest list mirrors the
    table: exactly the descriptors of the table are on it, each waited for in
    exactly the directions its context says, and no two share a context. *)
Theorem interest_list_mirrors getfl clock l :
  Forall op_ok l →
  ∃ e, exec_ops getfl l (Epoll_new clock) = (Ok tt, e) ∧
    dom (kernel e) = dom (reg_event_ e) ∧
    (∀ fd it, reg_event_ e !! fd = Some it → ∃ p c d, it = Some p ∧ ctxs e !! p = Some c ∧
      valid_type (type_ c) ∧ kernel e !! fd = Some (events_of (type_ c), d)) ∧
    (∀ fd fd' it, reg_event_ e !! fd = Some it → reg_event_ e !! fd' = Some it → fd = fd').
Proof.
  intros Hl. destruct (exec_ops_in_sync getfl l _ (Epoll_new_in_sync clock) Hl) as (e & E & Hs).
  exists e. split; [done|]. destruct Hs as [Ho Hi Hw]. split; [|split; [done|]].
  - apply set_eq. intros fd. rewrite !elem_of_dom. destruct (reg_event_ e !! fd) as [it|] eqn:Er.
    + destruct (Hi _ _ Er) as (p & c & d & _ & _ & _ & ->). split; by eexists.
    + rewrite (Ho _ Er). split; by intros [? ?].
  - intros fd fd' it Hf Hf'. destruct (Hi _ _ Hf) as (p & _ & _ & -> & _). by eapply Hw.
Qed.

Lemma interest_list_mirrors_witness :
  let e := (exec_ops (λ _ _, 0) [OpRegister 5 7 (Some 1%nat) None None None; OpCancel READ 7;
              OpRegister READ 8 None None (Some 2%nat) None; OpRegister WRITE 8 None None None (Some 3%nat);
              OpCancel WRITE 8] (Epoll_new 0)).2 in dom (kernel e) = dom (reg_event_ e).
Proof.
  destruct (interest_list_mirrors (λ _ _, 0) 0
    [OpRegister 5 7 (Some 1%nat) None None None; OpCancel READ 7;
     OpRegister READ 8 None None (Some 2%nat) None; OpRegister WRITE 8 None None None (Some 3%nat);
     OpCancel WRITE 8]) as (e & E & Hd & _).
  - by_ops.
  - cbv zeta. rewrite E. exact Hd.
Defined.

(** ** Dispatch *)

(** Cancelling one of two directions stores the context's address where the
    loop expects the descriptor.  The next event of the other direction is
    looked up under the low half of the address: unless a descriptor of that
    number happens to be registered, its handler is never called and the loop
    dereferences the null pointer that [operator[]] just inserted. *)
Theorem partial_cancel_loses_fd getfl address script fd p c type e :
  in_sync e → reg_event_ e !! fd = Some (Some p) → ctxs e !! p = Some c →
  type_ c = Z.lor READ WRITE → type = READ ∨ type = WRITE →
  reg_event_ e !! wrap i32 (address p) = None →
  ∃ e', CancelEvent type fd e = (Ok tt, e') ∧
    kernel e' !! fd = Some (events_of (Z.lor READ WRITE - type), data_ptr (Some p)) ∧
    is_undef (handle_event getfl address script (data_ptr (Some p))
                (bool_decide (type = WRITE)) (bool_decide (type = READ)) e').1.
Proof.
  intros Hs Hr Hp Ht Hty Ha.
  assert (valid_type type) as Hv by (destruct Hty; [by left|by right; left]).
  assert (overlapping e type fd = Some c) as Ho.
  { unfold overlapping. rewrite Hr, Hp, Ht. by destruct Hty as [-> | ->]. }
  destruct (CancelEvent_spec type fd e Hs Hv) as (e' & E & _ & _ & _ & H).
  rewrite Ho in H. destruct H as (it & Hit & H). rewrite Hr in Hit. injection Hit as <-.
  rewrite decide_False in H by (rewrite Ht; by destruct Hty as [-> | ->]).
  destruct H as (Hreg & _ & Hk). exists e'. split; [done|]. split.
  - rewrite Hk, Ht. by destruct Hty as [-> | ->].
  - unfold handle_event. rewrite bind_get. cbn beta. cbn [read_fd]. rewrite Hreg, Ha.
    rewrite bind_modify. destruct Hty as [-> | ->]; cbn; by eexists.
Qed.

Lemma partial_cancel_loses_fd_witness :
  let e := (exec_ops (λ _ _, 0) [OpRegister 5 7 (Some 1%nat) (Some 2%nat) None None] (Epoll_new 0)).2 in
  ∃ e', CancelEvent READ 7 e = (Ok tt, e') ∧
    is_undef (handle_event (λ _ _, 0) (λ p, 93824992 + 64 * Zpos p) (λ _, ([], None))
                (data_ptr (Some 1%positive)) false true e').1.
Proof.
  cbv zeta. destruct (exec_ops_in_sync (λ _ _, 0) [OpRegister 5 7 (Some 1%nat) (Some 2%nat) None None]
    _ (Epoll_new_in_sync 0)) as (e & E & Hs).
  { by_ops. }
  assert (e = (exec_ops (λ _ _, 0) [OpRegister 5 7 (Some 1%nat) (Some 2%nat) None None] (Epoll_new 0)).2)
    as -> by by rewrite E.
  destruct (partial_cancel_loses_fd (λ _ _, 0) (λ p, 93824992 + 64 * Zpos p) (λ _, ([], None)) 7 1
    (mkCtx 5 (Some 1%nat) (Some 2%nat) None None) READ _ Hs) as (e' & E' & _ & Hu);
    [vm_compute; reflexivity|vm_compute; reflexivity|reflexivity|by left|vm_compute; reflexivity|].
  exists e'. split; [exact E'|exact Hu].
Defined.

(** The overload of [RegisterEvent] that takes a context of the caller stores its
    address as well: the table is right, but the next event is looked up under the
    low half of the address. *)
Lemma RegisterEvent_ptr_loses_fd getfl address script type fd p ev_in ev_out e :
  ev_in || ev_out = true → fd ≠ wrap i32 (address p) → reg_event_ e !! wrap i32 (address p) = None →
  ∃ e', RegisterEvent_ptr getfl type fd (Some p) e = (Ok tt, e') ∧ reg_event_ e' = <[fd := Some p]> (reg_event_ e) ∧
    (∃ op, last (trace e') = Some (Ctl op fd (events_of type) (data_ptr (Some p)))) ∧
    is_undef (handle_event getfl address script (data_ptr (Some p)) ev_in ev_out e').1.
Proof.
  intros Hev Hne Ha. destruct (set_nonblock_tables getfl fd e) as (e1 & E1 & (Hr1 & _ & _) & _).
  unfold RegisterEvent_ptr. run E1. rewrite bind_get, bind_modify. eexists. split; [done|]. cbn [reg_event_ trace set_reg].
  split; [by rewrite Hr1|]. split; [eexists; apply last_snoc|].
  unfold handle_event. rewrite bind_get. cbn [read_fd reg_event_ set_reg].
  rewrite lookup_insert_ne, Hr1, Ha, bind_modify by done. destruct ev_in, ev_out; (done || by eexists).
Qed.

(** ** The object of a thread *)

Lemma GetThreadEpoll_again n fds : ∀ fd, 0 ≤ n →
  foldl (λ t fd, GetThreadEpoll fd t) (mkThreadEpoll true n fd) fds =
    mkThreadEpoll true (n + Z.of_nat (length fds)) fd.
Proof.
  revert n. induction fds as [|fd' fds IH]; intros n fd Hn; cbn [foldl length].
  - f_equal. lia.
  - unfold GetThreadEpoll at 2. cbn [t_epoll_ reference_cnt_ epfd_]. rewrite IH by lia. f_equal. lia.
Qed.

(** The counter counts the calls of [GetThreadEpoll], the destructor runs once: the
    descriptor is closed at the end of the thread only if it was asked for once. *)
Lemma descriptor_closed_at_end fd fds :
  (Epoll_destroy (foldl (λ t fd, GetThreadEpoll fd t) ThreadEpoll_start (fd :: fds))).1 =
    match fds with [] => Some fd | _ => None end.
Proof.
  cbn [foldl]. change (GetThreadEpoll fd ThreadEpoll_start) with (mkThreadEpoll true 1 fd).
  rewrite GetThreadEpoll_again by lia. unfold Epoll_destroy. cbn [reference_cnt_ epfd_ fst].
  destruct fds as [|fd' fds]; [done|]. cbn [length]. by rewrite (proj2 (Z.eqb_neq _ _)) by lia.
Qed.

End EpollProps.
