(* ===== verification/Reactor.v ===== *)
(** * The event loop as its users see it

    What [Schedule::Eventloop] promises, apart from contexts in a heap, slots of
    a wheel and calls of [epoll_ctl]: a table of what is watched, a list of
    deadlines, and the order in which callbacks are called.  [ReactorProps]
    shows that [Epoll.Eventloop] implements it. *)

From S2P Require Import Prelude TimeWheel TimeWheelProps Epoll EpollProps.
Import TimeWheel TimeWheelProps Epoll.

Module Reactor.

Open Scope Z_scope.

(** [watch]: what each descriptor is registered for; [Some None] is a descriptor
    that was looked up when it was not registered.  [held]: the registration
    whose event is being handled, with its descriptor unless it has been
    cancelled meanwhile; its callbacks live on until the event is done. *)
Record Reactor := mkReactor {
  watch : gmap Z (option EventCtx);
  held : option (option Z * EventCtx);
  timers : pending;
  last : Z;
  calls : list payload;
  stopped : bool }.

Definition set_watch (t : gmap Z (option EventCtx)) (r : Reactor) : Reactor :=
  mkReactor t (held r) (timers r) (last r) (calls r) (stopped r).
Definition set_held (h : option (option Z * EventCtx)) (r : Reactor) : Reactor :=
  mkReactor (watch r) h (timers r) (last r) (calls r) (stopped r).
Definition set_timers (p : pending) (r : Reactor) : Reactor :=
  mkReactor (watch r) (held r) p (last r) (calls r) (stopped r).
Definition set_last (t : Z) (r : Reactor) : Reactor :=
  mkReactor (watch r) (held r) (timers r) t (calls r) (stopped r).
Definition called (p : payload) (r : Reactor) : Reactor :=
  mkReactor (watch r) (held r) (timers r) (last r) (calls r ++ [p]) (stopped r).
Definition set_stopped (v : bool) (r : Reactor) : Reactor :=
  mkReactor (watch r) (held r) (timers r) (last r) (calls r) v.

Definition Reactor_new (clock : Z) : Reactor := mkReactor ∅ None [] clock [] false.

(** What happens to the registration of [fd] happens to the held one if that is
    it; [fd'] is where it is registered afterwards. *)
Definition update_held (fd : Z) (fd' : option Z) (c : EventCtx) (r : Reactor) : Reactor :=
  match held r with
  | Some (Some x, _) => if decide (x = fd) then set_held (Some (fd', c)) r else r
  | _ => r
  end.

(** The second registration of a direction is ignored, that of another one
    replaces the first. *)
Definition register (type fd : Z) (c : EventCtx) : M Reactor unit :=
  r ← get;
  match watch r !! fd with
  | None => modify (set_watch (<[fd := Some c]> (watch r)))
  | Some None => undef "null EventCtx"
  | Some (Some old) =>
      if has (type_ old) type then mret tt
      else modify (λ r, update_held fd (Some fd) c (set_watch (<[fd := Some c]> (watch r)) r))
  end.

Definition cancel (type fd : Z) : M Reactor unit :=
  r ← get;
  match watch r !! fd with
  | None => mret tt
  | Some None => undef "null EventCtx"
  | Some (Some old) =>
      if negb (has (type_ old) type) then mret tt
      else
        let c := set_type (EpollProps.without (type_ old) type) old in
        if decide (type_ c = NONE)
        then modify (λ r, update_held fd None c (set_watch (delete fd (watch r)) r))
        else modify (λ r, update_held fd (Some fd) c (set_watch (<[fd := Some c]> (watch r)) r))
  end.

(** A timer is due at the tick of its timeout, a tick being a millisecond. *)
Definition add_timer (o : timer_op) : M Reactor unit :=
  match o with
  | OpAddTimer clock timeout f co times =>
      modify (λ r, set_timers (timers r ++ [(timeout, mkItem 0 timeout clock times f co)]) r)
  | OpSetGranularity _ => undef "ticks are milliseconds"
  end.

Definition do_op (o : epoll_op) : M Reactor unit :=
  match o with
  | OpRegister type fd rf wf rc wc => register type fd (mkCtx type rf wf rc wc)
  | OpCancel type fd => cancel type fd
  | OpTimer o => add_timer o
  | OpStop v => modify (set_stopped v)
  end.

Fixpoint do_ops (l : list epoll_op) : M Reactor unit :=
  match l with [] => mret tt | o :: l => do_op o;; do_ops l end.

Section Loop.
Context (script : payload → list epoll_op * option exn).

Definition call_back (p : payload) : M Reactor unit :=
  modify (called p);;
  do_ops (fst (script p));;
  match snd (script p) with Some e => raise e | None => mret tt end.

(** A callback goes before a coroutine. *)
Definition chosen (callback co : option nat) : option payload :=
  match callback, co with
  | Some f, _ => Some (Func f)
  | None, Some c => Some (Resume c)
  | None, None => None
  end.

Definition serve (p : option payload) : M Reactor unit :=
  match p with Some p => call_back p | None => mret tt end.

Definition on_held (f : EventCtx → option payload) : M Reactor unit :=
  r ← get;
  match held r with Some (_, c) => serve (f c) | None => mret tt end.

Definition reader (c : EventCtx) : option payload := chosen (r_callback_ c) (r_co_ c).
Definition writer (c : EventCtx) : option payload := chosen (w_callback_ c) (w_co_ c).

(** An event: first who reads is called, then who writes.  An event of a
    descriptor that is not watched, because a callback of the same turn has
    cancelled it, is undefined behaviour. *)
Definition event (fd : Z) (ev_in ev_out : bool) : M Reactor unit :=
  r ← get;
  match default None (watch r !! fd) with
  | None =>
      modify (set_watch (<[fd := None]> (watch r)));;
      if ev_in || ev_out then undef "null EventCtx" else mret tt
  | Some c =>
      modify (set_held (Some (Some fd, c)));;
      (if ev_in then on_held reader else mret tt);;
      (if ev_out then on_held writer else mret tt);;
      modify (set_held None)
  end.

Fixpoint events (evs : list (Z * bool * bool)) : M Reactor unit :=
  match evs with
  | [] => mret tt
  | (fd, i, o) :: evs => event fd i o;; events evs
  end.

Fixpoint call_back_all (ps : list payload) : M Reactor unit :=
  match ps with [] => mret tt | p :: ps => call_back p;; call_back_all ps end.

(** One millisecond: the due timers, in the order they were added. *)
Definition elapse : M Reactor unit :=
  r ← get;
  modify (set_timers (after 1 (timers r)));;
  call_back_all (due_at 0 (timers r)).

Fixpoint elapse_n (n : nat) : M Reactor unit :=
  match n with O => mret tt | S n => elapse;; elapse_n n end.

Definition advance_to (now : Z) : M Reactor unit :=
  r ← get;
  if decide (now ≤ last r) then mret tt
  else elapse_n (Z.to_nat (now - last r));; modify (set_last now).

(** Turns, each with the events reported and the time when they are done, until
    the loop is stopped. *)
Fixpoint run_turns (turns : list (list (Z * bool * bool) * Z)) : M Reactor unit :=
  match turns with
  | [] => nofuel
  | (evs, now) :: turns =>
      r ← get;
      if stopped r then mret tt else (events evs;; advance_to now);; run_turns turns
  end.

End Loop.
End Reactor.
