(* ===== verification/ReactorProps.v ===== *)
(** * The event loop implements its specification

    A simulation: the epoll object with its contexts, its wheel and its calls of
    the kernel against the table and the deadlines of [Reactor].  Callbacks, those
    of timers included, may use the whole object, so the relation holds at every
    call, also while the loop handles an event ([held]) and while a slot of the
    wheel is run ([in_tick]). *)

From S2P Require Import Prelude TimeWheel TimeWheelProps Epoll EpollProps Reactor.
Import TimeWheel TimeWheelProps Epoll Reactor.
Import EpollProps(valid_type, kernel, kernel_step, kernel_traced, set_nonblock_tables, without, without_valid, same_tables).

Module ReactorProps.

Open Scope Z_scope.

(** ** What a timer may be

    One-shot, with a callee.  A timeout one tick short of whole turns of the wheel
    is excluded: asked for by a timer callback, it is put into the slot that is
    being run ([self_rearming_callback_diverges]). *)
Definition timer_ok (o : timer_op) : Prop :=
  match o with
  | OpAddTimer clock timeout f co times =>
      times = 1 ∧ 0 ≤ timeout < 2 ^ 31 ∧ timeout mod 1000 ≠ 999 ∧
      is_Some (callee (mkItem 0 timeout clock 1 f co))
  | OpSetGranularity _ => False
  end.

Definition op_ok (o : epoll_op) : Prop :=
  match o with
  | OpRegister type _ _ _ _ _ | OpCancel type _ => valid_type type
  | OpTimer o => timer_ok o
  | OpStop _ => True
  end.

(** How a wheel stands for deadlines; callbacks may be logged and timers added. *)
Class TimersRel (T : TimeWheel → pending → Prop) : Prop := {
  tr_log w p q : T w p → T (log q w) p;
  tr_add w p clock t f co : T w p → timer_ok (OpAddTimer clock t f co 1) →
    ∃ w', AddTimer clock t f co 1 w = (Ok tt, w') ∧ T w' (p ++ [(t, mkItem 0 t clock 1 f co)]) ∧
      last_trigger_ w' = last_trigger_ w ∧ performed w' = performed w }.

(** ** Simulation *)

(** From [e] and [r] a computation ends as the specification does, whatever its
    fuel from some bound on, and leads to states related by [R]; [Q] relates
    those of a loop whose inputs have run out. *)
Definition simulates {C} (Q R : C → Reactor → Prop) (m : nat → M C unit) (s : M Reactor unit)
    (e : C) (r : Reactor) : Prop :=
  ∃ n e', (∀ fuel, (n ≤ fuel)%nat → m fuel e = ((s r).1, e')) ∧
    ((s r).1 = Ok tt → R e' (s r).2) ∧ ((s r).1 = NoFuel → Q e' (s r).2).

Section Simulates.
Context {C : Type} (Q : C → Reactor → Prop).
Implicit Types (R : C → Reactor → Prop) (m : nat → M C unit) (s : M Reactor unit).

Lemma simulates_bind R1 R2 m1 m2 s1 s2 e r :
  simulates Q R1 m1 s1 e r → (∀ e' r', R1 e' r' → simulates Q R2 m2 s2 e' r') →
  simulates Q R2 (λ n, m1 n;; m2 n) (s1;; s2) e r.
Proof.
  intros (n1 & e1 & E1 & H1 & HQ) H2. unfold simulates, mbind, M_bind in *.
  destruct (s1 r) as [[[]| | |] r1] eqn:Es; cbn [fst snd] in *.
  - destruct (H2 e1 r1 (H1 eq_refl)) as (n2 & e2 & E2 & HR & HQ2).
    exists (n1 `max` n2)%nat, e2. split; [|done]. intros n Hn.
    rewrite E1 by lia. apply E2. lia.
  - exists n1, e1. split; [|done]. intros n Hn. by rewrite E1.
  - exists n1, e1. split; [|done]. intros n Hn. by rewrite E1.
  - exists n1, e1. split; [|by auto]. intros n Hn. by rewrite E1.
Qed.

Lemma simulates_done R m s e r e' r' :
  (∀ n, m n e = (Ok tt, e')) → s r = (Ok tt, r') → R e' r' → simulates Q R m s e r.
Proof. intros Em Es HR. exists 0%nat, e'. rewrite Es. done. Qed.

(** A step without a loop. *)
Lemma simulates_step R (m : M C unit) s e r e' r' :
  m e = (Ok tt, e') → s r = (Ok tt, r') → R e' r' → simulates Q R (λ _, m) s e r.
Proof. intros Em Es HR. exists 0%nat, e'. rewrite Es. done. Qed.

Lemma simulates_undef R (m : M C unit) s e r e' r' w :
  m e = (Undef w, e') → s r = (Undef w, r') → simulates Q R (λ _, m) s e r.
Proof. intros Em Es. exists 0%nat, e'. rewrite Es. done. Qed.

(** The code may have gone on to [e1] already. *)
Lemma simulates_from R m m' s s' e e1 r :
  (∀ n, m n e = m' n e1) → s r = s' r → simulates Q R m' s' e1 r → simulates Q R m s e r.
Proof.
  intros Hm Hs (n & e' & E & H). exists n, e'. rewrite Hs. split; [|done]. intros k Hk. rewrite Hm. by apply E.
Qed.

Lemma simulates_ext R m m' s s' e r :
  (∀ n, m n e = m' n e) → s r = s' r → simulates Q R m' s' e r → simulates Q R m s e r.
Proof. apply simulates_from. Qed.

Lemma simulates_fuel R m s e r :
  simulates Q R (λ n, m (S n)) s e r → simulates Q R m s e r.
Proof.
  intros (n & e' & E & H). exists (S n), e'. split; [|done]. intros [|k] Hk; [lia|]. apply E. lia.
Qed.

Lemma simulates_mono R R' m s e r :
  (∀ e r, R e r → R' e r) → simulates Q R m s e r → simulates Q R' m s e r.
Proof. intros HR (n & e' & E & H & HQ). exists n, e'. auto. Qed.

(** Steps of the specification alone. *)
Lemma simulates_before R m s f e r :
  simulates Q R m s e (f r) → simulates Q R m (modify f;; s) e r.
Proof. done. Qed.

Lemma simulates_after R R' m s f e r :
  (∀ e r, R e r → R' e (f r)) → simulates Q R m s e r → simulates Q R' m (s;; modify f) e r.
Proof.
  intros HR (n & e' & E & H & HQ). exists n, e'. unfold mbind, M_bind.
  destruct (s r) as [[[]| | |] r']; cbn in *; split_and!; (done || auto).
Qed.
End Simulates.

(** Between the object and its base class. *)
Lemma of_as_base e : of_base (as_base e) = e.
Proof. by destruct e as [[] ? ? ? ?]. Qed.

Lemma simulates_on_base Q R m s e r :
  simulates (λ b, Q (of_base b)) (λ b, R (of_base b)) m s (as_base e) r →
  simulates Q R (λ n, on_base (m n)) s e r.
Proof.
  intros (n & b & E & HR & HQ). exists n, (of_base b). split; [|done].
  intros k Hk. unfold on_base. by rewrite E.
Qed.

Lemma simulates_from_base Q R m s b r :
  simulates Q R m s (of_base b) r →
  simulates (λ b, Q (of_base b)) (λ b, R (of_base b)) (λ n, from_base (m n)) s b r.
Proof.
  intros (n & e & E & HR & HQ). exists n, (as_base e). rewrite of_as_base. split; [|done].
  intros k Hk. unfold from_base. by rewrite E.
Qed.

(** ** The relation between the states *)

(** The entry of a descriptor: nothing, a null pointer, or a context. *)
Definition entry_matches (e : Epoll) (fd : Z) (x : option (option EventCtx)) : Prop :=
  match reg_event_ e !! fd with
  | None => x = None
  | Some None => x = Some None
  | Some (Some p) => ∃ c, ctxs e !! p = Some c ∧ x = Some (Some c)
  end.

(** [h]: the pointer the loop holds while it handles an event. *)
Definition held_matches (h : option ptr) (e : Epoll) (x : option (option Z * EventCtx)) : Prop :=
  match h, x with
  | None, None => True
  | Some p, Some (at_fd, c) =>
      ctxs e !! p = Some c ∧ ∀ fd, reg_event_ e !! fd = Some (Some p) ↔ at_fd = Some fd
  | _, _ => False
  end.

(** The kernel waits for what is watched. *)
Definition kernel_matches (k : option (interest * epoll_data)) (x : option (option EventCtx)) : Prop :=
  match x with
  | Some (Some c) => valid_type (type_ c) ∧ ∃ d, k = Some (events_of (type_ c), d)
  | _ => k = None
  end.

Record matches (T : TimeWheel → pending → Prop) (h : option ptr) (e : Epoll) (r : Reactor) : Prop := {
  ma_watch : ∀ fd, entry_matches e fd (watch r !! fd);
  ma_kernel : ∀ fd, kernel_matches (kernel e !! fd) (watch r !! fd);
  ma_own : ∀ fd fd' p, reg_event_ e !! fd = Some (Some p) → reg_event_ e !! fd' = Some (Some p) → fd = fd';
  ma_held : held_matches h e (held r);
  ma_timers : T (wheel e) (timers r);
  ma_last : last_trigger_ (wheel e) = last r;
  ma_calls : performed (wheel e) = calls r;
  ma_stopped : loop_ e = stopped r }.

(** A table with an entry kept or taken out. *)
Definition keep_if (b : bool) {A} (fd : Z) (x : A) (m : gmap Z A) : gmap Z A :=
  if b then <[fd := x]> m else delete fd m.

Lemma lookup_keep_ne b {A} fd fd' (x : A) m : fd' ≠ fd → keep_if b fd x m !! fd' = m !! fd'.
Proof. intros. unfold keep_if. destruct b; [by rewrite lookup_insert_ne|by rewrite lookup_delete_ne]. Qed.

Lemma lookup_keep_eq b {A} fd (x : A) m : keep_if b fd x m !! fd = if b then Some x else None.
Proof. unfold keep_if. destruct b; [by rewrite lookup_insert_eq|by rewrite lookup_delete_eq]. Qed.

Section Tables.
Context (T : TimeWheel → pending → Prop) (h : option ptr).
Implicit Types (e : Epoll) (r : Reactor).

(** Of the trace only what the kernel makes of it matters. *)
Lemma matches_same e e' r :
  wheel e' = wheel e → same_tables e e' → loop_ e' = loop_ e →
  matches T h e r → matches T h e' r.
Proof.
  intros Hw (Hr & Hc & Hk) Hl []. split; unfold entry_matches, held_matches in *; rewrite ?Hw, ?Hr, ?Hc, ?Hk, ?Hl; done.
Qed.

Lemma matches_entry e r fd x :
  matches T h e r → reg_event_ e !! fd = x →
  match x with
  | None => watch r !! fd = None
  | Some None => watch r !! fd = Some None
  | Some (Some p) => ∃ c, ctxs e !! p = Some c ∧ watch r !! fd = Some (Some c)
  end.
Proof. intros Hm <-. apply (ma_watch _ _ _ _ Hm fd). Qed.

Lemma kernel_matches_keep b e r fd c d fd' :
  (∀ fd, kernel_matches (kernel e !! fd) (watch r !! fd)) → (b = true → valid_type (type_ c)) →
  kernel_matches (keep_if b fd (events_of (type_ c), d) (kernel e) !! fd')
    (keep_if b fd (Some c) (watch r) !! fd').
Proof.
  intros Hk Hc. destruct (decide (fd' = fd)) as [->|Hne]; [|by rewrite !lookup_keep_ne].
  rewrite !lookup_keep_eq. destruct b; [|done]. split; [by apply Hc|by exists d].
Qed.

(** A new context. *)
Lemma matches_new e e' r fd p c d :
  matches T h e r → reg_event_ e !! fd = None → ctxs e !! p = None → valid_type (type_ c) →
  reg_event_ e' = <[fd := Some p]> (reg_event_ e) → ctxs e' = <[p := c]> (ctxs e) →
  kernel e' = <[fd := (events_of (type_ c), d)]> (kernel e) → wheel e' = wheel e → loop_ e' = loop_ e →
  matches T h e' (set_watch (<[fd := Some c]> (watch r)) r).
Proof.
  intros [Hw Hk Ho Hh ? ? ? ?] Hfd Hp Hv Er Ec Ek Ew El.
  assert (∀ fd', reg_event_ e !! fd' ≠ Some (Some p)) as Hfresh.
  { intros fd' E. specialize (Hw fd'). unfold entry_matches in Hw. rewrite E in Hw. destruct Hw as (? & ? & _). congruence. }
  split; rewrite ?Er, ?Ec, ?Ek, ?Ew, ?El; try done; cbn.
  - intros fd'. specialize (Hw fd'). unfold entry_matches in *. rewrite Er, Ec.
    destruct (decide (fd' = fd)) as [->|Hne].
    + rewrite !lookup_insert_eq. by exists c.
    + rewrite !lookup_insert_ne by done. destruct (reg_event_ e !! fd') as [[q|]|] eqn:E; try done.
      rewrite lookup_insert_ne; [done|]. intros <-. by apply (Hfresh fd').
  - intros fd'. by apply (kernel_matches_keep true).
  - intros fd1 fd2 q [[<- E1]|[? H1]]%lookup_insert_Some [[<- E2]|[? H2]]%lookup_insert_Some.
    + done.
    + injection E1 as <-. by apply Hfresh in H2.
    + injection E2 as <-. by apply Hfresh in H1.
    + by eapply Ho.
  - destruct h as [q|], (held r) as [[o c']|]; cbn in Hh |- *; try done. destruct Hh as [Hq Hh].
    assert (q ≠ p) as Hqp by congruence. rewrite Er, Ec, lookup_insert_ne by done. split; [done|]. intros fd'.
    rewrite <- Hh. destruct (decide (fd' = fd)) as [->|Hne]; [|by rewrite lookup_insert_ne].
    rewrite lookup_insert_eq. split; [congruence|]. by rewrite Hfd.
Qed.

Lemma update_held_fields fd o c r :
  watch (update_held fd o c r) = watch r ∧ timers (update_held fd o c r) = timers r ∧
  last (update_held fd o c r) = last r ∧ calls (update_held fd o c r) = calls r ∧
  stopped (update_held fd o c r) = stopped r.
Proof. unfold update_held. destruct (held r) as [[[x|] ?]|]; try done. by destruct (decide _). Qed.

(** The pointer held may be the one written through. *)
Lemma held_write b e e' r fd p c :
  held_matches h e (held r) → reg_event_ e !! fd = Some (Some p) →
  (∀ fd', reg_event_ e !! fd' = Some (Some p) → fd' = fd) →
  reg_event_ e' = keep_if b fd (Some p) (reg_event_ e) → ctxs e' = <[p := c]> (ctxs e) →
  held_matches h e' (held (update_held fd (if b then Some fd else None) c r)).
Proof.
  intros Hh Hp Ho Er Ec. unfold update_held.
  destruct h as [q|], (held r) as [[o c']|] eqn:Eh; cbn in Hh |- *; try done; [|by rewrite Eh].
  destruct Hh as [Hq Hh]. destruct (decide (q = p)) as [->|Hqp].
  - pose proof (proj1 (Hh fd) Hp) as ->. rewrite decide_True by done. cbn.
    rewrite Er, Ec, lookup_insert_eq. split; [done|]. intros fd'.
    destruct (decide (fd' = fd)) as [->|Hne]; [rewrite lookup_keep_eq; by destruct b|].
    rewrite lookup_keep_ne by done. split; [by intros ?%Ho|]. destruct b; congruence.
  - assert (o ≠ Some fd) as Hof by (intros ->; specialize (Hh fd); intuition congruence).
    set (r' := match o with Some _ => _ | None => _ end).
    assert (held r' = Some (o, c')) as ->.
    { unfold r'. destruct o as [z|]; [|done]. by rewrite decide_False by congruence. }
    cbn. rewrite Er, Ec, lookup_insert_ne by done. split; [done|]. intros fd'. rewrite <- Hh.
    destruct (decide (fd' = fd)) as [->|Hne]; [|by rewrite lookup_keep_ne].
    rewrite lookup_keep_eq. destruct b; intuition congruence.
Qed.

(** A context written through the pointer of its descriptor, which stays
    registered or not. *)
Lemma matches_write b e e' r fd p c d :
  matches T h e r → reg_event_ e !! fd = Some (Some p) → (b = true → valid_type (type_ c)) →
  reg_event_ e' = keep_if b fd (Some p) (reg_event_ e) → ctxs e' = <[p := c]> (ctxs e) →
  kernel e' = keep_if b fd (events_of (type_ c), d) (kernel e) → wheel e' = wheel e → loop_ e' = loop_ e →
  matches T h e' (update_held fd (if b then Some fd else None) c (set_watch (keep_if b fd (Some c) (watch r)) r)).
Proof.
  intros [Hw Hk Ho Hh ? ? ? ?] Hp Hv Er Ec Ek Ew El.
  assert (∀ fd', reg_event_ e !! fd' = Some (Some p) → fd' = fd) as Hown by (intros fd' E; by apply (Ho _ _ p)).
  assert (held_matches h e' (held (update_held fd (if b then Some fd else None) c
    (set_watch (keep_if b fd (Some c) (watch r)) r)))) by by eapply held_write.
  destruct (update_held_fields fd (if b then Some fd else None) c (set_watch (keep_if b fd (Some c) (watch r)) r))
    as (E1 & E2 & E3 & E4 & E5).
  split; rewrite ?E1, ?E2, ?E3, ?E4, ?E5, ?Er, ?Ek, ?Ew, ?El; try done; cbn.
  - intros fd'. specialize (Hw fd'). unfold entry_matches in *. rewrite Er, Ec.
    destruct (decide (fd' = fd)) as [->|Hne].
    + rewrite !lookup_keep_eq. destruct b; [|done]. exists c. by rewrite lookup_insert_eq.
    + rewrite !lookup_keep_ne by done.
      destruct (reg_event_ e !! fd') as [[q|]|] eqn:E; try done. rewrite lookup_insert_ne; [done|].
      intros <-. by apply Hne, Hown.
  - intros fd'. by apply kernel_matches_keep.
  - intros fd1 fd2 q H1 H2. apply (Ho fd1 fd2 q).
    + destruct (decide (fd1 = fd)) as [->|]; [|by rewrite lookup_keep_ne in H1].
      rewrite lookup_keep_eq in H1. destruct b; [congruence|done].
    + destruct (decide (fd2 = fd)) as [->|]; [|by rewrite lookup_keep_ne in H2].
      rewrite lookup_keep_eq in H2. destruct b; [congruence|done].
Qed.
End Tables.

Lemma matches_wheel T T' h w p c l e r :
  matches T h e r → T' w p → last_trigger_ w = l → performed w = c →
  matches T' h (set_wheel w e) (mkReactor (watch r) (held r) p l c (stopped r)).
Proof. by intros []. Qed.

(** ** The calls on the object *)

(** What the two conditional statements of [CancelEvent] make of a context. *)
Lemma cancelled_ctx c type :
  set_type (without (type_ c) type) c =
    (let c := if has type READ then set_type (Z.ldiff (type_ c) READ) c else c in
     if has type WRITE then set_type (Z.ldiff (type_ c) WRITE) c else c).
Proof. unfold without, set_type. by destruct (has type READ), (has type WRITE), c. Qed.

Section Operations.
Context (getfl : list action → Z → Z) (Q : Epoll → Reactor → Prop).
Context (T : TimeWheel → pending → Prop) `{!TimersRel T} (h : option ptr).
Implicit Types (e : Epoll) (r : Reactor).

(** Through the pointer of a registered descriptor. *)
Lemma ctx_at_bind (p : ptr) c e (f : ptr * EventCtx → M Epoll unit) :
  ctxs e !! p = Some c → (ctx_at (Some p) ≫= f) e = f (p, c) e.
Proof. intros Hp. unfold ctx_at, mbind, M_bind. by rewrite Hp. Qed.

Lemma kernel_entry e r fd c : matches T h e r → watch r !! fd = Some (Some c) →
  valid_type (type_ c) ∧ is_Some (kernel e !! fd).
Proof.
  intros Hm Hw. pose proof (ma_kernel _ _ _ _ Hm fd) as Hk. rewrite Hw in Hk.
  destruct Hk as [Hv (d & ->)]. split; [done|by eexists].
Qed.

Lemma register_simulates type fd rf wf rc wc e r :
  valid_type type → matches T h e r →
  simulates Q (matches T h) (λ _, RegisterEvent getfl type fd rf wf rc wc)
    (register type fd (mkCtx type rf wf rc wc)) e r.
Proof.
  intros Hv Hm. destruct (set_nonblock_tables getfl fd e) as (e1 & E1 & Ht & Hw & Hl).
  apply (matches_same _ _ _ e1) in Hm; [|done..]. clear Ht Hw Hl. set (c := mkCtx _ _ _ _ _).
  destruct (reg_event_ e1 !! fd) as [[p|]|] eqn:Er; pose proof (matches_entry _ _ _ _ _ _ Hm Er) as Hwa.
  - destruct Hwa as (old & Hp & Hwa). destruct (kernel_entry _ _ _ _ Hm Hwa) as (_ & k & Hk).
    eapply (simulates_step _ _ _ _ _ _ (if has (type_ old) type then e1 else _) (if has (type_ old) type then r else _)).
    + unfold RegisterEvent. run E1. rewrite bind_get, Er, (ctx_at_bind _ _ _ _ Hp). by destruct (has _ _).
    + unfold register. rewrite bind_get, Hwa. by destruct (has _ _).
    + destruct (has _ _); [done|]. apply (matches_write T h true e1 _ r fd p c (data_fd fd)); try done.
      * cbn. by rewrite insert_id.
      * rewrite kernel_traced. cbn [kernel_step]. change (foldl _ ∅ (trace _)) with (kernel e1). by rewrite Hk.
  - eapply simulates_undef.
    + unfold RegisterEvent. run E1. rewrite bind_get, Er. done.
    + unfold register. by rewrite bind_get, Hwa.
  - eapply simulates_step.
    + unfold RegisterEvent. run E1. rewrite bind_get, Er. done.
    + unfold register. by rewrite bind_get, Hwa.
    + apply (matches_new T h e1 _ r fd (fresh (dom (ctxs e1))) c (data_fd fd)); try done.
      * apply not_elem_of_dom, is_fresh.
      * pose proof (ma_kernel _ _ _ _ Hm fd) as Hk. rewrite Hwa in Hk.
        rewrite kernel_traced. cbn [kernel_step]. change (foldl _ ∅ (trace _)) with (kernel e1). by rewrite Hk.
Qed.

Lemma cancel_simulates type fd e r :
  valid_type type → matches T h e r → simulates Q (matches T h) (λ _, CancelEvent type fd) (cancel type fd) e r.
Proof.
  intros Hv Hm. destruct (reg_event_ e !! fd) as [[p|]|] eqn:Er; pose proof (matches_entry _ _ _ _ _ _ Hm Er) as Hwa.
  - destruct Hwa as (old & Hp & Hwa). destruct (kernel_entry _ _ _ _ Hm Hwa) as (Hvo & k & Hk).
    destruct (has (type_ old) type) eqn:Eh.
    2: { eapply simulates_step; [| |done].
      - unfold CancelEvent. by rewrite bind_get, Er, (ctx_at_bind _ _ _ _ Hp), Eh.
      - unfold cancel. by rewrite bind_get, Hwa, Eh. }
    set (c := set_type (without (type_ old) type) old).
    eapply (simulates_step _ _ _ _ _ _ (if decide (type_ c = NONE) then _ else _)
      (if decide (type_ c = NONE) then _ else _)).
    + unfold CancelEvent. rewrite bind_get, Er, (ctx_at_bind _ _ _ _ Hp), Eh. cbn zeta. cbn [negb].
      pose proof (cancelled_ctx old type) as Ec. cbn zeta in Ec. rewrite <- Ec. fold c. by destruct (decide (type_ c = NONE)).
    + unfold cancel. rewrite bind_get, Hwa, Eh. cbn zeta. fold c. cbn [negb]. by destruct (decide (type_ c = NONE)).
    + destruct (without_valid _ _ Hvo Hv Eh) as [Ew|[Hvw Hev]].
      * rewrite !decide_True by done. apply (matches_write T h false e _ r fd p c (data_fd fd)); try done.
        by rewrite kernel_traced.
      * assert (type_ c ≠ NONE) as Hn by (by destruct Hvw as [E | [E | E]]; cbn; rewrite E).
        rewrite !decide_False by done.
        apply (matches_write T h true e _ r fd p c (data_ptr (Some p))); try done.
        { cbn. by rewrite insert_id. }
        rewrite kernel_traced. cbn [kernel_step]. change (foldl _ ∅ (trace _)) with (kernel e).
        rewrite Hk. cbn [keep_if type_ set_type c]. by rewrite <- Hev.
  - eapply simulates_undef.
    + unfold CancelEvent. rewrite bind_get, Er. done.
    + unfold cancel. by rewrite bind_get, Hwa.
  - eapply simulates_step; [| |done].
    + unfold CancelEvent. by rewrite bind_get, Er.
    + unfold cancel. by rewrite bind_get, Hwa.
Qed.

Lemma do_op_simulates o e r :
  op_ok o → matches T h e r → simulates Q (matches T h) (λ _, exec_op getfl o) (do_op o) e r.
Proof.
  intros Ho Hm. destruct o as [type fd rf wf rc wc|type fd|o|v]; cbn [exec_op do_op].
  - by apply register_simulates.
  - by apply cancel_simulates.
  - destruct o as [clock t f co times|g]; [|done]. destruct Ho as (-> & Ht).
    destruct (tr_add (wheel e) (timers r) clock t f co (ma_timers _ _ _ _ Hm) (conj eq_refl Ht)) as (w' & E & HT & El & Ep).
    eapply simulates_step; [unfold on_wheel; cbn [exec_timer_op]; by rewrite E|done|].
    apply (matches_wheel T); [done|done|rewrite El; apply Hm|rewrite Ep; apply Hm].
  - eapply simulates_step; [done|done|]. by destruct Hm.
Qed.

Lemma do_ops_simulates l e r :
  Forall op_ok l → matches T h e r → simulates Q (matches T h) (λ _, exec_ops getfl l) (do_ops l) e r.
Proof.
  intros Hl. revert e r. induction Hl as [|o l Ho _ IH]; intros e r Hm; [by eapply simulates_step|].
  apply (simulates_bind Q (matches T h) _ (λ _, exec_op getfl o) (λ _, exec_ops getfl l)); [by apply do_op_simulates|].
  intros e' r' Hm'. by apply IH.
Qed.

Context (script : payload → list epoll_op * option exn) (Hscript : ∀ p, Forall op_ok (script p).1).

Lemma call_back_simulates p e r :
  matches T h e r → simulates Q (matches T h) (λ _, perform_event getfl script p) (call_back script p) e r.
Proof.
  intros Hm. unfold perform_event, call_back.
  apply (simulates_bind Q (matches T h) _ (λ _, on_wheel (modify (log p)))
    (λ _, exec_ops getfl (script p).1;; match (script p).2 with Some x => raise x | None => mret tt end)).
  - eapply simulates_step; [done|done|].
    apply (matches_wheel T); [done|apply tr_log, Hm|apply Hm|cbn; f_equal; apply Hm].
  - clear e r Hm. intros e r Hm.
    apply (simulates_bind Q (matches T h) _ (λ _, exec_ops getfl (script p).1)
      (λ _, match (script p).2 with Some x => raise x | None => mret tt end)); [by apply do_ops_simulates|].
    intros e' r' Hm'. destruct (script p).2; [|by eapply simulates_step].
    exists 0%nat, e'. done.
Qed.
End Operations.

(** ** The events of a turn *)

Section Events.
Context (getfl : list action → Z → Z) (address : ptr → Z) (Q : Epoll → Reactor → Prop).
Context (T : TimeWheel → pending → Prop) `{!TimersRel T}.
Context (script : payload → list epoll_op * option exn) (Hscript : ∀ p, Forall op_ok (script p).1).
Implicit Types (e : Epoll) (r : Reactor).

Lemma dispatch_chosen f co e :
  dispatch getfl script f co e =
    match chosen f co with Some p => perform_event getfl script p e | None => (Ok tt, e) end.
Proof. by destruct f, co. Qed.

(** One direction of an event, through the pointer held. *)
Lemma direction_simulates (b : bool) (f : EventCtx → option nat * option nat) p e r :
  matches T (Some p) e r →
  simulates Q (matches T (Some p))
    (λ _, if b then '(_, c) ← ctx_at (Some p); dispatch getfl script (f c).1 (f c).2 else mret tt)
    (if b then on_held script (λ c, chosen (f c).1 (f c).2) else mret tt) e r.
Proof.
  intros Hm. destruct b; [|by eapply simulates_step].
  pose proof (ma_held _ _ _ _ Hm) as Hh. destruct (held r) as [[o c]|] eqn:Er; [|done]. destruct Hh as [Hp _].
  assert (∀ n : nat, ('(_, c) ← ctx_at (Some p); dispatch getfl script (f c).1 (f c).2) e =
    dispatch getfl script (f c).1 (f c).2 e) as E.
  { intros _. unfold ctx_at, mbind, M_bind. by rewrite Hp. }
  eapply (simulates_ext _ _ _ (λ _, dispatch getfl script (f c).1 (f c).2) _ (serve script (chosen (f c).1 (f c).2)));
    [exact E|unfold on_held; by rewrite bind_get, Er|].
  destruct (chosen (f c).1 (f c).2) as [q|] eqn:Eq.
  - eapply (simulates_ext _ _ _ (λ _, perform_event getfl script q)); [|done|by apply call_back_simulates].
    intros _. by rewrite dispatch_chosen, Eq.
  - eapply simulates_step; [by rewrite dispatch_chosen, Eq|done|done].
Qed.

Lemma matches_hold e r fd p c :
  matches T None e r → reg_event_ e !! fd = Some (Some p) → ctxs e !! p = Some c →
  matches T (Some p) e (set_held (Some (Some fd, c)) r).
Proof.
  intros [] Hr Hc. split; try done. split; [done|]. intros fd'. split; [|by intros [= <-]].
  intros Hr'. f_equal. eauto.
Qed.

Lemma matches_release h e r : matches T h e r → matches T None e (set_held None r).
Proof. by intros []. Qed.

Lemma matches_leave_null e r fd :
  matches T None e r → default None (reg_event_ e !! fd) = None →
  matches T None (set_reg (<[fd := None]> (reg_event_ e)) e) (set_watch (<[fd := None]> (watch r)) r).
Proof.
  intros [Hw Hk Ho Hh] Hn. split; try done; cbn.
  - intros fd'. specialize (Hw fd'). unfold entry_matches in *. cbn. destruct (decide (fd' = fd)) as [->|Hne].
    + by rewrite !lookup_insert_eq.
    + by rewrite !lookup_insert_ne by done.
  - intros fd'. specialize (Hk fd'). specialize (Hw fd'). change (kernel (set_reg _ e)) with (kernel e).
    destruct (decide (fd' = fd)) as [->|Hne]; [|by rewrite lookup_insert_ne].
    rewrite lookup_insert_eq. unfold entry_matches in Hw.
    by destruct (reg_event_ e !! fd) as [[]|]; simplify_eq/=; rewrite Hw in Hk.
  - intros fd1 fd2 q [[_ ?]|[_ H1]]%lookup_insert_Some [[_ ?]|[_ H2]]%lookup_insert_Some; [done..|]. by eapply Ho.
Qed.

Lemma event_simulates d i o e r :
  matches T None e r →
  simulates Q (matches T None) (λ _, handle_event getfl address script d i o)
    (event script (read_fd address d) i o) e r.
Proof.
  intros Hm. set (fd := read_fd address d).
  destruct (default None (reg_event_ e !! fd)) as [p|] eqn:Er.
  - assert (reg_event_ e !! fd = Some (Some p)) as Hr by by destruct (reg_event_ e !! fd) as [[]|]; simplify_eq/=.
    destruct (matches_entry _ _ _ _ _ _ Hm Hr) as (c & Hc & Hwa).
    eapply (simulates_ext _ _ _
      (λ _, (if i then '(_, c) ← ctx_at (Some p); dispatch getfl script (r_callback_ c) (r_co_ c) else mret tt);;
            (if o then '(_, c) ← ctx_at (Some p); dispatch getfl script (w_callback_ c) (w_co_ c) else mret tt)) _
      (modify (set_held (Some (Some fd, c)));;
       (if i then on_held script reader else mret tt);;
       (if o then on_held script writer else mret tt);; modify (set_held None))).
    + intros _. unfold handle_event. rewrite bind_get. cbn beta zeta. fold fd. rewrite Er, bind_modify, insert_id by done.
      by destruct e.
    + unfold event. by rewrite bind_get, Hwa.
    + apply simulates_before.
      apply (simulates_bind Q (matches T (Some p)) _ (λ _, if i then _ else _) (λ _, if o then _ else _)).
      * apply (direction_simulates i (λ c, (r_callback_ c, r_co_ c))). by apply matches_hold.
      * intros e' r' Hm'. apply (simulates_after _ (matches T (Some p))); [intros ? ?; apply matches_release|].
        by apply (direction_simulates o (λ c, (w_callback_ c, w_co_ c))).
  - assert (default None (watch r !! fd) = None) as Hwa.
    { destruct (reg_event_ e !! fd) as [[]|] eqn:Ef; [done| |].
      - by rewrite (matches_entry _ _ _ _ _ _ Hm Ef).
      - by rewrite (matches_entry _ _ _ _ _ _ Hm Ef). }
    destruct (i || o) eqn:Eio; [eapply simulates_undef|eapply simulates_step; [..|by apply matches_leave_null]].
    + unfold handle_event. rewrite bind_get. cbn beta zeta. fold fd. rewrite Er, bind_modify.
      by destruct i, o.
    + unfold event. by rewrite bind_get, Hwa, bind_modify, Eio.
    + unfold handle_event. rewrite bind_get. cbn beta zeta. fold fd. rewrite Er, bind_modify.
      by destruct i, o.
    + unfold event. by rewrite bind_get, Hwa, bind_modify, Eio.
Qed.

(** What the loop reads of what [epoll_wait] reports. *)
Definition seen (x : epoll_data * bool * bool) : Z * bool * bool := (read_fd address x.1.1, x.1.2, x.2).

Lemma events_simulates evs e r :
  matches T None e r →
  simulates Q (matches T None) (λ _, handle_events getfl address script evs) (events script (seen <$> evs)) e r.
Proof.
  revert e r. induction evs as [|[[d i] o] evs IH]; intros e r Hm; [by eapply simulates_step|].
  apply (simulates_bind Q (matches T None) _ (λ _, handle_event getfl address script d i o)
    (λ _, handle_events getfl address script evs)); [by apply event_simulates|].
  intros e' r' Hm'. by apply IH.
Qed.
End Events.

(** ** The timers *)

(** Between calls of [ExecuteTimeout]. *)
Definition at_rest (w : TimeWheel) (p : pending) : Prop :=
  represents w p ∧ granularity_ w = 1 ∧ slots_ w = 1000.

(** While slot [s] is run: it holds [l], and nothing is added to it; [q] is what
    it is to hold in the end. *)
Record in_tick (s : Z) (l q : list TimeoutItem) (w : TimeWheel) (p : pending) : Prop := {
  it_wf : well_formed w;
  it_granularity : granularity_ w = 1;
  it_slots : slots_ w = 1000;
  it_ok : Forall entry_ok p;
  it_slot : 0 ≤ s < 1000;
  it_current : current_slot w = (s + 1) mod 1000;
  it_others s' : 0 ≤ s' < 1000 → s' ≠ s → slot w s' = in_slot 1000 ((s' - current_slot w) mod 1000) p;
  it_here : slot w s = l;
  it_later : in_slot 1000 999 p = q }.

Lemma entry_ok_timer clock t f co :
  timer_ok (OpAddTimer clock t f co 1) → entry_ok (t, mkItem 0 t clock 1 f co).
Proof. intros (_ & Ht & _ & Hc). split_and!; cbn; [lia|done|done]. Qed.

#[global] Instance at_rest_rel : TimersRel at_rest.
Proof.
  split.
  - intros w p q ([Hwf Hok Hsl] & Hg & Hn). split; [|done]. split; [by apply wf_log|done|exact Hsl].
  - intros w p clock t f co (Hr & Hg & Hn) (_ & Ht & _ & Hc).
    destruct (AddTimer_refines clock t f co w p Hr Ht Hc) as (w' & E & Hr' & Hp & Hg' & Hl & Hs).
    exists w'. rewrite Hg, Z.div_1_r in Hr'. unfold at_rest. rewrite Hg', Hs. done.
Qed.

(** Where a timer goes. *)
Lemma AddTimer_slot clock t f co (w : TimeWheel) :
  well_formed w → granularity_ w = 1 → slots_ w = 1000 → 0 ≤ t < 2 ^ 31 →
  let s := (current_slot w + t) mod 1000 in
  AddTimer clock t f co 1 w =
    (Ok tt, set_slot s (slot w s ++ [set_remaining (t / 1000) (mkItem 0 t clock 1 f co)]) w).
Proof.
  intros Hwf Hg Hn Ht s. pose proof (wf_current _ Hwf) as Hc. rewrite Hn in Hc.
  unfold AddTimer. mgo. rewrite Hg, Hn, udiv_ok by lia. mgo. rewrite Z.div_1_r, udiv_ok by lia. mgo.
  assert (0 ≤ t / 1000 ≤ t) by (split; [apply Z.div_pos; lia|apply Z.div_le_upper_bound; lia]).
  rewrite (wrap_id u64), (wrap_id i32), (wrap_id i32) by (try done; unfold in_range, imin, imax; cbn; lia).
  by rewrite umod_ok by lia.
Qed.

#[global] Instance in_tick_rel s l q : TimersRel (in_tick s l q).
Proof.
  split.
  - intros w p x []. split; try done. by apply wf_log.
  - intros w p clock t f co [Hwf Hg Hn Hok Hs Hcur Hot Hhere Hlat] Ht.
    pose proof (entry_ok_timer _ _ _ _ Ht) as He. destruct Ht as (_ & Ht & H999 & Hc).
    pose proof (AddTimer_slot clock t f co w Hwf Hg Hn Ht) as E. cbn zeta in E.
    set (s1 := (current_slot w + t) mod 1000) in *. pose proof (Z.mod_pos_bound (current_slot w + t) 1000 ltac:(lia)) as Hs1.
    fold s1 in Hs1.
    assert (∀ s' : Z, 0 ≤ s' < 1000 → (s' = s1 ↔ t mod 1000 = (s' - current_slot w) mod 1000)) as Hpos.
    { intros s' Hs'. split; intros E1.
      - rewrite E1. unfold s1. rewrite Zminus_mod_idemp_l. f_equal. lia.
      - unfold s1. rewrite <- Zplus_mod_idemp_r, E1, Zplus_mod_idemp_r.
        replace (current_slot w + (s' - current_slot w)) with s' by lia. by rewrite Z.mod_small. }
    assert (s1 ≠ s) as Hne.
    { intros E1. apply H999. symmetry in E1. apply Hpos in E1 as ->; [|done]. rewrite Hcur, Zminus_mod_idemp_r.
      replace (s - (s + 1)) with (-1) by lia. done. }
    eexists. split; [exact E|]. split; [|done]. split; cbn; try done.
    + by apply wf_set_slot.
    + apply Forall_app. split; [done|]. by apply Forall_singleton.
    + intros s' Hs' Hne'. unfold in_slot. rewrite omap_app. fold (in_slot 1000 ((s' - current_slot w) mod 1000) p). cbn.
      destruct (decide (s' = s1)) as [->|Hns].
      * rewrite slot_set_slot by (apply wf_slot_lt; [done|lia]). rewrite Hot by done. f_equal.
        by rewrite decide_True by by apply Hpos.
      * rewrite slot_set_slot_ne by lia. rewrite Hot by done.
        rewrite decide_False by (by intros ?%Hpos). by rewrite app_nil_r.
    + rewrite slot_set_slot_ne by lia. done.
    + unfold in_slot. rewrite omap_app. fold (in_slot 1000 999 p). rewrite Hlat. cbn.
      rewrite decide_False by done. by rewrite app_nil_r.
Qed.

Lemma at_rest_in_tick w p :
  at_rest w p →
  let s := current_slot w in let items := in_slot 1000 0 p in
  in_tick s items (survivors items) (set_current ((s + 1) mod 1000) w) (after 1 p).
Proof.
  intros ([Hwf Hok Hsl] & Hg & Hn) s items. pose proof (wf_current _ Hwf) as Hc. fold s in Hc.
  rewrite Hn in Hc, Hsl. split; try done.
  - apply wf_set_current; [done|]. rewrite Hn. apply Z.mod_pos_bound. lia.
  - by apply after_ok.
  - intros s' Hs' Hne. change (slot (set_current _ w) s') with (slot w s'). rewrite Hsl by done.
    change (current_slot (set_current ?c w)) with c. rewrite slot_distance, decide_False by done.
    apply in_slot_step; [lia|done|]. pose proof (Z.mod_pos_bound (s' - s) 1000 ltac:(lia)).
    assert ((s' - s) mod 1000 ≠ 0); [|fold s; lia]. intros E. apply Hne.
    pose proof (Z.div_mod (s' - s) 1000 ltac:(lia)).
    assert (-1 < (s' - s) / 1000 < 1); [split; nia|nia].
  - change (slot (set_current _ w) s) with (slot w s). rewrite Hsl by done. fold s. by rewrite Z.sub_diag.
  - symmetry. by apply survivors_in_slot.
Qed.

Lemma in_tick_at_rest s l w p : in_tick s l l w p → at_rest w p.
Proof.
  intros [Hwf Hg Hn Hok Hs Hcur Hot Hhere Hlat]. split; [|done]. split; [done|done|].
  rewrite Hn. intros s' Hs'. destruct (decide (s' = s)) as [->|Hne]; [|by apply Hot].
  rewrite Hhere, <- Hlat. f_equal. rewrite Hcur, Zminus_mod_idemp_r.
  by replace (s - (s + 1)) with (-1) by lia.
Qed.

Lemma in_tick_set s l l' q w p : in_tick s l q w p → in_tick s l' q (set_slot s l' w) p.
Proof.
  intros [Hwf Hg Hn Hok Hs Hcur Hot Hhere Hlat]. split; cbn; try done.
  - by apply wf_set_slot.
  - intros s' Hs' Hne. rewrite slot_set_slot_ne by lia. by apply Hot.
  - apply slot_set_slot. apply wf_slot_lt; [done|lia].
Qed.

Section Timers.
Context (getfl : list action → Z → Z).
Context (script : payload → list epoll_op * option exn) (Hscript : ∀ p, Forall op_ok (script p).1).
Implicit Types (b : TimeWheelOf Epoll) (r : Reactor).

(** The relation of the whole loop. *)
Abbreviation related := (matches at_rest None).
Abbreviation from_b R := (λ b, R (of_base b)).
Abbreviation callb := (λ p, from_base (perform_event getfl script p)).

Lemma in_tick_length s l q b r :
  matches (in_tick s l q) None (of_base b) r → (Z.to_nat s < length (wheel_ b))%nat ∧ slot b s = l.
Proof.
  intros Hm. pose proof (ma_timers _ _ _ _ Hm) as [Hwf _ Hn _ Hs _ _ Hh _]. split; [|exact Hh].
  apply (wf_slot_lt (wheel (of_base b))); [done|lia].
Qed.

(** The slot is written. *)
Lemma matches_slot s l l' q b r :
  matches (in_tick s l q) None (of_base b) r →
  matches (in_tick s l' q) None (of_base (set_slot s l' b)) r.
Proof.
  intros Hm. pose proof (in_tick_set s l l' q _ _ (ma_timers _ _ _ _ Hm)) as Ht.
  destruct r. apply (matches_wheel _ (in_tick s l' q) _ _ _ _ _ _ _ Hm Ht); apply Hm.
Qed.

(** One due item: it is called and taken off the slot, and the iterator stays. *)
Lemma due_simulates s i p kept items q m b r sp :
  Forall one_shot (i :: items) → remaining_ticks_ i = 0 → callee i = Some p →
  matches (in_tick s (kept ++ i :: items) q) None (of_base b) r →
  (∀ b' r', matches (in_tick s (kept ++ items) q) None (of_base b') r' →
    simulates (from_b related) (from_b related) m sp b' r') →
  simulates (from_b related) (from_b related)
    (λ n, visit callb s (length kept) i;; m n) (call_back script p;; sp) b r.
Proof.
  intros Hi H0 Hp Hm Hrest. inversion Hi as [|? ? (H1 & _ & _) _]; subst.
  destruct (in_tick_length _ _ _ _ _ Hm) as [Hlen Hsl]. set (k := length kept).
  set (b1 := set_slot s (kept ++ set_remaining (-1) i :: items) b).
  apply (simulates_from _ _ _ (λ n, callb p;;
    (set_item s k (set_repeat 0 (set_remaining (-1) i));; erase s k;; m n)) _ (call_back script p;; sp) b b1); [|done|].
  - intros n. unfold mbind at 1, M_bind at 1. rewrite (visit_due _ _ _ _ _ p) by done.
    run (set_item_spec s k (set_remaining (-1) i) b). unfold k.
    rewrite Hsl, insert_app_r_alt, Nat.sub_diag by done. cbn [insert list_insert]. fold b1 k.
    unfold mbind, M_bind. by destruct (from_base _ b1) as [[[]| | |] ?].
  - apply (simulates_bind _ (from_b (matches (in_tick s (kept ++ set_remaining (-1) i :: items) q) None)) _
      (λ _, callb p) (λ n, set_item s k (set_repeat 0 (set_remaining (-1) i));; erase s k;; m n)).
    { apply (simulates_from_base _ _ (λ _, perform_event getfl script p)), call_back_simulates; [apply _|done|].
      by eapply matches_slot. }
    intros b2 r2 Hm2. destruct (in_tick_length _ _ _ _ _ Hm2) as [Hlen2 Hsl2].
    apply (simulates_from _ _ _ m _ sp b2 (set_slot s (kept ++ items) b2)); [|done|].
    + intros n. run (set_item_spec s k (set_repeat 0 (set_remaining (-1) i)) b2). unfold k.
      rewrite (bind_ok _ _ _ _ _ (erase_spec _ _ _)), slot_set_slot, set_slot_set_slot by done.
      rewrite Hsl2, insert_app_r_alt, Nat.sub_diag by done. cbn [insert list_insert].
      by rewrite delete_middle.
    + apply Hrest. by eapply matches_slot.
Qed.

Lemma slot_loop_simulates s items : ∀ kept b r,
  Forall one_shot items →
  matches (in_tick s (kept ++ items) (kept ++ survivors items)) None (of_base b) r →
  simulates (from_b related) (from_b related) (λ n, slot_loop callb n s (length kept))
    (call_back_all script (fired items)) b r.
Proof.
  induction items as [|i items IH]; intros kept b r Hi Hm;
    destruct (in_tick_length _ _ _ _ _ Hm) as [Hlen Hsl]; apply simulates_fuel; cbn [slot_loop].
  - cbn [survivors omap list_omap] in Hm. rewrite app_nil_r in Hm, Hsl.
    eapply simulates_done; [|done|].
    + intros n. mgo. unfold item_at. rewrite Hsl, lookup_ge_None_2 by done. done.
    + destruct Hm. split; try done. by eapply in_tick_at_rest.
  - inversion Hi as [|? ? (H1 & [p Hp] & Hr) Hi']; subst.
    destruct (decide (remaining_ticks_ i = 0)) as [E0|E0].
    + rewrite (survivors_due _ _ E0) in Hm. rewrite (fired_due _ _ p E0 Hp).
      eapply (simulates_ext _ _ _ (λ n, visit callb s (length kept) i;; slot_loop callb n s (length kept)) _
        (call_back script p;; call_back_all script (fired items))); [|done|].
      * intros n. mgo. unfold item_at. rewrite Hsl, list_lookup_middle by done.
        unfold mbind at 1, M_bind at 1. symmetry. unfold mbind at 1, M_bind at 1.
        rewrite (visit_due callb s (length kept) i b p H1 Hp E0). unfold mbind, M_bind, set_item, modify, erase.
        by destruct (from_base _ _) as [[[]| | |] ?].
      * apply (due_simulates s i p kept items (kept ++ survivors items)); [done..|]. intros b' r' Hm'. by apply IH.
    + rewrite (survivors_wait _ _ E0) in Hm. rewrite (fired_wait _ _ E0).
      set (i' := set_remaining (remaining_ticks_ i - 1) i) in *.
      apply (simulates_from _ _ _ (λ n, slot_loop callb n s (length (kept ++ [i']))) _ (call_back_all script (fired items)) b
        (set_slot s (kept ++ i' :: items) b)); [|done|].
      * intros n. mgo. unfold item_at. rewrite Hsl, list_lookup_middle by done.
        run (visit_wait callb s kept i items b Hlen Hsl ltac:(lia)). fold i'.
        by rewrite length_app.
      * apply IH; [done|]. rewrite <- !app_assoc. by eapply matches_slot.
Qed.

Lemma tick_simulates b r :
  related (of_base b) r →
  simulates (from_b related) (from_b related) (λ n, tick callb n) (elapse script) b r.
Proof.
  intros Hm. pose proof (ma_timers _ _ _ _ Hm) as Ht. pose proof Ht as (Hrep & _ & Hn).
  pose proof (at_rest_in_tick _ _ Ht) as Hit. pose proof (wf_current _ (rep_wf _ _ Hrep)) as Hc.
  set (s := current_slot b). set (items := in_slot 1000 0 (timers r)) in *.
  set (b1 := set_current ((s + 1) mod 1000) b).
  apply (simulates_from _ _ _ (λ n, slot_loop callb n s (length (@nil TimeoutItem))) _
    (modify (set_timers (after 1 (timers r)));; call_back_all script (fired items)) b b1).
  - intros n. unfold tick. mgo. fold s. rewrite Hn in Hc. change (current_slot (wheel (of_base b))) with s in Hc.
    change (slots_ (wheel (of_base b))) with (slots_ b) in Hn. rewrite Hn.
    rewrite (wrap_id u64), umod_ok by (try done; try lia; unfold in_range, imin, imax; cbn; lia). done.
  - unfold elapse. rewrite bind_get. unfold items. rewrite fired_in_slot; [done|lia|apply Hrep].
  - apply simulates_before, slot_loop_simulates.
    + apply in_slot_one_shot; [lia|apply Hrep].
    + destruct r. apply (matches_wheel _ _ _ _ _ _ _ _ _ Hm Hit); apply Hm.
Qed.

Lemma tick_loop_simulates k b r :
  related (of_base b) r →
  simulates (from_b related) (from_b related) (λ n, tick_loop callb n k) (elapse_n script k) b r.
Proof.
  revert b r. induction k as [|k IH]; intros b r Hm; [by eapply simulates_step|].
  apply (simulates_bind _ (from_b related) _ (λ n, tick callb n) (λ n, tick_loop callb n k)); [by apply tick_simulates|].
  intros b' r' Hm'. by apply IH.
Qed.

Lemma ExecuteTimeout_simulates now e r :
  related e r →
  simulates related related (λ n, on_base (ExecuteTimeout callb n now)) (advance_to script now) e r.
Proof.
  intros Hm. pose proof (ma_timers _ _ _ _ Hm) as (_ & Hg & _). pose proof (ma_last _ _ _ _ Hm) as Hl.
  apply simulates_on_base. change (granularity_ (wheel e)) with (granularity_ (as_base e)) in Hg.
  change (last_trigger_ (wheel e)) with (last_trigger_ (as_base e)) in Hl. rewrite <- (of_as_base e) in Hm.
  set (b := as_base e) in *. destruct (decide (now ≤ last r)) as [Hle|Hgt].
  - eapply (simulates_done _ _ _ _ _ _ b r); [| |done].
    + intros n. unfold ExecuteTimeout. mgo. rewrite Hl. by rewrite decide_True by done.
    + unfold advance_to. rewrite bind_get. by rewrite decide_True by done.
  - apply (simulates_ext _ _ _ (λ n, tick_loop callb n (Z.to_nat (now - last r));; modify (set_trigger now)) _
      (elapse_n script (Z.to_nat (now - last r));; modify (set_last now))).
    + intros n. unfold ExecuteTimeout. mgo. rewrite Hl, Hg. rewrite decide_False by done.
      rewrite udiv_ok, Z.div_1_r by lia. done.
    + unfold advance_to. rewrite bind_get. by rewrite decide_False by done.
    + apply (simulates_bind _ (from_b related) _ (λ n, tick_loop callb n _) (λ _, modify (set_trigger now)));
        [by apply tick_loop_simulates|].
      intros b' r' Hm'. eapply simulates_step; [done|done|].
      destruct r'. eapply (matches_wheel _ _ _ (set_trigger now (wheel (of_base b'))) _ _ _ _ _ Hm').
      * pose proof (ma_timers _ _ _ _ Hm') as ([Hwf Hok Hsl] & Hg' & Hn'). split; [|done].
        split; [by destruct Hwf|done|exact Hsl].
      * done.
      * apply Hm'.
Qed.
End Timers.

(** ** The loop *)

Section Loop.
Context (getfl : list action → Z → Z) (address : ptr → Z).
Context (script : payload → list epoll_op * option exn) (Hscript : ∀ p, Forall op_ok (script p).1).
Abbreviation related := (matches at_rest None).

Definition turn_seen (t : loop_input) : list (Z * bool * bool) * Z := (seen address <$> reported t, now_after t).

(** Before the events only the clock is read and the call to wait recorded. *)
Lemma wait_step t e r :
  related e r → ∃ e' : Epoll, related e' r ∧ ∀ m : M Epoll unit,
    (timeout ← wait_timeout (now_before t); act (Wait timeout);; m) e = m e'.
Proof.
  intros Hm. unfold wait_timeout, on_wheel, GetNextTimeout.
  destruct (decide (now_before t < last_trigger_ (wheel e))) as [Hd|Hd].
  - eexists. split; [|intros m; unfold mbind, M_bind, get; rewrite decide_True by done; reflexivity].
    apply (matches_same _ _ e); try done. split; [done|]. split; [done|]. apply kernel_traced.
  - eexists. split; [|intros m; unfold mbind, M_bind, get; rewrite decide_False by done; reflexivity].
    apply (matches_same _ _ e); try done. split; [done|]. split; [done|]. apply kernel_traced.
Qed.

Lemma turn_simulates t e r :
  related e r →
  simulates related related (λ n, Eventloop_turn getfl address script n t)
    (events script (turn_seen t).1;; advance_to script (turn_seen t).2) e r.
Proof.
  intros Hm. destruct (wait_step t e r Hm) as (e1 & Hm1 & E).
  eapply (simulates_from _ _ _ (λ n, handle_events getfl address script (reported t);;
    on_base (ExecuteTimeout (λ p, from_base (perform_event getfl script p)) n (now_after t)))); [|done|].
  - intros n. apply E.
  - apply (simulates_bind _ related _ (λ _, handle_events getfl address script (reported t))
      (λ n, on_base (ExecuteTimeout _ n (now_after t)))); [by apply events_simulates; [apply _|..]|].
    intros e' r' Hm'. by apply ExecuteTimeout_simulates.
Qed.

Lemma Eventloop_simulates turns e r :
  related e r →
  simulates related related (λ n, Eventloop getfl address script n turns)
    (run_turns script (turn_seen <$> turns)) e r.
Proof.
  revert e r. induction turns as [|t turns IH]; intros e r Hm.
  - exists 0%nat, e. done.
  - pose proof (ma_stopped _ _ _ _ Hm) as Hs. destruct (stopped r) eqn:Er.
    + eapply (simulates_done _ _ _ _ _ _ e r); [| |done].
      * intros n. cbn [Eventloop]. unfold Stoped. rewrite bind_assoc. mgo. by rewrite Hs.
      * cbn [fmap list_fmap run_turns]. unfold turn_seen at 1. rewrite bind_get. by rewrite Er.
    + apply (simulates_ext _ _ _ (λ n, Eventloop_turn getfl address script n t;; Eventloop getfl address script n turns) _
        ((events script (turn_seen t).1;; advance_to script (turn_seen t).2);; run_turns script (turn_seen <$> turns))).
      * intros n. cbn [Eventloop]. unfold Stoped. rewrite bind_assoc. mgo. by rewrite Hs.
      * cbn [fmap list_fmap run_turns]. unfold turn_seen at 1. rewrite bind_get. by rewrite Er.
      * apply (simulates_bind _ related _ (λ n, Eventloop_turn getfl address script n t)
          (λ n, Eventloop getfl address script n turns)); [by apply turn_simulates|].
        intros e' r' Hm'. by apply IH.
Qed.
End Loop.

Lemma Epoll_new_matches clock : matches at_rest None (Epoll_new clock) (Reactor_new clock).
Proof.
  split; try done. destruct (TimeWheel_new_represents 1000 1 clock) as (Hr & _); [lia..|]. done.
Qed.

(** [C3] Refinement: the event loop, with its contexts in a heap, its wheel of
    slots and its calls of [epoll_ctl], implements [Reactor]: a table of what is
    watched and a list of deadlines.  What is registered beforehand, and what the
    callbacks do, those of timers included, are any calls that register or cancel
    a descriptor for reading, writing or both, stop the loop or add a timer that is
    [timer_ok]: one-shot, with something to call, and a timeout below [2^31] that
    is not one tick short of whole turns of the wheel (999 modulo 1000; a timer
    callback that adds such a one can make the loop diverge,
    [self_rearming_callback_diverges], or be called at once,
    [second_nap_ends_at_once]); callbacks may also throw.  Whatever the readings
    of the clock and the events reported, the loop then makes the same calls in the
    same order as [Reactor]: in each turn those for the events as reported, each
    looked up when its turn comes, then every timer whose deadline has passed,
    once, in the order of deadlines (which count from the last turn, not from the
    clock, as in [timers_refinement]); and the kernel waits for exactly what is
    then watched.  It returns when it is stopped, and not before; an exception of a
    callback ends it; it crashes only on an event or a registration of a descriptor
    that was looked up after a callback of the same turn had cancelled it.  Under
    these conditions on the timers every turn ends. *)
Theorem Eventloop_refines getfl address script clock setup turns :
  Forall op_ok setup → (∀ p, Forall op_ok (script p).1) →
  let spec := (do_ops setup;; run_turns script (turn_seen address <$> turns)) (Reactor_new clock) in
  ∃ fuel e, (∀ n, (fuel ≤ n)%nat →
      (exec_ops getfl setup;; Eventloop getfl address script n turns) (Epoll_new clock) = (spec.1, e)) ∧
    (spec.1 = Ok tt ∨ spec.1 = NoFuel → matches at_rest None e spec.2).
Proof.
  intros Hsetup Hscript spec.
  assert (simulates (matches at_rest None) (matches at_rest None)
    (λ n, exec_ops getfl setup;; Eventloop getfl address script n turns)
    (do_ops setup;; run_turns script (turn_seen address <$> turns)) (Epoll_new clock) (Reactor_new clock))
    as (fuel & e & E & HR & HQ).
  { apply (simulates_bind _ (matches at_rest None) _ (λ _, exec_ops getfl setup)
      (λ n, Eventloop getfl address script n turns)).
    - apply do_ops_simulates; [apply _|done|apply Epoll_new_matches].
    - intros e r Hm. by apply Eventloop_simulates. }
  exists fuel, e. split; [done|]. intros [H|H]; [by apply HR|by apply HQ].
Qed.

(** A reader that sets a timer and stops watching, a sleeper that is woken and
    stops the loop. *)
Definition sample_script (p : payload) : list epoll_op * option exn :=
  match p with
  | Func 1 => ([OpTimer (OpAddTimer 1 3 (Some 3%nat) None 1); OpCancel READ 7], None)
  | Resume 2 => ([OpRegister WRITE 9 None None None (Some 2%nat); OpStop true], None)
  | _ => ([], None)
  end.
Definition sample_turns : list loop_input :=
  [LoopInput 0 [(data_fd 7, true, false)] 1; LoopInput 1 [] 10; LoopInput 10 [(data_fd 9, false, true)] 11].

Lemma Eventloop_refines_witness :
  ∃ fuel e, (∀ n, (fuel ≤ n)%nat →
    (exec_ops (λ _ _, 0) [OpRegister READ 7 (Some 1%nat) None None None; OpTimer (OpAddTimer 0 5 None (Some 2%nat) 1)];;
     Eventloop (λ _ _, 0) Zpos sample_script n sample_turns) (Epoll_new 0) = (Ok tt, e)) ∧
    performed (wheel e) = [Func 1; Func 3; Resume 2] ∧ is_Some (reg_event_ e !! 9).
Proof.
  destruct (Eventloop_refines (λ _ _, 0) Zpos sample_script 0
    [OpRegister READ 7 (Some 1%nat) None None None; OpTimer (OpAddTimer 0 5 None (Some 2%nat) 1)] sample_turns)
    as (fuel & e & E & Hm).
  - repeat constructor; (done || by eexists).
  - intros [[|[|[]]]|[|[|[|]]]]; repeat constructor; (done || by eexists).
  - exists fuel, e. split; [exact E|]. specialize (Hm (or_introl eq_refl)). split.
    + rewrite (ma_calls _ _ _ _ Hm). reflexivity.
    + pose proof (ma_watch _ _ _ _ Hm 9) as H. unfold entry_matches in H.
      destruct (reg_event_ e !! 9) as [x|]; [by eexists|]. vm_compute in H. discriminate H.
Defined.

(** When two descriptors are reported in one turn and the callback of the first
    cancels the second, the loop dereferences a null pointer. *)
Lemma cancelled_event_crashes :
  ((exec_ops (λ _ _, 0) [OpRegister READ 7 (Some 1%nat) None None None; OpRegister READ 8 (Some 2%nat) None None None];;
    Eventloop (λ _ _, 0) Zpos (λ p, if decide (p = Func 1) then ([OpCancel READ 8], None) else ([], None)) 5
      [LoopInput 0 [(data_fd 7, true, false); (data_fd 8, true, false)] 1]) (Epoll_new 0)).1
    = Undef "null EventCtx".
Proof. vm_compute. reflexivity. Qed.

End ReactorProps.
