(* ===== verification/ReactorLive.v ===== *)
(** * Deadlines are met, and events answered

    On the specification of the event loop, whatever the callbacks do: a timer is
    not lost, and it is called by the first turn whose clock has passed its
    deadline.  If they spare the registration of a descriptor for an event, every
    report of the event calls whoever is registered. *)

From S2P Require Import Prelude TimeWheel TimeWheelProps Epoll EpollProps Reactor.
Import TimeWheel TimeWheelProps Epoll Reactor.

Module ReactorLive.

Open Scope Z_scope.

(** A computation that ends in some way, and when it returns has taken its state
    to one related by [P]. *)
Definition runs {A} (P : Reactor → Reactor → Prop) (m : M Reactor A) : Prop :=
  ∀ r, match m r with
       | (Ok _, r') => P r r'
       | (NoFuel, _) => False
       | _ => True
       end.

Lemma runs_bind {A B} P `{!Transitive P} (m : M Reactor A) (f : A → M Reactor B) :
  runs P m → (∀ a, runs P (f a)) → runs P (m ≫= f).
Proof.
  intros Hm Hf r. specialize (Hm r). unfold mbind, M_bind. destruct (m r) as [[a| | |] r1]; try done.
  specialize (Hf a r1). destruct (f a r1) as [[b| | |] r2]; try done. by etrans.
Qed.

Lemma runs_get {A} P (f : Reactor → M Reactor A) :
  (∀ r, match f r r with (Ok _, r') => P r r' | (NoFuel, _) => False | _ => True end) → runs P (get ≫= f).
Proof. intros H r. exact (H r). Qed.

Lemma runs_ret {A} P `{!Reflexive P} (a : A) : runs P (mret a).
Proof. intros r. change (P r r). reflexivity. Qed.

Lemma runs_modify P f : (∀ r, P r (f r)) → runs P (modify f).
Proof. intros H r. exact (H r). Qed.

Lemma runs_if {A} P (b : bool) (m1 m2 : M Reactor A) : runs P m1 → runs P m2 → runs P (if b then m1 else m2).
Proof. by destruct b. Qed.

Lemma runs_seq {A B} (P P1 P2 : Reactor → Reactor → Prop) (m : M Reactor A) (f : A → M Reactor B) :
  (∀ r1 r2 r3, P1 r1 r2 → P2 r2 r3 → P r1 r3) → runs P1 m → (∀ a, runs P2 (f a)) → runs P (m ≫= f).
Proof.
  intros HP Hm Hf r. specialize (Hm r). unfold mbind, M_bind. destruct (m r) as [[a| | |] r1]; try done.
  specialize (Hf a r1). destruct (f a r1) as [[b| | |] r2]; try done. by eapply HP.
Qed.

Lemma runs_weaken {A} (P P' : Reactor → Reactor → Prop) (m : M Reactor A) :
  (∀ r r', P r r' → P' r r') → runs P m → runs P' m.
Proof. intros HP Hm r. specialize (Hm r). destruct (m r) as [[]]; auto. Qed.

Lemma runs_and {A} (P P' : Reactor → Reactor → Prop) (m : M Reactor A) :
  runs P m → runs P' m → runs (λ r r', P r r' ∧ P' r r') m.
Proof. intros H H' r. specialize (H r). specialize (H' r). destruct (m r) as [[]]; done. Qed.

(** What every call leaves: the timers there are, the calls made, the clock. *)
Definition grows (r r' : Reactor) : Prop :=
  timers r ⊆ timers r' ∧ calls r ⊆ calls r' ∧ last r' = last r.

#[global] Instance grows_preorder : PreOrder grows.
Proof.
  split.
  - by intros r.
  - intros r1 r2 r3 (T1 & C1 & L1) (T2 & C2 & L2). split; [by etrans|]. split; [by etrans|congruence].
Qed.

Lemma grows_update_held fd o c r t : grows r (update_held fd o c (set_watch t r)).
Proof. unfold update_held. cbn. destruct (held r) as [[[x|] ?]|]; try done. by destruct (decide _). Qed.

Lemma do_op_grows o : runs grows (do_op o).
Proof.
  destruct o as [type fd rf wf rc wc|type fd|[clock t f co times|g]|v]; cbn [do_op add_timer].
  - apply runs_get. intros r. destruct (watch r !! fd) as [[old|]|]; try done.
    destruct (has _ _); [done|]. apply grows_update_held.
  - apply runs_get. intros r. destruct (watch r !! fd) as [[old|]|]; try done.
    destruct (negb _); [done|]. cbn zeta. destruct (decide _); apply grows_update_held.
  - apply runs_modify. intros r. split; [|done]. cbn. by apply list_subseteq_app_l.
  - done.
  - done.
Qed.

Lemma do_ops_grows l : runs grows (do_ops l).
Proof.
  induction l as [|o l IH]; [apply runs_ret, _|]. apply runs_bind; [apply _|apply do_op_grows|done].
Qed.

Section Loop.
Context (script : payload → list epoll_op * option exn).

(** A callback is on record once it is called. *)
Lemma call_back_grows p : runs (λ r r', grows r r' ∧ p ∈ calls r') (call_back script p).
Proof.
  intros r. unfold call_back. rewrite bind_modify.
  assert (runs grows (do_ops (script p).1;; match (script p).2 with Some e => raise e | None => mret tt end)) as H.
  { apply runs_bind; [apply _|apply do_ops_grows|]. intros _. by destruct (script p).2. }
  revert H. set (m := (do_ops (script p).1;; match (script p).2 with Some e => raise e | None => mret tt end) : M Reactor unit).
  intros H. specialize (H (called p r)). destruct (m (called p r)) as [[[]| | |] r']; try done.
  destruct H as (HT & HC & HL). split; [|apply HC; cbn; apply elem_of_app; right; by left].
  split; [done|]. split; [|done]. etrans; [|exact HC]. cbn. by apply list_subseteq_app_l.
Qed.

Lemma serve_grows p : runs grows (serve script p).
Proof.
  destruct p as [p|]; [|apply runs_ret, _]. eapply runs_weaken; [|apply call_back_grows]. by intros r r' [? _].
Qed.

Lemma on_held_grows f : runs grows (on_held script f).
Proof.
  apply runs_get. intros r. destruct (held r) as [[o c]|]; [|done]. apply serve_grows.
Qed.

Lemma event_grows fd i o : runs grows (event script fd i o).
Proof.
  apply runs_get. intros r. destruct (default None (watch r !! fd)) as [c|].
  - assert (runs grows (modify (set_held (Some (Some fd, c)));;
      (if i then on_held script reader else mret tt);;
      (if o then on_held script writer else mret tt);; modify (set_held None))) as H; [|exact (H r)].
    repeat (apply runs_bind; [apply _| |intros _]); try done; (apply runs_if; [apply on_held_grows|apply runs_ret, _]).
  - rewrite bind_modify. by destruct (i || o).
Qed.

Lemma events_grows evs : runs grows (events script evs).
Proof.
  induction evs as [|[[fd i] o] evs IH]; [apply runs_ret, _|]. apply runs_bind; [apply _|apply event_grows|done].
Qed.

Lemma call_back_all_grows ps :
  runs (λ r r', grows r r' ∧ ∀ p, p ∈ ps → p ∈ calls r') (call_back_all script ps).
Proof.
  induction ps as [|q ps IH]; intros r.
  - split; [done|]. intros p Hp. by apply elem_of_nil in Hp.
  - cbn [call_back_all]. pose proof (call_back_grows q r) as Hq. unfold mbind, M_bind.
    destruct (call_back script q r) as [[[]| | |] r1]; try done. destruct Hq as [Hg1 Hq].
    specialize (IH r1). destruct (call_back_all script ps r1) as [[[]| | |] r2]; try done.
    destruct IH as [Hg2 Hps]. split; [by etrans|]. intros p [->|Hp]%elem_of_cons; [|by apply Hps].
    destruct Hg2 as (_ & HC & _). by apply HC.
Qed.

(** ** A deadline *)

(** [p] is called already, or waits for the time [d]. *)
Definition pending_call (d : Z) (p : payload) (r : Reactor) : Prop :=
  p ∈ calls r ∨ ∃ i, (d - last r, i) ∈ timers r ∧ callee i = Some p.

Lemma pending_call_grows d p r r' : grows r r' → pending_call d p r → pending_call d p r'.
Proof.
  intros (HT & HC & HL) [H|(i & Hi & Hc)]; [left; by apply HC|]. right. exists i. rewrite HL. split; [by apply HT|done].
Qed.

Lemma due_at_elem k i (l : pending) p : (k, i) ∈ l → callee i = Some p → p ∈ due_at k l.
Proof.
  intros Hi Hc. apply list_elem_of_omap. exists (k, i). split; [done|]. cbn. by rewrite decide_True by done.
Qed.

Lemma after_elem n k i (l : pending) : (k, i) ∈ l → n ≤ k → (k - n, i) ∈ after n l.
Proof.
  intros Hi Hk. apply list_elem_of_omap. exists (k, i). split; [done|]. cbn. by rewrite decide_False by lia.
Qed.

(** One millisecond passes; the clock is only set at the end of the turn. *)
Lemma elapse_calls k p : 0 ≤ k →
  runs (λ r r', calls r ⊆ calls r' ∧ last r' = last r ∧
    ((∃ i, (k, i) ∈ timers r ∧ callee i = Some p) →
     if decide (k = 0) then p ∈ calls r' else ∃ i, (k - 1, i) ∈ timers r' ∧ callee i = Some p)) (elapse script).
Proof.
  intros Hk. apply runs_get. intros r. rewrite bind_modify.
  pose proof (call_back_all_grows (due_at 0 (timers r)) (set_timers (after 1 (timers r)) r)) as H.
  destruct (call_back_all script _ _) as [[[]| | |] r']; try done. destruct H as ((HT & HC & HL) & Hdue).
  split; [done|]. split; [done|]. intros (i & Hi & Hc). destruct (decide (k = 0)) as [->|].
  - by eapply Hdue, due_at_elem.
  - exists i. split; [|done]. apply HT. cbn. apply after_elem; [done|lia].
Qed.

Lemma elapse_n_calls n : ∀ k p, 0 ≤ k →
  runs (λ r r', calls r ⊆ calls r' ∧ last r' = last r ∧
    ((∃ i, (k, i) ∈ timers r ∧ callee i = Some p) →
     if decide (k < Z.of_nat n) then p ∈ calls r' else ∃ i, (k - Z.of_nat n, i) ∈ timers r' ∧ callee i = Some p))
    (elapse_n script n).
Proof.
  induction n as [|n IH]; intros k p Hk r; cbn [elapse_n].
  - split; [done|]. split; [done|]. rewrite decide_False by lia. by rewrite Z.sub_0_r.
  - pose proof (elapse_calls k p Hk r) as H. unfold mbind, M_bind. destruct (elapse script r) as [[[]| | |] r1]; try done.
    destruct H as (HC1 & HL1 & H). destruct (decide (k = 0)) as [->|Hk0].
    + specialize (IH 0 p ltac:(lia) r1). destruct (elapse_n script n r1) as [[[]| | |] r2]; try done.
      destruct IH as (HC2 & HL2 & _). split; [by etrans|]. split; [congruence|]. intros Hi.
      rewrite decide_True by lia. by apply HC2, H.
    + specialize (IH (k - 1) p ltac:(lia) r1). destruct (elapse_n script n r1) as [[[]| | |] r2]; try done.
      destruct IH as (HC2 & HL2 & IH). split; [by etrans|]. split; [congruence|]. intros Hi%H%IH.
      replace (k - Z.of_nat (S n)) with (k - 1 - Z.of_nat n) by lia.
      destruct (decide (k - 1 < Z.of_nat n)); [by rewrite decide_True by lia|by rewrite decide_False by lia].
Qed.

(** A turn up to [now]. *)
Lemma advance_to_calls now d p :
  runs (λ r r', last r ≤ d → pending_call d p r →
    pending_call d p r' ∧ (last r' ≤ d ∨ p ∈ calls r') ∧ (d < now → p ∈ calls r')) (advance_to script now).
Proof.
  apply runs_get. intros r. destruct (decide (now ≤ last r)) as [Hle|Hgt].
  - intros Hd H. split; [done|]. split; [by left|lia].
  - set (n := Z.to_nat (now - last r)). destruct (decide (last r ≤ d)) as [Hd|Hd].
    + pose proof (elapse_n_calls n (d - last r) p ltac:(lia) r) as H. unfold mbind, M_bind.
      destruct (elapse_n script n r) as [[[]| | |] r1]; try done. cbn. destruct H as (HC & HL & H).
      intros _ [Hp|Hi]; [apply HC in Hp; by split_and!; [left|right|]|].
      apply H in Hi. destruct (decide (d - last r < Z.of_nat n)) as [Hdn|Hdn].
      * split_and!; [by left|by right|done].
      * split; [right|]. 2: { split; [left; cbn; lia|lia]. }
        destruct Hi as (i & Hi & Hc). exists i. cbn. split; [|done].
        by replace (d - now) with (d - last r - Z.of_nat n) by lia.
    + pose proof (elapse_n_calls n 0 p ltac:(lia) r) as H. unfold mbind, M_bind.
      destruct (elapse_n script n r) as [[[]| | |] r1]; done.
Qed.

(** The loop over its turns, if it is not stopped, thrown out of or crashed. *)
Lemma run_turns_calls turns d p : ∀ r r',
  last r ≤ d ∨ p ∈ calls r → pending_call d p r → run_turns script turns r = (NoFuel, r') →
  pending_call d p r' ∧ (p ∈ calls r → p ∈ calls r') ∧
  ((∃ x, x ∈ turns ∧ d < x.2) → p ∈ calls r').
Proof.
  induction turns as [|[evs now] turns IH]; intros r r' Hd Hp; cbn [run_turns].
  - intros [= <-]. split; [done|]. split; [done|]. intros (x & Hx & _). by apply elem_of_nil in Hx.
  - rewrite bind_get. destruct (stopped r); [done|]. unfold mbind, M_bind.
    pose proof (events_grows evs r) as He. destruct (events script evs r) as [[[]| | |] r1]; try done.
    pose proof (advance_to_calls now d p r1) as Ha. destruct (advance_to script now r1) as [[[]| | |] r2] eqn:E2; try done.
    assert (calls r1 ⊆ calls r2) as HC2.
    { revert E2. unfold advance_to. rewrite bind_get. destruct (decide _); [by intros [= <-]|].
      unfold mbind, M_bind. pose proof (elapse_n_calls (Z.to_nat (now - last r1)) 0 p ltac:(lia) r1) as H.
      destruct (elapse_n _ _ _) as [[[]| | |] r3]; try done. intros [= <-]. apply H. }
    intros Hr. pose proof (pending_call_grows d p _ _ He Hp) as Hp1. destruct He as (_ & HC1 & HL1).
    destruct (decide (p ∈ calls r1)) as [Hin|Hnin].
    + destruct (IH r2 r') as (H1 & H2 & _); [by right; apply HC2|by left; apply HC2|done|].
      assert (p ∈ calls r') by by apply H2, HC2. done.
    + assert (last r1 ≤ d) as Hd1 by (rewrite HL1; destruct Hd as [|Hd]; [done|by apply HC1 in Hd]).
      destruct (Ha Hd1 Hp1) as (Hp2 & Hor & Hnow). destruct (IH r2 r' Hor Hp2 Hr) as (H1 & H2 & H3).
      split; [done|]. split; [intros Hc; by apply HC1 in Hc|].
      intros (x & [->|Hx]%elem_of_cons & Hlt); [by apply H2, Hnow|apply H3; by exists x].
Qed.
End Loop.

(** ** An event is answered *)

(** Whoever a registration names for an event, which is [READ] or [WRITE]. *)
Definition wake (event : Z) (c : EventCtx) : option payload :=
  if decide (event = READ) then reader c else writer c.

(** Calls that leave the registration of [fd] for [event] as it is: those that
    cancel this direction, or register the descriptor in the other one alone, do
    not. *)
Definition spares (event fd : Z) (o : epoll_op) : Prop :=
  match o with
  | OpRegister type fd' _ _ _ _ => fd' = fd → has event type = true
  | OpCancel type fd' => fd' = fd → has event type = false
  | _ => True
  end.

(** [p] is called when the event comes, also if it is being handled. *)
Definition waiting (event fd : Z) (p : payload) (r : Reactor) : Prop :=
  ∃ c, watch r !! fd = Some (Some c) ∧ has (type_ c) event = true ∧ wake event c = Some p ∧
    ∀ c', held r = Some (Some fd, c') → c' = c.

Definition attending (fd : Z) (r : Reactor) : Prop := ∃ c, held r = Some (Some fd, c).

Definition times (p : payload) (l : list payload) : nat := length (filter (p =.) l).

Lemma times_app p l k : times p (l ++ k) = (times p l + times p k)%nat.
Proof. unfold times. by rewrite filter_app, length_app. Qed.

(** How often the event is reported. *)
Definition reports (event fd : Z) (evs : list (Z * bool * bool)) : nat :=
  length (filter (λ x, x.1.1 = fd ∧ (if decide (event = READ) then x.1.2 else x.2) = true) evs).

Lemma has_bit (t k : Z) : 0 ≤ k → has t (2 ^ k) = Z.testbit t k.
Proof.
  intros Hk. unfold has. destruct (Z.testbit t k) eqn:E.
  - apply negb_true_iff, Z.eqb_neq. intros H. assert (Z.testbit (Z.land t (2 ^ k)) k = false) as Hb by (by rewrite H, Z.bits_0).
    by rewrite Z.land_spec, E, Z.pow2_bits_true in Hb.
  - apply negb_false_iff, Z.eqb_eq, Z.bits_inj'. intros n Hn. rewrite Z.land_spec, Z.bits_0.
    destruct (decide (n = k)) as [->|]; [by rewrite E|]. by rewrite Z.pow2_bits_false, andb_false_r.
Qed.

Lemma has_sym t t' : has t t' = has t' t.
Proof. unfold has. by rewrite Z.land_comm. Qed.

Section Direction.
Context (event fd : Z) (Hev : event = READ ∨ event = WRITE).

Lemma event_bit : ∃ k, 0 ≤ k ∧ event = 2 ^ k.
Proof. destruct Hev as [-> | ->]; [by exists 0|by exists 2]. Qed.

(** A common direction. *)
Lemma has_common t type : has t event = true → has event type = true → has t type = true.
Proof.
  destruct event_bit as (k & Hk & ->). rewrite (has_sym (2 ^ k)), !has_bit by done. intros H1 H2.
  unfold has. apply negb_true_iff, Z.eqb_neq. intros H.
  assert (Z.testbit (Z.land t type) k = false) as Hb by (by rewrite H, Z.bits_0).
  by rewrite Z.land_spec, H1, H2 in Hb.
Qed.

Lemma has_without t type : has t event = true → has event type = false → has (EpollProps.without t type) event = true.
Proof.
  intros Ht Hn. rewrite has_sym in Hn. unfold EpollProps.without.
  destruct Hev as [-> | ->]; rewrite Hn.
  - destruct (has type WRITE); [|done]. change READ with (2 ^ 0) in *. rewrite has_bit in * by done.
    by rewrite Z.ldiff_spec, Ht.
  - destruct (has type READ); [|done]. change WRITE with (2 ^ 2) in *. rewrite has_bit in * by done.
    by rewrite Z.ldiff_spec, Ht.
Qed.

Lemma has_not_none t : has t event = true → t ≠ NONE.
Proof. intros H ->. unfold has in H. by rewrite Z.land_0_l in H. Qed.

Context (p : payload).
Abbreviation waits := (waiting event fd p).

(** What each call keeps. *)
Definition keeps (r r' : Reactor) : Prop :=
  waits r → waits r' ∧ (attending fd r → attending fd r').

#[local] Instance keeps_preorder : PreOrder keeps.
Proof.
  split.
  - by intros r H.
  - intros r1 r2 r3 H12 H23 H. destruct (H12 H) as [H2 A2]. destruct (H23 H2) as [H3 A3]. auto.
Qed.

(** The registration of another descriptor changes. *)
Lemma keeps_other fd' o x c r : fd' ≠ fd → o ≠ Some fd →
  keeps r (update_held fd' o c (set_watch (partial_alter (λ _, x) fd' (watch r)) r)).
Proof.
  intros Hne Ho (c0 & Hw & Hh & Hp & Hc). unfold update_held. cbn.
  assert (partial_alter (λ _, x) fd' (watch r) !! fd = Some (Some c0)) as Hw' by (by rewrite lookup_partial_alter_ne).
  destruct (held r) as [[[y|] c']|] eqn:E.
  - destruct (decide (y = fd')) as [->|].
    + split; [|intros [d Hd]; rewrite E in Hd; congruence]. exists c0. split_and!; [done..|]. cbn. intros c'' [= -> _]. done.
    + split; [|intros [d Hd]; exists d; cbn; congruence]. exists c0. split_and!; try done. cbn. rewrite E. done.
  - split; [|intros [d Hd]; congruence]. exists c0. split_and!; try done. cbn. by rewrite E.
  - split; [|intros [d Hd]; congruence]. exists c0. split_and!; try done. cbn. by rewrite E.
Qed.

(** Its own, in the other direction. *)
Lemma keeps_own c c0 r : watch r !! fd = Some (Some c0) → has (type_ c) event = true → wake event c = wake event c0 →
  keeps r (update_held fd (Some fd) c (set_watch (<[fd := Some c]> (watch r)) r)).
Proof.
  intros Hw Ht Hc (c1 & Hw1 & _ & Hp & Hc1). assert (c1 = c0) as -> by congruence. unfold update_held. cbn.
  assert (<[fd := Some c]> (watch r) !! fd = Some (Some c)) as Hw' by by rewrite lookup_insert_eq.
  destruct (held r) as [[[y|] c']|] eqn:E.
  - destruct (decide (y = fd)) as [->|].
    + split; [|intros _; by exists c]. exists c. split_and!; [done|done|congruence|]. by intros c'' [= ->].
    + split; [|intros [d Hd]; congruence]. exists c. split_and!; [done|done|congruence|]. cbn. rewrite E. congruence.
  - split; [|intros [d Hd]; congruence]. exists c. split_and!; [done|done|congruence|]. cbn. by rewrite E.
  - split; [|intros [d Hd]; congruence]. exists c. split_and!; [done|done|congruence|]. cbn. by rewrite E.
Qed.

Lemma do_op_keeps o : spares event fd o → runs keeps (do_op o).
Proof.
  destruct o as [type fd' rf wf rc wc|type fd'|[clock t f co times|g]|v]; cbn [do_op add_timer spares]; intros Hs.
  - apply runs_get. intros r. destruct (decide (fd' = fd)) as [->|Hne].
    + destruct (watch r !! fd) as [[old|]|] eqn:E; [|done|by intros (c & Hw & _); rewrite E in Hw].
      destruct (has (type_ old) type) eqn:Eh; [done|]. intros (c & Hw & Hh & _). assert (old = c) as -> by congruence.
      by rewrite (has_common _ _ Hh (Hs eq_refl)) in Eh.
    + destruct (watch r !! fd') as [[old|]|] eqn:E; [|done|].
      * destruct (has (type_ old) type); [by intros Hr|]. apply (keeps_other fd' (Some fd')); congruence.
      * intros (c & Hw & Hh & Hp & Hc). split; [|done]. exists c. cbn. by rewrite lookup_insert_ne.
  - apply runs_get. intros r. destruct (decide (fd' = fd)) as [->|Hne].
    + destruct (watch r !! fd) as [[old|]|] eqn:E; [|done|by intros Hr].
      destruct (negb (has (type_ old) type)); [by intros Hr|]. cbn zeta. set (c := set_type _ old).
      destruct (decide (type_ c = NONE)) as [En|_]; intros Hw0; pose proof Hw0 as (c0 & Hw & Hh & _);
        (assert (old = c0) as -> by congruence); pose proof (has_without _ _ Hh (Hs eq_refl)) as Ht.
      * by apply has_not_none in Ht.
      * by eapply (keeps_own c c0).
    + destruct (watch r !! fd') as [[old|]|] eqn:E; [|done|by intros Hr]. destruct (negb (has (type_ old) type)); [by intros Hr|]. cbn zeta.
      destruct (decide _); [apply (keeps_other fd' None None)|apply (keeps_other fd' (Some fd') (Some (Some _)))]; congruence.
  - apply runs_modify. by intros r.
  - done.
  - apply runs_modify. by intros r.
Qed.

Lemma do_ops_keeps l : Forall (spares event fd) l → runs keeps (do_ops l).
Proof.
  induction 1 as [|o l Ho _ IH]; [apply runs_ret, _|]. apply runs_bind; [apply _|by apply do_op_keeps|done].
Qed.
End Direction.

(** ** The loop answers *)

Definition same_calls (r r' : Reactor) : Prop := calls r' = calls r.

#[local] Instance same_calls_preorder : PreOrder same_calls.
Proof. split; [done|]. intros r1 r2 r3 H1 H2. unfold same_calls in *. congruence. Qed.

Lemma do_op_calls o : runs same_calls (do_op o).
Proof.
  assert (∀ fd o c r t, same_calls r (update_held fd o c (set_watch t r))) as Hu.
  { intros fd o' c r t. unfold update_held. cbn. destruct (held r) as [[[x|] ?]|]; try done. by destruct (decide _). }
  destruct o as [type fd rf wf rc wc|type fd|[clock t f co k|g]|v]; cbn [do_op add_timer]; try done.
  - apply runs_get. intros r. destruct (watch r !! fd) as [[old|]|]; [|done..].
    destruct (has (type_ old) type); [done|apply Hu].
  - apply runs_get. intros r. destruct (watch r !! fd) as [[old|]|]; [|done..].
    destruct (negb (has (type_ old) type)); [done|]. cbn zeta. destruct (decide _); apply Hu.
Qed.

Lemma do_ops_calls l : runs same_calls (do_ops l).
Proof. induction l as [|o l IH]; [apply runs_ret, _|]. by apply runs_bind; [apply _|apply do_op_calls|]. Qed.

Section Answers.
Context (event fd : Z) (Hev : event = READ ∨ event = WRITE) (p : payload).
Context (script : payload → list epoll_op * option exn) (Hscript : ∀ q, Forall (spares event fd) (script q).1).
Abbreviation waits := (waiting event fd p).

(** [p] is called [n] times, and more if it is called for other reasons. *)
Definition answers (n : nat) (r r' : Reactor) : Prop :=
  waits r → waits r' ∧ (n + times p (calls r) ≤ times p (calls r'))%nat.

(** The same while its own event is handled, and while another one is. *)
Definition attends (n : nat) (r r' : Reactor) : Prop :=
  waits r → waits r' ∧ (attending fd r → attending fd r') ∧ (n + times p (calls r) ≤ times p (calls r'))%nat.

Lemma answers_trans n k r1 r2 r3 : answers n r1 r2 → answers k r2 r3 → answers (n + k) r1 r3.
Proof. intros H1 H2 H. destruct (H1 H) as [H' ?]. destruct (H2 H') as [? ?]. split; [done|lia]. Qed.

Lemma attends_answers n r r' : attends n r r' → answers n r r'.
Proof. intros H Hw. destruct (H Hw) as (? & _ & ?). done. Qed.

(** Writing to the bookkeeping only. *)
Lemma waits_same r r' : watch r' = watch r → held r' = held r → waits r → waits r'.
Proof. intros Ew Eh (c & H). exists c. by rewrite Ew, Eh. Qed.

Lemma call_back_attends q : runs (attends (if decide (q = p) then 1 else 0)) (call_back script q).
Proof.
  intros r. unfold call_back. rewrite bind_modify. unfold mbind at 1, M_bind at 1.
  pose proof (runs_and _ _ _ (do_ops_keeps event fd Hev p _ (Hscript q)) (do_ops_calls (script q).1) (called q r)) as H.
  destruct (do_ops (script q).1 (called q r)) as [[[]| | |] r']; try done. destruct H as [Hk Hc].
  destruct (script q).2; [done|]. change (attends (if decide (q = p) then 1 else 0) r r'). intros Hw.
  destruct (Hk ltac:(by apply (waits_same r))) as [Hw' Ha]. split; [done|]. split; [exact Ha|].
  unfold same_calls in Hc. rewrite Hc. cbn [called calls]. rewrite times_app.
  destruct (decide (q = p)) as [->|]; [|lia]. unfold times at 3. rewrite filter_cons_True by done. cbn. lia.
Qed.

Lemma serve_attends q : runs (attends (if decide (q = Some p) then 1 else 0)) (serve script q).
Proof.
  destruct q as [q|]; [|by apply (runs_weaken eq); [intros r _ <-|intros r]].
  eapply runs_weaken; [|apply call_back_attends]. intros r r'. by repeat destruct (decide _); try congruence.
Qed.

(** Whatever is held. *)
Lemma on_held_attends f : runs (attends 0) (on_held script f).
Proof.
  apply runs_get. intros r. destruct (held r) as [[o c]|]; [|by intros H].
  pose proof (serve_attends (f c) r) as H. destruct (serve script (f c) r) as [[[]| | |] r']; try done.
  intros Hw. destruct (H Hw) as (? & ? & ?). split; [done|]. split; [done|lia].
Qed.

(** One direction of an event. *)
Lemma half_attends (b : bool) f : runs (attends 0) (if b then on_held script f else mret tt).
Proof. apply runs_if; [apply on_held_attends|]. by intros r H. Qed.

(** The one that is waited for. *)
Definition own (r r' : Reactor) (n : nat) : Prop :=
  waits r → attending fd r → waits r' ∧ attending fd r' ∧ (n + times p (calls r) ≤ times p (calls r'))%nat.

Lemma half_own (b : bool) : runs (λ r r', own r r' (if b then 1 else 0))
  (if b then on_held script (if decide (event = READ) then reader else writer) else mret tt).
Proof.
  destruct b; [|by intros r Hw Ha]. apply runs_get. intros r.
  destruct (held r) as [[o c]|] eqn:Eh; [|intros Hw [d Hd]; congruence].
  set (q := (if decide (event = READ) then reader else writer) c).
  pose proof (serve_attends q r) as H. destruct (serve script q r) as [[[]| | |] r']; try done.
  intros Hw [d Hd]. assert (o = Some fd) as -> by congruence.
  destruct (H Hw) as (Hw' & Ha & Ht). destruct Hw as (c0 & _ & _ & Hp & Hc).
  split; [done|]. split; [apply Ha; by exists c|]. pose proof (Hc _ Eh). subst c0.
  assert (q = Some p) as Eq by (unfold q; rewrite <- Hp; unfold wake; by destruct (decide _)).
  by rewrite decide_True in Ht.
Qed.
(** Both directions of the event of [fd]. *)
Lemma halves_own (i o : bool) :
  runs (λ r r', own r r' (if decide (event = READ) then (if i then 1 else 0) else (if o then 1 else 0)))
    ((if i then on_held script reader else mret tt);; (if o then on_held script writer else mret tt)).
Proof.
  pose proof (half_own i) as Hi. pose proof (half_own o) as Ho.
  destruct (decide (event = READ)) as [E|E].
  - eapply runs_seq; [|exact Hi|intros _; apply (half_attends o writer)].
    intros r1 r2 r3 H1 H2 Hw Ha. destruct (H1 Hw Ha) as (Hw2 & Ha2 & ?). destruct (H2 Hw2) as (? & Ha3 & ?).
    split; [done|]. split; [by apply Ha3|lia].
  - eapply runs_seq; [|apply (half_attends i reader)|intros _; exact Ho].
    intros r1 r2 r3 H1 H2 Hw Ha. destruct (H1 Hw) as (Hw2 & Ha2 & ?). destruct (H2 Hw2 (Ha2 Ha)) as (? & Ha3 & ?).
    split; [done|]. split; [done|lia].
Qed.

Lemma reports_own i o :
  reports event fd [(fd, i, o)] = if decide (event = READ) then (if i then 1 else 0)%nat else (if o then 1 else 0)%nat.
Proof.
  unfold reports. destruct (decide (event = READ)) as [E|E]; [destruct i|destruct o];
    (by rewrite filter_cons_True by (by split; rewrite ?decide_True, ?decide_False)) ||
    (by rewrite filter_cons_False by (intros [_ H]; cbn in H; by rewrite ?decide_True, ?decide_False in H)).
Qed.

Lemma event_answers fd' i o : runs (answers (reports event fd [(fd', i, o)])) (Reactor.event script fd' i o).
Proof.
  apply runs_get. intros r. destruct (decide (fd' = fd)) as [->|Hne].
  - destruct (default None (watch r !! fd)) as [c|] eqn:E.
    2: { rewrite bind_modify. destruct (i || o); [done|]. intros (c & Hw & _). by rewrite Hw in E. }
    rewrite bind_modify. pose proof (halves_own i o (set_held (Some (Some fd, c)) r)) as H.
    set (mi := if i then _ else mret tt) in *. set (mo := if o then _ else mret tt) in *. unfold mbind, M_bind in *.
    destruct (mi _) as [[[]| | |] r1]; try done. destruct (mo r1) as [[[]| | |] r2]; try done. clear mi mo.
    change (answers (reports event fd [(fd, i, o)]) r (set_held None r2)). intros (c0 & Hw & Hh & Hp & Hc).
    assert (c = c0) as -> by (rewrite Hw in E; by injection E).
    destruct H as ((c1 & Hw1 & Hh1 & Hp1 & _) & _ & Ht).
    { exists c0. split_and!; [done..|]. by intros c' [= ->]. }
    { by exists c0. }
    split; [by exists c1|]. cbn [calls set_held]. by rewrite reports_own.
  - assert (reports event fd [(fd', i, o)] = 0%nat) as -> by (unfold reports; by rewrite filter_cons_False by (intros [? _]; done)).
    destruct (default None (watch r !! fd')) as [c|] eqn:E.
    2: { rewrite bind_modify. destruct (i || o); [done|]. intros (c & Hw & Hr). split; [|done]. exists c. cbn.
      by rewrite lookup_insert_ne. }
    rewrite bind_modify. pose proof (half_attends i reader (set_held (Some (Some fd', c)) r)) as Hi.
    pose proof (half_attends o writer) as Ho.
    set (mi := if i then _ else mret tt) in *. set (mo := if o then _ else mret tt) in *. unfold mbind, M_bind in *.
    destruct (mi _) as [[[]| | |] r1]; try done. specialize (Ho r1). destruct (mo r1) as [[[]| | |] r2]; try done. clear mi mo.
    change (answers 0 r (set_held None r2)). intros (c0 & Hw & Hh & Hp & Hc).
    destruct Hi as (Hw1 & _ & Ht1). { exists c0. split_and!; [done..|]. cbn. intros c' [=]. congruence. }
    destruct (Ho Hw1) as ((c2 & ? & ? & ? & _) & _ & Ht2). split; [by exists c2|]. cbn [calls set_held] in *. lia.
Qed.

Lemma events_answers evs : runs (answers (reports event fd evs)) (events script evs).
Proof.
  induction evs as [|[[fd' i] o] evs IH]; [by intros r H|].
  eapply runs_seq; [|apply event_answers|intros _; exact IH].
  intros r1 r2 r3 H1 H2. pose proof (answers_trans _ _ _ _ _ H1 H2) as H.
  unfold reports in *. by rewrite <- length_app, <- filter_app in H.
Qed.

Lemma call_back_all_answers ps : runs (answers 0) (call_back_all script ps).
Proof.
  induction ps as [|q ps IH]; [by intros r H|]. eapply runs_seq; [|apply call_back_attends|intros _; exact IH].
  intros r1 r2 r3 H1%attends_answers H2 Hw. destruct (H1 Hw) as [Hw2 ?]. destruct (H2 Hw2) as [? ?]. split; [done|lia].
Qed.

Lemma elapse_n_answers n : runs (answers 0) (elapse_n script n).
Proof.
  induction n as [|n IH]; [by intros r H|]. eapply (runs_seq _ (answers 0)); [|clear IH|intros _; exact IH].
  - intros r1 r2 r3. apply (answers_trans 0 0).
  - apply runs_get. intros r. rewrite bind_modify.
    pose proof (call_back_all_answers (due_at 0 (timers r)) (set_timers (after 1 (timers r)) r)) as H.
    by destruct (call_back_all script _ _) as [[[]| | |] r'].
Qed.

Lemma advance_to_answers now : runs (answers 0) (advance_to script now).
Proof.
  apply runs_get. intros r. destruct (decide _); [by intros H|].
  pose proof (elapse_n_answers (Z.to_nat (now - last r)) r) as H. unfold mbind, M_bind.
  by destruct (elapse_n script _ r) as [[[]| | |] r'].
Qed.

(** Each report of the event is answered, if the loop is not stopped, thrown out
    of or crashed. *)
Lemma run_turns_answers turns : ∀ r r', waits r → run_turns script turns r = (NoFuel, r') →
  (reports event fd (concat turns.*1) + times p (calls r) ≤ times p (calls r'))%nat.
Proof.
  induction turns as [|[evs now] turns IH]; intros r r' Hw; cbn [run_turns].
  - intros [= <-]. done.
  - rewrite bind_get. destruct (stopped r); [done|]. unfold mbind, M_bind.
    pose proof (events_answers evs r) as He. destruct (events script evs r) as [[[]| | |] r1]; try done.
    pose proof (advance_to_answers now r1) as Ha. destruct (advance_to script now r1) as [[[]| | |] r2]; try done.
    destruct (He Hw) as [Hw1 ?]. destruct (Ha Hw1) as [Hw2 ?]. intros Hr%IH; [|done].
    cbn [fmap list_fmap fst concat]. unfold reports in *. rewrite filter_app, length_app. lia.
Qed.
End Answers.

End ReactorLive.
