(* ===== verification/Hook.v ===== *)
(** * Hooked system calls

    [src/hook.cc]: [do_io], through which the blocking calls go, [sleep],
    [usleep] and [close].  They connect the scheduler, the epoll object and the
    wheel.  What the original functions return is an argument. *)

From S2P Require Import Prelude TimeWheel Schedule Epoll.
Import Epoll.
Import Schedule(Schedule, GetInvokeDeepth, GetCurrentCo).

Module Hook.

Open Scope Z_scope.

Definition EINTR : Z := 4.
Definition EAGAIN : Z := 11.    (* and EWOULDBLOCK *)

(** What an original function returns: a count, or -1 with [errno]. *)
Inductive io_result := IoDone (n : Z) | IoFail (errno : Z).

#[global] Instance io_result_eq_dec : EqDecision io_result.
Proof. solve_decision. Defined.

Section Hooks.
Context {Mem : Type} (getfl : list action → Z → Z).

(** One pass through [retry]: the results of the original function (the second
    one is asked for after [EINTR]), the scheduler of the thread at that time,
    and what other coroutines do to the epoll object should this one give way. *)
Record turn := mkTurn {
  first : io_result;
  again : io_result;
  sched : Schedule Mem;
  meanwhile : M Epoll unit }.

(** [Schedule::Yield] as the hooks see it. *)
Definition give_way (s : Schedule Mem) (others : M Epoll unit) : M Epoll unit :=
  if decide (GetInvokeDeepth s < 2)%nat
  then raise (runtime_error "only main coroutine running, cannot yield")
  else act Suspend;; others.

(** Waiting for [event] on [fd]. *)
Definition register_wait (event fd : Z) (s : Schedule Mem) : M Epoll unit :=
  co ← lift (GetCurrentCo s);
  (if has event READ then RegisterEvent getfl event fd None None (Some co) None else mret tt);;
  (if has event WRITE then RegisterEvent getfl event fd None None None (Some co) else mret tt).

(** From [retry] to its [goto], over the turns it takes; [None] when it is still
    waiting after the last of them. *)
Fixpoint do_io_retry (event fd : Z) (turns : list turn) : M Epoll (option io_result) :=
  match turns with
  | [] => mret None
  | t :: turns =>
      let n := if decide (first t = IoFail EINTR) then again t else first t in
      if decide (n = IoFail EAGAIN) then
        register_wait event fd (sched t);;
        (if decide (2 ≤ GetInvokeDeepth (sched t))%nat
         then give_way (sched t) (meanwhile t) else mret tt);;
        do_io_retry event fd turns
      else mret (Some n)
  end.

Definition do_io (GetHookEnable : bool) (event fd : Z) (turns : list turn) : M Epoll (option io_result) :=
  if negb GetHookEnable then
    match turns with [] => mret None | t :: _ => mret (Some (first t)) end
  else
    e ← get;
    let flag := getfl (trace e) fd in
    act (SetFl fd (Z.lor flag O_NONBLOCK));;
    do_io_retry event fd turns.

(** The calls that go through [do_io]. *)
Inductive io_call :=
| Io_read | Io_readv | Io_recv | Io_recvfrom | Io_recvmsg
| Io_write | Io_writev | Io_send | Io_sendto | Io_sendmsg.

Definition event_of (c : io_call) : Z :=
  match c with
  | Io_read | Io_readv | Io_recv | Io_recvfrom | Io_recvmsg => READ
  | Io_write | Io_writev | Io_send | Io_sendto | Io_sendmsg => WRITE
  end.

(** The original function each of them hands to [do_io]. *)
Definition origin (c : io_call) : io_call :=
  match c with Io_writev => Io_write | c => c end.

(** [func c] are the turns if the original function of [c] is called. *)
Definition hooked (GetHookEnable : bool) (c : io_call) (fd : Z) (func : io_call → list turn)
    : M Epoll (option io_result) :=
  do_io GetHookEnable (event_of c) fd (func (origin c)).

(** [seconds * 1000] and [usec / 1000] are computed in 32 bits. [original] is
    the result of the unhooked function, [clock] the time of the call. *)
Definition sleep (GetHookEnable : bool) (original clock seconds : Z) (s : Schedule Mem)
    (others : M Epoll unit) : M Epoll Z :=
  if negb GetHookEnable then mret original
  else
    co ← lift (GetCurrentCo s);
    on_wheel (TimeWheel.AddTimer clock (wrap u32 (seconds * 1000)) None (Some co) 1);;
    give_way s others;;
    mret 0.

Definition usleep (GetHookEnable : bool) (original clock usec : Z) (s : Schedule Mem)
    (others : M Epoll unit) : M Epoll Z :=
  if negb GetHookEnable then mret original
  else
    co ← lift (GetCurrentCo s);
    on_wheel (TimeWheel.AddTimer clock (usec / 1000) None (Some co) 1);;
    give_way s others;;
    mret 0.

Definition close (GetHookEnable : bool) (original fd : Z) : M Epoll Z :=
  if negb GetHookEnable then act (CloseFd fd);; mret original
  else
    CancelEvent READ fd;;
    CancelEvent WRITE fd;;
    act (CloseFd fd);;
    mret original.

End Hooks.
End Hook.
