(* ===== verification/HookProps.v ===== *)
(** * Properties of the hooked system calls

    The result of [do_io], whom an event wakes, at once and while the event loop
    runs, when a sleeper wakes, and what [close] leaves behind. *)

From S2P Require Import Prelude TimeWheel TimeWheelProps Schedule Epoll EpollProps Reactor ReactorProps ReactorLive Hook.
Import Epoll EpollProps Hook.
Import Schedule(Schedule, co_stack_, GetInvokeDeepth, GetCurrentCo).

Module HookProps.

Open Scope Z_scope.

Section Hooks.
Context {Mem : Type} (getfl : list action → Z → Z).
Implicit Types (t : turn (Mem := Mem)) (s : Schedule Mem).

(** ** The result of [do_io] *)

(** What one pass settles on: [EINTR] is retried, once. *)
Definition settled t : io_result :=
  if decide (first t = IoFail EINTR) then again t else first t.

(** The first result that is not [EAGAIN]. *)
Definition answer (turns : list (turn (Mem := Mem))) : option io_result :=
  head (filter (λ r, r ≠ IoFail EAGAIN) (settled <$> turns)).

(** Other coroutines return, and keep the tables in step. *)
Definition orderly (m : M Epoll unit) : Prop :=
  ∀ e, in_sync e → ∃ e', m e = (Ok tt, e') ∧ in_sync e'.

Definition turn_ok t : Prop := co_stack_ (sched t) ≠ [] ∧ orderly (meanwhile t).

Definition io_event (event : Z) : Prop := event = READ ∨ event = WRITE.

Lemma io_event_valid event : io_event event → valid_type event.
Proof. intros [-> | ->]; [by left|by right; left]. Qed.

(** The coroutine on top of the stack waits. *)
Lemma register_wait_spec event fd s co e :
  io_event event → last (co_stack_ s) = Some co →
  register_wait getfl event fd s e =
    RegisterEvent getfl event fd None None
      (if decide (event = READ) then Some co else None) (if decide (event = READ) then None else Some co) e.
Proof.
  intros Hev Hco. unfold register_wait, GetCurrentCo. rewrite Hco. rewrite bind_lift_ok.
  destruct Hev as [-> | ->]; [|done]. cbn [has decide].
  unfold mbind, M_bind. change (has READ READ) with true. cbn iota.
  change (has READ WRITE) with false. cbn iota.
  destruct (decide (READ = READ)) as [_|]; [|done].
  by destruct (RegisterEvent _ _ _ _ _ _ _ _) as [[[]| | |] e'].
Qed.

Lemma Suspend_in_sync e : in_sync e → ∃ e', act Suspend e = (Ok tt, e') ∧ in_sync e' ∧ same_tables e e' ∧
  wheel e' = wheel e.
Proof.
  intros Hs. assert (same_tables e (act Suspend e).2) as Ht.
  { split; [done|]. split; [done|]. apply kernel_traced. }
  exists (act Suspend e).2. split; [done|]. split; [by eapply same_tables_in_sync|]. by split.
Qed.

Lemma do_io_retry_spec event fd turns e :
  io_event event → Forall turn_ok turns → in_sync e →
  ∃ e', do_io_retry getfl event fd turns e = (Ok (answer turns), e') ∧ in_sync e'.
Proof.
  intros Hev Hts. revert e. induction Hts as [|t turns [Hst Hm] _ IH]; intros e Hs; [by exists e|].
  cbn [do_io_retry]. unfold answer. cbn [fmap list_fmap]. fold (settled t).
  destruct (decide (settled t = IoFail EAGAIN)) as [Ea|Ea].
  - rewrite filter_cons_False by (by intros []).
    destruct (last (co_stack_ (sched t))) as [co|] eqn:El; [|by apply last_None in El].
    destruct (RegisterEvent_spec getfl event fd None None (if decide (event = READ) then Some co else None)
      (if decide (event = READ) then None else Some co) e Hs (io_event_valid _ Hev)) as (e1 & E1 & Hs1 & _).
    rewrite <- (register_wait_spec event fd (sched t) co e Hev El) in E1.
    rewrite (bind_ok _ _ _ _ _ E1). destruct (decide _) as [Hd|]; [|by apply IH].
    unfold give_way. rewrite decide_False by lia.
    destruct (Suspend_in_sync e1 Hs1) as (e2 & E2 & Hs2 & _). destruct (Hm e2 Hs2) as (e3 & E3 & Hs3).
    rewrite (bind_ok _ _ e1 tt e3); [by apply IH|]. by rewrite (bind_ok _ _ _ _ _ E2).
  - rewrite filter_cons_True by done. by exists e.
Qed.

(** ** Whom an event wakes *)

Definition handler_of (event : Z) (c : EventCtx) : option nat * option nat :=
  if decide (event = READ) then (r_callback_ c, r_co_ c) else (w_callback_ c, w_co_ c).

Lemma handle_event_one address script event fd c e :
  io_event event → ctx_of e fd = Some c →
  handle_event getfl address script (data_fd fd) (bool_decide (event = READ)) (bool_decide (event = WRITE)) e =
    (dispatch getfl script (handler_of event c).1 (handler_of event c).2) e.
Proof.
  intros Hev Hc. unfold ctx_of in Hc. destruct (reg_event_ e !! fd) as [[p|]|] eqn:Er; try done.
  unfold handle_event. rewrite bind_get. cbn beta. cbn [read_fd]. rewrite Er.
  unfold default, id. cbn iota.
  rewrite bind_modify, insert_id by done.
  assert (set_reg (reg_event_ e) e = e) as -> by by destruct e.
  assert (ctx_at (Some p) e = (Ok (p, c), e)) as Ep by (unfold ctx_at; by rewrite Hc).
  unfold mbind, M_bind, mret, M_ret.
  destruct Hev as [-> | ->].
  - change (bool_decide (READ = READ)) with true. change (bool_decide (READ = WRITE)) with false.
    cbn beta iota. rewrite Ep. unfold handler_of. rewrite decide_True by done.
    by destruct (dispatch _ _ _ _ e) as [[[]| | |] e'].
  - change (bool_decide (WRITE = READ)) with false. change (bool_decide (WRITE = WRITE)) with true.
    cbn beta iota. by rewrite Ep.
Qed.

End Hooks.

(** [C19] What a hooked call returns, for any results of the original function and
    whatever the other coroutines do meanwhile, as long as they keep the tables
    in step: the first result that is not [EAGAIN], where a pass that meets
    [EINTR] tries once more (and hands on what it then gets, [EINTR] again
    included).  [EAGAIN] is never seen by the caller; the tables stay in
    step. *)
Theorem do_io_answers {Mem} getfl event fd (turns : list (turn (Mem := Mem))) e :
  io_event event → Forall turn_ok turns → in_sync e →
  ∃ e', do_io getfl true event fd turns e = (Ok (answer turns), e') ∧ in_sync e' ∧
    answer turns ≠ Some (IoFail EAGAIN) ∧
    (answer turns = Some (IoFail EINTR) →
      ∃ t, t ∈ turns ∧ first t = IoFail EINTR ∧ again t = IoFail EINTR).
Proof.
  intros Hev Hts Hs. unfold do_io. cbn [negb]. rewrite bind_get. cbn beta.
  destruct (act_setfl_tables fd (Z.lor (getfl (trace e) fd) O_NONBLOCK) e) as (e1 & E1 & Ht & _).
  rewrite (bind_ok _ _ _ _ _ E1).
  destruct (do_io_retry_spec getfl event fd turns e1 Hev Hts (same_tables_in_sync _ _ Ht Hs)) as (e' & E & Hs').
  exists e'. split; [done|]. split; [done|].
  assert (∀ r, answer turns = Some r → r ≠ IoFail EAGAIN ∧ ∃ t, t ∈ turns ∧ settled t = r) as Ha.
  { intros r Hr. apply head_Some_elem_of, list_elem_of_filter in Hr as [Hne Hin].
    split; [done|]. apply list_elem_of_fmap in Hin as (t & -> & Hin). by exists t. }
  split; [intros H; by apply Ha in H as [? _]|].
  intros H. apply Ha in H as (_ & t & Hin & Hset). exists t. split; [done|].
  unfold settled in Hset. by destruct (decide _).
Qed.

(** Whom the event of a descriptor wakes, if it comes at once, after coroutine [co] has started
    to wait for it in [do_io] and given way: [co] itself, unless the descriptor
    was already registered in that direction. Then the new registration is
    ignored and the event goes to whoever registered first, for example a
    coroutine that has long returned from its own wait: nothing cancels a
    registration when the wait ends. *)
Lemma event_wakes_waiter {Mem} getfl address script event fd t (s : Schedule Mem) co e :
  io_event event → in_sync e → sched t = s → last (co_stack_ s) = Some co →
  (2 ≤ GetInvokeDeepth s)%nat → settled t = IoFail EAGAIN → meanwhile t = mret tt →
  ∃ e', do_io getfl true event fd [t] e = (Ok None, e') ∧ wheel e' = wheel e ∧
    last (trace e') = Some Suspend ∧ is_Some (kernel e' !! fd) ∧
    handle_event getfl address script (data_fd fd) (bool_decide (event = READ)) (bool_decide (event = WRITE)) e'
      = match overlapping e event fd with
        | Some c => dispatch getfl script (handler_of event c).1 (handler_of event c).2 e'
        | None => perform_event getfl script (TimeWheel.Resume co) e'
        end.
Proof.
  intros Hev Hs Et Hco Hd Ha Hm. unfold do_io. cbn [negb]. rewrite bind_get. cbn beta.
  destruct (act_setfl_tables fd (Z.lor (getfl (trace e) fd) O_NONBLOCK) e) as (e1 & E1 & Ht1 & Hw1 & _).
  rewrite (bind_ok _ _ _ _ _ E1). cbn [do_io_retry]. fold (settled t). rewrite decide_True by done.
  rewrite Et, Hm. pose proof (same_tables_in_sync _ _ Ht1 Hs) as Hs1.
  destruct (RegisterEvent_spec getfl event fd None None (if decide (event = READ) then Some co else None)
    (if decide (event = READ) then None else Some co) e1 Hs1 (io_event_valid _ Hev))
    as (e2 & E2 & Hs2 & Hw2 & _ & _ & Hcase).
  rewrite <- (register_wait_spec getfl event fd s co e1 Hev Hco) in E2.
  rewrite (bind_ok _ _ _ _ _ E2), decide_True by done. unfold give_way. rewrite decide_False by lia.
  set (e3 := (act Suspend e2).2). assert (act Suspend e2 = (Ok tt, e3)) as E3 by done.
  assert (same_tables e2 e3) as Ht3 by (split; [done|split; [done|apply kernel_traced]]).
  exists e3. split; [by rewrite (bind_ok _ _ e2 tt e3)|]. split; [by rewrite <- Hw1, <- Hw2|].
  split; [by apply last_snoc|].
  assert (overlapping e1 event fd = overlapping e event fd) as Eo.
  { destruct Ht1 as (H1 & H2 & _). unfold overlapping. by rewrite H1, H2. }
  rewrite Eo in Hcase. destruct Ht3 as (H3 & H4 & H5). rewrite H5.
  assert (ctx_of e3 fd = ctx_of e2 fd) as Ec by (unfold ctx_of; by rewrite H3, H4).
  destruct (overlapping e event fd) as [c|] eqn:Eov.
  - destruct (same_tables_trans _ _ _ Ht1 Hcase) as (K1 & K2 & K3).
    unfold overlapping in Eov. destruct (reg_event_ e !! fd) as [[p|]|] eqn:Er; try done.
    destruct (ctxs e !! p) as [c'|] eqn:Ep; [|done]. destruct (has _ _); [|done]. injection Eov as ->.
    destruct (sy_in _ Hs _ _ Er) as (? & ? & d & _ & _ & _ & Hk). rewrite K3. split; [by eexists|].
    rewrite (handle_event_one getfl address script event fd c); [done|done|].
    rewrite Ec. unfold ctx_of. by rewrite K1, Er, K2.
  - destruct Hcase as [Hc Hk]. split; [by eexists|].
    rewrite (handle_event_one getfl address script event fd _ e3 Hev (eq_trans Ec Hc)).
    by destruct Hev as [-> | ->].
Qed.

(** [close] takes the descriptor off the table and off the kernel's list, in
    whichever directions it was registered, before it closes it. *)
Theorem close_deregisters original fd e :
  in_sync e →
  ∃ e', Hook.close true original fd e = (Ok original, e') ∧ in_sync e' ∧
    reg_event_ e' !! fd = None ∧ kernel e' !! fd = None ∧ last (trace e') = Some (CloseFd fd).
Proof.
  intros Hs. unfold Hook.close. cbn [negb].
  destruct (CancelEvent_spec READ fd e Hs ltac:(by left)) as (e1 & E1 & Hs1 & _).
  rewrite (bind_ok _ _ _ _ _ E1).
  destruct (CancelEvent_spec WRITE fd e1 Hs1 ltac:(by right; left)) as (e2 & E2 & Hs2 & _).
  rewrite (bind_ok _ _ _ _ _ E2).
  assert (reg_event_ e2 !! fd = None) as Hn.
  { destruct (reg_event_ e2 !! fd) as [it|] eqn:Er; [exfalso|done].
    destruct (sy_in _ Hs2 _ _ Er) as (p & c & d & -> & Hp & Hct & _).
    assert (ctx_of e2 fd = Some c) as Hc by (unfold ctx_of; by rewrite Er).
    destruct (CancelEvent_types WRITE fd e1 e2 c Hs1 ltac:(by right; left) E2 Hc) as (Hw & c1 & Hc1 & Hr).
    destruct (CancelEvent_types READ fd e e1 c1 Hs ltac:(by left) E1 Hc1) as (Hr1 & _).
    specialize (Hr Hr1). by destruct Hct as [Et | [Et | Et]]; rewrite Et in Hw, Hr. }
  set (e3 := mkEpoll (wheel e2) (reg_event_ e2) (ctxs e2) (loop_ e2) (trace e2 ++ [CloseFd fd])).
  assert (act (CloseFd fd) e2 = (Ok tt, e3)) as E3 by done.
  rewrite (bind_ok _ _ _ _ _ E3). exists e3. split; [done|].
  assert (same_tables e2 e3) as Ht3.
  { split; [done|]. split; [done|]. unfold e3. rewrite kernel_traced. cbn [kernel_step].
    apply delete_id. by apply (sy_out _ Hs2). }
  split; [by eapply same_tables_in_sync|]. split; [done|].
  split; [destruct Ht3 as (_ & _ & ->); by apply (sy_out _ Hs2)|]. apply last_snoc.
Qed.

(** *** Instances *)

(** A thread in which coroutine [co] runs above the main one. *)
Definition in_coroutine (co : nat) : Schedule unit :=
  Schedule.mkSchedule [0%nat; co] 2 co ∅ tt [].

Definition plain_turn (co : nat) (r : io_result) : turn := mkTurn r (IoDone 0) (in_coroutine co) (mret tt).

Lemma mret_orderly : orderly (mret tt).
Proof. intros e Hs. by exists e. Qed.

Lemma plain_turn_ok co r : turn_ok (plain_turn co r).
Proof. split; [done|apply mret_orderly]. Qed.

Lemma do_io_answers_witness :
  (do_io (λ _ _, 0) true READ 7 [plain_turn 1 (IoFail EAGAIN); plain_turn 1 (IoDone 12)] (Epoll_new 0)).1
    = Ok (Some (IoDone 12)).
Proof.
  destruct (do_io_answers (λ _ _, 0) READ 7 [plain_turn 1 (IoFail EAGAIN); plain_turn 1 (IoDone 12)] (Epoll_new 0))
    as (e' & E & _).
  - by left.
  - repeat apply Forall_cons_2; [apply plain_turn_ok|apply plain_turn_ok|apply Forall_nil_2].
  - apply Epoll_new_in_sync.
  - rewrite E. reflexivity.
Defined.

(** Coroutine 1 has waited for descriptor 7; then coroutine 2 waits for it, and
    the event goes to 1. *)
Definition waited : Epoll :=
  (exec_ops (λ _ _, 0) [OpRegister READ 7 None None (Some 1%nat) None] (Epoll_new 0)).2.

Lemma waited_in_sync : in_sync waited.
Proof.
  destruct (exec_ops_in_sync (λ _ _, 0) [OpRegister READ 7 None None (Some 1%nat) None] _
    (Epoll_new_in_sync 0)) as (e & E & Hs); [by_ops|]. unfold waited. by rewrite E.
Qed.

Lemma event_wakes_waiter_example :
  ∃ e', do_io (λ _ _, 0) true READ 7 [plain_turn 2 (IoFail EAGAIN)] waited = (Ok None, e') ∧
    handle_event (λ _ _, 0) Zpos (λ _, ([], None)) (data_fd 7) true false e'
      = dispatch (λ _ _, 0) (λ _, ([], None)) None (Some 1%nat) e'.
Proof.
  destruct (event_wakes_waiter (λ _ _, 0) Zpos (λ _, ([], None)) READ 7 (plain_turn 2 (IoFail EAGAIN))
    (in_coroutine 2) 2 waited) as (e' & E & _ & _ & _ & H);
    [by left|apply waited_in_sync|reflexivity|reflexivity|cbn; lia|reflexivity|reflexivity|].
  exists e'. split; [exact E|exact H].
Defined.

Lemma close_deregisters_witness :
  ∃ e', Hook.close true 0 7 waited = (Ok 0, e') ∧ kernel e' !! 7 = None.
Proof.
  destruct (close_deregisters 0 7 waited waited_in_sync) as (e' & E & _ & _ & Hk & _).
  exists e'. split; [exact E|exact Hk].
Defined.

(** *** Waiting while the event loop runs *)

Lemma overlapping_watch T h e r event fd : ReactorProps.matches T h e r →
  overlapping e event fd =
    match Reactor.watch r !! fd with Some (Some c) => if has (type_ c) event then Some c else None | _ => None end.
Proof.
  intros Hm. pose proof (ReactorProps.ma_watch _ _ _ _ Hm fd) as H. unfold ReactorProps.entry_matches in H.
  unfold overlapping. destruct (reg_event_ e !! fd) as [[q|]|]; [|by rewrite H..]. destruct H as (c & -> & ->). done.
Qed.

Section Waiter.
Context {Mem : Type} (getfl : list action → Z → Z) (address : ptr → Z).
Context (event fd : Z) (Hev : io_event event) (fi ag : io_result) (s : Schedule Mem) (co : nat).
Hypothesis (Hco : last (co_stack_ s) = Some co) (Hd : (2 ≤ GetInvokeDeepth s)%nat).
Hypothesis (Hagain : settled (mkTurn fi ag s (mret tt)) = IoFail EAGAIN).

(** What [do_io] registers. *)
Definition wait_ctx : EventCtx :=
  mkCtx event None None (if decide (event = READ) then Some co else None) (if decide (event = READ) then None else Some co).

(** Up to where it gives the thread away. *)
Lemma do_io_waits e : ∃ e1, same_tables e e1 ∧ wheel e1 = wheel e ∧ loop_ e1 = loop_ e ∧ ∀ others,
  (do_io getfl true event fd [mkTurn fi ag s others];; mret tt) e =
  (RegisterEvent getfl event fd None None (r_co_ wait_ctx) (w_co_ wait_ctx);; act Suspend;; others) e1.
Proof.
  destruct (act_setfl_tables fd (Z.lor (getfl (trace e) fd) O_NONBLOCK) e) as (e1 & E1 & Ht & Hw & Hl).
  exists e1. split_and!; [done..|]. intros others. unfold do_io. cbn [negb]. rewrite bind_assoc, bind_get, bind_assoc. run E1.
  cbn [do_io_retry]. change (if decide (first _ = _) then _ else _) with (settled (mkTurn fi ag s (mret tt))).
  rewrite decide_True by done. cbn [sched meanwhile]. rewrite decide_True by done.
  unfold give_way. rewrite decide_False by lia. unfold mbind, M_bind.
  rewrite (register_wait_spec getfl event fd s co e1 Hev Hco).
  destruct (RegisterEvent _ _ _ _ _ _ _ e1) as [[[]| | |] e2]; try done. cbn.
  by destruct (others _) as [[[]| | |] e3].
Qed.

Lemma wake_wait_ctx : ReactorLive.wake event wait_ctx = Some (TimeWheel.Resume co).
Proof. unfold wait_ctx. by destruct Hev as [-> | ->]. Qed.

Lemma has_event : has event event = true.
Proof. by destruct Hev as [-> | ->]. Qed.

Lemma register_ends r : (Reactor.register event fd wait_ctx r).1 ≠ NoFuel.
Proof.
  unfold Reactor.register. rewrite bind_get. destruct (Reactor.watch r !! fd) as [[c|]|]; try done.
  by destruct (has (type_ c) event).
Qed.

(** On the table: whoever is waited for afterwards. *)
Lemma register_waiting r r' p : Reactor.held r = None → Reactor.register event fd wait_ctx r = (Ok tt, r') →
  match Reactor.watch r !! fd with
  | Some (Some c) => if has (type_ c) event then ReactorLive.wake event c else Some (TimeWheel.Resume co)
  | _ => Some (TimeWheel.Resume co)
  end = Some p → ReactorLive.waiting event fd p r'.
Proof.
  intros Hh. unfold Reactor.register. rewrite bind_get.
  assert (∀ q : Reactor.Reactor, Reactor.watch q !! fd = Some (Some wait_ctx) → Reactor.held q = None →
    Some (TimeWheel.Resume co) = Some p → ReactorLive.waiting event fd p q) as Hnew.
  { intros q Hq Hhq [= <-]. exists wait_ctx. split_and!; [done|apply has_event|apply wake_wait_ctx|]. by rewrite Hhq. }
  destruct (Reactor.watch r !! fd) as [[c|]|] eqn:E; [|done|].
  - destruct (has (type_ c) event) eqn:Eh.
    + intros [= <-] Hp. exists c. split_and!; [done..|]. by rewrite Hh.
    + intros [= <-]. unfold Reactor.update_held. cbn. rewrite Hh. apply Hnew; [by apply lookup_insert_eq|done].
  - intros [= <-]. apply Hnew; [by apply lookup_insert_eq|done].
Qed.

Context (script : TimeWheel.payload → list epoll_op * option exn) (Hscript : ∀ q, Forall ReactorProps.op_ok (script q).1).
Abbreviation rel := (ReactorProps.matches ReactorProps.at_rest None).

(** [do_io] over the event loop. *)
Lemma do_io_simulates turns e r : rel e r →
  ReactorProps.simulates rel rel
    (λ n, do_io getfl true event fd [mkTurn fi ag s (Eventloop getfl address script n turns)];; mret tt)
    (Reactor.register event fd wait_ctx;; Reactor.run_turns script (ReactorProps.turn_seen address <$> turns)) e r.
Proof.
  intros Hm. destruct (do_io_waits e) as (e1 & Ht & Hw & Hl & E).
  eapply (ReactorProps.simulates_from _ _ _ (λ n, _;; act Suspend;; Eventloop getfl address script n turns));
    [intros n; apply E|done|].
  apply (ReactorProps.simulates_bind _ rel _ (λ _, RegisterEvent getfl event fd None None (r_co_ wait_ctx) (w_co_ wait_ctx))
    (λ n, act Suspend;; Eventloop getfl address script n turns)).
  - apply ReactorProps.register_simulates; [by apply io_event_valid|by eapply ReactorProps.matches_same].
  - clear - Hscript. intros e r Hm.
    eapply (ReactorProps.simulates_from _ _ _ (λ n, Eventloop getfl address script n turns) _ _ _ (act Suspend e).2);
      [done|done|]. apply ReactorProps.Eventloop_simulates; [done|].
    apply (ReactorProps.matches_same _ _ e); [done| |done|exact Hm]. split; [done|]. split; [done|]. apply kernel_traced.
Qed.

End Waiter.

(** [C31] A coroutine [co] that meets [EAGAIN] in [do_io] registers, gives way, and
    the event loop runs meanwhile. Every time the event loop is told of the event,
    [co] is resumed, unless the descriptor was already registered in that
    direction: then the new registration is ignored and it is whoever registered
    first, for example a coroutine that has long returned from its own wait, as
    nothing cancels a registration when the wait ends. This is so whatever else is
    registered beforehand, whatever is reported, and whatever the callbacks do
    meanwhile (as in [Eventloop_refines]), as long as none of them cancels this
    direction of the descriptor or registers it in the other direction alone
    ([other_direction_replaces_waiter]), and none stops the loop, throws or crashes
    it. *)
Theorem waiter_is_woken {Mem} getfl address script event fd start setup first again (s : Schedule Mem) co turns p :
  io_event event → Forall ReactorProps.op_ok setup → (∀ q, Forall ReactorProps.op_ok (script q).1) →
  (∀ q, Forall (ReactorLive.spares event fd) (script q).1) →
  last (co_stack_ s) = Some co → (2 ≤ GetInvokeDeepth s)%nat →
  settled (mkTurn first again s (mret tt)) = IoFail EAGAIN →
  match overlapping (exec_ops getfl setup (Epoll_new start)).2 event fd with
  | Some c => ReactorLive.wake event c
  | None => Some (TimeWheel.Resume co)
  end = Some p →
  ∃ fuel o e, (∀ n, (fuel ≤ n)%nat →
      (exec_ops getfl setup;;
       do_io getfl true event fd [mkTurn first again s (Eventloop getfl address script n turns)];; mret tt)
      (Epoll_new start) = (o, e)) ∧
    (o = NoFuel →
     (ReactorLive.reports event fd (concat (ReactorProps.turn_seen address <$> turns).*1) ≤
      ReactorLive.times p (TimeWheel.performed (wheel e)))%nat).
Proof.
  intros Hev Hsetup Hscript Hspare Hco Hd Ha Hp. set (rel := ReactorProps.matches ReactorProps.at_rest None).
  set (seen := ReactorProps.turn_seen address <$> turns). set (c := wait_ctx event co).
  assert (ReactorProps.simulates rel rel (λ _ : nat, exec_ops getfl setup) (Reactor.do_ops setup) (Epoll_new start)
    (Reactor.Reactor_new start)) as Hs
    by (apply ReactorProps.do_ops_simulates; [apply _|done|apply ReactorProps.Epoll_new_matches]).
  set (spec := Reactor.do_ops setup;; Reactor.register event fd c;; Reactor.run_turns script seen).
  assert (ReactorProps.simulates rel rel (λ n, exec_ops getfl setup;;
      do_io getfl true event fd [mkTurn first again s (Eventloop getfl address script n turns)];; mret tt)
    spec (Epoll_new start) (Reactor.Reactor_new start)) as (fuel & e & E & _ & HQ).
  { apply (ReactorProps.simulates_bind _ rel _ (λ _, exec_ops getfl setup) (λ n, _;; mret tt)); [exact Hs|].
    intros e r Hm. by apply do_io_simulates. }
  exists fuel, (spec (Reactor.Reactor_new start)).1, e. split; [exact E|]. intros Hn.
  rewrite (ReactorProps.ma_calls _ _ _ _ (HQ Hn)). clear E HQ. revert Hn. unfold spec.
  destruct Hs as (k & e0 & E0 & Hm & _). specialize (E0 k ltac:(lia)). rewrite E0 in Hp. cbn [fst snd] in *.
  pose proof (ReactorLive.do_ops_grows setup (Reactor.Reactor_new start)) as Hg.
  destruct (Reactor.do_ops setup _) as [[[]|x|x|] r1] eqn:Es;
    [|by rewrite ?(bind_throw _ _ _ _ _ Es), ?(bind_undef _ _ _ _ _ Es)..|done]. clear Hg.
  specialize (Hm eq_refl). rewrite (overlapping_watch _ _ _ _ event fd Hm) in Hp. cbn [snd] in Hm, Hp.
  assert (Reactor.held r1 = None) as Hh by (pose proof (ReactorProps.ma_held _ _ _ _ Hm) as Hh; by destruct (Reactor.held r1) as [[]|]).
  run Es. destruct (Reactor.register event fd c r1) as [[[]|x|x|] r2] eqn:Er;
    [|by rewrite ?(bind_throw _ _ _ _ _ Er), ?(bind_undef _ _ _ _ _ Er)..|].
  2: { destruct (register_ends event fd co r1). fold c. by rewrite Er. }
  run Er. destruct (Reactor.run_turns script seen r2) as [o r3] eqn:El. cbn [fst snd]. intros ->.
  assert (ReactorLive.waiting event fd p r2) as Hw.
  { apply (register_waiting event fd Hev co r1 r2 p Hh Er). rewrite <- Hp.
    destruct (Reactor.watch r1 !! fd) as [[d|]|]; try done. by destruct (has (type_ d) event). }
  pose proof (ReactorLive.run_turns_answers event fd Hev p script Hspare seen r2 r3 Hw El). lia.
Qed.

(** Coroutine 5 waits to read from descriptor 7, which is reported twice; before it
    coroutine 1 has waited for descriptor 9, to write. *)
Lemma waiter_is_woken_witness :
  ∃ fuel o e, (∀ n, (fuel ≤ n)%nat →
      (exec_ops (λ _ _, 0) [OpRegister WRITE 9 None None None (Some 1%nat)];;
       do_io (λ _ _, 0) true READ 7 [mkTurn (IoFail EINTR) (IoFail EAGAIN) (in_coroutine 5)
         (Eventloop (λ _ _, 0) Zpos (λ q, if decide (q = TimeWheel.Resume 5) then ([OpRegister READ 7 None None (Some 5%nat) None], None) else ([], None)) n
           [LoopInput 0 [(data_fd 9, false, true); (data_fd 7, true, false)] 1; LoopInput 1 [(data_fd 7, true, false)] 2])];; mret tt)
      (Epoll_new 0) = (o, e)) ∧
    (o = NoFuel → (2 ≤ ReactorLive.times (TimeWheel.Resume 5) (TimeWheel.performed (wheel e)))%nat).
Proof.
  destruct (waiter_is_woken (λ _ _, 0) Zpos
    (λ q, if decide (q = TimeWheel.Resume 5) then ([OpRegister READ 7 None None (Some 5%nat) None], None) else ([], None))
    READ 7 0 [OpRegister WRITE 9 None None None (Some 1%nat)] (IoFail EINTR) (IoFail EAGAIN) (in_coroutine 5) 5
    [LoopInput 0 [(data_fd 9, false, true); (data_fd 7, true, false)] 1; LoopInput 1 [(data_fd 7, true, false)] 2]
    (TimeWheel.Resume 5)) as (fuel & o & e & E & H).
  - by left.
  - apply Forall_singleton. by right; left.
  - intros q. destruct (decide _); [apply Forall_singleton; by left|apply Forall_nil_2].
  - intros q. destruct (decide _); [apply Forall_singleton; by intros _|apply Forall_nil_2].
  - reflexivity.
  - cbn. lia.
  - reflexivity.
  - vm_compute. reflexivity.
  - exists fuel, o, e. split; [exact E|]. intros Ho. etrans; [|exact (H Ho)]. vm_compute. lia.
Defined.

(** A coroutine waits to read and another one, while the loop runs, to write to the
    same descriptor: the second registration replaces the first, and the event for
    reading wakes nobody. *)
Lemma other_direction_replaces_waiter :
  let script p := if decide (p = TimeWheel.Func 1) then ([OpRegister WRITE 7 None None None (Some 2%nat)], None) else ([], None) in
  let r := (exec_ops (λ _ _, 0) [OpRegister READ 8 (Some 1%nat) None None None];;
    do_io (λ _ _, 0) true READ 7 [mkTurn (IoFail EAGAIN) (IoDone 0) (in_coroutine 5)
      (Eventloop (λ _ _, 0) Zpos script 5
        [LoopInput 0 [(data_fd 8, true, false)] 1; LoopInput 1 [(data_fd 7, true, false)] 2])]) (Epoll_new 0) in
  r.1 = NoFuel ∧ TimeWheel.performed (wheel r.2) = [TimeWheel.Func 1].
Proof. vm_compute. split; reflexivity. Qed.

(** ** Sleeping *)

Lemma due_at_one k t i pl :
  TimeWheelProps.callee i = Some pl →
  TimeWheelProps.due_at k [(t, i)] = if decide (t = k) then [pl] else [].
Proof. intros Hi. unfold TimeWheelProps.due_at. cbn. destruct (decide _); by rewrite ?Hi. Qed.

(** One deadline is met by the tick it falls on. *)
Lemma due_before_one n t i pl :
  0 ≤ t → TimeWheelProps.callee i = Some pl →
  TimeWheelProps.due_before n [(t, i)] = if decide (t < Z.of_nat n) then [pl] else [].
Proof.
  intros Ht Hi. unfold TimeWheelProps.due_before. induction n as [|n IH].
  - by rewrite decide_False by lia.
  - replace (Z.of_nat (S n)) with (Z.of_nat n + 1) by lia.
    rewrite seqZ_app, fmap_app, concat_app by lia.
    assert (seqZ (0 + Z.of_nat n) 1 = [Z.of_nat n]) as -> by (unfold seqZ; cbn; f_equal; lia).
    cbn [fmap list_fmap concat]. rewrite IH, (due_at_one _ t i pl Hi), app_nil_r.
    repeat destruct (decide _); done || lia.
Qed.

(** A sleeping coroutine and the wheel: if its thread next runs the timers
    at [now], it is resumed, once, exactly when more than
    [seconds * 1000 mod 2^32] milliseconds have gone by since.  The product is
    taken in 32 bits, so a sleep of 4294968 s, seven weeks, ends after 704 ms. *)
Theorem sleep_wakes {Mem} original clock seconds (s : Schedule Mem) co others script fuel now :
  TimeWheelProps.passive script → wrap u32 (seconds * 1000) < 2 ^ 31 →
  last (co_stack_ s) = Some co → (2 ≤ GetInvokeDeepth s)%nat → clock < now → (2 < fuel)%nat →
  (∀ e, others e = (Ok tt, e)) →
  ∃ e, (Hook.sleep true original clock seconds s others;;
        on_wheel (TimeWheel.ExecuteTimeout (TimeWheel.perform script) fuel now)) (Epoll_new clock) = (Ok tt, e) ∧
    TimeWheel.performed (wheel e) =
      if decide (wrap u32 (seconds * 1000) < now - clock) then [TimeWheel.Resume co] else [].
Proof.
  intros Hsc Ht Hco Hd Hnow Hf Ho. set (t := wrap u32 (seconds * 1000)) in *.
  assert (0 ≤ t) as Ht0 by (unfold t, wrap, wrap_u; cbn; apply Z.mod_pos_bound; lia).
  assert (Forall TimeWheelProps.op_ok [TimeWheelProps.Add clock t None (Some co); TimeWheelProps.Exec now])
    as Hops.
  { apply Forall_cons_2; [|apply Forall_cons_2; [done|apply Forall_nil_2]].
    split; [lia|by eexists]. }
  destruct (TimeWheelProps.exec_wheel_ops_refines script fuel 1 _ Hsc Hops
    (TimeWheel.TimeWheel_new 1000 1 clock) ([], clock, [])) as (w & E & Hw);
    [by apply TimeWheelProps.TimeWheel_new_represents|cbn; lia|].
  cbn [TimeWheelProps.exec_wheel_ops TimeWheelProps.exec_wheel_op] in E.
  destruct Hw as (_ & _ & _ & Hp). cbn [foldl TimeWheelProps.spec_op] in Hp.
  rewrite decide_False in Hp by lia. cbn [app snd] in Hp. rewrite !Z.div_1_r in Hp.
  rewrite (due_before_one _ t _ (TimeWheel.Resume co)) in Hp by done.
  rewrite Z2Nat.id in Hp by lia.
  unfold mbind at 1, M_bind at 1 in E.
  destruct (TimeWheel.AddTimer clock t None (Some co) 1 _) as [[[]| | |] w1] eqn:E1; try done.
  unfold mbind, M_bind in E.
  destruct (TimeWheel.ExecuteTimeout (TimeWheel.perform script) fuel now w1) as [[[]| | |] w2] eqn:E2; try done.
  injection E as ->.
  assert (Hook.sleep true original clock seconds s others (Epoll_new clock)
    = (Ok 0, mkEpoll w1 ∅ ∅ false [Suspend])) as Es.
  { unfold Hook.sleep, GetCurrentCo. cbn [negb]. rewrite Hco. unfold give_way.
    rewrite decide_False by lia. unfold mbind, M_bind, lift, on_wheel. cbn [wheel Epoll_new].
    fold t. rewrite E1. cbn. by rewrite Ho. }
  rewrite (bind_ok _ _ _ _ _ Es). unfold on_wheel. cbn [wheel]. rewrite E2.
  eexists. split; [done|]. exact Hp.
Qed.

Lemma sleep_wakes_witness :
  ∃ e, (Hook.sleep true 0 0 4294968 (in_coroutine 1) (mret tt);;
        on_wheel (TimeWheel.ExecuteTimeout (TimeWheel.perform (λ _, ([], None))) 3 705)) (Epoll_new 0) = (Ok tt, e) ∧
    TimeWheel.performed (wheel e) = [TimeWheel.Resume 1].
Proof.
  destruct (sleep_wakes 0 0 4294968 (in_coroutine 1) 1 (mret tt : M Epoll unit) (λ _, ([], None)) 3 705) as (e & E & Hp);
    [done|vm_compute; reflexivity|reflexivity|cbn; lia|lia|lia|done|].
  exists e. split; [exact E|exact Hp].
Defined.

(** *** Sleeping while the event loop runs *)

Lemma milliseconds_even seconds : wrap u32 (seconds * 1000) mod 1000 ≠ 999.
Proof.
  unfold wrap, wrap_u. cbn [isigned ibits u32]. intros H.
  pose proof (Z.div_mod (seconds * 1000) (2 ^ 32) ltac:(done)) as E1.
  pose proof (Z.div_mod (seconds * 1000 mod 2 ^ 32) 1000 ltac:(done)) as E2. rewrite H in E2.
  change (2 ^ 32) with 4294967296 in *. lia.
Qed.

Section Sleeper.
Context {Mem : Type} (getfl : list action → Z → Z) (address : ptr → Z).
Context (script : TimeWheel.payload → list epoll_op * option exn) (s : Schedule Mem) (co : nat).
Hypothesis (Hco : last (co_stack_ s) = Some co) (Hd : (2 ≤ GetInvokeDeepth s)%nat).

Definition sleeper_timer (clock seconds : Z) : TimeWheel.timer_op :=
  TimeWheel.OpAddTimer clock (wrap u32 (seconds * 1000)) None (Some co) 1.

Lemma sleeper_timer_ok clock seconds : wrap u32 (seconds * 1000) < 2 ^ 31 →
  ReactorProps.timer_ok (sleeper_timer clock seconds).
Proof.
  intros Ht. split; [done|]. split; [|split; [apply milliseconds_even|by eexists]].
  split; [|done]. unfold wrap, wrap_u. apply Z.mod_pos_bound. done.
Qed.

(** [sleep] adds its timer and gives the thread away. *)
Lemma sleep_step original clock seconds e r : wrap u32 (seconds * 1000) < 2 ^ 31 →
  ReactorProps.matches ReactorProps.at_rest None e r →
  ∃ e', Hook.sleep true original clock seconds s (mret tt) e = (Ok 0, e') ∧
    ReactorProps.matches ReactorProps.at_rest None e' (Reactor.add_timer (sleeper_timer clock seconds) r).2.
Proof.
  intros Ht Hm.
  destruct (ReactorProps.do_op_simulates getfl (λ _ _, True) ReactorProps.at_rest None
    (OpTimer (sleeper_timer clock seconds)) e r (sleeper_timer_ok clock seconds Ht) Hm) as (n & e1 & E1 & Hm1 & _).
  specialize (E1 n ltac:(lia)). specialize (Hm1 eq_refl). cbn [exec_op TimeWheel.exec_timer_op sleeper_timer] in E1.
  exists (act Suspend e1).2. split.
  - unfold Hook.sleep, GetCurrentCo. cbn [negb]. rewrite Hco, bind_lift_ok. run E1.
    unfold give_way. by rewrite decide_False by lia.
  - apply (ReactorProps.matches_same _ _ e1); [done| |done|exact Hm1].
    split; [done|]. split; [done|]. apply kernel_traced.
Qed.

End Sleeper.

(** [C32] A coroutine that sleeps before the event loop is entered is resumed, by
    the first turn whose clock reading is more than [seconds * 1000 mod 2^32]
    milliseconds past the time when the timers were last run, provided that this
    is below [2^31]: whatever events are reported, and whatever all other callbacks
    do (and was done beforehand) within the conditions of [Eventloop_refines], that
    is, timers are one-shot, with timeouts below [2^31] that are not 999 modulo 1000
    ([self_rearming_callback_diverges]), unless a callback stops the loop, throws or
    crashes it first.  The time of the call itself ([clock]) plays no part. *)
Theorem sleeper_is_woken {Mem} getfl address script original clock start setup seconds (s : Schedule Mem) co turns :
  Forall ReactorProps.op_ok setup → (∀ p, Forall ReactorProps.op_ok (script p).1) →
  last (co_stack_ s) = Some co → (2 ≤ GetInvokeDeepth s)%nat → wrap u32 (seconds * 1000) < 2 ^ 31 →
  ∃ fuel o e, (∀ n, (fuel ≤ n)%nat →
      (exec_ops getfl setup;; Hook.sleep true original clock seconds s (mret tt);;
       Eventloop getfl address script n turns) (Epoll_new start) = (o, e)) ∧
    (o = NoFuel → (∃ t, t ∈ turns ∧ start + wrap u32 (seconds * 1000) < now_after t) →
     TimeWheel.Resume co ∈ TimeWheel.performed (wheel e)).
Proof.
  intros Hsetup Hscript Hco Hd Ht. set (ms := wrap u32 (seconds * 1000)) in *.
  set (seen := ReactorProps.turn_seen address <$> turns).
  set (spec := Reactor.do_ops setup;; Reactor.add_timer (sleeper_timer co clock seconds);; Reactor.run_turns script seen).
  set (rel := ReactorProps.matches ReactorProps.at_rest None).
  assert (ReactorProps.simulates rel rel (λ n, exec_ops getfl setup;; Hook.sleep true original clock seconds s (mret tt);;
       Eventloop getfl address script n turns) spec (Epoll_new start) (Reactor.Reactor_new start))
    as (fuel & e & E & _ & HQ).
  { apply (ReactorProps.simulates_bind _ rel _ (λ _, exec_ops getfl setup) (λ n, _;; Eventloop getfl address script n turns)).
    - by apply ReactorProps.do_ops_simulates; [apply _|..|apply ReactorProps.Epoll_new_matches].
    - intros e r Hm. destruct (sleep_step getfl s co Hco Hd original clock seconds e r Ht Hm) as (e1 & E1 & Hm1).
      apply ReactorProps.simulates_before.
      eapply (ReactorProps.simulates_from _ _ _ (λ n, Eventloop getfl address script n turns));
        [intros n; by run E1|done|by apply ReactorProps.Eventloop_simulates]. }
  exists fuel, (spec (Reactor.Reactor_new start)).1, e. split; [exact E|]. intros Hn (t & Hin & Hlt).
  specialize (HQ Hn). rewrite (ReactorProps.ma_calls _ _ _ _ HQ). clear E HQ. revert Hn. unfold spec.
  pose proof (ReactorLive.do_ops_grows setup (Reactor.Reactor_new start)) as Hg.
  destruct (Reactor.do_ops setup _) as [[[]|x|x|] r1] eqn:Es; [|by rewrite ?(bind_throw _ _ _ _ _ Es), ?(bind_undef _ _ _ _ _ Es)..|done].
  destruct Hg as (_ & _ & Hl). cbn [Reactor.last Reactor.Reactor_new] in Hl. run Es.
  set (r2 := Reactor.set_timers (Reactor.timers r1 ++ [(ms, TimeWheel.mkItem 0 ms clock 1 None (Some co))]) r1).
  assert ((Reactor.add_timer (sleeper_timer co clock seconds);; Reactor.run_turns script seen) r1 =
    Reactor.run_turns script seen r2) as -> by done.
  destruct (Reactor.run_turns script seen r2) as [o r'] eqn:Er. cbn [fst snd]. intros ->.
  assert (0 ≤ ms) by (apply Z.mod_pos_bound; done).
  eapply (ReactorLive.run_turns_calls script seen (start + ms) (TimeWheel.Resume co) r2 r'); [| |exact Er|].
  - left. change (Reactor.last r2) with (Reactor.last r1). lia.
  - right. eexists. split; [|by instantiate (1 := TimeWheel.mkItem 0 ms clock 1 None (Some co))].
    change (Reactor.last r2) with (Reactor.last r1). rewrite Hl. replace (start + ms - start) with ms by lia. apply elem_of_app. right. by left.
  - exists (ReactorProps.turn_seen address t). split; [by apply list_elem_of_fmap_2|done].
Qed.

Lemma sleeper_is_woken_witness :
  ∃ fuel o e, (∀ n, (fuel ≤ n)%nat →
      (exec_ops (λ _ _, 0) [OpRegister READ 7 (Some 1%nat) None None None];;
       Hook.sleep true 0 2 1 (in_coroutine 5) (mret tt);;
       Eventloop (λ _ _, 0) Zpos (λ p, if decide (p = TimeWheel.Func 1) then ([OpCancel READ 7], None) else ([], None)) n
         [LoopInput 2 [(data_fd 7, true, false)] 500; LoopInput 500 [] 1001]) (Epoll_new 0) = (o, e)) ∧
    (o = NoFuel → TimeWheel.Resume 5 ∈ TimeWheel.performed (wheel e)).
Proof.
  destruct (sleeper_is_woken (λ _ _, 0) Zpos (λ p, if decide (p = TimeWheel.Func 1) then ([OpCancel READ 7], None) else ([], None))
    0 2 0 [OpRegister READ 7 (Some 1%nat) None None None] 1 (in_coroutine 5) 5
    [LoopInput 2 [(data_fd 7, true, false)] 500; LoopInput 500 [] 1001]) as (fuel & o & e & E & H).
  - apply Forall_singleton. by left.
  - intros p. destruct (decide _); [apply Forall_singleton; by left|apply Forall_nil_2].
  - reflexivity.
  - cbn. lia.
  - vm_compute. reflexivity.
  - exists fuel, o, e. split; [exact E|]. intros Ho. apply (H Ho). eexists. split; [right; by left|].
    vm_compute. reflexivity.
Defined.

(** A coroutine woken by an event after 900 quiet milliseconds sleeps 500 ms: the
    timers run in the same turn, and count the time since they ran last. *)
Lemma sleep_cut_short :
  TimeWheel.performed (wheel ((exec_ops (λ _ _, 0) [OpRegister READ 7 None None (Some 1%nat) None];;
    Eventloop (λ _ _, 0) Zpos
      (λ p, if decide (p = TimeWheel.Resume 1) then ([OpTimer (TimeWheel.OpAddTimer 900 500 None (Some 2%nat) 1)], None)
            else ([], None)) 5
      [LoopInput 0 [(data_fd 7, true, false)] 901]) (Epoll_new 0)).2)
    = [TimeWheel.Resume 1; TimeWheel.Resume 2].
Proof. vm_compute. reflexivity. Qed.

(** Coroutine 1, woken from a first nap, takes a second one of 999 ms. *)
Definition napping (p : TimeWheel.payload) : M Epoll unit :=
  on_wheel (modify (TimeWheel.log p));;
  e ← get;
  if decide (length (TimeWheel.performed (wheel e)) = 1%nat)
  then usleep true 0 2 999000 (in_coroutine 1) (mret tt);; mret tt
  else mret tt.

(** The second nap is one tick short of a turn of the wheel: its timer is put into
    the slot that is being run, and it ends with the first one. *)
Lemma second_nap_ends_at_once :
  let r := (usleep true 0 0 1000 (in_coroutine 1) (mret tt);;
            on_base (TimeWheel.ExecuteTimeout (λ p, from_base (napping p)) 5 2)) (Epoll_new 0) in
  r.1 = Ok tt ∧ TimeWheel.performed (wheel r.2) = [TimeWheel.Resume 1; TimeWheel.Resume 1].
Proof. vm_compute. split; reflexivity. Qed.

End HookProps.
