(* ===== verification/Log.v ===== *)
(** * Logging

    [src/include/log.hh] and [src/log.cc]: levels, events, the pattern parser
    of [LogFormatter] with its items, loggers with the macros, and the manager.
    One operation is one step here; that the locks make it so is the subject of
    [ConcurrentLog.v]. *)

From stdpp Require Import pretty.
From S2P Require Import Prelude CStr.
Import CStr.

Module LogLevel.
Inductive Level := UNKNOW | DEBUG | INFO | WARN | ERROR | FATAL.
#[global] Instance Level_eq_dec : EqDecision Level.
Proof. solve_decision. Defined.

(** The enumerators' values. *)
Definition value (l : Level) : nat :=
  match l with UNKNOW => 0 | DEBUG => 1 | INFO => 2 | WARN => 3 | ERROR => 4 | FATAL => 5 end.

Definition ToString (l : Level) : str :=
  match l with
  | UNKNOW => lit "UNKNOW" | DEBUG => lit "DEBUG" | INFO => lit "INFO"
  | WARN => lit "WARN" | ERROR => lit "ERROR" | FATAL => lit "FATAL"
  end.

Definition FromString (s : str) : Level :=
  let s := toupper <$> s in
  if decide (lit "DEBUG" = s) then DEBUG
  else if decide (lit "INFO" = s) then INFO
  else if decide (lit "WARN" = s) then WARN
  else if decide (lit "ERROR" = s) then ERROR
  else if decide (lit "FATAL" = s) then FATAL
  else UNKNOW.
End LogLevel.

Module Log.
Export LogLevel(Level).

Record LogEvent := mkEvent {
  logger_name_ : str;
  filename_ : str;
  level_ : Level;
  line_ : Z;
  eplase_ : Z;
  thread_id_ : Z;
  coroutine_id_ : Z;
  timestamp_ : Z;
  stream_ : str }.

(** The constructor. *)
Definition LogEvent_new (name filename : str) (level : Level)
    (line eplase thread_id coroutine_id timestamp : Z) : LogEvent :=
  mkEvent name filename level line eplase thread_id coroutine_id timestamp [].

(** [stream_ << text]. *)
Definition stream_insert (text : str) (e : LogEvent) : LogEvent :=
  mkEvent (logger_name_ e) (filename_ e) (level_ e) (line_ e) (eplase_ e) (thread_id_ e)
    (coroutine_id_ e) (timestamp_ e) (stream_ e ++ text).

(** [LogEvent::Format].  [vasprintf] gives the text up to its null byte; when it
    fails [buf] is indeterminate. *)
Definition event_Format {arg : Type} (vasprintf : str → list arg → option str)
    (fmt : str) (val : list arg) (e : LogEvent) : outcome LogEvent :=
  match vasprintf fmt val with
  | Some buf => Ok (stream_insert buf e)
  | None => Undef "indeterminate buffer"
  end.

(** ** Formatter items *)

(** The classes derived from [FormatterItem]. *)
Inductive FormatterItem :=
| MessageFormatterItem
| LoggernameFormatterItem
| FilenameFormatterItem
| LevelFormatterItem
| LineFormatterItem
| EplaseFormatterItem
| ThreadIdFormatterItem
| CoroutineIdFormatterItem
| TimestampFormatterItem (time_format_ : str)
| TabFormatterItem
| BreaksFormatterItem
| StringFormatterItem (content_ : str).

Section Format.
(** [strftime] of [localtime]: [None] when the result does not fit the 128
    bytes of [buf], whose content is then indeterminate. *)
Context (strftime : str → Z → option str).

Definition item_Format (it : FormatterItem) (event : LogEvent) : outcome str :=
  match it with
  | MessageFormatterItem => Ok (stream_ event)
  | LoggernameFormatterItem => Ok (logger_name_ event)
  | FilenameFormatterItem => Ok (filename_ event)
  | LevelFormatterItem => Ok (LogLevel.ToString (level_ event))
  | LineFormatterItem => Ok (to_string (line_ event))
  | EplaseFormatterItem => Ok (to_string (eplase_ event))
  | ThreadIdFormatterItem => Ok (to_string (thread_id_ event))
  | CoroutineIdFormatterItem => Ok (to_string (coroutine_id_ event))
  | TimestampFormatterItem f =>
      match strftime f (timestamp_ event) with
      | Some s => Ok s
      | None => Undef "indeterminate buffer"
      end
  | TabFormatterItem => Ok (lit (String "009" ""))
  | BreaksFormatterItem => Ok [lf]
  | StringFormatterItem s => Ok s
  end.

Fixpoint Format (items_ : list FormatterItem) (event : LogEvent) : outcome str :=
  match items_ with
  | [] => Ok []
  | it :: items => s ← item_Format it event; t ← Format items event; Ok (s ++ t)
  end.
End Format.

(** ** The pattern parser *)

Definition isalpha (c : ascii) : bool :=
  ((65 <=? code c) && (code c <=? 90) || (97 <=? code c) && (code c <=? 122))%N.

(** A tuple of [vec]: text, details, and whether it is an item. *)
Definition parsed : Type := str * str * bool.

(** The [while] over [idx] on the item that starts at [i]: the position, the
    flag, the name and the details on leaving it. *)
Fixpoint scan_item (fuel : nat) (pattern : str) (i idx : nat) (flag : bool) (start : nat)
    (character details : str) : outcome (nat * bool * str * str) :=
  match fuel with
  | O => NoFuel
  | S fuel' =>
      match pattern !! idx with
      | None => Ok (idx, flag, character, details)
      | Some c =>
          if negb flag && negb (isalpha c) && bool_decide (c ≠ "{"%char) && bool_decide (c ≠ "}"%char)
          then
            character ← substr pattern (i + 1) (Some (idx - i - 1));
            Ok (idx, flag, character, details)
          else if negb flag && bool_decide (c = "{"%char) then
            character ← substr pattern (i + 1) (Some (idx - i - 1));
            scan_item fuel' pattern i (idx + 1) true idx character details
          else if flag && bool_decide (c = "}"%char) then
            details ← substr pattern (start + 1) (Some (idx - start - 1));
            Ok (idx + 1, false, character, details)
          else if decide (idx + 1 = length pattern) then
            character ← substr pattern (i + 1) (Some (idx + 1 - i - 1));
            Ok (idx + 1, flag, character, details)
          else scan_item fuel' pattern i (idx + 1) flag start character details
      end
  end.

(** [if (!nstr.empty()) vec.push_back(..)]. *)
Definition flush_literal (nstr : str) (vec : list parsed) : list parsed :=
  match nstr with [] => vec | _ => vec ++ [(nstr, [], false)] end.

Definition parse_error : str := lit "<<parse-error>>".

(** The [for] over [i]. What is left in [nstr] at the end is not used. *)
Fixpoint scan (fuel : nat) (pattern : str) (i : nat) (nstr : str) (vec : list parsed)
    : outcome (list parsed) :=
  match fuel with
  | O => NoFuel
  | S fuel' =>
      match pattern !! i with
      | None => Ok vec
      | Some c =>
          if bool_decide (c ≠ "%"%char) then scan fuel' pattern (i + 1) (nstr ++ [c]) vec
          else if bool_decide (pattern !! (i + 1) = Some "%"%char)
          then scan fuel' pattern (i + 2) (nstr ++ ["%"%char]) vec
          else
            '(idx, flag, character, details) ←
              scan_item (S (length pattern)) pattern i (i + 1) false 0 [] [];
            let vec := flush_literal nstr vec in
            if negb (flag : bool)
            then scan fuel' pattern idx [] (vec ++ [(character, details, true)])
            else scan fuel' pattern (i + 1) [] (vec ++ [(parse_error, [], false)])
      end
  end.

(** The map [m] from names to constructors. *)
Definition item_of_name (name details : str) : FormatterItem :=
  if decide (name = lit "m") then MessageFormatterItem
  else if decide (name = lit "p") then LevelFormatterItem
  else if decide (name = lit "d") then TimestampFormatterItem details
  else if decide (name = lit "T") then TabFormatterItem
  else if decide (name = lit "t") then ThreadIdFormatterItem
  else if decide (name = lit "F") then CoroutineIdFormatterItem
  else if decide (name = lit "c") then LoggernameFormatterItem
  else if decide (name = lit "f") then FilenameFormatterItem
  else if decide (name = lit "l") then LineFormatterItem
  else if decide (name = lit "n") then BreaksFormatterItem
  else if decide (name = lit "u") then EplaseFormatterItem
  else StringFormatterItem parse_error.

Definition item_of_parsed (p : parsed) : FormatterItem :=
  let '(s, details, flag) := p in
  if (flag : bool) then item_of_name s details else StringFormatterItem s.

(** [LogFormatter::Init]. *)
Definition Init (pattern : str) : outcome (list FormatterItem) :=
  vec ← scan (S (length pattern)) pattern 0 [] [];
  Ok (map item_of_parsed vec).

(** ** Loggers *)

(** Where an appender writes; [items_] of its formatter. *)
Inductive LogAppender :=
| LogAppenderToStd
| LogAppenderToFile (file : str).

Record Appender := mkAppender { sink : LogAppender; formatter_ : list FormatterItem }.

Definition GetAppenderName (a : Appender) : str :=
  match sink a with LogAppenderToStd => lit "LogAppenderToStd" | LogAppenderToFile _ => lit "LogAppenderToFile" end.

(** Appenders are shared by pointer. *)
Record Logger := mkLogger {
  name_ : str;
  max_level_ : Level;
  appenders_ : list nat }.

Definition Logger_new (name : str) : Logger := mkLogger name LogLevel.DEBUG [].
Definition SetMaxLevel (l : Level) (lg : Logger) : Logger := mkLogger (name_ lg) l (appenders_ lg).
Definition AddAppender (item : nat) (lg : Logger) : Logger :=
  mkLogger (name_ lg) (max_level_ lg) (appenders_ lg ++ [item]).

(** The loop erases the element its iterator is at and then increments it. *)
Fixpoint del_loop (item : nat) (l : list nat) : outcome (list nat) :=
  match l with
  | [] => Ok []
  | x :: l => if decide (x = item) then Undef "increment of an erased iterator"
              else l ← del_loop item l; Ok (x :: l)
  end.
Definition DelAppender (item : nat) (lg : Logger) : outcome Logger :=
  l ← del_loop item (appenders_ lg); Ok (mkLogger (name_ lg) (max_level_ lg) l).

(** [max_level_ >= level]. *)
Definition enabled (max level : Level) : bool := LogLevel.value level <=? LogLevel.value max.

Section Logging.
Context (strftime : str → Z → option str) (appender : nat → Appender).

(** What is written, and where. *)
Fixpoint log_loop (max : Level) (l : list nat) (event : LogEvent) : outcome (list (nat * str)) :=
  match l with
  | [] => Ok []
  | it :: l =>
      out ← (if enabled max (level_ event)
             then s ← Format strftime (formatter_ (appender it)) event; Ok [(it, s)]
             else Ok []);
      outs ← log_loop max l event;
      Ok (out ++ outs)
  end.
Definition Logger_Log (lg : Logger) (event : LogEvent) : outcome (list (nat * str)) :=
  log_loop (max_level_ lg) (appenders_ lg) event.

(** [Logger::Flush]: the appenders that are flushed. *)
Definition Logger_Flush (lg : Logger) (event : LogEvent) : list nat :=
  flat_map (λ it, if enabled (max_level_ lg) (level_ event) then [it] else []) (appenders_ lg).

(** [Logger::CheckAppenders]: what is printed. *)
Definition CheckAppenders (lg : Logger) : str :=
  flat_map (λ it, GetAppenderName (appender it) ++ [lf]) (appenders_ lg).

(** [LogEventWrapper], whose destructor logs the event. *)
Record LogEventWrapper := mkWrapper { logger_ : Logger; event_ : LogEvent }.
Definition wrapper_destroy (w : LogEventWrapper) : outcome (list (nat * str)) := Logger_Log (logger_ w) (event_ w).

(** The part the macros share: the level is compared first, and the wrapper is only
    built for a level that is enabled. *)
Definition log_wrapper (lg : Logger) (level : Level) (file : str) (line tid time : Z) : option LogEventWrapper :=
  if enabled (max_level_ lg) level
  then Some (mkWrapper lg (LogEvent_new (name_ lg) file level line 0 tid 0 time))
  else None.

(** [SYLAR_LOG(logger, level) << message], to the end of the statement. *)
Definition SYLAR_LOG (lg : Logger) (level : Level) (file : str) (line tid time : Z) (message : str)
    : outcome (list (nat * str)) :=
  match log_wrapper lg level file line tid time with
  | Some w => wrapper_destroy (mkWrapper (logger_ w) (stream_insert message (event_ w)))
  | None => Ok []
  end.

(** [SYLAR_FMT_LOG(logger, level, fmt, ...)]. *)
Definition SYLAR_FMT_LOG {arg : Type} (vasprintf : str → list arg → option str)
    (lg : Logger) (level : Level) (file : str) (line tid time : Z) (fmt : str) (val : list arg)
    : outcome (list (nat * str)) :=
  match log_wrapper lg level file line tid time with
  | Some w => event ← event_Format vasprintf fmt val (event_ w); wrapper_destroy (mkWrapper (logger_ w) event)
  | None => Ok []
  end.
End Logging.

(** ** The manager *)

(** Loggers are shared by pointer: a heap of them, the root, and the map. *)
Record LoggerManager := mkManager {
  heap : list Logger;
  root_ : nat;
  loggers_ : dict str nat }.

(** [std_appender] is the appender the constructor creates. *)
Definition LoggerManager_new (std_appender : nat) : LoggerManager :=
  mkManager [AddAppender std_appender (SetMaxLevel LogLevel.FATAL (Logger_new (lit "root")))]
    0 (dset (lit "root") 0 []).
Definition GetRoot (m : LoggerManager) : nat := root_ m.
Definition SetRoot (p : nat) (m : LoggerManager) : LoggerManager := mkManager (heap m) p (loggers_ m).

Definition GetLogger (name : str) (m : LoggerManager) : outcome nat :=
  match dget name (loggers_ m) with
  | None => Throw (invalid_argument (string_of_list_ascii name))
  | Some p => Ok p
  end.

Definition NewLogger (name : str) (m : LoggerManager) : nat * LoggerManager :=
  match dget name (loggers_ m) with
  | None => (length (heap m), mkManager (heap m ++ [Logger_new name]) (root_ m)
                                (dset name (length (heap m)) (loggers_ m)))
  | Some p => (p, m)
  end.

Definition DelLogger (name : str) (m : LoggerManager) : LoggerManager :=
  match dget name (loggers_ m) with
  | None => m
  | Some _ => mkManager (heap m) (root_ m) (derase name (loggers_ m))
  end.

(** ** Configuration records *)

Record LogAppenderConf := mkAppenderConf { type_ : str; file_ : str; conf_formatter_ : str }.
Record LoggerConf := mkLoggerConf { conf_name_ : str; conf_level_ : str; conf_appenders_ : list LogAppenderConf }.

#[global] Instance LogAppenderConf_eq_dec : EqDecision LogAppenderConf.
Proof. solve_decision. Defined.
#[global] Instance LoggerConf_eq_dec : EqDecision LoggerConf.
Proof. solve_decision. Defined.

(** [operator<] compares the names only. *)
Definition LoggerConf_lt (lhs rhs : LoggerConf) : bool := klt (conf_name_ lhs) (conf_name_ rhs).

End Log.
