(* ===== verification/LogProps.v ===== *)
(** * Properties of the logging component

    The pattern parser is total and reads what its patterns mean; levels filter
    what is written; the manager hands out one logger per name. *)

From S2P Require Import Prelude CStr Log.
Import CStr Log.

Module LogProps.

(** ** The parser returns *)

Lemma scan_item_total fuel pattern i idx flag start ch d :
  i + 1 ≤ idx → idx ≤ length pattern → i < length pattern → start < length pattern →
  length pattern - idx < fuel →
  ∃ idx' flag' ch' d', scan_item fuel pattern i idx flag start ch d = Ok (idx', flag', ch', d') ∧
    i + 1 ≤ idx' ≤ length pattern.
Proof.
  revert idx flag start ch d. induction fuel as [|fuel IH]; intros idx flag start ch d Hi Hl Hil Hst Hf; [lia|].
  cbn [scan_item]. destruct (pattern !! idx) as [c|] eqn:Ec; [|by eexists _, _, _, _].
  apply lookup_lt_Some in Ec. rewrite !(substr_ok pattern) by lia. cbn [mbind outcome_bind].
  destruct (_ && _ && _ && _); [eexists _, _, _, _; split; [done|lia]|].
  destruct (_ && _); [apply IH; lia|].
  destruct (_ && _); [eexists _, _, _, _; split; [done|lia]|].
  destruct (decide _); [eexists _, _, _, _; split; [done|lia]|apply IH; lia].
Qed.

Lemma scan_total fuel pattern i nstr vec :
  length pattern - i < fuel → ∃ vec', scan fuel pattern i nstr vec = Ok vec'.
Proof.
  revert i nstr vec. induction fuel as [|fuel IH]; intros i nstr vec Hf; [lia|]. cbn [scan].
  destruct (pattern !! i) as [c|] eqn:Ec; [|by eexists]. apply lookup_lt_Some in Ec.
  destruct (bool_decide _); [apply IH; lia|]. destruct (bool_decide _); [apply IH; lia|].
  destruct (scan_item_total (S (length pattern)) pattern i (i + 1) false 0 [] [])
    as (idx & flag & ch & d & E & Hidx); [lia..|].
  rewrite E. cbn [mbind outcome_bind]. destruct (negb flag); apply IH; lia.
Qed.

(** The pattern parser ends, without an exception, on every pattern, unclosed
    brackets and a lone percent sign included. *)
Theorem Init_total pattern : ∃ items, Init pattern = Ok items.
Proof.
  unfold Init. destruct (scan_total (S (length pattern)) pattern 0 [] []) as [vec E]; [lia|].
  rewrite E. by eexists.
Qed.

(** ** What a pattern means *)

(** A pattern is literal text and items, a name with optional details. *)
Inductive tok :=
| TLit (s : str)
| TItem (name : str) (details : option str).

Definition escape (s : str) : str := concat ((λ c, if decide (c = "%"%char) then ["%"; "%"]%char else [c]) <$> s).
Definition render_tok (t : tok) : str :=
  match t with
  | TLit s => escape s
  | TItem name None => "%"%char :: name
  | TItem name (Some d) => "%"%char :: name ++ "{"%char :: d ++ ["}"%char]
  end.
Definition render (l : list tok) : str := concat (render_tok <$> l).

(** A name without details extends as far as letters and brackets go. *)
Definition stops (s : str) : Prop :=
  match s with [] => True | c :: _ => isalpha c = false ∧ c ≠ "{"%char ∧ c ≠ "}"%char end.

Definition name_ok (name : str) : Prop := name ≠ [] ∧ Forall (λ c, isalpha c = true) name.

Fixpoint toks_ok (l : list tok) : Prop :=
  match l with
  | [] => True
  | TLit s :: l => s ≠ [] ∧ match l with TLit _ :: _ => False | _ => True end ∧ toks_ok l
  | TItem name None :: l => name_ok name ∧ stops (render l) ∧ toks_ok l
  | TItem name (Some d) :: l => name_ok name ∧ ("}"%char ∉ d) ∧ toks_ok l
  end.

(** Text after the last item is left out. *)
Fixpoint meaning (l : list tok) : list FormatterItem :=
  match l with
  | [] => []
  | [TLit _] => []
  | TLit s :: l => StringFormatterItem s :: meaning l
  | TItem name d :: l => item_of_name name (default [] d) :: meaning l
  end.

Lemma substr_mid a b c : substr (a ++ b ++ c) (length a) (Some (length b)) = Ok b.
Proof.
  rewrite substr_ok by (rewrite length_app; lia). f_equal. by rewrite drop_app_length, take_app_length.
Qed.

Lemma isalpha_plain c : isalpha c = true → c ≠ "{"%char ∧ c ≠ "}"%char ∧ c ≠ "%"%char.
Proof. intros H. split_and!; intros ->; vm_compute in H; done. Qed.

(** The letters of a name are passed over. *)
Lemma scan_item_letters fuel pre done todo rest st ch d :
  Forall (λ c, isalpha c = true) todo → rest ≠ [] →
  let p := pre ++ "%"%char :: done ++ todo ++ rest in
  scan_item (length todo + fuel) p (length pre) (length pre + 1 + length done) false st ch d =
  scan_item fuel p (length pre) (length pre + 1 + length done + length todo) false st ch d.
Proof.
  intros Ht Hr. revert done. induction Ht as [|c todo Hc _ IH]; intros dn p; cbn [length].
  - by rewrite Nat.add_0_r.
  - cbn [Nat.add scan_item]. assert (p !! (length pre + 1 + length dn) = Some c) as ->.
    { unfold p. rewrite lookup_app_r by lia. replace (length pre + 1 + length dn - length pre) with (S (length dn)) by lia.
      by apply (list_lookup_middle dn (todo ++ rest) c). }
    destruct (isalpha_plain c Hc) as (H1 & H2 & _). rewrite Hc, !(bool_decide_false (c = _)) by done. cbn [negb andb].
    rewrite decide_False.
    2: { unfold p. rewrite length_app. cbn [length]. rewrite !length_app. cbn [length].
         destruct rest; [done|]. cbn [length]. lia. }
    specialize (IH (dn ++ [c])). rewrite <- app_assoc, length_app in IH. cbn [app length] in IH.
    replace (length pre + 1 + length dn + 1) with (length pre + 1 + (length dn + 1)) by lia.
    replace (length pre + 1 + length dn + S (length todo)) with (length pre + 1 + (length dn + 1) + length todo) by lia.
    exact IH.
Qed.

(** An item without details. *)
Lemma scan_item_plain fuel pre name rest :
  name_ok name → stops rest → length name < fuel →
  let p := pre ++ "%"%char :: name ++ rest in
  scan_item fuel p (length pre) (length pre + 1) false 0 [] [] =
    Ok (length pre + 1 + length name, false, name, []).
Proof.
  intros [Hne Hname] Hstop Hf p.
  assert (substr p (length pre + 1) (Some (length name)) = Ok name) as Hsub.
  { unfold p. replace (length pre + 1) with (length (pre ++ ["%"%char])) by (rewrite length_app; done).
    rewrite <- (substr_mid (pre ++ ["%"%char]) name rest). by rewrite <- app_assoc. }
  destruct rest as [|x rest].
  - destruct name as [|c name _] using rev_ind; [done|]. apply Forall_app in Hname as [Hname Hc].
    apply Forall_cons in Hc as [Hc _]. rewrite length_app in Hf, Hsub |- *. cbn [length] in *.
    pose proof (scan_item_letters (fuel - length name) pre [] name [c] 0 [] [] Hname ltac:(done)) as E.
    cbn [app length] in E. rewrite Nat.add_0_r in E.
    replace (length name + (fuel - length name)) with fuel in E by lia.
    unfold p. rewrite app_nil_r. rewrite E. clear E.
    replace (fuel - length name) with (S (fuel - length name - 1)) by lia. cbn [scan_item].
    assert ((pre ++ "%"%char :: name ++ [c]) !! (length pre + 1 + length name) = Some c) as ->.
    { rewrite lookup_app_r by lia. replace (length pre + 1 + length name - length pre) with (S (length name)) by lia.
      by apply (list_lookup_middle name [] c). }
    destruct (isalpha_plain c Hc) as (H1 & H2 & _). rewrite Hc, !(bool_decide_false (c = _)) by done. cbn [negb andb].
    rewrite decide_True by (rewrite length_app; cbn [length]; rewrite length_app; cbn [length]; lia).
    replace (length pre + 1 + length name + 1 - length pre - 1) with (length name + 1) by lia.
    unfold p in Hsub. rewrite app_nil_r in Hsub. rewrite Hsub. cbn [mbind outcome_bind].
    by replace (length pre + 1 + length name + 1) with (length pre + 1 + (length name + 1)) by lia.
  - pose proof (scan_item_letters (fuel - length name) pre [] name (x :: rest) 0 [] [] Hname ltac:(done)) as E.
    cbn [app length] in E. rewrite Nat.add_0_r in E.
    replace (length name + (fuel - length name)) with fuel in E by lia.
    unfold p. rewrite E. clear E.
    replace (fuel - length name) with (S (fuel - length name - 1)) by lia. cbn [scan_item].
    assert ((pre ++ "%"%char :: name ++ x :: rest) !! (length pre + 1 + length name) = Some x) as ->.
    { rewrite lookup_app_r by lia. replace (length pre + 1 + length name - length pre) with (S (length name)) by lia.
      by apply (list_lookup_middle name rest x). }
    destruct Hstop as (H0 & H1 & H2). rewrite H0, !(bool_decide_true (x ≠ _)) by done. cbn [negb andb].
    replace (length pre + 1 + length name - length pre - 1) with (length name) by lia.
    unfold p in Hsub. by rewrite Hsub.
Qed.

(** The details, from the bracket on. *)
Lemma scan_item_brace fuel pre i dn todo rest ch d :
  ("}"%char ∉ todo) → i < length pre → length todo < fuel →
  let p := pre ++ "{"%char :: dn ++ todo ++ "}"%char :: rest in
  scan_item fuel p i (length pre + 1 + length dn) true (length pre) ch d =
    Ok (length pre + 1 + length dn + length todo + 1, false, ch, dn ++ todo).
Proof.
  intros Ht Hi. revert dn fuel. induction todo as [|c todo IH]; intros dn fuel Hf p; cbn [length] in *;
    (destruct fuel as [|fuel]; [lia|]); cbn [scan_item].
  - assert (p !! (length pre + 1 + length dn) = Some "}"%char) as ->.
    { unfold p. rewrite lookup_app_r by lia. replace (length pre + 1 + length dn - length pre) with (S (length dn)) by lia.
      by apply (list_lookup_middle dn rest "}"%char). }
    cbn [negb andb]. rewrite bool_decide_true by done.
    assert (substr p (length pre + 1) (Some (length pre + 1 + length dn - length pre - 1)) = Ok dn) as ->.
    { unfold p. replace (length pre + 1 + length dn - length pre - 1) with (length dn) by lia.
      replace (length pre + 1) with (length (pre ++ ["{"%char])) by (rewrite length_app; done).
      rewrite <- (substr_mid (pre ++ ["{"%char]) dn ("}"%char :: rest)). by rewrite <- app_assoc. }
    cbn [mbind outcome_bind]. by rewrite app_nil_r, Nat.add_0_r.
  - assert (p !! (length pre + 1 + length dn) = Some c) as ->.
    { unfold p. rewrite lookup_app_r by lia. replace (length pre + 1 + length dn - length pre) with (S (length dn)) by lia.
      by apply (list_lookup_middle dn (todo ++ "}"%char :: rest) c). }
    cbn [negb andb]. apply not_elem_of_cons in Ht as [Hc Ht]. rewrite bool_decide_false by done.
    rewrite decide_False.
    2: { unfold p. rewrite length_app. cbn [length]. rewrite !length_app. cbn [length]. lia. }
    specialize (IH Ht (dn ++ [c]) fuel ltac:(lia)). rewrite <- !app_assoc, length_app in IH. cbn [app length] in IH.
    replace (length pre + 1 + length dn + 1) with (length pre + 1 + (length dn + 1)) by lia.
    replace (length pre + 1 + length dn + S (length todo) + 1) with (length pre + 1 + (length dn + 1) + length todo + 1) by lia.
    exact IH.
Qed.

Lemma scan_item_details fuel pre name d rest :
  name_ok name → ("}"%char ∉ d) → length name + length d + 1 < fuel →
  let p := pre ++ "%"%char :: name ++ "{"%char :: d ++ "}"%char :: rest in
  scan_item fuel p (length pre) (length pre + 1) false 0 [] [] =
    Ok (length pre + 1 + length name + 1 + length d + 1, false, name, d).
Proof.
  intros [_ Hname] Hd Hf p.
  pose proof (scan_item_letters (fuel - length name) pre [] name ("{"%char :: d ++ "}"%char :: rest) 0 [] [] Hname
    ltac:(done)) as E. cbn [app length] in E. rewrite Nat.add_0_r in E.
  replace (length name + (fuel - length name)) with fuel in E by lia. unfold p. rewrite E. clear E.
  replace (fuel - length name) with (S (fuel - length name - 1)) by lia. cbn [scan_item].
  assert ((pre ++ "%"%char :: name ++ "{"%char :: d ++ "}"%char :: rest) !! (length pre + 1 + length name)
    = Some "{"%char) as ->.
  { rewrite lookup_app_r by lia. replace (length pre + 1 + length name - length pre) with (S (length name)) by lia.
    by apply (list_lookup_middle name (d ++ "}"%char :: rest)). }
  change (isalpha "{") with false. cbn [negb andb]. rewrite bool_decide_false by auto. cbn [andb].
  rewrite bool_decide_true by done.
  replace (length pre + 1 + length name - length pre - 1) with (length name) by lia.
  assert (substr (pre ++ "%"%char :: name ++ "{"%char :: d ++ "}"%char :: rest) (length pre + 1)
    (Some (length name)) = Ok name) as ->.
  { replace (length pre + 1) with (length (pre ++ ["%"%char])) by (rewrite length_app; done).
    rewrite <- (substr_mid (pre ++ ["%"%char]) name ("{"%char :: d ++ "}"%char :: rest)). by rewrite <- app_assoc. }
  cbn [mbind outcome_bind].
  pose proof (scan_item_brace (fuel - length name - 1) (pre ++ "%"%char :: name) (length pre) [] d rest name [] Hd)
    as E. rewrite length_app in E. cbn [length app] in E. rewrite <- app_assoc in E. cbn [app] in E.
  replace (length pre + S (length name)) with (length pre + 1 + length name) in E by lia.
  rewrite Nat.add_0_r in E. apply E; lia.
Qed.

Lemma escape_cons c s :
  escape (c :: s) = (if decide (c = "%"%char) then ["%"; "%"]%char else [c]) ++ escape s.
Proof. done. Qed.

(** Literal text, percent signs doubled. *)
Lemma scan_literal fuel pre s rest nstr vec :
  let p := pre ++ escape s ++ rest in
  scan (length s + fuel) p (length pre) nstr vec =
  scan fuel p (length pre + length (escape s)) (nstr ++ s) vec.
Proof.
  revert pre nstr. induction s as [|c s IH]; intros pre nstr p; cbn [length].
  - by rewrite Nat.add_0_r, app_nil_r.
  - cbn [Nat.add scan]. unfold p. rewrite escape_cons. destruct (decide (c = "%"%char)) as [->|Hc].
    + cbn [app length]. assert ((pre ++ "%"%char :: "%"%char :: escape s ++ rest) !! length pre = Some "%"%char) as ->
        by apply list_lookup_middle, eq_refl.
      rewrite bool_decide_false by auto.
      assert ((pre ++ "%"%char :: "%"%char :: escape s ++ rest) !! (length pre + 1) = Some "%"%char) as ->.
      { rewrite lookup_app_r by lia. by replace (length pre + 1 - length pre) with 1 by lia. }
      rewrite bool_decide_true by done.
      specialize (IH (pre ++ ["%"; "%"]%char) (nstr ++ ["%"%char])).
      rewrite <- !app_assoc, length_app in IH. cbn [app length] in IH. rewrite IH. f_equal. lia.
    + cbn [app length]. assert ((pre ++ c :: escape s ++ rest) !! length pre = Some c) as ->
        by apply list_lookup_middle, eq_refl.
      rewrite bool_decide_true by done.
      specialize (IH (pre ++ [c]) (nstr ++ [c])).
      rewrite <- !app_assoc, length_app in IH. cbn [app length] in IH. rewrite IH. f_equal. lia.
Qed.

(** One item: the pending text and the item are recorded. *)
Lemma scan_tok fuel pre name d rest nstr vec :
  name_ok name → match d with None => stops rest | Some d => "}"%char ∉ d end →
  let p := pre ++ render_tok (TItem name d) ++ rest in
  scan (S fuel) p (length pre) nstr vec =
  scan fuel p (length pre + length (render_tok (TItem name d))) []
    (flush_literal nstr vec ++ [(name, default [] d, true)]).
Proof.
  intros Hname Hd p. cbn [scan].
  assert (∃ c tl, name = c :: tl ∧ c ≠ "%"%char) as (c & tl & En & Hc).
  { destruct Hname as [Hne Ha]. destruct name as [|c tl]; [done|]. exists c, tl. split; [done|].
    apply Forall_cons in Ha as [Ha _]. by destruct (isalpha_plain c Ha) as (_ & _ & ?). }
  assert (∃ tl2, p = pre ++ "%"%char :: c :: tl2) as [tl2 Ep].
  { unfold p. cbn [render_tok]. rewrite En. destruct d; cbn [app]; by eexists. }
  assert (p !! length pre = Some "%"%char) as -> by (rewrite Ep; by apply list_lookup_middle).
  assert (p !! (length pre + 1) = Some c) as ->.
  { rewrite Ep, lookup_app_r by lia. by replace (length pre + 1 - length pre) with 1 by lia. }
  rewrite bool_decide_false by auto. rewrite bool_decide_false by congruence.
  destruct d as [d|]; cbn [render_tok] in *.
  - assert (p = pre ++ "%"%char :: name ++ "{"%char :: d ++ "}"%char :: rest) as Ep2.
    { unfold p. cbn [app]. by rewrite <- !app_assoc, <- app_comm_cons, <- !app_assoc. }
    rewrite Ep2. rewrite scan_item_details; [|done|done|].
    2: { rewrite length_app. cbn [length]. rewrite length_app. cbn [length]. rewrite length_app. cbn [length]. lia. }
    cbn [mbind outcome_bind negb]. f_equal. cbn [length]. rewrite length_app. cbn [length].
    rewrite length_app. cbn [length]. lia.
  - assert (p = pre ++ "%"%char :: name ++ rest) as Ep2 by done.
    rewrite Ep2. rewrite scan_item_plain; [|done|done|].
    2: { rewrite length_app. cbn [length]. rewrite length_app. lia. }
    cbn [mbind outcome_bind negb]. f_equal. cbn [length]. lia.
Qed.

Fixpoint tuples (l : list tok) : list parsed :=
  match l with
  | [] => []
  | [TLit _] => []
  | TLit s :: l => (s, [], false) :: tuples l
  | TItem name d :: l => (name, default [] d, true) :: tuples l
  end.

Lemma tuples_meaning l : map item_of_parsed (tuples l) = meaning l.
Proof.
  induction l as [|[s|name d] l IH]; [done| |]; cbn [tuples meaning].
  - destruct l; [done|]. cbn [map]. by rewrite IH.
  - cbn [map]. by rewrite IH.
Qed.

(** Text waiting to be recorded comes before the rest, if anything does. *)
Definition with_text (nstr : str) (l : list tok) : list parsed :=
  match l with [] => [] | _ => flush_literal nstr [] ++ tuples l end.

Lemma flush_literal_app nstr vec : flush_literal nstr vec = vec ++ flush_literal nstr [].
Proof. destruct nstr; [by rewrite app_nil_r|done]. Qed.

Lemma length_escape s : length s ≤ length (escape s).
Proof.
  induction s as [|c s IH]; [done|]. rewrite escape_cons, length_app. destruct (decide _); cbn [length]; lia.
Qed.

Lemma scan_render l fuel pre nstr vec :
  toks_ok l → (nstr ≠ [] → match l with TLit _ :: _ => False | _ => True end) →
  length (render l) < fuel →
  scan fuel (pre ++ render l) (length pre) nstr vec = Ok (vec ++ with_text nstr l).
Proof.
  revert fuel pre nstr vec. induction l as [|t l IH]; intros fuel pre nstr vec Hok Hn Hf.
  - destruct fuel as [|fuel]; [cbn in Hf; lia|]. cbn [scan]. unfold render. cbn [fmap list_fmap concat].
    rewrite app_nil_r, lookup_ge_None_2 by lia. by rewrite app_nil_r.
  - change (render (t :: l)) with (render_tok t ++ render l) in *. rewrite length_app in Hf.
    destruct t as [s|name d].
    + cbn [toks_ok] in Hok. destruct Hok as (Hs & Hhd & Hok). cbn [render_tok] in *.
      destruct nstr as [|c nstr]; [|by destruct Hn].
      pose proof (length_escape s).
      replace fuel with (length s + (fuel - length s)) by lia. rewrite scan_literal. cbn [app].
      rewrite app_assoc. rewrite <- length_app. rewrite IH; [|done|done|lia].
      f_equal. f_equal. unfold with_text. cbn [tuples flush_literal app].
      destruct l; [done|]. by destruct s.
    + destruct fuel as [|fuel]; [destruct d; cbn in Hf; lia|].
      rewrite scan_tok.
      * rewrite app_assoc. rewrite <- length_app. rewrite IH; [| |done|].
        -- f_equal. unfold with_text. rewrite flush_literal_app, <- !app_assoc. f_equal.
           cbn [tuples]. f_equal. destruct l; [done|]. cbn [flush_literal app]. done.
        -- cbn [toks_ok] in Hok. destruct d; by destruct_and!.
        -- destruct d; cbn [render_tok length] in Hf; lia.
      * cbn [toks_ok] in Hok. destruct d; by destruct_and!.
      * cbn [toks_ok] in Hok. destruct d; by destruct_and!.
Qed.

(** [C20] The parser reads what a pattern means.  For literal text (percent signs
    doubled), named items and items with details in brackets, in any order,
    [Init] builds one formatter item for each, in order: the item of the name
    ("<<parse-error>>" for an unknown one) with its details, or the text; but
    text after the last item is dropped. *)
Theorem Init_render l : toks_ok l → Init (render l) = Ok (meaning l).
Proof.
  intros Hl. unfold Init.
  pose proof (scan_render l (S (length (render l))) [] [] [] Hl ltac:(done) ltac:(lia)) as E.
  cbn [app length] in E. rewrite E. cbn [mbind outcome_bind app]. f_equal. rewrite <- tuples_meaning. f_equal. by destruct l.
Qed.

Definition sample : list tok :=
  [TItem (lit "d") (Some (lit "%H:%M")); TLit (lit " 100% ["); TItem (lit "p") None; TLit (lit "] ");
   TItem (lit "m") None; TLit (lit " end")].

Lemma Init_render_witness :
  Init (render sample) = Ok [TimestampFormatterItem (lit "%H:%M"); StringFormatterItem (lit " 100% [");
    LevelFormatterItem; StringFormatterItem (lit "] "); MessageFormatterItem].
Proof.
  apply (Init_render sample). unfold sample. cbn [toks_ok].
  repeat split; try done; try (by repeat constructor); by_decide.
Defined.

(** ** Levels *)

Section Logging.
Context (strftime : str → Z → option str) (appender : nat → Appender).

Lemma log_loop_disabled max l event : enabled max (level_ event) = false →
  log_loop strftime appender max l event = Ok [].
Proof. intros He. induction l as [|x l IH]; [done|]. cbn [log_loop]. rewrite He. cbn. by rewrite IH. Qed.

Lemma log_loop_enabled max l event (text : nat → str) : enabled max (level_ event) = true →
  (∀ x, x ∈ l → Format strftime (formatter_ (appender x)) event = Ok (text x)) →
  log_loop strftime appender max l event = Ok ((λ x, (x, text x)) <$> l).
Proof.
  intros He. induction l as [|x l IH]; intros Hl; [done|]. cbn [log_loop]. rewrite He, Hl by by left.
  cbn [mbind outcome_bind]. rewrite IH; [done|]. intros y Hy. apply Hl. by right.
Qed.
End Logging.

(** Filtering: through the logging macros, with a stream or with a format,
    a message is written to every appender of the logger, in the order they were
    added and once for each time they were, in the appender's own format, if the
    level is at most the logger's; otherwise nothing is written, and the format
    is not even looked at. *)
Theorem level_filter {arg} strftime (vasprintf : str → list arg → option str) appender lg level file line tid time
    fmt val message (text : nat → str) :
  let event := mkEvent (name_ lg) file level line 0 tid 0 time message in
  let written := if decide (LogLevel.value level ≤ LogLevel.value (max_level_ lg))
                 then (λ x, (x, text x)) <$> appenders_ lg else [] in
  (∀ x, x ∈ appenders_ lg → Format strftime (formatter_ (appender x)) event = Ok (text x)) →
  SYLAR_LOG strftime appender lg level file line tid time message = Ok written ∧
  ((LogLevel.value level ≤ LogLevel.value (max_level_ lg) → vasprintf fmt val = Some message) →
   SYLAR_FMT_LOG strftime appender vasprintf lg level file line tid time fmt val = Ok written).
Proof.
  intros event written Ht. unfold SYLAR_LOG, SYLAR_FMT_LOG, log_wrapper, wrapper_destroy, Logger_Log, written.
  destruct (enabled (max_level_ lg) level) eqn:He.
  - pose proof (proj1 (Nat.leb_le _ _) He) as Hle. rewrite decide_True by done.
    split; [by apply (log_loop_enabled _ _ _ _ event text)|].
    intros Hf. unfold event_Format. rewrite (Hf Hle). by apply (log_loop_enabled _ _ _ _ event text).
  - rewrite decide_False; [done|]. intros Hle%Nat.leb_le. unfold enabled in He. congruence.
Qed.

Lemma level_filter_witness :
  let lg := mkLogger (lit "root") LogLevel.WARN [3; 4] in
  let appender := λ _ : nat, mkAppender LogAppenderToStd [LevelFormatterItem; StringFormatterItem (lit ": "); MessageFormatterItem] in
  SYLAR_LOG (λ _ _, None) appender lg LogLevel.INFO (lit "a.cc") 1 2 3 (lit "hello")
    = Ok [(3, lit "INFO: hello"); (4, lit "INFO: hello")] ∧
  SYLAR_FMT_LOG (λ _ _, None) appender (λ f (l : list str), Some (f ++ concat l)) lg LogLevel.INFO (lit "a.cc") 1 2 3
    (lit "hel") [lit "lo"] = Ok [(3, lit "INFO: hello"); (4, lit "INFO: hello")].
Proof.
  intros lg appender.
  assert (∀ x, x ∈ appenders_ lg → Format (λ _ _, None) (formatter_ (appender x))
    (mkEvent (name_ lg) (lit "a.cc") LogLevel.INFO 1 0 2 0 3 (lit "hello")) = Ok (lit "INFO: hello")) as Ht
    by (intros x _; vm_compute; reflexivity).
  destruct (level_filter (λ _ _, None) (λ f (l : list str), Some (f ++ concat l)) appender lg LogLevel.INFO (lit "a.cc")
    1 2 3 (lit "hel") [lit "lo"] (lit "hello") (λ _, lit "INFO: hello") Ht) as [H1 H2].
  split; [exact H1|]. apply H2. intros _. vm_compute. reflexivity.
Defined.

(** [DelAppender] of an appender that is not there does nothing; of one that is
    there, it goes on with an iterator to the node it has freed. *)
Lemma DelAppender_cases item lg :
  if decide (item ∈ appenders_ lg) then is_undef (DelAppender item lg) else DelAppender item lg = Ok lg.
Proof.
  unfold DelAppender. destruct lg as [nm lv l]. cbn [appenders_ name_ max_level_].
  assert (if decide (item ∈ l) then is_undef (del_loop item l) else del_loop item l = Ok l) as H.
  { induction l as [|x l IH]; cbn [del_loop].
    - destruct (decide _) as [H|]; [by apply elem_of_nil in H|done].
    - destruct (decide (x = item)) as [->|Hne].
      + rewrite decide_True by by left. by eexists.
      + destruct (decide (item ∈ l)) as [Hin|Hin].
        * rewrite decide_True by by right. destruct IH as [w ->]. by eexists.
        * rewrite decide_False by (intros [?|?]%elem_of_cons; congruence). by rewrite IH. }
  destruct (decide _); [destruct H as [w ->]; by eexists|by rewrite H].
Qed.

(** ** The manager *)

Inductive manager_op := OpNew (name : str) | OpDel (name : str) | OpSetRoot (p : nat).

Definition run_op (m : LoggerManager) (o : manager_op) : LoggerManager :=
  match o with
  | OpNew name => (NewLogger name m).2
  | OpDel name => DelLogger name m
  | OpSetRoot p => SetRoot p m
  end.

(** Each name leads to a logger that bears it. *)
Record manager_ok (m : LoggerManager) : Prop := {
  mo_sorted : sorted (loggers_ m);
  mo_named : ∀ name p, dget name (loggers_ m) = Some p → ∃ lg, heap m !! p = Some lg ∧ name_ lg = name }.

Lemma manager_ok_new a : manager_ok (LoggerManager_new a).
Proof.
  split; [by repeat constructor|]. intros name p. cbn. destruct (decide _) as [->|]; [|done].
  intros [= <-]. by eexists.
Qed.

Lemma manager_ok_op m o : manager_ok m → manager_ok (run_op m o).
Proof.
  intros [Hs Hn]. destruct o as [name|name|p]; cbn [run_op]; [| |by split].
  - unfold NewLogger. destruct (dget name (loggers_ m)) eqn:E; [by split|]. split; cbn.
    + by apply dset_sorted.
    + intros k q. destruct (decide (k = name)) as [->|Hne].
      * rewrite dget_dset. intros [= <-]. exists (Logger_new name). split; [|done].
        by apply list_lookup_middle.
      * rewrite dget_dset_ne by done. intros Hq. destruct (Hn _ _ Hq) as (lg & Hl & Hnm).
        exists lg. split; [|done]. by apply lookup_app_l_Some.
  - unfold DelLogger. destruct (dget name (loggers_ m)) eqn:E; [|by split]. split; cbn.
    + by apply derase_sorted.
    + intros k q. rewrite dget_derase by done. destruct (decide _); [done|]. apply Hn.
Qed.

(** [C23] The registry: over any sequence of creations, deletions and changes of
    the root, a name leads to a logger that bears it or [GetLogger] throws
    [invalid_argument]; two names never lead to one logger; [NewLogger] is
    [GetLogger] for a known name, and creates a logger of level DEBUG without
    appenders, found from then on, for an unknown one. *)
Theorem logger_registry a ops :
  let m := foldl run_op (LoggerManager_new a) ops in
  (∀ name, match GetLogger name m with
           | Ok p => (∃ lg, heap m !! p = Some lg ∧ name_ lg = name) ∧ NewLogger name m = (p, m)
           | Throw e => e = invalid_argument (string_of_list_ascii name) ∧
               let '(p, m') := NewLogger name m in
               GetLogger name m' = Ok p ∧ heap m' = heap m ++ [Logger_new name]
           | _ => False
           end) ∧
  (∀ n1 n2 p, GetLogger n1 m = Ok p → GetLogger n2 m = Ok p → n1 = n2) ∧
  (∀ name, GetLogger name (DelLogger name m) = Throw (invalid_argument (string_of_list_ascii name))).
Proof.
  intros m. assert (manager_ok m) as [Hs Hn].
  { unfold m. generalize (manager_ok_new a). generalize (LoggerManager_new a). clear m.
    induction ops as [|o ops IH]; intros m Hm; [done|]. cbn. apply IH. by apply manager_ok_op. }
  clearbody m. split; [|split].
  - intros name. unfold GetLogger, NewLogger. destruct (dget name (loggers_ m)) as [p|] eqn:E.
    + split; [by apply Hn|done].
    + split; [done|]. cbn. by rewrite dget_dset.
  - intros n1 n2 p. unfold GetLogger. destruct (dget n1 _) eqn:E1; [|done]. destruct (dget n2 _) eqn:E2; [|done].
    intros [= ->] [= ->]. destruct (Hn _ _ E1) as (l1 & H1 & <-). destruct (Hn _ _ E2) as (l2 & H2 & <-). congruence.
  - intros name. unfold GetLogger, DelLogger. destruct (dget name (loggers_ m)) eqn:E; [|by rewrite E].
    cbn. rewrite dget_derase by done. by rewrite decide_True.
Qed.

End LogProps.
