(* ===== verification/LogFile.v ===== *)
(** * Log files

    [LogAppenderToFile] of [src/include/log.hh] and [src/log.cc], over a file
    system of directories, names and files; a stream that is open keeps its
    file when the name is removed.  What is written is in the file at once. *)

From S2P Require Import Prelude CStr Log.
Import CStr.

Module LogFile.

(** Directories that exist, names of files, and the files. *)
Record FS := mkFS {
  dirs : gset str;
  names : gmap str nat;
  files : list str }.

(** [path::parent_path]: up to the last slash. *)
Definition parent_path (p : str) : str :=
  match list_find (eq "/"%char) (reverse p) with
  | None => []
  | Some (i, _) => take (length p - S i) p
  end.

(** The object: its name, and the file and position of [ofs_] when it is open. *)
Record LogAppenderToFile := mkAppenderToFile {
  filename_ : str;
  ofs_ : option (nat * nat) }.

Section Files.
(** Directories the process may create, and files it may open in existing ones. *)
Context (creatable openable : str → bool).

Definition exists_ (fs : FS) (p : str) : bool := bool_decide (is_Some (names fs !! p)).

(** [ofs_.open(path)]: an existing file is truncated. *)
Definition open_file (p : str) (fs : FS) : option (nat * nat) * FS :=
  let dir := parent_path p in
  if openable p && (bool_decide (dir = []) || bool_decide (dir ∈ dirs fs)) then
    match names fs !! p with
    | Some f => (Some (f, 0), mkFS (dirs fs) (names fs) (<[f := []]> (files fs)))
    | None =>
        let f := length (files fs) in
        (Some (f, 0), mkFS (dirs fs) (<[p := f]> (names fs)) (files fs ++ [[]]))
    end
  else (None, fs).

Definition create_directories (dir : str) (fs : FS) : FS :=
  if creatable dir then mkFS ({[dir]} ∪ dirs fs) (names fs) (files fs) else fs.

Definition Reopen (a : LogAppenderToFile) (fs : FS) : LogAppenderToFile * FS :=
  let dir_path := parent_path (filename_ a) in
  let fs :=
    if negb (bool_decide (dir_path = [])) && negb (bool_decide (dir_path ∈ dirs fs))
    then create_directories dir_path fs else fs in
  let '(ofs, fs) := open_file (filename_ a) fs in
  (mkAppenderToFile (filename_ a) ofs, fs).

Definition LogAppenderToFile_new (filename : str) (fs : FS) : LogAppenderToFile * FS :=
  Reopen (mkAppenderToFile filename None) fs.

(** Bytes at a position; a gap is filled with null bytes. *)
Definition write_at (pos : nat) (s c : str) : str :=
  take pos c ++ replicate (pos - length c) "000"%char ++ s ++ drop (pos + length s) c.

(** [ofs_ << s]: nothing happens on a stream that is not open. *)
Definition insert_text (s : str) (a : LogAppenderToFile) (fs : FS) : LogAppenderToFile * FS :=
  match ofs_ a with
  | None => (a, fs)
  | Some (f, pos) =>
      (mkAppenderToFile (filename_ a) (Some (f, pos + length s)),
       mkFS (dirs fs) (names fs) (alter (write_at pos s) f (files fs)))
  end.

(** [Log], with the text the formatter gives. *)
Definition Log (s : str) (a : LogAppenderToFile) (fs : FS) : LogAppenderToFile * FS :=
  let '(a, fs) := if exists_ fs (filename_ a) then (a, fs) else Reopen a fs in
  insert_text s a fs.

End Files.
End LogFile.
