(* ===== verification/LogFileProps.v ===== *)
(** * Properties of log files

    What is in the file of an appender after any writes and removals, and what the
    appenders of other files leave alone. *)

From S2P Require Import Prelude CStr Log LogFile.
Import CStr LogFile.

Module LogFileProps.

(** What happens: a message is logged, or someone removes the file, another file,
    or the directory with the file. *)
Inductive event := Message (s : str) | Remove (p : str) | RemoveDir.

Section Content.
Context (creatable openable : str → bool) (filename : str).
Context (Hopen : openable filename = true) (Hdir : creatable (parent_path filename) = true).

Definition happen (e : event) (st : LogAppenderToFile * FS) : LogAppenderToFile * FS :=
  let '(a, fs) := st in
  match e with
  | Message s => Log creatable openable s a fs
  | Remove p => (a, mkFS (dirs fs) (delete p (names fs)) (files fs))
  | RemoveDir => (a, mkFS (dirs fs ∖ {[parent_path filename]}) (delete filename (names fs)) (files fs))
  end.

(** The content of the file, if it is there. *)
Definition content (fs : FS) : option str := f ← names fs !! filename; files fs !! f.

(** The specification: messages since the file was made. *)
Definition spec (c : option str) (e : event) : option str :=
  match e with
  | Message s => Some (default [] c ++ s)
  | Remove p => if decide (p = filename) then None else c
  | RemoveDir => None
  end.

(** The stream stands at the end of the file while the name leads to it; no
    other name leads to it. *)
Definition tracks (st : LogAppenderToFile * FS) : Prop :=
  let '(a, fs) := st in
  filename_ a = filename ∧
  (parent_path filename = [] ∨ parent_path filename ∈ dirs fs ∨ names fs !! filename = None) ∧
  (∀ p f, names fs !! p = Some f → f < length (files fs)) ∧
  ∀ f, names fs !! filename = Some f → ∃ c, files fs !! f = Some c ∧ ofs_ a = Some (f, length c).

Lemma write_at_end c s : write_at (length c) s c = c ++ s.
Proof.
  unfold write_at. rewrite take_ge by done. rewrite Nat.sub_diag. cbn. rewrite drop_ge by lia. by rewrite app_nil_r.
Qed.

(** [Reopen] makes an empty file, at whose start the stream is. *)
Lemma Reopen_fresh a fs : filename_ a = filename → (∀ p f, names fs !! p = Some f → f < length (files fs)) →
  ∃ f fs', Reopen creatable openable a fs = (mkAppenderToFile filename (Some (f, 0)), fs') ∧
    names fs' !! filename = Some f ∧ files fs' !! f = Some [] ∧
    (parent_path filename = [] ∨ parent_path filename ∈ dirs fs') ∧
    (∀ p g, names fs' !! p = Some g → g < length (files fs')).
Proof.
  intros Ha Hb. unfold Reopen. rewrite Ha.
  set (fs1 := if _ && _ then _ else fs).
  assert (names fs1 = names fs ∧ files fs1 = files fs ∧
    (parent_path filename = [] ∨ parent_path filename ∈ dirs fs1)) as (En & Ef & Hd).
  { unfold fs1, create_directories. rewrite Hdir.
    destruct (bool_decide_reflect (parent_path filename = [])); cbn; [by auto|].
    destruct (bool_decide_reflect (parent_path filename ∈ dirs fs)); cbn; [by auto|].
    split; [done|]. split; [done|]. right. cbn. set_solver. }
  clearbody fs1. unfold open_file. rewrite Hopen.
  assert (bool_decide (parent_path filename = []) || bool_decide (parent_path filename ∈ dirs fs1) = true) as ->.
  { destruct Hd as [Hd|Hd]; [by rewrite bool_decide_true|]. apply orb_true_iff. right. by rewrite bool_decide_true. }
  cbn [andb]. destruct (names fs1 !! filename) as [f|] eqn:E.
  - eexists f, _. split; [done|]. cbn. split; [done|]. rewrite En in E. pose proof (Hb _ _ E) as Hlt.
    split; [apply list_lookup_insert_eq; by rewrite Ef|]. split; [done|]. intros p g. rewrite En, length_insert, Ef. apply Hb.
  - eexists _, _. split; [done|]. cbn. split; [apply lookup_insert_eq|]. split; [by apply list_lookup_middle|].
    split; [done|]. intros p g. rewrite length_app. cbn. destruct (decide (p = filename)) as [->|Hne].
    + rewrite lookup_insert_eq. intros [= <-]. lia.
    + rewrite lookup_insert_ne by done. rewrite En. intros Hg. apply Hb in Hg. rewrite Ef. lia.
Qed.

Lemma happen_tracks e st : tracks st →
  tracks (happen e st) ∧ content (happen e st).2 = spec (content st.2) e.
Proof.
  destruct st as [a fs]. intros (Ha & Hd & Hb & Ho). destruct e as [s|p|]; cbn [happen snd spec].
  - unfold Log, exists_. rewrite Ha.
    assert (∀ a1 fs1 f c, names fs1 !! filename = Some f → files fs1 !! f = Some c →
      ofs_ a1 = Some (f, length c) → filename_ a1 = filename →
      (parent_path filename = [] ∨ parent_path filename ∈ dirs fs1 ∨ names fs1 !! filename = None) →
      (∀ p g, names fs1 !! p = Some g → g < length (files fs1)) →
      tracks (insert_text s a1 fs1) ∧ content (insert_text s a1 fs1).2 = Some (c ++ s)) as Hwrite.
    { intros a1 fs1 f c Hn Hf Hofs Ha1 Hd1 Hb1. unfold insert_text. rewrite Hofs.
      assert (alter (write_at (length c) s) f (files fs1) !! f = Some (c ++ s)) as Hl
        by (by rewrite list_lookup_alter_eq, Hf; cbn; rewrite write_at_end).
      split.
      - split; [done|]. split; [done|]. split; cbn; [intros p g; rewrite length_alter; apply Hb1|].
        intros g Hg. rewrite Hn in Hg. injection Hg as <-. exists (c ++ s). rewrite length_app. by split.
      - unfold content. cbn. rewrite Hn. cbn. exact Hl. }
    destruct (names fs !! filename) as [f|] eqn:En.
    + rewrite bool_decide_true by done. destruct (Ho f eq_refl) as (c & Hc & Hofs).
      assert (content fs = Some c) as -> by (unfold content; by rewrite En; cbn).
      rewrite <- En in Hd. by apply (Hwrite a fs f c).
    + rewrite bool_decide_false by by intros [? ?].
      assert (content fs = None) as -> by (unfold content; by rewrite En).
      destruct (Reopen_fresh a fs Ha Hb) as (f & fs' & -> & Hn & Hf & Hd' & Hb'). cbn [default].
      apply (Hwrite (mkAppenderToFile filename (Some (f, 0))) fs' f []); [done..| |done]. tauto.
  - split.
    + split; [done|]. cbn. split; [destruct Hd as [|[|Hd]]; [tauto..|]; right; right; by apply lookup_delete_None; right|].
      split; [intros q f (_ & Hq)%lookup_delete_Some; by eapply Hb|].
      intros f (_ & Hf)%lookup_delete_Some. by apply Ho.
    + unfold content. cbn. destruct (decide (p = filename)) as [->|Hne]; [by rewrite lookup_delete_eq|].
      by rewrite lookup_delete_ne.
  - split.
    + split; [done|]. cbn. split; [right; right; apply lookup_delete_eq|].
      split; [intros q f (_ & Hq)%lookup_delete_Some; by eapply Hb|].
      intros f Hf. by rewrite lookup_delete_eq in Hf.
    + unfold content. cbn. by rewrite lookup_delete_eq.
Qed.

Lemma happen_all l : ∀ st, tracks st → content (foldl (λ st e, happen e st) st l).2 = foldl spec (content st.2) l.
Proof.
  induction l as [|e l IH]; intros st Hs; [done|]. cbn [foldl].
  destruct (happen_tracks e st Hs) as [Hs' Hc]. rewrite IH by done. by rewrite Hc.
Qed.

(** A new appender is at the start of its empty file. *)
Lemma new_tracks fs : (∀ p f, names fs !! p = Some f → f < length (files fs)) →
  let st := LogAppenderToFile_new creatable openable filename fs in tracks st ∧ content st.2 = Some [].
Proof.
  intros Hb. unfold LogAppenderToFile_new.
  destruct (Reopen_fresh (mkAppenderToFile filename None) fs eq_refl Hb) as (f & fs' & -> & Hn & Hf & Hd & Hb').
  split.
  - split; [done|]. split; [tauto|]. split; [done|]. intros g Hg. rewrite Hn in Hg. injection Hg as <-. by exists [].
  - unfold content. cbn. rewrite Hn. cbn. by rewrite Hf.
Qed.
End Content.

(** ** Several appenders

    What [Log] and [Reopen] may change of the file system, for the files of other
    appenders. *)

(** Names lead to files that exist, different names to different files. *)
Record fs_ok (fs : FS) : Prop := {
  fs_bound p f : names fs !! p = Some f → f < length (files fs);
  fs_inj p q f : names fs !! p = Some f → names fs !! q = Some f → p = q }.

Record acts (a : LogAppenderToFile) (fs : FS) (a' : LogAppenderToFile) (fs' : FS) : Prop := {
  ac_name : filename_ a' = filename_ a;
  ac_ok : fs_ok fs';
  ac_dirs : dirs fs ⊆ dirs fs';
  ac_length : length (files fs) ≤ length (files fs');
  ac_others p : p ≠ filename_ a → names fs' !! p = names fs !! p;
  ac_own : names fs' !! filename_ a = names fs !! filename_ a ∨
    ∃ f, names fs' !! filename_ a = Some f ∧ length (files fs) ≤ f;
  ac_files f : f < length (files fs) → names fs !! filename_ a ≠ Some f → (∀ pos, ofs_ a ≠ Some (f, pos)) →
    files fs' !! f = files fs !! f;
  ac_stream f pos : ofs_ a' = Some (f, pos) → (∃ pos', ofs_ a = Some (f, pos')) ∨ names fs' !! filename_ a = Some f }.

Lemma acts_refl a fs : fs_ok fs → acts a fs a fs.
Proof. intros Hok. split; try done; [by left|]. intros f pos Hf. left. by eexists. Qed.

Section Several.
Context (creatable openable : str → bool).

Lemma acts_insert a fs a1 fs1 s :
  acts a fs a1 fs1 → acts a fs (insert_text s a1 fs1).1 (insert_text s a1 fs1).2.
Proof.
  intros Ha. unfold insert_text. destruct (ofs_ a1) as [[f pos]|] eqn:E; [|done].
  destruct Ha as [N1 K1 D1 L1 O1 W1 F1 S1].
  split; cbn; try done.
  - split; cbn; [intros p g; rewrite length_alter|]; apply K1.
  - by rewrite length_alter.
  - intros g Hg Hn Ho. rewrite list_lookup_alter_ne; [by apply F1|]. intros ->.
    destruct (S1 _ _ E) as [[q Hq]|Hq]; [by apply Ho in Hq|].
    destruct W1 as [W1|(k & W1 & Hk)]; rewrite W1 in Hq; [done|]. injection Hq as ->. lia.
  - intros g q [= <- <-]. by eapply S1.
Qed.

Lemma acts_Reopen a fs : fs_ok fs →
  acts a fs (Reopen creatable openable a fs).1 (Reopen creatable openable a fs).2.
Proof.
  intros Hok. unfold Reopen. set (fs1 := if _ && _ then _ else fs).
  assert (names fs1 = names fs ∧ files fs1 = files fs ∧ dirs fs ⊆ dirs fs1) as (En & Ef & Hd).
  { unfold fs1, create_directories. destruct (_ && _); [|done]. destruct (creatable _); [|done].
    split; [done|]. split; [done|]. cbn. set_solver. }
  clearbody fs1. unfold open_file. destruct (_ && _).
  2: { cbn. split; cbn; rewrite ?En, ?Ef; try done; [|by left]. split; intros *; rewrite ?En, ?Ef; apply Hok. }
  rewrite En. destruct (names fs !! filename_ a) as [f|] eqn:E; cbn.
  - split; cbn; rewrite ?En, ?Ef, ?length_insert; try done.
    + split; intros *; cbn; rewrite ?En, ?Ef, ?length_insert; apply Hok.
    + by left.
    + intros g _ Hne _. rewrite list_lookup_insert_ne by congruence. done.
    + intros g pos [= <- <-]. by right.
  - split; cbn; rewrite ?En, ?Ef, ?length_app; try done; cbn; try lia.
    + split; intros *; cbn; rewrite ?En, ?Ef, ?length_app; cbn.
      * intros [[<- <-]|[_ Hp]]%lookup_insert_Some; [lia|]. apply Hok in Hp. lia.
      * intros [[<- <-]|[Hp Hf]]%lookup_insert_Some [[<- Hg]|[Hq Hg]]%lookup_insert_Some; try done.
        { apply Hok in Hg. lia. }
        { subst f. apply Hok in Hf. lia. }
        { by eapply (fs_inj _ Hok). }
    + intros p Hp. by rewrite lookup_insert_ne.
    + right. eexists. rewrite lookup_insert_eq. by split.
    + intros g Hg _ _. by rewrite lookup_app_l.
    + intros g pos [= <- <-]. right. by rewrite lookup_insert_eq.
Qed.

Lemma acts_Log s a fs : fs_ok fs → acts a fs (Log creatable openable s a fs).1 (Log creatable openable s a fs).2.
Proof.
  intros Hok. unfold Log. destruct (exists_ fs (filename_ a)); [by apply acts_insert, acts_refl|].
  pose proof (acts_Reopen a fs Hok) as Ha. destruct (Reopen _ _ a fs) as [a1 fs1]. by apply acts_insert.
Qed.

(** An appender that has another file than [filename]. *)
Definition apart (filename : str) (fs : FS) (a : LogAppenderToFile) : Prop :=
  filename_ a ≠ filename ∧ ∀ f pos, ofs_ a = Some (f, pos) → f < length (files fs) ∧ names fs !! filename ≠ Some f.

(** It stays apart, and leaves that file and its appender alone. *)
Lemma acts_stays_apart filename a fs a' fs' : acts a fs a' fs' → apart filename fs a → apart filename fs' a'.
Proof.
  intros [N1 K1 D1 L1 O1 W1 F1 S1] [Hne Hofs]. pose proof (O1 filename ltac:(congruence)) as Hn.
  split; [congruence|]. intros f pos Hpos. rewrite Hn. destruct (S1 _ _ Hpos) as [[q Hq]|Hq].
  - destruct (Hofs _ _ Hq). split; [lia|done].
  - split; [by apply (fs_bound _ K1 _ _ Hq)|]. intros E. rewrite <- Hn in E. by apply Hne, (fs_inj _ K1 _ _ f).
Qed.

Lemma acts_apart filename b a fs a' fs' : fs_ok fs → acts a fs a' fs' → apart filename fs a →
  tracks filename (b, fs) → tracks filename (b, fs') ∧ content filename fs' = content filename fs.
Proof.
  intros Hok [N1 K1 D1 L1 O1 W1 F1 S1] [Hne Hofs] (Hb & Hd & _ & Ht).
  pose proof (O1 filename ltac:(congruence)) as Hn.
  assert (∀ f, names fs !! filename = Some f → files fs' !! f = files fs !! f) as Hf.
  { intros f Hf. apply F1; [by apply (fs_bound _ Hok _ _ Hf)| |].
    - intros Hf'. by apply Hne, (fs_inj _ Hok _ _ f).
    - intros pos Hpos. by destruct (Hofs _ _ Hpos) as [_ ?]. }
  split.
  - split; [done|]. rewrite Hn. split; [destruct Hd as [Hd|[Hd|Hd]]; [by left|right; left; set_solver|by right; right]|].
    split; [apply K1|]. intros f E. rewrite Hf by done. by apply Ht.
  - unfold content. rewrite Hn. destruct (names fs !! filename) as [f|] eqn:E; [|done]. cbn. by apply Hf.
Qed.

(** What the appender of [filename] does leaves the others apart. *)
Lemma acts_keeps_apart filename x b fs b' fs' : acts b fs b' fs' → apart filename fs x → filename_ b = filename → apart filename fs' x.
Proof.
  intros [N1 K1 D1 L1 O1 W1 F1 S1] [Hne Hofs] Hb. split; [done|]. intros f pos Hpos. destruct (Hofs _ _ Hpos) as [Hlt Hnf].
  split; [lia|]. rewrite <- Hb in *. destruct W1 as [->|(g & -> & Hg)]; [done|]. intros [= ->]. lia.
Qed.

(** So does what a third one does. *)
Lemma acts_apart_third filename x a fs a' fs' : acts a fs a' fs' → filename_ a ≠ filename → apart filename fs x → apart filename fs' x.
Proof.
  intros [N1 K1 D1 L1 O1 W1 F1 S1] Hne [Hx Hofs]. split; [done|]. intros f pos Hpos. destruct (Hofs _ _ Hpos).
  rewrite O1 by congruence. split; [lia|done].
Qed.
End Several.

(** [C30] The file of an appender, in a directory that exists or can be created:
    it is emptied when the appender is made; over any messages and removals of
    the file, of other files and of the directory it contains exactly the
    messages since it was last made, in order, and the first message after a
    removal makes it again. *)
Theorem file_has_messages (creatable openable : str → bool) filename fs (l : list event) :
  openable filename = true → creatable (parent_path filename) = true →
  (∀ p f, names fs !! p = Some f → f < length (files fs)) →
  let st := LogAppenderToFile_new creatable openable filename fs in
  content filename (foldl (λ st e, happen creatable openable filename e st) st l).2 = foldl (spec filename) (Some []) l.
Proof.
  intros Hop Hdir Hb st. subst st. destruct (new_tracks creatable openable filename Hop Hdir fs Hb) as [Ht Hc].
  rewrite happen_all by done. by rewrite Hc.
Qed.

Lemma file_has_messages_witness :
  content (lit "log/a") (foldl (λ st e, happen (λ _, true) (λ _, true) (lit "log/a") e st)
    (LogAppenderToFile_new (λ _, true) (λ _, true) (lit "log/a") (mkFS ∅ ∅ []))
    [Message (lit "one"); RemoveDir; Message (lit "two"); Remove (lit "b"); Message (lit "three")]).2 =
  Some (lit "twothree").
Proof.
  refine (file_has_messages (λ _, true) (λ _, true) (lit "log/a") (mkFS ∅ ∅ [])
    [Message (lit "one"); RemoveDir; Message (lit "two"); Remove (lit "b"); Message (lit "three")] eq_refl eq_refl _).
  intros p f Hf. cbn [names] in Hf. by rewrite lookup_empty in Hf.
Defined.

End LogFileProps.
