(* ===== verification/LexicalCast.v ===== *)
(** * Conversions between values and text

    [LexicalCast] of [src/include/config.hh]: the class template is a type class
    and its specialisations are instances.  yaml-cpp and [boost::lexical_cast]
    are parameters: the class [Yaml] lists the operations the program uses. *)

From S2P Require Import Prelude CStr Log.
Import CStr.

Module LexicalCast.

(** ** yaml-cpp *)

(** [Load] throws on malformed text; [emit] is [operator<<].  [elements] is what
    an iteration over the node delivers as nodes, [entries] as pairs.
    [make_seq l] is a fresh node after [push_back] of [l]; [make_map l] one after
    [n[k] = v] for the pairs of [l]. *)
Class Yaml (Node : Type) := {
  Load : str → outcome Node;
  emit : Node → str;
  IsDefined : Node → bool;
  IsScalar : Node → bool;
  IsSequence : Node → bool;
  IsMap : Node → bool;
  Scalar : Node → str;
  as_string : Node → outcome str;
  elements : Node → list Node;
  entries : Node → list (Node * Node);
  subscript : Node → str → outcome Node;
  make_scalar : str → Node;
  make_seq : list Node → Node;
  make_map : list (str * Node) → Node }.

(** Documented behaviour of what has been built. *)
Class YamlLaws (Node : Type) `{Y : Yaml Node} := {
  yl_scalar s : IsDefined (make_scalar s) = true ∧ IsScalar (make_scalar s) = true ∧
    Scalar (make_scalar s) = s ∧ as_string (make_scalar s) = Ok s ∧ elements (make_scalar s) = [];
  yl_seq l : elements (make_seq l) = l;
  yl_seq_kind x l : IsDefined (make_seq (x :: l)) = true ∧ IsSequence (make_seq (x :: l)) = true;
  yl_entries l : NoDup l.*1 → entries (make_map l) = (λ e, (make_scalar e.1, e.2)) <$> l;
  yl_found l k v : NoDup l.*1 → (k, v) ∈ l → subscript (make_map l) k = Ok v;
  yl_missing l k : k ∉ l.*1 → ∃ n, subscript (make_map l) k = Ok n ∧ IsDefined n = false }.

(** Text that reads back as the node it was written from. *)
Definition reloads {Node} `{Yaml Node} (n : Node) : Prop := Load (emit n) = Ok n.

(** ** The casts *)

(** [LexicalCast<F, T>]; the general template is [boost::lexical_cast]. *)
Class LexicalCast (F T : Type) := lexical_cast : F → outcome T.

(** The standard containers. A set is kept in the order of its [operator<]; the
    unordered ones in the order of their buckets, which is not specified. *)
Record vector (T : Type) := vector_of { vector_list : list T }.
Record std_list (T : Type) := std_list_of { list_list : list T }.
Record std_set (T : Type) := std_set_of { set_list : list T }.
Record unordered_set (T : Type) := uset_of { uset_list : list T }.
Record unordered_map (T : Type) := umap_of { umap_list : list (str * T) }.
Arguments vector_of {T}.
Arguments vector_list {T}.
Arguments std_list_of {T}.
Arguments list_list {T}.
Arguments std_set_of {T}.
Arguments set_list {T}.
Arguments uset_of {T}.
Arguments uset_list {T}.
Arguments umap_of {T}.
Arguments umap_list {T}.

(** [operator<]. *)
Class Less (T : Type) := less : T → T → bool.

(** [std::set::insert]: nothing happens if an equivalent element is there. *)
Fixpoint set_insert {T} `{Less T} (x : T) (l : list T) : list T :=
  match l with
  | [] => [x]
  | y :: l' => if less x y then x :: l else if less y x then y :: set_insert x l' else l
  end.

(** Where a new element of an unordered container comes in its iteration. *)
Class Buckets (T : Type) := place : T → list T → nat.
Definition insert_at {A} (n : nat) (x : A) (l : list A) : list A := take n l ++ x :: drop n l.
Definition uset_insert {T} `{EqDecision T, Buckets T} (x : T) (l : list T) : list T :=
  if decide (x ∈ l) then l else insert_at (place x l) x l.
Definition umap_insert {T} `{Buckets str} (k : str) (x : T) (l : list (str * T)) : list (str * T) :=
  if decide (k ∈ l.*1) then l else insert_at (place k l.*1) (k, x) l.

Section Casts.
Context {Node : Type} `{Y : Yaml Node}.

(** [for (it = node.begin(); ..) { ss << *it; .. LexicalCast<string, T>()(ss.str()) }]. *)
Fixpoint cast_nodes {T} `{LexicalCast str T} (l : list Node) : outcome (list T) :=
  match l with
  | [] => Ok []
  | it :: l => x ← lexical_cast (emit it); xs ← cast_nodes l; Ok (x :: xs)
  end.

(** [for (..) node.push_back(YAML::Load(LexicalCast<T, string>()( *it )))]. *)
Fixpoint node_list {T} `{LexicalCast T str} (l : list T) : outcome (list Node) :=
  match l with
  | [] => Ok []
  | x :: l => s ← lexical_cast x; n ← Load s; ns ← node_list l; Ok (n :: ns)
  end.

(** The same over the entries of a map, whose values are emitted. *)
Fixpoint cast_entries {T} `{LexicalCast str T} (l : list (Node * Node)) : outcome (list (str * T)) :=
  match l with
  | [] => Ok []
  | (k, v) :: l => x ← lexical_cast (emit v); xs ← cast_entries l; Ok ((Scalar k, x) :: xs)
  end.

(** [node[it->first] = LexicalCast<T, string>()(it->second)]: the text becomes a
    scalar. *)
Fixpoint entry_list {T} `{LexicalCast T str} (l : list (str * T)) : outcome (list (str * Node)) :=
  match l with
  | [] => Ok []
  | (k, x) :: l => s ← lexical_cast x; es ← entry_list l; Ok ((k, make_scalar s) :: es)
  end.

#[global] Instance cast_vector {T} `{LexicalCast str T} : LexicalCast str (vector T) := λ s,
  node ← Load s; l ← cast_nodes (elements node); Ok (vector_of l).
#[global] Instance print_vector {T} `{LexicalCast T str} : LexicalCast (vector T) str := λ v,
  ns ← node_list (vector_list v); Ok (emit (make_seq ns)).

#[global] Instance cast_list {T} `{LexicalCast str T} : LexicalCast str (std_list T) := λ s,
  node ← Load s; l ← cast_nodes (elements node); Ok (std_list_of l).
#[global] Instance print_list {T} `{LexicalCast T str} : LexicalCast (std_list T) str := λ v,
  ns ← node_list (list_list v); Ok (emit (make_seq ns)).

#[global] Instance cast_set {T} `{LexicalCast str T, Less T} : LexicalCast str (std_set T) := λ s,
  node ← Load s; l ← cast_nodes (elements node);
  Ok (std_set_of (foldl (λ acc x, set_insert x acc) [] l)).
#[global] Instance print_set {T} `{LexicalCast T str} : LexicalCast (std_set T) str := λ v,
  ns ← node_list (set_list v); Ok (emit (make_seq ns)).

#[global] Instance cast_uset {T} `{LexicalCast str T, EqDecision T, Buckets T}
    : LexicalCast str (unordered_set T) := λ s,
  node ← Load s; l ← cast_nodes (elements node);
  Ok (uset_of (foldl (λ acc x, uset_insert x acc) [] l)).
#[global] Instance print_uset {T} `{LexicalCast T str} : LexicalCast (unordered_set T) str := λ v,
  ns ← node_list (uset_list v); Ok (emit (make_seq ns)).

#[global] Instance cast_map {T} `{LexicalCast str T} : LexicalCast str (dict str T) := λ s,
  node ← Load s; l ← cast_entries (entries node);
  Ok (foldl (λ acc e, dinsert e.1 e.2 acc) [] l).
#[global] Instance print_map {T} `{LexicalCast T str} : LexicalCast (dict str T) str := λ v,
  es ← entry_list v; Ok (emit (make_map es)).

#[global] Instance cast_umap {T} `{LexicalCast str T, Buckets str} : LexicalCast str (unordered_map T) := λ s,
  node ← Load s; l ← cast_entries (entries node);
  Ok (umap_of (foldl (λ acc e, umap_insert e.1 e.2 acc) [] l)).
#[global] Instance print_umap {T} `{LexicalCast T str} : LexicalCast (unordered_map T) str := λ v,
  es ← entry_list (umap_list v); Ok (emit (make_map es)).

(** *** [LoggerConf] *)

(** A key that is required, and one that is not. *)
Definition required (node : Node) (key : str) (message : string) : outcome Node :=
  n ← subscript node key;
  if IsDefined n then Ok n else Throw (logic_error message).
Definition optional (node : Node) (key : str) : outcome str :=
  n ← subscript node key;
  if IsDefined n then as_string n else Ok [].

Definition appender_conf (node : Node) : outcome Log.LogAppenderConf :=
  n ← required node (lit "type") "log config logic error: appenders's type is not defined";
  type ← as_string n;
  formatter ← optional node (lit "formatter");
  file ← optional node (lit "file");
  Ok (Log.mkAppenderConf (tolower <$> type) file formatter).

Fixpoint appender_confs (l : list Node) : outcome (list Log.LogAppenderConf) :=
  match l with
  | [] => Ok []
  | n :: l => x ← appender_conf n; xs ← appender_confs l; Ok (x :: xs)
  end.

#[global] Instance cast_LoggerConf : LexicalCast str Log.LoggerConf := λ s,
  node ← Load s;
  n ← required node (lit "name") "log config logic error: name is not defined";
  name ← as_string n;
  n ← required node (lit "level") "log config logic error: level is not defined";
  level ← as_string n;
  n ← required node (lit "appenders") "log config logic error: appenders is not defined";
  if negb (IsSequence n) then Throw (logic_error "log config logic error: appenders is not sequence")
  else
    appenders ← appender_confs (elements n);
    Ok (Log.mkLoggerConf name (LogLevel.ToString (LogLevel.FromString level)) appenders).

Definition field (key value : str) : list (str * Node) :=
  match value with [] => [] | _ => [(key, make_scalar value)] end.

Definition appender_node (c : Log.LogAppenderConf) : Node :=
  make_map (field (lit "type") (Log.type_ c) ++ field (lit "formatter") (Log.conf_formatter_ c)
            ++ field (lit "file") (Log.file_ c)).

#[global] Instance print_LoggerConf : LexicalCast Log.LoggerConf str := λ lc,
  let name := (lit "name", make_scalar (Log.conf_name_ lc)) in
  let level := (lit "level", make_scalar (Log.conf_level_ lc)) in
  let appenders := match Log.conf_appenders_ lc with
                   | [] => []
                   | l => [(lit "appenders", make_seq (appender_node <$> l))]
                   end in
  Ok (emit (make_map (name :: level :: appenders))).

End Casts.
End LexicalCast.
