(* ===== verification/YamlText.v ===== *)
(** * A small notation with the laws of yaml-cpp

    yaml-cpp is a parameter of [LexicalCast] and [Config].  Here is one concrete
    function for each of its operations, on trees with a flow notation of plain
    and quoted scalars, for which the laws hold.  The witnesses are at it. *)

From S2P Require Import Prelude CStr LexicalCast.
Import CStr LexicalCast.

Module YamlText.

Inductive tree :=
| Undefined
| Null
| TScalar (s : str)
| TSeq (l : list tree)
| TMap (l : list (str * tree)).

(** ** Writing *)

Definition is_plain (c : ascii) : bool :=
  is_alnum c || bool_decide (c ∈ ["."; "_"; "-"; "/"; " "; "%"]%char).

(** Plain if it can be, or else quoted with every character escaped. *)
Definition emit_scalar (s : str) : str :=
  match s with
  | [] => lit "''"
  | _ => if forallb is_plain s then s else "'"%char :: concat ((λ c, ["\"; c]%char) <$> s) ++ lit "'"
  end.

Fixpoint emit_tree (t : tree) : str :=
  match t with
  | Undefined => []
  | Null => lit "~"
  | TScalar s => emit_scalar s
  | TSeq l => lit "[" ++ concat ((λ x, emit_tree x ++ lit ",") <$> l) ++ lit "]"
  | TMap l => lit "{" ++ concat ((λ e, emit_scalar e.1 ++ lit ":" ++ emit_tree e.2 ++ lit ",") <$> l) ++ lit "}"
  end.

(** ** Reading *)

Fixpoint read_quoted (s acc : str) : option (str * str) :=
  match s with
  | "'"%char :: s => Some (acc, s)
  | "\"%char :: c :: s => read_quoted s (acc ++ [c])
  | _ => None
  end.

Fixpoint read_plain (s acc : str) : str * str :=
  match s with
  | c :: s' => if is_plain c then read_plain s' (acc ++ [c]) else (acc, s)
  | [] => (acc, [])
  end.

Definition read_scalar (s : str) : option (str * str) :=
  match s with
  | "'"%char :: s => read_quoted s []
  | _ => match read_plain s [] with ([], _) => None | r => Some r end
  end.

Fixpoint read (fuel : nat) (s : str) : option (tree * str) :=
  match fuel with
  | O => None
  | S fuel =>
      match s with
      | "["%char :: s => '(l, s) ← read_items fuel s; Some (TSeq l, s)
      | "{"%char :: s => '(l, s) ← read_fields fuel s; Some (TMap l, s)
      | "~"%char :: s => Some (Null, s)
      | _ => '(x, s) ← read_scalar s; Some (TScalar x, s)
      end
  end
with read_items (fuel : nat) (s : str) : option (list tree * str) :=
  match fuel with
  | O => None
  | S fuel =>
      match s with
      | "]"%char :: s => Some ([], s)
      | _ => '(t, s) ← read fuel s;
             match s with
             | ","%char :: s => '(l, s) ← read_items fuel s; Some (t :: l, s)
             | _ => None
             end
      end
  end
with read_fields (fuel : nat) (s : str) : option (list (str * tree) * str) :=
  match fuel with
  | O => None
  | S fuel =>
      match s with
      | "}"%char :: s => Some ([], s)
      | _ => '(k, s) ← read_scalar s;
             match s with
             | ":"%char :: s =>
                 '(t, s) ← read fuel s;
                 match s with
                 | ","%char :: s => '(l, s) ← read_fields fuel s; Some ((k, t) :: l, s)
                 | _ => None
                 end
             | _ => None
             end
      end
  end.

Definition load (s : str) : outcome tree :=
  match s with
  | [] => Ok Null
  | _ => match read (S (length s)) s with
         | Some (t, []) => Ok t
         | _ => Throw (runtime_error "YAML::ParserException")
         end
  end.

(** ** The operations *)

Fixpoint lookup_field (l : list (str * tree)) (k : str) : tree :=
  match l with
  | [] => Undefined
  | (k', t) :: l => if decide (k' = k) then t else lookup_field l k
  end.

#[global] Instance tree_yaml : Yaml tree := {
  Load := load;
  emit := emit_tree;
  IsDefined t := match t with Undefined => false | _ => true end;
  IsScalar t := match t with TScalar _ => true | _ => false end;
  IsSequence t := match t with TSeq _ => true | _ => false end;
  IsMap t := match t with TMap _ => true | _ => false end;
  Scalar t := match t with TScalar s => s | _ => [] end;
  as_string t := match t with TScalar s => Ok s | _ => Throw (runtime_error "YAML::BadConversion") end;
  elements t := match t with TSeq l => l | _ => [] end;
  entries t := match t with TMap l => (λ e, (TScalar e.1, e.2)) <$> l | _ => [] end;
  subscript t k := match t with
                   | TMap l => Ok (lookup_field l k)
                   | TScalar _ => Throw (runtime_error "YAML::BadSubscript")
                   | _ => Ok Undefined
                   end;
  make_scalar := TScalar;
  make_seq l := match l with [] => Null | _ => TSeq l end;
  make_map l := match l with [] => Null | _ => TMap l end }.

Lemma lookup_field_found l k t : NoDup l.*1 → (k, t) ∈ l → lookup_field l k = t.
Proof.
  induction l as [|[k' t'] l IH]; cbn; intros Hnd Hk; [by apply elem_of_nil in Hk|].
  apply NoDup_cons in Hnd as [Hk' Hnd]. apply elem_of_cons in Hk as [[= -> ->]|Hk].
  - by rewrite decide_True.
  - rewrite decide_False; [by apply IH|]. intros ->. apply Hk'. by apply (list_elem_of_fmap_2 fst _ (k, t)).
Qed.

Lemma lookup_field_missing l k : k ∉ l.*1 → lookup_field l k = Undefined.
Proof.
  induction l as [|[k' t'] l IH]; cbn; [done|]. intros [Hk Hl]%not_elem_of_cons.
  rewrite decide_False by done. by apply IH.
Qed.

#[global] Instance tree_laws : YamlLaws tree.
Proof.
  split.
  - done.
  - by intros [].
  - done.
  - by intros [].
  - intros [|e l] k v Hnd Hk; [by apply elem_of_nil in Hk|]. cbn [subscript make_map tree_yaml].
    by rewrite (lookup_field_found _ k v).
  - intros [|e l] k Hk; exists Undefined; [done|]. cbn [subscript make_map tree_yaml].
    by rewrite lookup_field_missing.
Qed.

(** [boost::lexical_cast] between strings. *)
Definition cast_string : LexicalCast str str := Ok.

End YamlText.
