(* ===== verification/LexicalCastProps.v ===== *)
(** * Properties of the conversions

    What becomes of the elements of containers and round trips, of the logger
    configuration too, what happens to containers inside maps; the witnesses use the notation of [YamlText]. *)

From Stdlib Require Import Sorted.
From S2P Require Import Prelude CStr Log LexicalCast YamlText.
Import CStr LexicalCast YamlText.

Module LexicalCastProps.

(** For the witnesses: text elements, in their order. *)
#[local] Instance cast_string_local : LexicalCast str str := cast_string.
#[local] Instance less_string_local : Less str := klt.

Section Roundtrips.
Context {Node : Type} `{YL : YamlLaws Node}.

(** What becomes of a value as an element of a sequence: its text is loaded, and
    the node emitted again. *)
Definition becomes {T} `{LexicalCast T str, LexicalCast str T} (x : T) (n : Node) (y : T) : Prop :=
  ∃ s, lexical_cast x = Ok s ∧ Load s = Ok n ∧ lexical_cast (emit n) = Ok y.

Lemma node_list_becomes {T} `{LexicalCast T str, LexicalCast str T} (l : list T) ns l' :
  Forall3 becomes l ns l' → node_list l = Ok ns ∧ cast_nodes ns = Ok l'.
Proof.
  induction 1 as [|x n y l ns l' (s & Hp & Hl & Hc) _ [IH1 IH2]]; [done|]. cbn [node_list cast_nodes].
  rewrite Hp. cbn. rewrite Hl. cbn. rewrite IH1, Hc. cbn. by rewrite IH2.
Qed.

(** What is inserted in order is appended. *)
Definition ascending {T} `{Less T} (l : list T) : Prop :=
  StronglySorted (λ x y, less x y = true ∧ less y x = false) l.

Lemma set_insert_last {T} `{Less T} (x : T) l :
  Forall (λ y, less y x = true ∧ less x y = false) l → set_insert x l = l ++ [x].
Proof.
  induction 1 as [|y l [H1 H2] _ IH]; cbn; [done|]. by rewrite H2, H1, IH.
Qed.

Lemma set_inserts_ascending {T} `{Less T} (l acc : list T) :
  ascending (acc ++ l) → foldl (λ a x, set_insert x a) acc l = acc ++ l.
Proof.
  revert acc. induction l as [|x l IH]; intros acc Ha; cbn [foldl]; [by rewrite app_nil_r|].
  rewrite set_insert_last.
  - rewrite IH; by rewrite <- app_assoc.
  - clear IH. induction acc as [|y acc IH]; [constructor|]. cbn in Ha.
    apply StronglySorted_inv in Ha as [Ha Hy]. constructor; [|by apply IH].
    apply Forall_app in Hy as [_ Hy]. by apply Forall_cons in Hy as [? _].
Qed.
End Roundtrips.

(** [C38] The sequence containers, at any depth of nesting: the elements [l] of a
    [std::vector] or [std::list] are written, as text that yaml-cpp loads into the
    nodes [ns], and come back as [l'], each what the emitted node is cast to (it
    is [l' = l], and the cast a round trip, if every element comes back through
    its node); a [std::set] comes back with the elements [l'] inserted in turn.  The
    condition on yaml-cpp is that it reads the sequence of these nodes back from its
    text.  The container is then an element with this property in its turn.  An
    element that is cast back from its own text may still change on the way
    through its node ([empty_string_becomes_tilde]). *)
Theorem sequences_roundtrip {Node} `{YL : YamlLaws Node} {T} `{LexicalCast T str, LexicalCast str T, Less T}
    (l : list T) ns l' :
  Forall3 becomes l ns l' → reloads (make_seq ns) →
  becomes (vector_of l) (make_seq ns) (vector_of l') ∧
  becomes (std_list_of l) (make_seq ns) (std_list_of l') ∧
  becomes (std_set_of l) (make_seq ns) (std_set_of (foldl (λ acc x, set_insert x acc) [] l')) ∧
  (ascending l' → becomes (std_set_of l) (make_seq ns) (std_set_of l')).
Proof.
  intros Hl Hr. destruct (node_list_becomes l ns l' Hl) as [Hn Hc].
  unfold becomes, lexical_cast, cast_vector, print_vector, cast_list, print_list, cast_set, print_set.
  cbn [vector_list list_list set_list]. rewrite Hn. cbn [mbind outcome_bind]. unfold reloads in Hr.
  split; [|split; [|split; [|intros Ha]]]; exists (emit (make_seq ns)); (split; [done|]); (split; [done|]);
    rewrite Hr; cbn [mbind outcome_bind]; rewrite yl_seq, Hc; cbn [mbind outcome_bind]; [done|done|done|].
  by rewrite (set_inserts_ascending l' []).
Qed.

(** The empty string is cast to itself, but its text is loaded as a null node, which
    is emitted as a tilde. *)
Lemma empty_string_becomes_tilde :
  becomes (Node := tree) (lit "") Null (lit "~") ∧
  (s ← lexical_cast (vector_of [lit ""; lit "b"]); lexical_cast (T := vector str) s) = Ok (vector_of [lit "~"; lit "b"]).
Proof. split; [exists (lit ""); vm_compute; done|by vm_compute]. Qed.

Lemma sequences_roundtrip_witness :
  becomes (Node := tree) (vector_of [lit ""; lit "b"]) (TSeq [Null; TScalar (lit "b")]) (vector_of [lit "~"; lit "b"]) ∧
  becomes (Node := tree) (vector_of [lit "b1"; lit "b2"]) (TSeq [TScalar (lit "b1"); TScalar (lit "b2")]) (vector_of [lit "b1"; lit "b2"]).
Proof.
  split.
  - refine (proj1 (sequences_roundtrip (Node := tree) [lit ""; lit "b"] [Null; TScalar (lit "b")] [lit "~"; lit "b"] _ _)).
    + repeat constructor; [exists (lit "")|exists (lit "b")]; vm_compute; done.
    + by vm_compute.
  - refine (proj1 (sequences_roundtrip (Node := tree) [lit "b1"; lit "b2"] [TScalar (lit "b1"); TScalar (lit "b2")] [lit "b1"; lit "b2"] _ _)).
    + repeat constructor; [exists (lit "b1")|exists (lit "b2")]; vm_compute; done.
    + by vm_compute.
Defined.

Section Maps.
Context {Node : Type} `{YL : YamlLaws Node} {T : Type} `{LexicalCast T str, LexicalCast str T}.

(** A value of a map becomes a scalar, whose text is what is read back. *)
Definition value_becomes (x y : T) : Prop :=
  ∃ s, lexical_cast x = Ok s ∧ lexical_cast (emit (make_scalar s)) = Ok y.

(** The node a map is written as. *)
Definition map_node (m : dict str T) : outcome Node := es ← entry_list m; Ok (make_map es).

Lemma entry_list_becomes (m m' : dict str T) :
  Forall2 (λ e e', e.1 = e'.1 ∧ value_becomes e.2 e'.2) m m' →
  ∃ es : list (str * Node), entry_list m = Ok es ∧ es.*1 = m.*1 ∧
    cast_entries ((λ e, (make_scalar e.1, e.2)) <$> es) = Ok m'.
Proof.
  induction 1 as [|[k x] [k' y] m m' [Hk (s & Hp & Hc)] _ (es & IH1 & IH2 & IH3)]; [by exists []|].
  cbn in Hk. subst k'. exists ((k, make_scalar s) :: es). cbn [entry_list cast_entries fmap list_fmap fst snd].
  cbn in Hp, Hc. rewrite Hp. cbn. rewrite IH1. cbn. rewrite Hc. cbn. rewrite IH3. cbn.
  destruct (yl_scalar (Node := Node) k) as (_ & _ & -> & _). by rewrite IH2.
Qed.

Lemma dset_last (k : str) (x : T) m :
  Forall (λ e, klt e.1 k = true) m → dset k x m = m ++ [(k, x)].
Proof.
  induction 1 as [|[k' x'] m Hk _ IH]; cbn [dset app]; [done|]. cbn [fst] in Hk.
  assert (klt k k' = false) as ->.
  { destruct (klt k k') eqn:E; [|done]. pose proof (klt_trans _ _ _ Hk E) as Hc. by rewrite klt_irrefl in Hc. }
  rewrite decide_False; [by rewrite IH|]. intros ->. by rewrite klt_irrefl in Hk.
Qed.

Lemma dget_not_in (k : str) (m : dict str T) : k ∉ m.*1 → dget k m = None.
Proof.
  induction m as [|[k' x'] m IH]; cbn; [done|]. intros [Hk Hm]%not_elem_of_cons.
  rewrite decide_False by done. by apply IH.
Qed.

Lemma sorted_app_last (acc : dict str T) e l :
  sorted (acc ++ e :: l) → Forall (λ e', klt e'.1 e.1 = true) acc.
Proof.
  induction acc as [|[k x] acc IH]; cbn; [constructor|]. intros [Hk Hs]. constructor; [|by apply IH].
  apply Forall_app in Hk as [_ Hk]. by apply Forall_cons in Hk as [? _].
Qed.

Lemma dinserts_sorted (l acc : dict str T) :
  sorted (acc ++ l) → foldl (λ a e, dinsert e.1 e.2 a) acc l = acc ++ l.
Proof.
  revert acc. induction l as [|[k x] l IH]; intros acc Hs; cbn [foldl]; [by rewrite app_nil_r|].
  pose proof (sorted_app_last acc (k, x) l Hs) as Ha.
  assert (dinsert k x acc = acc ++ [(k, x)]) as Hd.
  { unfold dinsert. rewrite dget_not_in.
    - by apply dset_last.
    - intros (e & -> & He)%list_elem_of_fmap. rewrite Forall_forall in Ha. apply Ha in He.
      cbn [fst] in He. by rewrite klt_irrefl in He. }
  cbn [fst snd]. rewrite Hd. rewrite IH; rewrite <- app_assoc; done.
Qed.

Lemma sorted_nodup (m : dict str T) : sorted m → NoDup m.*1.
Proof.
  induction m as [|[k x] m IH]; cbn [sorted fmap list_fmap fst]; [constructor|]. intros [Hk Hs]. constructor; [|by apply IH].
  intros (e & -> & He)%list_elem_of_fmap. rewrite Forall_forall in Hk. apply Hk in He.
  by rewrite klt_irrefl in He.
Qed.

Lemma map_cast_back (m m' : dict str T) :
  sorted m → sorted m' → Forall2 (λ e e', e.1 = e'.1 ∧ value_becomes e.2 e'.2) m m' →
  (∀ n, map_node m = Ok n → reloads n) →
  ∃ s, lexical_cast m = Ok s ∧ lexical_cast s = Ok m'.
Proof.
  intros Hs Hs' Hm Hr. destruct (entry_list_becomes m m' Hm) as (es & H1 & H2 & H3).
  unfold map_node in Hr. rewrite H1 in Hr. specialize (Hr _ eq_refl). unfold reloads in Hr.
  exists (emit (make_map es)). unfold lexical_cast, print_map, cast_map. rewrite H1. split; [done|].
  cbn [mbind outcome_bind]. rewrite Hr. cbn [mbind outcome_bind].
  rewrite yl_entries by (rewrite H2; by apply sorted_nodup). rewrite H3. cbn [mbind outcome_bind].
  by rewrite (dinserts_sorted m' []).
Qed.
End Maps.

(** Round trip of [std::map<std::string, T>]: if yaml-cpp reads the map back
    and every value is read back from the scalar that holds its text, the cast
    from the text of a map gives the map. *)
Theorem map_roundtrip {Node} `{YL : YamlLaws Node} {T} `{LexicalCast T str, LexicalCast str T} (m : dict str T) :
  sorted m → Forall (λ e, value_becomes (Node := Node) e.2 e.2) m →
  (∀ n : Node, map_node m = Ok n → reloads n) →
  ∃ s, lexical_cast m = Ok s ∧ lexical_cast s = Ok m.
Proof.
  intros Hs Hm Hr. apply map_cast_back; [done|done| |done]. clear Hs Hr.
  induction Hm; constructor; [done|done].
Qed.

Lemma map_roundtrip_witness :
  ∃ s, lexical_cast ([(lit "host", lit "a.org"); (lit "port", lit "80")] : dict str str) = Ok s ∧
       lexical_cast s = Ok ([(lit "host", lit "a.org"); (lit "port", lit "80")] : dict str str).
Proof.
  refine (map_roundtrip (Node := tree) [(lit "host", lit "a.org"); (lit "port", lit "80")] _ _ _).
  - vm_compute. repeat constructor.
  - repeat constructor; [exists (lit "a.org")|exists (lit "80")]; vm_compute; done.
  - intros n [= <-]. by vm_compute.
Defined.

(** Containers inside maps do not survive: the text of the inner container
    is stored as a scalar, and a scalar has no elements.  A map of vectors comes
    back with the same keys and every vector empty. *)
Theorem map_of_vectors_empties {Node} `{YL : YamlLaws Node} {T} `{LexicalCast T str, LexicalCast str T}
    (m : dict str (vector T)) :
  sorted m →
  Forall (λ e, ∃ s, lexical_cast e.2 = Ok s ∧ reloads (make_scalar (Node := Node) s)) m →
  (∀ n : Node, map_node m = Ok n → reloads n) →
  ∃ s, lexical_cast m = Ok s ∧ lexical_cast s = Ok ((λ e, (e.1, vector_of [])) <$> m : dict str (vector T)).
Proof.
  intros Hs Hm Hr. apply map_cast_back; [done| | |done].
  - clear Hm Hr. induction m as [|[k v] m IH]; cbn [sorted fmap list_fmap fst snd] in *; [done|]. destruct Hs as [Hk Hs].
    split; [|by apply IH]. by apply Forall_fmap.
  - clear Hs Hr. induction Hm as [|[k v] m (s & Hp & Hl) _ IH]; constructor; [|done].
    split; [done|]. exists s. split; [done|]. cbn [snd]. unfold lexical_cast, cast_vector.
    unfold reloads in Hl. rewrite Hl. cbn. by destruct (yl_scalar (Node := Node) s) as (_ & _ & _ & _ & ->).
Qed.

Lemma map_of_vectors_empties_witness :
  ∃ s, lexical_cast ([(lit "k", vector_of [lit "b"])] : dict str (vector str)) = Ok s ∧
       lexical_cast s = Ok ([(lit "k", vector_of [])] : dict str (vector str)).
Proof.
  refine (map_of_vectors_empties (Node := tree) [(lit "k", vector_of [lit "b"])] _ _ _).
  - vm_compute. repeat constructor.
  - repeat constructor. exists (lit "[b,]"). vm_compute. done.
  - intros n Hn. vm_compute in Hn. injection Hn as <-. by vm_compute.
Defined.

(** ** The logger configuration *)

Section LoggerConf.
Context {Node : Type} `{YL : YamlLaws Node}.

(** What a cast produces: a level name, lower-cased types, something to log to. *)
Definition appender_ok (c : Log.LogAppenderConf) : Prop :=
  Log.type_ c ≠ [] ∧ tolower <$> Log.type_ c = Log.type_ c.
Definition conf_ok (lc : Log.LoggerConf) : Prop :=
  Log.conf_level_ lc = LogLevel.ToString (LogLevel.FromString (Log.conf_level_ lc)) ∧
  Log.conf_appenders_ lc ≠ [] ∧ Forall appender_ok (Log.conf_appenders_ lc).

(** The node it is written as. *)
Definition conf_node (lc : Log.LoggerConf) : Node :=
  make_map [(lit "name", make_scalar (Log.conf_name_ lc)); (lit "level", make_scalar (Log.conf_level_ lc));
            (lit "appenders", make_seq (appender_node <$> Log.conf_appenders_ lc))].

Lemma required_found l k v message : NoDup l.*1 → (k, v) ∈ l → IsDefined v = true →
  required (Node := Node) (make_map l) k message = Ok v.
Proof. intros Hl Hk Hv. unfold required. rewrite (yl_found l k v Hl Hk). cbn. by rewrite Hv. Qed.

Lemma optional_found l k s : NoDup l.*1 → (k, make_scalar s) ∈ l →
  optional (Node := Node) (make_map l) k = Ok s.
Proof.
  intros Hl Hk. unfold optional. rewrite (yl_found l k _ Hl Hk). cbn.
  by destruct (yl_scalar (Node := Node) s) as (-> & _ & _ & -> & _).
Qed.

Lemma optional_missing l k : k ∉ l.*1 → optional (Node := Node) (make_map l) k = Ok [].
Proof. intros Hk. unfold optional. destruct (yl_missing l k Hk) as (n & -> & Hn). cbn. by rewrite Hn. Qed.

Lemma appender_fields_nodup c :
  NoDup ((field (lit "type") (Log.type_ c) ++ field (lit "formatter") (Log.conf_formatter_ c)
            ++ field (lit "file") (Log.file_ c) : list (str * Node)).*1).
Proof. unfold field. destruct (Log.type_ c), (Log.conf_formatter_ c), (Log.file_ c); by_decide. Qed.

Lemma optional_field c k v :
  (k, v) ∈ [(lit "formatter", Log.conf_formatter_ c); (lit "file", Log.file_ c)] →
  optional (Node := Node) (appender_node c) k = Ok v.
Proof.
  intros Hk. pose proof (appender_fields_nodup c) as Hnd. unfold appender_node, field in *.
  apply elem_of_cons in Hk as [[= -> ->]|Hk%list_elem_of_singleton]; [|injection Hk as -> ->];
    destruct (Log.type_ c) as [|t ts], (Log.conf_formatter_ c) as [|f fs], (Log.file_ c) as [|p ps];
    cbn [app] in *;
    first [apply optional_missing; by_decide | apply optional_found; [exact Hnd|]; rewrite !elem_of_cons; tauto].
Qed.

Lemma appender_conf_back c : appender_ok c → appender_conf (Node := Node) (appender_node c) = Ok c.
Proof.
  intros [Ht Hl]. unfold appender_conf. pose proof (appender_fields_nodup c) as Hnd.
  assert (required (Node := Node) (appender_node c) (lit "type")
    "log config logic error: appenders's type is not defined" = Ok (make_scalar (Log.type_ c))) as ->.
  { apply required_found; [exact Hnd| |apply yl_scalar]. unfold field. destruct (Log.type_ c); [done|by left]. }
  cbn [mbind outcome_bind]. destruct (yl_scalar (Node := Node) (Log.type_ c)) as (_ & _ & _ & -> & _).
  cbn [mbind outcome_bind]. rewrite (optional_field c (lit "formatter") (Log.conf_formatter_ c)) by by left.
  cbn [mbind outcome_bind]. rewrite (optional_field c (lit "file") (Log.file_ c)) by by right; left.
  cbn [mbind outcome_bind]. rewrite Hl. by destruct c.
Qed.

Lemma appender_confs_back l : Forall appender_ok l → appender_confs (Node := Node) (appender_node <$> l) = Ok l.
Proof.
  induction 1 as [|c l Hc _ IH]; [done|]. cbn [fmap list_fmap appender_confs].
  rewrite appender_conf_back by done. cbn [mbind outcome_bind]. by rewrite IH.
Qed.

Lemma conf_node_back s lc : conf_ok lc → Load s = Ok (conf_node lc) → cast_LoggerConf (Node := Node) s = Ok lc.
Proof.
  intros (Hlv & Hne & Hap) Hs. unfold cast_LoggerConf. rewrite Hs. cbn [mbind outcome_bind].
  assert (∀ k v message, IsDefined v = true → (k, v) ∈ [(lit "name", make_scalar (Log.conf_name_ lc));
    (lit "level", make_scalar (Log.conf_level_ lc));
    (lit "appenders", make_seq (appender_node <$> Log.conf_appenders_ lc))] →
    required (Node := Node) (conf_node lc) k message = Ok v) as Hreq.
  { intros k v message Hv Hk. apply required_found; [by_decide|done|done]. }
  rewrite (Hreq (lit "name") (make_scalar (Log.conf_name_ lc))) by (apply yl_scalar || by left).
  cbn [mbind outcome_bind]. destruct (yl_scalar (Node := Node) (Log.conf_name_ lc)) as (_ & _ & _ & -> & _).
  cbn [mbind outcome_bind].
  rewrite (Hreq (lit "level") (make_scalar (Log.conf_level_ lc))) by (apply yl_scalar || (right; by left)).
  cbn [mbind outcome_bind]. destruct (yl_scalar (Node := Node) (Log.conf_level_ lc)) as (_ & _ & _ & -> & _).
  cbn [mbind outcome_bind].
  assert (∃ x l, appender_node (Node := Node) <$> Log.conf_appenders_ lc = x :: l) as (x & l & Ex)
    by (destruct (Log.conf_appenders_ lc); [done|by eexists _, _]).
  destruct (yl_seq_kind x l) as [Hd Hq]. rewrite <- Ex in Hd, Hq.
  rewrite (Hreq (lit "appenders") (make_seq (appender_node <$> Log.conf_appenders_ lc))) by (done || (right; right; by left)).
  cbn [mbind outcome_bind]. rewrite Hq, yl_seq. cbn [negb]. rewrite appender_confs_back by done.
  cbn [mbind outcome_bind]. rewrite <- Hlv. by destruct lc.
Qed.
End LoggerConf.

(** Round trip of a logger's configuration: for one with a level name in
    capitals, at least one appender, and lower-case appender types, the cast
    from its text gives it back with every appender's type, format and file. *)
Theorem LoggerConf_roundtrip {Node} `{YL : YamlLaws Node} (lc : Log.LoggerConf) :
  conf_ok lc → reloads (conf_node (Node := Node) lc) →
  ∃ s, lexical_cast lc = Ok s ∧ lexical_cast (T := Log.LoggerConf) s = Ok lc.
Proof.
  intros Hok Hr. exists (emit (conf_node (Node := Node) lc)). split; [|by apply conf_node_back].
  unfold lexical_cast, print_LoggerConf, conf_node.
  destruct Hok as (_ & Hne & _). by destruct (Log.conf_appenders_ lc).
Qed.

Definition file_logger : Log.LoggerConf :=
  Log.mkLoggerConf (lit "system") (lit "INFO")
    [Log.mkAppenderConf (lit "logappendertofile") (lit "/var/log/s.log") (lit "%d%T%m%n");
     Log.mkAppenderConf (lit "logappendertostd") [] []].

Lemma LoggerConf_roundtrip_witness :
  ∃ s, lexical_cast file_logger = Ok s ∧ lexical_cast (T := Log.LoggerConf) s = Ok file_logger.
Proof.
  refine (LoggerConf_roundtrip (Node := tree) file_logger _ _).
  - split; [by vm_compute|]. split; [done|]. repeat constructor; vm_compute; done.
  - by vm_compute.
Defined.

End LexicalCastProps.
