(* ===== verification/Config.v ===== *)
(** * Configuration variables

    [ConfigVarBase], [ConfigVar] and [Config] of [src/include/config.hh] and
    [src/config.cc].  The value types a program registers are the class
    [ValueTypes]; listeners act on a world of their own and do not touch the
    variables, as the only one of the program, in [LogConf]. What is logged when
    a conversion fails is not part of the state. *)

From S2P Require Import Prelude CStr LexicalCast.
Import CStr LexicalCast.

Module Config.

(** The keys of the listeners. *)
#[global] Program Instance Z_key : OrdKey Z := {| klt := Z.ltb |}.
Next Obligation. apply Z.ltb_irrefl. Qed.
Next Obligation. intros a b c. rewrite !Z.ltb_lt. lia. Qed.
Next Obligation. intros a b. rewrite !Z.ltb_ge. lia. Qed.

(** The [catch (std::exception &)] around a [try]. *)
Definition catch {S A} (m : M S A) (handler : exn → M S A) : M S A := λ s,
  match m s with (Throw e, s') => handler e s' | r => r end.

(** [operator==] of a value type. *)
Class Equal (T : Type) := equal : T → T → bool.

(** ** One variable *)

Section ConfigVar.
Context {W : Type}.

(** A [std::function]; [None] is an empty one. *)
Definition changeCallback (T : Type) : Type := option (T → T → M W unit).

Record ConfigVar (T : Type) := mkConfigVar {
  name_ : str;
  description_ : str;
  value_ : T;
  callback_func_map_ : dict Z (changeCallback T) }.
Arguments mkConfigVar {T}.
Arguments name_ {T}.
Arguments description_ {T}.
Arguments value_ {T}.
Arguments callback_func_map_ {T}.

Context {T : Type} `{LexicalCast T str, LexicalCast str T, Equal T}.

(** The methods run on the variable and the world of the listeners. *)
#[local] Abbreviation M_var := (M (ConfigVar T * W)).
Definition this : M_var (ConfigVar T) := λ s, (Ok s.1, s).
Definition put_value (val : T) : M_var unit := λ '(v, w),
  (Ok tt, (mkConfigVar (name_ v) (description_ v) val (callback_func_map_ v), w)).
Definition modify_callbacks (f : dict Z (changeCallback T) → dict Z (changeCallback T)) : M_var unit := λ '(v, w),
  (Ok tt, (mkConfigVar (name_ v) (description_ v) (value_ v) (f (callback_func_map_ v)), w)).

(** [item.second(value_, val)]. *)
Definition call (f : changeCallback T) (old_val new_val : T) : M_var unit := λ '(v, w),
  match f with
  | None => (Throw bad_function_call, (v, w))
  | Some f => let '(o, w) := f old_val new_val w in (o, (v, w))
  end.

Fixpoint call_all (l : list (Z * changeCallback T)) (old_val new_val : T) : M_var unit :=
  match l with
  | [] => mret tt
  | item :: l => call item.2 old_val new_val;; call_all l old_val new_val
  end.

Definition SetValue (val : T) : M_var unit :=
  v ← this;
  if equal val (value_ v) then mret tt
  else call_all (callback_func_map_ v) (value_ v) val;; put_value val.

Definition FromString (s : str) : M_var bool :=
  catch (x ← lift (lexical_cast s); SetValue x;; mret true)
    (λ _, raise (invalid_argument (string_of_list_ascii s))).

Definition ToString : M_var str :=
  catch (v ← this; lift (lexical_cast (value_ v))) (λ _, mret []).

Definition AddListener (key : Z) (func : changeCallback T) : M_var unit :=
  modify_callbacks (dset key func).
Definition DelListener (key : Z) : M_var unit := modify_callbacks (derase key).

(** [operator[]] inserts an empty function for a new key. *)
Definition GetListener (key : Z) : M_var (changeCallback T) :=
  modify_callbacks (dinsert key None);;
  v ← this;
  match dget key (callback_func_map_ v) with
  | Some f => mret f
  | None => undef "operator[] finds no element"
  end.
Definition ClearListener : M_var unit := modify_callbacks (λ _, []).
End ConfigVar.
Abbreviation M_var W T := (M (@ConfigVar W T * W)).
Arguments changeCallback : clear implicits.
Arguments ConfigVar : clear implicits.
Arguments mkConfigVar {W T}.
Arguments name_ {W T}.
Arguments description_ {W T}.
Arguments value_ {W T}.
Arguments callback_func_map_ {W T}.

(** ** The registry *)

(** The types [T] of the program's [ConfigVar<T>], told apart by
    [dynamic_pointer_cast]. *)
Class ValueTypes := {
  Ty : Type;
  Ty_eq_dec :: EqDecision Ty;
  denote : Ty → Type;
  denote_equal t :: Equal (denote t);
  denote_to_str t :: LexicalCast (denote t) str;
  denote_from_str t :: LexicalCast str (denote t);
  Typename : Ty → str }.

Section Config.
Context `{VT : ValueTypes} {W : Type}.

(** An object of a class derived from [ConfigVarBase]. *)
Definition ConfigVarBase : Type := { t : Ty & ConfigVar W (denote t) }.
Definition upcast (t : Ty) (v : ConfigVar W (denote t)) : ConfigVarBase := existT t v.
Definition var_type (b : ConfigVarBase) : Ty := projT1 b.
Definition GetName (b : ConfigVarBase) : str := name_ (projT2 b).
Definition GetDescription (b : ConfigVarBase) : str := description_ (projT2 b).
Definition GetTypename (b : ConfigVarBase) : str := Typename (projT1 b).

(** The objects, by pointer; [GetVarsMap()], whose entries may be null; and what
    the listeners act on. *)
Record State := mkState {
  vars : list ConfigVarBase;
  conf_vars : dict str (option nat);
  world : W }.
Definition State_new (w : W) : State := mkState [] [] w.

(** A method through a pointer to the base class. *)
Definition on_var {A} (p : nat) (method : ∀ t, M_var W (denote t) A) : M State A := λ st,
  match vars st !! p with
  | None => (Undef "dangling pointer", st)
  | Some b =>
      let '(o, (v, w)) := method (var_type b) (projT2 b, world st) in
      (o, mkState (<[p := upcast (var_type b) v]> (vars st)) (conf_vars st) w)
  end.

(** [std::dynamic_pointer_cast<ConfigVar<T>>]. *)
Definition dynamic_cast (t : Ty) (p : option nat) : M State (option nat) :=
  match p with
  | None => mret None
  | Some p =>
      st ← get;
      match vars st !! p with
      | None => undef "dangling pointer"
      | Some b => mret (if decide (var_type b = t) then Some p else None)
      end
  end.

Definition Lookup (t : Ty) (name : str) : M State (option nat) :=
  let key := tolower <$> name in
  st ← get;
  match dget key (conf_vars st) with
  | None => mret None
  | Some it => dynamic_cast t it
  end.

(** [find_first_not_of(chars) == npos]. *)
Definition only (chars s : str) : bool := forallb (λ c, bool_decide (c ∈ chars)) s.
Definition key_chars : str := lit "abcdefghijklmnopqrstuvwxyz._-123456789/".
Definition prefix_chars : str :=
  lit "ABCDEFGHIJKLMNOPQRSTUVWXYZabcdefghijklmnopqrstuvwxyz._-123456789/".

(** [new ConfigVar<T>(key, val, description)], [ToString] and the insertion. *)
Definition add_var (t : Ty) (key : str) (val : denote t) (description : str) : M State (option nat) := λ st,
  let p := length (vars st) in
  let v := mkConfigVar key description val [] in
  let '(o, _) := ToString (v, world st) in
  match o with
  | Ok _ => (Ok (Some p), mkState (vars st ++ [upcast t v]) (dset key (Some p) (conf_vars st)) (world st))
  | Throw e => (Throw e, st)
  | Undef why => (Undef why, st)
  | NoFuel => (NoFuel, st)
  end.

Definition Lookup_or_add (t : Ty) (name : str) (val : denote t) (description : str) : M State (option nat) :=
  let key := tolower <$> name in
  st ← get;
  match dget key (conf_vars st) with
  | Some ptr => dynamic_cast t ptr
  | None =>
      if negb (only key_chars key)
      then raise (invalid_argument (String.append "input argument "
                    (String.append (string_of_list_ascii key) " is invalid")))
      else add_var t key val description
  end.

(** One line per variable; a null entry is dereferenced. *)
Fixpoint print_vars (objects : list ConfigVarBase) (l : dict str (option nat)) : outcome (list str) :=
  match l with
  | [] => Ok []
  | (key, p) :: l =>
      match p ≫= (objects !!.) with
      | None => Undef "null pointer"
      | Some b =>
          ls ← print_vars objects l;
          Ok ((lit "[" ++ key ++ lit ", " ++ GetDescription b ++ lit ", " ++ GetTypename b ++ lit "]") :: ls)
      end
  end.
Definition PrintAllVarsMap : M State (list str) := λ st, (print_vars (vars st) (conf_vars st), st).

(** ** Loading *)

Context {Node : Type} `{Y : Yaml Node}.

(** The recursion is on yaml-cpp's nodes: [fuel] bounds their depth. *)
Fixpoint YamlToList (fuel : nat) (prefix : str) (node : Node) (list : list (str * Node))
    : outcome (Datatypes.list (str * Node)) :=
  match fuel with
  | O => NoFuel
  | S fuel =>
      if negb (only prefix_chars prefix) then Ok list
      else
        let list := list ++ [(prefix, node)] in
        if IsMap node
        then foldl (λ acc '(k, v),
               list ← acc;
               YamlToList fuel (match prefix with [] => Scalar k | _ => prefix ++ lit "." ++ Scalar k end) v list)
               (Ok list) (entries node)
        else Ok list
  end.

(** [GetVarsMap()[key]->FromString(s)]: [operator[]] inserts a null pointer for a
    new key. *)
Definition set_var (key s : str) : M State bool :=
  modify (λ st, mkState (vars st) (dinsert key None (conf_vars st)) (world st));;
  st ← get;
  match dget key (conf_vars st) with
  | Some (Some p) => on_var p (λ t, FromString s)
  | _ => undef "null pointer"
  end.

(** The body of the loop. *)
Definition load_entry (key : str) (node : Node) : M State unit :=
  match key with
  | [] => mret tt
  | _ =>
      let lower := tolower <$> key in
      st ← get;
      match dget lower (conf_vars st) with
      | None => mret tt
      | Some _ =>
          (if IsScalar node then set_var key (Scalar node) else set_var lower (emit node));;
          mret tt
      end
  end.

Fixpoint load_entries (l : list (str * Node)) : M State unit :=
  match l with
  | [] => mret tt
  | (key, node) :: l => load_entry key node;; load_entries l
  end.

Definition LoadFromYaml (fuel : nat) (root : Node) : M State unit :=
  list ← lift (YamlToList fuel [] root []);
  load_entries list.

End Config.
End Config.
