(* ===== verification/ConfigProps.v ===== *)
(** * Properties of the configuration variables

    Assignments and their listeners; the types and names of the registry over
    every run of a program; what loading a document does. *)

From S2P Require Import Prelude CStr LexicalCast YamlText Config.
Import CStr LexicalCast Config.

Module ConfigProps.

(** An operation that ends, normally or with an exception. *)
Definition settled {A} (o : outcome A) : Prop :=
  match o with Ok _ | Throw _ => True | Undef _ | NoFuel => False end.

(** ** Listeners *)

Section Variable_.
Context {W T : Type} `{LexicalCast T str, LexicalCast str T, Equal T}.
Implicit Types (v : ConfigVar W T) (l : list (Z * changeCallback W T)) (w : W).

Definition with_value v (val : T) : ConfigVar W T :=
  mkConfigVar (name_ v) (description_ v) val (callback_func_map_ v).

Lemma SetValue_unfold val v w : SetValue val (v, w) =
  if equal val (value_ v) then (Ok tt, (v, w))
  else match call_all (callback_func_map_ v) (value_ v) val (v, w) with
       | (Ok _, s) => put_value val s
       | (Throw e, s) => (Throw e, s)
       | (Undef why, s) => (Undef why, s)
       | (NoFuel, s) => (NoFuel, s)
       end.
Proof. unfold SetValue, this. unfold mbind, M_bind. cbn [fst]. by destruct (equal _ _). Qed.

(** The listeners of [l] returned, one after the other. *)
Inductive notified (old_val new_val : T) : list (Z * changeCallback W T) → W → W → Prop :=
| notified_nil w : notified old_val new_val [] w w
| notified_cons k f l w w1 w2 : f old_val new_val w = (Ok tt, w1) →
    notified old_val new_val l w1 w2 → notified old_val new_val ((k, Some f) :: l) w w2.

(** A call that does not return: the function is empty or fails. *)
Definition fails (f : changeCallback W T) (old_val new_val : T) (w : W) (o : outcome unit) (w' : W) : Prop :=
  match f with
  | None => o = Throw bad_function_call ∧ w' = w
  | Some f => f old_val new_val w = (o, w') ∧ o ≠ Ok tt
  end.

Lemma call_all_cases l old_val new_val v : ∀ w,
  (∃ w', notified old_val new_val l w w' ∧ call_all l old_val new_val (v, w) = (Ok tt, (v, w'))) ∨
  (∃ l1 k f l2 w1 o w', l = l1 ++ (k, f) :: l2 ∧ notified old_val new_val l1 w w1 ∧
     fails f old_val new_val w1 o w' ∧ o ≠ Ok tt ∧ call_all l old_val new_val (v, w) = (o, (v, w'))).
Proof.
  induction l as [|[k [f|]] l IH]; intros w; cbn [call_all snd].
  - left. exists w. split; [constructor|done].
  - destruct (f old_val new_val w) as [o w1] eqn:E.
    assert (call (Some f) old_val new_val (v, w) = (o, (v, w1))) as Ec by (cbn; by rewrite E).
    destruct o as [[]| | |].
    + rewrite (bind_ok _ _ _ _ _ Ec).
      destruct (IH w1) as [(w' & Hn & Hc)|(l1 & k' & f' & l2 & w2 & o & w' & -> & Hn & Hf & Ho & Hc)].
      * left. exists w'. split; [by econstructor|done].
      * right. exists ((k, Some f) :: l1), k', f', l2, w2, o, w'. split; [done|]. split; [by econstructor|]. done.
    + right. exists [], k, (Some f), l, w. rewrite (bind_throw _ _ _ _ _ Ec).
      eexists _, w1. split; [done|]. split; [constructor|]. split; [by split|done].
    + right. exists [], k, (Some f), l, w. rewrite (bind_undef _ _ _ _ _ Ec).
      eexists _, w1. split; [done|]. split; [constructor|]. split; [by split|done].
    + right. exists [], k, (Some f), l, w. rewrite (bind_nofuel _ _ _ _ Ec).
      eexists _, w1. split; [done|]. split; [constructor|]. split; [by split|done].
  - right. exists [], k, None, l, w, (Throw bad_function_call), w. split; [done|]. split; [constructor|]. done.
Qed.

Lemma FromString_unfold s v w : FromString s (v, w) =
  match lexical_cast s with
  | Ok x => match SetValue x (v, w) with
            | (Ok _, s') => (Ok true, s')
            | (Throw _, s') => (Throw (invalid_argument (string_of_list_ascii s)), s')
            | (Undef why, s') => (Undef why, s')
            | (NoFuel, s') => (NoFuel, s')
            end
  | Throw _ => (Throw (invalid_argument (string_of_list_ascii s)), (v, w))
  | Undef why => (Undef why, (v, w))
  | NoFuel => (NoFuel, (v, w))
  end.
Proof.
  unfold FromString, catch, lift. unfold mbind, M_bind. destruct (lexical_cast s) as [x| | |]; [|done..].
  by destruct (SetValue x (v, w)) as [[] ?].
Qed.

(** No method changes the name or the description. *)
Definition same_id v v' : Prop := name_ v' = name_ v ∧ description_ v' = description_ v.

Lemma SetValue_id val v w o v' w' : SetValue val (v, w) = (o, (v', w')) → same_id v v'.
Proof.
  rewrite SetValue_unfold. destruct (equal _ _); [by intros [= _ <- _]|].
  destruct (call_all_cases (callback_func_map_ v) (value_ v) val v w)
    as [(w1 & _ & ->)|(l1 & k & f & l2 & w1 & o1 & w2 & _ & _ & _ & Ho & ->)].
  - by intros [= <- <- <-].
  - destruct o1 as [[]| | |]; [done|by intros [= <- <- <-]..].
Qed.

Lemma FromString_id s v w o v' w' : FromString s (v, w) = (o, (v', w')) → same_id v v'.
Proof.
  rewrite FromString_unfold. destruct (lexical_cast s) as [x| | |]; [|by intros [= <- <- <-]..].
  destruct (SetValue x (v, w)) as [o1 [v1 w1]] eqn:E. apply SetValue_id in E.
  by destruct o1; intros [= <- <- <-].
Qed.
End Variable_.

(** An assignment notifies before it takes effect: the new value equal to
    the old one, nothing happens; otherwise the listeners are called in the order
    of their keys with the old and the new value, and the value is stored only
    after all have returned.  If one fails, the later ones are not called, the
    value stays, and [FromString] reports [invalid_argument] with the text. *)
Theorem assignment_notifies {W T} `{LexicalCast T str, LexicalCast str T, Equal T}
    (v : ConfigVar W T) (w : W) (val : T) :
  if equal val (value_ v) then SetValue val (v, w) = (Ok tt, (v, w))
  else
    (∃ w', notified (value_ v) val (callback_func_map_ v) w w' ∧
       SetValue val (v, w) = (Ok tt, (with_value v val, w'))) ∨
    (∃ l1 k f l2 w1 o w', callback_func_map_ v = l1 ++ (k, f) :: l2 ∧
       notified (value_ v) val l1 w w1 ∧ fails f (value_ v) val w1 o w' ∧
       SetValue val (v, w) = (o, (v, w')) ∧
       ∀ s e, lexical_cast s = Ok val → o = Throw e →
         FromString s (v, w) = (Throw (invalid_argument (string_of_list_ascii s)), (v, w'))).
Proof.
  pose proof (SetValue_unfold val v w) as E. destruct (equal val (value_ v)); [done|].
  destruct (call_all_cases (callback_func_map_ v) (value_ v) val v w)
    as [(w' & Hn & Hc)|(l1 & k & f & l2 & w1 & o & w' & Hl & Hn & Hf & Ho & Hc)]; rewrite Hc in E.
  - left. exists w'. by split.
  - right. exists l1, k, f, l2, w1, o, w'. repeat (split; [done|]).
    assert (SetValue val (v, w) = (o, (v, w'))) as Es by (rewrite E; destruct o as [[]| | |]; done).
    split; [done|]. intros s e Hs ->. by rewrite FromString_unfold, Hs, Es.
Qed.

(** ** The registry *)

Lemma tolower_key_chars : Forall (λ c, tolower c = c) key_chars.
Proof. by_decide. Qed.

Lemma only_lower key : only key_chars key = true → tolower <$> key = key.
Proof.
  unfold only. intros H. apply Is_true_true, forallb_True in H. induction H as [|c key Hc _ IH]; [done|].
  cbn. rewrite IH. f_equal. apply bool_decide_unpack in Hc. pose proof tolower_key_chars as Hk.
  rewrite Forall_forall in Hk. by apply Hk.
Qed.

Section Registry.
Context `{VT : ValueTypes} {W : Type} {Node : Type} `{Y : Yaml Node}.
Implicit Types (st : @State VT W).

(** A public method of [ConfigVar<T>]. *)
Inductive method (T : Type) :=
| OpSetValue (val : T)
| OpFromString (s : str)
| OpToString
| OpAddListener (key : Z) (func : changeCallback W T)
| OpDelListener (key : Z)
| OpGetListener (key : Z)
| OpClearListener.
#[global] Arguments OpSetValue {T}.
#[global] Arguments OpFromString {T}.
#[global] Arguments OpToString {T}.
#[global] Arguments OpAddListener {T}.
#[global] Arguments OpDelListener {T}.
#[global] Arguments OpGetListener {T}.
#[global] Arguments OpClearListener {T}.

Definition run_method {T} `{LexicalCast T str, LexicalCast str T, Equal T} (m : method T) : M_var W T unit :=
  match m with
  | OpSetValue val => SetValue val
  | OpFromString s => FromString s;; mret tt
  | OpToString => ToString;; mret tt
  | OpAddListener key func => AddListener key func
  | OpDelListener key => DelListener key
  | OpGetListener key => GetListener key;; mret tt
  | OpClearListener => ClearListener
  end.

#[local] Abbreviation state := (@State VT W).

(** One call of the program, which ends. *)
Inductive step : state → state → Prop :=
| step_add t name val description o (st st' : state) :
    Lookup_or_add t name val description st = (o, st') → settled o → step st st'
| step_load fuel (root : Node) o (st st' : state) :
    LoadFromYaml fuel root st = (o, st') → settled o → step st st'
| step_method (p : nat) (t : Ty) (v v' : ConfigVar W (denote t)) (m : method (denote t)) o (w' : W) (st : state) :
    vars st !! p = Some (upcast t v) → run_method (T := denote t) m (v, world st) = (o, (v', w')) → settled o →
    step st (mkState (<[p := upcast t v']> (vars st)) (conf_vars st) w').

Record registry_ok st : Prop := {
  ro_sorted : sorted (conf_vars st);
  ro_named : ∀ key e, dget key (conf_vars st) = Some e →
    ∃ p b, e = Some p ∧ vars st !! p = Some b ∧ GetName b = key ∧ only key_chars key = true }.

(** Variables are not removed, renamed or retyped, and names keep their variable. *)
Record extends st st' : Prop := {
  ex_vars : ∀ p b, vars st !! p = Some b → ∃ b', vars st' !! p = Some b' ∧
    var_type b' = var_type b ∧ GetName b' = GetName b ∧ GetDescription b' = GetDescription b;
  ex_names : ∀ key e, dget key (conf_vars st) = Some e → dget key (conf_vars st') = Some e }.

Lemma extends_refl st : extends st st.
Proof. split; [|done]. intros p b Hp. exists b. split; [exact Hp|]. split; [reflexivity|]. split; reflexivity. Qed.

Lemma extends_trans s1 s2 s3 : extends s1 s2 → extends s2 s3 → extends s1 s3.
Proof.
  intros [V1 N1] [V2 N2]. split; [|intros key e He; apply N2, N1, He]. intros p b Hp.
  destruct (V1 p b Hp) as (b1 & H1 & T1 & A1 & D1). destruct (V2 p b1 H1) as (b2 & H2 & T2 & A2 & D2).
  exists b2. split; [exact H2|]. split; [|split]; etrans; eassumption.
Qed.

(** What preserves the invariant and extends the state. *)
Definition safe st st' : Prop := registry_ok st → registry_ok st' ∧ extends st st'.

Lemma safe_refl st : safe st st.
Proof. intros H. split; [exact H|apply extends_refl]. Qed.

Lemma safe_trans st1 st2 st3 : safe st1 st2 → safe st2 st3 → safe st1 st3.
Proof. intros H1 H2 H. destruct (H1 H) as [Ha Hb]. destruct (H2 Ha) as [Hc Hd]. split; [exact Hc|by eapply extends_trans]. Qed.

(** A variable is replaced by one of the same type and name. *)
Lemma replace_safe st p t (v v' : ConfigVar W (denote t)) w :
  vars st !! p = Some (upcast t v) → same_id v v' →
  safe st (mkState (<[p := upcast t v']> (vars st)) (conf_vars st) w).
Proof.
  intros Hp [Hn Hd] [Hs Hk].
  assert (∀ q b, vars st !! q = Some b → ∃ b', <[p := upcast t v']> (vars st) !! q = Some b' ∧
    var_type b' = var_type b ∧ GetName b' = GetName b ∧ GetDescription b' = GetDescription b) as Hx.
  { intros q b Hq. destruct (decide (p = q)) as [<-|Hne].
    - rewrite Hp in Hq. injection Hq as <-. exists (upcast t v'). split; [|by split].
      apply list_lookup_insert_eq. by eapply lookup_lt_Some.
    - exists b. split; [by rewrite list_lookup_insert_ne|done]. }
  split; [|by split]. split; [done|]. cbn. intros key e He. destruct (Hk key e He) as (q & b & -> & Hq & Hb & Hc).
  destruct (Hx q b Hq) as (b' & Hq' & _ & Hb' & _). exists q, b'. repeat (split; [done|]). split; [congruence|done].
Qed.

Lemma run_method_id t (m : method (denote t)) v w o v' w' :
  run_method (T := denote t) m (v, w) = (o, (v', w')) → same_id v v'.
Proof.
  destruct m as [val|s| |key f|key|key|]; cbn [run_method].
  - apply SetValue_id.
  - destruct (FromString s (v, w)) as [o1 [v1 w1]] eqn:E. pose proof (FromString_id _ _ _ _ _ _ E) as Hi.
    unfold mbind, M_bind. rewrite E. by destruct o1; intros [= _ <- _].
  - unfold ToString, catch, this, lift, mbind, M_bind. cbn. by destruct (lexical_cast (value_ v)); intros [= _ <- _].
  - by intros [= _ <- _].
  - by intros [= _ <- _].
  - unfold GetListener, modify_callbacks, this, mbind, M_bind. cbn.
    unfold mret, M_ret, undef. by destruct (dget _ _); cbn; intros [= _ <- _].
  - by intros [= _ <- _].
Qed.

Lemma on_var_safe {A} p (f : ∀ t, M_var W (denote t) A) st o st' :
  (∀ t v w o v' w', f t (v, w) = (o, (v', w')) → same_id v v') →
  on_var p f st = (o, st') → safe st st'.
Proof.
  intros Hf. unfold on_var. destruct (vars st !! p) as [[t v]|] eqn:Hp; [|intros [= _ <-]; apply safe_refl].
  cbn [upcast var_type projT1 projT2].
  destruct (f t (v, world st)) as [o1 [v1 w1]] eqn:E. intros [= _ <-].
  apply (replace_safe st p t v v1 w1 Hp). by eapply Hf.
Qed.

Lemma add_var_safe t key val description st o st' :
  dget key (conf_vars st) = None → only key_chars key = true →
  add_var t key val description st = (o, st') → safe st st'.
Proof.
  intros Hn Hc. unfold add_var. destruct (ToString _) as [[s| | |] ?]; [|by intros [= _ <-]; apply safe_refl..].
  intros [= _ <-] [Hs Hk]. split.
  - split; cbn; [by apply dset_sorted|]. intros k e. destruct (decide (k = key)) as [->|Hne].
    + rewrite dget_dset. intros [= <-]. eexists _, _. split; [done|]. split; [by apply list_lookup_middle|]. done.
    + rewrite dget_dset_ne by done. intros He. destruct (Hk k e He) as (q & b & -> & Hp & Hb).
      exists q, b. split; [done|]. split; [by apply lookup_app_l_Some|done].
  - split; cbn.
    + intros q b Hp. exists b. split; [by apply lookup_app_l_Some|done].
    + intros k e He. destruct (decide (k = key)) as [->|Hne]; [congruence|]. by rewrite dget_dset_ne.
Qed.

Lemma dynamic_cast_state t e st : (dynamic_cast t e st).2 = st.
Proof.
  destruct e as [p|]; [|done]. unfold dynamic_cast. mgo. by destruct (vars st !! p).
Qed.

Lemma Lookup_or_add_safe t name val description st o st' :
  Lookup_or_add t name val description st = (o, st') → safe st st'.
Proof.
  unfold Lookup_or_add. mgo. destruct (dget _ _) as [e|] eqn:E.
  - intros H. pose proof (dynamic_cast_state t e st) as Hs. rewrite H in Hs. cbn in Hs. subst. apply safe_refl.
  - destruct (only _ _) eqn:Ec; cbn [negb].
    + by apply add_var_safe.
    + intros [= _ <-]. apply safe_refl.
Qed.

(** *** One entry of a document *)

(** The variable an entry names, and the text it gives it. *)
Definition variable_of (names : dict str (option nat)) (key : str) : option nat :=
  match key with [] => None | _ => mjoin (dget (tolower <$> key) names) end.
Definition text (node : Node) : str := if IsScalar node then Scalar node else emit node.

(** A scalar that names a variable with a capital letter. *)
Definition capital (names : dict str (option nat)) (e : str * Node) : Prop :=
  is_Some (variable_of names e.1) ∧ IsScalar e.2 = true ∧ tolower <$> e.1 ≠ e.1.

Lemma set_var_found key s p st : dget key (conf_vars st) = Some (Some p) →
  set_var key s st = on_var p (λ t, FromString (T := denote t) s) st.
Proof.
  intros Hk. unfold set_var. mgo. unfold dinsert. rewrite Hk. cbn [conf_vars]. rewrite Hk. by destruct st.
Qed.

Lemma load_entry_skip key node st : registry_ok st → variable_of (conf_vars st) key = None →
  load_entry key node st = (Ok tt, st).
Proof.
  intros [_ Hk] Hn. unfold load_entry. unfold variable_of in Hn. destruct key as [|c key]; [done|]. mgo.
  destruct (dget _ _) as [e|] eqn:E; [|done]. destruct (Hk _ _ E) as (p & _ & -> & _). done.
Qed.

Lemma load_entry_crash key node st : registry_ok st → capital (conf_vars st) (key, node) →
  ∃ st', load_entry key node st = (Undef "null pointer", st').
Proof.
  intros [_ Hk] ([p Hp] & Hs & Hl). cbn in *. unfold load_entry. unfold variable_of in Hp.
  destruct key as [|c key]; [done|]. mgo. destruct (dget _ (conf_vars st)) as [e|] eqn:E; [|done]. rewrite Hs.
  assert (dget (c :: key) (conf_vars st) = None) as Hc.
  { destruct (dget (c :: key) _) as [e'|] eqn:E'; [|done]. exfalso. apply Hl.
    destruct (Hk _ _ E') as (q & b & _ & _ & _ & Ho). by apply only_lower. }
  unfold set_var. rewrite bind_assoc. mgo. rewrite bind_assoc. mgo. cbn [conf_vars].
  unfold dinsert. rewrite Hc, dget_dset. unfold mbind, M_bind, undef. by eexists.
Qed.

Lemma load_entry_sets key node st p : registry_ok st → ¬ capital (conf_vars st) (key, node) →
  variable_of (conf_vars st) key = Some p →
  load_entry key node st = (on_var p (λ t, FromString (T := denote t) (text node));; mret tt) st.
Proof.
  intros _ Hc Hv. unfold load_entry. pose proof Hv as Hp. unfold variable_of in Hp.
  destruct key as [|c key]; [done|]. mgo. destruct (dget _ (conf_vars st)) as [e|] eqn:E; [|done].
  cbn in Hp. subst e. unfold text. destruct (IsScalar node) eqn:Es; unfold mbind, M_bind.
  - rewrite (set_var_found (c :: key) _ p); [done|].
    destruct (decide (tolower <$> c :: key = c :: key)) as [El|El]; [by rewrite <- El|].
    exfalso. apply Hc. by split; [eexists|].
  - by rewrite (set_var_found _ _ p).
Qed.

(** The conversion of the text and the assignment, at a variable. *)
Lemma on_var_run {A} p t (v v' : ConfigVar W (denote t)) w' (f : ∀ t, M_var W (denote t) A) o st :
  vars st !! p = Some (upcast t v) → f t (v, world st) = (o, (v', w')) →
  on_var p f st = (o, mkState (<[p := upcast t v']> (vars st)) (conf_vars st) w').
Proof. intros Hp Hf. unfold on_var. rewrite Hp. cbn [upcast var_type projT1 projT2]. by rewrite Hf. Qed.

Lemma variable_found st key p : registry_ok st → variable_of (conf_vars st) key = Some p →
  ∃ t v, vars st !! p = Some (upcast t v).
Proof.
  intros [_ Hk] Hv. unfold variable_of in Hv. destruct key as [|c key]; [done|].
  destruct (dget _ (conf_vars st)) as [e|] eqn:E; [|done]. destruct (Hk _ _ E) as (q & [t v] & -> & Hq & _).
  cbn in Hv. injection Hv as ->. by exists t, v.
Qed.

Lemma load_entry_names key node st o st' : registry_ok st → load_entry key node st = (o, st') → settled o →
  conf_vars st' = conf_vars st ∧ safe st st'.
Proof.
  intros Hok He Hs. destruct (variable_of (conf_vars st) key) as [p|] eqn:Hv.
  - destruct (decide (IsScalar node = true ∧ tolower <$> key ≠ key)) as [[H1 H2]|Hn].
    + destruct (load_entry_crash key node st) as [st1 E]; [done|by split; [eexists|]|]. rewrite He in E.
      by injection E as -> _.
    + rewrite (load_entry_sets key node st p) in He; [|done|intros (_ & ? & ?); by apply Hn|done].
      destruct (variable_found st key p Hok Hv) as (t & v & Hp).
      destruct (FromString (text node) (v, world st)) as [o1 [v1 w1]] eqn:E.
      unfold mbind, M_bind in He. rewrite (on_var_run p t v v1 w1 _ o1 st Hp E) in He.
      assert (st' = mkState (<[p := upcast t v1]> (vars st)) (conf_vars st) w1) as -> by (by destruct o1; injection He).
      split; [done|]. apply (replace_safe st p t v v1 w1 Hp). by eapply FromString_id.
  - rewrite load_entry_skip in He by done. injection He as <- <-. split; [done|apply safe_refl].
Qed.

Lemma load_entries_names l : ∀ st o st', registry_ok st → load_entries l st = (o, st') → settled o →
  conf_vars st' = conf_vars st ∧ safe st st'.
Proof.
  induction l as [|[key node] l IH]; intros st o st' Hok; cbn [load_entries].
  - intros [= <- <-] _. split; [done|apply safe_refl].
  - unfold mbind, M_bind. destruct (load_entry key node st) as [o1 st1] eqn:E.
    destruct o1 as [[]|e| |]; intros H Hs.
    + destruct (load_entry_names _ _ _ _ _ Hok E I) as [Hn Hf]. destruct (Hf Hok) as [Hok1 _].
      destruct (IH st1 o st' Hok1 H Hs) as [Hn' Hf']. split; [congruence|by eapply safe_trans].
    + injection H as <- <-. by apply (load_entry_names _ _ _ _ _ Hok E I).
    + by injection H as <- <-.
    + by injection H as <- <-.
Qed.

Lemma LoadFromYaml_unfold fuel root l st :
  YamlToList fuel [] root [] = Ok l → LoadFromYaml fuel root st = load_entries l st.
Proof. intros H. unfold LoadFromYaml. by rewrite H. Qed.

(** *** Reachable states *)

Lemma step_safe st st' : step st st' → safe st st'.
Proof.
  destruct 1 as [t name val description o st st' E _|fuel root o st st' E Hs|p t v v' m o w' st Hp E _].
  - by eapply Lookup_or_add_safe.
  - intros Hok. destruct (YamlToList fuel [] root []) as [l|e| |] eqn:El.
    + rewrite (LoadFromYaml_unfold _ _ _ _ El) in E.
      by apply (load_entries_names l st o st' Hok E Hs).
    + unfold LoadFromYaml in E. rewrite El in E. injection E as _ <-. by apply safe_refl.
    + unfold LoadFromYaml in E. rewrite El in E. by injection E as <- _.
    + unfold LoadFromYaml in E. rewrite El in E. by injection E as <- _.
  - apply (replace_safe st p t v v' w' Hp). by eapply run_method_id.
Qed.

Definition reachable w st : Prop := rtc step (State_new w) st.

Lemma steps_safe st st' : rtc step st st' → safe st st'.
Proof. induction 1 as [st|st1 st2 st3 H _ IH]; [apply safe_refl|]. eapply safe_trans; [by apply step_safe|done]. Qed.

Lemma reachable_ok w st : reachable w st → registry_ok st.
Proof. intros H. apply (steps_safe _ _ H). by split. Qed.

Lemma Lookup_run t name st : registry_ok st → Lookup t name st =
  (Ok (p ← mjoin (dget (tolower <$> name) (conf_vars st));
       b ← vars st !! p;
       if decide (var_type b = t) then Some p else None), st).
Proof.
  intros [_ Hk]. unfold Lookup. mgo. destruct (dget _ _) as [e|] eqn:E; [|done].
  destruct (Hk _ _ E) as (p & b & -> & Hp & _). unfold dynamic_cast. mgo. cbn. rewrite Hp. cbn. by destruct (decide _).
Qed.

(** What a key leads to, as an object. *)
Lemma found_object st key e : registry_ok st → dget key (conf_vars st) = Some e →
  ∃ p t (v : ConfigVar W (denote t)), e = Some p ∧ vars st !! p = Some (upcast t v) ∧ name_ v = key.
Proof. intros [_ Hk] He. destruct (Hk _ _ He) as (p & [t v] & -> & Hp & Hn & _). by exists p, t, v. Qed.

Lemma upcast_type t t' (v : ConfigVar W (denote t)) v' : Some (upcast t v) = Some (upcast t' v') → t = t'.
Proof. intros H. apply (f_equal (fmap var_type)) in H. cbn in H. congruence. Qed.

Lemma Lookup_some t name st p : registry_ok st → (Lookup t name st).1 = Ok (Some p) ↔
  ∃ v : ConfigVar W (denote t), dget (tolower <$> name) (conf_vars st) = Some (Some p) ∧
    vars st !! p = Some (upcast t v) ∧ name_ v = tolower <$> name.
Proof.
  intros Hok. rewrite (Lookup_run t name st Hok). cbn [fst].
  destruct (dget (tolower <$> name) (conf_vars st)) as [e|] eqn:E; [|split; [done|by intros (v & ? & _)]].
  destruct (found_object st _ e Hok E) as (q & t' & v & -> & Hq & Hn). cbn. rewrite Hq. cbn.
  destruct (decide (t' = t)) as [->|Hne].
  - split; [intros [= <-]; by exists v|by intros (v' & [= ->] & _)].
  - split; [done|]. intros (v' & [= <-] & Hp & _). rewrite Hq in Hp. by apply upcast_type in Hp.
Qed.

(** *** What loading does to a variable *)

(** The texts of a document for variable [p], in order. *)
Definition texts (names : dict str (option nat)) (p : nat) (l : list (str * Node)) : list str :=
  (λ e, text e.2) <$> filter (λ e, variable_of names e.1 = Some p) l.

Definition equal_sound : Prop := ∀ t (a b : denote t), equal a b = true → a = b.

Lemma SetValue_ok T `{Equal T} (val : T) (v : ConfigVar W T) w v' w' :
  (∀ a b : T, equal a b = true → a = b) →
  SetValue val (v, w) = (Ok tt, (v', w')) → value_ v' = val.
Proof.
  intros Heq. rewrite SetValue_unfold. destruct (equal _ _) eqn:E.
  - intros [= <- _]. symmetry. by apply Heq.
  - destruct (call_all_cases (callback_func_map_ v) (value_ v) val v w)
      as [(w1 & _ & ->)|(l1 & k & f & l2 & w1 & o1 & w2 & _ & _ & _ & Ho & ->)]; [by intros [= <- _]|].
    destruct o1 as [[]| | |]; [done..].
Qed.

Lemma FromString_ok t s (v : ConfigVar W (denote t)) w b v' w' : equal_sound →
  FromString (T := denote t) s (v, w) = (Ok b, (v', w')) → lexical_cast s = Ok (value_ v').
Proof.
  intros Heq. rewrite FromString_unfold. destruct (lexical_cast s) as [x| | |]; [|done..].
  destruct (SetValue x (v, w)) as [o [v1 w1]] eqn:E. destruct o as [[]| | |]; [|done..].
  intros [= _ <- _]. by rewrite (SetValue_ok _ _ _ _ _ _ (Heq t) E).
Qed.

Lemma load_entry_value key node st st' p t (v : ConfigVar W (denote t)) : equal_sound → registry_ok st →
  load_entry key node st = (Ok tt, st') → vars st !! p = Some (upcast t v) →
  ∃ v', vars st' !! p = Some (upcast t v') ∧
    if decide (variable_of (conf_vars st) key = Some p) then lexical_cast (text node) = Ok (value_ v')
    else value_ v' = value_ v.
Proof.
  intros Heq Hok He Hp. destruct (variable_of (conf_vars st) key) as [q|] eqn:Hv.
  - destruct (decide (IsScalar node = true ∧ tolower <$> key ≠ key)) as [[H1 H2]|Hn].
    { destruct (load_entry_crash key node st) as [st1 E]; [done|by split; [eexists|]|]. by rewrite He in E. }
    rewrite (load_entry_sets key node st q) in He; [|done|intros (_ & ? & ?); by apply Hn|done].
    destruct (variable_found st key q Hok Hv) as (t' & u & Hq).
    destruct (FromString (text node) (u, world st)) as [o1 [v1 w1]] eqn:E.
    unfold mbind, M_bind in He. rewrite (on_var_run q t' u v1 w1 _ o1 st Hq E) in He.
    destruct o1 as [b| | |]; [|done..]. injection He as <-. cbn [vars].
    destruct (decide (q = p)) as [->|Hne].
    + rewrite list_lookup_insert_eq by by eapply lookup_lt_Some. rewrite Hp in Hq. apply upcast_type in Hq as <-.
      exists v1. rewrite decide_True by done. split; [done|]. by eapply FromString_ok.
    + exists v. rewrite decide_False by congruence. split; [by rewrite list_lookup_insert_ne|done].
  - rewrite load_entry_skip in He by done. injection He as <-. exists v. by rewrite decide_False.
Qed.

Lemma load_entries_values l : ∀ st st' p t (v : ConfigVar W (denote t)), equal_sound → registry_ok st →
  load_entries l st = (Ok tt, st') → vars st !! p = Some (upcast t v) →
  ∃ v', vars st' !! p = Some (upcast t v') ∧
    match last (texts (conf_vars st) p l) with
    | Some s => lexical_cast s = Ok (value_ v')
    | None => value_ v' = value_ v
    end.
Proof.
  induction l as [|[key node] l IH]; intros st st' p t v Heq Hok; cbn [load_entries].
  - intros [= <-] Hp. by exists v.
  - unfold mbind, M_bind. destruct (load_entry key node st) as [o st1] eqn:E. destruct o as [[]| | |]; [|done..].
    intros He Hp. destruct (load_entry_names _ _ _ _ _ Hok E I) as [Hn Hs]. destruct (Hs Hok) as [Hok1 _].
    destruct (load_entry_value _ _ _ _ p t v Heq Hok E Hp) as (v1 & Hp1 & Hv1).
    destruct (IH st1 st' p t v1 Heq Hok1 He Hp1) as (v' & Hp' & Hv'). exists v'. split; [done|].
    rewrite Hn in Hv'. unfold texts in *. rewrite filter_cons. cbn [fst].
    destruct (decide (variable_of (conf_vars st) key = Some p)) as [Hk|Hk]; [|by destruct (last _); [|congruence]].
    cbn [fmap list_fmap snd]. rewrite last_cons. destruct (last _); [done|]. by rewrite Hv'.
Qed.

(** *** Documents as dotted paths *)

Definition dotted (prefix key : str) : str :=
  match prefix with [] => key | _ => prefix ++ lit "." ++ key end.

(** A path through the maps of a document; an unsuitable prefix ends it. *)
Inductive leads : str → Node → str → Node → Prop :=
| leads_here prefix node : only prefix_chars prefix = true → leads prefix node prefix node
| leads_field prefix node k v path target :
    only prefix_chars prefix = true → IsMap node = true → (k, v) ∈ entries node →
    leads (dotted prefix (Scalar k)) v path target → leads prefix node path target.

(** The depth of a document. *)
Fixpoint bounded (n : nat) (node : Node) : Prop :=
  match n with
  | O => False
  | S n => IsMap node = true → Forall (λ e, bounded n e.2) (entries node)
  end.

Lemma YamlToList_run fuel : ∀ prefix node acc, bounded fuel node →
  ∃ l, YamlToList fuel prefix node acc = Ok (acc ++ l) ∧
    ∀ path target, (path, target) ∈ l ↔ leads prefix node path target.
Proof.
  induction fuel as [|fuel IH]; intros prefix node acc Hb; [done|]. cbn [YamlToList bounded] in *.
  destruct (only prefix_chars prefix) eqn:Ep; cbn [negb].
  2: { exists []. rewrite app_nil_r. split; [done|]. intros path target. split; [by intros ?%elem_of_nil|].
       inversion 1; congruence. }
  destruct (IsMap node) eqn:Em.
  2: { exists [(prefix, node)]. split; [done|]. intros path target. rewrite list_elem_of_singleton. split.
       - intros [= -> ->]. by constructor.
       - inversion 1; congruence. }
  assert (∀ es acc, Forall (λ e, bounded fuel e.2) es →
    ∃ l, foldl (λ acc '(k, v), list ← acc; YamlToList fuel (dotted prefix (Scalar k)) v list) (Ok acc) es = Ok (acc ++ l) ∧
      ∀ path target, (path, target) ∈ l ↔ ∃ k v, (k, v) ∈ es ∧ leads (dotted prefix (Scalar k)) v path target) as Hes.
  { clear acc Hb. induction es as [|[k v] es IHes]; intros acc Hes; cbn [foldl].
    - exists []. rewrite app_nil_r. split; [done|]. set_solver.
    - apply Forall_cons in Hes as [Hv Hes]. cbn [mbind outcome_bind].
      destruct (IH (dotted prefix (Scalar k)) v acc Hv) as (l1 & -> & H1).
      destruct (IHes (acc ++ l1) Hes) as (l2 & -> & H2). exists (l1 ++ l2). split; [by rewrite app_assoc|].
      intros path target. rewrite elem_of_app, H1, H2. set_solver. }
  destruct (Hes (entries node) (acc ++ [(prefix, node)]) (Hb eq_refl)) as (l & Hl & Hin). exists ((prefix, node) :: l).
  split; [rewrite <- app_assoc in Hl; exact Hl|]. intros path target. rewrite elem_of_cons, Hin. split.
  - intros [[= -> ->]|(k & v & Hkv & Hlead)]; [by constructor|by eapply leads_field].
  - inversion 1; subst; [by left|]. right. by eexists _, _.
Qed.

(** *** When loading ends *)

(** The listeners of the program return or throw. *)
Definition calm (v : @ConfigVarBase VT W) : Prop := ∀ e f a b w,
  e ∈ callback_func_map_ (projT2 v) → e.2 = Some f → settled (f a b w : outcome unit * W).1.
Definition calm_state st : Prop := Forall calm (vars st).
Definition casts_settle : Prop := ∀ t s, settled (lexical_cast s : outcome (denote t)).

Lemma FromString_calm t s (v : ConfigVar W (denote t)) w : casts_settle → calm (upcast t v) →
  ∃ o v' w', FromString (T := denote t) s (v, w) = (o, (v', w')) ∧ settled o ∧
    callback_func_map_ v' = callback_func_map_ v.
Proof.
  intros Hc Hv. rewrite FromString_unfold. specialize (Hc t s). destruct (lexical_cast s) as [x|e| |]; [|by eexists _, _, _|done..].
  rewrite SetValue_unfold. destruct (equal _ _); [by eexists _, _, _|].
  destruct (call_all_cases (callback_func_map_ v) (value_ v) x v w)
    as [(w1 & _ & ->)|(l1 & k & f & l2 & w1 & o & w2 & Hl & _ & Hf & Ho & ->)]; [by eexists _, _, _|].
  assert (settled o) as Hs.
  { destruct f as [f|]; [|by destruct Hf as [-> _]]. destruct Hf as [Hf _].
    specialize (Hv (k, Some f) f (value_ v) x w1). rewrite Hf in Hv. apply Hv; [|done]. cbn. rewrite Hl. set_solver. }
  destruct o as [[]|e| |]; [done|by eexists _, _, _|done..].
Qed.

Lemma load_entry_calm key node st : casts_settle → calm_state st → registry_ok st →
  ¬ capital (conf_vars st) (key, node) →
  ∃ o st', load_entry key node st = (o, st') ∧ settled o ∧ calm_state st'.
Proof.
  intros Hc Hcs Hok Hn. destruct (variable_of (conf_vars st) key) as [p|] eqn:Hv.
  - rewrite (load_entry_sets key node st p) by done. destruct (variable_found st key p Hok Hv) as (t & v & Hp).
    assert (calm (upcast t v)) as Hcv by (unfold calm_state in Hcs; rewrite Forall_lookup in Hcs; by eapply Hcs).
    destruct (FromString_calm t (text node) v (world st) Hc Hcv) as (o & v' & w' & E & Ho & Hm).
    unfold mbind, M_bind. rewrite (on_var_run p t v v' w' _ o st Hp E).
    assert (calm (upcast t v')) as Hcv'.
    { unfold calm in *. cbn in *. by rewrite Hm. }
    destruct o as [b|e| |]; [| |done..]; eexists _, _; (split; [done|]); (split; [done|]);
      by apply Forall_insert.
  - rewrite load_entry_skip by done. by eexists _, _.
Qed.

Lemma load_entries_calm l : ∀ st, casts_settle → calm_state st → registry_ok st →
  (¬ ∃ l1 e l2 st1, l = l1 ++ e :: l2 ∧ load_entries l1 st = (Ok tt, st1) ∧ capital (conf_vars st) e) →
  settled (load_entries l st).1.
Proof.
  induction l as [|[key node] l IH]; intros st Hc Hcs Hok Hn; [done|].
  assert (¬ capital (conf_vars st) (key, node)) as Hk by (intros ?; apply Hn; by exists [], (key, node), l, st).
  destruct (load_entry_calm key node st Hc Hcs Hok Hk) as (o & st1 & E & Ho & Hcs1).
  cbn [load_entries]. unfold mbind, M_bind. rewrite E. destruct o as [[]|e| |]; [|done..].
  destruct (load_entry_names _ _ _ _ _ Hok E I) as [Hnm Hsafe]. destruct (Hsafe Hok) as [Hok1 _].
  apply IH; [done..|]. intros (l1 & e & l2 & st2 & -> & E2 & Hcap). apply Hn.
  exists ((key, node) :: l1), e, l2, st2. split; [done|]. rewrite <- Hnm. split; [|done].
  cbn [load_entries]. unfold mbind, M_bind. by rewrite E.
Qed.

Lemma load_entries_crash l1 e l2 st st1 : registry_ok st → load_entries l1 st = (Ok tt, st1) →
  capital (conf_vars st) e → ∃ st2, load_entries (l1 ++ e :: l2) st = (Undef "null pointer", st2).
Proof.
  revert st. induction l1 as [|[key node] l1 IH]; intros st Hok; cbn [app load_entries].
  - intros [= <-] Hcap. destruct e as [key node]. destruct (load_entry_crash key node st Hok Hcap) as [st2 E].
    unfold mbind, M_bind. rewrite E. by eexists.
  - unfold mbind, M_bind. destruct (load_entry key node st) as [o st'] eqn:E. destruct o as [[]| | |]; [|done..].
    intros H1 Hcap. destruct (load_entry_names _ _ _ _ _ Hok E I) as [Hnm Hsafe]. destruct (Hsafe Hok) as [Hok1 _].
    apply IH; [done|done|]. by rewrite Hnm.
Qed.

End Registry.
#[global] Arguments step {VT W Node Y}.
#[global] Arguments reachable {VT W Node Y}.

(** [C17] Types are kept: in every state a program can reach, [Lookup<T>] returns
    the variable of the lower-cased name exactly if its type is [T], and null
    otherwise; over all later calls the name leads to the same variable of the
    same type. *)
Theorem registry_typed `{VT : ValueTypes} {W Node} `{Y : Yaml Node} (w : W) (st : State) :
  reachable (Node := Node) w st →
  (∀ t name, ∃ r, Lookup t name st = (Ok r, st)) ∧
  (∀ t name p, (Lookup t name st).1 = Ok (Some p) ↔
     ∃ v : ConfigVar W (denote t), dget (tolower <$> name) (conf_vars st) = Some (Some p) ∧
       vars st !! p = Some (upcast t v) ∧ name_ v = tolower <$> name) ∧
  (∀ t name p st', (Lookup t name st).1 = Ok (Some p) → rtc (step (Node := Node)) st st' →
     (Lookup t name st').1 = Ok (Some p)).
Proof.
  intros Hr. pose proof (reachable_ok w st Hr) as Hok. split; [|split].
  - intros t name. rewrite (Lookup_run t name st Hok). by eexists.
  - intros t name p. by apply Lookup_some.
  - intros t name p st' Hp Hs. destruct (steps_safe _ _ Hs Hok) as [Hok' [Hv Hn]].
    apply (Lookup_some t name st p Hok) in Hp as (v & Hd & Hp & Hnm). apply (Lookup_some t name st' p Hok').
    destruct (Hv p _ Hp) as ([t' v'] & Hp' & Ht & Hnm' & _). cbn in Ht. subst t'. exists v'. split; [by apply Hn|].
    split; [done|]. by rewrite <- Hnm.
Qed.

(** [Lookup] with a default value: a known name gives its variable, or null
    if the type differs, and the default is not used; a new name is registered
    with it, found from then on, and no other name is affected; a name with any
    other character, the digit 0 included, is refused with [invalid_argument]. *)
Theorem Lookup_or_add_cases `{VT : ValueTypes} {W Node} `{Y : Yaml Node} (w : W) (st : State)
    t name (val : denote t) description :
  reachable (Node := Node) w st → settled (lexical_cast val : outcome str) →
  let key := tolower <$> name in
  match dget key (conf_vars st) with
  | Some e => Lookup_or_add t name val description st = Lookup t name st
  | None =>
      if only key_chars key then
        ∃ p st', Lookup_or_add t name val description st = (Ok (Some p), st') ∧
          vars st' = vars st ++ [upcast t (mkConfigVar key description val [])] ∧ p = length (vars st) ∧
          (Lookup t name st').1 = Ok (Some p) ∧
          ∀ key', key' ≠ key → dget key' (conf_vars st') = dget key' (conf_vars st)
      else ∃ message, Lookup_or_add t name val description st = (Throw (invalid_argument message), st)
  end ∧ ("0"%char ∈ key → only key_chars key = false).
Proof.
  intros Hr Hset key. pose proof (reachable_ok w st Hr) as Hok. split.
  - unfold Lookup_or_add, Lookup. fold key. rewrite !bind_get.
    destruct (dget key (conf_vars st)) as [e|] eqn:E; [done|].
    destruct (only key_chars key); cbn [negb]; [|by eexists]. unfold add_var.
    assert (∃ o1, ToString (mkConfigVar key description val [], world st) = (Ok o1, (mkConfigVar key description val [], world st)))
      as [o1 Ho].
    { unfold ToString, catch, this, lift, mbind, M_bind. cbn.
      destruct (lexical_cast val); [by eexists|by eexists|done..]. }
    rewrite Ho. eexists _, _. split; [done|]. split; [done|]. split; [done|]. split.
    + rewrite bind_get. cbn [conf_vars]. rewrite dget_dset. unfold dynamic_cast. rewrite bind_get. cbn [vars].
      rewrite list_lookup_middle by done. cbn [var_type projT1 upcast]. by rewrite decide_True.
    + intros key' Hne. cbn. by apply dget_dset_ne.
  - intros H0. apply not_true_is_false. intros H. unfold only in H. apply Is_true_true, forallb_True in H.
    rewrite Forall_forall in H. specialize (H _ H0). by vm_compute in H.
Qed.

(** Every document of bounded depth is listed, and the list has exactly the
    pairs of a dotted path and the node it leads to; a part whose prefix has a
    character outside the allowed ones is left out. *)
Theorem YamlToList_paths {Node} `{Y : Yaml Node} fuel (root : Node) : bounded fuel root →
  ∃ l, YamlToList fuel [] root [] = Ok l ∧ ∀ path target, (path, target) ∈ l ↔ leads [] root path target.
Proof. intros Hb. destruct (YamlToList_run fuel [] root [] Hb) as (l & Hl & Hin). by exists l. Qed.

(** [C18] Loading a document: when it returns, the registry has the same names, and
    every variable has the value converted from the last text the document has
    for its name, or its old one if there is none. *)
Theorem LoadFromYaml_sets `{VT : ValueTypes} {W Node} `{Y : Yaml Node} (w : W) (st st' : State) fuel (root : Node) l :
  reachable (Node := Node) w st → equal_sound → YamlToList fuel [] root [] = Ok l →
  LoadFromYaml fuel root st = (Ok tt, st') →
  conf_vars st' = conf_vars st ∧
  ∀ p t (v : ConfigVar W (denote t)), vars st !! p = Some (upcast t v) →
    ∃ v', vars st' !! p = Some (upcast t v') ∧
      match last (texts (conf_vars st) p l) with
      | Some s => lexical_cast s = Ok (value_ v')
      | None => value_ v' = value_ v
      end.
Proof.
  intros Hr Heq Hl He. pose proof (reachable_ok w st Hr) as Hok.
  rewrite (LoadFromYaml_unfold _ _ _ _ Hl) in He. split.
  - by apply (load_entries_names l st (Ok tt) st' Hok He).
  - intros p t v Hp. by eapply load_entries_values.
Qed.

(** [C22] When loading ends: with conversions and listeners that return or throw,
    [LoadFromYaml] does so too unless it comes to a scalar whose path has a
    capital letter and whose lower-cased path names a variable, and then it
    dereferences a null pointer. *)
Theorem load_ends_iff `{VT : ValueTypes} {W Node} `{Y : Yaml Node} (w : W) (st : State) fuel (root : Node) l :
  reachable (Node := Node) w st → casts_settle → calm_state st → YamlToList fuel [] root [] = Ok l →
  let crashes := ∃ l1 e l2 st1, l = l1 ++ e :: l2 ∧ load_entries l1 st = (Ok tt, st1) ∧ capital (conf_vars st) e in
  (¬ crashes → settled (LoadFromYaml fuel root st).1) ∧
  (crashes → (LoadFromYaml fuel root st).1 = Undef "null pointer").
Proof.
  intros Hr Hc Hcs Hl crashes. pose proof (reachable_ok w st Hr) as Hok.
  rewrite (LoadFromYaml_unfold _ _ _ _ Hl). split.
  - by apply load_entries_calm.
  - intros (l1 & e & l2 & st1 & -> & E & Hcap).
    destruct (load_entries_crash l1 e l2 st st1 Hok E Hcap) as [st2 E2]. by rewrite E2.
Qed.

(** ** At concrete inputs *)

(** Two types: text and sequences of texts; listeners append to a log. *)
#[local] Instance cast_string_local : LexicalCast str str := YamlText.cast_string.
#[local] Instance text_types : ValueTypes := {
  Ty := bool;
  denote b := if b then str else vector str;
  denote_equal b := match b with true => λ x y, bool_decide (x = y)
                    | false => λ x y, bool_decide (vector_list x = vector_list y) end;
  denote_to_str b := match b with true => cast_string_local | false => print_vector end;
  denote_from_str b := match b with true => cast_string_local | false => cast_vector end;
  Typename b := if b then lit "std::string" else lit "std::vector" }.

Import YamlText.

(** A registry with the text variable [tcp.port]. *)
Definition one_var : @State text_types (list str) :=
  (Lookup_or_add (true : @Ty text_types) (lit "TCP.port") (lit "80" : denote (true : @Ty text_types)) (lit "port")
     (State_new [])).2.

Lemma one_var_reachable : reachable (Node := tree) [] one_var.
Proof.
  apply rtc_once. eapply (step_add (true : @Ty text_types) _ (lit "80" : denote (true : @Ty text_types)));
    [apply surjective_pairing|by vm_compute].
Qed.

Definition port_doc (key : str) : tree :=
  TMap [(lit "tcp", TMap [(key, TScalar (lit "81"))])].

Lemma registry_typed_witness :
  (Lookup (true : @Ty text_types) (lit "Tcp.Port") one_var).1 = Ok (Some 0).
Proof.
  refine (proj2 (proj2 (registry_typed (Node := tree) [] one_var one_var_reachable)) true (lit "Tcp.Port") 0 one_var
            _ (rtc_refl _ _)).
  by vm_compute.
Defined.

Lemma Lookup_or_add_cases_witness : only key_chars (tolower <$> lit "Port0") = false.
Proof.
  refine (proj2 (Lookup_or_add_cases (Node := tree) [] one_var (true : @Ty text_types) (lit "Port0")
    (lit "8080" : denote (true : @Ty text_types)) [] one_var_reachable I) _).
  by_decide.
Defined.

Lemma YamlToList_paths_witness : ∃ l, YamlToList 3 [] (port_doc (lit "port")) [] = Ok l ∧
  ∀ path target, (path, target) ∈ l ↔ leads [] (port_doc (lit "port")) path target.
Proof. refine (YamlToList_paths 3 (port_doc (lit "port")) _). cbn. by repeat constructor. Defined.

Lemma text_types_sound : @equal_sound text_types.
Proof.
  intros [] a b H; unfold equal in H; cbn in H; apply bool_decide_eq_true in H; [done|].
  destruct a, b. cbn in H. by subst.
Qed.

Definition port_list (key : str) : list (str * tree) :=
  [([], port_doc key); (lit "tcp", TMap [(key, TScalar (lit "81"))]); (lit "tcp." ++ key, TScalar (lit "81"))].

Lemma LoadFromYaml_sets_witness :
  ∃ v', vars (LoadFromYaml 3 (port_doc (lit "port")) one_var).2 !! 0 = Some (upcast (true : @Ty text_types) v') ∧
    Ok (lit "81") = Ok (value_ v') :> outcome str.
Proof.
  assert ((LoadFromYaml 3 (port_doc (lit "port")) one_var).1 = Ok tt) as H by by vm_compute.
  refine (proj2 (LoadFromYaml_sets (Node := tree) [] one_var _ 3 (port_doc (lit "port")) (port_list (lit "port"))
    one_var_reachable text_types_sound eq_refl _) 0 true _ eq_refl).
  by rewrite <- H, <- surjective_pairing.
Defined.

Lemma load_settled s : settled (load s).
Proof. unfold load. destruct s as [|c s]; [done|]. by destruct (read _ _) as [[t [|]]|]. Qed.

Lemma cast_nodes_settled (l : list tree) : ∃ xs, cast_nodes (T := str) l = Ok xs.
Proof.
  induction l as [|x l [xs IH]]; [by exists []|]. cbn [cast_nodes].
  assert (lexical_cast (T := str) (emit x) = Ok (emit x)) as -> by done. cbn [mbind outcome_bind]. rewrite IH. by eexists.
Qed.

Lemma text_types_settle : @casts_settle text_types.
Proof.
  intros [] s; [done|]. unfold lexical_cast. cbn [denote_from_str text_types]. unfold cast_vector.
  pose proof (load_settled s) as Hs. cbn [Load tree_yaml]. destruct (load s) as [n|e| |]; [|done..].
  cbn [mbind outcome_bind]. destruct (cast_nodes_settled (elements n)) as [xs H].
  by rewrite H.
Qed.

Lemma load_ends_iff_witness :
  (LoadFromYaml 3 (port_doc (lit "Port")) one_var).1 = Undef "null pointer".
Proof.
  refine (proj2 (load_ends_iff (Node := tree) [] one_var 3 (port_doc (lit "Port")) (port_list (lit "Port"))
    one_var_reachable _ _ eq_refl) _).
  - exact text_types_settle.
  - repeat constructor. intros e f a b w He. by apply elem_of_nil in He.
  - exists [([], port_doc (lit "Port")); (lit "tcp", TMap [(lit "Port", TScalar (lit "81"))])],
      (lit "tcp.Port", TScalar (lit "81")), [], one_var.
    split; [done|]. split; [done|]. split; [by eexists|]. by vm_compute.
Defined.

End ConfigProps.
