(* ===== verification/LogConf.v ===== *)
(** * The variable [logs]

    [LogConfInit] of [src/config.cc]: the listener that rebuilds the loggers when
    the variable ["logs"] changes.  The file a new appender opens is the subject
    of [LogFile]; the message it logs for each logger is not part of the state. *)

From S2P Require Import Prelude CStr Log LexicalCast Config.
Import CStr LexicalCast Log Config.

Module LogConf.

(** What the listener acts on: the manager, and the appenders by pointer. *)
Record LogWorld := mkLogWorld { manager : LoggerManager; appenders : list Appender }.

#[global] Instance LoggerConf_less : Less LoggerConf := LoggerConf_lt.
#[global] Instance log_set_equal : Equal (std_set LoggerConf) := λ a b,
  bool_decide (set_list a = set_list b).

(** The default argument of [LogFormatter]. *)
Definition default_pattern : str := lit "%d{%Y-%m-%d %H:%M:%S}%T%u%T%t%T%F%T[%p]%T[%c]%T%f:%l%T%m%n".

Definition update_manager (f : LoggerManager → LoggerManager) : M LogWorld unit :=
  modify (λ w, mkLogWorld (f (manager w)) (appenders w)).

Definition update_logger (lg : nat) (f : Logger → Logger) : M LogWorld unit :=
  update_manager (λ m, mkManager (alter f lg (heap m)) (root_ m) (loggers_ m)).

(** The branches on [j.type_]: what is created, if anything. *)
Definition sink_of (j : LogAppenderConf) : option LogAppender :=
  if decide (type_ j = lit "logappendertostd") then Some LogAppenderToStd
  else if decide (type_ j = lit "logappendertofile" ∧ file_ j ≠ []) then Some (LogAppenderToFile (file_ j))
  else None.

(** A new appender with its formatter, added to the logger. *)
Definition add_appender (lg : nat) (j : LogAppenderConf) : M LogWorld unit :=
  match sink_of j with
  | None => mret tt
  | Some sink =>
      fmt ← lift (Init (match conf_formatter_ j with [] => default_pattern | f => f end));
      w ← get;
      modify (λ w, mkLogWorld (manager w) (appenders w ++ [mkAppender sink fmt]));;
      update_logger lg (AddAppender (length (appenders w)))
  end.

Fixpoint add_appenders (lg : nat) (l : list LogAppenderConf) : M LogWorld unit :=
  match l with
  | [] => mret tt
  | j :: l => add_appender lg j;; add_appenders lg l
  end.

Fixpoint delete_loggers (old_val : list LoggerConf) : M LogWorld unit :=
  match old_val with
  | [] => mret tt
  | i :: l => update_manager (DelLogger (conf_name_ i));; delete_loggers l
  end.

(** The body of the loop over the new value. *)
Definition new_logger (i : LoggerConf) : M LogWorld unit :=
  update_manager (λ m, (NewLogger (conf_name_ i) m).2);;
  w ← get;
  lg ← lift (GetLogger (conf_name_ i) (manager w));
  update_logger lg (SetMaxLevel (LogLevel.FromString (conf_level_ i)));;
  add_appenders lg (conf_appenders_ i);;
  if decide (conf_name_ i = lit "root") then update_manager (SetRoot lg) else mret tt.

Fixpoint new_loggers (new_val : list LoggerConf) : M LogWorld unit :=
  match new_val with
  | [] => mret tt
  | i :: l => new_logger i;; new_loggers l
  end.

(** The lambda given to [AddListener]. *)
Definition on_change (old_val new_val : std_set LoggerConf) : M LogWorld unit :=
  delete_loggers (set_list old_val);; new_loggers (set_list new_val).

(** [g_log_set] as it is registered. *)
Definition g_log_set : ConfigVar LogWorld (std_set LoggerConf) :=
  mkConfigVar (lit "logs") (lit "the set of pre-defined logs") (std_set_of []) [].

Definition root_conf : LoggerConf :=
  mkLoggerConf (lit "root") (LogLevel.ToString LogLevel.FATAL)
    [mkAppenderConf (lit "logappendertostd") [] []].

(** The constructor of [LogConfInit]. *)
Definition LogConfInit : M_var LogWorld (std_set LoggerConf) unit :=
  SetValue (std_set_of (set_insert root_conf []));;
  AddListener 1 (Some on_change).

End LogConf.
