(* ===== verification/LogConfProps.v ===== *)
(** * Properties of the variable [logs]

    After the initialisation and any sequence of assignments the manager's
    loggers are those the variable describes. *)

From S2P Require Import Prelude CStr Log LogProps LexicalCast Config ConfigProps LogConf.
Import CStr LexicalCast Config Log LogConf.

Module LogConfProps.

(** ** What a configuration describes *)

Definition pattern_of (j : LogAppenderConf) : str :=
  match conf_formatter_ j with [] => default_pattern | f => f end.

(** The appender that is created for [j], if any. *)
Definition appender_of (j : LogAppenderConf) : option Appender :=
  sink ← sink_of j;
  match Init (pattern_of j) with Ok fmt => Some (mkAppender sink fmt) | _ => None end.

Definition described (w : LogWorld) (c : LoggerConf) (lg : Logger) : Prop :=
  name_ lg = conf_name_ c ∧ max_level_ lg = LogLevel.FromString (conf_level_ c) ∧
  (λ a, appenders w !! a) <$> appenders_ lg = Some <$> omap appender_of (conf_appenders_ c).

(** The element of a set with a name. *)
Fixpoint conf_of (name : str) (s : list LoggerConf) : option LoggerConf :=
  match s with
  | [] => None
  | c :: s => if decide (conf_name_ c = name) then Some c else conf_of name s
  end.

Definition mirrors (w : LogWorld) (s : list LoggerConf) : Prop := ∀ name,
  match conf_of name s with
  | Some c => ∃ p lg, GetLogger name (manager w) = Ok p ∧ heap (manager w) !! p = Some lg ∧
      described w c lg ∧ (name = lit "root" → GetRoot (manager w) = p)
  | None => GetLogger name (manager w) = Throw (invalid_argument (string_of_list_ascii name))
  end.

Definition distinct (s : list LoggerConf) : Prop := NoDup (conf_name_ <$> s).

(** ** Creation *)

Lemma Init_ok pattern : ∃ items, Init pattern = Ok items.
Proof.
  unfold Init. destruct (LogProps.scan_total (S (length pattern)) pattern 0 [] []) as [vec ->]; [lia|]. by eexists.
Qed.

(** Logger [p] becomes [lg], and appenders are created. *)
Definition with_logger (w : LogWorld) (p : nat) (lg : Logger) (new : list Appender) : LogWorld :=
  mkLogWorld (mkManager (<[p := lg]> (heap (manager w))) (root_ (manager w)) (loggers_ (manager w)))
    (appenders w ++ new).
Definition with_appenders (lg : Logger) (l : list nat) : Logger :=
  mkLogger (name_ lg) (max_level_ lg) (appenders_ lg ++ l).

Lemma with_logger_id w p lg : heap (manager w) !! p = Some lg → with_logger w p (with_appenders lg []) [] = w.
Proof.
  intros Hp. unfold with_logger, with_appenders. rewrite !app_nil_r. destruct lg, w as [[hp rt lgs] ap]. cbn in *.
  by rewrite list_insert_id.
Qed.

Lemma alter_found {A} (f : A → A) (p : nat) x (l : list A) : l !! p = Some x → alter f p l = <[p := f x]> l.
Proof. revert p. induction l as [|y l IH]; intros [|p] H; cbn in *; [done..| |]; [by injection H as ->|by rewrite <- IH]. Qed.

Lemma add_appender_run p j w lg : heap (manager w) !! p = Some lg →
  add_appender p j w =
    (Ok tt, match appender_of j with
            | Some a => with_logger w p (with_appenders lg [length (appenders w)]) [a]
            | None => w
            end).
Proof.
  intros Hp. unfold add_appender, appender_of. fold (pattern_of j).
  destruct (sink_of j) as [sink|]; cbn [mbind option_bind]; [|done].
  destruct (Init_ok (pattern_of j)) as [fmt ->]. unfold update_logger, update_manager. mgo.
  unfold with_logger, modify. cbn [manager appenders]. by rewrite (alter_found _ p lg).
Qed.

Lemma with_logger_twice w p lg k a b : p < length (heap (manager w)) →
  with_logger (with_logger w p lg a) p k b = with_logger w p k (a ++ b).
Proof. intros _. unfold with_logger. cbn. by rewrite list_insert_insert_eq, app_assoc. Qed.

(** All the appenders of a configuration. *)
Lemma add_appenders_run p l : ∀ w lg, heap (manager w) !! p = Some lg →
  let new := omap appender_of l in
  add_appenders p l w =
    (Ok tt, with_logger w p (with_appenders lg (seq (length (appenders w)) (length new))) new).
Proof.
  induction l as [|j l IH]; intros w lg Hp; cbn [add_appenders omap list_omap].
  - by rewrite with_logger_id.
  - run (add_appender_run p j w lg Hp). pose proof (lookup_lt_Some _ _ _ Hp) as Hlt.
    destruct (appender_of j) as [a|]; [|by apply IH].
    rewrite (IH _ (with_appenders lg [length (appenders w)])) by (cbn; by apply list_lookup_insert_eq).
    rewrite with_logger_twice by done. unfold with_appenders. cbn. rewrite length_app. cbn.
    by rewrite <- app_assoc, Nat.add_1_r.
Qed.

Lemma seq_lookup_app (l k : list Appender) :
  (λ a, (l ++ k) !! a) <$> seq (length l) (length k) = Some <$> k.
Proof.
  revert l. induction k as [|x k IH]; intros l; [done|]. cbn [length seq fmap list_fmap]. f_equal.
  - by rewrite list_lookup_middle.
  - rewrite <- (IH (l ++ [x])). rewrite length_app, <- app_assoc. cbn. by rewrite Nat.add_1_r.
Qed.

(** The world after a logger for [i], whose name is new. *)
Definition with_new (w : LogWorld) (i : LoggerConf) : LogWorld :=
  let m := manager w in
  let new := omap appender_of (conf_appenders_ i) in
  mkLogWorld
    (mkManager (heap m ++ [mkLogger (conf_name_ i) (LogLevel.FromString (conf_level_ i))
                             (seq (length (appenders w)) (length new))])
       (if decide (conf_name_ i = lit "root") then length (heap m) else root_ m)
       (dset (conf_name_ i) (length (heap m)) (loggers_ m)))
    (appenders w ++ new).

Lemma new_logger_run w i : dget (conf_name_ i) (loggers_ (manager w)) = None →
  new_logger i w = (Ok tt, with_new w i).
Proof.
  intros Hn. unfold new_logger, update_logger, update_manager. mgo. unfold NewLogger, GetLogger. rewrite Hn.
  cbn [manager snd loggers_ root_ heap]. rewrite dget_dset. mgo. cbn [manager loggers_ root_ heap appenders].
  rewrite (alter_found _ _ (Logger_new (conf_name_ i))) by by apply list_lookup_middle.
  rewrite insert_app_r_alt by done. rewrite Nat.sub_diag. cbn [insert list_insert].
  match goal with |- (add_appenders ?p ?l ≫= ?f) ?w = _ =>
    rewrite (bind_ok _ f w _ _ (add_appenders_run p l w (SetMaxLevel (LogLevel.FromString (conf_level_ i))
      (Logger_new (conf_name_ i))) (list_lookup_middle _ [] _ _ eq_refl))) end.
  unfold with_new, with_logger, with_appenders. cbn.
  rewrite insert_app_r_alt by done. rewrite Nat.sub_diag. cbn. by destruct (decide _).
Qed.

Lemma delete_loggers_run l : ∀ w, sorted (loggers_ (manager w)) →
  ∃ w', delete_loggers l w = (Ok tt, w') ∧ appenders w' = appenders w ∧
    heap (manager w') = heap (manager w) ∧ root_ (manager w') = root_ (manager w) ∧
    sorted (loggers_ (manager w')) ∧
    ∀ name, dget name (loggers_ (manager w')) =
      if decide (name ∈ conf_name_ <$> l) then None else dget name (loggers_ (manager w)).
Proof.
  induction l as [|i l IH]; intros w Hs; cbn [delete_loggers].
  - exists w. repeat (split; [done|]). intros name. by rewrite decide_False by (by intros ?%elem_of_nil).
  - unfold update_manager. mgo. set (w1 := mkLogWorld _ _).
    assert (sorted (loggers_ (manager w1)) ∧ heap (manager w1) = heap (manager w) ∧ root_ (manager w1) = root_ (manager w) ∧
      ∀ name, dget name (loggers_ (manager w1)) =
        if decide (name = conf_name_ i) then None else dget name (loggers_ (manager w))) as (Hs1 & Hh1 & Hr1 & Hd1).
    { unfold w1, DelLogger. destruct (dget (conf_name_ i) _) eqn:E; cbn.
      - split; [by apply derase_sorted|]. repeat (split; [done|]). intros name. by apply dget_derase.
      - repeat (split; [done|]). intros name. by destruct (decide _) as [->|]. }
    destruct (IH w1 Hs1) as (w' & -> & Ha & Hh & Hr & Hs' & Hd). exists w'. split; [done|]. split; [exact Ha|]. do 2 (split; [congruence|]).
    split; [done|]. intros name. rewrite Hd, Hd1. cbn [fmap list_fmap].
    repeat destruct (decide _); set_solver.
Qed.

(** ** The mirror *)

Lemma described_more w w' c lg : (∃ k, appenders w' = appenders w ++ k) → described w c lg → described w' c lg.
Proof.
  intros [k Hk] (Hn & Hl & Ha). split; [done|]. split; [done|]. rewrite <- Ha. apply list_fmap_ext.
  intros n a Hna. rewrite Hk. apply lookup_app_l.
  assert (is_Some (appenders w !! a)) as [x Hx]; [|by eapply lookup_lt_Some].
  assert (((λ a, appenders w !! a) <$> appenders_ lg) !! n = Some (appenders w !! a)) as H
    by (by rewrite list_lookup_fmap, Hna).
  rewrite Ha, list_lookup_fmap in H. apply fmap_Some in H as (x & _ & ->). by eexists.
Qed.

Lemma conf_of_none name s : conf_of name s = None ↔ name ∉ conf_name_ <$> s.
Proof. induction s as [|c s IH]; cbn; [set_solver|]. destruct (decide _); set_solver. Qed.

Lemma conf_of_some name s c : conf_of name s = Some c → conf_name_ c = name.
Proof. induction s as [|d s IH]; cbn; [done|]. destruct (decide _); naive_solver. Qed.

Lemma conf_of_last name s c : conf_of name (s ++ [c]) =
  match conf_of name s with Some d => Some d | None => if decide (conf_name_ c = name) then Some c else None end.
Proof. induction s as [|d s IH]; cbn; [done|]. by destruct (decide (conf_name_ d = name)). Qed.

Lemma mirrors_new w s i : distinct (s ++ [i]) → mirrors w s → mirrors (with_new w i) (s ++ [i]).
Proof.
  intros Hd Hm name. unfold distinct in Hd. rewrite fmap_app in Hd. apply NoDup_app in Hd as (_ & Hd & _).
  rewrite conf_of_last. specialize (Hm name). unfold GetLogger in *. destruct (conf_of name s) as [c|] eqn:Ec.
  - destruct Hm as (p & lg & Hp & Hlg & Hdes & Hroot). pose proof (conf_of_some _ _ _ Ec) as Hcn.
    assert (name ≠ conf_name_ i) as Hne.
    { intros ->. apply (Hd (conf_name_ i)); [|by left].
      destruct (decide (conf_name_ i ∈ conf_name_ <$> s)) as [|Hx]; [done|]. apply conf_of_none in Hx. congruence. }
    exists p, lg. cbn. rewrite dget_dset_ne by done. split; [done|]. split; [by apply lookup_app_l_Some|].
    split; [apply (described_more w); [by eexists|done]|]. intros Hr. rewrite decide_False by congruence. by apply Hroot.
  - destruct (decide (conf_name_ i = name)) as [<-|Hne].
    + eexists (length (heap (manager w))), _. cbn. rewrite dget_dset. split; [done|].
      split; [by apply list_lookup_middle|]. split; [|intros Hr; by rewrite decide_True].
      split; [done|]. split; [done|]. cbn. apply seq_lookup_app.
    + cbn. by rewrite dget_dset_ne.
Qed.

Lemma new_loggers_run l : ∀ w s, distinct (s ++ l) → sorted (loggers_ (manager w)) → mirrors w s →
  ∃ w', new_loggers l w = (Ok tt, w') ∧ sorted (loggers_ (manager w')) ∧ mirrors w' (s ++ l).
Proof.
  induction l as [|i l IH]; intros w s Hd Hs Hm; cbn [new_loggers]; [exists w; by rewrite app_nil_r|].
  assert (s ++ i :: l = (s ++ [i]) ++ l) as E by by rewrite <- app_assoc. rewrite E in *.
  assert (distinct (s ++ [i])) as Hd1.
  { unfold distinct in *. rewrite fmap_app in Hd. by apply NoDup_app in Hd as [? _]. }
  assert (dget (conf_name_ i) (loggers_ (manager w)) = None) as Hn.
  { specialize (Hm (conf_name_ i)). unfold distinct in Hd1. rewrite fmap_app in Hd1.
    apply NoDup_app in Hd1 as (_ & Hx & _).
    assert (conf_of (conf_name_ i) s = None) as Hc by (apply conf_of_none; intros ?; by apply (Hx (conf_name_ i)); [|left]).
    rewrite Hc in Hm. unfold GetLogger in Hm. by destruct (dget _ _). }
  run (new_logger_run w i Hn). apply IH; [done| |by apply mirrors_new]. cbn. by apply dset_sorted.
Qed.

Lemma on_change_run w old new : distinct (set_list new) → sorted (loggers_ (manager w)) → mirrors w (set_list old) →
  ∃ w', on_change old new w = (Ok tt, w') ∧ sorted (loggers_ (manager w')) ∧ mirrors w' (set_list new).
Proof.
  intros Hd Hs Hm. unfold on_change. destruct (delete_loggers_run (set_list old) w Hs) as (w1 & H1 & _ & _ & _ & Hs1 & Hg).
  run H1. apply (new_loggers_run _ _ []); [done|done|]. intros name. cbn [conf_of]. unfold GetLogger. rewrite Hg.
  specialize (Hm name). destruct (decide _) as [|Hn]; [done|]. apply conf_of_none in Hn. by rewrite Hn in Hm.
Qed.

(** ** The whole life of the variable *)

(** The state when [LogConfInit] is constructed. *)
Definition LogWorld_new : LogWorld :=
  mkLogWorld (LoggerManager_new 0)
    match Init default_pattern with Ok fmt => [mkAppender LogAppenderToStd fmt] | _ => [] end.

Fixpoint assign_all (l : list (std_set LoggerConf)) : M_var LogWorld (std_set LoggerConf) unit :=
  match l with
  | [] => mret tt
  | val :: l => SetValue val;; assign_all l
  end.

Definition life_ok (s : ConfigVar LogWorld (std_set LoggerConf) * LogWorld) : Prop :=
  callback_func_map_ s.1 = [(1%Z, Some on_change)] ∧ distinct (set_list (value_ s.1)) ∧
  sorted (loggers_ (manager s.2)) ∧ mirrors s.2 (set_list (value_ s.1)).

Lemma SetValue_life val s : distinct (set_list val) → life_ok s →
  ∃ s', SetValue val s = (Ok tt, s') ∧ value_ s'.1 = val ∧ life_ok s'.
Proof.
  intros Hd (Hc & Hd0 & Hs & Hm). destruct s as [v w]. cbn [fst snd] in *. rewrite ConfigProps.SetValue_unfold.
  unfold equal, log_set_equal. destruct (bool_decide_reflect (set_list val = set_list (value_ v))) as [E|E].
  - exists (v, w). split; [done|]. split; [|by split]. cbn [fst]. destruct val, (value_ v). cbn in E. by subst.
  - destruct (on_change_run w (value_ v) val Hd Hs Hm) as (w' & Hw & Hs' & Hm'). rewrite Hc. cbn [call_all snd].
    rewrite (bind_ok _ _ _ tt (v, w')) by (unfold call; by rewrite Hw). cbn. eexists. split; [done|]. split; [done|].
    by repeat split.
Qed.

Lemma assign_all_life l : ∀ s, Forall (λ val, distinct (set_list val)) l → life_ok s →
  ∃ s', assign_all l s = (Ok tt, s') ∧ value_ s'.1 = default (value_ s.1) (last l) ∧ life_ok s'.
Proof.
  induction l as [|val l IH]; intros s Hl Hs; [by exists s|]. apply Forall_cons in Hl as [Hd Hl]. cbn [assign_all].
  destruct (SetValue_life val s Hd Hs) as (s1 & H1 & Hv & Hs1). run H1.
  destruct (IH s1 Hl Hs1) as (s' & -> & Hv' & Hs'). exists s'. split; [done|]. split; [|done].
  rewrite Hv', Hv. rewrite last_cons. by destruct (last l).
Qed.

Lemma LogConfInit_life : ∃ s, LogConfInit (g_log_set, LogWorld_new) = (Ok tt, s) ∧
  set_list (value_ s.1) = [root_conf] ∧ life_ok s.
Proof.
  eexists. split; [reflexivity|]. split; [done|]. split; [done|]. split; [apply NoDup_singleton|].
  split; [by repeat constructor|]. intros name. cbn [conf_of value_ fst snd set_list set_insert].
  destruct (decide _) as [<-|Hne].
  - by vm_compute; eexists 0, _.
  - unfold GetLogger. cbn. rewrite decide_False; [done|]. intros ->. by apply Hne.
Qed.

(** [C24] The loggers mirror the variable [logs]: from the initialisation of the
    program through any sequence of assignments to it, no assignment fails and
    afterwards the names [GetLogger] finds are exactly those of the set, each
    with the logger of its level and of the appenders its entry describes, in
    order; a logger named root is the manager's root. *)
Theorem loggers_mirror_logs (l : list (std_set LoggerConf)) :
  Forall (λ val, distinct (set_list val)) l →
  ∃ v w, (LogConfInit;; assign_all l) (g_log_set, LogWorld_new) = (Ok tt, (v, w)) ∧
    set_list (value_ v) = default [root_conf] (set_list <$> last l) ∧
    mirrors w (set_list (value_ v)).
Proof.
  intros Hl. destruct LogConfInit_life as (s & H1 & Hv & Hs). run H1.
  destruct (assign_all_life l s Hl Hs) as ([v w] & -> & Hv' & (_ & _ & _ & Hm)).
  exists v, w. split; [done|]. split; [|done]. cbn in Hv'. rewrite Hv'. by destruct (last l).
Qed.

Lemma loggers_mirror_logs_witness :
  ∃ v w, (LogConfInit;; assign_all [std_set_of [mkLoggerConf (lit "system") (lit "WARN") []]])
           (g_log_set, LogWorld_new) = (Ok tt, (v, w)) ∧
    set_list (value_ v) = [mkLoggerConf (lit "system") (lit "WARN") []] ∧
    mirrors w (set_list (value_ v)).
Proof.
  refine (loggers_mirror_logs [std_set_of [mkLoggerConf (lit "system") (lit "WARN") []]] _).
  repeat constructor. apply not_elem_of_nil.
Defined.

End LogConfProps.
