(* ===== verification/Mutex.v ===== *)
(** * Locks

    [src/include/mutex.hh] and [src/mutex.cc]: the scope locks over an interface
    of lockable classes, the lock on an atomic flag, the null locks, the classes
    that wrap a lock of the system, the reader-writer lock with its write scope
    locks, and the semaphore.  Threads interleave at the accesses to the shared
    lock; the [is_locked_] of a scope lock is its own thread's.  The pthread locks
    are parameters, by the classes [SystemLock] and [SystemRWLock]. *)

From S2P Require Import Prelude.

Module Mutex.

(** ** Lockable classes *)

(** [Lock] is a loop around [attempt], one access to the lock, which says whether
    it was taken; for a lock of the system the loop is its waiting. *)
Class Lockable (L : Type) := {
  initial : L;
  attempt : L → L * bool;
  Unlock : L → L }.

(** What a scope lock needs of an exclusive lock. *)
Class Exclusive (L : Type) `{Lockable L} := {
  held : L → bool;
  held_initial : held initial = false;
  attempt_taken l : (attempt l).2 = true → held l = false ∧ held (attempt l).1 = true;
  attempt_refused l : (attempt l).2 = false → held l = true ∧ held (attempt l).1 = true;
  held_Unlock l : held (Unlock l) = false }.

(** [CASLock]: [mu_], a [std::atomic_flag]. *)
Record CASLock := mkCASLock { mu_ : bool }.

(** [atomic_flag_test_and_set]: the flag is set, and its value before returned. *)
Definition test_and_set (l : CASLock) : CASLock * bool := (mkCASLock true, mu_ l).

#[global] Instance CASLock_lockable : Lockable CASLock := {
  initial := mkCASLock false;
  attempt l := let '(l, before) := test_and_set l in (l, negb before);
  Unlock l := mkCASLock false }.

(** [NullMutex]. *)
Inductive NullMutex := mkNullMutex.
#[global] Instance NullMutex_lockable : Lockable NullMutex := {
  initial := mkNullMutex;
  attempt l := (l, true);
  Unlock l := l }.

(** A [pthread_spinlock_t] or [pthread_mutex_t]: one access of its [lock] function
    takes the lock, or leaves the thread waiting. *)
Class SystemLock (T : Type) := {
  lock_init : T;
  lock_access_ : T → T * bool;
  lock_release : T → T }.

(** What pthread documents of them. *)
Class SystemLockLaws (T : Type) `{SystemLock T} := {
  sys_held : T → bool;
  sys_held_init : sys_held lock_init = false;
  sys_held_taken m : (lock_access_ m).2 = true → sys_held m = false ∧ sys_held (lock_access_ m).1 = true;
  sys_held_waits m : (lock_access_ m).2 = false → sys_held m = true ∧ sys_held (lock_access_ m).1 = true;
  sys_held_release m : sys_held (lock_release m) = false }.

(** [Mutex] over [pthread_mutex_t] and [SpinLock] over [pthread_spinlock_t]. *)
Record Mutex (T : Type) := mkMutex { mutex_mu_ : T }.
Arguments mkMutex {T}.
Arguments mutex_mu_ {T}.
Record SpinLock (T : Type) := mkSpinLock { spin_mu_ : T }.
Arguments mkSpinLock {T}.
Arguments spin_mu_ {T}.

#[global] Instance Mutex_lockable `{SystemLock T} : Lockable (Mutex T) := {
  initial := mkMutex lock_init;
  attempt l := let '(m, taken) := lock_access_ (mutex_mu_ l) in (mkMutex m, taken);
  Unlock l := mkMutex (lock_release (mutex_mu_ l)) }.

#[global] Instance SpinLock_lockable `{SystemLock T} : Lockable (SpinLock T) := {
  initial := mkSpinLock lock_init;
  attempt l := let '(m, taken) := lock_access_ (spin_mu_ l) in (mkSpinLock m, taken);
  Unlock l := mkSpinLock (lock_release (spin_mu_ l)) }.

(** ** Reader-writer locks *)

(** [Rdlock] and [Wrlock], one access at a time; one [Unlock] for both. *)
Class RWLockable (L : Type) := {
  rw_initial : L;
  Rdlock : L → L * bool;
  Wrlock : L → L * bool;
  RWUnlock : L → L }.

(** What the clients of a reader-writer lock rely on. *)
Class RWExclusive (L : Type) `{RWLockable L} := {
  readers : L → nat;
  writer : L → bool;
  rw_init_free : readers rw_initial = 0 ∧ writer rw_initial = false;
  Rdlock_taken l : (Rdlock l).2 = true →
    writer l = false ∧ writer (Rdlock l).1 = false ∧ readers (Rdlock l).1 = S (readers l);
  Rdlock_waits l : (Rdlock l).2 = false →
    writer (Rdlock l).1 = writer l ∧ readers (Rdlock l).1 = readers l;
  Wrlock_taken l : (Wrlock l).2 = true →
    writer l = false ∧ readers l = 0 ∧ writer (Wrlock l).1 = true ∧ readers (Wrlock l).1 = 0;
  Wrlock_waits l : (Wrlock l).2 = false →
    (writer l = true ∨ 0 < readers l) ∧
    writer (Wrlock l).1 = writer l ∧ readers (Wrlock l).1 = readers l;
  RWUnlock_writer l : writer l = true → writer (RWUnlock l) = false ∧ readers (RWUnlock l) = 0;
  RWUnlock_reader l n : writer l = false → readers l = S n →
    writer (RWUnlock l) = false ∧ readers (RWUnlock l) = n }.

(** [RWMutex]: [mu_], a [pthread_rwlock_t], whose functions are the parameter. *)
Record RWMutex (T : Type) := mkRWMutex { rw_mu_ : T }.
Arguments mkRWMutex {T}.
Arguments rw_mu_ {T}.

Class SystemRWLock (T : Type) := {
  rwlock_init : T;
  rwlock_rdlock : T → T * bool;
  rwlock_wrlock : T → T * bool;
  rwlock_unlock : T → T }.

#[global] Instance RWMutex_lockable `{SystemRWLock T} : RWLockable (RWMutex T) := {
  rw_initial := mkRWMutex rwlock_init;
  Rdlock l := let '(m, taken) := rwlock_rdlock (rw_mu_ l) in (mkRWMutex m, taken);
  Wrlock l := let '(m, taken) := rwlock_wrlock (rw_mu_ l) in (mkRWMutex m, taken);
  RWUnlock l := mkRWMutex (rwlock_unlock (rw_mu_ l)) }.

(** [NullRWMutex]. *)
Inductive NullRWMutex := mkNullRWMutex.
#[global] Instance NullRWMutex_lockable : RWLockable NullRWMutex := {
  rw_initial := mkNullRWMutex;
  Rdlock l := (l, true);
  Wrlock l := (l, true);
  RWUnlock l := l }.

(** [WriteScopeLockImpl] is [ScopeLockImpl] with [Wrlock] for [Lock]. *)
Definition write_side (L : Type) `{RWLockable L} : Lockable L := {|
  initial := rw_initial; attempt := Wrlock; Unlock := RWUnlock |}.

(** ** Scope locks *)

(** The operations of a thread on its [ScopeLockImpl]. *)
Inductive lock_call := Construct | Lock | DoUnlock | Destroy.

(** A thread: the calls it has still to make; [is_locked_] of its object, if it
    has one; and whether it is in the loop of [mu_.Lock()]. *)
Record Thread := mkThread {
  calls : list lock_call;
  is_locked_ : option bool;
  locking : bool }.

Section ScopeLock.
Context {L : Type} `{Lockable L}.

(** One access of [mu_.Lock()]; after it has returned, [is_locked_ = true]. *)
Definition lock_access (mu : L) (th : Thread) : L * Thread :=
  let '(mu, taken) := attempt mu in
  if taken then (mu, mkThread (calls th) (Some true) false) else (mu, th).

(** [if (is_locked_) { mu_.Unlock(); is_locked_ = false; }], and what is left of the
    object. *)
Definition release (rest : list lock_call) (after : option bool) (mu : L) (locked : bool) : L * Thread :=
  ((if locked then Unlock mu else mu), mkThread rest after false).

(** One step of a thread; [None] when it has nothing to do, or an operation
    without an object. *)
Definition thread_step (mu : L) (th : Thread) : option (L * Thread) :=
  if locking th then Some (lock_access mu th)
  else
    match calls th, is_locked_ th with
    | Construct :: rest, None => Some (mu, mkThread rest (Some false) true)
    | Lock :: rest, Some true => Some (mu, mkThread rest (Some true) false)
    | Lock :: rest, Some false => Some (mu, mkThread rest (Some false) true)
    | DoUnlock :: rest, Some locked => Some (release rest (Some false) mu locked)
    | Destroy :: rest, Some locked => Some (release rest None mu locked)
    | _, _ => None
    end.

(** The lock and the threads that use it. *)
Record System := mkSystem { mu : L; threads : list Thread }.

Inductive step : System → System → Prop :=
| step_thread i th th' mu' s : threads s !! i = Some th → thread_step (mu s) th = Some (mu', th') →
    step s (mkSystem mu' (<[i := th']> (threads s))).

(** Threads before their first call. *)
Definition System_new (programs : list (list lock_call)) : System :=
  mkSystem initial ((λ p, mkThread p None false) <$> programs).
End ScopeLock.
Arguments System L : clear implicits.
Arguments mkSystem {L}.
Arguments mu {L}.
Arguments threads {L}.

(** ** Readers and writers *)

(** A reader calls [Rdlock] and [Unlock] itself: [ReadScopeLockImpl] has no
    instance, since its constructor calls the [Lock] of the lock it is given. *)
Inductive reader_call := CallRdlock | CallUnlock.
Record Reader := mkReader {
  reader_calls : list reader_call;
  reading : bool;
  rdlocking : bool }.

Section ReadersWriters.
Context {L : Type} `{RWLockable L}.

Definition rdlock_access (mu : L) (r : Reader) : L * Reader :=
  let '(mu, taken) := Rdlock mu in
  if taken then (mu, mkReader (reader_calls r) true false) else (mu, r).

(** [None] when there is nothing to do, or for an [Unlock] of a lock it does not
    hold and an [Rdlock] inside another. *)
Definition reader_step (mu : L) (r : Reader) : option (L * Reader) :=
  if rdlocking r then Some (rdlock_access mu r)
  else
    match reader_calls r, reading r with
    | CallRdlock :: rest, false => Some (mu, mkReader rest false true)
    | CallUnlock :: rest, true => Some (RWUnlock mu, mkReader rest false false)
    | _, _ => None
    end.

Record RWSystem := mkRWSystem { rw_mu : L; rw_readers : list Reader; rw_writers : list Thread }.

Inductive rw_step : RWSystem → RWSystem → Prop :=
| rw_step_reader i r r' mu' s : rw_readers s !! i = Some r → reader_step (rw_mu s) r = Some (mu', r') →
    rw_step s (mkRWSystem mu' (<[i := r']> (rw_readers s)) (rw_writers s))
| rw_step_writer i th th' mu' s : rw_writers s !! i = Some th →
    thread_step (H := write_side L) (rw_mu s) th = Some (mu', th') →
    rw_step s (mkRWSystem mu' (rw_readers s) (<[i := th']> (rw_writers s))).

Definition RWSystem_new (rs : list (list reader_call)) (ws : list (list lock_call)) : RWSystem :=
  mkRWSystem rw_initial ((λ p, mkReader p false false) <$> rs) ((λ p, mkThread p None false) <$> ws).
End ReadersWriters.
Arguments RWSystem L : clear implicits.
Arguments mkRWSystem {L}.
Arguments rw_mu {L}.
Arguments rw_readers {L}.
Arguments rw_writers {L}.

(** ** [Semaphore] *)

Definition sem_value_max : nat := Z.to_nat (2 ^ 31 - 1).

(** [sem_init]: fails for a value above the greatest, and then there is no semaphore. *)
Definition sem_init (value : nat) : Z * option nat :=
  if decide (value ≤ sem_value_max) then (0%Z, Some value) else ((-1)%Z, None).

(** [sem_wait]: blocks ([None]) at zero, unless a signal interrupts it. *)
Definition sem_wait (interrupted : bool) (value : nat) : option (Z * nat) :=
  match value with
  | S v => Some (0%Z, v)
  | O => if interrupted then Some ((-1)%Z, O) else None
  end.
(** [sem_post]: fails at the greatest value. *)
Definition sem_post (value : nat) : Z * nat :=
  if decide (value < sem_value_max) then (0%Z, S value) else ((-1)%Z, value).

(** The exceptions are constructed and not thrown. *)
Definition Semaphore_new (cnt : nat) : option nat :=
  let '(err, v) := sem_init cnt in
  if decide (err ≠ 0%Z) then v else v.
Definition Wait (interrupted : bool) (value : nat) : option nat :=
  '(err, v) ← sem_wait interrupted value;
  if decide (err ≠ 0%Z) then Some v else Some v.
Definition Notify (value : nat) : nat :=
  let '(err, v) := sem_post value in
  if decide (err ≠ 0%Z) then v else v.

End Mutex.
