(* ===== verification/MutexProps.v ===== *)
(** * Properties of the locks

    Scope locks over an exclusive lock exclude each other in every interleaving;
    the flag lock is exclusive. *)

From S2P Require Import Prelude Mutex.
Import Mutex.

Module MutexProps.

#[global] Instance CASLock_exclusive : Exclusive CASLock.
Proof. refine {| held := mu_ |}; [done|by intros []; cbn; destruct mu_0|by intros []; cbn; destruct mu_0|done]. Defined.

Definition holds (th : Thread) : Prop := is_locked_ th = Some true.

(** A thread is in the loop of [Lock] only with an object that is not locked. *)
Definition thread_ok (th : Thread) : Prop := locking th = true → is_locked_ th = Some false.

(** The four ways a thread uses the lock: it takes it, is refused or does nothing
    to it, keeps it, or gives it back. *)
Lemma thread_step_shape `{Lockable L} (m m' : L) th th' : thread_ok th → thread_step m th = Some (m', th') →
  thread_ok th' ∧
  ((¬ holds th ∧ (attempt m).2 = true ∧ m' = (attempt m).1 ∧ holds th') ∨
   (¬ holds th ∧ ¬ holds th' ∧ (m' = m ∨ (attempt m).2 = false ∧ m' = (attempt m).1)) ∨
   (holds th ∧ holds th' ∧ m' = m) ∨
   (holds th ∧ ¬ holds th' ∧ m' = Unlock m)).
Proof.
  intros Hok. unfold thread_step, thread_ok, holds in *. destruct (locking th) eqn:El.
  - specialize (Hok eq_refl). unfold lock_access.
    destruct (attempt m) as [m1 []]; cbn; intros [= <- <-]; cbn; split; naive_solver.
  - destruct (calls th) as [|[] rest], (is_locked_ th) as [[]|]; try done; intros [= <- <-]; cbn;
      (split; [done|]); naive_solver.
Qed.

(** ** Pools of threads *)

Definition some_holds (l : list Thread) : Prop := ∃ i th, l !! i = Some th ∧ holds th.
Definition one_holds (l : list Thread) : Prop :=
  ∀ i j th th', l !! i = Some th → l !! j = Some th' → holds th → holds th' → i = j.

Section Pools.
Context (l : list Thread) (i : nat) (th th' : Thread).
Hypothesis Hi : l !! i = Some th.

Lemma pool_lookup j x : <[i := th']> l !! j = Some x → j = i ∧ x = th' ∨ j ≠ i ∧ l !! j = Some x.
Proof.
  pose proof (lookup_lt_Some _ _ _ Hi).
  destruct (decide (j = i)) as [->|Hne]; [rewrite list_lookup_insert_eq by done|rewrite list_lookup_insert_ne by done]; naive_solver.
Qed.
Lemma pool_here : <[i := th']> l !! i = Some th'.
Proof. apply list_lookup_insert_eq. by eapply lookup_lt_Some. Qed.

Lemma pool_takes : ¬ some_holds l → holds th' → some_holds (<[i := th']> l) ∧ one_holds (<[i := th']> l).
Proof.
  intros Hn Hh. split; [exists i, th'; by rewrite pool_here|].
  intros j k x y Hj Hk Hx Hy. apply pool_lookup in Hj as [[-> ->]|[_ Hj]]; [|by destruct Hn; exists j, x].
  apply pool_lookup in Hk as [[-> ->]|[_ Hk]]; [done|by destruct Hn; exists k, y].
Qed.

Lemma pool_same : (holds th ↔ holds th') → one_holds l →
  (some_holds (<[i := th']> l) ↔ some_holds l) ∧ one_holds (<[i := th']> l).
Proof.
  intros Hh Ho. split; [split; intros (j & x & Hj & Hx)|].
  - apply pool_lookup in Hj as [[-> ->]|[_ Hj]]; [exists i, th; by rewrite Hh|by exists j, x].
  - destruct (decide (j = i)) as [->|Hne]; [|exists j, x; by rewrite list_lookup_insert_ne].
    exists i, th'. rewrite pool_here, <- Hh. naive_solver.
  - intros j k x y Hj Hk Hx Hy. apply pool_lookup in Hj as [[-> ->]|[_ Hj]]; apply pool_lookup in Hk as [[-> ->]|[_ Hk]];
      rewrite <- ?Hh in *; by eauto.
Qed.

Lemma pool_drops : holds th → ¬ holds th' → one_holds l →
  ¬ some_holds (<[i := th']> l) ∧ one_holds (<[i := th']> l).
Proof.
  intros Hh Hh' Ho. assert (¬ some_holds (<[i := th']> l)) as Hn.
  { intros (j & x & Hj & Hx). apply pool_lookup in Hj as [[-> ->]|[Hne Hj]]; [done|]. apply Hne. by eapply Ho. }
  split; [done|]. intros j k x y Hj _ Hx. destruct Hn. by exists j, x.
Qed.
End Pools.

(** Threads before their first call hold nothing. *)
Lemma none_holds (programs : list (list lock_call)) : ¬ some_holds ((λ p, mkThread p None false) <$> programs).
Proof. intros (i & th & Hi & Hh). rewrite list_lookup_fmap in Hi. by apply fmap_Some in Hi as (p & _ & ->). Qed.
Lemma none_locking (programs : list (list lock_call)) : Forall thread_ok ((λ p, mkThread p None false) <$> programs).
Proof. apply Forall_forall. intros th Hth. by apply list_elem_of_fmap in Hth as (p & -> & _). Qed.

(** The locks of the system are exclusive when they do what pthread documents. *)
#[global] Instance Mutex_exclusive `{SystemLockLaws T} : Exclusive (Mutex T).
Proof.
  refine {| held l := sys_held (mutex_mu_ l) |}; cbn.
  - apply sys_held_init.
  - intros [m]. cbn. pose proof (sys_held_taken m). by destruct (lock_access_ m).
  - intros [m]. cbn. pose proof (sys_held_waits m). by destruct (lock_access_ m).
  - intros [m]. apply sys_held_release.
Defined.
#[global] Instance SpinLock_exclusive `{SystemLockLaws T} : Exclusive (SpinLock T).
Proof.
  refine {| held l := sys_held (spin_mu_ l) |}; cbn.
  - apply sys_held_init.
  - intros [m]. cbn. pose proof (sys_held_taken m). by destruct (lock_access_ m).
  - intros [m]. cbn. pose proof (sys_held_waits m). by destruct (lock_access_ m).
  - intros [m]. apply sys_held_release.
Defined.

Section Exclusion.
Context {L : Type} `{EL : Exclusive L}.

Record system_ok (s : System L) : Prop := {
  so_threads : Forall thread_ok (threads s);
  so_held : held (mu s) = true ↔ some_holds (threads s);
  so_one : one_holds (threads s) }.

Lemma system_ok_new programs : system_ok (System_new programs).
Proof.
  split; [apply none_locking| |].
  - cbn [mu threads System_new]. rewrite held_initial. split; [done|]. by intros Hx%none_holds.
  - intros i j th th' Hi _ Hh. destruct (none_holds programs). by exists i, th.
Qed.

(** The four ways a thread changes the state of an exclusive lock. *)
Lemma thread_step_cases (m m' : L) th th' : thread_ok th → thread_step m th = Some (m', th') →
  thread_ok th' ∧
  ((¬ holds th ∧ held m = false ∧ held m' = true ∧ holds th') ∨
   (¬ holds th ∧ ¬ holds th' ∧ held m' = held m) ∨
   (holds th ∧ holds th' ∧ m' = m) ∨
   (holds th ∧ ¬ holds th' ∧ held m' = false)).
Proof.
  intros Hok Hs. destruct (thread_step_shape _ _ _ _ Hok Hs) as [Hok' Hc]. split; [done|].
  pose proof (attempt_taken m) as Ht. pose proof (attempt_refused m) as Hr. pose proof (held_Unlock m) as Hu.
  destruct Hc as [(? & E & -> & ?)|[(? & ? & [->|(E & ->)])|[?|(? & ? & ->)]]]; try specialize (Ht E); try specialize (Hr E);
    intuition congruence.
Qed.

Lemma step_ok (s s' : System L) : system_ok s → step s s' → system_ok s'.
Proof.
  intros [Ht Hh Ho]. destruct 1 as [i th th' m' s Hi Hs].
  assert (thread_ok th) as Hth by (rewrite Forall_lookup in Ht; by eapply Ht).
  destruct (thread_step_cases _ _ _ _ Hth Hs) as [Hok Hc].
  assert (holds th → some_holds (threads s)) by (intros; by exists i, th).
  assert (Forall thread_ok (<[i := th']> (threads s))) by by apply Forall_insert.
  destruct Hc as [(Hn & E & E' & Hh')|[(Hn & Hn' & E)|[(Hy & Hh' & ->)|(Hy & Hn' & E)]]].
  - destruct (pool_takes _ _ _ _ Hi (λ Hx, ltac:(apply Hh in Hx; congruence)) Hh'). by split; cbn; rewrite ?E'.
  - destruct (pool_same _ _ th th' Hi ltac:(tauto) Ho) as [Hs' ?]. split; cbn; [done| |done]. by rewrite E, Hs'.
  - destruct (pool_same _ _ th th' Hi ltac:(tauto) Ho) as [Hs' ?]. split; cbn; [done| |done]. by rewrite Hs'.
  - destruct (pool_drops _ _ _ _ Hi Hy Hn' Ho). by split; cbn; rewrite ?E.
Qed.

Lemma system_reachable_ok programs (s : System L) : rtc step (System_new programs) s → system_ok s.
Proof.
  intros Hrun. remember (System_new programs) as s0 eqn:E. assert (system_ok s0) as Hok by (subst; apply system_ok_new).
  clear E. induction Hrun as [s|s1 s2 s3 H1 _ IH]; [done|]. apply IH. by eapply step_ok.
Qed.
End Exclusion.

(** [C27] Scope locks exclude each other: over any exclusive lock, in every
    interleaving of any threads that construct, lock, unlock and destroy their
    scope locks in any order, two threads never hold the lock at once, and the
    lock is held exactly if some scope lock has [is_locked_]; a thread that tries
    while it is not held gets it. *)
Theorem scope_locks_exclude {L} `{EL : Exclusive L} programs (s : System L) :
  rtc step (System_new programs) s →
  (∀ i j th th', threads s !! i = Some th → threads s !! j = Some th' → holds th → holds th' → i = j) ∧
  (held (mu s) = true ↔ ∃ i th, threads s !! i = Some th ∧ holds th) ∧
  (∀ i th, threads s !! i = Some th → locking th = true → held (mu s) = false →
     ∃ mu' th', thread_step (mu s) th = Some (mu', th') ∧ holds th').
Proof.
  intros Hs. destruct (system_reachable_ok _ _ Hs) as [Ht Hh Ho]. split; [done|]. split; [done|].
  intros i th Hi El Hm. unfold thread_step. rewrite El. unfold lock_access.
  pose proof (attempt_refused (mu s)) as Hr. destruct (attempt (mu s)) as [m []]; [by eexists _, _|].
  destruct (Hr eq_refl) as [Hr1 _]. congruence.
Qed.

(** Two threads on the flag lock, the first inside. *)
Definition two_threads : System CASLock :=
  mkSystem (mkCASLock true) [mkThread [DoUnlock; DoUnlock; Destroy] (Some true) false; mkThread [Destroy] (Some false) true].

Lemma scope_locks_exclude_witness :
  held (mu two_threads) = true ↔ ∃ i th, threads two_threads !! i = Some th ∧ holds th.
Proof.
  refine (proj1 (proj2 (scope_locks_exclude [[Construct; DoUnlock; DoUnlock; Destroy]; [Construct; Destroy]] two_threads _))).
  eapply rtc_l; [eapply (step_thread 0); reflexivity|]. eapply rtc_l; [eapply (step_thread 0); reflexivity|]. cbn.
  eapply rtc_l; [eapply (step_thread 1); reflexivity|]. eapply rtc_l; [eapply (step_thread 1); reflexivity|]. apply rtc_refl.
Defined.

(** [Semaphore::Wait] that a signal interrupts returns without a permit. *)
Lemma interrupted_Wait_returns : Wait true 0 = Some 0.
Proof. done. Qed.

End MutexProps.
