(* ===== verification/RWMutexProps.v ===== *)
(** * Properties of the reader-writer lock

    Write scope locks exclude each other and the readers in every interleaving,
    over any lock of the system that does what pthread documents. *)

From S2P Require Import Prelude Mutex MutexProps.
Import Mutex MutexProps.

Module RWMutexProps.

(** A lock of the system with a count of readers and a flag for the writer. *)
Record plain_rwlock := mkCounted { c_readers : nat; c_writer : bool }.

#[global] Instance plain_rwlock_lock : SystemRWLock plain_rwlock := {
  rwlock_init := mkCounted 0 false;
  rwlock_rdlock m := if c_writer m then (m, false) else (mkCounted (S (c_readers m)) false, true);
  rwlock_wrlock m := if c_writer m || negb (c_readers m =? 0) then (m, false) else (mkCounted 0 true, true);
  rwlock_unlock m := if c_writer m then mkCounted 0 false else mkCounted (pred (c_readers m)) false }.

#[global] Instance plain_rwlock_exclusive : RWExclusive (RWMutex plain_rwlock).
Proof.
  refine {| readers l := c_readers (rw_mu_ l); writer l := c_writer (rw_mu_ l) |}; [done|..]; intros [[n []]]; cbn;
    try destruct n; naive_solver lia.
Defined.

Section Exclusion.
Context {L : Type} `{EL : RWExclusive L}.

(** A reader waits only for a lock it does not hold. *)
Definition reader_ok (r : Reader) : Prop := rdlocking r = true → reading r = false.

Definition inside (rs : list Reader) : nat := length (filter (λ r, reading r = true) rs).

Record rw_ok (s : RWSystem L) : Prop := {
  rw_threads : Forall thread_ok (rw_writers s);
  rw_reader_threads : Forall reader_ok (rw_readers s);
  rw_writing : writer (rw_mu s) = true ↔ some_holds (rw_writers s);
  rw_one : one_holds (rw_writers s);
  rw_count : readers (rw_mu s) = inside (rw_readers s);
  rw_apart : writer (rw_mu s) = true → inside (rw_readers s) = 0 }.

Lemma inside_insert rs i r r' : rs !! i = Some r →
  inside (<[i := r']> rs) + (if reading r then 1 else 0) = inside rs + (if reading r' then 1 else 0).
Proof.
  intros Hi. unfold inside. rewrite <- (take_drop_middle rs i r Hi) at 2.
  rewrite insert_take_drop by (by eapply lookup_lt_Some). rewrite !filter_app, !length_app, !filter_cons. destruct (reading r), (reading r'); repeat case_decide; try done; cbn; lia.
Qed.

Lemma rw_ok_new rs ws : rw_ok (RWSystem_new rs ws).
Proof.
  destruct rw_init_free as [Hr Hw].
  assert (inside (rw_readers (RWSystem_new rs ws)) = 0) as Hin.
  { unfold inside. cbn. by induction rs; [|rewrite fmap_cons, filter_cons_False]. }
  split; [apply none_locking| | | | |done].
  - apply Forall_forall. intros r Hth. cbn in Hth. by apply list_elem_of_fmap in Hth as (p & -> & _).
  - cbn [rw_mu RWSystem_new]. rewrite Hw. split; [done|]. by intros Hx%none_holds.
  - intros i j th th' Hi _ Hh. destruct (none_holds ws). by exists i, th.
  - by rewrite Hin.
Qed.

Lemma reader_step_cases (m m' : L) r r' : reader_ok r → reader_step m r = Some (m', r') →
  reader_ok r' ∧
  ((reading r = false ∧ reading r' = true ∧ writer m = false ∧ writer m' = false ∧ readers m' = S (readers m)) ∨
   (reading r = reading r' ∧ writer m' = writer m ∧ readers m' = readers m) ∨
   (reading r = true ∧ reading r' = false ∧ m' = RWUnlock m)).
Proof.
  intros Hok. unfold reader_step, reader_ok in *. destruct (rdlocking r).
  - specialize (Hok eq_refl). unfold rdlock_access. pose proof (Rdlock_taken m) as Ht. pose proof (Rdlock_waits m) as Hw.
    destruct (Rdlock m) as [m1 []]; cbn in *; intros [= <- <-]; cbn; naive_solver.
  - destruct (reader_calls r) as [|[] rest], (reading r) eqn:E; try done; intros [= <- <-]; cbn; naive_solver.
Qed.

(** A reader's step, and a writer's. *)
Lemma rw_reader_ok i r r' m' (s : RWSystem L) : rw_ok s → rw_readers s !! i = Some r →
  reader_step (rw_mu s) r = Some (m', r') → rw_ok (mkRWSystem m' (<[i := r']> (rw_readers s)) (rw_writers s)).
Proof.
  intros [Ht Hrt Hw Ho Hc Ha] Hi Hs.
  assert (reader_ok r) as Hr by (rewrite Forall_lookup in Hrt; by eapply Hrt).
  destruct (reader_step_cases _ _ _ _ Hr Hs) as [Hr' Hcase]. pose proof (inside_insert (rw_readers s) i r r' Hi) as Hin.
  assert (writer m' = writer (rw_mu s) ∧ readers m' = inside (<[i:=r']> (rw_readers s)) ∧
    (writer m' = true → inside (<[i:=r']> (rw_readers s)) = 0)) as (Hm & Hm' & Hm'').
  { destruct Hcase as [(E & E' & E1 & E2 & E3)|[(E & E1 & E2)|(E & E' & ->)]].
    - rewrite E, E' in Hin. rewrite E1, E2. split; [done|]. split; [lia|done].
    - rewrite E in Hin. rewrite E1. split; [done|]. split; [lia|]. intros Hwr. specialize (Ha Hwr). lia.
    - rewrite E, E' in Hin. destruct (writer (rw_mu s)) eqn:Ew; [specialize (Ha eq_refl); lia|].
      destruct (RWUnlock_reader (rw_mu s) (inside (<[i:=r']> (rw_readers s))) Ew ltac:(lia)) as [-> ->]. done. }
  split; cbn [rw_mu rw_readers rw_writers]; [done| |by rewrite Hm|done..]. by apply Forall_insert.
Qed.

Lemma rw_writer_ok i th th' m' (s : RWSystem L) : rw_ok s → rw_writers s !! i = Some th →
  thread_step (H := write_side L) (rw_mu s) th = Some (m', th') →
  rw_ok (mkRWSystem m' (rw_readers s) (<[i := th']> (rw_writers s))).
Proof.
  intros [Ht Hrt Hw Ho Hc Ha] Hi Hs.
  assert (thread_ok th) as Hth by (rewrite Forall_lookup in Ht; by eapply Ht).
  destruct (thread_step_shape _ _ _ _ Hth Hs) as [Hok Hcase].
  assert (holds th → writer (rw_mu s) = true) as Hhw by (intros; apply Hw; by exists i, th).
  assert (Forall thread_ok (<[i := th']> (rw_writers s))) by by apply Forall_insert.
  cbn [attempt Unlock write_side] in Hcase.
  destruct Hcase as [(Hn & E & -> & Hh)|[(Hn & Hn' & Hm)|[(Hh & Hh' & ->)|(Hh & Hn' & ->)]]].
  - destruct (Wrlock_taken _ E) as (E1 & E2 & E3 & E4).
    destruct (pool_takes _ _ _ _ Hi (λ Hx, ltac:(apply Hw in Hx; congruence)) Hh). split; cbn [rw_mu rw_readers rw_writers]; rewrite ?E3; first [done|congruence|intros; congruence].
  - destruct (pool_same _ _ th th' Hi ltac:(tauto) Ho) as [Hs' ?].
    assert (writer m' = writer (rw_mu s) ∧ readers m' = readers (rw_mu s)) as [Em Er].
    { destruct Hm as [->|(E & ->)]; [done|]. by destruct (Wrlock_waits _ E) as (_ & -> & ->). }
    split; cbn [rw_mu rw_readers rw_writers]; rewrite ?Em, ?Er, ?Hs'; done.
  - destruct (pool_same _ _ th th' Hi ltac:(tauto) Ho) as [Hs' ?]. split; cbn [rw_mu rw_readers rw_writers]; rewrite ?Hs'; done.
  - destruct (RWUnlock_writer _ (Hhw Hh)) as [E1 E2]. specialize (Ha (Hhw Hh)).
    destruct (pool_drops _ _ _ _ Hi Hh Hn' Ho). split; cbn [rw_mu rw_readers rw_writers]; rewrite ?E1; try done; congruence.
Qed.

Lemma rw_reachable_ok rs ws (s : RWSystem L) : rtc rw_step (RWSystem_new rs ws) s → rw_ok s.
Proof.
  intros Hrun. apply (rtc_ind_r (R := rw_step) rw_ok (RWSystem_new rs ws)); [apply rw_ok_new| |done].
  intros s1 s2 _ Hs IH. destruct Hs; [by eapply rw_reader_ok|by eapply rw_writer_ok].
Qed.
End Exclusion.

(** [C28] A write scope lock excludes everybody: over any reader-writer lock, in
    every interleaving of threads that construct, lock, unlock and destroy their
    write scope locks in any order and of threads that read between [Rdlock] and
    [Unlock], at most one thread writes, nobody reads while it does, the lock
    counts exactly the threads that read, and a writer that waits while nobody
    writes or reads gets it with its next access. *)
Theorem write_locks_exclude {L} `{EL : RWExclusive L} rs ws (s : RWSystem L) :
  rtc rw_step (RWSystem_new rs ws) s →
  (∀ i j th th', rw_writers s !! i = Some th → rw_writers s !! j = Some th' → holds th → holds th' → i = j) ∧
  (∀ i j th r, rw_writers s !! i = Some th → rw_readers s !! j = Some r → holds th → reading r = false) ∧
  readers (rw_mu s) = length (filter (λ r, reading r = true) (rw_readers s)) ∧
  (∀ i th, rw_writers s !! i = Some th → locking th = true →
     Forall (λ th, ¬ holds th) (rw_writers s) → Forall (λ r, reading r = false) (rw_readers s) →
     ∃ mu' th', thread_step (H := write_side L) (rw_mu s) th = Some (mu', th') ∧ holds th').
Proof.
  intros Hs. destruct (rw_reachable_ok _ _ _ Hs) as [Ht Hrt Hw Ho Hc Ha]. split; [done|]. split; [|split; [done|]].
  - intros i j th r Hi Hj Hh. destruct (reading r) eqn:E; [|done]. exfalso.
    assert (inside (rw_readers s) = 0) as Hz by (apply Ha, Hw; by exists i, th).
    apply nil_length_inv in Hz. apply (list_elem_of_lookup_2) in Hj.
    assert (r ∈ filter (λ r, reading r = true) (rw_readers s)) as Hin by by apply list_elem_of_filter.
    rewrite Hz in Hin. by apply elem_of_nil in Hin.
  - intros i th Hi El Hwr Hrd. unfold thread_step. rewrite El. unfold lock_access. cbn [attempt write_side].
    pose proof (Wrlock_waits (rw_mu s)) as Hr. destruct (Wrlock (rw_mu s)) as [m []]; [by eexists _, _|]. exfalso.
    destruct (Hr eq_refl) as [[E|E] _].
    + apply Hw in E as (j & x & Hj & Hx). rewrite Forall_lookup in Hwr. by eapply Hwr.
    + rewrite Hc in E. unfold inside in E. destruct (filter _ _) as [|r l] eqn:Ef; [cbn in E; lia|].
      assert (r ∈ filter (λ r, reading r = true) (rw_readers s)) as Hin by (rewrite Ef; by left).
      apply list_elem_of_filter in Hin as [Hr1 Hr2]. rewrite Forall_forall in Hrd. apply Hrd in Hr2. congruence.
Qed.

(** A reader inside, and a writer that waits for it. *)
Definition reader_inside : RWSystem (RWMutex plain_rwlock) :=
  mkRWSystem (mkRWMutex (mkCounted 1 false)) [mkReader [CallUnlock] true false] [mkThread [Destroy] (Some false) true].

Lemma write_locks_exclude_witness :
  readers (rw_mu reader_inside) = length (filter (λ r, reading r = true) (rw_readers reader_inside)).
Proof.
  refine (proj1 (proj2 (proj2 (write_locks_exclude [[CallRdlock; CallUnlock]] [[Construct; Destroy]] reader_inside _)))).
  eapply rtc_l; [eapply (rw_step_reader 0); reflexivity|]. eapply rtc_l; [eapply (rw_step_reader 0); reflexivity|]. cbn.
  eapply rtc_l; [eapply (rw_step_writer 0); reflexivity|]. cbn.
  eapply rtc_l; [eapply (rw_step_writer 0); reflexivity|]. apply rtc_refl.
Defined.

End RWMutexProps.
