(* ===== verification/LockedObject.v ===== *)
(** * Objects whose operations hold a scope lock

    The pattern of the methods that begin with [ScopeLock l(mu_)]: each thread
    constructs the scope lock, runs the body of the operation one access of the
    object at a time, and destroys the scope lock at the end of the scope.  The
    object and its operations are given by an interface, which [Logger]
    implements in [ConcurrentLog.v]. *)

From S2P Require Import Prelude Mutex.
Import Mutex.

Module LockedObject.

(** The operations of an object: where the body of one starts, the next access
    of a body, [Ok None] when it is finished, and the whole operation when nothing
    happens in between. *)
Class Locked (Obj Op Body : Type) := {
  begin_body : Op → Body;
  body_step : Body → Obj → outcome (option (Obj * Body));
  op_run : Op → Obj → outcome Obj }.

Section Threads.
Context {L : Type} `{LL : Lockable L} {Obj Op Body : Type} `{LO : Locked Obj Op Body}.

(** A thread: its scope lock, the operations it has still to begin, and the body
    it is in. *)
Record LThread := mkLThread { scope : Thread; todo : list Op; body : option Body }.

(** The scope locks of a number of operations. *)
Definition scope_calls (n : nat) : list lock_call := concat (replicate n [Construct; Destroy]).

(** After the constructor has returned the body of the next operation begins. *)
Definition enter (sc : Thread) (ops : list Op) : LThread :=
  match is_locked_ sc, ops with
  | Some true, op :: ops => mkLThread sc ops (Some (begin_body op))
  | _, _ => mkLThread sc ops None
  end.

(** One step of a thread: of its scope lock outside of a body, an access of the
    object inside it, and the destructor of the scope lock at its end. *)
Definition lthread_step (mu : L) (obj : Obj) (t : LThread) : option (L * Obj * LThread) :=
  match body t with
  | None => '(mu, sc) ← thread_step mu (scope t); Some (mu, obj, enter sc (todo t))
  | Some b =>
      match body_step b obj with
      | Ok (Some (obj, b)) => Some (mu, obj, mkLThread (scope t) (todo t) (Some b))
      | Ok None => '(mu, sc) ← thread_step mu (scope t); Some (mu, obj, mkLThread sc (todo t) None)
      | _ => None
      end
  end.

(** The lock, the object and its threads. *)
Record LSystem := mkLSystem { lmu : L; object : Obj; lthreads : list LThread }.

Inductive lstep : LSystem → LSystem → Prop :=
| lstep_thread i t t' mu' obj' s : lthreads s !! i = Some t →
    lthread_step (lmu s) (object s) t = Some (mu', obj', t') →
    lstep s (mkLSystem mu' obj' (<[i := t']> (lthreads s))).

Definition LSystem_new (obj : Obj) (programs : list (list Op)) : LSystem :=
  mkLSystem initial obj ((λ p, mkLThread (mkThread (scope_calls (length p)) None false) p None) <$> programs).

(** The operations one after the other. *)
Fixpoint op_runs (l : list Op) (obj : Obj) : outcome Obj :=
  match l with [] => Ok obj | op :: l => obj ← op_run op obj; op_runs l obj end.

(** A thread that has run all its operations. *)
Definition finished (t : LThread) : Prop := todo t = [] ∧ body t = None ∧ calls (scope t) = [] ∧ is_locked_ (scope t) = None.
End Threads.
Arguments LThread Op Body : clear implicits.
Arguments mkLThread {Op Body}.
Arguments scope {Op Body}.
Arguments todo {Op Body}.
Arguments body {Op Body}.
Arguments finished {Op Body}.
Arguments LSystem L Obj Op Body : clear implicits.
Arguments mkLSystem {L Obj Op Body}.
Arguments lmu {L Obj Op Body}.
Arguments object {L Obj Op Body}.
Arguments lthreads {L Obj Op Body}.

(** An order of the elements of several lists that keeps the order of each. *)
Inductive interleaving {A : Type} : list (list A) → list A → Prop :=
| interleaving_nil ls : Forall (eq []) ls → interleaving ls []
| interleaving_cons ls i x l r : ls !! i = Some (x :: l) → interleaving (<[i := l]> ls) r → interleaving ls (x :: r).

End LockedObject.
