(* ===== verification/LockedObjectProps.v ===== *)
(** * Properties of objects whose operations hold a scope lock

    Over any exclusive lock the operations of any threads take effect as if each
    were one step: the object is always what the operations begun so far make of
    it one after the other, and every thread can finish. *)

From S2P Require Import Prelude Mutex MutexProps LockedObject.
Import Mutex MutexProps LockedObject.

Module LockedObjectProps.

(** ** Interleavings *)

(** The part of a history that belongs to one thread. *)
Definition ops_of {A} (i : nat) (h : list (nat * A)) : list A := (filter (λ x, x.1 = i) h).*2.

Lemma ops_of_cons {A} i j (x : A) h : ops_of i ((j, x) :: h) = if decide (j = i) then x :: ops_of i h else ops_of i h.
Proof. unfold ops_of. rewrite filter_cons. cbn. by destruct (decide (j = i)). Qed.
Lemma ops_of_snoc {A} i j (x : A) h : ops_of i (h ++ [(j, x)]) = ops_of i h ++ (if decide (j = i) then [x] else []).
Proof. unfold ops_of. rewrite filter_app, fmap_app. f_equal. rewrite filter_cons. cbn. by destruct (decide (j = i)). Qed.

Lemma interleaving_history {A} (h : list (nat * A)) : ∀ ls, Forall (λ x, x.1 < length ls) h →
  (∀ i l, ls !! i = Some l → ops_of i h = l) → interleaving ls h.*2.
Proof.
  induction h as [|[i x] h IH]; intros ls Hb Hls.
  - constructor. apply Forall_lookup. intros i l Hi. by apply Hls in Hi.
  - apply Forall_cons in Hb as [Hi Hb]. cbn in Hi. apply lookup_lt_is_Some in Hi as [l Hi].
    pose proof (Hls _ _ Hi) as E. rewrite ops_of_cons, decide_True in E by done. cbn [fmap list_fmap snd].
    eapply interleaving_cons; [rewrite Hi, <- E; done|]. apply IH.
    + eapply Forall_impl; [done|]. intros y. by rewrite length_insert.
    + intros j l' Hj. destruct (decide (j = i)) as [->|Hne].
      * rewrite list_lookup_insert_eq in Hj by (by eapply lookup_lt_Some). by injection Hj.
      * rewrite list_lookup_insert_ne in Hj by done. apply Hls in Hj.
        by rewrite ops_of_cons, decide_False in Hj.
Qed.

Lemma interleaving_fmap {A B} (f : A → B) (r : list B) : ∀ ls : list (list A), interleaving (fmap (M := list) f <$> ls) r →
  ∃ l : list A, r = f <$> l ∧ interleaving ls l.
Proof.
  induction r as [|y r IH]; intros ls Hr; inversion Hr as [? Hn|? i x l ? Hi Hl]; subst.
  - exists []. split; [done|]. constructor. rewrite Forall_fmap in Hn. eapply Forall_impl; [exact Hn|]. intros [|x l] Hx; [done|]. by cbn in Hx.
  - rewrite list_lookup_fmap in Hi. apply fmap_Some in Hi as (k & Hk & E). destruct k as [|z k]; [done|].
    injection E as -> ->. rewrite <- list_fmap_insert in Hl. destruct (IH _ Hl) as (l' & -> & Hl').
    exists (z :: l'). split; [done|]. by eapply interleaving_cons.
Qed.

Lemma interleaving_in {A} (r : list A) : ∀ ls x, interleaving ls r → x ∈ r → ∃ l, l ∈ ls ∧ x ∈ l.
Proof.
  induction r as [|y r IH]; intros ls x Hr Hx; [by apply elem_of_nil in Hx|].
  inversion Hr as [|? i ? l ? Hi Hl]; subst. apply elem_of_cons in Hx as [->|Hx].
  - exists (y :: l). split; [by eapply list_elem_of_lookup_2|by left].
  - destruct (IH _ _ Hl Hx) as (k & Hk & Hxk). apply list_elem_of_lookup in Hk as [j Hj].
    destruct (decide (j = i)) as [->|Hne].
    + rewrite list_lookup_insert_eq in Hj by (by eapply lookup_lt_Some). injection Hj as ->.
      exists (y :: k). split; [by eapply list_elem_of_lookup_2|by right].
    + rewrite list_lookup_insert_ne in Hj by done. exists k. split; [by eapply list_elem_of_lookup_2|done].
Qed.

(** ** Bodies *)

Section Laws.
Context {Obj Op Body : Type} `{Locked Obj Op Body}.

Definition bstep (x y : Body * Obj) : Prop := body_step x.1 x.2 = Ok (Some (y.2, y.1)).

(** A body that is left alone does what the operation does. *)
Class LockedLaws := {
  body_finishes op o o' : op_run op o = Ok o' →
    ∃ b, rtc bstep (begin_body op, o) (b, o') ∧ body_step b o' = Ok None;
  body_finished op o b o' : rtc bstep (begin_body op, o) (b, o') → body_step b o' = Ok None → op_run op o = Ok o' }.

Lemma op_runs_snoc l op o : op_runs (l ++ [op]) o = (o ← op_runs l o; op_run op o).
Proof.
  revert o. induction l as [|a l IH]; intros o; cbn; [by destruct (op_run op o)|].
  destruct (op_run a o); cbn; [apply IH|done..].
Qed.
End Laws.
Arguments LockedLaws Obj Op Body {_}.

(** ** The invariant *)

Section Linearization.
Context {L : Type} `{EL : Exclusive L} {Obj Op Body : Type} `{BL : LockedLaws Obj Op Body}.
Context (obj0 : Obj) (programs : list (list Op)).
#[local] Abbreviation St := (LSystem L Obj Op Body).

(** How the scope lock of a thread, its body and what it has to do fit together. *)
Definition shape (t : LThread Op Body) : Prop :=
  match body t with
  | Some _ => scope t = mkThread (Destroy :: scope_calls (length (todo t))) (Some true) false
  | None => scope t = mkThread (scope_calls (length (todo t))) None false ∨
      ∃ n, length (todo t) = S n ∧ scope t = mkThread (Destroy :: scope_calls n) (Some false) true
  end.

Definition locks (s : St) : System L := mkSystem (lmu s) (scope <$> lthreads s).

Definition outside (l : list (LThread Op Body)) : Prop := ∀ i t, l !! i = Some t → body t = None.

(** The object is what the history makes of it, but for the body that is running. *)
Inductive object_ok (s : St) (h : list (nat * Op)) : Prop :=
| object_quiet : outside (lthreads s) → op_runs h.*2 obj0 = Ok (object s) → object_ok s h
| object_busy i t b h' op o : lthreads s !! i = Some t → body t = Some b → h = h' ++ [(i, op)] →
    (∀ j t', j ≠ i → lthreads s !! j = Some t' → body t' = None) →
    op_runs h'.*2 obj0 = Ok o → rtc bstep (begin_body op, o) (b, object s) → object_ok s h.

Record lin (s : St) (h : list (nat * Op)) : Prop := {
  lin_shape : Forall shape (lthreads s);
  lin_locks : system_ok (locks s);
  lin_threads : length (lthreads s) = length programs;
  lin_bound : Forall (λ x, x.1 < length programs) h;
  lin_order : ∀ i t p, lthreads s !! i = Some t → programs !! i = Some p → ops_of i h ++ todo t = p;
  lin_object : object_ok s h }.

Lemma shape_holds t : shape t → holds (scope t) ↔ is_Some (body t).
Proof.
  unfold shape, holds. destruct (body t) as [b|].
  - intros ->. split; [by eexists|done].
  - intros [->|(n & _ & ->)]; (split; [done|by intros []]).
Qed.

Lemma lin_new : lin (LSystem_new obj0 programs) [].
Proof.
  assert (∀ i t, lthreads (LSystem_new (L := L) (Body := Body) obj0 programs) !! i = Some t →
    ∃ p, programs !! i = Some p ∧ t = mkLThread (mkThread (scope_calls (length p)) None false) p None) as Hn.
  { intros i t Hi. cbn in Hi. rewrite list_lookup_fmap in Hi. apply fmap_Some in Hi as (p & Hp & ->). by exists p. }
  split.
  - apply Forall_lookup. intros i t (p & _ & ->)%Hn. by left.
  - replace (locks _) with (System_new (L := L) ((λ p, scope_calls (length p)) <$> programs)); [apply system_ok_new|].
    unfold locks, System_new, LSystem_new. cbn. f_equal. rewrite <- !list_fmap_compose. done.
  - cbn. apply length_fmap.
  - constructor.
  - intros i t p (q & Hq & ->)%Hn Hp. cbn. congruence.
  - apply object_quiet; [|done]. by intros i t (p & _ & ->)%Hn.
Qed.

(** Nobody is inside a body while the lock is free. *)
Lemma free_outside s h : lin s h → held (lmu s) = false → outside (lthreads s).
Proof.
  intros [Hsh [_ Hh _] _ _ _ _] Hf i t Hi. destruct (body t) as [b|] eqn:E; [|done]. exfalso.
  assert (held (lmu s) = true); [|congruence]. apply Hh. exists i, (scope t). cbn. rewrite list_lookup_fmap, Hi.
  split; [done|]. rewrite Forall_lookup in Hsh. apply (shape_holds t); [by eapply Hsh|by rewrite E].
Qed.

(** What one step of a thread does: it waits, begins an operation, makes an access
    or ends. *)
Inductive lthread_case (mu : L) (obj : Obj) (t : LThread Op Body) (obj' : Obj) (t' : LThread Op Body) : Prop :=
| case_wait : body t = None → body t' = None → todo t' = todo t → obj' = obj → lthread_case mu obj t obj' t'
| case_begin op : body t = None → todo t = op :: todo t' → body t' = Some (begin_body op) → obj' = obj →
    held mu = false → lthread_case mu obj t obj' t'
| case_access b b' : body t = Some b → body t' = Some b' → todo t' = todo t → body_step b obj = Ok (Some (obj', b')) →
    lthread_case mu obj t obj' t'
| case_end b : body t = Some b → body t' = None → todo t' = todo t → body_step b obj = Ok None → obj' = obj →
    lthread_case mu obj t obj' t'.

Lemma lthread_step_cases mu obj t mu' obj' t' : shape t → lthread_step mu obj t = Some (mu', obj', t') →
  shape t' ∧ lthread_case mu obj t obj' t' ∧
  (thread_step mu (scope t) = Some (mu', scope t') ∨ mu' = mu ∧ scope t' = scope t).
Proof.
  intros Hsh. unfold lthread_step. unfold shape in Hsh. destruct (body t) as [b|] eqn:Eb.
  - destruct (body_step b obj) as [[[o b']|]| | |] eqn:Es; [..|done|done|done].
    + intros [= <- <- <-]. unfold shape. cbn. split; [done|]. split; [by eapply case_access|by right].
    + rewrite Hsh. cbn. intros [= <- <- <-]. unfold shape. cbn. split; [by left|].
      split; [by eapply case_end|by left].
  - destruct Hsh as [E|(n & En & E)]; rewrite E.
    + destruct (todo t) as [|op ops] eqn:Et; [done|]. cbn. intros [= <- <- <-]. cbn. split; [right; by eexists|].
      split; [by eapply case_wait|by left].
    + destruct (todo t) as [|op ops] eqn:Et; [done|]. injection En as En.
      unfold thread_step. cbn [locking]. unfold lock_access. pose proof (attempt_taken mu) as Ht.
      destruct (attempt mu) as [m1 []]; cbn in *; intros [= <- <- <-]; cbn.
      * destruct (Ht eq_refl) as [Hf _]. unfold enter, shape. cbn. split; [by rewrite En|].
        split; [by eapply case_begin|by left].
      * unfold enter, shape. cbn. split; [right; exists n; by rewrite En|].
        split; [by eapply case_wait|by left].
Qed.

Lemma outside_insert (l : list (LThread Op Body)) i t t' : l !! i = Some t → body t' = None →
  (∀ j u, j ≠ i → l !! j = Some u → body u = None) → outside (<[i := t']> l).
Proof.
  intros Hi Ht' Ho j u Hj. destruct (decide (j = i)) as [->|Hne].
  - rewrite list_lookup_insert_eq in Hj by (by eapply lookup_lt_Some). by injection Hj as <-.
  - rewrite list_lookup_insert_ne in Hj by done. by eapply Ho.
Qed.

(** The thread that is inside is the one whose body runs. *)
Lemma object_inside s h i t b : object_ok s h → lthreads s !! i = Some t → body t = Some b →
  ∃ h' op o, h = h' ++ [(i, op)] ∧ (∀ j u, j ≠ i → lthreads s !! j = Some u → body u = None) ∧
    op_runs h'.*2 obj0 = Ok o ∧ rtc bstep (begin_body op, o) (b, object s).
Proof.
  intros Hobj Hi Hb. destruct Hobj as [Hout _|k u b' h' op o Hk Hub -> Hothers Hr Hrtc].
  - apply Hout in Hi. congruence.
  - destruct (decide (i = k)) as [->|Hne]; [|apply Hothers in Hi; [congruence|done]].
    assert (u = t) as -> by congruence. assert (b' = b) as -> by congruence. by exists h', op, o.
Qed.

Lemma object_step s h i t t' mu' obj' : lin s h → lthreads s !! i = Some t →
  lthread_case (lmu s) (object s) t obj' t' →
  ∃ h', object_ok (mkLSystem mu' obj' (<[i := t']> (lthreads s))) h' ∧
    (h' = h ∧ todo t = todo t' ∨ ∃ op, h' = h ++ [(i, op)] ∧ todo t = op :: todo t').
Proof.
  intros Hl Hi Hc. pose proof (lin_object _ _ Hl) as Hobj.
  assert (<[i := t']> (lthreads s) !! i = Some t') as Hi' by (apply list_lookup_insert_eq; by eapply lookup_lt_Some).
  destruct Hc as [Hb Hb' Htd ->|op Hb Htd Hb' -> Hf|b b' Hb Hb' Htd Hs|b Hb Hb' Htd Hs ->].
  - exists h. split; [|by left]. destruct Hobj as [Hout Hr|k u b h' op o Hk Hub -> Hothers Hr Hrtc].
    + apply object_quiet; [|done]. eapply outside_insert; [done..|]. intros j u _. apply Hout.
    + assert (k ≠ i) by congruence. eapply (object_busy _ _ k u b h' op o); try done; cbn; [by rewrite list_lookup_insert_ne|].
      intros j v Hj Hv. destruct (decide (j = i)) as [->|]; [congruence|].
      rewrite list_lookup_insert_ne in Hv by done. by eapply Hothers.
  - exists (h ++ [(i, op)]). split; [|right; by exists op]. pose proof (free_outside _ _ Hl Hf) as Hout.
    destruct Hobj as [_ Hr|k u b h' op' o Hk Hub _ _ _ _]; [|apply Hout in Hk; congruence].
    eapply (object_busy _ _ i t' _ h op); try done.
    intros j u Hj Hu. cbn in Hu. rewrite list_lookup_insert_ne in Hu by done. by eapply Hout.
  - exists h. split; [|by left]. destruct (object_inside _ _ _ _ _ Hobj Hi Hb) as (h' & op & o & -> & Hothers & Hr & Hrtc).
    eapply (object_busy _ _ i t' _ h' op); try done.
    + intros j u Hj Hu. cbn in Hu. rewrite list_lookup_insert_ne in Hu by done. by eapply Hothers.
    + cbn. by eapply rtc_r.
  - exists h. split; [|by left]. destruct (object_inside _ _ _ _ _ Hobj Hi Hb) as (h' & op & o & -> & Hothers & Hr & Hrtc).
    apply object_quiet; [by eapply outside_insert|]. cbn. rewrite fmap_app. cbn. rewrite op_runs_snoc, Hr. cbn.
    by eapply body_finished.
Qed.

Lemma lin_step s s' h : lin s h → lstep s s' → ∃ h', lin s' h'.
Proof.
  intros Hl. destruct 1 as [i t t' mu' obj' s Hi Hs]. pose proof Hl as [Hsh Hlk Hn Hb Hord Hobj].
  assert (shape t) as Ht by (rewrite Forall_lookup in Hsh; by eapply Hsh).
  destruct (lthread_step_cases _ _ _ _ _ _ Ht Hs) as (Ht' & Hc & Hsc).
  set (s' := mkLSystem mu' obj' (<[i:=t']> (lthreads s))).
  assert (i < length programs) as Hilt by (rewrite <- Hn; by eapply lookup_lt_Some).
  assert (Forall shape (lthreads s')) by by apply Forall_insert.
  assert (length (lthreads s') = length programs) by (cbn; by rewrite length_insert).
  assert (system_ok (locks s')) as Hlk'.
  { unfold locks. cbn. destruct Hsc as [Hsc|[-> Esc]].
    - rewrite list_fmap_insert. eapply step_ok; [exact Hlk|]. unfold locks. eapply step_thread; [|exact Hsc].
      cbn. by rewrite list_lookup_fmap, Hi.
    - rewrite list_fmap_insert, Esc, list_insert_id; [done|]. by rewrite list_lookup_fmap, Hi. }
  destruct (object_step _ _ _ _ _ mu' _ Hl Hi Hc) as (h' & Hobj' & Hh). exists h'. split; [done..| | |done].
  - destruct Hh as [[-> _]|(op & -> & _)]; [done|]. apply Forall_app. split; [done|]. by constructor.
  - intros j u p Hj Hp. cbn in Hj. destruct (decide (j = i)) as [->|Hne].
    + rewrite list_lookup_insert_eq in Hj by (by eapply lookup_lt_Some). injection Hj as <-.
      rewrite <- (Hord _ _ _ Hi Hp). destruct Hh as [[-> ->]|(op & -> & ->)]; [done|].
      by rewrite ops_of_snoc, decide_True, <- app_assoc.
    + rewrite list_lookup_insert_ne in Hj by done. rewrite <- (Hord _ _ _ Hj Hp).
      destruct Hh as [[-> _]|(op & -> & _)]; [done|]. by rewrite ops_of_snoc, decide_False, app_nil_r.
Qed.

Lemma lin_reachable s : rtc lstep (LSystem_new obj0 programs) s → ∃ h, lin s h.
Proof.
  intros Hrun. apply (rtc_ind_r (R := lstep) (λ s, ∃ h, lin s h) (LSystem_new obj0 programs)); [|..|done].
  - exists []. apply lin_new.
  - intros s1 s2 _ Hs (h & Hl). by eapply lin_step.
Qed.

(** The state seen from outside: with no body running the object is what the
    history makes of it. *)
Lemma lin_outside s h : lin s h → outside (lthreads s) → op_runs h.*2 obj0 = Ok (object s).
Proof.
  intros Hl Hout. destruct (lin_object _ _ Hl) as [_ Hr|k u b h' op o Hk Hub _ _ _ _]; [done|].
  apply Hout in Hk. congruence.
Qed.

(** When every thread has finished the history is an interleaving of the programs. *)
Lemma lin_finished s h : lin s h → Forall finished (lthreads s) →
  interleaving programs h.*2 ∧ op_runs h.*2 obj0 = Ok (object s).
Proof.
  intros Hl Hf. rewrite Forall_lookup in Hf. split.
  - apply interleaving_history; [apply Hl|]. intros i p Hp.
    destruct (lthreads s !! i) as [t|] eqn:Hi.
    + rewrite <- (lin_order _ _ Hl _ _ _ Hi Hp). destruct (Hf _ _ Hi) as (-> & _). by rewrite app_nil_r.
    + apply lookup_ge_None in Hi. apply lookup_lt_Some in Hp. rewrite (lin_threads _ _ Hl) in Hi. lia.
  - apply lin_outside; [done|]. intros i t Hi. by destruct (Hf _ _ Hi) as (_ & ? & _).
Qed.

(** ** Every thread can finish *)

Lemma bstep_confluent (x y z : Body * Obj) : rtc bstep x y → rtc bstep x z → body_step z.1 z.2 = Ok None → rtc bstep y z.
Proof.
  intros Hxy. revert z. induction Hxy as [x|x x1 y Hs _ IH]; intros z Hxz Hz; [done|]. apply IH; [|done].
  destruct Hxz as [x|x x2 z Hs' Hr]; unfold bstep in *; [congruence|].
  destruct x1, x2. cbn in *. rewrite Hs in Hs'. by injection Hs' as -> ->.
Qed.

Lemma lift_body (mu : L) (ts : list (LThread Op Body)) i t x y : ts !! i = Some t → rtc bstep x y →
  rtc lstep (mkLSystem mu x.2 (<[i := mkLThread (scope t) (todo t) (Some x.1)]> ts))
    (mkLSystem mu y.2 (<[i := mkLThread (scope t) (todo t) (Some y.1)]> ts)).
Proof.
  intros Hi. induction 1 as [x|x1 x2 y Hs _ IH]; [done|]. eapply rtc_l; [|exact IH].
  rewrite <- (list_insert_insert_eq ts i (mkLThread (scope t) (todo t) (Some x2.1)) (mkLThread (scope t) (todo t) (Some x1.1))).
  eapply (lstep_thread i). { apply list_lookup_insert_eq. by eapply lookup_lt_Some. }
  unfold lthread_step. cbn. by rewrite Hs.
Qed.

Definition pending (s : St) : nat := sum_list_with (λ t, length (todo t)) (lthreads s).

Lemma pending_insert (l : list (LThread Op Body)) i t t' : l !! i = Some t →
  sum_list_with (λ t, length (todo t)) (<[i := t']> l) + length (todo t) =
  sum_list_with (λ t, length (todo t)) l + length (todo t').
Proof.
  intros Hi. rewrite <- (take_drop_middle l i t Hi) at 2.
  rewrite insert_take_drop by (by eapply lookup_lt_Some). rewrite !sum_list_with_app. cbn. lia.
Qed.

(** An operation of some program. *)
Definition asked (op : Op) : Prop := ∃ p, p ∈ programs ∧ op ∈ p.

(** An invariant under which the operations are defined. *)
Context (I : Obj → Prop).
Hypothesis I_obj0 : I obj0.
Hypothesis I_run : ∀ op o, asked op → I o → ∃ o', op_run op o = Ok o' ∧ I o'.

Lemma lin_ops s h : lin s h → Forall (λ op, asked op) h.*2.
Proof.
  intros Hl. apply Forall_fmap, Forall_forall. intros [i op] Hin. cbn.
  pose proof (lin_bound _ _ Hl) as Hb. rewrite Forall_forall in Hb. specialize (Hb _ Hin). cbn in Hb.
  apply lookup_lt_is_Some in Hb as [p Hp]. assert (i < length (lthreads s)) as Hlt
    by (rewrite (lin_threads _ _ Hl); by eapply lookup_lt_Some).
  apply lookup_lt_is_Some in Hlt as [t Ht]. pose proof (lin_order _ _ Hl _ _ _ Ht Hp) as E.
  exists p. split; [by eapply list_elem_of_lookup_2|]. rewrite <- E. apply elem_of_app. left.
  unfold ops_of. apply list_elem_of_fmap. exists (i, op). split; [done|]. by apply list_elem_of_filter.
Qed.

Lemma op_runs_I l o o' : Forall (λ op, asked op) l → I o → op_runs l o = Ok o' → I o'.
Proof.
  intros Hl. revert o. induction Hl as [|op l Hop _ IH]; intros o Ho; cbn; [by intros [= <-]|].
  destruct (I_run op o Hop Ho) as (o1 & -> & Ho1). by apply IH.
Qed.

Lemma rtc_lin s s' h : lin s h → rtc lstep s s' → ∃ h', lin s' h'.
Proof. intros Hl Hr. revert h Hl. induction Hr as [s|s1 s2 s3 Hs _ IH]; intros h Hl; [by eexists|].
  destruct (lin_step _ _ _ Hl Hs) as [h' Hl']. by eapply IH. Qed.

(** The thread that is inside gets out. *)
Lemma finish_inside s h i t b : lin s h → lthreads s !! i = Some t → body t = Some b →
  ∃ s', rtc lstep s s' ∧ outside (lthreads s') ∧ pending s' = pending s.
Proof.
  intros Hl Hi Hb. destruct (object_inside _ _ _ _ _ (lin_object _ _ Hl) Hi Hb) as (h' & op & o & -> & Ho & Hr & Hrtc).
  pose proof (lin_ops _ _ Hl) as Hops. rewrite fmap_app in Hops. apply Forall_app in Hops as [Hops Hop].
  cbn in Hop. apply Forall_inv in Hop. destruct (I_run op o Hop (op_runs_I _ _ _ Hops I_obj0 Hr)) as (o' & Hrun & _).
  apply body_finishes in Hrun as (b' & Hrtc' & Hend). pose proof (bstep_confluent _ _ _ Hrtc Hrtc' Hend) as Hrest.
  assert (scope t = mkThread (Destroy :: scope_calls (length (todo t))) (Some true) false) as Hsc.
  { pose proof (lin_shape _ _ Hl) as Hsh. rewrite Forall_lookup in Hsh. specialize (Hsh _ _ Hi). unfold shape in Hsh.
    by rewrite Hb in Hsh. }
  set (t' := mkLThread (mkThread (scope_calls (length (todo t))) None false) (todo t) (None (A := Body))).
  exists (mkLSystem (Unlock (lmu s)) o' (<[i := t']> (lthreads s))). split; [|split].
  - pose proof (lift_body (lmu s) (lthreads s) i t _ _ Hi Hrest) as Hlift. cbn [fst snd] in Hlift.
    assert (mkLThread (scope t) (todo t) (Some b) = t) as Et by (destruct t; cbn in *; congruence).
    rewrite Et, list_insert_id in Hlift by done. replace (mkLSystem (lmu s) (object s) (lthreads s)) with s in Hlift by by destruct s.
    eapply rtc_r; [exact Hlift|].
    rewrite <- (list_insert_insert_eq (lthreads s) i t' (mkLThread (scope t) (todo t) (Some b'))).
    eapply (lstep_thread i). { apply list_lookup_insert_eq. by eapply lookup_lt_Some. }
    unfold lthread_step. cbn. rewrite Hend, Hsc. done.
  - by eapply outside_insert.
  - unfold pending. cbn. pose proof (pending_insert (lthreads s) i t t' Hi). cbn in *. lia.
Qed.

(** With nobody inside, a thread with something to do gets the lock. *)
Lemma enter_outside s h i t op ops : lin s h → outside (lthreads s) → lthreads s !! i = Some t → todo t = op :: ops →
  ∃ s', rtc lstep s s' ∧ pending s' < pending s.
Proof.
  intros Hl Hout Hi Etd.
  assert (held (lmu s) = false) as Hf.
  { destruct (held (lmu s)) eqn:E; [|done]. exfalso. apply (so_held _ (lin_locks _ _ Hl)) in E as (k & sc & Hk & Hh).
    cbn in Hk. rewrite list_lookup_fmap in Hk. apply fmap_Some in Hk as (u & Hu & ->).
    pose proof (lin_shape _ _ Hl) as Hsh. rewrite Forall_lookup in Hsh. apply (shape_holds u) in Hh; [|by eapply Hsh].
    apply Hout in Hu. rewrite Hu in Hh. by destruct Hh. }
  set (tl := mkLThread (mkThread (Destroy :: scope_calls (length ops)) (Some false) true) (op :: ops) (None (A := Body))).
  set (sl := mkLSystem (lmu s) (object s) (<[i := tl]> (lthreads s))).
  assert (rtc lstep s sl) as Hsl.
  { pose proof (lin_shape _ _ Hl) as Hsh. rewrite Forall_lookup in Hsh. specialize (Hsh _ _ Hi).
    pose proof (Hout _ _ Hi) as Hb. unfold shape in Hsh. rewrite Hb, Etd in Hsh. destruct Hsh as [Hsc|(n & [= <-] & Hsc)].
    - apply rtc_once. eapply (lstep_thread i); [done|]. unfold lthread_step. by rewrite Hb, Hsc, Etd.
    - assert (t = tl) as -> by (unfold tl; destruct t; cbn in *; by subst). unfold sl. rewrite list_insert_id by done.
      by destruct s. }
  pose proof (attempt_refused (lmu s)) as Hr. destruct (attempt (lmu s)) as [m []] eqn:Ea.
  2: { destruct (Hr eq_refl) as [? _]. congruence. }
  eexists. split; [eapply rtc_r; [exact Hsl|]; eapply (lstep_thread i tl); [|]|].
  - apply list_lookup_insert_eq. by eapply lookup_lt_Some.
  - unfold lthread_step. cbn. unfold thread_step. cbn. unfold lock_access. rewrite Ea. done.
  - unfold pending. cbn. rewrite list_insert_insert_eq.
    match goal with |- context [<[i := ?x]> _] => pose proof (pending_insert (lthreads s) i t x Hi) as E end.
    rewrite Etd in E. cbn in E. lia.
Qed.

Lemma lin_progress s h : lin s h → ∃ s', rtc lstep s s' ∧ Forall finished (lthreads s').
Proof.
  remember (pending s) as n eqn:En. revert s h En. induction (lt_wf n) as [n _ IH]. intros s h -> Hl.
  assert (∃ s1, rtc lstep s s1 ∧ outside (lthreads s1) ∧ pending s1 = pending s) as (s1 & Hs1 & Hout & Hp).
  { destruct (lin_object _ _ Hl) as [Hout _|k u b h' op o Hk Hub _ _ _ _]; [by exists s|by eapply finish_inside]. }
  destruct (rtc_lin _ _ _ Hl Hs1) as [h1 Hl1].
  destruct (decide (Forall (λ t, todo t = []) (lthreads s1))) as [Hd|Hd].
  - exists s1. split; [done|]. apply Forall_lookup. intros i t Hi. rewrite Forall_lookup in Hd.
    pose proof (lin_shape _ _ Hl1) as Hsh. rewrite Forall_lookup in Hsh. specialize (Hsh _ _ Hi). unfold shape in Hsh.
    rewrite (Hout _ _ Hi), (Hd _ _ Hi) in Hsh. destruct Hsh as [Hsc|(n & [=] & _)]. unfold finished.
    rewrite (Hout _ _ Hi), (Hd _ _ Hi), Hsc. done.
  - apply not_Forall_Exists, Exists_exists in Hd as (t & Ht & Hne); [|apply _].
    apply list_elem_of_lookup in Ht as [i Hi]. destruct (todo t) as [|op ops] eqn:Etd; [done|].
    destruct (enter_outside _ _ _ _ _ _ Hl1 Hout Hi Etd) as (s2 & Hs2 & Hlt).
    destruct (rtc_lin _ _ _ Hl1 Hs2) as [h2 Hl2]. rewrite Hp in Hlt.
    destruct (IH _ Hlt s2 h2 eq_refl Hl2) as (s3 & Hs3 & Hf). exists s3. split; [|done].
    by rewrite Hs1, Hs2.
Qed.
End Linearization.
End LockedObjectProps.
