(* ===== verification/ConcurrentLog.v ===== *)
(** * Loggers used by several threads

    The methods of [Logger] of [src/log.cc] as threads run them: each constructs a
    scope lock on [mu_], goes through [appenders_] one element at a time and
    destroys it.  What an appender makes of a text is in [LogFile.v]; here are any number of
    them on one file system. *)

From S2P Require Import Prelude CStr Log LogFile Mutex LockedObject.
Import CStr Log LockedObject.

Module ConcurrentLog.

(** What can be seen of an operation: a text given to an appender, an appender
    flushed, a line on the standard output. *)
Inductive effect := Wrote (it : nat) (text : str) | Flushed (it : nat) | Printed (text : str).

(** The logger, and what its operations have done so far. *)
Record LogObject := mkLogObject { logger : Logger; effects : list effect }.

(** The methods that take the lock. *)
Inductive LogOp :=
| OpAddAppender (item : nat)
| OpDelAppender (item : nat)
| OpLog (event : LogEvent)
| OpFlush (event : LogEvent)
| OpCheckAppenders.

(** Where a thread is in a method: before [push_back], in the [for] of an
    operation with its iterator at a position, or at the end. *)
Inductive LogBody := AtPush (item : nat) | AtFor (op : LogOp) (pos : nat) | AtEnd.

Definition log_begin (op : LogOp) : LogBody :=
  match op with OpAddAppender item => AtPush item | _ => AtFor op 0 end.

Definition add_effects (o : LogObject) (l : list effect) : LogObject := mkLogObject (logger o) (effects o ++ l).

Section Methods.
Context (strftime : str → Z → option str) (appender : nat → Appender).

(** The body of the loop of an operation, for one appender. *)
Definition visit (op : LogOp) (lg : Logger) (it : nat) : outcome (list effect) :=
  match op with
  | OpAddAppender _ => Ok []
  | OpDelAppender item => if decide (it = item) then Undef "increment of an erased iterator" else Ok []
  | OpLog event =>
      if enabled (max_level_ lg) (level_ event)
      then s ← Format strftime (formatter_ (appender it)) event; Ok [Wrote it s]
      else Ok []
  | OpFlush event => Ok (if enabled (max_level_ lg) (level_ event) then [Flushed it] else [])
  | OpCheckAppenders => Ok [Printed (GetAppenderName (appender it) ++ [lf])]
  end.

(** One access of the logger. *)
Definition log_step (b : LogBody) (o : LogObject) : outcome (option (LogObject * LogBody)) :=
  match b with
  | AtPush item => Ok (Some (mkLogObject (AddAppender item (logger o)) (effects o), AtEnd))
  | AtFor op pos =>
      match appenders_ (logger o) !! pos with
      | None => Ok None
      | Some it => l ← visit op (logger o) it; Ok (Some (add_effects o l, AtFor op (S pos)))
      end
  | AtEnd => Ok None
  end.

(** The methods as one step. *)
Definition log_run (op : LogOp) (o : LogObject) : outcome LogObject :=
  match op with
  | OpAddAppender item => Ok (mkLogObject (AddAppender item (logger o)) (effects o))
  | OpDelAppender item => lg ← DelAppender item (logger o); Ok (mkLogObject lg (effects o))
  | OpLog event => outs ← Logger_Log strftime appender (logger o) event; Ok (add_effects o (uncurry Wrote <$> outs))
  | OpFlush event => Ok (add_effects o (Flushed <$> Logger_Flush (logger o) event))
  | OpCheckAppenders =>
      Ok (add_effects o ((λ it, Printed (GetAppenderName (appender it) ++ [lf])) <$> appenders_ (logger o)))
  end.

(** What the effects put on the standard output. *)
Definition std_output (l : list effect) : str :=
  flat_map (λ e, match e with
    | Wrote it text => match sink (appender it) with LogAppenderToStd => text | LogAppenderToFile _ => [] end
    | Flushed _ => []
    | Printed text => text
    end) l.

Definition logger_locked : Locked LogObject LogOp LogBody := {|
  begin_body := log_begin; body_step := log_step; op_run := log_run |}.
End Methods.

Section File.
Context (creatable openable : str → bool) (appender : nat → Appender).

(** The file appenders that have been made, each with its own stream, and the file
    system they share. *)
Definition Files : Type := gmap nat LogFile.LogAppenderToFile * LogFile.FS.

(** An appender is constructed. *)
Definition make_appender (st : Files) (it : nat) : Files :=
  match sink (appender it) with
  | LogAppenderToStd => st
  | LogAppenderToFile filename =>
      let '(a, fs) := LogFile.LogAppenderToFile_new creatable openable filename st.2 in
      (<[it := a]> st.1, fs)
  end.

(** What the appenders do with the effects, in their order. *)
Definition append_to (st : Files) (e : effect) : Files :=
  match e with
  | Wrote it s =>
      match st.1 !! it with
      | Some a => let '(a, fs) := LogFile.Log creatable openable s a st.2 in (<[it := a]> st.1, fs)
      | None => st
      end
  | Flushed _ | Printed _ => st
  end.
End File.

End ConcurrentLog.
