(* ===== verification/ConcurrentLogProps.v ===== *)
(** * Properties of loggers used by several threads

    The methods of a logger take effect as if each were one step, every thread
    can finish, and the file of an appender that no other appender has contains whole
    messages. *)

From S2P Require Import Prelude CStr Log LogProps LogFile LogFileProps Mutex MutexProps LockedObject LockedObjectProps ConcurrentLog.
Import CStr Log LogFile(FS, LogAppenderToFile_new, parent_path, names, files).
Import LogFileProps(Message, happen, spec, content, happen_tracks, new_tracks, tracks, fs_ok, fs_bound, apart,
  acts_Log, acts_Reopen, acts_apart, acts_stays_apart, acts_keeps_apart, acts_apart_third).
Import Mutex MutexProps LockedObject LockedObjectProps ConcurrentLog.

Module ConcurrentLogProps.

Section Logger.
Context (strftime : str → Z → option str) (appender : nat → Appender).
#[local] Existing Instance logger_locked.
#[local] Instance the_logger : Locked LogObject LogOp LogBody := logger_locked strftime appender.

(** ** Bodies and methods *)

(** The rest of the loop of an operation. *)
Fixpoint visits (op : LogOp) (lg : Logger) (l : list nat) : outcome (list effect) :=
  match l with
  | [] => Ok []
  | it :: l => a ← visit strftime appender op lg it; b ← visits op lg l; Ok (a ++ b)
  end.

Lemma add_effects_app o a b : add_effects (add_effects o a) b = add_effects o (a ++ b).
Proof. unfold add_effects. cbn. by rewrite app_assoc. Qed.
Lemma add_effects_nil o : add_effects o [] = o.
Proof. destruct o. unfold add_effects. cbn. by rewrite app_nil_r. Qed.

Lemma del_loop_same item l l' : del_loop item l = Ok l' → l' = l.
Proof.
  revert l'. induction l as [|x l IH]; intros l'; cbn; [by intros [= <-]|]. destruct (decide (x = item)); [done|].
  destruct (del_loop item l) as [l2| | |]; [|done..]. cbn. intros [= <-]. by rewrite (IH l2).
Qed.

Lemma log_begin_cases op : (∃ item, op = OpAddAppender item) ∨ log_begin op = AtFor op 0.
Proof. destruct op; [left; by eexists|by right..]. Qed.

(** The methods that loop are their loops. *)
Lemma log_run_loop op o : log_begin op = AtFor op 0 →
  log_run strftime appender op o = (l ← visits op (logger o) (appenders_ (logger o)); Ok (add_effects o l)).
Proof.
  destruct o as [lg effs]. destruct op as [item|item|event|event|]; [done|intros _..]; cbn [log_run logger].
  - unfold DelAppender. destruct lg as [nm mx l]. cbn [appenders_ name_ max_level_].
    assert (∀ lg, visits (OpDelAppender item) lg l = (_ ← del_loop item l; Ok [])) as E.
    { intros lg. induction l as [|x l IH]; [done|]. cbn. destruct (decide (x = item)); [done|]. cbn. rewrite IH.
      by destruct (del_loop item l). }
    rewrite E. destruct (del_loop item l) as [l'| | |] eqn:Ed; [|done..]. cbn. rewrite add_effects_nil.
    by rewrite (del_loop_same _ _ _ Ed).
  - unfold Logger_Log. generalize (appenders_ lg) as l. intros l.
    enough (visits (OpLog event) lg l = (outs ← log_loop strftime appender (max_level_ lg) l event; Ok (uncurry Wrote <$> outs))) as ->
      by by destruct (log_loop _ _ _ _ _).
    induction l as [|x l IH]; [done|]. cbn [visits log_loop visit]. rewrite IH.
    destruct (enabled _ _); [|by destruct (log_loop _ _ _ _ _)].
    destruct (Format _ _ _); [|done..]. by destruct (log_loop _ _ _ _ _).
  - unfold Logger_Flush. generalize (appenders_ lg) as l. intros l.
    enough (visits (OpFlush event) lg l = Ok (Flushed <$> flat_map (λ it, if enabled (max_level_ lg) (level_ event) then [it] else []) l)) as -> by done.
    induction l as [|x l IH]; [done|]. cbn [visits visit flat_map]. rewrite IH. by destruct (enabled _ _).
  - generalize (appenders_ lg) as l. intros l.
    enough (visits OpCheckAppenders lg l = Ok ((λ it, Printed (GetAppenderName (appender it) ++ [lf])) <$> l)) as -> by done.
    induction l as [|x l IH]; [done|]. cbn [visits visit]. by rewrite IH.
Qed.

(** A loop that is left alone. *)
Lemma loop_runs op o l pos : visits op (logger o) (drop pos (appenders_ (logger o))) = Ok l →
  ∃ n, rtc bstep (AtFor op pos, o) (AtFor op n, add_effects o l) ∧ length (appenders_ (logger o)) ≤ n.
Proof.
  remember (length (appenders_ (logger o)) - pos) as k eqn:Ek. revert o l pos Ek.
  induction k as [|k IH]; intros o l pos Ek Hv.
  - rewrite drop_ge in Hv by lia. injection Hv as <-. exists pos. rewrite add_effects_nil. split; [done|lia].
  - destruct (appenders_ (logger o) !! pos) as [it|] eqn:Hit; [|apply lookup_ge_None in Hit; lia].
    rewrite (drop_S _ it) in Hv by done. cbn [visits] in Hv.
    destruct (visit _ _ op (logger o) it) as [a| | |] eqn:Ea; [|done..]. cbn in Hv.
    destruct (visits op (logger o) (drop (S pos) _)) as [b| | |] eqn:Eb; [|done..]. injection Hv as <-.
    destruct (IH (add_effects o a) b (S pos)) as (n & Hr & Hn); [cbn; lia|exact Eb|].
    exists n. rewrite add_effects_app in Hr. split; [|done]. eapply rtc_l; [|exact Hr].
    unfold bstep. cbn. rewrite Hit, Ea. done.
Qed.

Lemma loop_ran op b o' pos o : rtc bstep (AtFor op pos, o) (b, o') → log_step strftime appender b o' = Ok None →
  ∃ l, visits op (logger o) (drop pos (appenders_ (logger o))) = Ok l ∧ o' = add_effects o l.
Proof.
  intros Hr. remember (AtFor op pos, o) as x eqn:Ex. remember (b, o') as y eqn:Ey. revert pos o Ex.
  induction Hr as [x|x x1 y Hs Hr IH]; intros pos o -> Hend.
  - injection Ey as <- <-. cbn in Hend. destruct (appenders_ (logger o) !! pos) as [it|] eqn:Hit.
    + by destruct (visit _ _ op (logger o) it).
    + apply lookup_ge_None in Hit. exists []. rewrite drop_ge, add_effects_nil by done. done.
  - unfold bstep in Hs. cbn in Hs. destruct (appenders_ (logger o) !! pos) as [it|] eqn:Hit; [|done].
    destruct (visit _ _ op (logger o) it) as [a| | |] eqn:Ea; [|done..]. cbn in Hs. injection Hs as E1 E2.
    destruct (IH Ey (S pos) (add_effects o a)) as (l & Hl & ->); [destruct x1; cbn in *; congruence|done|].
    exists (a ++ l). rewrite (drop_S _ it) by done. cbn [visits]. rewrite Ea. cbn. cbn in Hl. rewrite Hl.
    by rewrite add_effects_app.
Qed.

#[local] Instance logger_laws : LockedLaws LogObject LogOp LogBody.
Proof.
  split.
  - intros op o o' Hrun. cbn in Hrun. destruct (log_begin_cases op) as [[item ->]|Hb].
    + injection Hrun as <-. exists AtEnd. split; [|done]. by apply rtc_once.
    + rewrite (log_run_loop _ _ Hb) in Hrun. destruct (visits _ _ _) as [l| | |] eqn:Ev; [|done..].
      injection Hrun as <-. destruct (loop_runs op o l 0 Ev) as (n & Hr & Hn). exists (AtFor op n).
      cbn. rewrite Hb. split; [done|]. by rewrite (proj2 (lookup_ge_None _ _)).
  - intros op o b o' Hr Hend. cbn in Hend |- *. destruct (log_begin_cases op) as [[item ->]|Hb].
    + inversion Hr as [|? y ? Hs Hr']; subst; [done|]. unfold bstep in Hs. cbn in Hs. destruct y as [yb yo]. cbn in Hs.
      injection Hs as <- <-. inversion Hr' as [|? y ? Hs' _]; subst; [done|]. unfold bstep in Hs'. by cbn in Hs'.
    + cbn in Hr. rewrite Hb in Hr. destruct (loop_ran _ _ _ _ _ Hr Hend) as (l & Hl & ->).
      rewrite (log_run_loop _ _ Hb). rewrite drop_0 in Hl. by rewrite Hl.
Qed.

(** ** Threads *)

(** The text of an event in an appender. *)
Definition formats (op : LogOp) : Prop :=
  match op with OpLog event => ∀ it, ∃ s, Format strftime (formatter_ (appender it)) event = Ok s | _ => True end.

(** Nobody deletes an appender that the logger has or gets. *)
Definition deletes_absent (programs : list (list LogOp)) (lg : Logger) : Prop :=
  ∀ item, asked programs (OpDelAppender item) → (item ∉ appenders_ lg) ∧ ¬ asked programs (OpAddAppender item).

Lemma visits_defined op lg l : (∀ it, it ∈ l → ∃ a, visit strftime appender op lg it = Ok a) →
  ∃ a, visits op lg l = Ok a.
Proof.
  induction l as [|it l IH]; intros Hv; [by eexists|]. cbn. destruct (Hv it) as [a ->]; [by left|]. cbn.
  destruct IH as [b ->]; [|by eexists]. intros x Hx. apply Hv. by right.
Qed.

Lemma log_run_defined programs op o : asked programs op → formats op → deletes_absent programs (logger o) →
  ∃ o', log_run strftime appender op o = Ok o' ∧ deletes_absent programs (logger o').
Proof.
  intros Hop Hf Hd. destruct (log_begin_cases op) as [[item ->]|Hb].
  - eexists. split; [done|]. intros x Hx. destruct (Hd x Hx) as [Hx1 Hx2]. split; [|done]. cbn.
    intros [Hin|Hin%list_elem_of_singleton]%elem_of_app; [done|]. by subst.
  - rewrite (log_run_loop _ _ Hb).
    destruct (visits_defined op (logger o) (appenders_ (logger o))) as [a ->]; [|by eexists].
    intros it Hit. destruct op as [item|item|event|event|]; cbn; [by eexists| |..].
    + rewrite decide_False; [by eexists|]. intros ->. by apply (proj1 (Hd _ Hop)).
    + destruct (enabled _ _); [|by eexists]. destruct (Hf it) as [s ->]. by eexists.
    + by eexists.
    + by eexists.
Qed.
End Logger.

(** [C15] A logger used by several threads: over any lock of the system, in every
    interleaving of the accesses of any threads that add and delete appenders,
    log, flush and list the appenders, there is one order of the methods begun so
    far that keeps the order of each thread, and whenever nobody is inside a method
    the logger and everything written are what the methods, each as one step, give
    in that order; when all threads have finished it is an interleaving of their
    programs. *)
Theorem logger_linearizes `{SystemLockLaws T} strftime appender lg programs
    (s : LSystem (SpinLock T) LogObject LogOp LogBody) :
  rtc (lstep (LO := logger_locked strftime appender))
    (LSystem_new (mkLogObject lg []) programs) s →
  ∃ h, (∀ i t p, lthreads s !! i = Some t → programs !! i = Some p → ops_of i h ++ todo t = p) ∧
    ((∀ i t, lthreads s !! i = Some t → body t = None) →
     op_runs (LO := logger_locked strftime appender) h.*2 (mkLogObject lg []) = Ok (object s)) ∧
    (Forall finished (lthreads s) → interleaving programs h.*2).
Proof.
  intros Hrun. pose proof (logger_laws strftime appender) as HL.
  destruct (lin_reachable _ _ _ Hrun) as [h Hl]. exists h. split; [apply Hl|]. split.
  - intros Hout. by eapply lin_outside.
  - intros Hf. by destruct (lin_finished _ _ _ _ Hl Hf).
Qed.
(** One thread logs while another adds an appender. *)
#[local] Instance flag_lock : SystemLock bool := {
  lock_init := false; lock_access_ b := (true, negb b); lock_release _ := false }.
#[local] Instance flag_lock_laws : SystemLockLaws bool.
Proof. refine {| sys_held b := b |}; [done|by intros []|by intros []|done]. Defined.

Definition plain (_ : nat) : Appender := mkAppender LogAppenderToStd [MessageFormatterItem; BreaksFormatterItem].
Definition says (text : string) : LogEvent := mkEvent (lit "root") (lit "a.cc") LogLevel.INFO 1 0 2 0 3 (lit text).
Definition crowd : list (list LogOp) := [[OpLog (says "one")]; [OpAddAppender 9]].

(** Steps of the threads in a given order, as a computation. *)
Fixpoint schedule (ap : nat → Appender) (l : list nat) (s : LSystem (SpinLock bool) LogObject LogOp LogBody) : LSystem (SpinLock bool) LogObject LogOp LogBody :=
  match l with
  | [] => s
  | i :: l =>
      match t ← lthreads s !! i; r ← lthread_step (LO := logger_locked (λ _ _, None) ap) (lmu s) (object s) t; Some r with
      | Some (m, o, t) => schedule ap l (mkLSystem m o (<[i := t]> (lthreads s)))
      | None => schedule ap l s
      end
  end.

Lemma schedule_steps ap l s : rtc (lstep (LO := logger_locked (λ _ _, None) ap)) s (schedule ap l s).
Proof.
  revert s. induction l as [|i l IH]; intros s; [done|]. cbn [schedule].
  destruct (lthreads s !! i) as [t|] eqn:Hi; [|apply IH]. cbn [mbind option_bind].
  destruct (lthread_step _ _ t) as [[[m o] t']|] eqn:Hs; [|apply IH]. cbn [mbind option_bind].
  eapply rtc_l; [by eapply (lstep_thread i)|apply IH].
Qed.

Definition crowd_start : LSystem (SpinLock bool) LogObject LogOp LogBody :=
  LSystem_new (mkLogObject (mkLogger (lit "root") LogLevel.INFO [7; 8]) []) crowd.

(** The second thread tries for the lock while the first is between its appenders. *)
Lemma logger_linearizes_witness :
  ∃ h : list (nat * LogOp), op_runs (LO := logger_locked (λ _ _, None) plain) h.*2 (mkLogObject (mkLogger (lit "root") LogLevel.INFO [7; 8]) []) =
    Ok (mkLogObject (mkLogger (lit "root") LogLevel.INFO [7; 8; 9])
      [Wrote 7 (lit "one" ++ [lf]); Wrote 8 (lit "one" ++ [lf])]).
Proof.
  pose (s := schedule plain [0; 1; 0; 1; 0; 1; 0; 0; 0; 1; 1; 1; 1] crowd_start).
  destruct (logger_linearizes (λ _ _, None) plain (mkLogger (lit "root") LogLevel.INFO [7; 8]) crowd s
    (schedule_steps _ _ _)) as (h & _ & Hh & _).
  exists h. etransitivity; [apply Hh|vm_compute; reflexivity].
  intros i t Hi. assert (i < 2) as Hlt by (apply lookup_lt_Some in Hi; vm_compute in Hi; lia).
  destruct i as [|[|]]; [..|lia]; vm_compute in Hi; injection Hi as <-; reflexivity.
Defined.

(** [C26] No thread is left waiting: over any lock of the system, from every state
    that threads using a logger can come to, all of them can finish, provided that
    the events they log can be formatted and that nobody deletes an appender that
    the logger has or that is added (which is undefined behaviour inside the
    lock). *)
Theorem logger_threads_finish `{SystemLockLaws T} strftime appender lg programs
    (s : LSystem (SpinLock T) LogObject LogOp LogBody) :
  (∀ op, asked programs op → formats strftime appender op) → deletes_absent programs lg →
  rtc (lstep (LO := logger_locked strftime appender)) (LSystem_new (mkLogObject lg []) programs) s →
  ∃ s', rtc (lstep (LO := logger_locked strftime appender)) s s' ∧ Forall finished (lthreads s').
Proof.
  intros Hf Hd Hrun. pose proof (logger_laws strftime appender) as HL.
  destruct (lin_reachable _ _ _ Hrun) as [h Hl].
  eapply (lin_progress (mkLogObject lg []) programs (λ o, deletes_absent programs (logger o))); [exact Hd| |exact Hl].
  intros op o Hop Ho. apply log_run_defined; [done|by apply Hf|done].
Qed.

Lemma logger_threads_finish_witness :
  ∃ s', rtc (lstep (LO := logger_locked (λ _ _, None) plain)) (schedule plain [0; 1; 0; 1; 0; 1] crowd_start) s' ∧
    Forall finished (lthreads s').
Proof.
  apply (logger_threads_finish (λ _ _, None) plain (mkLogger (lit "root") LogLevel.INFO [7; 8]) crowd).
  - intros op (p & Hp & Hop). unfold crowd in Hp.
    apply elem_of_cons in Hp as [->|[->|[]%elem_of_nil]%elem_of_cons]; apply list_elem_of_singleton in Hop as ->; [|done].
    intros it. eexists. vm_compute. reflexivity.
  - intros item (p & Hp & Hop). exfalso. unfold crowd in Hp.
    apply elem_of_cons in Hp as [->|[->|[]%elem_of_nil]%elem_of_cons]; by apply list_elem_of_singleton in Hop.
  - apply schedule_steps.
Defined.

(** [SetMaxLevel] does not take the lock: between two appenders of one message it
    lets the first have it and not the second, which no order of whole methods
    gives. *)
Lemma SetMaxLevel_splits_a_message :
  let o := mkLogObject (mkLogger (lit "root") LogLevel.INFO [7; 8]) [] in
  let quiet := λ o, mkLogObject (SetMaxLevel LogLevel.DEBUG (logger o)) (effects o) in
  let step := λ n o, log_step (λ _ _, None) plain (AtFor (OpLog (says "one")) n) o in
  ∃ o1 o2, step 0 o = Ok (Some (o1, AtFor (OpLog (says "one")) 1)) ∧
    step 1 (quiet o1) = Ok (Some (o2, AtFor (OpLog (says "one")) 2)) ∧ step 2 o2 = Ok None ∧
    effects o2 = [Wrote 7 (lit "one" ++ [lf])] ∧
    (o' ← log_run (λ _ _, None) plain (OpLog (says "one")) o; Ok (effects o')) =
      Ok [Wrote 7 (lit "one" ++ [lf]); Wrote 8 (lit "one" ++ [lf])] ∧
    (o' ← log_run (λ _ _, None) plain (OpLog (says "one")) (quiet o); Ok (effects o')) = Ok [].
Proof. eexists _, _. split_and!; vm_compute; reflexivity. Qed.

(** ** The file of an appender *)

Section File.
Context (creatable openable : str → bool) (a : nat).

(** The texts an appender is given. *)
Definition texts_of (l : list effect) : list str :=
  omap (λ e, match e with Wrote it s => if decide (it = a) then Some s else None | _ => None end) l.

Lemma texts_of_app l k : texts_of (l ++ k) = texts_of l ++ texts_of k.
Proof. apply omap_app. Qed.

Lemma texts_of_interleaving l elsewhere outs :
  interleaving [l; elsewhere] outs → (∀ s, Wrote a s ∉ elsewhere) → texts_of outs = texts_of l.
Proof.
  intros Hi He. remember [l; elsewhere] as ls eqn:El. revert l elsewhere El He.
  induction Hi as [ls Hn|ls i x k r Hx _ IH]; intros l elsewhere -> He.
  - by apply Forall_cons in Hn as [<- _].
  - destruct i as [|[|i]]; cbn in Hx; [..|done]; injection Hx as ->; cbn [insert list_insert] in IH.
    + unfold texts_of in *. cbn [omap list_omap]. by rewrite (IH k elsewhere eq_refl He).
    + specialize (IH l k eq_refl). unfold texts_of in *. cbn [omap list_omap]. rewrite IH.
      * destruct x as [it s|it|s]; [|done..]. rewrite decide_False; [done|]. intros ->. apply (He s). by left.
      * intros s Hs. apply (He s). by right.
Qed.

Context (filename : str) (Hopen : openable filename = true) (Hdir : creatable (parent_path filename) = true).

(** The appender is at the end of its file, and every other one has a file of its own. *)
Record alone (st : Files) : Prop := {
  al_mine : ∃ b, st.1 !! a = Some b ∧ tracks filename (b, st.2);
  al_ok : fs_ok st.2;
  al_others x b : st.1 !! x = Some b → x ≠ a → apart filename st.2 b }.

Lemma append_to_alone st e : alone st →
  alone (append_to creatable openable st e) ∧
  content filename (append_to creatable openable st e).2 =
    foldl (spec filename) (content filename st.2) (Message <$> texts_of [e]).
Proof.
  intros Hst. destruct e as [it s|it|s]; [|done..]. unfold append_to, texts_of. cbn [omap list_omap].
  destruct Hst as [(b & Hb & Ht) Hok Ho]. destruct st as [apps fs]. cbn [fst snd] in *.
  destruct (decide (it = a)) as [->|Hne].
  - rewrite Hb. cbn [fmap list_fmap foldl]. pose proof (acts_Log creatable openable s b fs Hok) as Ha.
    destruct (happen_tracks creatable openable filename Hopen Hdir (Message s) (b, fs) Ht) as [Ht' Hc].
    cbn [happen] in Ht', Hc. destruct (LogFile.Log _ _ s b fs) as [b' fs']. cbn [fst snd] in *. split; [|done].
    split; cbn.
    + exists b'. by rewrite lookup_insert_eq.
    + apply Ha.
    + intros x c Hx Hxa. rewrite lookup_insert_ne in Hx by done.
      eapply acts_keeps_apart; [done|by eapply Ho|apply Ht].
  - cbn [fmap list_fmap foldl]. destruct (apps !! it) as [c|] eqn:Ec; [|split; [split; [by exists b|done..]|done]].
    pose proof (acts_Log creatable openable s c fs Hok) as Ha. pose proof (Ho _ _ Ec Hne) as Hap.
    destruct (LogFile.Log _ _ s c fs) as [c' fs']. cbn [fst snd] in *.
    destruct (acts_apart filename b c fs c' fs' Hok Ha Hap Ht) as [Ht' Hc]. split; [|done]. split; cbn.
    + exists b. by rewrite lookup_insert_ne.
    + apply Ha.
    + intros x d [[<- <-]|[Hx Hd]]%lookup_insert_Some Hxa; [by eapply acts_stays_apart|].
      eapply acts_apart_third; [done|apply Hap|by eapply Ho].
Qed.

Lemma append_to_all l : ∀ st, alone st →
  content filename (foldl (append_to creatable openable) st l).2 =
    foldl (spec filename) (content filename st.2) (Message <$> texts_of l).
Proof.
  induction l as [|e l IH]; intros st Hst; [done|]. cbn [foldl].
  destruct (append_to_alone st e Hst) as [Hst' Hc]. rewrite IH, Hc by done.
  change (e :: l) with ([e] ++ l). by rewrite texts_of_app, fmap_app, foldl_app.
Qed.

Lemma spec_messages l : ∀ c, foldl (spec filename) (Some c) (Message <$> l) = Some (c ++ concat l).
Proof.
  induction l as [|s l IH]; intros c; cbn [fmap list_fmap foldl]; [by rewrite app_nil_r|].
  cbn [spec default concat]. rewrite IH. by rewrite <- app_assoc.
Qed.

Context (appender : nat → Appender).

(** *** The appenders are made *)

Lemma make_apart st x : fs_ok st.2 → (∀ y b, st.1 !! y = Some b → apart filename st.2 b) →
  sink (appender x) ≠ LogAppenderToFile filename →
  let st' := make_appender creatable openable appender st x in
  fs_ok st'.2 ∧ ∀ y b, st'.1 !! y = Some b → apart filename st'.2 b.
Proof.
  intros Hok Ho Hx. unfold make_appender. destruct (sink (appender x)) as [|fn] eqn:Es; [done|].
  assert (fn ≠ filename) as Hfn by congruence. unfold LogFile.LogAppenderToFile_new.
  pose proof (acts_Reopen creatable openable (LogFile.mkAppenderToFile fn None) st.2 Hok) as Ha.
  destruct (LogFile.Reopen _ _ _ st.2) as [c fs']. cbn [fst snd] in *. split; [apply Ha|].
  intros y b [[<- <-]|[Hy Hb]]%lookup_insert_Some.
  - eapply acts_stays_apart; [done|]. split; [done|]. intros f pos [=].
  - eapply acts_apart_third; [done|done|by eapply Ho].
Qed.

Lemma makes_apart l : ∀ st, fs_ok st.2 → (∀ y b, st.1 !! y = Some b → apart filename st.2 b) →
  Forall (λ x, sink (appender x) ≠ LogAppenderToFile filename) l →
  let st' := foldl (make_appender creatable openable appender) st l in
  fs_ok st'.2 ∧ ∀ y b, st'.1 !! y = Some b → apart filename st'.2 b.
Proof.
  induction l as [|x l IH]; intros st Hok Ho Hl; [done|]. apply Forall_cons in Hl as [Hx Hl]. cbn [foldl].
  destruct (make_apart st x Hok Ho Hx). by apply IH.
Qed.

Lemma make_alone st x : alone st → content filename st.2 = Some [] → x ≠ a →
  sink (appender x) ≠ LogAppenderToFile filename →
  alone (make_appender creatable openable appender st x) ∧
  content filename (make_appender creatable openable appender st x).2 = Some [].
Proof.
  intros [(b & Hb & Ht) Hok Ho] Hc Hxa Hx. unfold make_appender. destruct (sink (appender x)) as [|fn] eqn:Es.
  { split; [|done]. split; [by exists b|done|done]. }
  assert (fn ≠ filename) as Hfn by congruence. unfold LogFile.LogAppenderToFile_new.
  set (new := LogFile.mkAppenderToFile fn None).
  assert (apart filename st.2 new) as Hnew by (split; [done|]; intros f pos [=]).
  pose proof (acts_Reopen creatable openable new st.2 Hok) as Ha.
  destruct (LogFile.Reopen _ _ _ st.2) as [c fs']. cbn [fst snd] in *.
  destruct (acts_apart filename b new st.2 c fs' Hok Ha Hnew Ht) as [Ht' Hc'].
  split; [|congruence]. split; cbn.
  - exists b. by rewrite lookup_insert_ne.
  - apply Ha.
  - intros y d [[<- <-]|[Hy Hd]]%lookup_insert_Some Hya; [by eapply acts_stays_apart|].
    eapply acts_apart_third; [done|done|by eapply Ho].
Qed.

(** All are made, in any order, and only [a] has this file. *)
Lemma made_alone fs made : fs_ok fs → NoDup made → a ∈ made → sink (appender a) = LogAppenderToFile filename →
  (∀ x, x ∈ made → sink (appender x) = LogAppenderToFile filename → x = a) →
  let st := foldl (make_appender creatable openable appender) (∅, fs) made in
  alone st ∧ content filename st.2 = Some [].
Proof.
  intros Hok Hnd (l1 & l2 & ->)%list_elem_of_split Hs Hu. rewrite foldl_app. cbn [foldl].
  apply NoDup_app in Hnd as (_ & Hd1 & (Ha2 & _)%NoDup_cons).
  assert (Forall (λ x, sink (appender x) ≠ LogAppenderToFile filename) l1) as Hl1.
  { apply Forall_forall. intros x Hx E. apply (Hd1 x Hx). rewrite (Hu x) by set_solver. by left. }
  assert (Forall (λ x, x ≠ a ∧ sink (appender x) ≠ LogAppenderToFile filename) l2) as Hl2.
  { apply Forall_forall. intros x Hx. assert (x ≠ a) as Hxa by by intros ->. split; [done|].
    intros E. apply Hxa, Hu; [set_solver|done]. }
  destruct (makes_apart l1 (∅, fs) Hok) as [Hok1 Ho1]; [intros y b Hy; cbn in Hy; by rewrite lookup_empty in Hy|done|].
  set (st1 := foldl (make_appender creatable openable appender) (∅, fs) l1) in *.
  assert (alone (make_appender creatable openable appender st1 a) ∧
    content filename (make_appender creatable openable appender st1 a).2 = Some []) as [Hal Hc].
  { unfold make_appender. rewrite Hs. destruct (new_tracks creatable openable filename Hopen Hdir st1.2 (fs_bound _ Hok1)) as [Ht Hc].
    pose proof (acts_Reopen creatable openable (LogFile.mkAppenderToFile filename None) st1.2 Hok1) as Ha.
    unfold LogFile.LogAppenderToFile_new in *. destruct (LogFile.Reopen _ _ _ st1.2) as [b fs']. cbn [fst snd] in *.
    split; [|done]. split; cbn.
    - exists b. by rewrite lookup_insert_eq.
    - apply Ha.
    - intros x c Hx Hxa. rewrite lookup_insert_ne in Hx by done. eapply acts_keeps_apart; [done|by eapply Ho1|done]. }
  clear Hl1 Ho1. revert Hal Hc. generalize (make_appender creatable openable appender st1 a). intros st Hal Hc.
  revert st Hal Hc. induction Hl2 as [|x l2 [Hx1 Hx2] _ IH]; intros st Hal Hc; [done|]. cbn [foldl].
  destruct (make_alone st x Hal Hc Hx1 Hx2). apply IH; [set_solver|set_solver| |done|done]. set_solver.
Qed.

Context (strftime : str → Z → option str) (text : LogEvent → str).

(** One message gives its text once to an appender that is there once. *)
Lemma log_loop_texts max l event outs : NoDup l → log_loop strftime appender max l event = Ok outs →
  Format strftime (formatter_ (appender a)) event = Ok (text event) →
  texts_of (uncurry Wrote <$> outs) = if decide (a ∈ l) then (if enabled max (level_ event) then [text event] else []) else [].
Proof.
  intros Hnd Hl Hf. revert outs Hl. induction Hnd as [|x l Hx Hnd IH]; intros outs Hl; cbn [log_loop] in Hl.
  - injection Hl as <-. done.
  - destruct (enabled max (level_ event)) eqn:He.
    + destruct (Format strftime (formatter_ (appender x)) event) as [s| | |] eqn:Es; [|done..]. cbn in Hl.
      destruct (log_loop _ _ _ _ _) as [o| | |]; [|done..]. injection Hl as <-. specialize (IH _ eq_refl).
      cbn [app fmap list_fmap uncurry]. unfold texts_of in *. cbn [omap list_omap]. rewrite IH.
      destruct (decide (x = a)) as [->|Hne].
      * rewrite (decide_True (P := a ∈ a :: l)) by by left. rewrite decide_False by done. congruence.
      * destruct (decide (a ∈ l)) as [Hin|Hin]; [rewrite decide_True by by right|rewrite decide_False]; [done..|].
        by intros [->|?]%elem_of_cons.
    + cbn in Hl. destruct (log_loop _ _ _ _ _) as [o| | |]; [|done..]. injection Hl as <-. specialize (IH _ eq_refl).
      cbn [app]. rewrite IH. by repeat case_decide.
Qed.

Lemma op_runs_texts lg l effs o : NoDup (appenders_ lg) → a ∈ appenders_ lg →
  (∀ event, event ∈ l → Format strftime (formatter_ (appender a)) event = Ok (text event)) →
  op_runs (LO := logger_locked strftime appender) (OpLog <$> l) (mkLogObject lg effs) = Ok o →
  texts_of (effects o) = texts_of effs ++ (text <$> filter (λ e, enabled (max_level_ lg) (level_ e) = true) l).
Proof.
  intros Hnd Hin. revert effs. induction l as [|e l IH]; intros effs Ht Hr; cbn [fmap list_fmap op_runs] in Hr.
  - injection Hr as <-. by rewrite app_nil_r.
  - cbn [op_run logger_locked log_run logger] in Hr. unfold Logger_Log in Hr.
    destruct (log_loop strftime appender (max_level_ lg) (appenders_ lg) e) as [outs| | |] eqn:El; [|done..]. cbn in Hr.
    apply IH in Hr; [|intros; apply Ht; by right]. rewrite Hr, texts_of_app, <- app_assoc. f_equal.
    rewrite (log_loop_texts _ _ _ _ Hnd El (Ht e ltac:(by left))), decide_True by done. rewrite filter_cons.
    destruct (enabled (max_level_ lg) (level_ e)); by case_decide.
Qed.
End File.

(** [C16] The file of an appender [a] that several threads log to, among any other
    appenders of this and of other loggers, made in any order, each with its own
    stream on the one file system: if no other appender has the same file, and [a]
    is in no other logger, then when the threads have finished the content of the
    file is the texts of the events that the level of the logger lets through, each
    whole and once, in an order that keeps the order of each thread, however what
    the other loggers write falls in between; a call of an appender is one step
    for the others.  ([two_appenders_overwrite] shows why the file must be its
    own.) *)
Theorem file_has_whole_messages `{SystemLockLaws T} creatable openable strftime appender filename fs made lg a
    (text : LogEvent → str) (programs : list (list LogEvent)) elsewhere outs
    (s : LSystem (SpinLock T) LogObject LogOp LogBody) :
  sink (appender a) = LogAppenderToFile filename → openable filename = true → creatable (parent_path filename) = true →
  fs_ok fs → NoDup made → a ∈ made →
  (∀ x, x ∈ made → sink (appender x) = LogAppenderToFile filename → x = a) →
  NoDup (appenders_ lg) → a ∈ appenders_ lg →
  (∀ p event, p ∈ programs → event ∈ p → Format strftime (formatter_ (appender a)) event = Ok (text event)) →
  rtc (lstep (LO := logger_locked strftime appender)) (LSystem_new (mkLogObject lg []) (fmap (M := list) OpLog <$> programs)) s →
  Forall finished (lthreads s) →
  interleaving [effects (object s); elsewhere] outs → (∀ t, Wrote a t ∉ elsewhere) →
  ∃ l, interleaving programs l ∧
    content filename (foldl (append_to creatable openable)
      (foldl (make_appender creatable openable appender) (∅, fs) made) outs).2 =
    Some (concat (text <$> filter (λ e, enabled (max_level_ lg) (level_ e) = true) l)).
Proof.
  intros Hs Hop Hdir Hok Hnm Ham Hu Hnd Hin Ht Hrun Hfin Ho Helse. pose proof (logger_laws strftime appender) as HL.
  destruct (lin_reachable _ _ _ Hrun) as [h Hl]. destruct (lin_finished _ _ _ _ Hl Hfin) as [Hi Hr].
  apply interleaving_fmap in Hi as (l & Eh & Hi). rewrite Eh in Hr. exists l. split; [done|].
  destruct (made_alone creatable openable a filename Hop Hdir appender fs made Hok Hnm Ham Hs Hu) as [Hal Hc].
  rewrite (append_to_all creatable openable a filename Hop Hdir) by done. rewrite Hc, spec_messages, app_nil_l.
  rewrite (texts_of_interleaving a (effects (object s)) elsewhere outs Ho Helse).
  rewrite (op_runs_texts a appender strftime text lg l [] _ Hnd Hin); [done| |done].
  intros e He. destruct (interleaving_in _ _ _ Hi He) as (p & Hp & Hep). by eapply Ht.
Qed.

(** Two appenders, and a third of another logger. *)
Definition filing (it : nat) : Appender :=
  mkAppender (LogAppenderToFile (match it with 7 => lit "log/b" | 8 => lit "log/a" | _ => lit "log/c" end)) (formatter_ (plain it)).

Lemma others_idle {A} (l : list A) : interleaving [l; []] l.
Proof.
  induction l as [|x l IH]; [by constructor; repeat constructor|]. by apply (interleaving_cons _ 0 x l).
Qed.

Definition talkers : list (list LogEvent) := [[says "one"; says "two"]; [says "three"]].
Definition talkers_end : LSystem (SpinLock bool) LogObject LogOp LogBody :=
  schedule filing [0; 1; 0; 0; 1; 0; 0; 0; 1; 1; 0; 1; 1; 1; 0; 0; 0; 0; 0; 0; 0; 0]
    (LSystem_new (mkLogObject (mkLogger (lit "root") LogLevel.INFO [7; 8]) []) (fmap (M := list) OpLog <$> talkers)).

Lemma file_has_whole_messages_witness :
  ∃ l, interleaving talkers l ∧
    Some (lit "one" ++ [lf] ++ lit "three" ++ [lf] ++ lit "two" ++ [lf]) =
    Some (concat ((λ e, stream_ e ++ [lf]) <$> filter (λ e, enabled LogLevel.INFO (level_ e) = true) l)).
Proof.
  destruct (file_has_whole_messages (λ _, true) (λ _, true) (λ _ _, None) filing (lit "log/a") (LogFile.mkFS ∅ ∅ []) [7; 8; 9]
    (mkLogger (lit "root") LogLevel.INFO [7; 8]) 8 (λ e, stream_ e ++ [lf]) talkers [Wrote 9 (lit "else")]
    (Wrote 9 (lit "else") :: effects (object talkers_end)) talkers_end) as (l & Hl & Hc).
  1-3: done.
  - split; intros p; cbn; [intros f|intros q f]; by rewrite lookup_empty.
  - by_decide.
  - by_decide.
  - intros x Hx E. apply elem_of_cons in Hx as [->|[->|[->|[]%elem_of_nil]%elem_of_cons]%elem_of_cons]; by vm_compute in E.
  - by_decide.
  - by_decide.
  - intros p e _ _. reflexivity.
  - apply schedule_steps.
  - apply Forall_lookup. intros i t Hi. assert (i < 2) as Hlt by (apply lookup_lt_Some in Hi; vm_compute in Hi; lia).
    destruct i as [|[|]]; [..|lia]; vm_compute in Hi; injection Hi as <-; split_and!; reflexivity.
  - eapply (interleaving_cons _ 1); [reflexivity|]. apply others_idle.
  - intros t [=]%list_elem_of_singleton.
  - exists l. split; [exact Hl|]. refine (eq_trans _ Hc). vm_compute. reflexivity.
Defined.

(** Two appenders on one file, of one logger or of two: each stream is opened to
    truncate and not to append, and has a position of its own, so that the second
    overwrites what the first wrote. *)
Lemma two_appenders_overwrite :
  let both (it : nat) := mkAppender (LogAppenderToFile (lit "log/a")) [MessageFormatterItem] in
  content (lit "log/a") (foldl (append_to (λ _, true) (λ _, true))
    (foldl (make_appender (λ _, true) (λ _, true) both) (∅, LogFile.mkFS ∅ ∅ []) [7; 8])
    [Wrote 7 (lit "alpha"); Wrote 8 (lit "two"); Wrote 7 (lit "beta")]).2 = Some (lit "twohabeta").
Proof. vm_compute. reflexivity. Qed.

End ConcurrentLogProps.
