(* ===== verification/Address.v ===== *)
(** * Addresses

    [src/include/address.hh] and [src/address.cc]: socket addresses, their text,
    and the lookup of host names.  The C library's [inet_pton], [inet_ntop] and
    [getaddrinfo] are parameters, the class [Inet]. *)

From S2P Require Import Prelude Endian CStr.
Import CStr.

Module Address.

Open Scope Z_scope.

Definition AF_UNSPEC : Z := 0.
Definition AF_INET : Z := 2.
Definition AF_INET6 : Z := 10.
Definition AI_NUMERICHOST : Z := 4.

(** On the little-endian hosts the program is for. *)
Definition htons (v : Z) : Z := Endian.bswap 2 (wrap u16 v).
Definition ntohs (v : Z) : Z := Endian.bswap 2 (wrap u16 v).

(** ** Socket addresses *)

(** [None] is an indeterminate field or byte. *)
Record sockaddr_in := mkIn { sin_family : option Z; sin_port : Z; sin_addr : list mbyte }.
Record sockaddr_in6 := mkIn6 { sin6_family : option Z; sin6_port : Z; sin6_addr : list mbyte }.

(** What a [sockaddr *] points to, by its family. *)
Inductive sockaddr := SA_in (a : sockaddr_in) | SA_in6 (a : sockaddr_in6) | SA_other (family : Z).

(** The classes derived from [IPAddress]. *)
Inductive Address := IPv4Address (addr_in_ : sockaddr_in) | IPv6Address (addr_in6_ : sockaddr_in6).

(** [inet_pton]: negative, zero, or the bytes. *)
Inductive pton := pton_error | pton_invalid | pton_ok (bytes : list Z).

Record addrinfo := mkHint { ai_flags : Z; ai_family : Z; ai_socktype : Z; ai_protocol : Z }.

Class Inet := {
  inet_pton : Z → str → pton;
  inet_ntop : Z → list Z → str;
  (** The error, and the list that [res] starts; no service is a null pointer. *)
  getaddrinfo : str → option str → addrinfo → Z * list (option sockaddr);
  strerror : string }.

Definition GetFamily (a : Address) : option Z :=
  match a with IPv4Address a => sin_family a | IPv6Address a => sin6_family a end.
Definition GetPort (a : Address) : Z :=
  match a with IPv4Address a => ntohs (sin_port a) | IPv6Address a => ntohs (sin6_port a) end.
Definition SetPort (val : Z) (a : Address) : Address :=
  match a with
  | IPv4Address a => IPv4Address (mkIn (sin_family a) (htons val) (sin_addr a))
  | IPv6Address a => IPv6Address (mkIn6 (sin6_family a) (ntohs val) (sin6_addr a))
  end.

(** [Address::Create]: the [switch] on the family. *)
Definition Create (addr : option sockaddr) : outcome (option Address) :=
  match addr with
  | None => Ok None
  | Some (SA_in a) => Ok (Some (IPv4Address a))
  | Some (SA_in6 a) => Ok (Some (IPv6Address a))
  | Some (SA_other _) => Throw (runtime_error "Address::Create protocol family not support")
  end.

(** ** Masks *)

(** [CreateMask<T>] with [sizeof(T)] bytes; [1 << n] is an [int]. *)
Definition CreateMask (sizeof_T : Z) (val : Z) : outcome Z :=
  let n := wrap u64 (sizeof_T - val) in
  if decide (n < 31) then Ok (wrap i32 (Z.lnot (Z.shiftl 1 n - 1))) else Undef "shift out of range".

Fixpoint BitCount_loop (fuel : nat) (val res : Z) : outcome Z :=
  match fuel with
  | O => NoFuel
  | S fuel => if decide (val = 0) then Ok res else BitCount_loop fuel (Z.land val (val - 1)) (wrap u32 (res + 1))
  end.

(** Each turn clears a bit: [w] turns are enough for [w] bits. *)
Definition BitCount (w : nat) (val : Z) : outcome Z := BitCount_loop (S w) val 0.

(** ** Names *)

(** [memchr] from a position; the text up to a null byte. *)
Definition memchr (c : ascii) (s : str) (from : nat) : option nat :=
  (λ r, (from + r.1)%nat) <$> list_find (c =.) (drop from s).
Fixpoint c_str (s : str) : str :=
  match s with
  | [] => []
  | c :: s => if decide (c = "000"%char) then [] else c :: c_str s
  end.

(** The first part: [\[node\]:service], the node with its brackets. *)
Definition split_bracket (host : str) : str * str :=
  if decide (head host = Some "["%char) then
    match memchr "]" host 1 with
    | Some i =>
        let endaddr := S i in
        if decide (host !! endaddr = Some ":"%char)
        then (take endaddr host, drop (S endaddr) host)
        else ([], [])
    | None => ([], [])
    end
  else ([], []).

(** The second and third part: up to the first colon, or all of it. *)
Definition split_host (host : str) : str * str :=
  let '(node, service) := split_bracket host in
  let '(node, service) :=
    match node, memchr ":" host 0 with
    | [], Some endaddr => (take endaddr host, drop (S endaddr) host)
    | _, _ => (node, service)
    end in
  match node with [] => (host, service) | _ => (node, service) end.

Section Library.
Context `{Inet}.

(** [while (nxt) result.push_back(Create(..))]. *)
Fixpoint push_all (res : list (option sockaddr)) : M (list (option Address)) unit :=
  match res with
  | [] => mret tt
  | ai_addr :: res =>
      a ← lift (Create ai_addr);
      modify (λ result, result ++ [a]);;
      push_all res
  end.

(** [Address::Lookup], on the vector [result]. *)
Definition Lookup (host : str) (family type protocol : Z) : M (list (option Address)) bool :=
  let '(node, service) := split_host host in
  let '(err, res) := getaddrinfo (c_str node) (Some (c_str service)) (mkHint 0 family type protocol) in
  if decide (err ≠ 0) then raise (runtime_error strerror)
  else
    push_all res;;
    result ← get;
    mret (negb (bool_decide (result = []))).

(** What a [Lookup] into a fresh vector leaves. *)
Definition looked_up (host : str) (family type protocol : Z) : outcome (list (option Address)) :=
  match Lookup host family type protocol [] with
  | (Ok true, result) => Ok result
  | (Ok false, _) => Ok []
  | (Throw e, _) => Throw e
  | (Undef why, _) => Undef why
  | (NoFuel, _) => NoFuel
  end.

Definition LookupAny (host : str) (family type protocol : Z) : outcome (option Address) :=
  res ← looked_up host family type protocol;
  Ok (mjoin (head res)).

(** The loop returns in its first turn; every [Address] is an [IPAddress]. *)
Definition LookupAnyIPAddress (host : str) (family type protocol : Z) : outcome (option Address) :=
  res ← looked_up host family type protocol;
  match res with
  | [] => Ok None
  | item :: _ => Ok item
  end.

(** [IPAddress::Create]: [ai_socktype] and [ai_protocol] of [hint] are not set, and
    are what the stack holds. *)
Definition IPAddress_Create (stack_socktype stack_protocol : Z) (address : str) (port : Z) : outcome (option Address) :=
  let '(err, res) := getaddrinfo (c_str address) None
                       (mkHint AI_NUMERICHOST AF_UNSPEC stack_socktype stack_protocol) in
  if decide (err ≠ 0) then Throw (runtime_error strerror)
  else
    match res with
    | [] => Undef "null pointer"
    | ai_addr :: _ => ptr ← Create ai_addr; Ok (option_map (SetPort port) ptr)
    end.

(** ** Addresses from text *)

Definition indeterminate (n : nat) : list mbyte := replicate n None.

(** [inet_pton] into a field that holds [old]. *)
Definition parse_into (family : Z) (address : str) (old : list mbyte) : outcome (list mbyte) :=
  match inet_pton family (c_str address) with
  | pton_error => Throw (runtime_error strerror)
  | pton_invalid => Ok old
  | pton_ok bytes => Ok (Some <$> bytes)
  end.

(** The constructors from text; that of [IPv6Address] does not set the family. *)
Definition IPv4Address_new (address : str) (port : Z) : outcome Address :=
  addr ← parse_into AF_INET address (indeterminate 4);
  Ok (IPv4Address (mkIn (Some AF_INET) (htons port) addr)).
Definition IPv6Address_new (address : str) (port : Z) : outcome Address :=
  addr ← parse_into AF_INET6 address (indeterminate 16);
  Ok (IPv6Address (mkIn6 None (htons port) addr)).

(** The default constructors. *)
Definition IPv4Address_default : outcome Address := IPv4Address_new (lit "127.0.0.1") 80.
Definition IPv6Address_default : Address :=
  IPv6Address (mkIn6 (Some AF_INET6) 0 (replicate 16 (Some 0))).

Definition IPv4Address_Create (address : str) (port : Z) : outcome Address :=
  ptr ← IPv4Address_default;
  match ptr with
  | IPv4Address a =>
      addr ← parse_into AF_INET address (sin_addr a);
      Ok (IPv4Address (mkIn (Some AF_INET) (htons port) addr))
  | IPv6Address _ => Undef "not an IPv4Address"
  end.
Definition IPv6Address_Create (address : str) (port : Z) : outcome Address :=
  match IPv6Address_default with
  | IPv6Address a =>
      addr ← parse_into AF_INET6 address (sin6_addr a);
      Ok (IPv6Address (mkIn6 (sin6_family a) (htons port) addr))
  | IPv4Address _ => Undef "not an IPv6Address"
  end.

(** [Insert] into an empty stream. *)
Definition ToString (a : Address) : outcome str :=
  match a with
  | IPv4Address i =>
      match defined_bytes (sin_addr i) with
      | Some b => Ok (inet_ntop AF_INET b ++ lit ":" ++ to_string (GetPort a))
      | None => Undef "indeterminate address"
      end
  | IPv6Address i =>
      match defined_bytes (sin6_addr i) with
      | Some b => Ok (lit "[" ++ inet_ntop AF_INET6 b ++ lit "]:" ++ to_string (GetPort a))
      | None => Undef "indeterminate address"
      end
  end.
End Library.
End Address.
