(* ===== verification/AddressProps.v ===== *)
(** * Properties of addresses

    How a host name is divided and looked up; addresses from text and back. *)

From S2P Require Import Prelude Endian CStr Address.
Import CStr Address.

Module AddressProps.

#[local] Open Scope nat_scope.

(** ** [memchr] *)

Lemma memchr_found c a b from : (from ≤ length a)%nat → c ∉ drop from a →
  memchr c (a ++ c :: b) from = Some (length a).
Proof.
  intros Hl Hn. unfold memchr. rewrite drop_app_le by done.
  assert (list_find (c =.) (drop from a ++ c :: b) = Some (length (drop from a), c)) as ->.
  { apply list_find_Some. split; [by apply list_lookup_middle|]. split; [done|]. intros j y Hy Hj <-.
    rewrite lookup_app_l in Hy by done. apply Hn. by eapply list_elem_of_lookup_2. }
  cbn. f_equal. rewrite length_drop. lia.
Qed.

Lemma memchr_missing c s from : c ∉ drop from s → memchr c s from = None.
Proof.
  intros Hn. unfold memchr. assert (list_find (c =.) (drop from s) = None) as ->; [|done].
  apply list_find_None, Forall_forall. intros x Hx <-. done.
Qed.

Lemma memchr_Some c s from i : memchr c s from = Some i →
  from ≤ i ∧ s !! i = Some c ∧ c ∉ take (i - from) (drop from s).
Proof.
  unfold memchr. intros ([j d] & (Hj & <- & Hf)%list_find_Some & ->)%fmap_Some. cbn.
  split; [lia|]. split; [by rewrite lookup_drop in Hj|]. intros (k & Hk)%list_elem_of_lookup_1.
  apply lookup_take_Some in Hk as [Hk Hlt]. apply (Hf k c Hk); [lia|done].
Qed.

Lemma drop_after {A} (a : list A) c b : drop (S (length a)) (a ++ c :: b) = b.
Proof. induction a; cbn; [by rewrite drop_0|done]. Qed.

(** ** [split_host] *)

(** The form that is recognised. *)
Definition bracketed (host v6 service : str) : Prop :=
  host = "["%char :: v6 ++ "]"%char :: ":"%char :: service ∧ "]"%char ∉ v6.

Lemma split_bracketed host v6 service : bracketed host v6 service →
  split_bracket host = ("["%char :: v6 ++ ["]"%char], service).
Proof.
  intros [-> Hn]. unfold split_bracket. cbn [head]. rewrite decide_True by done.
  rewrite app_comm_cons, memchr_found by (done || (cbn; lia)).
  assert (("["%char :: v6) ++ "]"%char :: ":"%char :: service =
          (("["%char :: v6) ++ ["]"%char]) ++ ":"%char :: service) as -> by by rewrite <- app_assoc.
  assert (S (length ("["%char :: v6)) = length (("["%char :: v6) ++ ["]"%char])) as -> by (rewrite length_app; cbn; lia).
  rewrite list_lookup_middle by done. rewrite decide_True by done. by rewrite take_app_length, drop_after.
Qed.

Lemma split_bracket_cases host :
  split_bracket host = ([], []) ∨ ∃ v6 service, bracketed host v6 service.
Proof.
  unfold split_bracket. destruct (decide _) as [Hh|]; [|by left]. destruct host as [|c host]; [done|].
  injection Hh as ->. destruct (memchr _ _ _) as [[|i]|] eqn:E; [| |by left]; apply memchr_Some in E as (Hle & Hi & Hf); [lia|].
  cbn in Hi, Hf. destruct (decide _) as [Hc|]; [|by left]. cbn in Hc. right.
  exists (take i host), (drop (S (S i)) host). rewrite drop_0, Nat.sub_0_r in Hf. split; [|done]. f_equal.
  by rewrite <- (drop_S _ _ _ Hc), take_drop_middle.
Qed.

(** Up to the first colon. *)
Definition divided (host node service : str) : Prop :=
  (∃ name, host = name ++ ":"%char :: service ∧ (":"%char ∉ name) ∧
     node = match name with [] => host | _ => name end) ∨
  ((":"%char ∉ host) ∧ node = host ∧ service = []).

Lemma split_host_cases host : ∃ node service, split_host host = (node, service) ∧
  ((∃ v6, bracketed host v6 service ∧ node = "["%char :: v6 ++ ["]"%char]) ∨
   ((∀ v6 service', ¬ bracketed host v6 service') ∧ divided host node service)).
Proof.
  destruct (split_bracket_cases host) as [Hb|(v6 & service & Hb)].
  2: { exists ("["%char :: v6 ++ ["]"%char]), service. unfold split_host. rewrite (split_bracketed _ _ _ Hb).
       split; [done|]. left. by exists v6. }
  unfold split_host. rewrite Hb.
  assert (∀ v6 service', ¬ bracketed host v6 service') as Hno
    by (intros v6 service' H; apply split_bracketed in H; congruence).
  destruct (memchr ":" host 0) as [i|] eqn:Em.
  - apply memchr_Some in Em as (_ & Hi & Hf). rewrite drop_0, Nat.sub_0_r in Hf.
    pose proof (take_drop_middle _ _ _ Hi) as Eh. symmetry in Eh. destruct (take i host) as [|c name].
    + exists host, (drop (S i) host). split; [done|]. right. split; [done|]. left. by exists [].
    + exists (c :: name), (drop (S i) host). split; [done|]. right. split; [done|]. left. by exists (c :: name).
  - exists host, []. split; [done|]. right. split; [done|]. right. split; [|done].
    unfold memchr in Em. apply fmap_None, list_find_None in Em. rewrite drop_0, Forall_forall in Em.
    intros Hin. by apply (Em _ Hin).
Qed.

(** ** [Lookup] *)

Definition supported (res : list (option sockaddr)) : Prop :=
  Forall (λ a, match a with Some (SA_other _) => False | _ => True end) res.

Definition created (a : option sockaddr) : option Address :=
  match a with
  | Some (SA_in a) => Some (IPv4Address a)
  | Some (SA_in6 a) => Some (IPv6Address a)
  | _ => None
  end.

Section Library.
Context `{Inet}.

Lemma push_all_supported res : ∀ result, supported res →
  push_all res result = (Ok tt, result ++ (created <$> res)).
Proof.
  induction res as [|a res IH]; intros result Hs; [by rewrite app_nil_r|]. apply Forall_cons in Hs as [Ha Hs].
  cbn [push_all]. assert (Create a = Ok (created a)) as -> by by destruct a as [[| |]|].
  mgo. rewrite IH by done. by rewrite <- app_assoc.
Qed.

Lemma push_all_unsupported pre f rest result : supported pre →
  push_all (pre ++ Some (SA_other f) :: rest) result =
    (Throw (runtime_error "Address::Create protocol family not support"), result ++ (created <$> pre)).
Proof.
  revert result. induction pre as [|a pre IH]; intros result Hs; [by rewrite app_nil_r|].
  apply Forall_cons in Hs as [Ha Hs]. cbn [app push_all].
  assert (Create a = Ok (created a)) as -> by by destruct a as [[| |]|].
  mgo. rewrite IH by done. by rewrite <- app_assoc.
Qed.
End Library.

(** [C37] How a host is divided: ["[node]:service"] gives the node with its
    brackets; otherwise the text before the first colon is the node, or the whole
    host if there is none before it, and the rest the service; without a colon
    there is no service. [Lookup] asks for the two, throws if that fails, and
    otherwise appends an address for every result, unless one has a family it
    does not support: then it throws with the addresses before it appended. *)
Theorem Lookup_splits `{Inet} host family type protocol result :
  ∃ node service, split_host host = (node, service) ∧
    ((∃ v6, bracketed host v6 service ∧ node = "["%char :: v6 ++ ["]"%char]) ∨
     ((∀ v6 service', ¬ bracketed host v6 service') ∧ divided host node service)) ∧
    let '(err, res) := getaddrinfo (c_str node) (Some (c_str service)) (mkHint 0 family type protocol) in
    (err ≠ 0%Z → Lookup host family type protocol result = (Throw (runtime_error strerror), result)) ∧
    (err = 0%Z → supported res → Lookup host family type protocol result =
       (Ok (negb (bool_decide (result ++ (created <$> res) = []))), result ++ (created <$> res))) ∧
    (∀ pre f rest, err = 0%Z → res = pre ++ Some (SA_other f) :: rest → supported pre →
       Lookup host family type protocol result =
         (Throw (runtime_error "Address::Create protocol family not support"), result ++ (created <$> pre))).
Proof.
  destruct (split_host_cases host) as (node & service & E & Hc). exists node, service. split; [done|]. split; [done|].
  unfold Lookup. rewrite E. destruct (getaddrinfo _ _ _) as [err res]. split; [|split].
  - intros He. by rewrite decide_True.
  - intros -> Hs. rewrite decide_False by naive_solver. by rewrite (bind_ok _ _ _ _ _ (push_all_supported res result Hs)).
  - intros pre f rest -> -> Hs. rewrite decide_False by naive_solver.
    by rewrite (bind_throw _ _ _ _ _ (push_all_unsupported pre f rest result Hs)).
Qed.

(** ** Ports and text *)

Lemma u16_range v : in_range u16 (wrap u16 v).
Proof. by apply wrap_range. Qed.

Lemma bswap_ByteSwap v : Endian.bswap 2 v = Endian.ByteSwap u16 v.
Proof.
  change (Endian.ByteSwap u16 v) with (wrap u16 (Endian.bswap 2 v)). symmetry. apply wrap_id; [done|].
  unfold in_range. rewrite <- (Endian.bswap_mod 2). change (8 * Z.of_nat 2)%Z with 16%Z.
  pose proof (Z.mod_pos_bound (Endian.bswap 2 v) (2 ^ 16) ltac:(lia)). cbn in *. lia.
Qed.

Lemma ntohs_htons v : ntohs (htons v) = wrap u16 v.
Proof.
  unfold ntohs, htons. rewrite !bswap_ByteSwap. rewrite (wrap_id u16 (Endian.ByteSwap _ _)).
  - apply Endian.ByteSwap_involutive; [by std_ity_closed|done|apply u16_range].
  - done.
  - apply Endian.ByteSwap_range. std_ity_closed.
Qed.

(** What the C library's conversions do with the texts they print. *)
Class InetLaws `{Inet} := {
  pton_ntop4 b : length b = 4 → Forall is_byte b → inet_pton AF_INET (c_str (inet_ntop AF_INET b)) = pton_ok b;
  pton_ntop6 b : length b = 16 → Forall is_byte b → inet_pton AF_INET6 (c_str (inet_ntop AF_INET6 b)) = pton_ok b;
  pton_loopback : inet_pton AF_INET (lit "127.0.0.1") = pton_ok [127; 0; 0; 1]%Z }.

(** Addresses from text: an address created from the text of its bytes and
    a port has that family and port, and prints that text and port; a text that
    is no IPv4 address gives 127.0.0.1; the constructor of [IPv6Address] from a
    text leaves the family indeterminate. *)
Theorem address_text_roundtrip `{IL : InetLaws} (port : Z) :
  in_range u16 port →
  (∀ b, length b = 4 → Forall is_byte b →
     ∃ a, IPv4Address_Create (inet_ntop AF_INET b) port = Ok a ∧ GetFamily a = Some AF_INET ∧ GetPort a = port ∧
       ToString a = Ok (inet_ntop AF_INET b ++ lit ":" ++ to_string port)) ∧
  (∀ b, length b = 16 → Forall is_byte b →
     ∃ a, IPv6Address_Create (inet_ntop AF_INET6 b) port = Ok a ∧ GetFamily a = Some AF_INET6 ∧ GetPort a = port ∧
       ToString a = Ok (lit "[" ++ inet_ntop AF_INET6 b ++ lit "]:" ++ to_string port)) ∧
  (∀ text, inet_pton AF_INET (c_str text) = pton_invalid →
     ∃ a, IPv4Address_Create text port = Ok a ∧
       ToString a = Ok (inet_ntop AF_INET [127; 0; 0; 1]%Z ++ lit ":" ++ to_string port)) ∧
  (∀ text a, IPv6Address_new text port = Ok a → GetFamily a = None).
Proof.
  intros Hp. assert (ntohs (htons port) = port) as Hport by (rewrite ntohs_htons; by apply wrap_id).
  assert (IPv4Address_default = Ok (IPv4Address (mkIn (Some AF_INET) (htons 80) (Some <$> [127; 0; 0; 1]%Z)))) as Hd.
  { unfold IPv4Address_default, IPv4Address_new, parse_into.
    assert (c_str (lit "127.0.0.1") = lit "127.0.0.1") as -> by done. by rewrite pton_loopback. }
  split; [|split; [|split]].
  - intros b Hl Hb. unfold IPv4Address_Create. rewrite Hd. cbn [mbind outcome_bind]. unfold parse_into.
    rewrite pton_ntop4 by done. cbn [mbind outcome_bind]. eexists. split; [done|]. split; [done|]. split; [done|].
    unfold ToString. cbn [GetPort sin_addr sin_port sin6_addr sin6_port]. by rewrite defined_bytes_some, Hport.
  - intros b Hl Hb. unfold IPv6Address_Create, IPv6Address_default. unfold parse_into.
    rewrite pton_ntop6 by done. cbn [mbind outcome_bind]. eexists. split; [done|]. split; [done|]. split; [done|].
    unfold ToString. cbn [GetPort sin_addr sin_port sin6_addr sin6_port]. by rewrite defined_bytes_some, Hport.
  - intros text Ht. unfold IPv4Address_Create. rewrite Hd. cbn [mbind outcome_bind]. unfold parse_into.
    rewrite Ht. cbn [mbind outcome_bind]. eexists. split; [done|].
    unfold ToString. cbn [GetPort sin_addr sin_port]. by rewrite defined_bytes_some, Hport.
  - intros text a. unfold IPv6Address_new. destruct (parse_into _ _ _); [|done..]. by intros [= <-].
Qed.

(** ** A notation for the witness *)

(** Decimal bytes with a separator. *)
Definition sep (family : Z) : ascii := if decide (family = AF_INET) then "." else ":".

Fixpoint print_bytes (c : ascii) (b : list Z) : str :=
  match b with
  | [] => []
  | [x] => to_string x
  | x :: b => to_string x ++ c :: print_bytes c b
  end.

Fixpoint split_on (c : ascii) (s acc : str) : list str :=
  match s with
  | [] => [acc]
  | d :: s => if decide (d = c) then acc :: split_on c s [] else split_on c s (acc ++ [d])
  end.

Definition bytes256 : list Z := Z.of_nat <$> seq 0 256.
Definition parse_byte (s : str) : option Z := snd <$> list_find (λ x, to_string x = s) bytes256.

Definition parse_bytes (c : ascii) (s : str) : pton :=
  match mapM parse_byte (split_on c s []) with
  | Some b => pton_ok b
  | None => pton_invalid
  end.

Lemma bytes256_good : Forall (λ x, parse_byte (to_string x) = Some x ∧ to_string x ≠ [] ∧
  Forall (λ c, c ≠ "."%char ∧ c ≠ ":"%char ∧ c ≠ "000"%char) (to_string x)) bytes256.
Proof. by_decide. Qed.

Definition plain (c : ascii) : Prop := c ≠ "."%char ∧ c ≠ ":"%char ∧ c ≠ "000"%char.

Lemma byte_good x : is_byte x → parse_byte (to_string x) = Some x ∧ to_string x ≠ [] ∧ Forall plain (to_string x).
Proof.
  intros Hx. pose proof bytes256_good as H. rewrite Forall_forall in H. apply H.
  apply list_elem_of_fmap. exists (Z.to_nat x). unfold is_byte in Hx. split; [lia|]. apply elem_of_seq. lia.
Qed.

Lemma split_on_plain c s rest acc : Forall (λ d, d ≠ c) s →
  split_on c (s ++ rest) acc = split_on c rest (acc ++ s).
Proof.
  intros Hs. revert acc. induction Hs as [|d s Hd _ IH]; intros acc; cbn; [by rewrite app_nil_r|].
  rewrite decide_False by done. by rewrite IH, <- app_assoc.
Qed.

Lemma split_print c b : c = "."%char ∨ c = ":"%char → b ≠ [] → Forall is_byte b →
  split_on c (print_bytes c b) [] = to_string <$> b.
Proof.
  intros Hc. induction b as [|x b IH]; intros Hb Hbs; [done|]. apply Forall_cons in Hbs as [Hx Hbs].
  assert (Forall (λ d, d ≠ c) (to_string x)) as Hp.
  { destruct (byte_good x Hx) as (_ & _ & Hp). eapply Forall_impl; [exact Hp|]. intros d (H1 & H2 & _) ->.
    by destruct Hc. }
  destruct b as [|y b]; cbn [print_bytes].
  - rewrite <- (app_nil_r (to_string x)) at 1. by rewrite split_on_plain.
  - rewrite split_on_plain by done. cbn [app split_on]. rewrite decide_True by done.
    cbn [fmap list_fmap] in *. f_equal. by apply IH.
Qed.

Lemma parse_print c b : c = "."%char ∨ c = ":"%char → b ≠ [] → Forall is_byte b →
  parse_bytes c (print_bytes c b) = pton_ok b.
Proof.
  intros Hc Hb Hbs. unfold parse_bytes. rewrite split_print by done.
  assert (mapM parse_byte (to_string <$> b) = Some b) as ->; [|done].
  apply mapM_Some. apply Forall2_fmap_l. clear Hb. induction Hbs as [|x b Hx _ IH]; constructor; [|done].
  by apply byte_good.
Qed.

Lemma c_str_print c b : c = "."%char ∨ c = ":"%char → Forall is_byte b → c_str (print_bytes c b) = print_bytes c b.
Proof.
  intros Hc Hb. assert (Forall (λ d, d ≠ "000"%char) (print_bytes c b)) as H.
  { induction Hb as [|x b Hx _ IH]; [constructor|].
    assert (Forall (λ d, d ≠ "000"%char) (to_string x)) as Hp.
    { destruct (byte_good x Hx) as (_ & _ & Hp). eapply Forall_impl; [exact Hp|]. by intros d (_ & _ & ?). }
    destruct b as [|y b]; cbn [print_bytes]; [done|]. apply Forall_app. split; [done|]. constructor; [|done].
    by destruct Hc as [-> | ->]. }
  induction H as [|d s Hd _ IH]; cbn; [done|]. rewrite decide_False by done. by rewrite IH.
Qed.

#[local] Instance decimal_inet : Inet := {
  inet_pton family s := parse_bytes (sep family) s;
  inet_ntop family b := print_bytes (sep family) b;
  getaddrinfo _ _ _ := (0%Z, []);
  strerror := "Success" }.

#[local] Instance decimal_laws : InetLaws.
Proof.
  assert (∀ family b, b ≠ [] → Forall is_byte b →
    inet_pton family (c_str (inet_ntop family b)) = pton_ok b) as H.
  { intros family b Hn Hb. cbn. assert (sep family = "."%char ∨ sep family = ":"%char) as Hc
      by (unfold sep; destruct (decide _); tauto).
    rewrite c_str_print by done. by apply parse_print. }
  split.
  - intros b Hl Hb. apply H; [by intros ->|done].
  - intros b Hl Hb. apply H; [by intros ->|done].
  - by vm_compute.
Qed.

Lemma address_text_roundtrip_witness :
  ∃ a, IPv4Address_Create (lit "10.0.0.7") 8080 = Ok a ∧ GetFamily a = Some AF_INET ∧ GetPort a = 8080%Z ∧
    ToString a = Ok (inet_ntop AF_INET [10; 0; 0; 7]%Z ++ lit ":" ++ to_string 8080).
Proof.
  refine (proj1 (address_text_roundtrip 8080 _) [10; 0; 0; 7]%Z eq_refl _).
  - in_range_closed.
  - by_decide.
Defined.

(** A mask of 24 bits of an IPv4 address: the width is taken in bytes. *)
Lemma CreateMask_undefined : is_undef (CreateMask 4 24).
Proof. by eexists. Qed.

End AddressProps.
