(* ===== verification/Socket.v ===== *)
(** * Sockets

    [src/include/socket.hh] and [src/socket.cc] over a kernel that keeps the open
    descriptors.  What the kernel answers to each call is a list of the world;
    the data that is sent and received is not part of the state. *)

From S2P Require Import Prelude CStr Address Epoll.
Import CStr.

Module Socket.

Open Scope Z_scope.

(** ** The kernel *)

Definition TCP : Z := 1.
Definition UDP : Z := 2.
Definition IPv4 : Z := Address.AF_INET.
Definition IPv6 : Z := Address.AF_INET6.

(** [None] is a [buf_size_] that was never set. *)
Record Socket := mkSocket {
  socket_ : Z;
  family_ : Z;
  type_ : Z;
  protocol_ : Z;
  is_connected_ : bool;
  addr_ : option Address.Address;
  buf_size_ : option Z }.

(** The open descriptors; the objects by pointer, [None] once destroyed; the
    answers of the kernel to come. *)
Record World := mkWorld {
  fds : list Z;
  sockets : list (option Socket);
  answers : list Z }.

Definition set_fds (f : list Z → list Z) : M World unit :=
  modify (λ w, mkWorld (f (fds w)) (sockets w) (answers w)).
Definition set_sockets (f : list (option Socket) → list (option Socket)) : M World unit :=
  modify (λ w, mkWorld (fds w) (f (sockets w)) (answers w)).

(** A system call; one without an answer fails. *)
Definition syscall : M World Z := λ w,
  match answers w with
  | [] => (Ok (-1), w)
  | n :: l => (Ok n, mkWorld (fds w) (sockets w) l)
  end.

(** The least descriptor that is not open, searched upwards. *)
Fixpoint least_from (fuel : nat) (n : Z) (l : list Z) : Z :=
  match fuel with
  | O => n
  | S fuel => if decide (n ∈ l) then least_from fuel (n + 1) l else n
  end.
Definition least_fd (l : list Z) : Z := least_from (length l) 0 l.

(** [socket] and [accept]: -1, or a new descriptor. *)
Definition open_fd : M World Z :=
  n ← syscall;
  if decide (n < 0) then mret (-1)
  else
    w ← get;
    let fd := least_fd (fds w) in
    set_fds (cons fd);;
    mret fd.

Definition sys_close (fd : Z) : M World unit := set_fds (filter (.≠ fd)).

(** ** The object *)

Definition the (this : nat) : M World Socket :=
  w ← get;
  match sockets w !! this with
  | Some (Some s) => mret s
  | _ => undef "use of a destroyed socket"
  end.
Definition update (this : nat) (f : Socket → Socket) : M World unit :=
  s ← the this;
  set_sockets (<[this := Some (f s)]>).

Definition set_socket (fd : Z) (s : Socket) : Socket :=
  mkSocket fd (family_ s) (type_ s) (protocol_ s) (is_connected_ s) (addr_ s) (buf_size_ s).
Definition set_connected (b : bool) (s : Socket) : Socket :=
  mkSocket (socket_ s) (family_ s) (type_ s) (protocol_ s) b (addr_ s) (buf_size_ s).
Definition set_addr (a : option Address.Address) (s : Socket) : Socket :=
  mkSocket (socket_ s) (family_ s) (type_ s) (protocol_ s) (is_connected_ s) a (buf_size_ s).
Definition set_buf_size (n : Z) (s : Socket) : Socket :=
  mkSocket (socket_ s) (family_ s) (type_ s) (protocol_ s) (is_connected_ s) (addr_ s) (Some n).

Definition SetSockOpt : M World bool :=
  ret ← syscall;
  mret (negb (bool_decide (ret = -1))).
Definition GetSockOpt (this : nat) : M World bool :=
  _ ← the this;
  ret ← syscall;
  mret (negb (bool_decide (ret = -1))).

(** The constructor; [strerror(errno)] is [message]. *)
Definition Socket_new (message : string) (family type protocol : Z) : M World nat :=
  fd ← open_fd;
  SetSockOpt;;
  (if decide (type = TCP) then SetSockOpt else mret true);;
  syscall;;
  syscall;;
  if decide (fd = -1) then raise (runtime_error message)
  else
    w ← get;
    set_sockets (λ l, l ++ [Some (mkSocket fd family type protocol (bool_decide (type = UDP)) None None)]);;
    mret (length (sockets w)).

(** [if (socket_ != -1) { close(socket_); .. }]. *)
Definition close_socket (s : Socket) : M World unit :=
  if decide (socket_ s ≠ -1) then sys_close (socket_ s) else mret tt.

Definition Close (this : nat) : M World bool :=
  s ← the this;
  close_socket s;;
  update this (λ s, set_socket (-1) (set_connected false s));;
  mret true.

(** The destructor. *)
Definition destroy (this : nat) : M World unit :=
  s ← the this;
  close_socket s;;
  set_sockets (<[this := None]>).

Definition CreateTCPIPv4Socket (message : string) : M World nat := Socket_new message IPv4 TCP 0.
Definition CreateTCPIPv6Socket (message : string) : M World nat := Socket_new message IPv6 TCP 0.
Definition CreateUDPIPv4Socket (message : string) : M World nat := Socket_new message IPv4 UDP 0.
Definition CreateUDPIPv6Socket (message : string) : M World nat := Socket_new message IPv6 UDP 0.

Definition by_family (addr : Address.Address) (v4 v6 : M World nat) : M World (option nat) :=
  match Address.GetFamily addr with
  | None => undef "indeterminate family"
  | Some f =>
      if decide (f = IPv4) then p ← v4; mret (Some p)
      else if decide (f = IPv6) then p ← v6; mret (Some p)
      else mret None
  end.
Definition CreateTCPSocket (message : string) (addr : Address.Address) : M World (option nat) :=
  by_family addr (CreateTCPIPv4Socket message) (CreateTCPIPv6Socket message).
Definition CreateUDPSocket (message : string) (addr : Address.Address) : M World (option nat) :=
  by_family addr (CreateUDPIPv4Socket message) (CreateUDPIPv6Socket message).

Definition Bind (this : nat) (addr : Address.Address) : M World bool :=
  s ← the this;
  match Address.GetFamily addr with
  | None => undef "indeterminate family"
  | Some f =>
      if decide (f ≠ family_ s) then mret false
      else
        ret ← syscall;
        if decide (ret ≠ 0) then mret false
        else update this (set_addr (Some addr));; mret true
  end.

Definition Listen (this : nat) : M World bool :=
  _ ← the this;
  ret ← syscall;
  mret (bool_decide (ret = 0)).

(** [peer] is what the kernel writes to [addr]; when [Address::Create] throws, the
    new socket is destroyed by its last pointer. *)
Definition Accept (message : string) (this : nat) (peer : option Address.sockaddr) : M World (option nat) :=
  s ← the this;
  fd ← open_fd;
  if decide (fd = -1) then mret None
  else
    ret ← Socket_new message (family_ s) (type_ s) (protocol_ s);
    update ret (set_socket fd);;
    match Address.Create peer with
    | Ok a => update ret (set_addr a);; mret (Some ret)
    | Throw e => destroy ret;; raise e
    | Undef why => undef why
    | NoFuel => nofuel
    end.

Definition Connect (this : nat) : M World bool :=
  _ ← the this;
  ret ← syscall;
  if decide (ret ≠ 0) then mret false
  else update this (set_connected true);; mret true.

(** [int ret = send(..)], and the other calls that return their count so. *)
Definition counted (this : nat) : M World Z :=
  _ ← the this;
  ret ← syscall;
  mret (wrap i32 ret).
Definition Send (this : nat) : M World Z := counted this.
Definition SendTo (this : nat) : M World Z := counted this.
Definition SendMsg (this : nat) : M World Z := counted this.
(** The overloads on [iovec] return what [sendmsg] and [recvmsg] do. *)
Definition SendTo_iov (this : nat) : M World Z := _ ← the this; syscall.
Definition RecvFrom_iov (this : nat) : M World Z := _ ← the this; syscall.

(** [buf_size_ = ret]: a [size_t] from an [int]. *)
Definition received (this : nat) : M World Z :=
  ret ← counted this;
  update this (set_buf_size (wrap u64 ret));;
  mret ret.
Definition Recv (this : nat) : M World Z := received this.
Definition RecvFrom (this : nat) : M World Z := received this.
Definition RecvMsg (this : nat) : M World Z := received this.

Definition print_bool (b : bool) : str := if b then lit "1" else lit "0".
Definition ToString (s : Socket) : str :=
  lit "[socket = " ++ to_string (socket_ s) ++ lit ", connect = " ++ print_bool (is_connected_ s) ++
  lit ", family = " ++ to_string (family_ s) ++ lit ", type = " ++ to_string (type_ s) ++
  lit ", protocol = " ++ to_string (protocol_ s) ++ lit "]" ++ [lf].

(** On the epoll object of the thread. *)
Definition CancelReadEvent (s : Socket) : M Epoll.Epoll unit := Epoll.CancelEvent Epoll.READ (socket_ s).
Definition CancelWriteEvent (s : Socket) : M Epoll.Epoll unit := Epoll.CancelEvent Epoll.WRITE (socket_ s).
Definition CancelAllEvent (s : Socket) : M Epoll.Epoll unit :=
  Epoll.CancelEvent Epoll.READ (socket_ s);;
  Epoll.CancelEvent Epoll.WRITE (socket_ s).

End Socket.
