(* ===== verification/SocketProps.v ===== *)
(** * Properties of sockets

    Every open descriptor is accounted for: the sockets own theirs, and each
    accepted connection loses one. *)

From S2P Require Import Prelude CStr Address Socket.
Import CStr Socket.

Module SocketProps.

#[local] Open Scope Z_scope.

(** ** The least free descriptor *)

Lemma least_from_in fuel : ∀ n l, least_from fuel n l ∈ l → ∀ i, 0 ≤ i ≤ Z.of_nat fuel → n + i ∈ l.
Proof.
  induction fuel as [|fuel IH]; intros n l H i Hi; cbn [least_from] in H.
  - by replace (n + i) with n by lia.
  - destruct (decide (n ∈ l)) as [Hn|]; [|done]. destruct (decide (i = 0)) as [->|]; [by rewrite Z.add_0_r|].
    replace (n + i) with ((n + 1) + (i - 1)) by lia. apply (IH (n + 1) l H). lia.
Qed.

Lemma least_fd_free l : least_fd l ∉ l.
Proof.
  intros H. pose proof (least_from_in (length l) 0 l H) as Hin.
  assert (seqZ 0 (Z.of_nat (length l) + 1) ⊆+ l) as Hs.
  { apply NoDup_submseteq; [apply NoDup_seqZ|]. intros x Hx%elem_of_seqZ.
    apply (Hin x). lia. }
  apply submseteq_length in Hs. rewrite length_seqZ in Hs. lia.
Qed.

Lemma least_from_ge fuel : ∀ n l, n ≤ least_from fuel n l.
Proof.
  induction fuel as [|fuel IH]; intros n l; cbn [least_from]; [lia|]. destruct (decide _); [|lia].
  pose proof (IH (n + 1) l). lia.
Qed.

(** ** What is owned *)

Definition own (x : option Socket) : option Z :=
  s ← x; if decide (socket_ s = -1) then None else Some (socket_ s).
Definition owned (l : list (option Socket)) : list Z := omap own l.

(** The open descriptors are those of [base], the owned ones and the lost ones. *)
Record accounted (base lost : list Z) (w : World) : Prop := {
  ac_nodup : NoDup (fds w);
  ac_perm : fds w ≡ₚ base ++ owned (sockets w) ++ lost }.

Definition same (w w' : World) : Prop := fds w' = fds w ∧ sockets w' = sockets w.

Lemma accounted_same base lost w w' : same w w' → accounted base lost w → accounted base lost w'.
Proof. intros [H1 H2] [Hn Hp]. split; by rewrite H1, ?H2. Qed.

Lemma accounted_perm base lost lost' w : lost ≡ₚ lost' → accounted base lost w → accounted base lost' w.
Proof. intros Hl [Hn Hp]. split; [done|]. by rewrite <- Hl. Qed.

Lemma syscall_same w : ∃ n w', syscall w = (Ok n, w') ∧ same w w'.
Proof. unfold syscall. destruct (answers w) as [|n l]; by eexists _, _. Qed.

Lemma open_fd_cases w :
  (∃ w', open_fd w = (Ok (-1), w') ∧ same w w') ∨
  (∃ fd w', open_fd w = (Ok fd, w') ∧ fd ≠ -1 ∧ (fd ∉ fds w) ∧ fds w' = fd :: fds w ∧ sockets w' = sockets w).
Proof.
  unfold open_fd. destruct (syscall_same w) as (n & w1 & E & Hf & Hs). run E.
  destruct (decide (n < 0)); [left; by exists w1|]. right. mgo.
  exists (least_fd (fds w1)), (mkWorld (least_fd (fds w1) :: fds w1) (sockets w1) (answers w1)). split; [done|].
  pose proof (least_from_ge (length (fds w1)) 0 (fds w1)) as Hge. split; [unfold least_fd; lia|].
  pose proof (least_fd_free (fds w1)) as Hfree. rewrite Hf in *. done.
Qed.

Lemma SetSockOpt_same w : ∃ b w', SetSockOpt w = (Ok b, w') ∧ same w w'.
Proof. unfold SetSockOpt. destruct (syscall_same w) as (n & w1 & E & H). run E. by eexists _, _. Qed.

Lemma same_trans w1 w2 w3 : same w1 w2 → same w2 w3 → same w1 w3.
Proof. intros [] []. split; congruence. Qed.

Lemma Socket_new_cases message family type protocol w :
  (∃ w', Socket_new message family type protocol w = (Throw (runtime_error message), w') ∧ same w w') ∨
  (∃ s w', Socket_new message family type protocol w = (Ok (length (sockets w)), w') ∧
     socket_ s ≠ -1 ∧ (socket_ s ∉ fds w) ∧ fds w' = socket_ s :: fds w ∧ sockets w' = sockets w ++ [Some s]).
Proof.
  assert (∀ fd w1, ∃ w2, same w1 w2 ∧
    (SetSockOpt;; (if decide (type = TCP) then SetSockOpt else mret true);; syscall;; syscall;;
     if decide (fd = -1) then raise (runtime_error message)
     else w ← get;
       set_sockets (λ l, l ++ [Some (mkSocket fd family type protocol (bool_decide (type = UDP)) None None)]);;
       mret (length (sockets w))) w1 =
    (if decide (fd = -1) then (Throw (runtime_error message), w2)
     else (Ok (length (sockets w2)),
           mkWorld (fds w2) (sockets w2 ++ [Some (mkSocket fd family type protocol (bool_decide (type = UDP)) None None)]) (answers w2))))
    as Hrest.
  { intros fd w1. destruct (SetSockOpt_same w1) as (b & w2 & E2 & H2). run E2.
    assert (∃ b w', (if decide (type = TCP) then SetSockOpt else mret true) w2 = (Ok b, w') ∧ same w2 w') as (b' & w3 & E3 & H3).
    { destruct (decide _); [apply SetSockOpt_same|]. by exists true, w2. }
    run E3. destruct (syscall_same w3) as (n4 & w4 & E4 & H4). run E4. destruct (syscall_same w4) as (n5 & w5 & E5 & H5). run E5.
    exists w5. split; [by repeat (eapply same_trans; [eassumption|])|]. by destruct (decide (fd = -1)). }
  unfold Socket_new. destruct (open_fd_cases w) as [(w1 & E & H)|(fd & w1 & E & Hfd & Hn & Hf & Hs)]; run E.
  - left. destruct (Hrest (-1) w1) as (w2 & H2 & ->). exists w2. split; [done|by eapply same_trans].
  - right. destruct (Hrest fd w1) as (w2 & [H2f H2s] & ->). rewrite decide_False by done.
    eexists (mkSocket fd family type protocol (bool_decide (type = UDP)) None None), _. split; [by rewrite H2s, Hs|]. cbn.
    split; [done|]. split; [done|]. by rewrite H2f, Hf.
Qed.

(** ** Changes of one object *)

Lemma owned_app l k : owned (l ++ k) = owned l ++ owned k.
Proof. apply omap_app. Qed.

Lemma owned_split (l : list (option Socket)) (this : nat) x : l !! this = Some x →
  ∃ l1 l2, (∀ y, <[this := y]> l = l1 ++ y :: l2) ∧ l = l1 ++ x :: l2.
Proof.
  intros Hx. exists (take this l), (drop (S this) l). split; [|by rewrite take_drop_middle].
  intros y. by rewrite insert_take_drop by by eapply lookup_lt_Some.
Qed.

Lemma the_cases this w :
  (∃ s, the this w = (Ok s, w) ∧ sockets w !! this = Some (Some s)) ∨
  (∃ why, the this w = (Undef why, w)).
Proof. unfold the. mgo. destruct (sockets w !! this) as [[s|]|]; [left; by exists s|right; by eexists..]. Qed.

Lemma update_run this f s w : sockets w !! this = Some (Some s) →
  update this f w = (Ok tt, mkWorld (fds w) (<[this := Some (f s)]> (sockets w)) (answers w)).
Proof. intros Hs. unfold update. rewrite (bind_ok _ _ _ s w); [done|]. unfold the. mgo. by rewrite Hs. Qed.

(** The object at [this] now owns [x] instead of what it owned. *)
Lemma accounted_replace base lost w (this : nat) s y : sockets w !! this = Some (Some s) →
  accounted base lost w →
  ∀ lost', lost' ++ option_list (own y) ≡ₚ lost ++ option_list (own (Some s)) →
  accounted base lost' (mkWorld (fds w) (<[this := y]> (sockets w)) (answers w)).
Proof.
  intros Hs [Hn Hp] lost' Hl. split; [done|]. cbn. rewrite Hp.
  destruct (owned_split _ _ _ Hs) as (l1 & l2 & Hi & Hw). rewrite Hi. rewrite Hw at 1.
  rewrite !owned_app. cbn [owned omap list_omap]. fold (owned l2).
  assert (∀ x, match own x with Some z => z :: owned l2 | None => owned l2 end = option_list (own x) ++ owned l2) as E
    by (intros x; by destruct (own x)).
  rewrite !E. rewrite <- !(assoc_L (++)). f_equiv. f_equiv.
  rewrite (Permutation_app_comm (option_list (own (Some s)))), (Permutation_app_comm (option_list (own y))).
  rewrite <- !(assoc_L (++)). f_equiv. by symmetry.
Qed.

Lemma accounted_opened base lost w w' fd : accounted base lost w → fd ∉ fds w → fds w' = fd :: fds w →
  sockets w' = sockets w → accounted base (fd :: lost) w'.
Proof.
  intros [Hn Hp] Hf E1 E2. split; rewrite E1; [by constructor|]. rewrite E2, Hp, !(assoc_L (++)).
  apply Permutation_middle.
Qed.

Lemma accounted_created base lost w w' s : accounted base lost w → socket_ s ≠ -1 → socket_ s ∉ fds w →
  fds w' = socket_ s :: fds w → sockets w' = sockets w ++ [Some s] → accounted base lost w'.
Proof.
  intros [Hn Hp] Hs Hf E1 E2. split; rewrite E1; [by constructor|]. rewrite E2, owned_app.
  assert (owned [Some s] = [socket_ s]) as -> by (cbn; by rewrite decide_False).
  rewrite Hp, <- (assoc_L (++) (owned _)), !(assoc_L (++) base). apply Permutation_middle.
Qed.

Lemma filter_removes (x : Z) a b : NoDup (a ++ x :: b) → filter (.≠ x) (a ++ x :: b) = a ++ b.
Proof.
  intros (_ & Ha & Hb)%NoDup_app. apply NoDup_cons in Hb as [Hb _]. rewrite filter_app, filter_cons_False by naive_solver.
  assert (∀ l : list Z, x ∉ l → filter (.≠ x) l = l) as Hl.
  { induction l as [|y l IH]; intros Hx; [done|]. apply not_elem_of_cons in Hx as [Hy Hx].
    rewrite filter_cons_True by done. by rewrite IH. }
  rewrite !Hl; [done|done|]. intros Hx. apply (Ha x Hx). by left.
Qed.

(** The descriptor of the object at [this] is closed, and [y] takes its place. *)
Lemma close_accounted base lost w (this : nat) s y : sockets w !! this = Some (Some s) → own y = None →
  accounted base lost w →
  ∃ w', close_socket s w = (Ok tt, w') ∧ sockets w' = sockets w ∧ answers w' = answers w ∧
    accounted base lost (mkWorld (fds w') (<[this := y]> (sockets w')) (answers w')).
Proof.
  intros Hs Hy Ha. unfold close_socket. destruct (decide (socket_ s ≠ -1)) as [Hne|He].
  - eexists. split; [done|]. split; [done|]. split; [done|]. cbn.
    destruct (accounted_replace base lost w this s y Hs Ha (socket_ s :: lost)) as [Hn Hp].
    { rewrite Hy. cbn. rewrite decide_False by done. cbn. rewrite app_nil_r. apply Permutation_cons_append. }
    cbn in Hn, Hp. split; cbn; [by apply NoDup_filter|]. rewrite Hp in Hn |- *.
    rewrite (assoc_L (++)) in Hn |- *. rewrite filter_removes by done. by rewrite (assoc_L (++)).
  - exists w. split; [done|]. split; [done|]. split; [done|].
    apply (accounted_replace base lost w this s y Hs Ha). rewrite Hy. cbn.
    by destruct (decide (socket_ s = -1)).
Qed.

(** ** Every operation *)

Inductive op :=
| OpNew (family type protocol : Z)
| OpBind (this : nat) (addr : Address.Address)
| OpListen (this : nat)
| OpAccept (this : nat) (peer : option Address.sockaddr)
| OpConnect (this : nat)
| OpSend (this : nat)
| OpRecv (this : nat)
| OpGetSockOpt (this : nat)
| OpClose (this : nat)
| OpDestroy (this : nat).

(** An operation, and how many descriptors it loses: one if [accept] gave one. *)
Definition run_op (message : string) (o : op) (w : World) : nat * World :=
  match o with
  | OpNew family type protocol => (0%nat, (Socket_new message family type protocol w).2)
  | OpBind this addr => (0%nat, (Bind this addr w).2)
  | OpListen this => (0%nat, (Listen this w).2)
  | OpAccept this peer =>
      match Accept message this peer w with
      | (Ok (Some _), w') | (Throw _, w') => (1%nat, w')
      | (_, w') => (0%nat, w')
      end
  | OpConnect this => (0%nat, (Connect this w).2)
  | OpSend this => (0%nat, (Send this w).2)
  | OpRecv this => (0%nat, (Recv this w).2)
  | OpGetSockOpt this => (0%nat, (GetSockOpt this w).2)
  | OpClose this => (0%nat, (Close this w).2)
  | OpDestroy this => (0%nat, (destroy this w).2)
  end.

Fixpoint run_ops (message : string) (l : list op) (w : World) : nat * World :=
  match l with
  | [] => (0%nat, w)
  | o :: l => let '(n, w) := run_op message o w in let '(k, w) := run_ops message l w in ((n + k)%nat, w)
  end.

Lemma run_the {A} this (f : Socket → M World A) (P : World → Prop) w : P w →
  (∀ s, sockets w !! this = Some (Some s) → P ((f s) w).2) → P ((the this ≫= f) w).2.
Proof.
  intros Hw Hf. destruct (the_cases this w) as [(s & E & Hs)|(why & E)].
  - rewrite (bind_ok _ _ _ _ _ E). by apply Hf.
  - by rewrite (bind_undef _ _ _ _ _ E).
Qed.

Lemma run_syscall {A} (f : Z → M World A) (P : World → Prop) w :
  (∀ n w', same w w' → P ((f n) w').2) → P ((syscall ≫= f) w).2.
Proof. intros Hf. destruct (syscall_same w) as (n & w' & E & H). rewrite (bind_ok _ _ _ _ _ E). by apply Hf. Qed.

(** A change that keeps the descriptor. *)
Lemma run_update {A} this f s (g : unit → M World A) base lost w :
  sockets w !! this = Some (Some s) → socket_ (f s) = socket_ s → accounted base lost w →
  (∀ w', accounted base lost w' → accounted base lost ((g tt) w').2) →
  accounted base lost ((update this f ≫= g) w).2.
Proof.
  intros Hs Hf Ha Hg. rewrite (bind_ok _ _ _ _ _ (update_run this f s w Hs)). apply Hg.
  apply (accounted_replace base lost w this s (Some (f s)) Hs Ha). cbn. by rewrite Hf.
Qed.

Lemma simple_ops_accounted message o base lost w : (∀ this peer, o ≠ OpAccept this peer) →
  accounted base lost w → accounted base lost (run_op message o w).2.
Proof.
  intros Hna Ha. pose proof (λ w', accounted_same base lost w w') as Hsame.
  destruct o as [family type protocol|this addr|this|this peer|this|this|this|this|this|this]; cbn [run_op snd].
  - destruct (Socket_new_cases message family type protocol w) as [(w' & -> & H)|(s & w' & -> & Hs & Hn & Hf & Hk)].
    + by apply Hsame.
    + by eapply accounted_created.
  - unfold Bind. apply run_the; [done|]. intros s Hs. destruct (Address.GetFamily addr); [|done].
    destruct (decide _); [done|]. apply run_syscall. intros ret w' H. destruct (decide _); [by apply Hsame|].
    apply (run_update this _ s); [by destruct H as [_ ->]|done|by apply Hsame|done].
  - unfold Listen. apply run_the; [done|]. intros s Hs. apply run_syscall. intros ret w' H. by apply Hsame.
  - by destruct (Hna this peer).
  - unfold Connect. apply run_the; [done|]. intros s Hs. apply run_syscall. intros ret w' H.
    destruct (decide _); [by apply Hsame|]. apply (run_update this _ s); [by destruct H as [_ ->]|done|by apply Hsame|done].
  - unfold Send, counted. apply run_the; [done|]. intros s Hs. apply run_syscall. intros ret w' H. by apply Hsame.
  - unfold Recv, received, counted. rewrite bind_assoc. apply run_the; [done|]. intros s Hs. rewrite bind_assoc.
    apply run_syscall. intros ret w' H. mgo.
    apply (run_update this _ s); [by destruct H as [_ ->]|done|by apply Hsame|done].
  - unfold GetSockOpt. apply run_the; [done|]. intros s Hs. apply run_syscall. intros ret w' H. by apply Hsame.
  - unfold Close. apply run_the; [done|]. intros s Hs.
    destruct (close_accounted base lost w this s (Some (set_socket (-1) (set_connected false s))) Hs) as (w' & E & Hk & Hans & H);
      [done|done|]. rewrite (bind_ok _ _ _ _ _ E). rewrite <- Hk in Hs.
    by rewrite (bind_ok _ _ _ _ _ (update_run this _ s w' Hs)).
  - unfold destroy. apply run_the; [done|]. intros s Hs.
    destruct (close_accounted base lost w this s None Hs) as (w' & E & Hk & Hans & H); [done|done|].
    by rewrite (bind_ok _ _ _ _ _ E).
Qed.

Lemma accept_accounted message this peer base lost w : accounted base lost w →
  let '(n, w') := run_op message (OpAccept this peer) w in
  ∃ more, length more = n ∧ accounted base (lost ++ more) w'.
Proof.
  intros Ha. cbn [run_op]. unfold Accept.
  assert (∀ w', accounted base lost w' → ∃ more, length more = 0%nat ∧ accounted base (lost ++ more) w') as Hnone
    by (intros w' H; exists []; by rewrite app_nil_r).
  destruct (the_cases this w) as [(s & E & Hs)|(why & E)].
  2: { rewrite (bind_undef _ _ _ _ _ E). by apply Hnone. }
  rewrite (bind_ok _ _ _ _ _ E). destruct (open_fd_cases w) as [(w1 & E1 & H1)|(fd & w1 & E1 & Hfd & Hn & Hf & Hk)];
    rewrite (bind_ok _ _ _ _ _ E1).
  { apply Hnone. by apply (accounted_same base lost w). }
  rewrite decide_False by done. pose proof (accounted_opened base lost w w1 fd Ha Hn Hf Hk) as Ha1.
  assert (∀ x w', accounted base (x :: lost) w' → ∃ more, length more = 1%nat ∧ accounted base (lost ++ more) w') as Hone.
  { intros x w' H. exists [x]. split; [done|]. eapply accounted_perm; [|exact H]. apply Permutation_cons_append. }
  destruct (Socket_new_cases message (family_ s) (type_ s) (protocol_ s) w1) as [(w2 & E2 & H2)|(r & w2 & E2 & Hr & Hrn & Hrf & Hrk)].
  { rewrite (bind_throw _ _ _ _ _ E2). apply (Hone fd). by apply (accounted_same base (fd :: lost) w1). }
  rewrite (bind_ok _ _ _ _ _ E2). pose proof (accounted_created base (fd :: lost) w1 w2 r Ha1 Hr Hrn Hrf Hrk) as Ha2.
  assert (sockets w2 !! length (sockets w1) = Some (Some r)) as Hl2 by (rewrite Hrk; by apply list_lookup_middle).
  rewrite (bind_ok _ _ _ _ _ (update_run _ (set_socket fd) r w2 Hl2)).
  pose proof (accounted_replace base (fd :: lost) w2 _ r (Some (set_socket fd r)) Hl2 Ha2 (socket_ r :: lost)) as Ha3.
  cbn [own mbind option_bind set_socket socket_] in Ha3. rewrite !decide_False in Ha3 by done.
  specialize (Ha3 ltac:(cbn; by rewrite <- !Permutation_cons_append; apply perm_swap)).
  set (w3 := mkWorld _ _ _) in *.
  assert (sockets w3 !! length (sockets w1) = Some (Some (set_socket fd r))) as Hl3
    by (apply list_lookup_insert_eq; by eapply lookup_lt_Some).
  assert (∀ a, accounted base (socket_ r :: lost) (update (length (sockets w1)) (set_addr a) w3).2) as Hset.
  { intros a. rewrite (update_run _ _ _ _ Hl3).
    by apply (accounted_replace base (socket_ r :: lost) w3 _ _ (Some (set_addr a (set_socket fd r))) Hl3 Ha3). }
  destruct (Address.Create peer) as [a|e|why|] eqn:Ec.
  - rewrite (bind_ok _ _ _ tt _ (update_run _ _ _ _ Hl3)). apply (Hone (socket_ r)). specialize (Hset a).
    by rewrite (update_run _ _ _ _ Hl3) in Hset.
  - unfold destroy. rewrite bind_assoc.
    assert (the (length (sockets w1)) w3 = (Ok (set_socket fd r), w3)) as Et by (unfold the; mgo; by rewrite Hl3).
    rewrite (bind_ok _ _ _ _ _ Et). rewrite bind_assoc.
    destruct (close_accounted base (socket_ r :: lost) w3 _ _ None Hl3) as (w4 & E4 & _ & _ & Ha4); [done|done|].
    rewrite (bind_ok _ _ _ _ _ E4). by apply (Hone (socket_ r)).
  - by destruct peer as [[| |]|].
  - by destruct peer as [[| |]|].
Qed.

Lemma run_ops_accounted message l : ∀ base lost w, accounted base lost w →
  let '(k, w') := run_ops message l w in ∃ more, length more = k ∧ accounted base (lost ++ more) w'.
Proof.
  induction l as [|o l IH]; intros base lost w Ha; cbn [run_ops]; [exists []; by rewrite app_nil_r|].
  assert (let '(n, w') := run_op message o w in ∃ more, length more = n ∧ accounted base (lost ++ more) w') as Ho.
  { destruct o; try (by apply accept_accounted);
      (match goal with |- let '(n, w') := run_op ?m ?o ?w in _ => pose proof (simple_ops_accounted m o base lost w) as Hs end;
       cbn [run_op snd] in *; exists []; rewrite app_nil_r; split; [done|]; by apply Hs). }
  destruct (run_op message o w) as [n w1]. destruct Ho as (m1 & Hm1 & Ha1).
  specialize (IH base (lost ++ m1) w1 Ha1). destruct (run_ops message l w1) as [k w2]. destruct IH as (m2 & Hm2 & Ha2).
  exists (m1 ++ m2). rewrite length_app, (assoc_L (++)). split; [lia|done].
Qed.

(** [C21] Descriptors are accounted for: over any calls of socket operations and
    any answers of the kernel, the open descriptors are those open before, those
    the live sockets hold, each held once, and one more for every call of
    [Accept] that got a connection, which no socket holds: the one the
    constructor opened for the new object before [Accept] overwrote it. *)
Theorem descriptors_accounted message (l : list op) base kernel : NoDup base →
  let '(k, w) := run_ops message l (mkWorld base [] kernel) in
  NoDup (fds w) ∧ ∃ lost, length lost = k ∧ fds w ≡ₚ base ++ owned (sockets w) ++ lost.
Proof.
  intros Hb. pose proof (run_ops_accounted message l base [] (mkWorld base [] kernel)) as H.
  destruct (run_ops _ _ _) as [k w]. destruct H as (lost & Hl & [Hn Hp]); [split; cbn; [done|by rewrite app_nil_r]|].
  split; [done|]. by exists lost.
Qed.

(** A server that accepts one connection and closes both sockets. *)
Lemma descriptors_accounted_witness :
  let '(k, w) := run_ops "error" [OpNew IPv4 TCP 0; OpListen 0; OpAccept 0 None; OpDestroy 1; OpDestroy 0]
                   (mkWorld [0; 1; 2] [] (replicate 20 0)) in
  NoDup (fds w) ∧ ∃ lost, length lost = k ∧ fds w ≡ₚ [0; 1; 2] ++ owned (sockets w) ++ lost.
Proof.
  refine (descriptors_accounted "error" [OpNew IPv4 TCP 0; OpListen 0; OpAccept 0 None; OpDestroy 1; OpDestroy 0]
    [0; 1; 2] (replicate 20 0) _).
  by_decide.
Defined.

(** An accepted connection is reported as not connected. *)
Lemma accepted_not_connected :
  option_map is_connected_ <$> sockets (run_ops "error" [OpNew IPv4 TCP 0; OpListen 0; OpAccept 0 None]
    (mkWorld [0; 1; 2] [] (replicate 20 0))).2 = [Some false; Some false].
Proof. by vm_compute. Qed.

(** A failed [Recv] makes the size of the buffer the greatest [size_t]. *)
Lemma failed_Recv_size :
  (λ s : option Socket, s ≫= buf_size_) <$> sockets (run_ops "error" [OpNew IPv4 UDP 0; OpRecv 0]
    (mkWorld [0; 1; 2] [] (replicate 4 0 ++ [-1]))).2 = [Some (2 ^ 64 - 1)].
Proof. by vm_compute. Qed.

End SocketProps.
