(* ===== verification/Util.v ===== *)
(** * Utilities

    [src/util.cc] and [src/include/singleton.hh]: stack traces, the clock, and
    instances created on first use.  [backtrace] and the clock are parameters. *)

From S2P Require Import Prelude CStr.
Import CStr.

Module Util.

(** ** Stack traces *)

Section BackTrace.
(** [backtrace(array, sz)] and [backtrace_symbols] of its result; [None] is a null
    pointer. *)
Context (symbols : Z → option (list str)).

(** [size_t i = skip]: a negative [skip] is beyond every frame. *)
Definition BackTrace (bt : list str) (sz skip : Z) : list str :=
  match symbols sz with
  | None => bt
  | Some frames => bt ++ drop (Z.to_nat (wrap u64 skip)) frames
  end.

Definition BacktraceToString (sz skip : Z) (prefix : str) : str :=
  concat ((λ f, prefix ++ f ++ [lf]) <$> BackTrace [] sz skip).
End BackTrace.

(** ** The clock *)

Record timespec := mkTimespec { tv_sec : Z; tv_nsec : Z }.

Definition GetElapseFromRebootMS (ts : timespec) : Z :=
  wrap u64 (wrap i64 (wrap i64 (tv_sec ts * 1000) + Z.quot (tv_nsec ts) 1000000)).

(** ** Singletons *)

Section Singleton.
Context {S T : Type} (construct : M S T).

(** A local static: constructed by the first call that returns, and the same
    object from then on; a constructor that throws is run again by the next. *)
Definition GetInstance : M (option T * S) T := λ '(instance, s),
  match instance with
  | Some t => (Ok t, (instance, s))
  | None =>
      match construct s with
      | (Ok t, s) => (Ok t, (Some t, s))
      | (Throw e, s) => (Throw e, (None, s))
      | (Undef why, s) => (Undef why, (None, s))
      | (NoFuel, s) => (NoFuel, (None, s))
      end
  end.
End Singleton.

(** ** Facts *)

(** The milliseconds of a clock that does not go back do not go back. *)
Lemma GetElapse_monotone a b :
  (0 ≤ tv_sec a)%Z → (tv_sec b * 1000 + 1000 < 2 ^ 63)%Z →
  (0 ≤ tv_nsec a < 1000000000)%Z → (0 ≤ tv_nsec b < 1000000000)%Z →
  (tv_sec a * 1000000000 + tv_nsec a ≤ tv_sec b * 1000000000 + tv_nsec b)%Z →
  (GetElapseFromRebootMS a ≤ GetElapseFromRebootMS b)%Z.
Proof.
  intros Ha Hb Hna Hnb Hle. unfold GetElapseFromRebootMS.
  assert (∀ x, (0 ≤ tv_nsec x < 1000000000)%Z → (0 ≤ Z.quot (tv_nsec x) 1000000 < 1000)%Z) as Hq.
  { intros x Hx. rewrite Z.quot_div_nonneg by lia. split; [apply Z.div_pos; lia|apply Z.div_lt_upper_bound; lia]. }
  pose proof (Hq a Hna). pose proof (Hq b Hnb).
  assert (tv_sec a ≤ tv_sec b)%Z as Hs by lia.
  assert (∀ z, (0 ≤ z < 2 ^ 63)%Z → wrap i64 z = z ∧ wrap u64 z = z) as Hw.
  { intros z Hz. split; apply wrap_id; try done; unfold in_range; cbn in *; lia. }
  destruct (Hw (tv_sec a * 1000)%Z) as [-> _]; [lia|]. destruct (Hw (tv_sec b * 1000)%Z) as [-> _]; [lia|].
  destruct (Hw (tv_sec a * 1000 + Z.quot (tv_nsec a) 1000000)%Z) as [E1 E1']; [lia|].
  destruct (Hw (tv_sec b * 1000 + Z.quot (tv_nsec b) 1000000)%Z) as [E2 E2']; [lia|].
  rewrite E1, E1', E2, E2'. destruct (decide (tv_sec a = tv_sec b)) as [E|E]; [|lia].
  rewrite E in *. apply Z.add_le_mono_l. rewrite !Z.quot_div_nonneg by lia. apply Z.div_le_mono; lia.
Qed.

(** After a call that returned, every call returns the same object. *)
Lemma GetInstance_once {S T} (construct : M S T) s t s' :
  GetInstance construct s = (Ok t, s') → GetInstance construct s' = (Ok t, s').
Proof.
  destruct s as [[x|] s]; cbn; [by intros [= <- <-]|].
  destruct (construct s) as [[y|e|why|] s1]; [|done..]. by intros [= <- <-].
Qed.

End Util.
