(* ===== verification/ProgramProps.v ===== *)
(** * From a document to the loggers

    The configuration of the program end to end: the registry with the variable
    [logs], as the static initialisers leave it, and the documents it loads. *)

From S2P Require Import Prelude CStr Log LexicalCast YamlText Config ConfigProps LogConf LogConfProps.
Import CStr LexicalCast Config ConfigProps Log LogConf LogConfProps.

Module ProgramProps.

(** ** Sets of configurations *)

(** Ascending names. *)
Fixpoint ordered (l : list LoggerConf) : Prop :=
  match l with
  | [] => True
  | c :: l => Forall (λ d, klt (conf_name_ c) (conf_name_ d) = true) l ∧ ordered l
  end.

Lemma set_insert_Forall (P : LoggerConf → Prop) c l : P c → Forall P l → Forall P (set_insert c l).
Proof.
  intros Hc. induction 1 as [|d l Hd Hl IH]; cbn [set_insert]; [by repeat constructor|].
  destruct (less c d); [by repeat constructor|]. destruct (less d c); by repeat constructor.
Qed.

Lemma set_insert_ordered c l : ordered l → ordered (set_insert c l).
Proof.
  induction l as [|d l IH]; intros Ho; [done|]. destruct Ho as [Hd Ho]. cbn [set_insert].
  destruct (less c d) eqn:E1; unfold less, LoggerConf_less, LoggerConf_lt in E1.
  - split; [|by split]. constructor; [done|]. eapply Forall_impl; [exact Hd|]. intros e He. by eapply klt_trans.
  - destruct (less d c) eqn:E2; [|done]. split; [|by apply IH]. by apply set_insert_Forall.
Qed.

Lemma ordered_distinct l : ordered l → distinct l.
Proof.
  induction l as [|c l IH]; intros Ho; [constructor|]. destruct Ho as [Hc Ho]. constructor; [|by apply IH].
  intros (d & Hd & Hin)%list_elem_of_fmap. rewrite Forall_forall in Hc. apply Hc in Hin.
  rewrite Hd in Hin. by rewrite klt_irrefl in Hin.
Qed.

Section Program.
Context {Node : Type} `{Y : Yaml Node}.

Lemma cast_set_distinct s x : lexical_cast s = Ok (x : std_set LoggerConf) → distinct (set_list x).
Proof.
  unfold lexical_cast, cast_set. destruct (Load s) as [n| | |]; [|done..]. cbn.
  destruct (cast_nodes (elements n)) as [l| | |]; [|done..]. intros [= <-]. cbn. apply ordered_distinct.
  assert (∀ l acc, ordered acc → ordered (foldl (λ acc x, set_insert x acc) acc l)) as H.
  { clear. induction l as [|c l IH]; intros acc Ha; [done|]. cbn. apply IH. by apply set_insert_ordered. }
  by apply H.
Qed.

(** ** The program's registry *)

(** The one type of variable the program has. *)
#[local] Instance program_types : ValueTypes := {
  Ty := unit;
  denote _ := std_set LoggerConf;
  denote_equal _ := log_set_equal;
  denote_to_str _ := print_set;
  denote_from_str _ := cast_set;
  Typename _ := lit "std::set<Sylar::LoggerConf>" }.

(** [g_log_set] is registered, and [LogConfInit] constructed. *)
Definition start : M (@State program_types LogWorld) unit :=
  Lookup_or_add (tt : @Ty program_types) (lit "logs") (std_set_of []) (lit "the set of pre-defined logs");;
  on_var 0 (λ _, LogConfInit).

Definition program_start : @State program_types LogWorld := (start (State_new LogWorld_new)).2.

(** A document is loaded: [LoadFromYaml] returns or throws. *)
Definition loads (st st' : @State program_types LogWorld) : Prop :=
  ∃ fuel (root : Node) o, LoadFromYaml fuel root st = (o, st') ∧ settled o.

(** The variable, its listener and the loggers. *)
Definition program_ok (st : @State program_types LogWorld) : Prop :=
  registry_ok st ∧ conf_vars st = [(lit "logs", Some 0)] ∧
  ∃ v : ConfigVar LogWorld (std_set LoggerConf), vars st = [upcast (tt : @Ty program_types) v] ∧ life_ok (v, world st).

Lemma FromString_life s v w : life_ok (v, w) →
  ∃ o v' w', FromString s (v, w) = (o, (v', w')) ∧ (settled o → life_ok (v', w')).
Proof.
  intros Hl. rewrite FromString_unfold. destruct (lexical_cast s) as [x|e|why|] eqn:E.
  - destruct (SetValue_life x (v, w) (cast_set_distinct s x E) Hl) as ([v' w'] & -> & _ & Hl').
    by eexists _, v', w'.
  - by eexists _, v, w.
  - by eexists _, v, w.
  - by eexists _, v, w.
Qed.

Lemma load_entry_program key (node : Node) st o st' : program_ok st →
  load_entry key node st = (o, st') → settled o → program_ok st'.
Proof.
  intros (Hok & Hn & v & Hv & Hl) He Hs.
  destruct (load_entry_names key node st o st' Hok He Hs) as [Hn' Hsafe]. destruct (Hsafe Hok) as [Hok' _].
  split; [done|]. split; [congruence|]. destruct (variable_of (conf_vars st) key) as [p|] eqn:Ev.
  - destruct (decide (IsScalar node = true ∧ tolower <$> key ≠ key)) as [[H1 H2]|Hc].
    { destruct (load_entry_crash key node st) as [st1 E]; [done|by split; [eexists|]|]. rewrite He in E.
      by injection E as -> _. }
    rewrite (load_entry_sets key node st p) in He; [|done|intros (_ & ? & ?); by apply Hc|done].
    assert (p = 0) as ->.
    { rewrite Hn in Ev. unfold variable_of in Ev. destruct key; [done|]. cbn [dget] in Ev.
      destruct (decide _) in Ev; [by injection Ev|done]. }
    destruct (FromString_life (text node) v (world st) Hl) as (o1 & v1 & w1 & E & Hl1).
    unfold mbind, M_bind in He. rewrite (on_var_run 0 (tt : @Ty program_types) v v1 w1 _ o1 st) in He;
      [|by rewrite Hv|exact E].
    assert (st' = mkState (<[0 := upcast (tt : @Ty program_types) v1]> (vars st)) (conf_vars st) w1 ∧ settled o1) as [-> Hs1]
      by (destruct o1; injection He as <- <-; done).
    exists v1. split; [by cbn; rewrite Hv|]. by apply Hl1.
  - rewrite load_entry_skip in He by done. injection He as _ <-. by exists v.
Qed.

Lemma load_entries_program (l : list (str * Node)) : ∀ st o st', program_ok st →
  load_entries l st = (o, st') → settled o → program_ok st'.
Proof.
  induction l as [|[key node] l IH]; intros st o st' Hp; cbn [load_entries]; [by intros [= _ <-] _|].
  unfold mbind, M_bind. destruct (load_entry key node st) as [o1 st1] eqn:E.
  destruct o1 as [[]|e| |]; intros H Hs; [|injection H as <- <-..].
  - apply (IH st1 o st'); [|done|done]. by apply (load_entry_program key node st (Ok tt)).
  - by apply (load_entry_program key node st (Throw e)).
  - done.
  - done.
Qed.

Lemma loads_program st st' : program_ok st → loads st st' → program_ok st'.
Proof.
  intros Hp (fuel & root & o & E & Hs). unfold LoadFromYaml in E.
  destruct (YamlToList fuel [] root []) as [l|e|why|]; cbn in E.
  - by apply (load_entries_program l st o).
  - by injection E as _ <-.
  - by injection E as <- _.
  - by injection E as <- _.
Qed.

Lemma registered w : Lookup_or_add (tt : @Ty program_types) (lit "logs") (std_set_of [])
    (lit "the set of pre-defined logs") (State_new w) =
  (Ok (Some 0), mkState [upcast (tt : @Ty program_types) g_log_set] [(lit "logs", Some 0)] w).
Proof. reflexivity. Qed.

Lemma LogConfInit_id v w o v' w' : LogConfInit (v, w) = (o, (v', w')) → same_id v v'.
Proof.
  unfold LogConfInit, mbind, M_bind. destruct (SetValue (std_set_of (set_insert root_conf [])) (v, w)) as [o1 [v1 w1]] eqn:E.
  apply SetValue_id in E. destruct o1; by intros [= _ <- _].
Qed.

Lemma program_start_ok : program_ok program_start.
Proof.
  destruct LogConfInit_life as ([v w] & E & _ & Hl). pose proof (LogConfInit_id _ _ _ _ _ E) as Hid.
  unfold program_start, start. rewrite (bind_ok _ _ _ _ _ (registered LogWorld_new)).
  pose proof (Lookup_or_add_safe _ _ _ _ _ _ _ (registered LogWorld_new)) as Hsafe.
  destruct Hsafe as [Hok _]; [by split|]. set (st := mkState _ _ LogWorld_new) in *.
  rewrite (on_var_run 0 (tt : @Ty program_types) g_log_set v w (λ _, LogConfInit) (Ok tt) st); [|done|exact E].
  cbn [snd]. split; [|split; [done|by exists v]].
  by destruct (replace_safe st 0 (tt : @Ty program_types) g_log_set v w eq_refl Hid Hok).
Qed.

Lemma program_loads st : rtc loads program_start st → program_ok st.
Proof.
  intros H. remember program_start as st0 eqn:E0. assert (program_ok st0) as Hp by (subst; apply program_start_ok).
  clear E0. induction H as [|s1 s2 s3 H1 _ IH]; [done|]. apply IH. by eapply loads_program.
Qed.

Lemma log_sets_sound : equal_sound.
Proof.
  intros [] [a] [b] H. unfold equal in H. cbn in H. unfold log_set_equal in H. apply bool_decide_eq_true in H.
  cbn in H. by subst.
Qed.
End Program.

(** [C9] The loggers follow the documents: after any documents the program has
    loaded, whether loading them returned or threw, the manager has exactly the
    loggers that the variable [logs] describes; and when loading a further one
    returns, the variable has the set the document's last entry for [logs]
    converts to, or keeps its value if there is none, and the loggers mirror it. *)
Theorem loggers_follow_documents {Node} `{Y : Yaml Node} st :
  rtc (loads (Node := Node)) program_start st →
  ∃ v : ConfigVar LogWorld (std_set LoggerConf), vars st = [upcast (tt : @Ty program_types) v] ∧
    mirrors (world st) (set_list (value_ v)) ∧
    ∀ fuel (root : Node) l st', YamlToList fuel [] root [] = Ok l → LoadFromYaml fuel root st = (Ok tt, st') →
      ∃ v' : ConfigVar LogWorld (std_set LoggerConf), vars st' = [upcast (tt : @Ty program_types) v'] ∧
        mirrors (world st') (set_list (value_ v')) ∧
        match last (texts (conf_vars st) 0 l) with
        | Some s => lexical_cast s = Ok (value_ v')
        | None => value_ v' = value_ v
        end.
Proof.
  intros Hr. pose proof (program_loads st Hr) as Hp. pose proof Hp as (Hok & _ & v & Hv & Hl).
  exists v. split; [done|]. split; [apply Hl|]. intros fuel root l st' Hy He.
  destruct (loads_program st st' Hp) as (_ & _ & v' & Hv' & Hl'); [by exists fuel, root, (Ok tt)|].
  exists v'. split; [done|]. split; [apply Hl'|]. rewrite (LoadFromYaml_unfold _ _ _ _ Hy) in He.
  destruct (load_entries_values l st st' 0 (tt : @Ty program_types) v) as (v2 & Hv2 & H2);
    [exact log_sets_sound|done|done|by rewrite Hv|].
  rewrite Hv' in Hv2.
  apply (f_equal (option_map (λ b, projT2 b : ConfigVar LogWorld (std_set LoggerConf)))) in Hv2.
  injection Hv2 as ->. done.
Qed.

(** A document that configures one logger, read from text. *)
Definition logs_text : str :=
  lit "{logs:[{name:system,level:warn,appenders:[{type:LogAppenderToStd,formatter:%m%n,},],},],}".
Definition logs_doc : YamlText.tree :=
  match YamlText.load logs_text with Ok t => t | _ => YamlText.Undefined end.
Definition after_doc : @State program_types LogWorld := (LoadFromYaml 5 logs_doc program_start).2.

Lemma loggers_follow_documents_witness :
  ∃ v : ConfigVar LogWorld (std_set LoggerConf),
    vars after_doc = [upcast (tt : @Ty (program_types (Node := YamlText.tree))) v] ∧
    mirrors (world after_doc) (set_list (value_ v)).
Proof.
  destruct (loggers_follow_documents (Node := YamlText.tree) after_doc) as (v & Hv & Hm & _).
  - apply rtc_once. exists 5, logs_doc, (LoadFromYaml 5 logs_doc program_start).1.
    split; [apply surjective_pairing|by vm_compute].
  - by exists v.
Defined.

(** The logger it configures is found, at its level and with its appender. *)
Example configured_logger :
  match GetLogger (lit "system") (manager (world after_doc)) with
  | Ok p => (λ lg, (max_level_ lg, length (appenders_ lg))) <$> heap (manager (world after_doc)) !! p
            = Some (LogLevel.WARN, 1)
  | _ => False
  end.
Proof. by vm_compute. Qed.

End ProgramProps.
